(* ===== verification/_CoqProject ===== *)
-Q . S2P
Prelude.v
Kv.v
Clock.v
ShardedMap.v
MapTheory.v
MapConc.v
HashRing.v
Fs.v
Atomic.v
Wal.v
WalTheory.v
Iface.v
Writer.v
Snap.v
Evict.v
EvictTheory.v
Engine.v
EngineTheory.v
SnapConc.v
Resp.v
RespTheory.v
Mesh.v
Database.v
Entropy.v
EntropyTheory.v
PullConc.v
Converge.v
Cluster.v
ClusterTheory.v
Builder.v
GoLib.v
Cli.v
Lifecycle.v
TestCluster.v
CacheConc.v
Servers.v
Process.v
