(* ===== verification/Prelude.v ===== *)
(** * oryx: a verification library (root file)

    oryx (src/) is a replicated key-value database in Go.  A node keeps its records in a
    sharded in-memory map, logs every change, takes snapshots, and evicts old keys; nodes form
    a cluster in which a consistent-hashing ring gives every key its owners, writes go to all
    owners under last-write-wins, and anti-entropy repairs what writes missed.  Clients speak
    RESP or gRPC.  This library models those parts as executable definitions, named after the
    code they translate, and proves what makes each correct.

    ** Layout: which file models what

    - [Prelude]: bytes, slices ([None] is nil), 64- and 32-bit wrap-around, Go errors and
      results, the tactics [ored] and [zbits], the hint database [go], shared lemmas.
    - [Kv]: the record of kv/types.go, the messages of api/oryx.proto, security/utils.go with
      SHA-256 written out.
    - [Clock]: core/clock/clock.go; the compare-and-swap loops run alone and interleaved.
    - [ShardedMap], [MapTheory]: core/hashmap/shardedmap.go; shards, published trees, shared
      value wrappers and rolling digests, with the well-formedness invariant [sm_ok] and the
      abstraction [represents].  [MapConc]: the same code with its calls interleaved.
    - [HashRing]: cluster/mesh/hashring.go.
    - [Fs], [Atomic]: the files of the operating system, each call of which can fail or be the
      last before a crash, which may bring back an earlier directory, and the replace-by-rename
      idiom.
    - [Wal], [WalTheory]: core/wal/wal.go.
    - [Iface]: the Go interfaces Clocker, Waler, Evictor and Database as classes of operations
      with classes of laws; [Clock] and [Wal] discharge theirs here.
    - [Writer]: core/writer/storagewriter.go.  [Snap]: core/snap/snapshot.go.
    - [Evict], [EvictTheory]: core/evict/eviction.go, pointers in a heap.
    - [Engine], [EngineTheory]: core/engine.go, over the interfaces of [Iface].
    - [SnapConc]: a snapshot while requests are applied, over [MapConc] and the log's records.
    - [Resp], [RespTheory]: server/resp.go, over any [Database].
    - [Mesh]: cluster/mesh/mesh.go and meshbuilder.go; the interface [Mesher].
    - [Database]: the single-node adapter of database.go, which makes the engine a [Database]
      that satisfies the laws; the gRPC handlers of server/server.go with gateway/client.go.
    - [Entropy], [EntropyTheory]: cluster/entropy/sync.go with its two gRPC handlers;
      [Converge]: its rounds between any number of nodes; [PullConc]: a pull that is answered
      while other goroutines write, over [MapConc].
    - [Cluster], [ClusterTheory]: cluster/node.go, gateway/, gossip/, stats/; the cluster is
      the map of its nodes, over a network that may refuse a call or lose its reply and whose
      calls take time, with the time-out of the clients that read through it.
    - [Builder]: databasebuilder.go and newDatabase.
    - [GoLib]: what the code uses of Go's strings, unicode/utf8, path/filepath and time packages.
    - [Cli]: the commands of cmd/oryx/cmd, serve over [Builder] and the client commands over
      any [Database].
    - [Lifecycle]: [Start] and [Stop] of the engine, the node and their parts, and the
      background goroutines interleaved with a [Stop].
    - [TestCluster]: server/cluster.go.
    - [CacheConc]: gateway/clientcache.go under concurrency.
    - [Servers]: the listeners of server/resp.go and server/server.go, the search for a free
      port, and core.NewEngine with its configuration.
    - [Process]: the goroutines of serve (cmd/oryx/cmd/serve.go) from the start of the database
      to the exit of the process.

    State is a record per component and an operation a function on it.  [option] is a panic
    or a call that does not return, as each file says; [result] is a Go error.  A computation
    that runs over files is in the monad of [Fs].  What other code decides (wall-clock
    readings, random numbers, the choice of a select, map iteration order, the order of
    goroutines, what a pool hands out, what the network does) is an argument, and the theorems
    hold for every value of it.  Third-party code is a class with its documented behaviour as
    laws (xxhash, protobuf, the radix tree), with an instance that shows the laws can hold;
    gob, memberlist, gRPC and gnet enter through what the code observes of them.

    ** What the theorems show

    - Clock: issued timestamps strictly increase under any interleaving until the ceiling, the
      one value that repeats; accepted remote ones are exceeded, none moves the clock far ahead,
      and [Now] returns.
    - Map: it refines a finite map; merging converges whatever the order; digests are a
      function of the contents; where equal digests do not mean equal contents.  Concurrent
      calls are linearizable, without locks for readers; [Range] is weakly consistent.
    - Ring and mesh: routing depends on the membership alone, replicas are distinct, a leave
      moves only what it must; the tables follow the notifications; joining is bounded.
    - Log and snapshots: framing and replay round trip; what survives faults and crashes at
      every point (the names of the log's files having reached the medium); clearing and
      replacing are atomic, and a snapshot is so whichever directory a crash brings back, though
      the old one can come back after the log was cleared; where a record is lost; a snapshot
      taken among writes and the log that is kept together give what the map holds.
    - Writer and engine: requests by branch, convergence of replicas, refinement of a plain
      map for a client, durability over a restart of what the log acknowledged, the snapshot
      round trip and its leak.
    - Eviction: the linked shards implement bounded recency lists; bounds on size and
      staleness; the self-deadlock and the panic with a short time to live.
    - RESP and gRPC: the parser accepts exactly the frames; a read event executes its complete
      frames and ends; over any lawful database both servers refine a command server on a map;
      a split request is lost and can smuggle commands.
    - Anti-entropy: a pull is exact, and among writes exact where nothing was written and never
      wrong; a round is a partial merge; after any rounds nodes that have heard of the same
      nodes agree, which a star of pulls achieves for a whole cluster where digests hide no
      difference; a round in which they do teaches nothing.
    - Cluster: what a replicated write leaves and reports under each failure mode, told from the
      replicas that fail, read-your-writes through every node, and that reads end by their
      time-outs, which the read of an absent key always waits for.
    - Builder: when [Build] succeeds, and the configurations it should not refuse or accept.
    - Command line: flags before environment before defaults; which flags bring a node up; a
      script of client commands prints and exits as a map tells, whatever the connection does;
      plain text only where it was asked for.
    - Life cycle: parts start and stop once and in order; a [Stop] that waits leaves no
      goroutine; which configurations panic on [Start]; the process exits with status 0 only
      when everything has been stopped after its last request, and where it ends without.
    - Test cluster: reserved port ranges are disjoint and where the reservation is not kept;
      the layout of a cluster; a failed [Start] leaves no node running.
    - Client cache: no interleaving of [Get] and [Close] leaks a connection.

    The examples that apply the theorems to concrete states are at the end of the theory
    files, those of [Mesh] and [Resp] with the database they run on.

    ** Fuel and bounds

    Loops that are not structural take fuel: the binary search and the merge sort of the ring,
    the list walks of an eviction shard and the read loop of RESP start with enough for their
    input, and the theorems show that they never run out; a result that needs fuel is proved to
    be returned.  The search for ports has the bounds of the code (1000 and 250 probes), and the
    parser of durations takes the length of its input.  Reads across the cluster are indexed by
    hops and by the time they are given; since a call takes time, hops above the time are enough
    ([reads_end_by_timeouts]).  Timestamps, counters, digests and masks keep their width.

    ** Hypotheses that recur

    Convergence and read-your-writes assume what the code does not ensure, and say so: no two
    different records that tie on timestamp, node and item hash ([collision_free], [no_ties]),
    no two nodes at one position of the ring ([distinct_positions]), logs that report no errors
    while a batch is pushed ([log_reliable]), rings that agree ([routed], [agreed]), a clock
    below its ceiling.

    ** Not modelled

    The examples and the generated protobuf code; the serving loops of grpc and gnet beyond
    what [Process] observes of them, tickers as clocks (a tick can come at any moment); the bytes
    of gob; the occupancy ratio as a floating-point number; object pools, where what they hand out
    is overwritten before it is used; help texts, metrics and log messages. *)

From Stdlib Require Export Ascii.
From stdpp Require Export base gmap strings list sorting fin_maps.
From stdpp Require Import numbers.
From Stdlib Require Export ZArith Lia ZifyBool.

#[global] Open Scope Z_scope.

(** ** Go data: bytes, slices and machine integers *)

(** A Go byte is an [ascii] (eight bits); a byte string is a list of them. *)
Abbreviation bytes := (list ascii) (only parsing).

(** A Go [[]byte]: [None] is the nil slice, [Some l] a non-nil slice holding [l]. *)
Abbreviation slice := (option (list ascii)) (only parsing).

Declare Scope go_scope.
Delimit Scope go_scope with go.

(** Unsigned and signed wrap-around at 64 and 32 bits. *)
Definition u64 (z : Z) : Z := z mod 2 ^ 64.
Definition u32 (z : Z) : Z := z mod 2 ^ 32.
Definition i64 (z : Z) : Z := let r := u64 z in if r <? 2 ^ 63 then r else r - 2 ^ 64.
Definition i32 (z : Z) : Z := let r := u32 z in if r <? 2 ^ 31 then r else r - 2 ^ 32.

#[global] Arguments u64 : simpl never.
#[global] Arguments u32 : simpl never.
#[global] Arguments i64 : simpl never.
#[global] Arguments i32 : simpl never.

(** The largest [int64] and [uint64] ([math.MaxInt64], [^uint64(0)]). *)
Definition MaxInt64 : Z := 2 ^ 63 - 1.

(** [math/bits.RotateLeft64]. *)
Definition RotateLeft64 (x k : Z) : Z :=
  Z.lor (u64 (Z.shiftl x k)) (Z.shiftr x (64 - k)).

Notation "a ^^ b" := (Z.lxor a b) (at level 50, left associativity) : go_scope.

(** [len] of a slice: nil and empty both have length 0. *)
Definition slice_bytes (s : slice) : bytes := default [] s.
Definition slice_len (s : slice) : Z := Z.of_nat (length (slice_bytes s)).

(** Unsigned value of a byte, and back. *)
Definition byte_val (a : ascii) : Z := Z.of_N (N_of_ascii a).
Definition byte_of (z : Z) : ascii := ascii_of_N (Z.to_N (z mod 256)).

(** [[]byte(s)] and [string(b)]. *)
Definition string_bytes (s : string) : bytes := String.list_ascii_of_string s.
Definition bytes_string (b : bytes) : string := String.string_of_list_ascii b.

(** Go compares strings bytewise; [str_gt a b] is the Go expression [a > b]. *)
Fixpoint str_gt (a b : string) : bool :=
  match a, b with
  | EmptyString, _ => false
  | String _ _, EmptyString => true
  | String x a', String y b' =>
      if byte_val x =? byte_val y then str_gt a' b' else byte_val y <? byte_val x
  end.

(** ** Results: the value-or-error returns of Go functions *)

(** A Go error, identified by the operation that produced it and its message; a run-time
    panic ends a call as an error of its own kind. *)
Inductive goerr :=
| ErrMsg (msg : string)
| ErrIO (op : string)
| ErrPanic (what : string)
| ErrWrap (ctx : string) (inner : goerr).

Inductive result (A : Type) :=
| Ok (a : A)
| Err (e : goerr).
Arguments Ok {A} _.
Arguments Err {A} _.

Definition is_ok {A} (r : result A) : bool := match r with Ok _ => true | Err _ => false end.

(** ** Exclusive-or folds *)

(** The exclusive or of a list of words. *)
Definition xor_list (l : list Z) : Z := foldr Z.lxor 0 l.

(** The exclusive or of [f] over the values of a finite map. *)
Definition xor_map {K A} `{Countable K} (f : A -> Z) (m : gmap K A) : Z :=
  map_fold (fun _ v acc => Z.lxor (f v) acc) 0 m.

(** ** Automation *)

Create HintDb go.
Create Rewrite HintDb go_rw.

(** Splits conjunctions, booleans and options in the context. *)
Ltac go_simp :=
  repeat match goal with
    | H : _ /\ _ |- _ => destruct H
    | H : (_ && _)%bool = true |- _ => apply andb_true_iff in H as [? ?]
    | H : (_ || _)%bool = false |- _ => apply orb_false_iff in H as [? ?]
    | H : negb _ = true |- _ => apply negb_true_iff in H
    | H : negb _ = false |- _ => apply negb_false_iff in H
    | H : (_ =? _) = true |- _ => apply Z.eqb_eq in H
    | H : (_ =? _) = false |- _ => apply Z.eqb_neq in H
    | H : (_ <? _) = true |- _ => apply Z.ltb_lt in H
    | H : (_ <? _) = false |- _ => apply Z.ltb_ge in H
    | H : (_ <=? _) = true |- _ => apply Z.leb_le in H
    | H : (_ <=? _) = false |- _ => apply Z.leb_gt in H
    end; simplify_eq/=.

(** Case analysis on every [if] and [match] of the goal, remembering the test. *)
Ltac go_case :=
  repeat match goal with
    | |- context [if ?b then _ else _] => let E := fresh "E" in destruct b eqn:E
    | |- context [match ?x with _ => _ end] => let E := fresh "E" in destruct x eqn:E
    end; go_simp.

(** Reduces binds and maps over an [option] that is a constructor, and nothing else. *)
Ltac ored := cbn [mbind option_bind fmap option_fmap option_map].

(** Linear arithmetic with division and remainder by constants. *)
Ltac zlia := Z.div_mod_to_equations; lia.

(** Bitwise equality of integers: compare the bits one by one. *)
Ltac zbits :=
  apply Z.bits_inj'; intros ?i ?Hi;
  rewrite ?Z.lxor_spec, ?Z.lor_spec, ?Z.land_spec, ?Z.bits_0;
  repeat match goal with |- context [Z.testbit ?a ?j] => destruct (Z.testbit a j) end;
  reflexivity.

(** ** Word lemmas *)

Lemma u64_range z : 0 <= u64 z < 2 ^ 64.
Proof. apply Z.mod_pos_bound; lia. Qed.

Lemma u64_small z : 0 <= z < 2 ^ 64 -> u64 z = z.
Proof. apply Z.mod_small. Qed.

Lemma u32_range z : 0 <= u32 z < 2 ^ 32.
Proof. apply Z.mod_pos_bound; lia. Qed.

Lemma u32_small z : 0 <= z < 2 ^ 32 -> u32 z = z.
Proof. apply Z.mod_small. Qed.

Lemma u32_idemp z : u32 (u32 z) = u32 z.
Proof. unfold u32. apply Zmod_mod. Qed.

Lemma u32_add_l a b : u32 (u32 a + b) = u32 (a + b).
Proof. unfold u32. apply Zplus_mod_idemp_l. Qed.

Lemma i64_small z : 0 <= z < 2 ^ 63 -> i64 z = z.
Proof.
  intros H. unfold i64. rewrite u64_small by lia.
  destruct (Z.ltb_spec z (2 ^ 63)); lia.
Qed.

Lemma testbit_above a n i : 0 <= a < 2 ^ n -> 0 <= n <= i -> Z.testbit a i = false.
Proof.
  intros Ha Hn. rewrite <- (Z.mod_small a (2 ^ n)) by lia.
  apply Z.mod_pow2_bits_high; lia.
Qed.

(** A non-negative integer with no bit at or above [n] is below [2 ^ n]. *)
Lemma bits_below_range a n :
  0 <= a -> 0 <= n -> (forall i, n <= i -> Z.testbit a i = false) -> a < 2 ^ n.
Proof.
  intros Ha Hn Hb.
  assert (a = a mod 2 ^ n) as ->.
  { apply Z.bits_inj'; intros i Hi. destruct (Z.lt_ge_cases i n).
    - by rewrite Z.mod_pow2_bits_low by lia.
    - rewrite Z.mod_pow2_bits_high by lia. auto. }
  apply Z.mod_pos_bound. apply Z.pow_pos_nonneg; lia.
Qed.

Lemma lxor_range a b n :
  0 <= n -> 0 <= a < 2 ^ n -> 0 <= b < 2 ^ n -> 0 <= Z.lxor a b < 2 ^ n.
Proof.
  intros Hn Ha Hb.
  assert (0 <= Z.lxor a b) by (apply Z.lxor_nonneg; lia).
  split; [done|]. apply bits_below_range; [done..|].
  intros i Hi. by rewrite Z.lxor_spec, !(testbit_above _ n) by lia.
Qed.

Lemma lor_range a b n :
  0 <= n -> 0 <= a < 2 ^ n -> 0 <= b < 2 ^ n -> 0 <= Z.lor a b < 2 ^ n.
Proof.
  intros Hn Ha Hb.
  assert (0 <= Z.lor a b) by (apply Z.lor_nonneg; lia).
  split; [done|]. apply bits_below_range; [done..|].
  intros i Hi. by rewrite Z.lor_spec, !(testbit_above _ n) by lia.
Qed.

Lemma RotateLeft64_range x k :
  0 <= x < 2 ^ 64 -> 0 <= k <= 64 -> 0 <= RotateLeft64 x k < 2 ^ 64.
Proof.
  intros Hx Hk. apply lor_range; [lia|apply u64_range|].
  rewrite Z.shiftr_div_pow2 by lia. split.
  - apply Z.div_pos; [lia|]. apply Z.pow_pos_nonneg; lia.
  - apply Z.le_lt_trans with x; [|lia].
    apply Z.div_le_upper_bound; [apply Z.pow_pos_nonneg; lia|].
    assert (0 < 2 ^ (64 - k)) by (apply Z.pow_pos_nonneg; lia). nia.
Qed.

(** A high part shifted over a low part is their sum: no bit is shared. *)
Lemma lor_shiftl_low hi lo n :
  0 <= n -> 0 <= lo < 2 ^ n -> Z.lor (Z.shiftl hi n) lo = hi * 2 ^ n + lo.
Proof.
  intros Hn Hlo.
  rewrite <- Z.shiftl_mul_pow2 by lia.
  rewrite Z.add_nocarry_lxor.
  - apply Z.bits_inj'; intros i Hi. rewrite Z.lor_spec, Z.lxor_spec, Z.shiftl_spec by lia.
    destruct (Z.lt_ge_cases i n).
    + rewrite (Z.testbit_neg_r hi) by lia. by destruct (Z.testbit lo i).
    + rewrite (testbit_above lo n) by lia. by destruct (Z.testbit hi _).
  - apply Z.bits_inj'; intros i Hi. rewrite Z.land_spec, Z.shiftl_spec, Z.bits_0 by lia.
    destruct (Z.lt_ge_cases i n).
    + by rewrite (Z.testbit_neg_r hi) by lia.
    + rewrite (testbit_above lo n) by lia. apply andb_false_r.
Qed.

(** ** Exclusive-or folds *)

Lemma lxor_cancel_l a b : Z.lxor a (Z.lxor a b) = b.
Proof. by rewrite <- Z.lxor_assoc, Z.lxor_nilpotent, Z.lxor_0_l. Qed.

Lemma lxor_comm3 a b c : Z.lxor a (Z.lxor b c) = Z.lxor b (Z.lxor a c).
Proof. rewrite <- !Z.lxor_assoc. f_equal. apply Z.lxor_comm. Qed.

Lemma xor_list_range l :
  Forall (fun z => 0 <= z < 2 ^ 64) l -> 0 <= xor_list l < 2 ^ 64.
Proof.
  induction 1; simpl; [lia|]. by apply lxor_range.
Qed.

(** Replacing the word at position [i] changes the fold by the old and the new word. *)
Lemma xor_list_insert l i x y :
  l !! i = Some x ->
  xor_list (<[i := y]> l) = Z.lxor (Z.lxor (xor_list l) x) y.
Proof.
  revert i. induction l as [|z l IH]; intros [|i] Hi; simplify_eq/=.
  - zbits.
  - rewrite (IH _ Hi). zbits.
Qed.

Section XorMap.
Context {K A : Type} `{Countable K} (f : A -> Z).
Implicit Types m : gmap K A.

Lemma xor_map_empty : xor_map f (∅ : gmap K A) = 0.
Proof. apply map_fold_empty. Qed.

Lemma xor_map_insert_new m k v :
  m !! k = None -> xor_map f (<[k := v]> m) = Z.lxor (f v) (xor_map f m).
Proof.
  intros Hk. unfold xor_map. rewrite map_fold_insert_L; [done| |done].
  intros. apply lxor_comm3.
Qed.

Lemma xor_map_delete m k v :
  m !! k = Some v -> xor_map f (delete k m) = Z.lxor (f v) (xor_map f m).
Proof.
  intros Hk. rewrite <- (insert_delete_id m k v Hk) at 2.
  rewrite xor_map_insert_new by apply lookup_delete_eq. by rewrite lxor_cancel_l.
Qed.

Lemma xor_map_insert_old m k v w :
  m !! k = Some v ->
  xor_map f (<[k := w]> m) = Z.lxor (Z.lxor (xor_map f m) (f v)) (f w).
Proof.
  intros Hk. rewrite <- insert_delete_eq.
  rewrite xor_map_insert_new by apply lookup_delete_eq.
  rewrite (xor_map_delete m k v Hk). zbits.
Qed.

End XorMap.

(** ** Filters *)

Lemma mjoin_cons {A} (l : list A) (ls : list (list A)) : mjoin (l :: ls) = l ++ mjoin ls.
Proof. done. Qed.

Section Filters.
Context {A : Type} (P : A -> Prop) `{!forall x, Decision (P x)}.

Lemma filter_all (l : list A) : Forall P l -> filter P l = l.
Proof. induction 1; [done|]. rewrite filter_cons_True by done. by f_equal. Qed.

Lemma filter_none (l : list A) : Forall (fun x => ~ P x) l -> filter P l = [].
Proof. induction 1; [done|]. by rewrite filter_cons_False. Qed.

Lemma filter_fmap {B} (f : B -> A) (l : list B) :
  filter P (f <$> l) = f <$> filter (fun x => P (f x)) l.
Proof.
  induction l as [|x l IH]; [done|]. cbn [fmap list_fmap].
  rewrite !filter_cons. case_decide; [cbn; f_equal|]; done.
Qed.

Lemma StronglySorted_filter (R : relation A) (l : list A) :
  StronglySorted R l -> StronglySorted R (filter P l).
Proof.
  induction 1 as [|x l Hs IH Hx]; [constructor|].
  rewrite filter_cons. case_decide; [|done]. constructor; [done|].
  rewrite list.Forall_forall in Hx |- *. intros y [_ Hy]%list_elem_of_filter. auto.
Qed.

End Filters.

(** ** Strings and bytes *)

Lemma byte_val_inj a b : byte_val a = byte_val b -> a = b.
Proof.
  unfold byte_val. intros E%N2Z.inj.
  by rewrite <- (ascii_N_embedding a), <- (ascii_N_embedding b), E.
Qed.

Lemma byte_val_range a : 0 <= byte_val a < 256.
Proof. unfold byte_val. pose proof (N_ascii_bounded a). lia. Qed.

Lemma byte_val_of z : byte_val (byte_of z) = z mod 256.
Proof.
  unfold byte_val, byte_of. pose proof (Z.mod_pos_bound z 256).
  rewrite N_ascii_embedding by lia. rewrite Z2N.id; lia.
Qed.

Lemma bytes_string_bytes s : bytes_string (string_bytes s) = s.
Proof. apply String.string_of_list_ascii_of_string. Qed.

Lemma string_bytes_string b : string_bytes (bytes_string b) = b.
Proof. apply String.list_ascii_of_string_of_list_ascii. Qed.

Lemma string_bytes_inj a b : string_bytes a = string_bytes b -> a = b.
Proof.
  intros E. by rewrite <- (bytes_string_bytes a), E, bytes_string_bytes.
Qed.

Lemma string_bytes_app a b : string_bytes (String.append a b) = string_bytes a ++ string_bytes b.
Proof.
  induction a as [|x a IH]; [done|].
  change (x :: string_bytes (String.append a b) = x :: string_bytes a ++ string_bytes b).
  by rewrite IH.
Qed.

Lemma string_app_inj_l a b c : String.append a b = String.append a c -> b = c.
Proof.
  intros E%(f_equal string_bytes). rewrite !string_bytes_app in E.
  by apply app_inv_head, string_bytes_inj in E.
Qed.

Lemma string_app_inj_r a b c : String.append b a = String.append c a -> b = c.
Proof.
  intros E%(f_equal string_bytes). rewrite !string_bytes_app in E.
  by apply app_inv_tail, string_bytes_inj in E.
Qed.

Lemma str_gt_irrefl a : str_gt a a = false.
Proof. induction a; simpl; [done|]. by rewrite Z.eqb_refl. Qed.

Lemma str_gt_trans a b c : str_gt a b = true -> str_gt b c = true -> str_gt a c = true.
Proof.
  revert b c. induction a as [|x a IH]; intros [|y b] [|z c]; simpl; try done.
  destruct (Z.eqb_spec (byte_val x) (byte_val y)), (Z.eqb_spec (byte_val y) (byte_val z)),
    (Z.eqb_spec (byte_val x) (byte_val z)); rewrite ?Z.ltb_lt; try lia; eauto.
Qed.

Lemma str_gt_total a b : str_gt a b = true \/ a = b \/ str_gt b a = true.
Proof.
  revert b. induction a as [|x a IH]; intros [|y b]; simpl; auto.
  destruct (Z.eqb_spec (byte_val x) (byte_val y)) as [E|E].
  - apply byte_val_inj in E as ->. rewrite Z.eqb_refl.
    destruct (IH b) as [|[->|]]; auto.
  - destruct (Z.eqb_spec (byte_val y) (byte_val x)); [lia|].
    rewrite !Z.ltb_lt. lia.
Qed.

#[export] Hint Resolve u64_range u32_range lxor_range xor_list_range byte_val_range
  RotateLeft64_range : go.
#[export] Hint Rewrite Z.lxor_0_l Z.lxor_0_r Z.lxor_nilpotent lxor_cancel_l
  bytes_string_bytes string_bytes_string : go_rw.
