(* ===== verification/Kv.v ===== *)
(** * Records, wire messages and hashing

    The data that every other component passes around: the record of
    src/kv/types.go, the messages of src/api/oryx.proto as the Go code uses them,
    and src/security/utils.go.

    [xxhash] and the protobuf runtime are not part of the repository: they are the
    classes [XXHash] and [Proto], with the documented behaviour the code relies on
    as their laws ([XXHashLaws], [ProtoLaws]).  SHA-256 belongs to the Go standard
    library and is written out, so [HashFuncSecure] computes. *)

From S2P Require Import Prelude.

(** ** kv/types.go *)

Abbreviation Key := string (only parsing).
Abbreviation HashKey := Z (only parsing).

(** [kv.Value]: a record with the metadata last-write-wins needs. *)
Record Value := mkValue {
  NodeID : string;
  Data : slice;
  Timestamp : Z;
  Tombstone : bool;
  ItemHash : Z
}.

(** The zero value [kv.Value{}]. *)
Definition zeroValue : Value := mkValue EmptyString None 0 false 0.

(** The field update [v.ItemHash = h]. *)
Definition with_ItemHash (v : Value) (h : Z) : Value :=
  mkValue (NodeID v) (Data v) (Timestamp v) (Tombstone v) h.

#[export] Instance Value_eq_dec : EqDecision Value.
Proof. solve_decision. Defined.

#[export] Instance Value_inhabited : Inhabited Value := populate zeroValue.

(** ** api/oryx.proto: the messages that cross component boundaries *)

Record SetRequest := mkSet {
  set_Key : string;
  set_Value : slice;
  set_Timestamp : Z;
  set_NodeId : string
}.

Record DeleteRequest := mkDelete {
  del_Key : string;
  del_Timestamp : Z;
  del_NodeId : string
}.

(** The [oneof entry] of [WalEntry]; an unset [oneof] is [None]. *)
Inductive walOp :=
| WalEntry_Set (r : SetRequest)
| WalEntry_Delete (r : DeleteRequest).

Record WalEntry := mkWalEntry { Entry : option walOp }.

#[export] Instance SetRequest_eq_dec : EqDecision SetRequest.
Proof. solve_decision. Defined.
#[export] Instance DeleteRequest_eq_dec : EqDecision DeleteRequest.
Proof. solve_decision. Defined.
#[export] Instance walOp_eq_dec : EqDecision walOp.
Proof. solve_decision. Defined.

(** ** security/utils.go *)

(** The third-party [xxhash] package. *)
Class XXHash := {
  Sum64String : string -> Z;
  Sum64 : bytes -> Z
}.

(** Documented behaviour: both functions return a [uint64], and a string hashes as
    its bytes do. *)
Class XXHashLaws `{XXHash} : Prop := {
  Sum64_range : forall b, 0 <= Sum64 b < 2 ^ 64;
  Sum64String_bytes : forall s, Sum64String s = Sum64 (string_bytes s)
}.

Definition HashFunc `{XXHash} (key : string) : HashKey := Sum64String key.

Definition HashBytes `{XXHash} (data : bytes) : Z := Sum64 data.

Lemma HashFunc_range `{XXHashLaws} k : 0 <= HashFunc k < 2 ^ 64.
Proof. unfold HashFunc. rewrite Sum64String_bytes. apply Sum64_range. Qed.

Lemma HashBytes_range `{XXHashLaws} b : 0 <= HashBytes b < 2 ^ 64.
Proof. apply Sum64_range. Qed.

#[export] Hint Resolve HashFunc_range HashBytes_range : go.

(** FNV-1a, a concrete 64-bit hash with which the laws hold. *)
Module Fnv.
Definition fnv1a (b : bytes) : Z :=
  foldl (fun h a => u64 (Z.lxor h (byte_val a) * 1099511628211)) 14695981039346656037 b.

#[export] Instance fnv_xxhash : XXHash :=
  {| Sum64String s := fnv1a (string_bytes s); Sum64 := fnv1a |}.

#[export] Instance fnv_laws : XXHashLaws.
Proof.
  split; [|done]. intros b. simpl. unfold fnv1a.
  assert (forall h, 0 <= h < 2 ^ 64 -> 0 <= foldl (fun h a =>
    u64 (Z.lxor h (byte_val a) * 1099511628211)) h b < 2 ^ 64) as Hgen; [|apply Hgen; lia].
  induction b as [|a b IH]; simpl; [done|]. intros h Hh. apply IH. apply u64_range.
Qed.
End Fnv.

(** ** crypto/sha256 *)

Module Sha256.

Definition K : list Z := [
  1116352408; 1899447441; 3049323471; 3921009573; 961987163; 1508970993; 2453635748; 2870763221;
  3624381080; 310598401; 607225278; 1426881987; 1925078388; 2162078206; 2614888103; 3248222580;
  3835390401; 4022224774; 264347078; 604807628; 770255983; 1249150122; 1555081692; 1996064986;
  2554220882; 2821834349; 2952996808; 3210313671; 3336571891; 3584528711; 113926993; 338241895;
  666307205; 773529912; 1294757372; 1396182291; 1695183700; 1986661051; 2177026350; 2456956037;
  2730485921; 2820302411; 3259730800; 3345764771; 3516065817; 3600352804; 4094571909; 275423344;
  430227734; 506948616; 659060556; 883997877; 958139571; 1322822218; 1537002063; 1747873779;
  1955562222; 2024104815; 2227730452; 2361852424; 2428436474; 2756734187; 3204031479; 3329325298 ].

Definition H0 : list Z := [ 1779033703; 3144134277; 1013904242; 2773480762;
  1359893119; 2600822924; 528734635; 1541459225 ].

Definition rotr (x n : Z) : Z := Z.lor (Z.shiftr x n) (u32 (Z.shiftl x (32 - n))).
Definition bsig0 x := Z.lxor (Z.lxor (rotr x 2) (rotr x 13)) (rotr x 22).
Definition bsig1 x := Z.lxor (Z.lxor (rotr x 6) (rotr x 11)) (rotr x 25).
Definition ssig0 x := Z.lxor (Z.lxor (rotr x 7) (rotr x 18)) (Z.shiftr x 3).
Definition ssig1 x := Z.lxor (Z.lxor (rotr x 17) (rotr x 19)) (Z.shiftr x 10).
Definition ch x y z := Z.lxor (Z.land x y) (Z.land (Z.lxor x (2 ^ 32 - 1)) z).
Definition maj x y z := Z.lxor (Z.lxor (Z.land x y) (Z.land x z)) (Z.land y z).

(** The message schedule, newest word first: [n] words are added in front. *)
Fixpoint schedule (n : nat) (w : list Z) : list Z :=
  match n with
  | O => w
  | S n' =>
      let g i := nth i w 0 in
      schedule n' (u32 (ssig1 (g 1%nat) + g 6%nat + ssig0 (g 14%nat) + g 15%nat) :: w)
  end.

Definition round (st : list Z) (kw : Z * Z) : list Z :=
  match st with
  | [a; b; c; d; e; f; g; h] =>
      let t1 := h + bsig1 e + ch e f g + fst kw + snd kw in
      let t2 := bsig0 a + maj a b c in
      [u32 (t1 + t2); a; b; c; u32 (d + t1); e; f; g]
  | _ => st
  end.

Definition compress (st : list Z) (block : list Z) : list Z :=
  let w := rev (schedule 48 (rev block)) in
  zip_with (fun x y => u32 (x + y)) st (foldl round st (combine K w)).

(** Big-endian reading of a list of byte values. *)
Definition be (l : list Z) : Z := foldl (fun acc b => acc * 256 + b) 0 l.

(** Splits a list in chunks of [n] elements; [fuel] bounds the number of chunks. *)
Fixpoint chunks {A} (fuel n : nat) (l : list A) : list (list A) :=
  match fuel, l with
  | O, _ | _, [] => []
  | S f, _ => take n l :: chunks f n (drop n l)
  end.

Definition be64 (z : Z) : list Z :=
  map (fun i => (z / 256 ^ i) mod 256) [7; 6; 5; 4; 3; 2; 1; 0].

Definition pad (m : list Z) : list Z :=
  let n := Z.of_nat (length m) in
  m ++ 128 :: replicate (Z.to_nat ((55 - n) mod 64)) 0 ++ be64 (8 * n).

(** The digest as eight 32-bit words. *)
Definition sum (m : list Z) : list Z :=
  let p := pad m in
  let blocks := chunks (length p) 64 p in
  foldl (fun st b => compress st (map be (chunks 16 4 b))) H0 blocks.

Example sum_abc : sum (map byte_val (string_bytes "abc")) =
  [3128432319; 2399260650; 1094795486; 1571693091; 2953011619; 2518121116; 3021012833; 4060091821].
Proof. vm_compute. reflexivity. Qed.

End Sha256.

(** [binary.BigEndian.Uint64(h[:8])] of the SHA-256 sum of the key. *)
Definition HashFuncSecure (key : string) : Z :=
  match Sha256.sum (map byte_val (string_bytes key)) with
  | w0 :: w1 :: _ => u64 (w0 * 2 ^ 32 + w1)
  | _ => 0
  end.

Lemma HashFuncSecure_range k : 0 <= HashFuncSecure k < 2 ^ 64.
Proof.
  unfold HashFuncSecure. destruct (Sha256.sum _) as [|? [|? ?]]; [lia..|apply u64_range].
Qed.

(** ** The protobuf runtime *)

(** [proto.MarshalOptions{}.MarshalAppend] on a fresh buffer and [proto.Unmarshal],
    for the one message type the storage layer encodes. *)
Class Proto := {
  Marshal : WalEntry -> option bytes;
  Unmarshal : bytes -> option WalEntry;
  (** the encoding of an entry whose [oneof] wrapper ([true]: Set) holds a nil message *)
  MarshalNil : bool -> option bytes
}.

(** Encoding drops an empty [bytes] field, so an empty value is read back as nil. *)
Definition norm_slice (s : slice) : slice :=
  match s with Some [] => None | _ => s end.

Definition norm_op (o : walOp) : walOp :=
  match o with
  | WalEntry_Set r =>
      WalEntry_Set (mkSet (set_Key r) (norm_slice (set_Value r)) (set_Timestamp r) (set_NodeId r))
  | WalEntry_Delete r => WalEntry_Delete r
  end.

Definition norm_entry (e : WalEntry) : WalEntry := mkWalEntry (norm_op <$> Entry e).

(** Documented behaviour: what [Marshal] encodes, [Unmarshal] decodes to the same
    message (up to the nil/empty distinction). *)
Class ProtoLaws `{Proto} : Prop := {
  Unmarshal_Marshal : forall e b, Marshal e = Some b -> Unmarshal b = Some (norm_entry e)
}.

(** A concrete codec with which the laws hold: an entry is mapped to a positive
    number and its binary digits are written out, least significant first. *)
Module BitCodec.

Fixpoint digits (p : positive) : bytes :=
  match p with
  | xH => []
  | xO p' => "0"%char :: digits p'
  | xI p' => "1"%char :: digits p'
  end.

Fixpoint undigits (b : bytes) : positive :=
  match b with
  | [] => xH
  | a :: b' => if Ascii.eqb a "0" then xO (undigits b') else xI (undigits b')
  end.

Lemma undigits_digits p : undigits (digits p) = p.
Proof. induction p; simpl; congruence. Qed.

Definition tuple_of (e : WalEntry) : option ((string * slice * Z * string) + (string * Z * string)) :=
  match Entry e with
  | None => None
  | Some (WalEntry_Set r) => Some (inl (set_Key r, set_Value r, set_Timestamp r, set_NodeId r))
  | Some (WalEntry_Delete r) => Some (inr (del_Key r, del_Timestamp r, del_NodeId r))
  end.

Definition of_tuple (t : option ((string * slice * Z * string) + (string * Z * string))) : WalEntry :=
  mkWalEntry
    match t with
    | None => None
    | Some (inl (k, v, ts, n)) => Some (WalEntry_Set (mkSet k v ts n))
    | Some (inr (k, ts, n)) => Some (WalEntry_Delete (mkDelete k ts n))
    end.

Lemma of_tuple_of e : of_tuple (tuple_of e) = e.
Proof. by destruct e as [[[[]|[]]|]]. Qed.

#[export] Instance bit_proto : Proto := {|
  Marshal e := Some (digits (encode (tuple_of (norm_entry e))));
  Unmarshal b := of_tuple <$> decode (undigits b);
  MarshalNil _ := None
|}.

#[export] Instance bit_proto_laws : ProtoLaws.
Proof.
  split. intros e b [= <-]. simpl. rewrite undigits_digits, decode_encode.
  simpl. by rewrite of_tuple_of.
Qed.

End BitCodec.
