(* ===== verification/Clock.v ===== *)
(** * The hybrid logical clock (src/core/clock/clock.go)

    A timestamp is a 64-bit word: 48 bits of physical milliseconds over 16 bits of
    logical counter.  [Now] and [Update] are compare-and-swap loops over one shared
    word.  The body of each loop, from the load to the decision, is [now_iter] and
    [update_iter]; [Now] and [Update] run the loop uncontended against a list of
    wall-clock readings, and [step] interleaves any number of threads, with the load
    and the compare-and-swap as separate atomic actions and an arbitrary wall clock. *)

From S2P Require Import Prelude.
From Stdlib Require Import Sorted.

Module Clock.

Definition logicalBits : Z := 16.
Definition logicalMask : Z := Z.shiftl 1 logicalBits - 1.
Definition maxPhysical : Z := Z.shiftr MaxInt64 logicalBits.

Record Clock := mkClock { state : Z; saturationLogged : bool }.

Definition NewClock : Clock := mkClock 0 false.

Definition clampPhysical (p : Z) : Z := if maxPhysical <? p then maxPhysical else p.

(** [clampPhysical(uint64(max(time.Now().UnixMilli(), 0)))] for a given wall clock. *)
Definition physicalNow (unixMilli : Z) : Z := clampPhysical (u64 (Z.max unixMilli 0)).

Definition physical (ts : Z) : Z := Z.shiftr ts logicalBits.
Definition logical (ts : Z) : Z := Z.land ts logicalMask.
Definition pack (p l : Z) : Z :=
  Z.lor (u64 (Z.shiftl p logicalBits)) (Z.land l logicalMask).

(** What one pass through a loop body decides before its compare-and-swap. *)
Inductive iter :=
| Saturated           (* at the ceiling: log once and return *)
| Sleep               (* logical counter exhausted: sleep and sample again *)
| Swap (newVal : Z).  (* attempt CompareAndSwap(old, newVal) *)

(** The loop body of [Now]. *)
Definition now_iter (now old : Z) : iter :=
  let oldPhysical := physical old in
  let oldLogical := logical old in
  if maxPhysical <=? oldPhysical then Saturated
  else if (now <=? oldPhysical) && (logicalMask <=? oldLogical) then Sleep
  else
    let '(newPhysical, newLogical) :=
      if oldPhysical <? now then (now, 0) else (oldPhysical, u64 (oldLogical + 1)) in
    Swap (pack newPhysical newLogical).

(** The tests before the loop of [Update]: [true] when the call returns at once. *)
Definition update_ignores (remote now : Z) : bool :=
  (remote <? 0) || (u64 (now + 5000) <? physical (u64 remote)).

(** The loop body of [Update]. *)
Definition update_iter (remote now old : Z) : iter :=
  let remotePhysical := physical (u64 remote) in
  let remoteLogical := logical (u64 remote) in
  let oldPhysical := physical old in
  let oldLogical := logical old in
  if maxPhysical <=? oldPhysical then Saturated
  else
    let chosen := Z.max oldPhysical (Z.max remotePhysical now) in
    let overflow :=
      if chosen =? oldPhysical then
        let expectedLogical :=
          if chosen =? remotePhysical then u64 (Z.max oldLogical remoteLogical + 1)
          else u64 (oldLogical + 1) in
        logicalMask <? expectedLogical
      else (chosen =? remotePhysical) && (logicalMask <? u64 (remoteLogical + 1)) in
    if overflow then Sleep
    else
      let '(newPhysical, newLogical) :=
        if chosen =? oldPhysical then
          if chosen =? remotePhysical
          then (oldPhysical, u64 (Z.max oldLogical remoteLogical + 1))
          else (oldPhysical, u64 (oldLogical + 1))
        else if chosen =? remotePhysical then (remotePhysical, u64 (remoteLogical + 1))
        else (chosen, 0) in
      Swap (pack newPhysical newLogical).

(** [Now] with no contention.  [samples] are the wall-clock readings it takes, one on
    entry and one after every sleep; [None] means it is still asleep when they end. *)
Fixpoint Now (samples : list Z) (c : Clock) : option (Z * Clock) :=
  match samples with
  | [] => None
  | t :: rest =>
      match now_iter (physicalNow t) (state c) with
      | Saturated => Some (MaxInt64, mkClock (state c) true)
      | Sleep => Now rest c
      | Swap v => Some (i64 v, mkClock v (saturationLogged c))
      end
  end.

(** The loop of [Update] with no contention. *)
Fixpoint update_loop (remote : Z) (samples : list Z) (c : Clock) : option Clock :=
  match samples with
  | [] => None
  | t :: rest =>
      match update_iter remote (physicalNow t) (state c) with
      | Saturated => Some (mkClock (state c) true)
      | Sleep => update_loop remote rest c
      | Swap v => Some (mkClock v (saturationLogged c))
      end
  end.

Definition Update (remote : Z) (samples : list Z) (c : Clock) : option Clock :=
  match samples with
  | [] => None
  | t :: _ => if update_ignores remote (physicalNow t) then Some c
              else update_loop remote samples c
  end.

(** ** Concurrent calls *)

Inductive op := ONow | OUpdate (remote : Z).

(** A thread is at the top of its loop, holds a loaded word, or has returned ([None]
    for [Update], which returns nothing). *)
Inductive thread :=
| Loop (o : op) (now : Z)
| Try (o : op) (now old : Z)
| Returned (r : option Z).

Definition iter_of (o : op) (now old : Z) : iter :=
  match o with
  | ONow => now_iter now old
  | OUpdate r => update_iter r now old
  end.

Definition invoke (o : op) (unixMilli : Z) : thread :=
  match o with
  | ONow => Loop ONow (physicalNow unixMilli)
  | OUpdate r =>
      if update_ignores r (physicalNow unixMilli) then Returned None
      else Loop (OUpdate r) (physicalNow unixMilli)
  end.

(** What a call returns when it saturates, and when it swaps in [v]. *)
Definition ret_saturated (o : op) : option Z :=
  match o with ONow => Some MaxInt64 | OUpdate _ => None end.
Definition ret_swapped (o : op) (v : Z) : option Z :=
  match o with ONow => Some (i64 v) | OUpdate _ => None end.

(** The timestamps handed out, newest first, after a call has returned [r]. *)
Definition record (r : option Z) (l : list Z) : list Z :=
  match r with Some ts => ts :: l | None => l end.

(** [remote] is an [int64]. *)
Definition op_typed (o : op) : Prop :=
  match o with ONow => True | OUpdate r => - 2 ^ 63 <= r <= MaxInt64 end.

(** Shared clock, threads by id, and every timestamp [Now] has returned so far, at the
    ceiling or below it, newest first. *)
Record config := mkConfig {
  clk : Clock;
  threads : gmap nat thread;
  issued : list Z
}.

Definition init : config := mkConfig NewClock ∅ [].

Inductive step : config -> config -> Prop :=
| step_invoke c i o t :
    threads c !! i = None ->
    op_typed o ->
    step c (mkConfig (clk c) (<[i := invoke o t]> (threads c)) (issued c))
| step_load c i o now :
    threads c !! i = Some (Loop o now) ->
    step c (mkConfig (clk c) (<[i := Try o now (state (clk c))]> (threads c)) (issued c))
| step_saturated c i o now old :
    threads c !! i = Some (Try o now old) ->
    iter_of o now old = Saturated ->
    step c (mkConfig (mkClock (state (clk c)) true)
              (<[i := Returned (ret_saturated o)]> (threads c))
              (record (ret_saturated o) (issued c)))
| step_sleep c i o now old t :
    threads c !! i = Some (Try o now old) ->
    iter_of o now old = Sleep ->
    step c (mkConfig (clk c) (<[i := Loop o (physicalNow t)]> (threads c)) (issued c))
| step_swap c i o now old v :
    threads c !! i = Some (Try o now old) ->
    iter_of o now old = Swap v ->
    state (clk c) = old ->
    step c (mkConfig (mkClock v (saturationLogged (clk c)))
              (<[i := Returned (ret_swapped o v)]> (threads c))
              (record (ret_swapped o v) (issued c)))
| step_lost c i o now old v t :
    threads c !! i = Some (Try o now old) ->
    iter_of o now old = Swap v ->
    state (clk c) <> old ->
    step c (mkConfig (clk c) (<[i := Loop o (physicalNow t)]> (threads c)) (issued c)).

Definition reachable : config -> Prop := rtc step init.

(** ** Invariants *)

(** The word of a clock, in and out of the ceiling, fits in an [int64]. *)
Definition state_ok (s : Z) : Prop := 0 <= s <= MaxInt64.

(** A looping [Update] has accepted its remote timestamp. *)
Definition op_ok (o : op) : Prop :=
  match o with ONow => True | OUpdate r => 0 <= r <= MaxInt64 end.

(** Every wall-clock reading a thread holds is clamped, and the word it loaded is not
    ahead of the shared one. *)
Definition thread_ok (s : Z) (th : thread) : Prop :=
  match th with
  | Loop o now => op_ok o /\ 0 <= now <= maxPhysical
  | Try o now old => op_ok o /\ 0 <= now <= maxPhysical /\ 0 <= old <= s
  | Returned _ => True
  end.

(** A later timestamp exceeds an earlier one, unless both are the ceiling. *)
Definition follows (later earlier : Z) : Prop :=
  earlier < later \/ earlier = MaxInt64 /\ later = MaxInt64.

(** The clock word has reached the last physical millisecond. *)
Definition at_ceiling (s : Z) : Prop := maxPhysical <= physical s.

(** A timestamp is at most the clock word, or is what [Now] returns at the ceiling. *)
Definition within (s t : Z) : Prop := 0 <= t <= s \/ t = MaxInt64 /\ at_ceiling s.

(** The clock word bounds every issued timestamp, these are in order, and they are all
    that [Now] has returned. *)
Record config_ok (c : config) : Prop := {
  ok_state : state_ok (state (clk c));
  ok_threads : map_Forall (fun _ th => thread_ok (state (clk c)) th) (threads c);
  ok_issued_le : Forall (within (state (clk c))) (issued c);
  ok_issued_sorted : StronglySorted follows (issued c);
  ok_returned : forall i ts, threads c !! i = Some (Returned (Some ts)) -> ts ∈ issued c
}.

(** ** Lemmas: fields of a timestamp *)

Lemma physical_div s : physical s = s / 65536.
Proof. unfold physical. by rewrite Z.shiftr_div_pow2. Qed.

Lemma logical_mod s : logical s = s mod 65536.
Proof. unfold logical. change logicalMask with (Z.ones 16). by rewrite Z.land_ones. Qed.

Lemma pack_sum p l : 0 <= p <= maxPhysical -> 0 <= l <= logicalMask -> pack p l = p * 65536 + l.
Proof.
  change maxPhysical with 140737488355327. change logicalMask with 65535. intros Hp Hl.
  unfold pack, logicalBits. change logicalMask with (Z.ones 16). rewrite Z.land_ones by lia.
  rewrite Z.mod_small by lia.
  rewrite u64_small by (rewrite Z.shiftl_mul_pow2 by lia; lia).
  apply lor_shiftl_low; lia.
Qed.

Lemma physicalNow_range t : 0 <= physicalNow t <= maxPhysical.
Proof.
  unfold physicalNow, clampPhysical. pose proof (u64_range (Z.max t 0)).
  assert (0 <= maxPhysical) by by vm_compute.
  destruct (Z.ltb_spec maxPhysical (u64 (Z.max t 0))); lia.
Qed.

Ltac clock_unfold :=
  unfold state_ok in *;
  change MaxInt64 with 9223372036854775807 in *;
  change maxPhysical with 140737488355327 in *;
  change logicalMask with 65535 in *.

(** ** Lemmas: one pass through a loop *)

Lemma split_ts s : s = physical s * 65536 + logical s /\ 0 <= logical s < 65536.
Proof. rewrite physical_div, logical_mod. zlia. Qed.

Lemma physical_pack p l :
  0 <= p <= maxPhysical -> 0 <= l <= logicalMask -> physical (pack p l) = p.
Proof.
  intros Hp Hl. rewrite pack_sum, physical_div by done. clock_unfold. zlia.
Qed.

Ltac clock_pack :=
  rewrite ?physical_pack, ?pack_sum by (clock_unfold; lia); clock_unfold; lia.

Lemma now_iter_swap now old v :
  state_ok old -> 0 <= now <= maxPhysical -> now_iter now old = Swap v ->
  old < v /\ state_ok v /\ physical v = Z.max (physical old) now.
Proof.
  intros Hold Hnow. unfold now_iter. pose proof (split_ts old).
  revert H. generalize (physical old) (logical old). intros p l Hpl.
  clock_unfold. rewrite u64_small by lia.
  go_case; try done; intros [= <-]; clock_pack.
Qed.

Lemma update_iter_swap remote now old v :
  state_ok old -> 0 <= now <= maxPhysical -> 0 <= remote <= MaxInt64 ->
  update_iter remote now old = Swap v ->
  old < v /\ remote < v /\ state_ok v /\
  physical v = Z.max (physical old) (Z.max (physical remote) now).
Proof.
  intros Hold Hnow Hr. unfold update_iter.
  rewrite (u64_small remote) by (clock_unfold; lia).
  pose proof (split_ts old) as Ho. pose proof (split_ts remote) as Hrm.
  revert Ho Hrm. generalize (physical old) (logical old) (physical remote) (logical remote).
  intros p l rp rl Ho Hrm. clock_unfold. rewrite !u64_small by lia.
  go_case; try done; intros [= <-]; clock_pack.
Qed.

(** A pass never saturates below the ceiling. *)
Lemma iter_saturated o now old :
  iter_of o now old = Saturated -> maxPhysical <= physical old.
Proof.
  destruct (Z.leb_spec maxPhysical (physical old)); [done|].
  destruct o; unfold iter_of, now_iter, update_iter;
    rewrite (proj2 (Z.leb_gt _ _)) by lia; cbv zeta;
    repeat match goal with |- context [if ?b then _ else _] => destruct b end; discriminate.
Qed.

(** Once the wall clock has passed the physical part, [Now] does not sleep. *)
Lemma now_iter_awake now old :
  physical old < now -> now_iter now old <> Sleep.
Proof. unfold now_iter. go_case; try done; lia. Qed.

(** A remote timestamp that passes the tests of [Update] is a valid word, at most five
    seconds ahead of the wall clock. *)
Lemma update_accepts remote now :
  - 2 ^ 63 <= remote <= MaxInt64 -> 0 <= now <= maxPhysical ->
  update_ignores remote now = false ->
  0 <= remote <= MaxInt64 /\ physical remote <= now + 5000.
Proof.
  intros Hr Hnow H. unfold update_ignores in H. clock_unfold. go_simp.
  rewrite !u64_small in * by lia. lia.
Qed.

(** ** Lemmas: sequential runs *)

Lemma Now_ok samples c ts c' :
  state_ok (state c) -> Now samples c = Some (ts, c') ->
  state_ok (state c') /\ state_ok ts /\
  (ts = MaxInt64 /\ state c' = state c /\ maxPhysical <= physical (state c) \/
   ts = state c' /\ state c < ts).
Proof.
  intros Hc. induction samples as [|t samples IH]; simpl; [done|].
  destruct (now_iter _ _) as [| |v] eqn:E; [intros [= <- <-]|done|intros [= <- <-]]; simpl.
  - apply (iter_saturated ONow) in E. clock_unfold. lia.
  - apply now_iter_swap in E as (? & Hv & _); [|done|apply physicalNow_range].
    clock_unfold. rewrite i64_small by lia. lia.
Qed.

Lemma update_loop_ok remote samples c c' :
  state_ok (state c) -> 0 <= remote <= MaxInt64 -> update_loop remote samples c = Some c' ->
  state_ok (state c') /\ state c <= state c' /\
  (remote < state c' \/ maxPhysical <= physical (state c')).
Proof.
  intros Hc Hr. induction samples as [|t samples IH]; simpl; [done|].
  destruct (update_iter _ _ _) as [| |v] eqn:E; [intros [= <-]|done|intros [= <-]]; simpl.
  - apply (iter_saturated (OUpdate remote)) in E. split_and!; [done|lia|auto].
  - apply update_iter_swap in E as (? & ? & ? & _); [|done|apply physicalNow_range|done].
    split_and!; [done|lia|auto].
Qed.

(** ** Lemmas: interleaved runs *)

Lemma iter_of_swap o now old v :
  op_ok o -> state_ok old -> 0 <= now <= maxPhysical -> iter_of o now old = Swap v ->
  old < v /\ state_ok v.
Proof.
  destruct o; simpl; intros ??? E.
  - by apply now_iter_swap in E as (? & ? & _).
  - by apply update_iter_swap in E as (? & ? & ? & _).
Qed.

Lemma thread_ok_mono s s' th : s <= s' -> thread_ok s th -> thread_ok s' th.
Proof. destruct th; simpl; intuition lia. Qed.

Lemma invoke_ok s o t : op_typed o -> thread_ok s (invoke o t).
Proof.
  pose proof (physicalNow_range t). destruct o as [|r]; simpl; [done|].
  destruct (update_ignores _ _) eqn:E; simpl; [done|].
  intros Hr. by apply update_accepts in E as [? _].
Qed.

Lemma config_ok_init : config_ok init.
Proof.
  split; simpl; [by vm_compute|apply map_Forall_empty|constructor|constructor|].
  intros i ts. by rewrite lookup_empty.
Qed.

Lemma threads_insert_ok c i s' th :
  config_ok c -> state (clk c) <= s' -> thread_ok s' th ->
  map_Forall (fun _ th => thread_ok s' th) (<[i := th]> (threads c)).
Proof.
  intros Hc Hs Hth. apply map_Forall_insert_2; [done|].
  eapply map_Forall_impl; [apply (ok_threads c Hc)|].
  intros ??. by apply thread_ok_mono.
Qed.

(** A pass swaps only below the ceiling. *)
Lemma iter_swap_below o now old v : iter_of o now old = Swap v -> ~ at_ceiling old.
Proof.
  intros E Hc. unfold at_ceiling in Hc.
  destruct o; unfold iter_of, now_iter, update_iter in E;
    by rewrite (proj2 (Z.leb_le _ _)) in E by lia.
Qed.

Lemma within_mono s s' t : s <= s' -> within s t -> within s' t.
Proof.
  unfold within, at_ceiling. rewrite !physical_div. intros Hs [?|[-> ?]]; [left; lia|].
  right. split; [done|]. clock_unfold. zlia.
Qed.

(** What a returning call adds to the timestamps issued: above all of them, or again the
    ceiling. *)
Lemma record_sorted s r l :
  state_ok s -> Forall (within s) l -> StronglySorted follows l ->
  (forall ts, r = Some ts -> ts = MaxInt64 \/ ~ at_ceiling s /\ s < ts) ->
  StronglySorted follows (record r l).
Proof.
  intros Hs Hl Hsort Hr. destruct r as [ts|]; simpl; [|done].
  constructor; [done|]. eapply Forall_impl; [exact Hl|]. simpl. unfold within, follows, state_ok in *.
  intros t Ht. destruct (Hr ts eq_refl) as [->|[? ?]]; destruct Ht as [?|[-> ?]]; (lia || tauto).
Qed.

Lemma returned_insert c i th l :
  config_ok c -> issued c ⊆ l -> (forall ts, th = Returned (Some ts) -> ts ∈ l) ->
  forall j ts, <[i := th]> (threads c) !! j = Some (Returned (Some ts)) -> ts ∈ l.
Proof.
  intros Hc Hl Hth j ts. rewrite lookup_insert_Some. intros [[_ E]|[_ E]]; [by apply Hth|].
  by apply Hl, (ok_returned c Hc j).
Qed.

Lemma record_subseteq r l : l ⊆ record r l.
Proof. destruct r; simpl; set_solver. Qed.

(** A call that returns [r] and leaves the word [s'] in the clock keeps the invariant. *)
Lemma return_ok c i b s' r :
  config_ok c -> state_ok s' -> state (clk c) <= s' ->
  (forall ts, r = Some ts ->
     within s' ts /\ (ts = MaxInt64 \/ ~ at_ceiling (state (clk c)) /\ state (clk c) < ts)) ->
  config_ok (mkConfig (mkClock s' b) (<[i := Returned r]> (threads c)) (record r (issued c))).
Proof.
  intros Hc Hs Hle Hr. split; simpl; [done| | | |].
  - by apply threads_insert_ok.
  - assert (Forall (within s') (issued c)).
    { eapply Forall_impl; [apply (ok_issued_le c Hc)|]. intros t. by apply within_mono. }
    destruct r as [ts|]; [constructor; [by apply Hr|done]|done].
  - apply (record_sorted (state (clk c))); try apply Hc. intros ts E. by apply Hr.
  - eapply returned_insert; [done|apply record_subseteq|]. intros ts [= ->]. simpl. set_solver.
Qed.

(** So does a step that only moves a thread inside its loop. *)
Lemma move_ok c i th :
  config_ok c -> thread_ok (state (clk c)) th -> (forall ts, th <> Returned (Some ts)) ->
  config_ok (mkConfig (clk c) (<[i := th]> (threads c)) (issued c)).
Proof.
  intros Hc Hth Hno. split; simpl; try apply Hc.
  - apply threads_insert_ok; [done|lia|done].
  - eapply returned_insert; [done|done|]. intros ts E. by destruct (Hno ts).
Qed.

(** Every step keeps the invariant, never moves the clock back, and issues only
    timestamps above the clock it started from, or the ceiling. *)
Lemma step_ok c c' :
  step c c' -> config_ok c ->
  config_ok c' /\ state (clk c) <= state (clk c') /\
  exists new, issued c' = new ++ issued c /\
    Forall (fun t => state (clk c) < t \/ t = MaxInt64) new.
Proof.
  intros Hs Hc. pose proof (ok_state c Hc) as Hst.
  destruct Hs as [c i o t Hi Ho|c i o now Hi|c i o now old Hi E|c i o now old t Hi E
    |c i o now old v Hi E <-|c i o now old v t Hi E Hne];
    try (apply (ok_threads c Hc) in Hi as Hth); simpl in *.
  - split; [|split; [lia|by exists []]]. apply move_ok; [done|by apply invoke_ok|].
    intros ts. destruct o; simpl; [done|]. by destruct (update_ignores _ _).
  - split; [|split; [lia|by exists []]]. apply move_ok; [done| |done].
    simpl. destruct Hth. clock_unfold. split_and!; (done || lia).
  - destruct Hth as (Ho & Hnow & Hold). split; [|split; [lia|]].
    + apply return_ok; [done|done|lia|]. intros ts Hts.
      destruct o; simplify_eq/=. split; [right; split; [done|]|by left].
      apply (iter_saturated ONow) in E. unfold at_ceiling. rewrite !physical_div in *. clock_unfold. zlia.
    + destruct o; [exists [MaxInt64]|exists []]; split; try done. apply Forall_singleton. by right.
  - split; [|split; [lia|by exists []]]. apply move_ok; [done| |done].
    destruct Hth as (? & _). split; [done|apply physicalNow_range].
  - destruct Hth as (Ho & Hnow & _). pose proof (iter_swap_below _ _ _ _ E) as Hb.
    apply iter_of_swap in E as [Hlt Hv]; [|done..].
    assert (i64 v = v) as Hi64 by (apply i64_small; clock_unfold; lia).
    split; [|split; [lia|]].
    + apply return_ok; [done|done|lia|]. intros ts Hts.
      destruct o; simplify_eq/=. rewrite Hi64. split; [left; clock_unfold; lia|right; by split].
    + destruct o; simpl; [exists [v]; rewrite Hi64|exists []]; split; try done. apply Forall_singleton. by left.
  - split; [|split; [lia|by exists []]]. apply move_ok; [done| |done].
    destruct Hth as (? & _). split; [done|apply physicalNow_range].
Qed.

Lemma rtc_step_ok c c' :
  rtc step c c' -> config_ok c ->
  config_ok c' /\ state (clk c) <= state (clk c') /\
  exists new, issued c' = new ++ issued c /\
    Forall (fun t => state (clk c) < t \/ t = MaxInt64) new.
Proof.
  induction 1 as [c|c1 c2 c3 H12 _ IH]; intros Hc.
  - split; [done|]. split; [lia|]. by exists [].
  - destruct (step_ok _ _ H12 Hc) as (Hc2 & Hle & n1 & E1 & F1).
    destruct (IH Hc2) as (Hc3 & Hle' & n2 & E2 & F2).
    split; [done|]. split; [lia|]. exists (n2 ++ n1). split.
    + by rewrite E2, E1, (assoc_L (++)).
    + apply Forall_app; split; [|done].
      eapply Forall_impl; [exact F2|]. simpl; lia.
Qed.

Lemma reachable_ok c : reachable c -> config_ok c.
Proof. intros H. by apply (rtc_step_ok _ _ H config_ok_init). Qed.

(** A run of [Update] that swaps takes its physical part from what it has seen. *)
Lemma update_loop_physical remote samples c c' bound :
  state_ok (state c) -> 0 <= remote <= MaxInt64 ->
  physical (state c) <= bound -> physical remote <= bound ->
  Forall (fun t => physicalNow t <= bound) samples ->
  update_loop remote samples c = Some c' -> physical (state c') <= bound.
Proof.
  intros Hc Hr Hb1 Hb2. induction 1 as [|t samples Ht _ IH]; simpl; [done|].
  destruct (update_iter _ _ _) as [| |v] eqn:E; [by intros [= <-]|done|intros [= <-]]; simpl.
  apply update_iter_swap in E as (_ & _ & _ & ->); [lia|done|apply physicalNow_range|done].
Qed.

Lemma below_ceiling c :
  config_ok c -> physical (state (clk c)) < maxPhysical ->
  StronglySorted Z.gt (issued c) /\ Forall (fun t => 0 <= t <= state (clk c)) (issued c).
Proof.
  intros H Hlt. assert (Forall (fun t => 0 <= t <= state (clk c) /\ t <> MaxInt64) (issued c)) as Hf.
  { eapply Forall_impl; [apply (ok_issued_le c H)|]. unfold within, at_ceiling. intros t [Ht|[_ ?]]; [|lia].
    split; [done|]. rewrite physical_div in Hlt. clock_unfold. zlia. }
  split; [|eapply Forall_impl; [exact Hf|simpl; tauto]].
  pose proof (ok_issued_sorted c H) as Hs. induction Hs as [|t l Hl IH Ht]; constructor.
  - apply IH. by inversion Hf.
  - apply Forall_cons_1 in Hf as [? Hf]. eapply Forall_impl; [exact Ht|]. unfold follows. simpl. lia.
Qed.

(** ** Properties *)

(** C4.  Whatever the interleaving of [Now] and [Update] calls and whatever the wall
    clock does, including running backwards: every timestamp a [Now] has returned exceeds
    all those returned before it, unless both are the ceiling [MaxInt64], the one value
    that repeats ([Now] returns it for ever once the clock word has reached the last
    physical millisecond).  So as long as the clock is below the ceiling, no timestamp is
    returned twice and none exceeds the clock word, which always fits in an [int64]. *)
Theorem issued_strictly_increase c :
  reachable c ->
  (forall i ts, threads c !! i = Some (Returned (Some ts)) -> ts ∈ issued c) /\
  StronglySorted follows (issued c) /\
  Forall (within (state (clk c))) (issued c) /\ state (clk c) <= MaxInt64 /\
  (physical (state (clk c)) < maxPhysical ->
   StronglySorted Z.gt (issued c) /\ Forall (fun t => 0 <= t <= state (clk c)) (issued c)).
Proof.
  intros H%reachable_ok. split; [apply H|]. split; [apply H|]. split; [apply H|].
  split; [apply (ok_state c H)|]. by apply below_ceiling.
Qed.

(** Two calls: the second loads before the first swaps, loses the race and retries. *)
Definition race : list (config -> config) := [
  (fun c => mkConfig (clk c) (<[1%nat := invoke ONow 7]> (threads c)) (issued c));
  (fun c => mkConfig (clk c) (<[2%nat := invoke ONow 5]> (threads c)) (issued c));
  (fun c => mkConfig (clk c) (<[1%nat := Try ONow 7 (state (clk c))]> (threads c)) (issued c));
  (fun c => mkConfig (clk c) (<[2%nat := Try ONow 5 (state (clk c))]> (threads c)) (issued c));
  (fun c => mkConfig (mkClock 458752 false)
     (<[1%nat := Returned (Some 458752)]> (threads c)) (458752 :: issued c));
  (fun c => mkConfig (clk c) (<[2%nat := Loop ONow 4]> (threads c)) (issued c));
  (fun c => mkConfig (clk c) (<[2%nat := Try ONow 4 (state (clk c))]> (threads c)) (issued c));
  (fun c => mkConfig (mkClock 458753 false)
     (<[2%nat := Returned (Some 458753)]> (threads c)) (458753 :: issued c)) ].

Definition after_race (n : nat) : config := foldl (fun c f => f c) init (take n race).

Lemma race_reachable : reachable (after_race 8).
Proof.
  unfold reachable.
  apply (rtc_l _ _ (after_race 1)). { by apply (step_invoke init 1 ONow 7). }
  apply (rtc_l _ _ (after_race 2)). { by apply (step_invoke (after_race 1) 2 ONow 5). }
  apply (rtc_l _ _ (after_race 3)). { by apply (step_load (after_race 2) 1 ONow 7). }
  apply (rtc_l _ _ (after_race 4)). { by apply (step_load (after_race 3) 2 ONow 5). }
  apply (rtc_l _ _ (after_race 5)). { by apply (step_swap (after_race 4) 1 ONow 7 0 458752). }
  apply (rtc_l _ _ (after_race 6)). { by apply (step_lost (after_race 5) 2 ONow 5 0 327680 4). }
  apply (rtc_l _ _ (after_race 7)). { by apply (step_load (after_race 6) 2 ONow 4). }
  apply rtc_once. by apply (step_swap (after_race 7) 2 ONow 4 458752 458753).
Qed.

Lemma issued_strictly_increase_witness :
  StronglySorted Z.gt [458753; 458752] /\ Forall (fun t => 0 <= t <= 458753) [458753; 458752].
Proof. by apply (issued_strictly_increase (after_race 8) race_reachable). Defined.

(** C24.  Causality under contention: once an [Update] that accepted a remote timestamp
    has swapped the clock, every timestamp issued from then on, by any thread, is greater
    than the remote one. *)
Theorem update_happens_before c c1 c2 i remote now v :
  reachable c ->
  threads c !! i = Some (Try (OUpdate remote) now (state (clk c))) ->
  update_iter remote now (state (clk c)) = Swap v ->
  c1 = mkConfig (mkClock v (saturationLogged (clk c)))
         (<[i := Returned None]> (threads c)) (issued c) ->
  rtc step c1 c2 ->
  exists new, issued c2 = new ++ issued c /\ Forall (fun ts => remote < ts) new.
Proof.
  intros Hc%reachable_ok Hi Hv -> H2.
  pose proof (step_swap c i (OUpdate remote) now _ v Hi Hv eq_refl) as H1.
  destruct (step_ok _ _ H1 Hc) as (Hc1 & _ & _).
  destruct (rtc_step_ok _ _ H2 Hc1) as (_ & _ & new & Hnew & Hf).
  exists new. split; [done|]. eapply Forall_impl; [exact Hf|]. simpl. intros ts Hts.
  pose proof (ok_threads c Hc _ _ Hi) as (? & ? & _).
  apply update_iter_swap in Hv as (_ & ? & Hv & _); [|apply Hc|done..].
  unfold state_ok in Hv. lia.
Qed.

(** An [Update] with the remote timestamp 3 ms + 1, accepted at wall clock 2 ms, then a
    [Now] at wall clock 1 ms. *)
Definition upd_race : list (config -> config) := [
  (fun c => mkConfig (clk c) (<[1%nat := invoke (OUpdate 196609) 2]> (threads c)) (issued c));
  (fun c => mkConfig (clk c)
     (<[1%nat := Try (OUpdate 196609) 2 (state (clk c))]> (threads c)) (issued c));
  (fun c => mkConfig (mkClock 196610 false) (<[1%nat := Returned None]> (threads c)) (issued c));
  (fun c => mkConfig (clk c) (<[2%nat := invoke ONow 1]> (threads c)) (issued c));
  (fun c => mkConfig (clk c) (<[2%nat := Try ONow 1 (state (clk c))]> (threads c)) (issued c));
  (fun c => mkConfig (mkClock 196611 false)
     (<[2%nat := Returned (Some 196611)]> (threads c)) (196611 :: issued c)) ].

Definition after_upd (n : nat) : config := foldl (fun c f => f c) init (take n upd_race).

Lemma after_upd_reachable : reachable (after_upd 2).
Proof.
  apply (rtc_l _ _ (after_upd 1)). { by apply (step_invoke init 1 (OUpdate 196609) 2). }
  apply rtc_once. by apply (step_load (after_upd 1) 1 (OUpdate 196609) 2).
Qed.

Lemma after_upd_steps : rtc step (after_upd 3) (after_upd 6).
Proof.
  apply (rtc_l _ _ (after_upd 4)). { by apply (step_invoke (after_upd 3) 2 ONow 1). }
  apply (rtc_l _ _ (after_upd 5)). { by apply (step_load (after_upd 4) 2 ONow 1). }
  apply rtc_once. by apply (step_swap (after_upd 5) 2 ONow 1 196610 196611).
Qed.

Lemma update_happens_before_witness :
  exists new, [196611] = new ++ [] /\ Forall (fun ts => 196609 < ts) new.
Proof.
  apply (update_happens_before (after_upd 2) (after_upd 3) (after_upd 6) 1 196609 2 196610
           after_upd_reachable); [reflexivity..|exact after_upd_steps].
Defined.

(** C26.  [Now] terminates: as soon as one of the readings it takes is past the physical
    part of the clock (the wall clock moves on while it sleeps), it returns, and below the
    ceiling the timestamp is greater than every earlier one and becomes the clock word. *)
Theorem Now_returns samples c :
  state_ok (state c) ->
  Exists (fun t => physical (state c) < physicalNow t) samples ->
  exists ts c', Now samples c = Some (ts, c') /\ state_ok ts /\
    (physical (state c) < maxPhysical -> state c < ts /\ state c' = ts).
Proof.
  intros Hc Hex.
  assert (exists r, Now samples c = Some r) as [[ts c'] E].
  { induction Hex as [t samples Ht|t samples _ [r IH]]; simpl.
    - pose proof (now_iter_awake _ _ Ht) as Hns.
      destruct (now_iter _ _) eqn:E; [eauto|done|eauto].
    - destruct (now_iter _ _) eqn:E; eauto. }
  exists ts, c'. split; [done|].
  apply Now_ok in E as (_ & ? & [(? & ? & ?)|(-> & ?)]); [|done..]; (split; [done|]); intros; lia.
Qed.

Lemma Now_returns_witness :
  exists ts c', Now [4; 4; 5] (mkClock (4 * 65536 + 65535) false) = Some (ts, c') /\ state_ok ts /\
    (physical (4 * 65536 + 65535) < maxPhysical -> 4 * 65536 + 65535 < ts /\ state c' = ts).
Proof.
  apply (Now_returns [4; 4; 5] (mkClock (4 * 65536 + 65535) false)).
  - by vm_compute.
  - apply Exists_exists. exists 5. split; [set_solver|by vm_compute].
Defined.

(** C27.  [Update] cannot be used to poison the clock: whatever [int64] the remote sends,
    the physical part of the clock ends at most five seconds past the readings of the local
    wall clock, unless it was there already; a remote further ahead changes nothing. *)
Theorem Update_no_poisoning remote samples c c' t0 rest :
  state_ok (state c) -> - 2 ^ 63 <= remote <= MaxInt64 -> samples = t0 :: rest ->
  Update remote samples c = Some c' ->
  state_ok (state c') /\
  physical (state c') <= Z.max (physical (state c))
    (foldr Z.max 0 (physicalNow <$> samples) + 5000) /\
  (physicalNow t0 + 5000 < physical remote -> c' = c).
Proof.
  intros Hc Hr -> E. unfold Update in E.
  pose proof (physicalNow_range t0) as Ht0.
  destruct (update_ignores _ _) eqn:Hig; simplify_eq; [split_and!; [done|lia|done]|].
  apply update_accepts in Hig as [Hr' Hd]; [|done..].
  split_and!; [by apply update_loop_ok in E as (? & _ & _)| |lia].
  eapply update_loop_physical; [done|done|..|exact E]; [lia|simpl; lia|].
  apply Forall_forall. intros t Ht.
  assert (physicalNow t <= foldr Z.max 0 (physicalNow <$> t0 :: rest)); [|lia].
  clear -Ht. induction (t0 :: rest) as [|a l IH]; [set_solver|].
  apply elem_of_cons in Ht as [->|Ht]; csimpl; [lia|]. specialize (IH Ht). lia.
Qed.

Lemma Update_no_poisoning_witness :
  state_ok 196610 /\
  physical 196610 <= Z.max (physical 0) (foldr Z.max 0 (physicalNow <$> [2]) + 5000) /\
  (physicalNow 2 + 5000 < physical 196609 -> mkClock 196610 false = NewClock).
Proof.
  apply (Update_no_poisoning 196609 [2] NewClock (mkClock 196610 false) 2 []);
    by vm_compute.
Defined.

End Clock.
