(* ===== verification/ShardedMap.v ===== *)
(** * The sharded map (src/core/hashmap/shardedmap.go)

    128 shards of 64 sub-buckets, each an immutable radix tree from keys to value
    wrappers.  A wrapper is a mutable cell, shared between the writers' tree, the
    published tree and every older root a [Range] still holds, so the model keeps a
    heap of wrappers: a tree maps a key to a location, and overwriting a present key
    writes the location.  A location that is not in the heap is a wrapper whose
    pointer is nil.

    Next to the data every shard keeps rolling digests and counts, which anti-entropy
    compares between replicas.

    The radix tree itself is the third-party go-immutable-radix: class [Radix], with
    its documented behaviour as [RadixLaws] (a finite map, persistently updated). *)

From S2P Require Import Prelude Kv.

(** ** The radix tree package *)

(** A wrapper location. *)
Abbreviation loc := nat (only parsing).

Class Radix := {
  tree : Type;
  iNew : tree;
  iGet : tree -> bytes -> option loc;
  iInsert : tree -> bytes -> loc -> tree;
  iDelete : tree -> bytes -> tree;
  (** [Root().Iterator()], drained with [Next]. *)
  iIter : tree -> list (bytes * loc)
}.

(** A tree is a finite map: what each operation does to it. *)
Class RadixLaws `{Radix} := {
  tmap : tree -> gmap (list ascii) loc;
  tmap_new : tmap iNew = ∅;
  iGet_tmap : forall t k, iGet t k = tmap t !! k;
  tmap_insert : forall t k w, tmap (iInsert t k w) = <[k := w]> (tmap t);
  tmap_delete : forall t k, tmap (iDelete t k) = delete k (tmap t);
  iIter_tmap : forall t, iIter t ≡ₚ map_to_list (tmap t)
}.

(** Finite maps themselves satisfy the laws. *)
Module GmapRadix.
#[export] Instance gmap_radix : Radix := {|
  tree := gmap (list ascii) loc;
  iNew := ∅;
  iGet t k := t !! k;
  iInsert t k w := <[k := w]> t;
  iDelete t k := delete k t;
  iIter t := map_to_list t
|}.
#[export] Instance gmap_radix_laws : RadixLaws.
Proof. by refine (@Build_RadixLaws gmap_radix (fun t => t) _ _ _ _ _). Defined.
End GmapRadix.

Module ShardedMap.

(** ** Item hashes and last-write-wins *)

Definition SubBucketCount : Z := 64.
Definition ShardCount : Z := 128.

Section Lww.
Context `{XXHash}.

Definition getItemHash (hash : HashKey) (val : Value) : Z :=
  let h := Z.lxor hash (RotateLeft64 (u64 (Timestamp val)) 17) in
  let h := if decide (NodeID val = EmptyString) then h
           else Z.lxor h (RotateLeft64 (HashFunc (NodeID val)) 31) in
  let h := if 0 <? slice_len (Data val)
           then Z.lxor h (RotateLeft64 (HashBytes (slice_bytes (Data val))) 47) else h in
  if Tombstone val then Z.lxor h 0x5555555555555555 else h.

Definition mixCount (count : Z) : Z :=
  let x := u64 (count + 1) in
  let x := u64 (Z.lxor x (Z.shiftr x 30) * 0xbf58476d1ce4e5b9) in
  let x := u64 (Z.lxor x (Z.shiftr x 27) * 0x94d049bb133111eb) in
  Z.lxor x (Z.shiftr x 31).

Definition lwwWins (existing incoming : Value) : bool :=
  if negb (Timestamp existing =? Timestamp incoming) then
    Timestamp existing <? Timestamp incoming
  else if negb (bool_decide (NodeID existing = NodeID incoming)) then
    str_gt (NodeID incoming) (NodeID existing)
  else ItemHash existing <? ItemHash incoming.

End Lww.

(** ** State *)

Section Map.
Context `{XXHash, Radix}.

Record shard := mkShard {
  buckets : list tree;
  readBuckets : list tree;
  subDigests : list Z;
  subCounts : list Z;
  shardDigest : Z;
  shardCount : Z
}.

(** The array of shards, with the heap of value wrappers and its next free location. *)
Record ShardedMap := mkSM {
  shards : list shard;
  wrappers : gmap loc Value;
  nextLoc : loc
}.

Definition newShard : shard :=
  let n := Z.to_nat SubBucketCount in
  mkShard (replicate n iNew) (replicate n iNew) (replicate n 0) (replicate n 0) 0 0.

#[export] Instance tree_inhabited : Inhabited tree := populate iNew.
#[export] Instance shard_inhabited : Inhabited shard := populate newShard.

Definition NewShardedMap : ShardedMap :=
  mkSM (replicate (Z.to_nat ShardCount) newShard) ∅ 0.

Definition shardIndex (hash : HashKey) : nat := Z.to_nat (hash mod ShardCount).
Definition subIndex (hash : HashKey) : nat := Z.to_nat (Z.shiftr hash 16 mod SubBucketCount).

Definition getShardByHash (sm : ShardedMap) (hash : HashKey) : shard :=
  shards sm !!! shardIndex hash.

(** ** Reads: the published tree, then the wrapper *)

Definition Load (sm : ShardedMap) (key : Key) (hash : HashKey) : option Value :=
  match readBuckets (getShardByHash sm hash) !! subIndex hash with
  | None => None
  | Some treePtr =>
      match iGet treePtr (string_bytes key) with
      | None => None
      | Some wrapper =>
          match wrappers sm !! wrapper with
          | None => None
          | Some val => Some (with_ItemHash val 0)
          end
      end
  end.

Definition LoadData (sm : ShardedMap) (key : Key) (hash : HashKey) : option slice :=
  match readBuckets (getShardByHash sm hash) !! subIndex hash with
  | None => None
  | Some treePtr =>
      match iGet treePtr (string_bytes key) with
      | None => None
      | Some wrapper =>
          match wrappers sm !! wrapper with
          | None => None
          | Some val => if Tombstone val then None else Some (Data val)
          end
      end
  end.

(** ** Writes, each under the write lock of its shard *)

(** [shard.subDigests[b] ^= h; shard.shardDigest ^= h]. *)
Definition xorDigests (b : nat) (h : Z) (s : shard) : shard :=
  mkShard (buckets s) (readBuckets s) (alter (fun d => Z.lxor d h) b (subDigests s))
    (subCounts s) (Z.lxor (shardDigest s) h) (shardCount s).

(** Publish [t] as the tree of sub-bucket [b] and adjust the counts by [n]. *)
Definition publishTree (b : nat) (t : tree) (n : Z) (s : shard) : shard :=
  mkShard (<[b := t]> (buckets s)) (<[b := t]> (readBuckets s)) (subDigests s)
    (alter (fun c => u32 (c + n)) b (subCounts s)) (shardDigest s) (u32 (shardCount s + n)).

(** The in-place update of a present key: digests, then the pointer swap. *)
Definition overwrite (sm : ShardedMap) (hash : HashKey) (wrapper : loc) (val : Value) : ShardedMap :=
  let b := subIndex hash in
  let s := getShardByHash sm hash in
  let s := match wrappers sm !! wrapper with
           | Some existing => xorDigests b (ItemHash existing) s
           | None => s
           end in
  let s := xorDigests b (ItemHash val) s in
  mkSM (<[shardIndex hash := s]> (shards sm)) (<[wrapper := val]> (wrappers sm)) (nextLoc sm).

(** The insertion of a new key: digests, a fresh wrapper, the new tree, the counts. *)
Definition insertNew (sm : ShardedMap) (key : Key) (hash : HashKey) (val : Value) : ShardedMap :=
  let b := subIndex hash in
  let s := getShardByHash sm hash in
  let w := nextLoc sm in
  let newTree := iInsert (buckets s !!! b) (string_bytes key) w in
  let s := publishTree b newTree 1 (xorDigests b (ItemHash val) s) in
  mkSM (<[shardIndex hash := s]> (shards sm)) (<[w := val]> (wrappers sm)) (S w).

Definition Store (sm : ShardedMap) (key : Key) (hash : HashKey) (val : Value) : ShardedMap :=
  let tree := buckets (getShardByHash sm hash) !!! subIndex hash in
  let val := with_ItemHash val (getItemHash hash val) in
  match iGet tree (string_bytes key) with
  | Some wrapper => overwrite sm hash wrapper val
  | None => insertNew sm key hash val
  end.

Definition StoreLWW (sm : ShardedMap) (key : Key) (hash : HashKey) (val : Value)
    : bool * ShardedMap :=
  let tree := buckets (getShardByHash sm hash) !!! subIndex hash in
  let val := with_ItemHash val (getItemHash hash val) in
  match iGet tree (string_bytes key) with
  | Some wrapper =>
      match wrappers sm !! wrapper with
      | Some existing =>
          if negb (lwwWins existing val) then (false, sm)
          else (true, overwrite sm hash wrapper val)
      | None => (true, overwrite sm hash wrapper val)
      end
  | None => (true, insertNew sm key hash val)
  end.

Definition Delete (sm : ShardedMap) (key : Key) (hash : HashKey) : ShardedMap :=
  let b := subIndex hash in
  let s := getShardByHash sm hash in
  match iGet (buckets s !!! b) (string_bytes key) with
  | None => sm
  | Some wrapper =>
      let s := match wrappers sm !! wrapper with
               | Some existing => xorDigests b (ItemHash existing) s
               | None => s
               end in
      let newTree := iDelete (buckets s !!! b) (string_bytes key) in
      mkSM (<[shardIndex hash := publishTree b newTree (-1) s]> (shards sm))
        (wrappers sm) (nextLoc sm)
  end.

(** ** Digests *)

Definition shardHash (s : shard) : Z := Z.lxor (shardDigest s) (mixCount (shardCount s)).

(** [dst[ShardID(i)] = ...] for every shard; other keys of [dst] are left alone. *)
Definition FillShardDigests (sm : ShardedMap) (dst : gmap Z Z) : gmap Z Z :=
  list_to_map (imap (fun i s => (Z.of_nat i, shardHash s)) (shards sm)) ∪ dst.

Definition RootDigest (sm : ShardedMap) : Z :=
  foldl (fun root s => Z.lxor root (shardHash s)) 0 (shards sm).

Definition subHashes (s : shard) : list Z :=
  zip_with (fun d c => Z.lxor d (mixCount c)) (subDigests s) (subCounts s).

(** A buffer too short for the sub-buckets is replaced; a longer one keeps its tail. *)
Definition fillBuf (buf : list Z) (s : shard) : list Z :=
  if Z.of_nat (length buf) <? SubBucketCount then subHashes s
  else subHashes s ++ drop (Z.to_nat SubBucketCount) buf.

(** A nil destination is left alone. *)
Definition FillDigests (sm : ShardedMap) (dst : option (gmap Z (list Z)))
    : option (gmap Z (list Z)) :=
  match dst with
  | None => None
  | Some d =>
      Some (list_to_map
              (imap (fun i s => (Z.of_nat i, fillBuf (default [] (d !! Z.of_nat i)) s)) (shards sm))
            ∪ d)
  end.

(** ** Iteration *)

(** The entries of one tree, in iteration order, with their current values. *)
Definition treeEntries (h : gmap loc Value) (t : tree) : list (Key * Value) :=
  omap (fun '(k, w) => v ← h !! w; Some (bytes_string k, v)) (iIter t).

Definition shardEntries (h : gmap loc Value) (s : shard) : list (Key * Value) :=
  concat (treeEntries h <$> buckets s).

(** The calls [Range] makes: every entry, shard by shard; the callback threads a state
    and stops the iteration by returning [false]. *)
Fixpoint rangeLoop {S : Type} (cb : Key -> Value -> S -> bool * S)
    (l : list (Key * Value)) (st : S) : S :=
  match l with
  | [] => st
  | (k, v) :: l' => let '(go_on, st') := cb k v st in
                    if go_on then rangeLoop cb l' st' else st'
  end.

Definition entries (sm : ShardedMap) : list (Key * Value) :=
  concat (shardEntries (wrappers sm) <$> shards sm).

Definition Range {S : Type} (sm : ShardedMap) (cb : Key -> Value -> S -> bool * S) (st : S) : S :=
  rangeLoop cb (entries sm) st.

(** [RangeShard]: the entries of the sub-buckets whose bit is set in the mask. *)
Definition RangeShard (sm : ShardedMap) (shardID mismatchMask : Z) : list (Key * Value) :=
  if (shardID <? 0) || (ShardCount <=? shardID) then []
  else
    let s := shards sm !!! Z.to_nat shardID in
    concat (imap (fun b t => if negb (Z.land mismatchMask (Z.shiftl 1 (Z.of_nat b)) =? 0)
                             then treeEntries (wrappers sm) t else [])
              (buckets s)).

End Map.
#[global] Arguments shardIndex : simpl never.
#[global] Arguments subIndex : simpl never.
#[global] Arguments getShardByHash : simpl never.
#[global] Arguments getItemHash : simpl never.
#[global] Arguments mixCount : simpl never.

(** ** Well-formed maps *)

Section Invariant.
Context `{HX : XXHash} `{HR : Radix} `{!XXHashLaws} `{!RadixLaws}.
Implicit Types (t : tree) (s : shard) (sm : ShardedMap) (h : gmap loc Value) (k : Key) (v : Value).

(** What a tree holds, through the heap of wrappers. *)
Definition view h t : gmap (list ascii) Value := omap (fun w => h !! w) (tmap t).

Definition viewDigest h t : Z := xor_map ItemHash (view h t).
Definition viewCount h t : Z := Z.of_nat (size (view h t)).

(** The rolling digests and counts of a shard are those of its contents, and the
    published trees are the writers' trees. *)
Record shard_ok h s : Prop := {
  so_len : length (buckets s) = Z.to_nat SubBucketCount;
  so_read : readBuckets s = buckets s;
  so_digests : subDigests s = viewDigest h <$> buckets s;
  so_counts : subCounts s = (fun t => u32 (viewCount h t)) <$> buckets s;
  so_digest : shardDigest s = xor_list (viewDigest h <$> buckets s);
  so_count : shardCount s = u32 (foldr Z.add 0 (viewCount h <$> buckets s))
}.

Definition tree_at sm (i b : nat) : option tree := s ← shards sm !! i; buckets s !! b.

(** An entry of a tree points to an allocated wrapper, whose value carries its own item
    hash, and sits in the sub-bucket its key hashes to. *)
Definition entry_ok sm (i b : nat) (kb : bytes) (w : loc) : Prop :=
  (w < nextLoc sm)%nat /\
  shardIndex (HashFunc (bytes_string kb)) = i /\ subIndex (HashFunc (bytes_string kb)) = b /\
  exists v, wrappers sm !! w = Some v /\
            ItemHash v = getItemHash (HashFunc (bytes_string kb)) v.

(** No two keys share a wrapper. *)
Definition no_sharing sm : Prop :=
  forall i1 b1 t1 i2 b2 t2 kb1 kb2 w,
    tree_at sm i1 b1 = Some t1 -> tree_at sm i2 b2 = Some t2 ->
    tmap t1 !! kb1 = Some w -> tmap t2 !! kb2 = Some w -> kb1 = kb2.

Record sm_ok sm : Prop := {
  sm_len : length (shards sm) = Z.to_nat ShardCount;
  sm_shards : forall i s, shards sm !! i = Some s -> shard_ok (wrappers sm) s;
  sm_entries : forall i b t kb w, tree_at sm i b = Some t -> tmap t !! kb = Some w ->
                 entry_ok sm i b kb w;
  sm_distinct : no_sharing sm
}.

(** The abstract map a well-formed sharded map stands for: what is stored at [k]. *)
Definition sm_get sm k : option Value :=
  t ← tree_at sm (shardIndex (HashFunc k)) (subIndex (HashFunc k));
  view (wrappers sm) t !! string_bytes k.

(** ** Indices *)

Lemma shardIndex_lt hash : (shardIndex hash < Z.to_nat ShardCount)%nat.
Proof.
  unfold shardIndex. pose proof (Z.mod_pos_bound hash ShardCount).
  change ShardCount with 128 in *. lia.
Qed.

Lemma subIndex_lt hash : (subIndex hash < Z.to_nat SubBucketCount)%nat.
Proof.
  unfold subIndex. pose proof (Z.mod_pos_bound (Z.shiftr hash 16) SubBucketCount).
  change SubBucketCount with 64 in *. lia.
Qed.

Lemma shard_at sm hash :
  sm_ok sm -> shards sm !! shardIndex hash = Some (getShardByHash sm hash).
Proof.
  intros Hok. apply list_lookup_lookup_total_lt. rewrite (sm_len sm Hok). apply shardIndex_lt.
Qed.

Lemma bucket_at sm hash :
  sm_ok sm ->
  buckets (getShardByHash sm hash) !! subIndex hash
  = Some (buckets (getShardByHash sm hash) !!! subIndex hash).
Proof.
  intros Hok. apply list_lookup_lookup_total_lt.
  rewrite (so_len _ _ (sm_shards sm Hok _ _ (shard_at sm hash Hok))). apply subIndex_lt.
Qed.

Lemma tree_at_hash sm hash :
  sm_ok sm ->
  tree_at sm (shardIndex hash) (subIndex hash)
  = Some (buckets (getShardByHash sm hash) !!! subIndex hash).
Proof. intros Hok. unfold tree_at. rewrite shard_at by done. ored. by apply bucket_at. Qed.

(** ** Views *)

Lemma view_lookup h t kb : view h t !! kb = tmap t !! kb ≫= (fun w => h !! w).
Proof. unfold view. by rewrite lookup_omap. Qed.

Lemma view_overwrite h t kb w v :
  tmap t !! kb = Some w -> (forall kb', tmap t !! kb' = Some w -> kb' = kb) ->
  view (<[w := v]> h) t = <[kb := v]> (view h t).
Proof.
  intros Hk Hu. apply map_eq. intros kb'. rewrite view_lookup.
  destruct (decide (kb = kb')) as [<-|Hne].
  - rewrite Hk. simpl. by rewrite !lookup_insert_eq.
  - rewrite lookup_insert_ne, view_lookup by done.
    destruct (tmap t !! kb') as [w'|] eqn:E; [|done]. simpl.
    rewrite lookup_insert_ne; [done|]. intros ->. by apply Hne, eq_sym, Hu.
Qed.

Lemma view_unshared h t w v :
  (forall kb', tmap t !! kb' <> Some w) -> view (<[w := v]> h) t = view h t.
Proof.
  intros Hu. apply map_eq. intros kb'. rewrite !view_lookup.
  destruct (tmap t !! kb') as [w'|] eqn:E; [|done]. simpl.
  rewrite lookup_insert_ne; [done|]. intros ->. by eapply Hu.
Qed.

Lemma view_insert h t kb w v :
  (forall kb', tmap t !! kb' <> Some w) ->
  view (<[w := v]> h) (iInsert t kb w) = <[kb := v]> (view h t).
Proof.
  intros Hu. rewrite <- (view_unshared h t w v) by done.
  apply map_eq. intros kb'. rewrite view_lookup, tmap_insert.
  destruct (decide (kb = kb')) as [<-|Hne].
  - rewrite lookup_insert_eq. simpl. by rewrite !lookup_insert_eq.
  - by rewrite !lookup_insert_ne, view_lookup.
Qed.

Lemma view_delete h t kb : view h (iDelete t kb) = delete kb (view h t).
Proof.
  apply map_eq. intros kb'. rewrite view_lookup, tmap_delete, !lookup_delete.
  case_decide; [done|]. by rewrite view_lookup.
Qed.

(** ** One shard *)

(** Mapping over a list in which only position [b] changes what is mapped. *)
Lemma fmap_changed_at {A B} (f g : A -> B) (l : list A) b x :
  (forall i y, l !! i = Some y -> i <> b -> g y = f y) ->
  g <$> <[b := x]> l = <[b := g x]> (f <$> l).
Proof.
  intros Hg. apply list_eq. intros i. rewrite list_lookup_fmap.
  destruct (decide (i = b)) as [->|Hne].
  - destruct (decide (b < length l)%nat).
    + rewrite !list_lookup_insert_eq by (rewrite ?length_fmap; done). done.
    + by rewrite !list_insert_ge, list_lookup_fmap, lookup_ge_None_2 by (rewrite ?length_fmap; lia).
  - rewrite !list_lookup_insert_ne, list_lookup_fmap by done.
    destruct (l !! i) eqn:E; [|done]. simpl. f_equal. by eapply Hg.
Qed.

Lemma alter_insert {A} (f : A -> A) (l : list A) b x :
  l !! b = Some x -> alter f b l = <[b := f x]> l.
Proof.
  intros Hb. apply list_eq. intros i. destruct (decide (i = b)) as [->|Hne].
  - rewrite list_lookup_alter_eq, Hb, list_lookup_insert_eq; [done|].
    by apply lookup_lt_Some in Hb.
  - by rewrite list_lookup_alter_ne, list_lookup_insert_ne.
Qed.

Lemma sum_insert (l : list Z) b x y :
  l !! b = Some x -> foldr Z.add 0 (<[b := y]> l) = foldr Z.add 0 l - x + y.
Proof.
  revert b. induction l as [|z l IH]; intros [|b] Hb; simplify_eq/=; [lia|].
  rewrite (IH _ Hb). lia.
Qed.

(** A shard that replaces the tree of sub-bucket [b] and moves its digests and counts from
    those of the old view to those of the new one is well formed again. *)
Lemma shard_ok_update h h' s b t t' :
  shard_ok h s -> buckets s !! b = Some t ->
  (forall i y, buckets s !! i = Some y -> i <> b -> view h' y = view h y) ->
  shard_ok h' (mkShard (<[b := t']> (buckets s)) (<[b := t']> (readBuckets s))
    (<[b := viewDigest h' t']> (subDigests s))
    (<[b := u32 (viewCount h' t')]> (subCounts s))
    (Z.lxor (Z.lxor (shardDigest s) (viewDigest h t)) (viewDigest h' t'))
    (u32 (shardCount s + (viewCount h' t' - viewCount h t)))).
Proof.
  intros Hs Hb Hv. destruct Hs as [Hlen Hread Hd Hc Hsd Hsc].
  assert (viewDigest h' <$> <[b := t']> (buckets s)
    = <[b := viewDigest h' t']> (viewDigest h <$> buckets s)) as Ed.
  { apply fmap_changed_at. intros i y Hi Hne. unfold viewDigest. by rewrite (Hv i y). }
  assert (viewCount h' <$> <[b := t']> (buckets s)
    = <[b := viewCount h' t']> (viewCount h <$> buckets s)) as Ec.
  { apply fmap_changed_at. intros i y Hi Hne. unfold viewCount. by rewrite (Hv i y). }
  split; simpl.
  - by rewrite length_insert.
  - by rewrite Hread.
  - by rewrite Hd, Ed.
  - rewrite Hc. symmetry. apply (fmap_changed_at (fun t => u32 (viewCount h t))).
    intros i y Hi Hne. unfold viewCount. by rewrite (Hv i y).
  - rewrite Ed, Hsd. erewrite <- xor_list_insert; [done|]. by rewrite list_lookup_fmap, Hb.
  - rewrite Ec, Hsc. erewrite sum_insert by (rewrite list_lookup_fmap, Hb; done).
    rewrite u32_add_l. f_equal. lia.
Qed.

Lemma shard_ok_ext h h' s :
  shard_ok h s -> (forall i y, buckets s !! i = Some y -> view h' y = view h y) -> shard_ok h' s.
Proof.
  intros [Hlen Hread Hd Hc Hsd Hsc] Hv.
  assert (viewDigest h' <$> buckets s = viewDigest h <$> buckets s) as Ed.
  { apply list_fmap_ext. intros i y Hi. unfold viewDigest. by rewrite (Hv i y). }
  assert (viewCount h' <$> buckets s = viewCount h <$> buckets s) as Ec.
  { apply list_fmap_ext. intros i y Hi. unfold viewCount. by rewrite (Hv i y). }
  split; [done|done|by rewrite Ed| |by rewrite Ed|by rewrite Ec].
  rewrite Hc. apply list_fmap_ext. intros i y Hi. unfold viewCount. by rewrite (Hv i y).
Qed.

(** Digests of sub-bucket [b] after two changes. *)
Lemma xorDigests_at h s b t d :
  shard_ok h s -> buckets s !! b = Some t ->
  alter (fun x => Z.lxor x d) b (subDigests s) = <[b := Z.lxor (viewDigest h t) d]> (subDigests s).
Proof.
  intros Hs Hb. apply (alter_insert (fun x => Z.lxor x d)). by rewrite (so_digests h s Hs), list_lookup_fmap, Hb.
Qed.

Lemma subCount_at h s b t :
  shard_ok h s -> buckets s !! b = Some t -> subCounts s !! b = Some (u32 (viewCount h t)).
Proof. intros Hs Hb. by rewrite (so_counts h s Hs), list_lookup_fmap, Hb. Qed.


(** The shard of an in-place update. *)
Lemma overwrite_shard_ok h s b t kb w ex v :
  shard_ok h s -> buckets s !! b = Some t ->
  tmap t !! kb = Some w -> (forall kb', tmap t !! kb' = Some w -> kb' = kb) ->
  h !! w = Some ex ->
  (forall i y, buckets s !! i = Some y -> i <> b -> view (<[w := v]> h) y = view h y) ->
  shard_ok (<[w := v]> h) (xorDigests b (ItemHash v) (xorDigests b (ItemHash ex) s)).
Proof.
  intros Hs Hb Hk Hu Hex Hv.
  assert (view h t !! kb = Some ex) as Hold by (by rewrite view_lookup, Hk).
  pose proof (view_overwrite h t kb w v Hk Hu) as Hview.
  assert (viewDigest (<[w := v]> h) t
    = Z.lxor (Z.lxor (viewDigest h t) (ItemHash ex)) (ItemHash v)) as Hdig.
  { unfold viewDigest. rewrite Hview. by apply xor_map_insert_old. }
  assert (viewCount (<[w := v]> h) t = viewCount h t) as Hcnt.
  { unfold viewCount. rewrite Hview. f_equal. apply map_size_insert_Some. by eexists. }
  pose proof (shard_ok_update h (<[w := v]> h) s b t t Hs Hb Hv) as Hnew.
  rewrite (so_read h s Hs) in Hnew. rewrite (list_insert_id (buckets s)) in Hnew by done.
  unfold xorDigests. simpl. rewrite (xorDigests_at h s b t) by done.
  rewrite (alter_insert _ _ _ (Z.lxor (viewDigest h t) (ItemHash ex))).
  2: { rewrite list_lookup_insert_eq; [done|].
       rewrite (so_digests h s Hs), length_fmap. by apply lookup_lt_Some in Hb. }
  rewrite list_insert_insert_eq, <- Hdig, (so_read h s Hs).
  rewrite Hcnt, Z.sub_diag, Z.add_0_r in Hnew.
  rewrite (list_insert_id (subCounts s)) in Hnew by by apply subCount_at.
  rewrite (so_count h s Hs), ?u32_idemp in Hnew. rewrite (so_count h s Hs).
  replace (Z.lxor (Z.lxor (shardDigest s) (ItemHash ex)) (ItemHash v)) with
    (Z.lxor (Z.lxor (shardDigest s) (viewDigest h t)) (viewDigest (<[w:=v]> h) t)); [done|].
  rewrite Hdig. zbits.
Qed.

(** The shard of an insertion. *)
Lemma insert_shard_ok h s b t kb w v :
  shard_ok h s -> buckets s !! b = Some t -> tmap t !! kb = None ->
  (forall i y kb', buckets s !! i = Some y -> tmap y !! kb' <> Some w) ->
  shard_ok (<[w := v]> h) (publishTree b (iInsert t kb w) 1 (xorDigests b (ItemHash v) s)).
Proof.
  intros Hs Hb Hk Hfresh.
  assert (view h t !! kb = None) as Hnone by (by rewrite view_lookup, Hk).
  assert (view (<[w := v]> h) (iInsert t kb w) = <[kb := v]> (view h t)) as Hview
    by (apply view_insert; eauto).
  assert (viewDigest (<[w := v]> h) (iInsert t kb w) = Z.lxor (viewDigest h t) (ItemHash v)) as Hdig.
  { unfold viewDigest. rewrite Hview, xor_map_insert_new by done. apply Z.lxor_comm. }
  assert (viewCount (<[w := v]> h) (iInsert t kb w) = viewCount h t + 1) as Hcnt.
  { unfold viewCount. rewrite Hview, map_size_insert_None by done. lia. }
  pose proof (shard_ok_update h (<[w := v]> h) s b t (iInsert t kb w) Hs Hb) as Hnew.
  unfold publishTree, xorDigests. simpl. rewrite (xorDigests_at h s b t) by done.
  rewrite (alter_insert _ _ _ (u32 (viewCount h t))) by by apply subCount_at.
  rewrite Hdig, Hcnt in Hnew.
  replace (Z.lxor (Z.lxor (shardDigest s) (viewDigest h t)) (Z.lxor (viewDigest h t) (ItemHash v)))
    with (Z.lxor (shardDigest s) (ItemHash v)) in Hnew by zbits.
  replace (viewCount h t + 1 - viewCount h t) with 1 in Hnew by lia.
  replace (u32 (u32 (viewCount h t) + 1)) with (u32 (viewCount h t + 1))
    by (by rewrite u32_add_l).
  apply Hnew. intros i y Hi Hne. apply view_unshared. eauto.
Qed.

(** The shard of a deletion. *)
Lemma delete_shard_ok h s b t kb w ex :
  shard_ok h s -> buckets s !! b = Some t -> tmap t !! kb = Some w -> h !! w = Some ex ->
  shard_ok h (publishTree b (iDelete t kb) (-1) (xorDigests b (ItemHash ex) s)).
Proof.
  intros Hs Hb Hk Hex.
  assert (view h t !! kb = Some ex) as Hold by (by rewrite view_lookup, Hk).
  assert (viewDigest h (iDelete t kb) = Z.lxor (viewDigest h t) (ItemHash ex)) as Hdig.
  { unfold viewDigest. rewrite view_delete, (xor_map_delete _ _ _ ex) by done. apply Z.lxor_comm. }
  assert (viewCount h (iDelete t kb) = viewCount h t - 1) as Hcnt.
  { unfold viewCount. rewrite view_delete, map_size_delete, Hold.
    assert (size (view h t) <> 0%nat); [|lia].
    intros E%map_size_empty_inv. by rewrite E, lookup_empty in Hold. }
  pose proof (shard_ok_update h h s b t (iDelete t kb) Hs Hb) as Hnew.
  unfold publishTree, xorDigests. simpl. rewrite (xorDigests_at h s b t) by done.
  rewrite (alter_insert _ _ _ (u32 (viewCount h t))) by by apply subCount_at.
  rewrite Hdig, Hcnt in Hnew.
  replace (Z.lxor (Z.lxor (shardDigest s) (viewDigest h t)) (Z.lxor (viewDigest h t) (ItemHash ex)))
    with (Z.lxor (shardDigest s) (ItemHash ex)) in Hnew by zbits.
  replace (viewCount h t - 1 - viewCount h t) with (-1) in Hnew by lia.
  replace (u32 (u32 (viewCount h t) + -1)) with (u32 (viewCount h t - 1))
    by (by rewrite u32_add_l).
  by apply Hnew.
Qed.


(** ** The whole map *)

(** The tree of a shard that has been replaced, and of the others. *)
Lemma tree_at_insert sm i s h n j b :
  (i < length (shards sm))%nat ->
  tree_at (mkSM (<[i := s]> (shards sm)) h n) j b
  = if decide (i = j) then buckets s !! b else tree_at sm j b.
Proof.
  intros Hi. unfold tree_at. simpl. case_decide as E.
  - subst. by rewrite list_lookup_insert_eq.
  - by rewrite list_lookup_insert_ne.
Qed.

(** A wrapper of one sub-bucket does not occur in another. *)
Lemma unshared sm i b t kb w i' b' t' kb' :
  sm_ok sm -> tree_at sm i b = Some t -> tmap t !! kb = Some w ->
  tree_at sm i' b' = Some t' -> tmap t' !! kb' = Some w -> kb' = kb /\ i' = i /\ b' = b.
Proof.
  intros Hok Ht Hk Ht' Hk'.
  assert (kb' = kb) as -> by by apply (sm_distinct sm Hok i' b' t' i b t kb' kb w).
  destruct (sm_entries sm Hok _ _ _ _ _ Ht Hk) as (_ & <- & <- & _).
  destruct (sm_entries sm Hok _ _ _ _ _ Ht' Hk') as (_ & <- & <- & _). done.
Qed.

Lemma fresh_loc sm i b t kb : sm_ok sm -> tree_at sm i b = Some t -> tmap t !! kb <> Some (nextLoc sm).
Proof.
  intros Hok Ht Hk. destruct (sm_entries sm Hok _ _ _ _ _ Ht Hk) as (? & _). lia.
Qed.

(** Replacing one shard: what is left to show for the invariant. *)
Lemma sm_ok_replace sm i s h n :
  sm_ok sm -> (i < length (shards sm))%nat -> shard_ok h s ->
  (forall j b t, j <> i -> tree_at sm j b = Some t -> view h t = view (wrappers sm) t) ->
  let sm' := mkSM (<[i := s]> (shards sm)) h n in
  (forall j b t kb w, tree_at sm' j b = Some t -> tmap t !! kb = Some w -> entry_ok sm' j b kb w) ->
  no_sharing sm' -> sm_ok sm'.
Proof.
  intros Hok Hi Hs Hv sm' He Hns. split; [|simpl|done|done].
  - simpl. by rewrite length_insert, (sm_len sm Hok).
  - intros j s' Hj. destruct (decide (i = j)) as [->|Hne].
    + rewrite list_lookup_insert_eq in Hj by done. by simplify_eq.
    + rewrite list_lookup_insert_ne in Hj by done.
      eapply shard_ok_ext; [by apply (sm_shards sm Hok j)|].
      intros b t Hb. apply (Hv j b); [done|]. unfold tree_at. by rewrite Hj.
Qed.

Section Key.
Variables (sm : ShardedMap) (k : Key).
Hypothesis Hok : sm_ok sm.

Local Abbreviation hash := (HashFunc k).
Local Abbreviation i := (shardIndex hash).
Local Abbreviation b := (subIndex hash).
Local Abbreviation s := (getShardByHash sm hash).
Local Abbreviation t := (buckets s !!! b).
Local Abbreviation kb := (string_bytes k).

Lemma key_shard_lt : (i < length (shards sm))%nat.
Proof. rewrite (sm_len sm Hok). apply shardIndex_lt. Qed.

Lemma key_shard_ok : shard_ok (wrappers sm) s.
Proof. apply (sm_shards sm Hok i). by apply shard_at. Qed.

Lemma key_tree : tree_at sm i b = Some t.
Proof. by apply tree_at_hash. Qed.

Lemma key_tree_in j y : buckets s !! j = Some y -> tree_at sm i j = Some y.
Proof. intros Hy. unfold tree_at. by rewrite (shard_at sm hash Hok). Qed.

(** The lookup of every operation: absent, or an allocated wrapper. *)
Lemma key_get_None : iGet t kb = None <-> sm_get sm k = None.
Proof.
  unfold sm_get. rewrite key_tree. ored. rewrite view_lookup, iGet_tmap.
  destruct (tmap t !! kb) as [w|] eqn:E; ored; [|done].
  destruct (sm_entries sm Hok _ _ _ _ _ key_tree E) as (_ & _ & _ & v & -> & _). done.
Qed.

Lemma key_get_Some w :
  iGet t kb = Some w -> exists v, wrappers sm !! w = Some v /\ sm_get sm k = Some v /\
    ItemHash v = getItemHash hash v.
Proof.
  rewrite iGet_tmap. intros E.
  destruct (sm_entries sm Hok _ _ _ _ _ key_tree E) as (_ & _ & _ & v & Hv & Hh).
  exists v. split; [done|]. unfold sm_get. rewrite key_tree. ored.
  rewrite view_lookup, E. by rewrite bytes_string_bytes in Hh.
Qed.

(** A change to this key's sub-bucket leaves every other key alone. *)
Lemma sm_get_change s' h' n' t' ov :
  buckets s' = <[b := t']> (buckets s) ->
  (forall j b' y, (j, b') <> (i, b) -> tree_at sm j b' = Some y ->
     view h' y = view (wrappers sm) y) ->
  (forall kb', view h' t' !! kb' = if decide (kb' = kb) then ov
               else view (wrappers sm) t !! kb') ->
  forall k', sm_get (mkSM (<[i := s']> (shards sm)) h' n') k'
             = if decide (k = k') then ov else sm_get sm k'.
Proof.
  intros Hs' Hother Hthis k'. unfold sm_get.
  rewrite tree_at_insert by apply key_shard_lt. cbn [wrappers].
  assert (length (buckets s) = Z.to_nat SubBucketCount) as Hlen by apply key_shard_ok.
  case_decide as Ei; [rewrite Hs'; destruct (decide (subIndex (HashFunc k') = b)) as [Eb|Nb]|].
  - rewrite <- Ei, Eb, list_lookup_insert_eq, key_tree by (rewrite Hlen; apply subIndex_lt).
    ored. rewrite Hthis. do 2 case_decide; subst; try done.
    by apply string_bytes_inj in H1; subst.
  - rewrite list_lookup_insert_ne by done. rewrite decide_False by (intros ->; done).
    rewrite <- Ei. unfold tree_at. rewrite (shard_at sm hash Hok). ored.
    destruct (buckets s !! _) as [y|] eqn:Ey; [|done]. ored.
    rewrite (Hother i (subIndex (HashFunc k')) y); [done|congruence|]. by apply key_tree_in.
  - rewrite decide_False by (intros ->; done).
    destruct (tree_at sm _ _) as [y|] eqn:Ey; [|done]. ored.
    rewrite (Hother (shardIndex (HashFunc k')) (subIndex (HashFunc k')) y); [done|congruence|done].
Qed.

Lemma overwrite_ok w v :
  iGet t kb = Some w -> ItemHash v = getItemHash hash v ->
  sm_ok (overwrite sm hash w v) /\
  forall k', sm_get (overwrite sm hash w v) k' = if decide (k = k') then Some v else sm_get sm k'.
Proof.
  intros Hw Hv. destruct (key_get_Some w Hw) as (ex & Hex & _ & _).
  rewrite iGet_tmap in Hw. pose proof key_tree as Ht. pose proof (bucket_at sm hash Hok) as Hb.
  assert (forall j b' y kb', (j, b') <> (i, b) -> tree_at sm j b' = Some y ->
    tmap y !! kb' <> Some w) as Hno.
  { intros j b' y kb' Hne Hy Hw'.
    destruct (unshared sm i b t kb w j b' y kb') as (_ & -> & ->); done. }
  assert (forall kb', tmap t !! kb' = Some w -> kb' = kb) as Hu.
  { intros kb' Hw'. by destruct (unshared sm i b t kb w i b t kb') as (-> & _). }
  assert (forall j b' y, (j, b') <> (i, b) -> tree_at sm j b' = Some y ->
    view (<[w := v]> (wrappers sm)) y = view (wrappers sm) y) as Hother.
  { intros j b' y Hne Hy. apply view_unshared. intros kb'. by apply (Hno j b'). }
  unfold overwrite. rewrite Hex.
  set (s' := xorDigests b (ItemHash v) (xorDigests b (ItemHash ex) s)).
  assert (forall j b', tree_at (mkSM (<[i := s']> (shards sm)) (<[w := v]> (wrappers sm)) (nextLoc sm)) j b'
    = tree_at sm j b') as Htrees.
  { intros j b'. rewrite tree_at_insert by apply key_shard_lt. case_decide; [|done].
    subst j. unfold tree_at. by rewrite (shard_at sm hash Hok). }
  split.
  - apply sm_ok_replace; [done|apply key_shard_lt| | | |].
    + apply (overwrite_shard_ok _ _ b t kb); try done; [apply key_shard_ok|].
      intros j y Hy Hne. apply (Hother i j); [congruence|by apply key_tree_in].
    + intros j b' y Hne. apply (Hother j b'). congruence.
    + intros j b' y kb' w'. rewrite Htrees. intros Hy Hw'.
      destruct (sm_entries sm Hok _ _ _ _ _ Hy Hw') as (Hlt & E1 & E2 & v' & Hv' & Hh').
      split; [done|]. split; [done|]. split; [done|]. cbn [wrappers].
      destruct (decide (w = w')) as [<-|Hne].
      * exists v. rewrite lookup_insert_eq.
        destruct (unshared sm i b t kb w j b' y kb') as (-> & _); try done.
        by rewrite bytes_string_bytes.
      * exists v'. by rewrite lookup_insert_ne.
    + intros i1 b1 t1 i2 b2 t2 kb1 kb2 w'. rewrite !Htrees. by apply (sm_distinct sm Hok).
  - apply (sm_get_change s' (<[w := v]> (wrappers sm)) (nextLoc sm) t (Some v)); [|done|].
    + by rewrite list_insert_id.
    + intros kb'. rewrite (view_overwrite _ _ kb), lookup_insert by done.
      repeat case_decide; congruence.
Qed.

(** The trees of the map after the tree of this key's sub-bucket was replaced. *)
Lemma replaced_tree s' h' n' t' j b' y :
  buckets s' = <[b := t']> (buckets s) ->
  tree_at (mkSM (<[i := s']> (shards sm)) h' n') j b' = Some y ->
  (j = i /\ b' = b /\ y = t') \/ tree_at sm j b' = Some y.
Proof.
  intros Hs'. pose proof (bucket_at sm hash Hok) as Hb%lookup_lt_Some.
  rewrite tree_at_insert by apply key_shard_lt. case_decide; [|by right].
  subst j. rewrite Hs'. destruct (decide (b' = b)) as [->|Hne].
  - rewrite list_lookup_insert_eq by done. intros Hy%(inj Some). by left.
  - rewrite list_lookup_insert_ne by done. intros Hy. right. by apply key_tree_in.
Qed.

(** An entry after an insertion at the fresh location [w] is the new one or an old one. *)
Lemma inserted_entry s' h' n' w j b' y kb' w' :
  w = nextLoc sm -> buckets s' = <[b := iInsert t kb w]> (buckets s) ->
  tree_at (mkSM (<[i := s']> (shards sm)) h' n') j b' = Some y -> tmap y !! kb' = Some w' ->
  (w' = w /\ kb' = kb /\ j = i /\ b' = b) \/
  (w' <> w /\ exists y', tree_at sm j b' = Some y' /\ tmap y' !! kb' = Some w').
Proof.
  intros -> Hs' Hy Hw'. destruct (replaced_tree _ _ _ _ _ _ _ Hs' Hy) as [(-> & -> & ->)|Hy'].
  - rewrite tmap_insert, lookup_insert in Hw'. case_decide; simplify_eq; [by left|].
    right. split; [|exists t; split; [apply key_tree|done]].
    intros ->. eapply (fresh_loc sm i b); [done|apply key_tree|done].
  - right. split; [|by exists y]. clear Hy. intros ->. by apply (fresh_loc sm j b' y kb').
Qed.

Lemma insertNew_ok v :
  iGet t kb = None -> ItemHash v = getItemHash hash v ->
  sm_ok (insertNew sm k hash v) /\
  forall k', sm_get (insertNew sm k hash v) k' = if decide (k = k') then Some v else sm_get sm k'.
Proof.
  intros Hk Hv. rewrite iGet_tmap in Hk. pose proof (bucket_at sm hash Hok) as Hb.
  unfold insertNew. set (w := nextLoc sm).
  assert (forall j b' y kb', tree_at sm j b' = Some y -> tmap y !! kb' <> Some w) as Hfresh
    by (intros; by apply (fresh_loc sm j b')).
  set (s' := publishTree b (iInsert t kb w) 1 (xorDigests b (ItemHash v) s)).
  split.
  - apply sm_ok_replace; [done|apply key_shard_lt| | | |].
    + apply insert_shard_ok; [apply key_shard_ok|done|done|].
      intros j y kb' Hy. apply (Hfresh i j). by apply key_tree_in.
    + intros j b' y Hne Hy. apply view_unshared. eauto.
    + intros j b' y kb' w' Hy Hw'. unfold entry_ok. cbn [wrappers nextLoc].
      destruct (inserted_entry s' _ _ w _ _ _ _ _ eq_refl eq_refl Hy Hw')
        as [(-> & -> & -> & ->)|(Hne & y' & Hy' & Hw'')].
      * rewrite bytes_string_bytes. split_and!; [lia|done|done|].
        exists v. by rewrite lookup_insert_eq.
      * destruct (sm_entries sm Hok _ _ _ _ _ Hy' Hw'') as (? & ? & ? & v' & ? & ?).
        split_and!; [lia|done|done|]. exists v'. by rewrite lookup_insert_ne.
    + intros i1 b1 t1 i2 b2 t2 kb1 kb2 w' H1 H2 Hw1 Hw2.
      destruct (inserted_entry s' _ _ w _ _ _ _ _ eq_refl eq_refl H1 Hw1)
        as [(? & -> & _)|(? & y1 & ? & ?)],
        (inserted_entry s' _ _ w _ _ _ _ _ eq_refl eq_refl H2 Hw2)
        as [(? & -> & _)|(? & y2 & ? & ?)]; try done.
      by apply (sm_distinct sm Hok i1 b1 y1 i2 b2 y2 kb1 kb2 w').
  - apply (sm_get_change s' (<[w := v]> (wrappers sm)) (S w) (iInsert t kb w) (Some v)); [done| |].
    + intros j b' y Hne Hy. apply view_unshared. eauto.
    + intros kb'. rewrite view_insert, lookup_insert by (intros kb''; apply (Hfresh i b); apply key_tree).
      repeat case_decide; congruence.
Qed.

Lemma Delete_ok :
  sm_ok (Delete sm k hash) /\
  forall k', sm_get (Delete sm k hash) k' = if decide (k = k') then None else sm_get sm k'.
Proof.
  unfold Delete. destruct (iGet t kb) as [w|] eqn:Hw.
  2: { split; [done|]. intros k'. case_decide; [subst k'|done]. by apply key_get_None. }
  destruct (key_get_Some w Hw) as (ex & Hex & _ & _). rewrite Hex. rewrite iGet_tmap in Hw.
  pose proof (bucket_at sm hash Hok) as Hb.
  change (buckets (xorDigests b (ItemHash ex) s)) with (buckets s).
  set (s' := publishTree b (iDelete t kb) (-1) (xorDigests b (ItemHash ex) s)).
  assert (forall j b' y kb' w',
    tree_at (mkSM (<[i := s']> (shards sm)) (wrappers sm) (nextLoc sm)) j b' = Some y ->
    tmap y !! kb' = Some w' ->
    exists y', tree_at sm j b' = Some y' /\ tmap y' !! kb' = Some w') as Hold.
  { intros j b' y kb' w' Hy Hw'.
    destruct (replaced_tree s' _ _ _ _ _ _ eq_refl Hy) as [(-> & -> & ->)|Hy']; [|by eauto].
    exists t. split; [apply key_tree|]. rewrite tmap_delete in Hw'.
    by apply lookup_delete_Some in Hw' as [_ ?]. }
  split.
  - apply sm_ok_replace; [done|apply key_shard_lt| |done| |].
    + by apply (delete_shard_ok _ _ _ _ _ w ex); [apply key_shard_ok|..].
    + intros j b' y kb' w' Hy Hw'. destruct (Hold _ _ _ _ _ Hy Hw') as (y' & Hy' & Hw'').
      apply (sm_entries sm Hok _ _ _ _ _ Hy' Hw'').
    + intros i1 b1 t1 i2 b2 t2 kb1 kb2 w' H1 H2 Hw1 Hw2.
      destruct (Hold _ _ _ _ _ H1 Hw1) as (y1 & ? & ?), (Hold _ _ _ _ _ H2 Hw2) as (y2 & ? & ?).
      by apply (sm_distinct sm Hok i1 b1 y1 i2 b2 y2 kb1 kb2 w').
  - apply (sm_get_change s' (wrappers sm) (nextLoc sm) (iDelete t kb) None); [done|done|].
    intros kb'. rewrite view_delete, lookup_delete. repeat case_decide; congruence.
Qed.

End Key.


(** ** The abstract map and what each operation does to it *)

(** A value as it is stored: with its item hash. *)
Definition stamp k v : Value := with_ItemHash v (getItemHash (HashFunc k) v).

(** The specification of [StoreLWW] on the value present at a key. *)
Definition lww_join (o : option Value) v : Value :=
  match o with Some e => if lwwWins e v then v else e | None => v end.

Definition lww_accepts (o : option Value) v : bool :=
  match o with Some e => lwwWins e v | None => true end.

Definition spec_Store (m : gmap Key Value) k v : gmap Key Value := <[k := stamp k v]> m.
Definition spec_StoreLWW (m : gmap Key Value) k v : gmap Key Value :=
  <[k := lww_join (m !! k) (stamp k v)]> m.
Definition spec_Delete (m : gmap Key Value) k : gmap Key Value := delete k m.

(** [sm] is well formed and holds exactly the records of [m]. *)
Definition represents sm (m : gmap Key Value) : Prop :=
  sm_ok sm /\ forall k, sm_get sm k = m !! k.

Lemma NewShardedMap_represents : represents NewShardedMap ∅.
Proof.
  assert (forall h, view h iNew = ∅) as Hview.
  { intros h. apply map_eq. intros kb. by rewrite view_lookup, tmap_new, !lookup_empty. }
  assert (forall i b t, tree_at NewShardedMap i b = Some t -> tmap t = ∅) as Htree.
  { intros i b t. unfold tree_at, NewShardedMap. cbn [shards].
    destruct (replicate _ _ !! i) as [s|] eqn:Es; [|done]. ored.
    apply lookup_replicate in Es as [-> _]. unfold newShard. cbn [buckets].
    intros [-> _]%lookup_replicate. apply tmap_new. }
  assert (forall i b t kb w, tree_at NewShardedMap i b = Some t -> tmap t !! kb <> Some w) as Hnone.
  { intros i b t kb w Ht. by rewrite (Htree _ _ _ Ht), lookup_empty. }
  split; [split|].
  - apply length_replicate.
  - intros i s [-> _]%lookup_replicate.
    assert (viewDigest (wrappers NewShardedMap) iNew = 0) as Hd
      by (unfold viewDigest; rewrite Hview; apply xor_map_empty).
    assert (viewCount (wrappers NewShardedMap) iNew = 0) as Hc
      by (unfold viewCount; by rewrite Hview, map_size_empty).
    split; unfold newShard; cbn [buckets readBuckets subDigests subCounts shardDigest shardCount];
      rewrite ?fmap_replicate, ?Hd, ?Hc; done.
  - intros i b t kb w Ht Hw. by destruct (Hnone _ _ _ _ _ Ht Hw).
  - intros i1 b1 t1 i2 b2 t2 kb1 kb2 w H1 _ Hw. by destruct (Hnone _ _ _ _ _ H1 Hw).
  - intros k. unfold sm_get. destruct (tree_at _ _ _) as [t|] eqn:Et; [|done]. ored.
    rewrite view_lookup. by rewrite (Htree _ _ _ Et), lookup_empty.
Qed.

Lemma Store_represents sm m k v :
  represents sm m -> represents (Store sm k (HashFunc k) v) (spec_Store m k v).
Proof.
  intros [Hok Hm]. unfold Store. fold (stamp k v).
  destruct (iGet _ _) as [w|] eqn:Hw.
  - destruct (overwrite_ok sm k Hok w (stamp k v) Hw) as [Hok' Hget]; [done|].
    split; [done|]. intros k'. rewrite Hget, Hm. unfold spec_Store. by rewrite lookup_insert.
  - destruct (insertNew_ok sm k Hok (stamp k v) Hw) as [Hok' Hget]; [done|].
    split; [done|]. intros k'. rewrite Hget, Hm. unfold spec_Store. by rewrite lookup_insert.
Qed.

Lemma StoreLWW_represents sm m k v :
  represents sm m ->
  (StoreLWW sm k (HashFunc k) v).1 = lww_accepts (m !! k) (stamp k v) /\
  represents (StoreLWW sm k (HashFunc k) v).2 (spec_StoreLWW m k v).
Proof.
  intros [Hok Hm]. unfold StoreLWW. fold (stamp k v). unfold spec_StoreLWW.
  rewrite <- Hm. destruct (iGet _ _) as [w|] eqn:Hw.
  - destruct (key_get_Some sm k Hok w Hw) as (ex & Hex & Hg & _). rewrite Hex, Hg. simpl.
    destruct (lwwWins ex (stamp k v)) eqn:Hwin; simpl; (split; [done|]).
    + destruct (overwrite_ok sm k Hok w (stamp k v) Hw) as [Hok' Hget]; [done|].
      split; [done|]. intros k'. by rewrite Hget, Hm, lookup_insert.
    + split; [done|]. intros k'. rewrite insert_id; [done|]. by rewrite <- Hm.
  - rewrite (proj1 (key_get_None sm k Hok) Hw). simpl. split; [done|].
    destruct (insertNew_ok sm k Hok (stamp k v) Hw) as [Hok' Hget]; [done|].
    split; [done|]. intros k'. by rewrite Hget, Hm, lookup_insert.
Qed.

Lemma Delete_represents sm m k :
  represents sm m -> represents (Delete sm k (HashFunc k)) (spec_Delete m k).
Proof.
  intros [Hok Hm]. destruct (Delete_ok sm k Hok) as [Hok' Hget].
  split; [done|]. intros k'. rewrite Hget, Hm. unfold spec_Delete. by rewrite lookup_delete.
Qed.

Lemma Load_represents sm m k :
  represents sm m ->
  Load sm k (HashFunc k) = (fun v => with_ItemHash v 0) <$> m !! k /\
  LoadData sm k (HashFunc k) = (v ← m !! k; if Tombstone v then None else Some (Data v)).
Proof.
  intros [Hok Hm]. rewrite <- Hm. unfold Load, LoadData.
  rewrite (so_read _ _ (key_shard_ok sm k Hok)), (bucket_at sm _ Hok).
  unfold sm_get. rewrite (key_tree sm k Hok). ored. rewrite view_lookup, iGet_tmap.
  destruct (tmap _ !! _) as [w|]; [|done]. ored. by destruct (wrappers sm !! w).
Qed.


End Invariant.


End ShardedMap.
