(* ===== verification/MapTheory.v ===== *)
(** * What the sharded map guarantees

    Theorems about src/core/hashmap/shardedmap.go on top of the invariant and the
    refinement lemmas of ShardedMap: sequences of operations refine a finite map,
    last-write-wins is a strict order and merging converges, digests depend only on the
    contents, [Range] enumerates the contents, and where equal digests do not mean equal
    contents. *)

From S2P Require Import Prelude Kv ShardedMap.
Import ShardedMap.

(** ** Lists *)

Lemma NoDup_concat {A} (ls : list (list A)) :
  (forall i l, ls !! i = Some l -> NoDup l) ->
  (forall i j l1 l2 x, ls !! i = Some l1 -> ls !! j = Some l2 -> x ∈ l1 -> x ∈ l2 -> i = j) ->
  NoDup (concat ls).
Proof.
  induction ls as [|l ls IH]; simpl; intros Hnd Hdis; [constructor|].
  apply NoDup_app. split; [by apply (Hnd 0%nat)|]. split.
  - intros x Hx Hin. apply list_elem_of_In, in_concat in Hin as (l' & Hl' & Hx').
    apply list_elem_of_In in Hl', Hx'. apply list_elem_of_lookup in Hl' as [j Hj].
    by apply (Hdis 0%nat (S j) l l' x) in Hx'.
  - apply IH; [intros i; apply (Hnd (S i))|].
    intros i j l1 l2 x H1 H2 Hx1 Hx2. by injection (Hdis (S i) (S j) l1 l2 x H1 H2 Hx1 Hx2).
Qed.

Lemma elem_of_concat {A} (ls : list (list A)) x : x ∈ concat ls <-> exists l, l ∈ ls /\ x ∈ l.
Proof.
  rewrite list_elem_of_In, in_concat.
  split; intros (l & ? & ?); exists l; rewrite ?list_elem_of_In in *; done.
Qed.

Lemma fmap_concat {A B} (f : A -> B) (ls : list (list A)) :
  f <$> concat ls = concat ((fun l : list A => f <$> l) <$> ls).
Proof. induction ls as [|l ls IH]; csimpl; [done|]. by rewrite fmap_app, IH. Qed.

Section Theory.
Context `{HX : XXHash} `{HR : Radix} `{!XXHashLaws} `{!RadixLaws}.
Implicit Types (m : gmap string Value) (v : Value).

(** ** Contents of one sub-bucket *)

Lemma view_get sm i b t kb :
  sm_ok sm -> tree_at sm i b = Some t ->
  view (wrappers sm) t !! kb =
  if decide (shardIndex (HashFunc (bytes_string kb)) = i /\ subIndex (HashFunc (bytes_string kb)) = b)
  then sm_get sm (bytes_string kb) else None.
Proof.
  intros Hok Ht. case_decide as Hr.
  - destruct Hr as [<- <-]. unfold sm_get. rewrite Ht. ored. by rewrite string_bytes_string.
  - rewrite view_lookup. destruct (tmap t !! kb) as [w|] eqn:Ew; [|done].
    destruct (sm_entries sm Hok _ _ _ _ _ Ht Ew) as (_ & ? & ? & _). by destruct Hr.
Qed.

(** Digests see a record through its item hash only. *)
Definition hashes m : gmap string Z := ItemHash <$> m.

Lemma view_hashes sm1 sm2 m1 m2 i b t1 t2 :
  represents sm1 m1 -> represents sm2 m2 ->
  (forall k, shardIndex (HashFunc k) = i -> hashes m1 !! k = hashes m2 !! k) ->
  tree_at sm1 i b = Some t1 -> tree_at sm2 i b = Some t2 ->
  ItemHash <$> view (wrappers sm1) t1 = ItemHash <$> view (wrappers sm2) t2.
Proof.
  intros [Hok1 Hm1] [Hok2 Hm2] Heq H1 H2. apply map_eq. intros kb.
  rewrite !lookup_fmap, (view_get sm1 i b), (view_get sm2 i b), Hm1, Hm2 by done.
  case_decide as Hd; [|done]. rewrite <- !lookup_fmap. apply (Heq _ (proj1 Hd)).
Qed.

Lemma xor_map_hashes {K} `{Countable K} (c : gmap K Value) : xor_map ItemHash c = xor_map id (ItemHash <$> c).
Proof. unfold xor_map. by rewrite map_fold_fmap. Qed.

(** ** Digests depend only on the contents *)

(** Those of a shard on the records of that shard. *)
Lemma shard_digests_local sm1 sm2 m1 m2 i s1 s2 :
  represents sm1 m1 -> represents sm2 m2 ->
  (forall k, shardIndex (HashFunc k) = i -> hashes m1 !! k = hashes m2 !! k) ->
  shards sm1 !! i = Some s1 -> shards sm2 !! i = Some s2 ->
  shardHash s1 = shardHash s2 /\ subHashes s1 = subHashes s2.
Proof.
  intros R1 R2 Heq H1 H2.
  pose proof (sm_shards sm1 (proj1 R1) _ _ H1) as S1.
  pose proof (sm_shards sm2 (proj1 R2) _ _ H2) as S2.
  assert (forall B (F : gmap (list ascii) Z -> B),
    (fun t => F (ItemHash <$> view (wrappers sm1) t)) <$> buckets s1
    = (fun t => F (ItemHash <$> view (wrappers sm2) t)) <$> buckets s2) as HF.
  { intros B F. apply list_eq_same_length with (length (buckets s1));
      [by rewrite !length_fmap, (so_len _ _ S1), (so_len _ _ S2)|by rewrite length_fmap|].
    intros b x y _. rewrite !list_lookup_fmap.
    destruct (buckets s1 !! b) as [t1|] eqn:E1, (buckets s2 !! b) as [t2|] eqn:E2;
      intros [= <-] [= <-].
    rewrite (view_hashes sm1 sm2 m1 m2 i b t1 t2); try done.
    - unfold tree_at. by rewrite H1.
    - unfold tree_at. by rewrite H2. }
  assert (viewDigest (wrappers sm1) <$> buckets s1 = viewDigest (wrappers sm2) <$> buckets s2) as Hd.
  { unfold viewDigest. etrans; [|etrans; [exact (HF _ (xor_map id))|]];
      apply list_fmap_ext; intros; by rewrite xor_map_hashes. }
  assert (viewCount (wrappers sm1) <$> buckets s1 = viewCount (wrappers sm2) <$> buckets s2) as Hc.
  { unfold viewCount. etrans; [|etrans; [exact (HF _ (fun c => Z.of_nat (size c)))|]];
      apply list_fmap_ext; intros; by rewrite map_size_fmap. }
  assert ((fun t => u32 (viewCount (wrappers sm1) t)) <$> buckets s1
          = (fun t => u32 (viewCount (wrappers sm2) t)) <$> buckets s2) as Hc32.
  { change ((u32 ∘ viewCount (wrappers sm1)) <$> buckets s1 = (u32 ∘ viewCount (wrappers sm2)) <$> buckets s2).
    by rewrite !list_fmap_compose, Hc. }
  unfold shardHash, subHashes.
  by rewrite (so_digest _ _ S1), (so_digest _ _ S2), (so_count _ _ S1), (so_count _ _ S2),
    (so_digests _ _ S1), (so_digests _ _ S2), (so_counts _ _ S1), (so_counts _ _ S2), Hd, Hc, Hc32.
Qed.

Lemma shard_digests_contents sm1 sm2 m1 m2 i s1 s2 :
  represents sm1 m1 -> represents sm2 m2 -> hashes m1 = hashes m2 ->
  shards sm1 !! i = Some s1 -> shards sm2 !! i = Some s2 ->
  shardHash s1 = shardHash s2 /\ subHashes s1 = subHashes s2.
Proof. intros R1 R2 Heq. apply (shard_digests_local sm1 sm2 m1 m2 i); [done..|]. intros k _. by rewrite Heq. Qed.

Lemma shards_contents {B} (F : shard -> B) sm1 sm2 m1 m2 :
  represents sm1 m1 -> represents sm2 m2 ->
  (forall i s1 s2, shards sm1 !! i = Some s1 -> shards sm2 !! i = Some s2 -> F s1 = F s2) ->
  F <$> shards sm1 = F <$> shards sm2.
Proof.
  intros R1 R2 HF. apply list_eq_same_length with (length (shards sm1));
    [by rewrite !length_fmap, (sm_len _ (proj1 R1)), (sm_len _ (proj1 R2))|by rewrite length_fmap|].
  intros i x y _. rewrite !list_lookup_fmap.
  destruct (shards sm1 !! i) eqn:E1, (shards sm2 !! i) eqn:E2; intros [= <-] [= <-].
  by apply (HF i).
Qed.

Lemma RootDigest_fold sm : RootDigest sm = xor_list (shardHash <$> shards sm).
Proof.
  unfold RootDigest, xor_list.
  assert (forall acc, foldl (fun root s => Z.lxor root (shardHash s)) acc (shards sm)
    = Z.lxor acc (foldr Z.lxor 0 (shardHash <$> shards sm))) as ->; [|apply Z.lxor_0_l].
  induction (shards sm) as [|s l IH]; intros acc; csimpl; [by rewrite Z.lxor_0_r|].
  by rewrite IH, Z.lxor_assoc.
Qed.

Lemma RootDigest_hashes sm1 sm2 m1 m2 :
  represents sm1 m1 -> represents sm2 m2 -> hashes m1 = hashes m2 -> RootDigest sm1 = RootDigest sm2.
Proof.
  intros R1 R2 Heq. rewrite !RootDigest_fold. f_equal.
  apply (shards_contents _ _ _ m1 m2); [done..|].
  intros i s1 s2 H1 H2. by apply (shard_digests_contents sm1 sm2 m1 m2 i).
Qed.

Lemma RootDigest_contents sm1 sm2 m :
  represents sm1 m -> represents sm2 m -> RootDigest sm1 = RootDigest sm2.
Proof. intros R1 R2. by eapply RootDigest_hashes. Qed.

(** Overwriting the record of a present key moves the root by the old and new item hashes. *)
Lemma RootDigest_overwrite sm k w ex v :
  sm_ok sm ->
  iGet (buckets (getShardByHash sm (HashFunc k)) !!! subIndex (HashFunc k)) (string_bytes k) = Some w ->
  wrappers sm !! w = Some ex ->
  RootDigest (overwrite sm (HashFunc k) w v)
  = Z.lxor (RootDigest sm) (Z.lxor (ItemHash ex) (ItemHash v)).
Proof.
  intros Hok Hw Hex. rewrite !RootDigest_fold. unfold overwrite. rewrite Hex. cbn [shards].
  rewrite list_fmap_insert.
  erewrite xor_list_insert by (rewrite list_lookup_fmap, (shard_at sm _ Hok); done).
  unfold shardHash, xorDigests. cbn [shardDigest shardCount]. zbits.
Qed.

(** ** Enumeration *)

Lemma treeEntries_elem sm i b t k v :
  sm_ok sm -> tree_at sm i b = Some t ->
  (k, v) ∈ treeEntries (wrappers sm) t <->
  shardIndex (HashFunc k) = i /\ subIndex (HashFunc k) = b /\ sm_get sm k = Some v.
Proof.
  intros Hok Ht. unfold treeEntries. rewrite list_elem_of_omap.
  trans (view (wrappers sm) t !! string_bytes k = Some v).
  - rewrite view_lookup. split.
    + intros ([kb w] & Hin & Hw). rewrite iIter_tmap, elem_of_map_to_list in Hin.
      destruct (wrappers sm !! w) eqn:E; simplify_eq/=.
      by rewrite string_bytes_string, Hin.
    + destruct (tmap t !! string_bytes k) as [w|] eqn:E; [|done]. simpl. intros Hv.
      exists (string_bytes k, w). rewrite iIter_tmap, elem_of_map_to_list. split; [done|].
      by rewrite Hv, bytes_string_bytes.
  - rewrite (view_get sm i b), bytes_string_bytes by done. case_decide; intuition congruence.
Qed.

Lemma treeEntries_NoDup h t : NoDup (treeEntries h t).*1.
Proof.
  unfold treeEntries.
  assert (NoDup (iIter t).*1) as Hnd.
  { rewrite iIter_tmap. apply NoDup_fst_map_to_list. }
  induction (iIter t) as [|[kb w] l IH]; csimpl; [constructor|].
  apply NoDup_cons in Hnd as [Hni Hnd]. destruct (h !! w) as [v|]; csimpl; [|auto].
  constructor; [|auto]. contradict Hni. revert Hni. clear.
  induction l as [|[kb' w'] l IH]; csimpl; [by intros ?%elem_of_nil|].
  destruct (h !! w'); csimpl; [|set_solver].
  intros [E|Hin]%elem_of_cons; [|set_solver].
  rewrite <- (string_bytes_string kb), E, string_bytes_string. set_solver.
Qed.

Lemma entries_elem sm k v : sm_ok sm -> (k, v) ∈ entries sm <-> sm_get sm k = Some v.
Proof.
  intros Hok. unfold entries, shardEntries. rewrite elem_of_concat. split.
  - intros (l & Hl & Hin). apply list_elem_of_fmap in Hl as (s & -> & Hs).
    apply elem_of_concat in Hin as (l' & Hl' & Hin).
    apply list_elem_of_fmap in Hl' as (t & -> & Ht).
    apply list_elem_of_lookup in Hs as [i Hi]. apply list_elem_of_lookup in Ht as [b Hb].
    apply (treeEntries_elem sm i b t k v Hok) in Hin; [by destruct Hin as (_ & _ & ?)|].
    unfold tree_at. by rewrite Hi.
  - intros Hk. exists (shardEntries (wrappers sm) (getShardByHash sm (HashFunc k))). split.
    { apply list_elem_of_fmap. eexists. split; [done|].
      apply list_elem_of_lookup. eexists. by apply shard_at. }
    apply elem_of_concat. exists (treeEntries (wrappers sm)
      (buckets (getShardByHash sm (HashFunc k)) !!! subIndex (HashFunc k))). split.
    { apply list_elem_of_fmap. eexists. split; [done|].
      apply list_elem_of_lookup. eexists. by apply bucket_at. }
    apply (treeEntries_elem sm _ _ _ k v Hok (key_tree sm k Hok)). done.
Qed.

Lemma shardEntries_NoDup sm i s :
  sm_ok sm -> shards sm !! i = Some s -> NoDup (shardEntries (wrappers sm) s).*1.
Proof.
  intros Hok Hs. unfold shardEntries. rewrite fmap_concat. apply NoDup_concat.
  - intros b l Hl. rewrite !list_lookup_fmap in Hl.
    destruct (buckets s !! b) as [t|] eqn:Eb; simplify_eq/=. apply treeEntries_NoDup.
  - intros b1 b2 l1 l2 k H1 H2 Hk1 Hk2. rewrite !list_lookup_fmap in H1, H2.
    destruct (buckets s !! b1) as [t1|] eqn:E1, (buckets s !! b2) as [t2|] eqn:E2; simplify_eq/=.
    apply list_elem_of_fmap in Hk1 as ([? v1] & -> & Hk1), Hk2 as ([? v2] & ? & Hk2). simplify_eq/=.
    apply (treeEntries_elem sm i b1 t1) in Hk1 as (_ & <- & _);
      [|done|unfold tree_at; by rewrite Hs].
    by apply (treeEntries_elem sm i b2 t2) in Hk2 as (_ & <- & _);
      [|done|unfold tree_at; by rewrite Hs].
Qed.

Lemma entries_NoDup sm : sm_ok sm -> NoDup (entries sm).*1.
Proof.
  intros Hok. unfold entries. rewrite fmap_concat. apply NoDup_concat.
  - intros i l Hl. rewrite !list_lookup_fmap in Hl.
    destruct (shards sm !! i) as [s|] eqn:Es; simplify_eq/=. by apply (shardEntries_NoDup sm i).
  - assert (forall i l k, (fun l : list (string * Value) => l.*1) <$>
      (shardEntries (wrappers sm) <$> shards sm) !! i = Some l ->
      k ∈ l -> shardIndex (HashFunc k) = i) as Hroute.
    { intros i l k Hl Hk. rewrite list_lookup_fmap in Hl.
      destruct (shards sm !! i) as [s|] eqn:Es; simplify_eq/=.
      apply list_elem_of_fmap in Hk as ([? v] & -> & Hk). unfold shardEntries in Hk.
      apply elem_of_concat in Hk as (l & Hl & Hk).
      apply list_elem_of_fmap in Hl as (t & -> & [b Hb]%list_elem_of_lookup).
      apply (treeEntries_elem sm i b t) in Hk as (<- & _); [done..|].
      unfold tree_at. by rewrite Es. }
    intros i j l1 l2 k H1 H2 Hk1 Hk2. rewrite list_lookup_fmap in H1, H2.
    by rewrite <- (Hroute _ _ _ H1 Hk1), <- (Hroute _ _ _ H2 Hk2).
Qed.

Lemma entries_represents sm m : represents sm m -> entries sm ≡ₚ map_to_list m.
Proof.
  intros [Hok Hm]. apply NoDup_Permutation.
  - eapply NoDup_fmap_1, entries_NoDup, Hok.
  - apply NoDup_map_to_list.
  - intros [k v]. by rewrite entries_elem, elem_of_map_to_list, Hm.
Qed.

(** Every well-formed map represents something. *)
Lemma sm_ok_represents sm : sm_ok sm -> exists m, represents sm m.
Proof.
  intros Hok. exists (list_to_map (entries sm)). split; [done|]. intros k.
  destruct (sm_get sm k) as [v|] eqn:Ek; symmetry.
  - apply elem_of_list_to_map_1; [by apply entries_NoDup|by apply entries_elem].
  - apply not_elem_of_list_to_map_1. intros ([j v] & -> & Hj)%list_elem_of_fmap.
    apply entries_elem in Hj; [|done]. cbn in Ek. congruence.
Qed.

Lemma shard_lookup sm id : sm_ok sm -> 0 <= id < ShardCount -> exists s, shards sm !! Z.to_nat id = Some s.
Proof. intros Hok Hid. apply lookup_lt_is_Some. rewrite (sm_len sm Hok). lia. Qed.

(** ** The sub-buckets of a mask *)

Lemma land_bit mask b : negb (Z.land mask (Z.shiftl 1 (Z.of_nat b)) =? 0) = Z.testbit mask (Z.of_nat b).
Proof.
  rewrite Z.shiftl_1_l. destruct (Z.testbit mask (Z.of_nat b)) eqn:Eb.
  - apply negb_true_iff, Z.eqb_neq. intros Hz.
    assert (Z.testbit (Z.land mask (2 ^ Z.of_nat b)) (Z.of_nat b) = true) as Ht
      by (rewrite Z.land_spec, Z.pow2_bits_true, Eb by lia; done).
    by rewrite Hz, Z.testbit_0_l in Ht.
  - apply negb_false_iff, Z.eqb_eq, Z.bits_inj'. intros n Hn.
    rewrite Z.land_spec, Z.pow2_bits_eqb, Z.testbit_0_l by lia.
    destruct (Z.eqb_spec (Z.of_nat b) n) as [<-|]; [by rewrite Eb|apply andb_false_r].
Qed.

Lemma RangeShard_lookup sm id mask b l :
  0 <= id < ShardCount ->
  imap (fun b t => if negb (Z.land mask (Z.shiftl 1 (Z.of_nat b)) =? 0) then treeEntries (wrappers sm) t else [])
    (buckets (shards sm !!! Z.to_nat id)) !! b = Some l ->
  exists t, buckets (shards sm !!! Z.to_nat id) !! b = Some t /\
  l = if Z.testbit mask (Z.of_nat b) then treeEntries (wrappers sm) t else [].
Proof.
  intros Hid Hl. rewrite list_lookup_imap in Hl. destruct (buckets _ !! b) as [t|] eqn:Et; simplify_eq/=.
  exists t. by rewrite land_bit.
Qed.

Lemma RangeShard_elem sm id mask k v :
  sm_ok sm -> 0 <= id < ShardCount ->
  (k, v) ∈ RangeShard sm id mask <->
  Z.of_nat (shardIndex (HashFunc k)) = id /\ Z.testbit mask (Z.of_nat (subIndex (HashFunc k))) = true /\
  sm_get sm k = Some v.
Proof.
  intros Hok Hid. unfold RangeShard.
  replace ((id <? 0) || (ShardCount <=? id)) with false by (symmetry; apply orb_false_iff; lia).
  destruct (shard_lookup sm id Hok Hid) as [s Hs].
  assert (shards sm !!! Z.to_nat id = s) as Es by by apply list_lookup_total_correct.
  cbv zeta. rewrite elem_of_concat. split.
  - intros (l & [b Hb]%list_elem_of_lookup & Hin).
    apply RangeShard_lookup in Hb as (t & Ht & ->); [|done]. rewrite Es in Ht.
    destruct (Z.testbit mask (Z.of_nat b)) eqn:Eb; [|by apply elem_of_nil in Hin].
    apply (treeEntries_elem sm (Z.to_nat id) b t) in Hin as (Hi & <- & Hg); [|done|unfold tree_at; by rewrite Hs].
    split; [lia|done].
  - intros (Hi & Hbit & Hg).
    destruct (lookup_lt_is_Some_2 (buckets s) (subIndex (HashFunc k))) as [t Ht].
    { rewrite (so_len _ _ (sm_shards sm Hok _ _ Hs)). apply subIndex_lt. }
    exists (treeEntries (wrappers sm) t). split.
    + apply list_elem_of_lookup. exists (subIndex (HashFunc k)).
      rewrite list_lookup_imap, Es, Ht. cbn. by rewrite land_bit, Hbit.
    + apply (treeEntries_elem sm (Z.to_nat id) (subIndex (HashFunc k)) t k v Hok); [unfold tree_at; by rewrite Hs|].
      split; [lia|done].
Qed.

Lemma RangeShard_NoDup sm id mask : sm_ok sm -> NoDup (RangeShard sm id mask).*1.
Proof.
  intros Hok. unfold RangeShard. destruct (_ || _) eqn:Eid; [constructor|].
  apply orb_false_iff in Eid as [H1 H2]. assert (0 <= id < ShardCount) as Hid by lia. clear H1 H2.
  destruct (shard_lookup sm id Hok Hid) as [s Hs].
  assert (shards sm !!! Z.to_nat id = s) as Es by by apply list_lookup_total_correct.
  cbv zeta. rewrite fmap_concat. apply NoDup_concat.
  - intros b l Hl. rewrite list_lookup_fmap in Hl. apply fmap_Some in Hl as (l' & Hl' & ->).
    apply RangeShard_lookup in Hl' as (t & _ & ->); [|done]. destruct (Z.testbit _ _); [|constructor].
    apply treeEntries_NoDup.
  - assert (forall b l x, (fun l : list (string * Value) => l.*1) <$>
      (imap (fun b t => if negb (Z.land mask (Z.shiftl 1 (Z.of_nat b)) =? 0) then treeEntries (wrappers sm) t else [])
        (buckets (shards sm !!! Z.to_nat id))) !! b = Some l ->
      x ∈ l -> subIndex (HashFunc x) = b) as Hsub.
    { intros b l x Hl Hx. apply fmap_Some in Hl as (l' & Hl' & ->).
      apply RangeShard_lookup in Hl' as (t & Ht & ->); [|done]. rewrite Es in Ht.
      destruct (Z.testbit _ _); [|by apply elem_of_nil in Hx].
      apply list_elem_of_fmap in Hx as ([? v] & -> & Hx).
      apply (treeEntries_elem sm (Z.to_nat id) b t) in Hx as (_ & ? & _); [done..|unfold tree_at; by rewrite Hs]. }
    intros b1 b2 l1 l2 x H1 H2 Hx1 Hx2. rewrite list_lookup_fmap in H1, H2.
    by rewrite <- (Hsub _ _ _ H1 Hx1), (Hsub _ _ _ H2 Hx2).
Qed.

Lemma Load_sm_get sm k : sm_ok sm -> Load sm k (HashFunc k) = (fun v => with_ItemHash v 0) <$> sm_get sm k.
Proof.
  intros [m Hm]%sm_ok_represents. destruct (Load_represents sm m k Hm) as [-> _]. by rewrite (proj2 Hm).
Qed.

(** ** The last-write-wins order *)

(** The three keys the order compares. *)
Definition lww_key v : Z * string * Z := (Timestamp v, NodeID v, ItemHash v).

Lemma lwwWins_irrefl v : lwwWins v v = false.
Proof.
  unfold lwwWins. rewrite Z.eqb_refl, bool_decide_true by done. simpl. apply Z.ltb_irrefl.
Qed.

Lemma lwwWins_trans a b c : lwwWins a b = true -> lwwWins b c = true -> lwwWins a c = true.
Proof.
  unfold lwwWins.
  destruct (Z.eqb_spec (Timestamp a) (Timestamp b)) as [E1|N1],
    (Z.eqb_spec (Timestamp b) (Timestamp c)) as [E2|N2];
    destruct (Z.eqb_spec (Timestamp a) (Timestamp c)) as [E3|N3]; simpl;
    rewrite ?Z.ltb_lt; try lia; try congruence.
  repeat case_bool_decide; simpl; rewrite ?Z.ltb_lt; intros Hab Hbc;
    first [lia | congruence | by eapply str_gt_trans | exfalso].
  pose proof (str_gt_trans _ _ _ Hbc Hab) as Hca.
  replace (NodeID c) with (NodeID a) in Hca by done. by rewrite str_gt_irrefl in Hca.
Qed.

Lemma lwwWins_total a b :
  lwwWins a b = false -> lwwWins b a = false -> lww_key a = lww_key b.
Proof.
  unfold lwwWins, lww_key.
  destruct (Z.eqb_spec (Timestamp a) (Timestamp b)) as [E1|N1];
    destruct (Z.eqb_spec (Timestamp b) (Timestamp a)); try lia; simpl; rewrite ?Z.ltb_ge; try lia.
  repeat case_bool_decide; simpl; try congruence; rewrite ?Z.ltb_ge.
  - intros. f_equal; [congruence|lia].
  - intros. destruct (str_gt_total (NodeID a) (NodeID b)) as [|[|]]; congruence.
Qed.

(** ** Sequences of operations *)

Inductive mop :=
| MStore (k : string) (v : Value)
| MStoreLWW (k : string) (v : Value)
| MDelete (k : string).

Definition impl_step (sm : ShardedMap) (o : mop) : ShardedMap :=
  match o with
  | MStore k v => Store sm k (HashFunc k) v
  | MStoreLWW k v => (StoreLWW sm k (HashFunc k) v).2
  | MDelete k => Delete sm k (HashFunc k)
  end.

Definition spec_step m (o : mop) : gmap string Value :=
  match o with
  | MStore k v => spec_Store m k v
  | MStoreLWW k v => spec_StoreLWW m k v
  | MDelete k => spec_Delete m k
  end.

Lemma impl_step_represents sm m o : represents sm m -> represents (impl_step sm o) (spec_step m o).
Proof.
  destruct o; intros R; simpl;
    [by apply Store_represents|by apply StoreLWW_represents|by apply Delete_represents].
Qed.

Lemma run_represents sm m ops :
  represents sm m -> represents (foldl impl_step sm ops) (foldl spec_step m ops).
Proof.
  revert sm m. induction ops as [|o ops IH]; intros sm m R; simpl; [done|].
  by apply IH, impl_step_represents.
Qed.

(** Merging a batch of records, as replication does: one [StoreLWW] per record. *)
Definition merge_all (sm : ShardedMap) (reqs : list (string * Value)) : ShardedMap :=
  foldl (fun sm '(k, v) => (StoreLWW sm k (HashFunc k) v).2) sm reqs.

Definition spec_merge m (reqs : list (string * Value)) : gmap string Value :=
  foldl (fun m '(k, v) => spec_StoreLWW m k v) m reqs.

Lemma merge_represents sm m reqs :
  represents sm m -> represents (merge_all sm reqs) (spec_merge m reqs).
Proof.
  revert sm m. induction reqs as [|[k v] reqs IH]; intros sm m R; simpl; [done|].
  by apply IH, StoreLWW_represents.
Qed.

(** Merging a batch with one record per key joins each with what is there. *)
Lemma spec_merge_lookup m (l : list (string * Value)) k :
  NoDup l.*1 ->
  spec_merge m l !! k =
    match (list_to_map l : gmap string Value) !! k with
    | Some v => Some (lww_join (m !! k) (stamp k v))
    | None => m !! k
    end.
Proof.
  revert m. induction l as [|[j v] l IH]; intros m Hnd; [done|].
  cbn [fmap list_fmap fst] in Hnd. apply NoDup_cons in Hnd as [Hj Hnd].
  change (spec_merge m ((j, v) :: l)) with (spec_merge (spec_StoreLWW m j v) l).
  rewrite IH by done. cbn [list_to_map foldr fst snd]. unfold spec_StoreLWW.
  destruct (decide (j = k)) as [->|Hne].
  - rewrite lookup_insert_eq. by rewrite not_elem_of_list_to_map_1, lookup_insert_eq.
  - by rewrite !lookup_insert_ne.
Qed.

(** The records of a map carry their item hash. *)
Lemma represents_stamped sm m k v : represents sm m -> m !! k = Some v -> stamp k v = v.
Proof.
  intros [Hok Hm] Hk. rewrite <- Hm in Hk. unfold sm_get in Hk. rewrite tree_at_hash in Hk by done. cbn in Hk.
  rewrite view_lookup in Hk. destruct (tmap _ !! string_bytes k) as [w|] eqn:Ew; [|done].
  destruct (sm_entries sm Hok _ _ _ _ _ (tree_at_hash sm _ Hok) Ew) as (_ & _ & _ & v' & Hw & Hh). cbn in Hk.
  rewrite Hw in Hk. injection Hk as ->. rewrite bytes_string_bytes in Hh. unfold stamp. rewrite <- Hh. by destruct v.
Qed.

(** No two different records for one key agree on all three keys of the order. *)
Definition collision_free (reqs : list (string * Value)) : Prop :=
  forall k v1 v2, (k, v1) ∈ reqs -> (k, v2) ∈ reqs ->
    lww_key (stamp k v1) = lww_key (stamp k v2) -> stamp k v1 = stamp k v2.

(** The same, as a test. *)
Definition collision_freeb (reqs : list (string * Value)) : bool :=
  forallb (fun '(k1, v1) => forallb (fun '(k2, v2) =>
    negb (bool_decide (k1 = k2)) || negb (bool_decide (lww_key (stamp k1 v1) = lww_key (stamp k2 v2)))
    || bool_decide (stamp k1 v1 = stamp k2 v2)) reqs) reqs.

Lemma collision_freeb_sound reqs : collision_freeb reqs = true -> collision_free reqs.
Proof.
  unfold collision_freeb. intros Hb k v1 v2 H1 H2 Hk.
  rewrite forallb_forall in Hb. apply list_elem_of_In in H1, H2. specialize (Hb _ H1). simpl in Hb.
  rewrite forallb_forall in Hb. specialize (Hb _ H2). simpl in Hb.
  rewrite !(bool_decide_true (k = k)), (bool_decide_true (lww_key _ = _)) in Hb by done.
  by apply bool_decide_eq_true in Hb.
Qed.

(** A merge keeps, per key, a record of the batch that none of the batch beats. *)
Lemma spec_merge_max reqs k :
  match spec_merge ∅ reqs !! k with
  | None => forall v, (k, v) ∉ reqs
  | Some s => (exists v, (k, v) ∈ reqs /\ s = stamp k v) /\
              forall v, (k, v) ∈ reqs -> lwwWins s (stamp k v) = false
  end.
Proof.
  induction reqs as [|[k' v'] reqs IH] using rev_ind.
  - simpl. rewrite lookup_empty. intros v. apply not_elem_of_nil.
  - unfold spec_merge in *. rewrite foldl_app. simpl. set (m := foldl _ _ _) in *.
    unfold spec_StoreLWW. rewrite lookup_insert. case_decide as E; [subst k'|].
    + destruct (m !! k) as [e|] eqn:Em; simpl.
      * destruct IH as ((ve & Hve & ->) & Hmax).
        destruct (lwwWins (stamp k ve) (stamp k v')) eqn:Hw.
        { split; [exists v'; set_solver|]. intros v [Hv|[= ->]%list_elem_of_singleton]%elem_of_app.
          - apply not_true_iff_false. intros Hv'.
            pose proof (lwwWins_trans _ _ _ Hw Hv'). rewrite (Hmax v Hv) in *. done.
          - apply lwwWins_irrefl. }
        split; [exists ve; set_solver|].
        intros v [Hv|[= ->]%list_elem_of_singleton]%elem_of_app; auto.
      * split; [exists v'; set_solver|].
        intros v [Hv|[= ->]%list_elem_of_singleton]%elem_of_app; [by destruct (IH v)|].
        apply lwwWins_irrefl.
    + assert (forall v, (k, v) ∈ reqs ++ [(k', v')] <-> (k, v) ∈ reqs) as Hin.
      { intros v. rewrite elem_of_app, list_elem_of_singleton. split; [|by left].
        intros [|[= -> ->]]; done. }
      destruct (m !! k) as [e|].
      * destruct IH as ((ve & Hve & ->) & Hmax). split; [exists ve; by rewrite Hin|].
        intros v. rewrite Hin. apply Hmax.
      * intros v. rewrite Hin. apply IH.
Qed.

Lemma spec_merge_same reqs1 reqs2 :
  (forall x, x ∈ reqs1 <-> x ∈ reqs2) -> collision_free reqs1 ->
  spec_merge ∅ reqs1 = spec_merge ∅ reqs2.
Proof.
  intros Hsame Hcf. apply map_eq. intros k.
  pose proof (spec_merge_max reqs1 k) as H1. pose proof (spec_merge_max reqs2 k) as H2.
  destruct (spec_merge ∅ reqs1 !! k) as [s1|], (spec_merge ∅ reqs2 !! k) as [s2|]; [| | |done].
  - destruct H1 as ((v1 & Hv1 & ->) & M1), H2 as ((v2 & Hv2 & ->) & M2). f_equal.
    apply (Hcf k); [done|by apply Hsame|].
    apply lwwWins_total; [by apply M1, Hsame|by apply M2, Hsame].
  - destruct H1 as ((v1 & Hv1 & _) & _). destruct (H2 v1). by apply Hsame.
  - destruct H2 as ((v2 & Hv2 & _) & _). destruct (H1 v2). by apply Hsame.
Qed.


(** ** Linearity of the item hash *)

Lemma RotateLeft64_bit x k i :
  0 <= x < 2 ^ 64 -> 0 <= k <= 64 -> 0 <= i ->
  Z.testbit (RotateLeft64 x k) i =
  (if i <? 64 then if i <? k then Z.testbit x (i + (64 - k)) else Z.testbit x (i - k) else false).
Proof.
  intros Hx Hk Hi. unfold RotateLeft64, u64.
  rewrite Z.lor_spec, Z.shiftr_spec by lia.
  destruct (Z.ltb_spec i 64).
  - rewrite Z.mod_pow2_bits_low, Z.shiftl_spec by lia. destruct (Z.ltb_spec i k).
    + by rewrite (Z.testbit_neg_r x (i - k)) by lia.
    + rewrite (testbit_above x 64 (i + (64 - k))) by lia. apply orb_false_r.
  - rewrite Z.mod_pow2_bits_high by lia. simpl. apply (testbit_above x 64); lia.
Qed.

Lemma RotateLeft64_lxor x y k :
  0 <= x < 2 ^ 64 -> 0 <= y < 2 ^ 64 -> 0 <= k <= 64 ->
  RotateLeft64 (Z.lxor x y) k = Z.lxor (RotateLeft64 x k) (RotateLeft64 y k).
Proof.
  intros Hx Hy Hk. apply Z.bits_inj'. intros i Hi. rewrite Z.lxor_spec.
  rewrite !RotateLeft64_bit by (try apply lxor_range; lia).
  repeat case_match; rewrite ?Z.lxor_spec; done.
Qed.

(** Four consecutive timestamps, the first a multiple of four, cancel out. *)
Lemma four_ticks_cancel t :
  t mod 4 = 0 -> Z.lxor (Z.lxor t (t + 1)) (Z.lxor (t + 2) (t + 3)) = 0.
Proof.
  intros Ht.
  assert (forall j, 0 <= j < 4 -> t + j = Z.lxor t j) as Hj.
  { intros j Hj'. apply Z.add_nocarry_lxor. apply Z.bits_inj'. intros i Hi.
    rewrite Z.land_spec, Z.bits_0. destruct (Z.lt_ge_cases i 2).
    - replace t with (Z.shiftl (t / 4) 2) by (rewrite Z.shiftl_mul_pow2 by lia; zlia).
      by rewrite Z.shiftl_spec_low by lia.
    - rewrite (testbit_above j 2) by lia. apply andb_false_r. }
  rewrite (Hj 1), (Hj 2), (Hj 3) by lia.
  assert (Z.lxor 2 3 = 1) as E by done.
  transitivity (Z.lxor 1 (Z.lxor 2 3)); [|done]. zbits.
Qed.

(** Records of two keys: same node, same payload on both keys, written at [t] and
    [t + 1], then again with another payload at [t + 2] and [t + 3]. *)
Definition rec (n : string) (d : bytes) (t : Z) : Value := mkValue n (Some d) t false 0.

Lemma item_hashes_cancel k1 k2 n d e t :
  0 <= t < 2 ^ 63 - 4 -> t mod 4 = 0 ->
  Z.lxor (Z.lxor (getItemHash (HashFunc k1) (rec n d t)) (getItemHash (HashFunc k1) (rec n e (t + 2))))
    (Z.lxor (getItemHash (HashFunc k2) (rec n d (t + 1))) (getItemHash (HashFunc k2) (rec n e (t + 3))))
  = 0.
Proof.
  intros Ht H4.
  assert (Z.lxor (Z.lxor (RotateLeft64 t 17) (RotateLeft64 (t + 1) 17))
    (Z.lxor (RotateLeft64 (t + 2) 17) (RotateLeft64 (t + 3) 17)) = 0) as Hrot.
  { rewrite <- !RotateLeft64_lxor by (try apply lxor_range; lia).
    by rewrite four_ticks_cancel. }
  unfold getItemHash, rec. cbn [Timestamp NodeID Data Tombstone]. rewrite !u64_small by lia.
  rewrite <- Hrot. repeat case_match; zbits.
Qed.


Lemma RootDigest_StoreLWW sm m k ex v :
  represents sm m -> m !! k = Some ex -> lwwWins ex (stamp k v) = true ->
  RootDigest (StoreLWW sm k (HashFunc k) v).2
  = Z.lxor (RootDigest sm) (Z.lxor (ItemHash ex) (ItemHash (stamp k v))).
Proof.
  intros [Hok Hm] Hk Hw. rewrite <- Hm in Hk. unfold StoreLWW. fold (stamp k v).
  destruct (iGet _ _) as [w|] eqn:Ew.
  - destruct (key_get_Some sm k Hok w Ew) as (ex' & Hex & Hg & _). simplify_eq.
    rewrite Hex, Hw. simpl. by apply RootDigest_overwrite.
  - apply key_get_None in Ew; [congruence|done].
Qed.

(** ** Properties *)

(** C2.  The sharded map is a finite map: after any sequence of [Store], [StoreLWW] and
    [Delete] calls, with shard routing, shared wrappers, in-place swaps and published trees,
    [Load] and [LoadData] return exactly what a plain map that applies the same calls holds
    (without the internal item hash, and without tombstones for [LoadData]), and a further
    [StoreLWW] reports whether it stored exactly when the plain map would. *)
Theorem map_refinement ops k v :
  let sm := foldl impl_step NewShardedMap ops in
  let m := foldl spec_step ∅ ops in
  Load sm k (HashFunc k) = (fun v => with_ItemHash v 0) <$> m !! k /\
  LoadData sm k (HashFunc k) = (v ← m !! k; if Tombstone v then None else Some (Data v)) /\
  (StoreLWW sm k (HashFunc k) v).1 = lww_accepts (m !! k) (stamp k v).
Proof.
  intros sm m. assert (represents sm m) as R by apply run_represents, NewShardedMap_represents.
  destruct (Load_represents sm m k R). by destruct (StoreLWW_represents sm m k v R).
Qed.

(** C14.  Strong eventual convergence: two replicas that have merged the same set of records
    with [StoreLWW], in any order and with any repetitions, hold the same value for every
    key and compute the same root digest, provided no two different records of a key tie on
    timestamp, node and item hash. *)
Theorem lww_convergence reqs1 reqs2 :
  (forall x, x ∈ reqs1 <-> x ∈ reqs2) -> collision_free reqs1 ->
  let a := merge_all NewShardedMap reqs1 in
  let b := merge_all NewShardedMap reqs2 in
  (forall k, Load a k (HashFunc k) = Load b k (HashFunc k)) /\ RootDigest a = RootDigest b.
Proof.
  intros Hsame Hcf a b.
  assert (represents a (spec_merge ∅ reqs1)) as Ra by apply merge_represents, NewShardedMap_represents.
  assert (represents b (spec_merge ∅ reqs2)) as Rb by apply merge_represents, NewShardedMap_represents.
  rewrite <- (spec_merge_same reqs1 reqs2) in Rb by done. split.
  - intros k. destruct (Load_represents _ _ k Ra) as [-> _]. by destruct (Load_represents _ _ k Rb) as [-> _].
  - by apply (RootDigest_contents a b (spec_merge ∅ reqs1)).
Qed.

(** C25.  The rolling digests never drift: two maps that reach the same contents by different
    sequences of operations have the same root, shard and sub-bucket digests, so replicas
    that agree never exchange data. *)
Theorem digests_determined_by_contents ops1 ops2 d1 d2 :
  foldl spec_step ∅ ops1 = foldl spec_step ∅ ops2 ->
  let a := foldl impl_step NewShardedMap ops1 in
  let b := foldl impl_step NewShardedMap ops2 in
  RootDigest a = RootDigest b /\ FillShardDigests a d1 = FillShardDigests b d1 /\
  FillDigests a (Some d2) = FillDigests b (Some d2).
Proof.
  intros Hm a b.
  assert (represents a (foldl spec_step ∅ ops1)) as Ra by apply run_represents, NewShardedMap_represents.
  assert (represents b (foldl spec_step ∅ ops2)) as Rb by apply run_represents, NewShardedMap_represents.
  rewrite <- Hm in Rb. split; [by apply (RootDigest_contents a b (foldl spec_step ∅ ops1))|].
  assert (shardHash <$> shards a = shardHash <$> shards b) as Hs.
  { apply (shards_contents _ _ _ _ _ Ra Rb). intros i s1 s2 H1 H2.
    by apply (shard_digests_contents a b _ _ i s1 s2 Ra Rb eq_refl). }
  assert (subHashes <$> shards a = subHashes <$> shards b) as Hb.
  { apply (shards_contents _ _ _ _ _ Ra Rb). intros i s1 s2 H1 H2.
    by apply (shard_digests_contents a b _ _ i s1 s2 Ra Rb eq_refl). }
  unfold FillShardDigests, FillDigests. split.
  - do 2 f_equal. set (G i (h : Z) := (Z.of_nat i, h)).
    change (imap (fun i => G i ∘ shardHash) (shards a) = imap (fun i => G i ∘ shardHash) (shards b)).
    by rewrite <- !imap_fmap, Hs.
  - do 3 f_equal.
    set (G i (h : list Z) := (Z.of_nat i,
      if Z.of_nat (length (default [] (d2 !! Z.of_nat i))) <? SubBucketCount then h
      else h ++ drop (Z.to_nat SubBucketCount) (default [] (d2 !! Z.of_nat i)))).
    change (imap (fun i => G i ∘ subHashes) (shards a) = imap (fun i => G i ∘ subHashes) (shards b)).
    by rewrite <- !imap_fmap, Hb.
Qed.

(** [Range] reports every record exactly once: its callback, when it always asks to go
    on, sees a permutation of the contents, tombstones included; this is what a snapshot
    writes. *)
Theorem Range_enumerates ops :
  Range (foldl impl_step NewShardedMap ops) (fun k v acc => (true, (k, v) :: acc)) []
  ≡ₚ map_to_list (foldl spec_step ∅ ops).
Proof.
  rewrite <- (entries_represents (foldl impl_step NewShardedMap ops))
    by apply run_represents, NewShardedMap_represents.
  unfold Range. set (l := entries _). clearbody l.
  enough (forall acc, rangeLoop (fun k v acc => (true, (k, v) :: acc)) l acc ≡ₚ l ++ acc) as ->
    by by rewrite app_nil_r.
  induction l as [|[k v] l IH]; intros acc; simpl; [done|].
  rewrite IH. symmetry. apply Permutation_middle.
Qed.

(**  The root digest is not a fingerprint of the contents, whatever hash function is
    used: if two keys hold the same payload written at ticks [t] and [t+1] ([t] a multiple
    of four) and both are rewritten with another common payload at ticks [t+2] and [t+3],
    the root digest is unchanged, although both records are.  A replica that missed the two
    rewrites therefore passes the first test of anti-entropy. *)
Theorem root_digest_blind_spot sm m k1 k2 n d e t :
  represents sm m -> k1 <> k2 -> 0 <= t < 2 ^ 63 - 4 -> t mod 4 = 0 ->
  m !! k1 = Some (stamp k1 (rec n d t)) -> m !! k2 = Some (stamp k2 (rec n d (t + 1))) ->
  let sm' := merge_all sm [(k1, rec n e (t + 2)); (k2, rec n e (t + 3))] in
  RootDigest sm' = RootDigest sm /\
  LoadData sm' k1 (HashFunc k1) = Some (Some e) /\ LoadData sm' k2 (HashFunc k2) = Some (Some e).
Proof.
  intros R Hne Ht H4 H1 H2 sm'.
  assert (forall k t1 t2, t1 < t2 -> lwwWins (stamp k (rec n d t1)) (stamp k (rec n e t2)) = true) as Hw.
  { intros k t1 t2 Hlt. unfold lwwWins. simpl.
    destruct (Z.eqb_spec t1 t2); [lia|]. simpl. by apply Z.ltb_lt. }
  pose proof (proj2 (StoreLWW_represents sm m k1 (rec n e (t + 2)) R)) as R1.
  pose proof (proj2 (StoreLWW_represents _ _ k2 (rec n e (t + 3)) R1)) as R2.
  split.
  - unfold sm', merge_all. simpl.
    rewrite (RootDigest_StoreLWW _ _ k2 (stamp k2 (rec n d (t + 1))) _ R1);
      [|by unfold spec_StoreLWW; rewrite lookup_insert_ne|apply Hw; lia].
    rewrite (RootDigest_StoreLWW _ _ k1 (stamp k1 (rec n d t)) _ R) by (done || (apply Hw; lia)).
    rewrite Z.lxor_assoc.
    replace (Z.lxor (Z.lxor (ItemHash (stamp k1 (rec n d t))) (ItemHash (stamp k1 (rec n e (t + 2)))))
      _) with 0; [apply Z.lxor_0_r|]. symmetry. apply (item_hashes_cancel k1 k2 n d e t); done.
  - destruct (Load_represents _ _ k1 R2) as [_ E1]. destruct (Load_represents _ _ k2 R2) as [_ E2].
    unfold sm', merge_all. simpl foldl. rewrite E1, E2. unfold spec_StoreLWW.
    rewrite H1. simpl lww_join. rewrite Hw by lia.
    rewrite !(lookup_insert_ne _ k1 k2), H2 by done. simpl lww_join. rewrite Hw by lia.
    rewrite (lookup_insert_ne _ k2 k1), !lookup_insert_eq by done. done.
Qed.

End Theory.

(** ** Concrete runs, with FNV-1a as the hash and finite maps as the trees *)

Module MapExamples.
Import Fnv GmapRadix.

Definition d1 : bytes := string_bytes "hello".
Definition d2 : bytes := string_bytes "world".

Definition ops1 : list mop :=
  [MStore "a" (rec "n1" d1 8); MStoreLWW "a" (rec "n1" d2 7); MStore "b" (rec "n2" d2 9); MDelete "b"].

Lemma map_refinement_witness :
  Load (foldl impl_step NewShardedMap ops1) "a" (HashFunc "a") = Some (rec "n1" d1 8) /\
  LoadData (foldl impl_step NewShardedMap ops1) "a" (HashFunc "a") = Some (Some d1) /\
  (StoreLWW (foldl impl_step NewShardedMap ops1) "a" (HashFunc "a") (rec "n1" d2 9)).1 = true.
Proof.
  destruct (map_refinement ops1 "a" (rec "n1" d2 9)) as (E1 & E2 & E3).
  rewrite E1, E2, E3. vm_compute. repeat split.
Defined.

Definition reqs1 : list (string * Value) :=
  [("a"%string, rec "n1" d1 8); ("b"%string, rec "n1" d1 8); ("a"%string, rec "n2" d2 8)].
Definition reqs2 : list (string * Value) :=
  [("a"%string, rec "n2" d2 8); ("a"%string, rec "n1" d1 8);
   ("b"%string, rec "n1" d1 8); ("a"%string, rec "n1" d1 8)].

Lemma lww_convergence_witness :
  (forall k, Load (merge_all NewShardedMap reqs1) k (HashFunc k)
             = Load (merge_all NewShardedMap reqs2) k (HashFunc k)) /\
  RootDigest (merge_all NewShardedMap reqs1) = RootDigest (merge_all NewShardedMap reqs2).
Proof.
  apply (lww_convergence reqs1 reqs2); [unfold reqs1, reqs2; set_solver|].
  apply collision_freeb_sound. vm_compute. reflexivity.
Defined.

Lemma digests_determined_by_contents_witness :
  let a := foldl impl_step NewShardedMap [MStore "a" (rec "n1" d1 8); MStore "b" (rec "n1" d2 9); MDelete "b"] in
  let b := foldl impl_step NewShardedMap [MStore "a" (rec "n1" d2 3); MStoreLWW "a" (rec "n1" d1 8)] in
  RootDigest a = RootDigest b /\ FillShardDigests a ∅ = FillShardDigests b ∅ /\
  FillDigests a (Some ∅) = FillDigests b (Some ∅).
Proof.
  apply (digests_determined_by_contents
    [MStore "a" (rec "n1" d1 8); MStore "b" (rec "n1" d2 9); MDelete "b"]
    [MStore "a" (rec "n1" d2 3); MStoreLWW "a" (rec "n1" d1 8)] ∅ ∅).
  vm_compute. reflexivity.
Defined.

Lemma Range_enumerates_witness :
  Range (foldl impl_step NewShardedMap ops1) (fun k v acc => (true, (k, v) :: acc)) []
  ≡ₚ [("a"%string, stamp "a" (rec "n1" d1 8))].
Proof.
  pose proof (Range_enumerates ops1) as E.
  replace (map_to_list (foldl spec_step ∅ ops1)) with [("a"%string, stamp "a" (rec "n1" d1 8))] in E
    by (vm_compute; reflexivity).
  exact E.
Defined.

Definition blind_ops : list mop := [MStore "x" (rec "n1" d1 4); MStore "y" (rec "n1" d1 5)].

Lemma root_digest_blind_spot_witness :
  let sm := foldl impl_step NewShardedMap blind_ops in
  let sm' := merge_all sm [("x"%string, rec "n1" d2 6); ("y"%string, rec "n1" d2 7)] in
  RootDigest sm' = RootDigest sm /\
  LoadData sm' "x" (HashFunc "x") = Some (Some d2) /\ LoadData sm' "y" (HashFunc "y") = Some (Some d2).
Proof.
  apply (root_digest_blind_spot (foldl impl_step NewShardedMap blind_ops)
    (foldl spec_step ∅ blind_ops) "x" "y" "n1" d1 d2 4);
    [apply run_represents, NewShardedMap_represents|done|lia|done|vm_compute; reflexivity..].
Defined.

End MapExamples.
