(* ===== verification/MapConc.v ===== *)
(** * The sharded map under concurrency (src/core/hashmap/shardedmap.go)

    Any number of goroutines in [Load], [LoadData], [Store], [StoreLWW], [Delete], [Range],
    [RangeShard] and the digest functions, interleaved at every access to what they share: the
    lock of a shard, its digests, the value pointer of a wrapper, the published tree, the
    counts.  Readers take no lock.

    The writers' trees and the published ones are assigned in one step: the former are read
    under the lock only.  Next to the map the state keeps the order in which writes took
    effect, on which nothing depends; the theorems say that the calls look as if they had been
    made one at a time in that order. *)

From S2P Require Import Prelude Kv ShardedMap MapTheory.
From stdpp Require Import relations.
Import ShardedMap.

#[local] Open Scope nat_scope.

Module MapConc.

Section Conc.
Context `{HX : XXHash} `{HR : Radix}.

(** ** Writes in pieces *)

Definition op_key (o : mop) : Key := match o with MStore k _ | MStoreLWW k _ | MDelete k => k end.
Definition op_hash (o : mop) : HashKey := HashFunc (op_key o).
Definition op_shard (o : mop) : nat := shardIndex (op_hash o).
Definition op_bucket (o : mop) : nat := subIndex (op_hash o).

(** What a writer decides once it has looked up its key under the lock, with the value it
    found there. *)
Inductive plan :=
| Overwrite (w : loc) (existing : option Value) (val : Value)
| Insert (val : Value)
| Remove (w : loc) (existing : option Value).

(** The lookup and, for [StoreLWW], the conflict resolution; [None]: nothing to write. *)
Definition decidePlan (sm : ShardedMap) (o : mop) : option plan :=
  let found := iGet (buckets (getShardByHash sm (op_hash o)) !!! op_bucket o) (string_bytes (op_key o)) in
  match o, found with
  | MStore k v, Some w => Some (Overwrite w (wrappers sm !! w) (with_ItemHash v (getItemHash (HashFunc k) v)))
  | MStore k v, None => Some (Insert (with_ItemHash v (getItemHash (HashFunc k) v)))
  | MStoreLWW k v, Some w =>
      let val := with_ItemHash v (getItemHash (HashFunc k) v) in
      match wrappers sm !! w with
      | Some existing => if negb (lwwWins existing val) then None else Some (Overwrite w (Some existing) val)
      | None => Some (Overwrite w None val)
      end
  | MStoreLWW k v, None => Some (Insert (with_ItemHash v (getItemHash (HashFunc k) v)))
  | MDelete _, Some w => Some (Remove w (wrappers sm !! w))
  | MDelete _, None => None
  end.

Definition in_shard (o : mop) (f : shard -> shard) (sm : ShardedMap) : ShardedMap :=
  mkSM (<[op_shard o := f (getShardByHash sm (op_hash o))]> (shards sm)) (wrappers sm) (nextLoc sm).

(** The rolling digests. *)
Definition xorOld (b : nat) (existing : option Value) (s : shard) : shard :=
  match existing with Some e => xorDigests b (ItemHash e) s | None => s end.

Definition planDigests (o : mop) (p : plan) (s : shard) : shard :=
  match p with
  | Overwrite _ existing val => xorDigests (op_bucket o) (ItemHash val) (xorOld (op_bucket o) existing s)
  | Insert val => xorDigests (op_bucket o) (ItemHash val) s
  | Remove _ existing => xorOld (op_bucket o) existing s
  end.

(** The one write that readers can see: [wrapper.ptr.Store], or [readBuckets[b].Store]. *)
Definition setTree (b : nat) (t : tree) (s : shard) : shard :=
  mkShard (<[b := t]> (buckets s)) (<[b := t]> (readBuckets s)) (subDigests s) (subCounts s) (shardDigest s) (shardCount s).

Definition planVisible (o : mop) (p : plan) (sm : ShardedMap) : ShardedMap :=
  let b := op_bucket o in
  let tree := buckets (getShardByHash sm (op_hash o)) !!! b in
  match p with
  | Overwrite w _ val => mkSM (shards sm) (<[w := val]> (wrappers sm)) (nextLoc sm)
  | Insert val =>
      let w := nextLoc sm in
      let sm := in_shard o (setTree b (iInsert tree (string_bytes (op_key o)) w)) sm in
      mkSM (shards sm) (<[w := val]> (wrappers sm)) (S w)
  | Remove _ _ => in_shard o (setTree b (iDelete tree (string_bytes (op_key o)))) sm
  end.

(** The counts. *)
Definition addCounts (b : nat) (n : Z) (s : shard) : shard :=
  mkShard (buckets s) (readBuckets s) (subDigests s) (alter (fun c => u32 (c + n)) b (subCounts s)) (shardDigest s)
    (u32 (shardCount s + n)).

Definition planCounts (o : mop) (p : plan) (s : shard) : shard :=
  match p with
  | Overwrite _ _ _ => s
  | Insert _ => addCounts (op_bucket o) 1 s
  | Remove _ _ => addCounts (op_bucket o) (-1) s
  end.

(** ** Goroutines *)

(** What is read of a shard under its lock: its digest, or those of its sub-buckets. *)
Inductive digests := PerShard | PerBucket.
Definition readDigests (kd : digests) (x : shard) : list Z :=
  match kd with PerShard => [shardHash x] | PerBucket => subHashes x end.

(** Where a call is.  Times count the writes that have taken effect: [t0] is when the call
    made its first access, [t1] when it returned. *)
Inductive thread :=
(** [Load] and [LoadData]: before the published tree is loaded, holding a wrapper, returned
    with what its pointer was. *)
| LIdle (k : Key)
| LRef (k : Key) (t0 : nat) (w : loc)
| LDone (k : Key) (t0 t1 : nat) (r : option Value)
(** A write: before its lock; holding it, with nothing done, with the digests done, with
    the visible write done, and with the counts done; returned, with whether it wrote. *)
| WIdle (o : mop)
| WLocked (o : mop) (t0 : nat)
| WDigests (o : mop) (t0 : nat) (p : plan)
| WCounts (o : mop) (t0 : nat) (p : plan)
| WUnlock (o : mop) (t0 : nat) (res : bool)
| WDone (o : mop) (t0 t1 : nat) (res : bool)
(** [Range]: the next shard, the entries of the copied trees still to visit, and the calls of
    the callback so far. *)
| RIdle
| RIter (t0 : nat) (next : nat) (todo : list (bytes * loc)) (out : list (Key * Value))
| RDone (t0 t1 : nat) (out : list (Key * Value)) (all : bool)
(** [RangeShard], which keeps the read lock. *)
| SIdle (id mask : Z)
| SIter (id mask : Z) (t0 : nat) (todo : list (bytes * loc)) (out : list (Key * Value))
| SDone (id mask : Z) (t0 t1 : nat) (out : list (Key * Value))
(** [FillShardDigests] and [RootDigest], or [FillDigests]: the digests of the shards so far. *)
| DIdle (kd : digests)
| DIter (kd : digests) (t0 : nat) (out : list (list Z))
| DDone (kd : digests) (t0 t1 : nat) (out : list (list Z)).

Definition holdsW (t : thread) : option nat :=
  match t with WLocked o _ | WDigests o _ _ | WCounts o _ _ | WUnlock o _ _ => Some (op_shard o) | _ => None end.
Definition holdsR (t : thread) : option nat :=
  match t with SIter id _ _ _ _ => Some (Z.to_nat id) | _ => None end.

(** [order]: the writes that have taken effect, each with its goroutine. *)
Record state := mkState { sm : ShardedMap; threads : list thread; order : list (nat * mop) }.

Definition now (s : state) : nat := length (order s).

(** Whether the write lock, or a read lock, of a shard can be taken. *)
Definition canLock (s : state) (sh : nat) : bool :=
  forallb (fun u => negb (bool_decide (holdsW u = Some sh)) && negb (bool_decide (holdsR u = Some sh))) (threads s).
Definition canRLock (s : state) (sh : nat) : bool := forallb (fun u => negb (bool_decide (holdsW u = Some sh))) (threads s).

Definition goto (s : state) (i : nat) (t : thread) : state := mkState (sm s) (<[i := t]> (threads s)) (order s).

(** ** Steps; [None]: the goroutine has returned or must wait *)

Definition stepLoad (s : state) (i : nat) (t : thread) : option state :=
  match t with
  | LIdle k =>
      match readBuckets (getShardByHash (sm s) (HashFunc k)) !! subIndex (HashFunc k) with
      | None => Some (goto s i (LDone k (now s) (now s) None))
      | Some treePtr =>
          match iGet treePtr (string_bytes k) with
          | None => Some (goto s i (LDone k (now s) (now s) None))
          | Some wrapper => Some (goto s i (LRef k (now s) wrapper))
          end
      end
  | LRef k t0 wrapper => Some (goto s i (LDone k t0 (now s) (wrappers (sm s) !! wrapper)))
  | _ => None
  end.

(** What the two functions return for the value that the pointer was. *)
Definition loadResult (r : option Value) : option Value := (fun val => with_ItemHash val 0) <$> r.
Definition loadDataResult (r : option Value) : option slice :=
  match r with Some val => if Tombstone val then None else Some (Data val) | None => None end.

Definition stepWrite (s : state) (i : nat) (t : thread) : option state :=
  match t with
  | WIdle o => if canLock s (op_shard o) then Some (goto s i (WLocked o (now s))) else None
  | WLocked o t0 =>
      match decidePlan (sm s) o with
      | None => Some (mkState (sm s) (<[i := WUnlock o t0 false]> (threads s)) (order s ++ [(i, o)]))
      | Some p => Some (mkState (in_shard o (planDigests o p) (sm s)) (<[i := WDigests o t0 p]> (threads s)) (order s))
      end
  | WDigests o t0 p =>
      Some (mkState (planVisible o p (sm s)) (<[i := WCounts o t0 p]> (threads s)) (order s ++ [(i, o)]))
  | WCounts o t0 p =>
      Some (mkState (in_shard o (planCounts o p) (sm s)) (<[i := WUnlock o t0 true]> (threads s)) (order s))
  | WUnlock o t0 res => Some (goto s i (WDone o t0 (now s) res))
  | _ => None
  end.

(** [goOn]: what the callback answers. *)
Definition stepRange (s : state) (i : nat) (goOn : bool) (t : thread) : option state :=
  match t with
  | RIdle => Some (goto s i (RIter (now s) 0 [] []))
  | RIter t0 next [] out =>
      if decide (next < Z.to_nat ShardCount) then
        if canRLock s next then
          Some (goto s i (RIter t0 (S next) (concat (iIter <$> buckets (shards (sm s) !!! next))) out))
        else None
      else Some (goto s i (RDone t0 (now s) out true))
  | RIter t0 next ((k, wrapper) :: todo) out =>
      match wrappers (sm s) !! wrapper with
      | Some val =>
          let out := out ++ [(bytes_string k, val)] in
          Some (goto s i (if goOn then RIter t0 next todo out else RDone t0 (now s) out false))
      | None => Some (goto s i (RIter t0 next todo out))
      end
  | _ => None
  end.

(** The entries of the sub-buckets whose bit is set. *)
Definition maskEntries (mask : Z) (ts : list tree) : list (bytes * loc) :=
  concat (imap (fun b t => if negb (Z.land mask (Z.shiftl 1 (Z.of_nat b)) =? 0)%Z then iIter t else []) ts).

Definition stepRangeShard (s : state) (i : nat) (t : thread) : option state :=
  match t with
  | SIdle id mask =>
      if ((id <? 0) || (ShardCount <=? id))%Z then Some (goto s i (SDone id mask (now s) (now s) []))
      else if canRLock s (Z.to_nat id) then
        Some (goto s i (SIter id mask (now s) (maskEntries mask (buckets (shards (sm s) !!! Z.to_nat id))) []))
      else None
  | SIter id mask t0 [] out => Some (goto s i (SDone id mask t0 (now s) out))
  | SIter id mask t0 ((k, wrapper) :: todo) out =>
      Some (goto s i (SIter id mask t0 todo
        match wrappers (sm s) !! wrapper with Some val => out ++ [(bytes_string k, val)] | None => out end))
  | _ => None
  end.

Definition stepDigests (s : state) (i : nat) (t : thread) : option state :=
  match t with
  | DIdle kd => Some (goto s i (DIter kd (now s) []))
  | DIter kd t0 out =>
      if decide (length out < Z.to_nat ShardCount) then
        if canRLock s (length out) then Some (goto s i (DIter kd t0 (out ++ [readDigests kd (shards (sm s) !!! length out)]))) else None
      else Some (goto s i (DDone kd t0 (now s) out))
  | _ => None
  end.

(** [RootDigest] of the digests collected. *)
Definition rootOf (out : list (list Z)) : Z := foldl Z.lxor 0%Z (concat out).

Definition exec (s : state) (i : nat) (goOn : bool) (t : thread) : option state :=
  match t with
  | LIdle _ | LRef _ _ _ | LDone _ _ _ _ => stepLoad s i t
  | WIdle _ | WLocked _ _ | WDigests _ _ _ | WCounts _ _ _ | WUnlock _ _ _ | WDone _ _ _ _ => stepWrite s i t
  | RIdle | RIter _ _ _ _ | RDone _ _ _ _ => stepRange s i goOn t
  | SIdle _ _ | SIter _ _ _ _ _ | SDone _ _ _ _ _ => stepRangeShard s i t
  | DIdle _ | DIter _ _ _ | DDone _ _ _ _ => stepDigests s i t
  end.

Definition step (s s' : state) : Prop := exists i t goOn, threads s !! i = Some t /\ exec s i goOn t = Some s'.

Definition begins (t : thread) : Prop :=
  match t with LIdle _ | WIdle _ | RIdle | SIdle _ _ | DIdle _ => True | _ => False end.
Definition finished (t : thread) : Prop :=
  match t with LDone _ _ _ _ | WDone _ _ _ _ | RDone _ _ _ _ | SDone _ _ _ _ _ | DDone _ _ _ _ => True | _ => False end.

Global Instance finished_dec t : Decision (finished t).
Proof. destruct t; cbn; apply _. Defined.

Definition init (sm0 : ShardedMap) (ts : list thread) : state := mkState sm0 ts [].

End Conc.

(** ** The pieces of a write make up the write *)

Section Pieces.
Context `{HX : XXHash} `{HR : Radix} `{!XXHashLaws} `{!RadixLaws}.
Implicit Types (g : ShardedMap) (o : mop) (p : plan).

(** The tree that an operation looks its key up in. *)
Abbreviation treeOf g o := (buckets (getShardByHash g (op_hash o)) !!! op_bucket o).

(** The three parts of the visible write. *)
Definition planTree o p (w : loc) (s : shard) : shard :=
  let b := op_bucket o in
  match p with
  | Overwrite _ _ _ => s
  | Insert _ => setTree b (iInsert (buckets s !!! b) (string_bytes (op_key o)) w) s
  | Remove _ _ => setTree b (iDelete (buckets s !!! b) (string_bytes (op_key o))) s
  end.
Definition planHeap p (w : loc) (h : gmap loc Value) : gmap loc Value :=
  match p with Overwrite w _ val => <[w := val]> h | Insert val => <[w := val]> h | Remove _ _ => h end.
Definition planNext p (w : loc) : loc := match p with Insert _ => S w | _ => w end.

Lemma in_shard_lookup o f g sh :
  op_shard o < length (shards g) ->
  shards (in_shard o f g) !! sh = if decide (sh = op_shard o) then f <$> shards g !! sh else shards g !! sh.
Proof.
  intros Hl. cbn. case_decide as E; [subst sh|by rewrite list_lookup_insert_ne].
  rewrite list_lookup_insert_eq by done. unfold getShardByHash.
  by rewrite (list_lookup_lookup_total_lt (shards g) (op_shard o)).
Qed.

Lemma visible_lookup o p g sh :
  op_shard o < length (shards g) ->
  shards (planVisible o p g) !! sh
  = if decide (sh = op_shard o) then planTree o p (nextLoc g) <$> shards g !! sh else shards g !! sh.
Proof.
  intros Hl. assert (getShardByHash g (op_hash o) = shards g !!! op_shard o) as Eg by done.
  destruct p as [w ex val|val|w ex]; unfold planVisible; cbn [shards].
  - case_decide; [|done]. by destruct (shards g !! sh).
  - rewrite in_shard_lookup by done. case_decide as E; [subst sh|done].
    by rewrite (list_lookup_lookup_total_lt (shards g) (op_shard o)) by done.
  - rewrite in_shard_lookup by done. case_decide as E; [subst sh|done].
    by rewrite (list_lookup_lookup_total_lt (shards g) (op_shard o)) by done.
Qed.

Lemma visible_heap o p g :
  wrappers (planVisible o p g) = planHeap p (nextLoc g) (wrappers g) /\ nextLoc (planVisible o p g) = planNext p (nextLoc g) /\
  length (shards (planVisible o p g)) = length (shards g).
Proof. destruct p; cbn; rewrite ?length_insert; done. Qed.

Lemma op_shard_lt g o : sm_ok g -> op_shard o < length (shards g).
Proof. intros Hok. rewrite (sm_len g Hok). apply shardIndex_lt. Qed.

(** What was decided, under the invariant. *)
Lemma plan_found g o p :
  decidePlan g o = Some p ->
  match p with
  | Overwrite w ex val => tmap (treeOf g o) !! string_bytes (op_key o) = Some w /\ ex = wrappers g !! w /\
      ItemHash val = getItemHash (op_hash o) val
  | Insert val => tmap (treeOf g o) !! string_bytes (op_key o) = None /\ ItemHash val = getItemHash (op_hash o) val
  | Remove w ex => tmap (treeOf g o) !! string_bytes (op_key o) = Some w /\ ex = wrappers g !! w
  end.
Proof.
  unfold decidePlan. rewrite iGet_tmap.
  destruct o as [k v|k v|k]; cbn [op_key]; destruct (tmap _ !! string_bytes k) as [w|]; try done.
  all: try (intros [= <-]; done).
  destruct (wrappers g !! w) as [ex|] eqn:Ew; [destruct (negb _)|]; [done|..]; by intros [= <-].
Qed.

(** A write is its pieces. *)
Definition planRun o p g : ShardedMap := in_shard o (planCounts o p) (planVisible o p (in_shard o (planDigests o p) g)).

Lemma in_shard_get o f g : op_shard o < length (shards g) -> getShardByHash (in_shard o f g) (op_hash o) = f (getShardByHash g (op_hash o)).
Proof. intros Hl. apply list_lookup_total_correct. cbn. by apply list_lookup_insert_eq. Qed.

Lemma planRun_eq o p g :
  op_shard o < length (shards g) ->
  planRun o p g = mkSM (<[op_shard o := planCounts o p (planTree o p (nextLoc g) (planDigests o p (getShardByHash g (op_hash o))))]> (shards g))
                    (planHeap p (nextLoc g) (wrappers g)) (planNext p (nextLoc g)).
Proof.
  intros Hl. unfold planRun. assert (op_shard o < length (shards (in_shard o (planDigests o p) g))) as Hl1 by (cbn; by rewrite length_insert).
  destruct p as [w ex val|val|w ex]; unfold planVisible.
  - unfold in_shard at 1. cbn [shards wrappers nextLoc]. f_equal.
    change (getShardByHash (mkSM (shards (in_shard o (planDigests o (Overwrite w ex val)) g)) _ _) (op_hash o))
      with (getShardByHash (in_shard o (planDigests o (Overwrite w ex val)) g) (op_hash o)).
    rewrite in_shard_get by done. cbn [in_shard shards]. by rewrite list_insert_insert_eq.
  - unfold in_shard at 1. cbn [shards wrappers nextLoc]. f_equal.
    match goal with |- context [getShardByHash (mkSM (shards ?g1) ?h ?n) (op_hash o)] =>
      change (getShardByHash (mkSM (shards g1) h n) (op_hash o)) with (getShardByHash g1 (op_hash o)) end.
    rewrite !in_shard_get by done. cbn [in_shard shards]. by rewrite !list_insert_insert_eq.
  - unfold in_shard at 1. cbn [shards wrappers nextLoc]. f_equal.
    rewrite !in_shard_get by done. cbn [in_shard shards]. by rewrite !list_insert_insert_eq.
Qed.

Lemma impl_step_pieces g o :
  sm_ok g -> impl_step g o = match decidePlan g o with None => g | Some p => planRun o p g end.
Proof.
  intros Hok. pose proof (op_shard_lt g o Hok) as Hl.
  assert (forall w val, overwrite g (op_hash o) w val = planRun o (Overwrite w (wrappers g !! w) val) g) as Hov
    by (intros w val; by rewrite planRun_eq).
  assert (forall val, insertNew g (op_key o) (op_hash o) val = planRun o (Insert val) g) as Hin
    by (intros val; by rewrite planRun_eq).
  destruct o as [k v|k v|k]; cbn [impl_step]; unfold decidePlan, Store, StoreLWW, op_hash, op_bucket, op_key in *; cbn [op_key] in *.
  - destruct (iGet _ _) as [w|]; [apply Hov|apply Hin].
  - destruct (iGet _ _) as [w|]; [|apply Hin]. destruct (wrappers g !! w) as [ex|] eqn:Ew.
    + destruct (negb _); [done|]. rewrite <- Ew. apply Hov.
    + rewrite <- Ew. apply Hov.
  - unfold Delete. destruct (iGet _ _) as [w|]; [|done]. rewrite planRun_eq by done. cbn. by destruct (wrappers g !! w).
Qed.

(** Whether an operation writes, on a plain map. *)
Definition spec_writes (m : gmap Key Value) o : bool :=
  match o with
  | MStore _ _ => true
  | MStoreLWW k v => lww_accepts (m !! k) (stamp k v)
  | MDelete k => bool_decide (is_Some (m !! k))
  end.

Lemma plan_writes g m o : represents g m -> (if decidePlan g o then true else false) = spec_writes m o.
Proof.
  intros [Hok Hm]. unfold decidePlan.
  assert (forall k, match iGet (buckets (getShardByHash g (HashFunc k)) !!! subIndex (HashFunc k)) (string_bytes k) with
    | Some w => exists v, wrappers g !! w = Some v /\ m !! k = Some v
    | None => m !! k = None
    end) as Hlook.
  { intros k. rewrite <- Hm. destruct (iGet _ _) as [w|] eqn:Ew; [|by apply key_get_None].
    destruct (key_get_Some g k Hok w Ew) as (v & ? & ? & _). eauto. }
  destruct o as [k v|k v|k]; unfold op_hash, op_bucket; cbn [op_key spec_writes]; specialize (Hlook k);
    unfold op_hash; cbn [op_key]; destruct (iGet _ _) as [w|]; try done.
  - destruct Hlook as (ex & -> & ->). cbn. unfold stamp. by destruct (lwwWins _ _).
  - by rewrite Hlook.
  - destruct Hlook as (ex & _ & ->). by rewrite bool_decide_true.
  - rewrite Hlook. symmetry. apply bool_decide_false. by intros [? ?].
Qed.

(** What a write can change, seen by those who hold references into the map. *)
Record effect g o g' : Prop := {
  e_next : nextLoc g <= nextLoc g';
  e_entries : forall i b t kb w, tree_at g' i b = Some t -> tmap t !! kb = Some w ->
    w = nextLoc g \/ exists t', tree_at g i b = Some t' /\ tmap t' !! kb = Some w;
  e_heap : forall w, w < nextLoc g -> wrappers g' !! w = wrappers g !! w \/
    tmap (treeOf g o) !! string_bytes (op_key o) = Some w /\ exists v, wrappers g' !! w = Some v /\ sm_get g' (op_key o) = Some v;
  e_other : forall sh, sh <> op_shard o -> shards g' !! sh = shards g !! sh
}.

Lemma effect_none g o : effect g o g.
Proof. split; [lia|eauto|auto|done]. Qed.

Lemma planRun_effect g o p : sm_ok g -> decidePlan g o = Some p -> effect g o (planRun o p g).
Proof.
  intros Hok Hp. pose proof (op_shard_lt g o Hok) as Hl. pose proof (plan_found g o p Hp) as Hf.
  assert (forall sh, sh <> op_shard o -> shards (planRun o p g) !! sh = shards g !! sh) as Hoth.
  { intros sh Hne. rewrite planRun_eq by done. cbn. by rewrite list_lookup_insert_ne. }
  destruct p as [w ex val|val|w ex].
  - destruct Hf as (Hw & -> & Hh).
    assert (planRun o (Overwrite w (wrappers g !! w) val) g = overwrite g (op_hash o) w val) as E by by rewrite planRun_eq.
    rewrite <- iGet_tmap in Hw. destruct (overwrite_ok g (op_key o) Hok w val Hw Hh) as [_ Hget]. rewrite iGet_tmap in Hw.
    split; [by rewrite E| | |done].
    + intros i b t kb w'. rewrite planRun_eq, tree_at_insert by done. case_decide as Ei; [subst i|by eauto].
      intros Ht Hk. right. exists t. split; [|done]. apply (key_tree_in g (op_key o) Hok). revert Ht. cbn.
      by destruct (wrappers g !! w).
    + intros w' _. destruct (decide (w' = w)) as [->|Hne].
      * right. split; [done|]. exists val. rewrite E. fold (op_hash o) in Hget. rewrite Hget, decide_True by done. cbn.
        by rewrite lookup_insert_eq.
      * left. rewrite E. cbn. by rewrite lookup_insert_ne.
  - destruct Hf as (Hw & Hh). split; [rewrite planRun_eq by done; cbn; lia| | |done].
    + intros i b t kb w'. rewrite planRun_eq by done. intros Ht Hk.
      assert (buckets (planCounts o (Insert val) (planTree o (Insert val) (nextLoc g)
        (planDigests o (Insert val) (getShardByHash g (op_hash o)))))
        = <[op_bucket o := iInsert (treeOf g o) (string_bytes (op_key o)) (nextLoc g)]> (buckets (getShardByHash g (op_hash o)))) as Hb
        by done.
      destruct (inserted_entry g (op_key o) Hok _ _ _ _ _ _ _ _ w' eq_refl Hb Ht Hk) as [(-> & _)|(_ & ?)]; auto.
    + intros w' Hlt. left. rewrite planRun_eq by done. cbn. rewrite lookup_insert_ne by lia. done.
  - destruct Hf as (Hw & ->). split; [by rewrite planRun_eq| | |done].
    + intros i b t kb w'. rewrite planRun_eq by done. intros Ht Hk. right.
      assert (buckets (planCounts o (Remove w (wrappers g !! w)) (planTree o (Remove w (wrappers g !! w)) (nextLoc g)
        (planDigests o (Remove w (wrappers g !! w)) (getShardByHash g (op_hash o)))))
        = <[op_bucket o := iDelete (treeOf g o) (string_bytes (op_key o))]> (buckets (getShardByHash g (op_hash o)))) as Hb
        by (cbn; by destruct (wrappers g !! w)).
      destruct (replaced_tree g (op_key o) Hok _ _ _ _ _ _ _ Hb Ht) as [(-> & -> & ->)|?].
      * exists (treeOf g o). split; [by apply tree_at_hash|]. by rewrite tmap_delete, lookup_delete_Some in Hk; destruct Hk.
      * by exists t.
    + intros w' _. left. by rewrite planRun_eq.
Qed.

Lemma impl_effect g o : sm_ok g -> effect g o (impl_step g o).
Proof.
  intros Hok. rewrite impl_step_pieces by done. destruct (decidePlan g o) as [p|] eqn:Hp; [by apply planRun_effect|apply effect_none].
Qed.

(** A write in another shard changes nothing that this shard refers to. *)
Lemma entry_stable g o sh b t kb w :
  sm_ok g -> sh <> op_shard o -> tree_at g sh b = Some t -> tmap t !! kb = Some w ->
  wrappers (impl_step g o) !! w = wrappers g !! w.
Proof.
  intros Hok Hne Ht Hk. destruct (sm_entries g Hok _ _ _ _ _ Ht Hk) as (Hlt & _).
  destruct (e_heap _ _ _ (impl_effect g o Hok) w Hlt) as [?|[Hw _]]; [done|].
  destruct (unshared g _ _ _ _ _ _ _ _ _ Hok Ht Hk (tree_at_hash g (op_hash o) Hok) Hw) as (_ & E & _). by destruct Hne.
Qed.

Lemma plan_ext g g' o :
  shards g' !! op_shard o = shards g !! op_shard o ->
  (forall w, tmap (treeOf g o) !! string_bytes (op_key o) = Some w -> wrappers g' !! w = wrappers g !! w) ->
  decidePlan g' o = decidePlan g o.
Proof.
  intros Hs Hw. unfold decidePlan.
  assert (getShardByHash g' (op_hash o) = getShardByHash g (op_hash o)) as ->.
  { unfold getShardByHash. rewrite !list_lookup_total_alt. by fold (op_shard o); rewrite Hs. }
  rewrite iGet_tmap. destruct (tmap _ !! _) as [w|]; [by rewrite Hw|done].
Qed.

Lemma plan_stable g o' o : sm_ok g -> op_shard o <> op_shard o' -> decidePlan (impl_step g o') o = decidePlan g o.
Proof.
  intros Hok Hne. apply plan_ext; [by apply (e_other _ _ _ (impl_effect g o' Hok))|].
  intros w Hw. by eapply entry_stable; [done|exact Hne|apply tree_at_hash|].
Qed.

(** What the wrappers of some entries hold. *)
Definition derefs (h : gmap loc Value) (l : list (bytes * loc)) : list (Key * Value) :=
  omap (fun '(k, w) => v ← h !! w; Some (bytes_string k, v)) l.

Lemma derefs_app h l l' : derefs h (l ++ l') = derefs h l ++ derefs h l'.
Proof. apply omap_app. Qed.

Lemma derefs_ext h h' l : (forall kb w, (kb, w) ∈ l -> h' !! w = h !! w) -> derefs h' l = derefs h l.
Proof.
  induction l as [|[kb w] l IH]; intros Hh; [done|]. cbn. rewrite (Hh kb w) by set_solver.
  destruct (h !! w); cbn; [f_equal|]; apply IH; set_solver.
Qed.

Lemma RangeShard_derefs g id mask :
  (0 <= id < ShardCount)%Z -> RangeShard g id mask = derefs (wrappers g) (maskEntries mask (buckets (shards g !!! Z.to_nat id))).
Proof.
  intros Hid. unfold RangeShard.
  replace ((id <? 0) || (ShardCount <=? id))%Z with false by (symmetry; apply orb_false_iff; lia).
  unfold maskEntries. generalize (buckets (shards g !!! Z.to_nat id)) as ts. cbv zeta.
  assert (forall ts n, concat (imap (fun b t => if negb (Z.land mask (Z.shiftl 1 (Z.of_nat (n + b))) =? 0)%Z then treeEntries (wrappers g) t else []) ts)
    = derefs (wrappers g) (concat (imap (fun b t => if negb (Z.land mask (Z.shiftl 1 (Z.of_nat (n + b))) =? 0)%Z then iIter t else []) ts))) as Hg.
  { induction ts as [|t ts IH]; intros n; [done|]. cbn [imap concat]. rewrite derefs_app. f_equal; [by destruct (negb _)|].
    rewrite (imap_ext _ (fun b t => if negb (Z.land mask (Z.shiftl 1 (Z.of_nat (S n + b))) =? 0)%Z then treeEntries (wrappers g) t else [])).
    2: { intros b x _. cbn. by rewrite Nat.add_succ_r. }
    rewrite IH. f_equal. f_equal. apply imap_ext. intros b x _. cbn. by rewrite Nat.add_succ_r. }
  intros ts. apply (Hg ts 0).
Qed.

Lemma iIter_elem t kb w : (kb, w) ∈ iIter t <-> tmap t !! kb = Some w.
Proof. by rewrite iIter_tmap, elem_of_map_to_list. Qed.

Lemma maskEntries_elem mask ts kb w :
  (kb, w) ∈ maskEntries mask ts -> exists b t, ts !! b = Some t /\ tmap t !! kb = Some w.
Proof.
  unfold maskEntries. rewrite elem_of_concat. intros (l & [b Hb]%list_elem_of_lookup & Hin).
  rewrite list_lookup_imap in Hb. destruct (ts !! b) as [t|] eqn:Et; [|done]. cbn in Hb. injection Hb as <-.
  destruct (negb _); [|by apply elem_of_nil in Hin]. exists b, t. by rewrite <- iIter_elem.
Qed.

Lemma RangeShard_stable g o id mask :
  sm_ok g -> (0 <= id < ShardCount)%Z -> Z.to_nat id <> op_shard o -> RangeShard (impl_step g o) id mask = RangeShard g id mask.
Proof.
  intros Hok Hid Hne. rewrite !RangeShard_derefs by done.
  assert (shards (impl_step g o) !! Z.to_nat id = shards g !! Z.to_nat id) as Hs by by apply (e_other _ _ _ (impl_effect g o Hok)).
  rewrite !list_lookup_total_alt, Hs. rewrite <- list_lookup_total_alt. apply derefs_ext. intros kb w (b & t & Hb & Hk)%maskEntries_elem.
  eapply entry_stable; [done|exact Hne| |exact Hk]. destruct (shard_lookup g id Hok Hid) as [x Hx].
  unfold tree_at. rewrite Hx. ored. by rewrite (list_lookup_total_correct _ _ _ Hx) in Hb.
Qed.

End Pieces.
(** ** The order of writes, and what goroutines know *)

Section History.
Context `{HX : XXHash} `{HR : Radix} `{!XXHashLaws} `{!RadixLaws}.
Variables (g0 : ShardedMap) (m0 : gmap Key Value).
Hypothesis R0 : represents g0 m0.
Implicit Types (ord : list (nat * mop)) (o : mop) (p : plan).

(** The map on which the writes are made one at a time, and the contents at a time. *)
Definition ideal ord : ShardedMap := foldl impl_step g0 ord.*2.
Definition hist ord (t : nat) : gmap Key Value := foldl spec_step m0 (take t ord).*2.

Lemma ideal_snoc ord i o : ideal (ord ++ [(i, o)]) = impl_step (ideal ord) o.
Proof. unfold ideal. by rewrite fmap_app, foldl_app. Qed.

Lemma hist_snoc ord x t : t <= length ord -> hist (ord ++ [x]) t = hist ord t.
Proof. intros Ht. unfold hist. by rewrite take_app_le. Qed.

Lemma ideal_rep ord : represents (ideal ord) (hist ord (length ord)).
Proof. unfold ideal, hist. rewrite firstn_all. by apply run_represents. Qed.

Lemma ideal_ok ord : sm_ok (ideal ord).
Proof. apply ideal_rep. Qed.

Lemma ideal_get ord k : sm_get (ideal ord) k = hist ord (length ord) !! k.
Proof. apply ideal_rep. Qed.

(** [P] held of the contents at some time between [t0] and [t1]. *)
Definition during ord (t0 t1 : nat) (P : gmap Key Value -> Prop) : Prop := exists t, t0 <= t <= t1 /\ P (hist ord t).

Lemma during_snoc ord x t0 t1 P : t1 <= length ord -> during ord t0 t1 P -> during (ord ++ [x]) t0 t1 P.
Proof. intros Ht (t & Hb & HP). exists t. split; [done|]. by rewrite hist_snoc by lia. Qed.

Lemma during_le ord t0 t1 t1' P : t1 <= t1' -> during ord t0 t1 P -> during ord t0 t1' P.
Proof. intros Ht (t & Hb & HP). exists t. split; [lia|done]. Qed.

Lemma during_now ord t0 (P : gmap Key Value -> Prop) :
  t0 <= length ord -> P (hist ord (length ord)) -> during ord t0 (length ord) P.
Proof. intros Ht HP. by exists (length ord). Qed.

Lemma during_later ord x t0 P : during ord t0 (length ord) P -> during (ord ++ [x]) t0 (length (ord ++ [x])) P.
Proof.
  intros HP. apply (during_le _ _ (length ord)); [rewrite length_app; lia|]. by apply during_snoc.
Qed.

(** A wrapper that was reached through [k] after [t0]: it is [k]'s in every tree that still has
    it, and it holds a value that [k] has had since. *)
Definition ref_ok ord (t0 : nat) (k : Key) (w : loc) : Prop :=
  w < nextLoc (ideal ord) /\
  (forall i b t kb, tree_at (ideal ord) i b = Some t -> tmap t !! kb = Some w -> kb = string_bytes k) /\
  exists v, wrappers (ideal ord) !! w = Some v /\ during ord t0 (length ord) (fun m => m !! k = Some v).

Lemma ref_deref ord t0 k w :
  ref_ok ord t0 k w -> during ord t0 (length ord) (fun m => m !! k = wrappers (ideal ord) !! w).
Proof. intros (_ & _ & v & -> & Hv). done. Qed.

Lemma ref_new ord t0 i b t kb w :
  t0 <= length ord -> tree_at (ideal ord) i b = Some t -> tmap t !! kb = Some w -> ref_ok ord t0 (bytes_string kb) w.
Proof.
  intros Ht0 Ht Hk. destruct (sm_entries _ (ideal_ok ord) _ _ _ _ _ Ht Hk) as (Hlt & Hi & Hb & v & Hv & _).
  split; [done|]. split.
  - intros i' b' t' kb' Ht' Hk'. rewrite string_bytes_string.
    by destruct (unshared _ _ _ _ _ _ _ _ _ _ (ideal_ok ord) Ht Hk Ht' Hk') as [-> _].
  - exists v. split; [done|]. apply during_now; [done|]. rewrite <- ideal_get. unfold sm_get. rewrite Hi, Hb, Ht. ored.
    by rewrite string_bytes_string, view_lookup, Hk.
Qed.

Lemma ref_snoc ord i o t0 k w : t0 <= length ord -> ref_ok ord t0 k w -> ref_ok (ord ++ [(i, o)]) t0 k w.
Proof.
  intros Ht0 (Hlt & Hown & v & Hv & Hdur). unfold ref_ok. rewrite ideal_snoc.
  pose proof (impl_effect (ideal ord) o (ideal_ok ord)) as [Hn He Hh _]. split; [lia|]. split.
  - intros i' b t kb Ht Hk. destruct (He _ _ _ _ _ Ht Hk) as [->|(t' & Ht' & Hk')]; [lia|eauto].
  - destruct (Hh w Hlt) as [->|[Hw (v' & Hv' & Hg)]]; [exists v; split; [done|by apply during_later]|].
    assert (string_bytes (op_key o) = string_bytes k) as <-%string_bytes_inj
      by (eapply Hown; [by apply tree_at_hash, ideal_ok|done]).
    exists v'. split; [done|]. apply during_now; [rewrite length_app; lia|].
    by rewrite <- ideal_get, ideal_snoc.
Qed.

(** A write took effect once, between [t0] and [t1], with this result. *)
Definition took_effect ord (i : nat) o (t0 t1 : nat) (res : bool) : Prop :=
  exists t, t0 <= t < t1 /\ ord !! t = Some (i, o) /\ res = spec_writes (hist ord t) o.

Lemma took_effect_snoc ord x i o t0 t1 res :
  took_effect ord i o t0 t1 res -> took_effect (ord ++ [x]) i o t0 t1 res.
Proof.
  intros (t & Hb & Ho & Hr). exists t. split; [done|]. pose proof (lookup_lt_Some _ _ _ Ho).
  rewrite lookup_app_l, hist_snoc by lia. done.
Qed.

Lemma took_effect_le ord i o t0 t1 t1' res : t1 <= t1' -> took_effect ord i o t0 t1 res -> took_effect ord i o t0 t1' res.
Proof. intros Ht (t & Hb & Hr). exists t. split; [lia|done]. Qed.

Lemma took_effect_now ord i o t0 res :
  t0 <= length ord -> res = spec_writes (hist ord (length ord)) o ->
  took_effect (ord ++ [(i, o)]) i o t0 (length (ord ++ [(i, o)])) res.
Proof.
  intros Ht ->. exists (length ord). rewrite length_app, hist_snoc by done. cbn. split; [lia|].
  by rewrite lookup_app_r, Nat.sub_diag by done.
Qed.

(** The calls of a [Range] so far report values that were current since [t0], each key once,
    and, together with the entries still to visit, every key of the shards before [next] that
    was there all the time. *)
Definition reported ord (t0 t1 : nat) (out : list (Key * Value)) : Prop :=
  forall k v, (k, v) ∈ out -> during ord t0 t1 (fun m => m !! k = Some v).
Definition always ord (t0 t1 : nat) (k : Key) : Prop := forall t, t0 <= t <= t1 -> is_Some (hist ord t !! k).

Definition range_ok ord (t0 next : nat) (pending : list Key) (out : list (Key * Value)) : Prop :=
  reported ord t0 (length ord) out /\ NoDup (out.*1 ++ pending) /\
  (forall k, k ∈ out.*1 ++ pending -> shardIndex (HashFunc k) < next) /\
  (forall k, shardIndex (HashFunc k) < next -> always ord t0 (length ord) k -> k ∈ out.*1 ++ pending).

Lemma range_snoc ord x t0 next pending out : range_ok ord t0 next pending out -> range_ok (ord ++ [x]) t0 next pending out.
Proof.
  intros (Hr & Hnd & Hlt & Hall). split; [intros k v Hk; by apply during_later, Hr|]. do 2 (split; [done|]).
  intros k Hk Halw. apply Hall; [done|]. intros t Ht. rewrite <- (hist_snoc ord x) by lia. apply Halw. rewrite length_app. lia.
Qed.

(** The digest of shard [j] that was collected is that of every map with the contents of some
    moment. *)
Definition digests_ok (kd : digests) ord (t0 t1 : nat) (out : list (list Z)) : Prop :=
  forall j d, out !! j = Some d ->
    during ord t0 t1 (fun m => forall g, represents g m -> readDigests kd <$> shards g !! j = Some d).

(** The records that [RangeShard] is to report. *)
Definition selected (id mask : Z) (out : list (Key * Value)) (m : gmap Key Value) : Prop :=
  forall k v, (k, v) ∈ out <->
    Z.of_nat (shardIndex (HashFunc k)) = id /\ Z.testbit mask (Z.of_nat (subIndex (HashFunc k))) = true /\ m !! k = Some v.

(** What holds of a goroutine, given the map [gm] and the order of writes. *)
Definition thread_ok (gm : ShardedMap) ord (i : nat) (t : thread) : Prop :=
  let g := ideal ord in
  match t with
  | LIdle _ | RIdle | SIdle _ _ | DIdle _ => True
  | LRef k t0 w => t0 <= length ord /\ ref_ok ord t0 k w
  | LDone k t0 t1 r => t1 <= length ord /\ during ord t0 t1 (fun m => m !! k = r)
  | WIdle o => i ∉ ord.*1
  | WLocked o t0 => t0 <= length ord /\ i ∉ ord.*1 /\ shards gm !! op_shard o = shards g !! op_shard o
  | WDigests o t0 p => t0 <= length ord /\ i ∉ ord.*1 /\ decidePlan g o = Some p /\
      shards gm !! op_shard o = planDigests o p <$> shards g !! op_shard o
  | WCounts o t0 p => took_effect ord i o t0 (length ord) true /\
      shards g !! op_shard o = planCounts o p <$> shards gm !! op_shard o
  | WUnlock o t0 res => took_effect ord i o t0 (length ord) res /\ shards gm !! op_shard o = shards g !! op_shard o
  | WDone o t0 t1 res => took_effect ord i o t0 t1 res
  | RIter t0 next todo out => t0 <= length ord /\ next <= Z.to_nat ShardCount /\
      (forall kb w, (kb, w) ∈ todo -> ref_ok ord t0 (bytes_string kb) w) /\
      range_ok ord t0 next (bytes_string <$> todo.*1) out
  | RDone t0 t1 out all => t1 <= length ord /\ reported ord t0 t1 out /\ NoDup out.*1 /\
      (all = true -> forall k, always ord t0 t1 k -> k ∈ out.*1)
  | SIter id mask t0 todo out => t0 <= length ord /\ (0 <= id < ShardCount)%Z /\
      RangeShard g id mask = out ++ derefs (wrappers g) todo /\
      forall kb w, (kb, w) ∈ todo -> exists b t, tree_at g (Z.to_nat id) b = Some t /\ tmap t !! kb = Some w
  | SDone id mask t0 t1 out => t1 <= length ord /\ NoDup out.*1 /\ during ord t0 t1 (selected id mask out)
  | DIter kd t0 out => t0 <= length ord /\ length out <= Z.to_nat ShardCount /\ digests_ok kd ord t0 (length ord) out
  | DDone kd t0 t1 out => t1 <= length ord /\ length out = Z.to_nat ShardCount /\ digests_ok kd ord t0 t1 out
  end.

(** With no write meanwhile, the root of the collected digests is exact. *)
Lemma root_exact ord t0 t1 out g :
  digests_ok PerShard ord t0 t1 out -> length out = Z.to_nat ShardCount -> t1 <= t0 -> represents g (hist ord t0) ->
  rootOf out = RootDigest g.
Proof.
  intros H3 H2 Ht Hg. unfold rootOf, RootDigest. assert (out = (fun x => [shardHash x]) <$> shards g) as ->.
  { apply list_eq_same_length with (Z.to_nat ShardCount); [by rewrite length_fmap, (sm_len g (proj1 Hg))|done|].
    intros j x y _ Hx Hy. destruct (H3 j x Hx) as (τ & Hb & Hd). replace τ with t0 in Hd by lia. specialize (Hd g Hg).
    rewrite list_lookup_fmap in Hy. change (readDigests PerShard) with (fun x => [shardHash x]) in Hd. congruence. }
  clear. generalize 0%Z. induction (shards g) as [|x l IH]; intros acc; [done|]. apply IH.
Qed.

(** It depends on the map only through the shard whose lock it holds... *)
Lemma thread_frame gm gm' ord i t :
  thread_ok gm ord i t -> (forall sh, holdsW t = Some sh -> shards gm' !! sh = shards gm !! sh) -> thread_ok gm' ord i t.
Proof. intros Hok Hs. destruct t; cbn in *; try done; rewrite (Hs _ eq_refl); done. Qed.

Lemma tree_at_shard g g' sh b : shards g' !! sh = shards g !! sh -> tree_at g' sh b = tree_at g sh b.
Proof. unfold tree_at. by intros ->. Qed.

(** ... and survives the writes of others to shards it has not locked. *)
Lemma thread_later gm ord i t j o :
  thread_ok gm ord i t -> i <> j -> holdsW t <> Some (op_shard o) -> holdsR t <> Some (op_shard o) ->
  thread_ok gm (ord ++ [(j, o)]) i t.
Proof.
  intros Hok Hij Hw Hr. pose proof (ideal_ok ord) as Hg. pose proof (impl_effect (ideal ord) o Hg) as [_ _ _ Ho].
  assert (i ∉ ord.*1 -> i ∉ (ord ++ [(j, o)]).*1) as Hni by (rewrite fmap_app; set_solver).
  assert (length (ord ++ [(j, o)]) = S (length ord)) as Hlen by (rewrite length_app; cbn; lia).
  destruct t as [k|k t0 w|k t0 t1 r|o'|o' t0|o' t0 p|o' t0 p|o' t0 res|o' t0 t1 res| |t0 next todo out|t0 t1 out all
    |id mask|id mask t0 todo out|id mask t0 t1 out|kd|kd t0 out|kd t0 t1 out]; cbn [thread_ok holdsW holdsR] in *;
    rewrite ?ideal_snoc in *; try done.
  - destruct Hok as [H1 H2]. split; [lia|by apply ref_snoc].
  - destruct Hok as [H1 H2]. split; [lia|by apply during_snoc].
  - auto.
  - destruct Hok as (H1 & H2 & H3). split; [lia|]. rewrite Ho by congruence. auto.
  - destruct Hok as (H1 & H2 & H3 & H4). split; [lia|]. rewrite Ho, plan_stable by (done || congruence). auto.
  - destruct Hok as [H1 H2]. rewrite Ho by congruence. split; [|done].
    eapply took_effect_le, took_effect_snoc; [|done]. lia.
  - destruct Hok as [H1 H2]. rewrite Ho by congruence. split; [|done].
    eapply took_effect_le, took_effect_snoc; [|done]. lia.
  - by apply took_effect_snoc.
  - destruct Hok as (H1 & H2 & H3 & H4). split; [lia|]. split; [done|]. split; [|by apply range_snoc].
    intros kb w Hin. by apply ref_snoc, H3.
  - destruct Hok as (H1 & H2 & H3 & H4). split; [lia|]. split; [intros k v Hk; by apply during_snoc, H2|]. split; [done|].
    intros Ha k Halw. apply H4; [done|]. intros t Ht. rewrite <- (hist_snoc ord (j, o)) by lia. by apply Halw.
  - destruct Hok as (H1 & H2 & H3 & H4). assert (Z.to_nat id <> op_shard o) as Hne by congruence.
    split; [lia|]. split; [done|]. split.
    + rewrite RangeShard_stable, H3 by done. f_equal. symmetry. apply derefs_ext. intros kb w (b & t & Ht & Hk)%H4.
      by eapply entry_stable.
    + intros kb w (b & t & Ht & Hk)%H4. exists b, t. split; [|done]. by rewrite (tree_at_shard (ideal ord)) by by apply Ho.
  - destruct Hok as (H1 & H2 & H3). split; [lia|]. split; [done|by apply during_snoc].
  - destruct Hok as (H1 & H2 & H3). split; [lia|]. split; [done|]. intros y d Hy. by apply during_later, H3.
  - destruct Hok as (H1 & H2 & H3). split; [lia|]. split; [done|]. intros y d Hy. apply during_snoc; [done|by apply H3].
Qed.

(** ** The invariant *)

Definition runs (s : state) (i : nat) (t : thread) : Prop := threads s !! i = Some t.
Definition nobodyW (s : state) (sh : nat) : Prop := forall j u, runs s j u -> holdsW u <> Some sh.
Definition nobodyR (s : state) (sh : nat) : Prop := forall j u, runs s j u -> holdsR u <> Some sh.

(** The map differs from the ideal one only in the digests and counts of locked shards. *)
Record ok (s : state) : Prop := {
  ok_heap : wrappers (sm s) = wrappers (ideal (order s)) /\ nextLoc (sm s) = nextLoc (ideal (order s)) /\
    length (shards (sm s)) = length (shards (ideal (order s)));
  ok_free : forall sh, nobodyW s sh -> shards (sm s) !! sh = shards (ideal (order s)) !! sh;
  ok_locks : forall i j t u sh, runs s i t -> runs s j u -> holdsW t = Some sh -> holdsW u = Some sh \/ holdsR u = Some sh -> i = j;
  ok_order : NoDup (order s).*1;
  ok_threads : forall i t, runs s i t -> thread_ok (sm s) (order s) i t
}.

Lemma runs_insert s gm ord i t t' j u :
  runs s i t -> runs (mkState gm (<[i := t']> (threads s)) ord) j u -> j = i /\ u = t' \/ j <> i /\ runs s j u.
Proof.
  unfold runs. cbn. intros Hi Hj. destruct (decide (j = i)) as [->|Hne]; [left|right].
  - rewrite list_lookup_insert_eq in Hj by by eapply lookup_lt_Some. by injection Hj as <-.
  - by rewrite list_lookup_insert_ne in Hj.
Qed.

Lemma canRLock_nobody s sh : canRLock s sh = true <-> nobodyW s sh.
Proof.
  unfold canRLock, nobodyW, runs. rewrite forallb_forall. split.
  - intros Hf j u Hj. apply list_elem_of_lookup_2, list_elem_of_In, Hf in Hj.
    by rewrite negb_true_iff, bool_decide_eq_false in Hj.
  - intros Hn u Hu%list_elem_of_In%list_elem_of_lookup. destruct Hu as [j Hj]. rewrite negb_true_iff, bool_decide_eq_false. eauto.
Qed.

Lemma canLock_nobody s sh : canLock s sh = true <-> nobodyW s sh /\ nobodyR s sh.
Proof.
  unfold canLock, nobodyW, nobodyR, runs. rewrite forallb_forall. split.
  - intros Hf. split; intros j u Hj; apply list_elem_of_lookup_2, list_elem_of_In, Hf in Hj;
      rewrite andb_true_iff, !negb_true_iff, !bool_decide_eq_false in Hj; tauto.
  - intros [Hw Hr] u Hu%list_elem_of_In%list_elem_of_lookup. destruct Hu as [j Hj].
    rewrite andb_true_iff, !negb_true_iff, !bool_decide_eq_false. eauto.
Qed.

(** A step that touches neither the map nor the order: reads, and taking and releasing locks. *)
Lemma ok_goto s i t t' :
  ok s -> runs s i t ->
  (forall sh, holdsW t' = Some sh -> holdsW t = Some sh \/ nobodyW s sh /\ nobodyR s sh) ->
  (forall sh, holdsR t' = Some sh -> holdsR t = Some sh \/ nobodyW s sh) ->
  (forall sh, holdsW t = Some sh -> holdsW t' = Some sh \/ shards (sm s) !! sh = shards (ideal (order s)) !! sh) ->
  thread_ok (sm s) (order s) i t' -> ok (goto s i t').
Proof.
  intros [Hh Hf Hl Ho Ht] Hi HW HR_ Hrel Ht'. split; cbn [sm order goto]; [done| |..|done|].
  - intros sh Hn. destruct (decide (holdsW t = Some sh)) as [E|E].
    + destruct (Hrel sh E) as [E'|?]; [|done]. exfalso. apply (Hn i t'); [|done]. unfold runs. cbn.
      apply list_lookup_insert_eq. by eapply lookup_lt_Some.
    + apply Hf. intros j u Hj. destruct (decide (j = i)) as [->|Hne].
      * unfold runs in *. congruence.
      * apply (Hn j u). unfold runs. cbn. by rewrite list_lookup_insert_ne.
  - intros j1 j2 t1 t2 sh H1 H2 E1 E2.
    apply (runs_insert _ _ _ _ _ _ _ _ Hi) in H1, H2. destruct H1 as [[-> ->]|[Hn1 H1]], H2 as [[-> ->]|[Hn2 H2]]; [done|..].
    + destruct (HW sh E1) as [E|[Ew Er]]; [by eapply Hl|]. exfalso. destruct E2; [by eapply Ew|by eapply Er].
    + destruct E2 as [E2|E2].
      * destruct (HW sh E2) as [E|[Ew _]]; [by eapply Hl; eauto|]. exfalso. by eapply Ew.
      * destruct (HR_ sh E2) as [E|Ew]; [by eapply Hl; eauto|]. exfalso. by eapply Ew.
    + by eapply Hl.
  - intros j u Hj. apply (runs_insert _ _ _ _ _ _ _ _ Hi) in Hj as [[-> ->]|[_ Hj]]; [done|by apply Ht].
Qed.

(** A step of the holder of a lock within its shard, which may be its visible write. *)
Lemma ok_locked s i t t' o gm ord :
  ok s -> runs s i t -> holdsW t = Some (op_shard o) -> holdsW t' = Some (op_shard o) -> holdsR t' = None ->
  (ord = order s \/ ord = order s ++ [(i, o)] /\ i ∉ (order s).*1) ->
  (forall sh, sh <> op_shard o -> shards gm !! sh = shards (sm s) !! sh) ->
  (wrappers gm = wrappers (ideal ord) /\ nextLoc gm = nextLoc (ideal ord) /\ length (shards gm) = length (shards (ideal ord))) ->
  thread_ok gm ord i t' -> ok (mkState gm (<[i := t']> (threads s)) ord).
Proof.
  intros [Hh Hf Hl Ho Ht] Hi HW HW' HR' Hord Hgm Hheap Ht'.
  assert (forall sh, sh <> op_shard o -> shards (ideal ord) !! sh = shards (ideal (order s)) !! sh) as Hid.
  { intros sh Hne. destruct Hord as [->|[-> _]]; [done|]. rewrite ideal_snoc. by apply (e_other _ _ _ (impl_effect _ o (ideal_ok _))). }
  split; cbn [sm order]; [done| |..].
  - intros sh Hn. assert (sh <> op_shard o) as Hne.
    { intros ->. apply (Hn i t'); [|done]. unfold runs. cbn. apply list_lookup_insert_eq. by eapply lookup_lt_Some. }
    rewrite Hgm, Hid by done. apply Hf. intros j u Hj. destruct (decide (j = i)) as [->|Hji].
    + unfold runs in *. simplify_eq. congruence.
    + apply (Hn j u). unfold runs. cbn. by rewrite list_lookup_insert_ne.
  - intros j1 j2 t1 t2 sh H1 H2 E1 E2.
    apply (runs_insert _ _ _ _ _ _ _ _ Hi) in H1, H2. destruct H1 as [[-> ->]|[Hn1 H1]], H2 as [[-> ->]|[Hn2 H2]]; [done|..].
    + eapply Hl; [exact Hi|exact H2| |exact E2]. congruence.
    + eapply Hl; [exact H1|exact Hi|exact E1|]. left. destruct E2; congruence.
    + by eapply Hl.
  - destruct Hord as [->|[-> Hni]]; [done|]. rewrite fmap_app. apply NoDup_app. split; [done|]. split; [|apply NoDup_singleton].
    intros x Hx ->%list_elem_of_singleton. done.
  - intros j u Hj. apply (runs_insert _ _ _ _ _ _ _ _ Hi) in Hj as [[-> ->]|[Hji Hj]]; [done|].
    assert (forall sh, holdsW u = Some sh \/ holdsR u = Some sh -> sh <> op_shard o) as Hno.
    { intros sh Hu ->. apply Hji. symmetry. by eapply Hl. }
    eapply thread_frame; [|intros sh Hu; apply Hgm; eauto].
    destruct Hord as [->|[-> _]]; [by apply Ht|]. apply thread_later; [by apply Ht|done|intros E; by eapply Hno; eauto..].
Qed.

(** Readers see the trees of the ideal map in every shard. *)
Lemma read_view s sh x :
  ok s -> shards (sm s) !! sh = Some x ->
  exists y, shards (ideal (order s)) !! sh = Some y /\ buckets y = buckets x /\ readBuckets y = readBuckets x.
Proof.
  intros Hok Hx. destruct (decide (Exists (fun u => holdsW u = Some sh) (threads s))) as [Hex|Hno].
  2: { exists x. split; [|done]. rewrite <- (ok_free s Hok); [done|]. intros j u Hj Hu. apply Hno, Exists_exists.
       exists u. split; [by eapply list_elem_of_lookup_2|done]. }
  apply Exists_exists in Hex as (u & [j Hj]%list_elem_of_lookup & Hu). pose proof (ok_threads s Hok j u Hj) as Htu.
  assert (forall o p y, buckets (planDigests o p y) = buckets y /\ readBuckets (planDigests o p y) = readBuckets y) as HD.
  { intros o p y. by destruct p as [? [?|] ?| |? [?|]]. }
  assert (forall o p y, buckets (planCounts o p y) = buckets y /\ readBuckets (planCounts o p y) = readBuckets y) as HC
    by (intros o p y; by destruct p).
  destruct u as [| | | |o t0|o t0 p|o t0 p|o t0 res| | | | | | | | | |]; try done; injection Hu as <-; cbn in Htu.
  - destruct Htu as (_ & _ & E). exists x. by rewrite <- E.
  - destruct Htu as (_ & _ & _ & E). rewrite Hx in E. symmetry in E. apply fmap_Some in E as (y & Hy & ->).
    exists y. split; [done|]. by destruct (HD o p y) as [-> ->].
  - destruct Htu as (_ & E). rewrite Hx in E. eexists. split; [exact E|]. apply HC.
  - destruct Htu as (_ & E). exists x. by rewrite <- E.
Qed.

(** ** Every step keeps it *)

Lemma shard_in s sh : ok s -> sh < Z.to_nat ShardCount -> exists x, shards (sm s) !! sh = Some x.
Proof.
  intros Hok Hsh. destruct (ok_heap s Hok) as (_ & _ & Hlen). apply lookup_lt_is_Some_2.
  by rewrite Hlen, (sm_len _ (ideal_ok _)).
Qed.

Lemma published_tree s hash :
  ok s -> readBuckets (getShardByHash (sm s) hash) !! subIndex hash = tree_at (ideal (order s)) (shardIndex hash) (subIndex hash).
Proof.
  intros Hok. destruct (shard_in s _ Hok (shardIndex_lt hash)) as [x Hx].
  destruct (read_view s _ x Hok Hx) as (y & Hy & _ & Hr).
  unfold getShardByHash. rewrite (list_lookup_total_correct _ _ _ Hx), <- Hr, (so_read _ _ (sm_shards _ (ideal_ok _) _ _ Hy)).
  unfold tree_at. by rewrite Hy.
Qed.

Lemma ok_stepLoad s i t s' : ok s -> runs s i t -> stepLoad s i t = Some s' -> ok s'.
Proof.
  intros Hok Hi. pose proof (ok_threads s Hok i t Hi) as Hti. destruct t; try done; cbn [stepLoad].
  - rewrite published_tree, (tree_at_hash _ _ (ideal_ok _)) by done. destruct (iGet _ _) as [w|] eqn:Ew; intros [= <-].
    all: eapply ok_goto; try done; cbn [thread_ok]; split; [done|].
    + rewrite <- (bytes_string_bytes k). eapply ref_new; [done|by apply tree_at_hash, ideal_ok|by rewrite <- iGet_tmap].
    + apply during_now; [done|]. rewrite <- ideal_get. by apply (key_get_None _ k (ideal_ok _)).
  - destruct Hti as [Ht0 Href]. intros [= <-]. eapply ok_goto; try done. cbn [thread_ok]. split; [done|].
    destruct (ok_heap s Hok) as [-> _]. by apply ref_deref.
Qed.

Lemma in_shard_heap o f g :
  wrappers (in_shard o f g) = wrappers g /\ nextLoc (in_shard o f g) = nextLoc g /\ length (shards (in_shard o f g)) = length (shards g).
Proof. cbn. by rewrite length_insert. Qed.

Lemma ok_private s i t t' o f :
  ok s -> runs s i t -> holdsW t = Some (op_shard o) -> holdsW t' = Some (op_shard o) -> holdsR t' = None ->
  (forall gm, shards gm !! op_shard o = f <$> shards (sm s) !! op_shard o -> thread_ok gm (order s) i t') ->
  ok (mkState (in_shard o f (sm s)) (<[i := t']> (threads s)) (order s)).
Proof.
  intros Hok Hi HW HW' HR' Ht'. pose proof (ok_heap s Hok) as (Hw & Hn & Hl).
  assert (op_shard o < length (shards (sm s))) as Hlt by (rewrite Hl; apply op_shard_lt, ideal_ok).
  destruct (in_shard_heap o f (sm s)) as (Ew & En & El).
  eapply ok_locked; [done..|by left| | |].
  - intros sh Hne. rewrite in_shard_lookup by done. by rewrite decide_False.
  - by rewrite Ew, En, El.
  - apply Ht'. rewrite in_shard_lookup by done. by rewrite decide_True.
Qed.

Lemma ok_commit s i t t' o gm :
  ok s -> runs s i t -> holdsW t = Some (op_shard o) -> holdsW t' = Some (op_shard o) -> holdsR t' = None ->
  i ∉ (order s).*1 -> (forall sh, sh <> op_shard o -> shards gm !! sh = shards (sm s) !! sh) ->
  (wrappers gm = wrappers (impl_step (ideal (order s)) o) /\ nextLoc gm = nextLoc (impl_step (ideal (order s)) o) /\
   length (shards gm) = length (shards (impl_step (ideal (order s)) o))) ->
  thread_ok gm (order s ++ [(i, o)]) i t' -> ok (mkState gm (<[i := t']> (threads s)) (order s ++ [(i, o)])).
Proof.
  intros Hok Hi HW HW' HR' Hni Hgm Hheap Ht'. eapply ok_locked; [done..|by right|done| |done]. by rewrite ideal_snoc.
Qed.

Lemma ok_visible s i o t0 p :
  ok s -> runs s i (WDigests o t0 p) ->
  ok (mkState (planVisible o p (sm s)) (<[i := WCounts o t0 p]> (threads s)) (order s ++ [(i, o)])).
Proof.
  intros Hok Hi. destruct (ok_threads s Hok i _ Hi) as (Ht0 & Hni & Hp & Hs). pose proof (ok_heap s Hok) as (Hw & Hn & Hl).
  pose proof (ideal_ok (order s)) as Hg. pose proof (op_shard_lt _ o Hg) as Hlt.
  assert (op_shard o < length (shards (sm s))) as Hlt' by (by rewrite Hl). destruct (visible_heap o p (sm s)) as (Ew & En & El).
  assert (impl_step (ideal (order s)) o = planRun o p (ideal (order s))) as Erun by by rewrite impl_step_pieces, Hp.
  eapply ok_commit; [done..| | |].
  - intros sh Hne. rewrite visible_lookup by done. by rewrite decide_False.
  - rewrite Erun, planRun_eq, Ew, En, El, Hw, Hn, Hl by done. cbn. by rewrite length_insert.
  - cbn [thread_ok]. split.
    + apply took_effect_now; [done|]. rewrite <- (plan_writes (ideal (order s))) by apply ideal_rep. by rewrite Hp.
    + rewrite ideal_snoc, Erun, planRun_eq, visible_lookup, decide_True, Hs, Hn by done. cbn [shards].
      rewrite list_lookup_insert_eq by done. rewrite (shard_at _ (op_hash o) Hg : shards _ !! op_shard o = _). done.
Qed.

Lemma ok_stepWrite s i t s' : ok s -> runs s i t -> stepWrite s i t = Some s' -> ok s'.
Proof.
  intros Hok Hi. pose proof (ok_threads s Hok i t Hi) as Hti. destruct (ok_heap s Hok) as (Hw & Hn & Hl).
  destruct t as [| | |o|o t0|o t0 p|o t0 p|o t0 res| | | | | | | | | |]; try done; cbn [stepWrite].
  - destruct (canLock s (op_shard o)) eqn:Ec; [|done]. intros [= <-]. apply canLock_nobody in Ec as [HnW HnR].
    eapply ok_goto; try done; [intros sh [= <-]; by right|]. cbn [thread_ok]. split; [done|]. split; [done|]. by apply (ok_free s Hok).
  - destruct Hti as (Ht0 & Hni & Hs).
    assert (decidePlan (sm s) o = decidePlan (ideal (order s)) o) as -> by (apply plan_ext; [done|]; intros; by rewrite Hw).
    pose proof (plan_writes (ideal (order s)) _ o (ideal_rep (order s))) as Hres.
    destruct (decidePlan (ideal (order s)) o) as [p|] eqn:Hp; intros [= <-].
    + eapply ok_private; [done..|]. intros gm Hgm. cbn [thread_ok]. by rewrite Hgm, Hs.
    + assert (impl_step (ideal (order s)) o = ideal (order s)) as Ei by by rewrite impl_step_pieces, Hp by apply ideal_ok.
      eapply ok_commit; try done; [by rewrite Ei|]. cbn [thread_ok]. rewrite ideal_snoc, Ei. split; [|done].
      by apply took_effect_now.
  - intros [= <-]. by apply ok_visible.
  - destruct Hti as (Hto & Hs). intros [= <-]. eapply ok_private; [done..|]. intros gm Hgm. cbn [thread_ok]. by rewrite Hgm, Hs.
  - destruct Hti as (Hto & Hs). intros [= <-]. eapply ok_goto; try done. intros sh [= <-]. by right.
Qed.

Lemma shard_unlocked s sh x :
  ok s -> canRLock s sh = true -> shards (sm s) !! sh = Some x -> shards (ideal (order s)) !! sh = Some x.
Proof. intros Hok Hc%canRLock_nobody Hx. by rewrite <- (ok_free s Hok). Qed.

Lemma tree_of_shard g sh b x : shards g !! sh = Some x -> tree_at g sh b = buckets x !! b.
Proof. unfold tree_at. by intros ->. Qed.

(** The trees of a shard, copied: all its entries. *)
Lemma copied_elem (x : shard) kb w :
  (kb, w) ∈ concat (iIter <$> buckets x) <-> exists b t, buckets x !! b = Some t /\ tmap t !! kb = Some w.
Proof.
  rewrite elem_of_concat. split.
  - intros (l & (t & -> & [b Hb]%list_elem_of_lookup)%list_elem_of_fmap & Hin). exists b, t. by rewrite <- iIter_elem.
  - intros (b & t & Hb & Hk). exists (iIter t). split; [|by rewrite iIter_elem].
    apply list_elem_of_fmap. exists t. split; [done|]. by eapply list_elem_of_lookup_2.
Qed.

Lemma copied_keys_NoDup ord sh x :
  shards (ideal ord) !! sh = Some x -> NoDup (bytes_string <$> (concat (iIter <$> buckets x)).*1).
Proof.
  intros Hx. pose proof (ideal_ok ord) as Hg. pose proof (shardEntries_NoDup _ sh x Hg Hx) as Hnd.
  assert (shardEntries (wrappers (ideal ord)) x = derefs (wrappers (ideal ord)) (concat (iIter <$> buckets x))) as E.
  { unfold shardEntries. clear. induction (buckets x) as [|t ts IH]; [done|]. csimpl. by rewrite derefs_app, IH. }
  rewrite E in Hnd. assert (forall l : list (bytes * loc), (forall kb w, (kb, w) ∈ l -> is_Some (wrappers (ideal ord) !! w)) ->
    (derefs (wrappers (ideal ord)) l).*1 = bytes_string <$> l.*1) as Hk.
  { induction l as [|[kb w] l IH]; intros Hl; [done|]. destruct (Hl kb w) as [v Hv]; [set_solver|]. cbn. rewrite Hv. cbn.
    f_equal. apply IH. set_solver. }
  rewrite <- Hk; [done|]. intros kb w (b & t & Hb & Hkb)%copied_elem. rewrite <- (tree_of_shard (ideal ord) sh) in Hb by done.
  destruct (sm_entries _ Hg _ _ _ _ _ Hb Hkb) as (_ & _ & _ & v & Hv & _). by exists v.
Qed.

Lemma range_copy ord t0 sh x out :
  t0 <= length ord -> shards (ideal ord) !! sh = Some x -> range_ok ord t0 sh [] out ->
  range_ok ord t0 (S sh) (bytes_string <$> (concat (iIter <$> buckets x)).*1) out.
Proof.
  intros Ht0 Hx (Hrep & Hnd & Hlt & Hall). rewrite app_nil_r in *. pose proof (ideal_ok ord) as Hg.
  assert (forall k, k ∈ bytes_string <$> (concat (iIter <$> buckets x)).*1 -> shardIndex (HashFunc k) = sh) as Hsh.
  { intros k (kb & -> & Hin)%list_elem_of_fmap. apply list_elem_of_fmap in Hin as ([kb' w] & -> & (b & t & Hb & Hk)%copied_elem).
    rewrite <- (tree_of_shard (ideal ord) sh) in Hb by done. by destruct (sm_entries _ Hg _ _ _ _ _ Hb Hk) as (_ & ? & _). }
  split; [done|]. split; [|split].
  - apply NoDup_app. split; [done|]. split; [|by eapply copied_keys_NoDup].
    intros k Hk Hk'. apply Hsh in Hk'. apply Hlt in Hk. lia.
  - intros k [Hk|Hk]%elem_of_app; [apply Hlt in Hk|apply Hsh in Hk]; lia.
  - intros k Hk Halw. apply elem_of_app. destruct (decide (shardIndex (HashFunc k) = sh)) as [E|E];
      [right|left; by apply Hall; [lia|]].
    destruct (Halw (length ord)) as [v Hv]; [lia|]. rewrite <- ideal_get in Hv. unfold sm_get in Hv.
    rewrite E, (tree_of_shard _ _ _ _ Hx) in Hv. destruct (buckets x !! _) as [t|] eqn:Eb; [|done]. cbn in Hv.
    rewrite view_lookup in Hv. destruct (tmap t !! string_bytes k) as [w|] eqn:Ew; [|done].
    apply list_elem_of_fmap. exists (string_bytes k). split; [by rewrite bytes_string_bytes|].
    apply list_elem_of_fmap. exists (string_bytes k, w). split; [done|]. apply copied_elem. eauto.
Qed.

Lemma range_visit ord t0 next k v pending out :
  range_ok ord t0 next (k :: pending) out -> during ord t0 (length ord) (fun m => m !! k = Some v) ->
  range_ok ord t0 next pending (out ++ [(k, v)]).
Proof.
  intros (Hrep & Hrest) Hv. split.
  - intros k' v' [Hin|[= -> ->]%list_elem_of_singleton]%elem_of_app; [by apply Hrep|done].
  - by rewrite fmap_app, <- (assoc_L (++)).
Qed.

Lemma range_stops ord t0 next pending out :
  range_ok ord t0 next pending out -> reported ord t0 (length ord) out /\ NoDup out.*1.
Proof. intros (Hrep & Hnd & _). split; [done|]. by apply NoDup_app in Hnd as [? _]. Qed.

Lemma ok_stepRange s i goOn t s' : ok s -> runs s i t -> stepRange s i goOn t = Some s' -> ok s'.
Proof.
  intros Hok Hi. pose proof (ok_threads s Hok i t Hi) as Hti. destruct (ok_heap s Hok) as (Hw & _ & _).
  destruct t as [| | | | | | | | | |t0 next todo out| | | | | | |]; try done; cbn [stepRange].
  { intros [= <-]. eapply ok_goto; try done. cbn [thread_ok]. split; [done|]. split; [lia|]. split; [set_solver|].
    split; [intros k v ?; set_solver|]. split; [constructor|]. split; [set_solver|lia]. }
  destruct Hti as (Ht0 & Hnext & Href & Hr). destruct todo as [|[kb w] todo].
  - destruct (decide (next < Z.to_nat ShardCount)) as [Hlt|Hge].
    + destruct (canRLock s next) eqn:Ec; [|done]. intros [= <-]. destruct (shard_in s next Hok Hlt) as [x Hx].
      rewrite (list_lookup_total_correct _ _ _ Hx). apply (shard_unlocked s next x Hok Ec) in Hx.
      eapply ok_goto; try done. cbn [thread_ok]. split; [done|]. split; [lia|]. split; [|by apply range_copy].
      intros kb w (b & t & Hb & Hk)%copied_elem. eapply ref_new; [done| |exact Hk]. by rewrite (tree_of_shard _ next _ x).
    + intros [= <-]. eapply ok_goto; try done. cbn [thread_ok]. split; [done|].
      destruct (range_stops _ _ _ _ _ Hr) as [Hrep Hnd]. do 2 (split; [done|]). intros _ k Halw.
      destruct Hr as (_ & _ & _ & Hall). specialize (Hall k). cbn in Hall. rewrite app_nil_r in Hall. apply Hall; [|done].
      pose proof (shardIndex_lt (HashFunc k)). lia.
  - pose proof (Href kb w) as Hk. specialize (Hk ltac:(set_solver)). pose proof (ref_deref _ _ _ _ Hk) as Hd.
    rewrite Hw. destruct Hk as (_ & _ & v & Hv & _). rewrite Hv in *. apply range_visit with (v := v) in Hr; [|done].
    destruct goOn; intros [= <-]; eapply ok_goto; try done; cbn [thread_ok].
    + split; [done|]. split; [done|]. split; [|done]. intros kb' w' Hin. apply Href. set_solver.
    + split; [done|]. destruct (range_stops _ _ _ _ _ Hr). by repeat split.
Qed.

Lemma ok_stepRangeShard s i t s' : ok s -> runs s i t -> stepRangeShard s i t = Some s' -> ok s'.
Proof.
  intros Hok Hi. pose proof (ok_threads s Hok i t Hi) as Hti. destruct (ok_heap s Hok) as (Hw & _ & _).
  pose proof (ideal_ok (order s)) as Hg.
  destruct t as [| | | | | | | | | | | |id mask|id mask t0 todo out| | | |]; try done; cbn [stepRangeShard].
  - destruct ((id <? 0) || (ShardCount <=? id))%Z eqn:Eid.
    { intros [= <-]. eapply ok_goto; try done. cbn [thread_ok]. split; [done|]. split; [constructor|]. apply during_now; [done|].
      intros k v. split; [by intros ?%elem_of_nil|]. intros (E & _). pose proof (shardIndex_lt (HashFunc k)).
      apply orb_true_iff in Eid. change ShardCount with 128%Z in *. lia. }
    apply orb_false_iff in Eid as [E1 E2]. assert (0 <= id < ShardCount)%Z as Hid by lia. clear E1 E2.
    destruct (canRLock s (Z.to_nat id)) eqn:Ec; [|done]. intros [= <-].
    destruct (shard_in s (Z.to_nat id) Hok ltac:(lia)) as [x Hx]. pose proof (shard_unlocked s _ x Hok Ec Hx) as Hx'.
    eapply ok_goto; try done; [intros sh [= <-]; right; by apply canRLock_nobody|]. cbn [thread_ok].
    rewrite RangeShard_derefs, (list_lookup_total_correct _ _ _ Hx), (list_lookup_total_correct _ _ _ Hx') by done.
    split; [done|]. split; [done|]. split; [done|]. intros kb w (b & t & Hb & Hk)%maskEntries_elem.
    exists b, t. by rewrite (tree_of_shard _ _ _ x).
  - destruct Hti as (Ht0 & Hid & Hr & Hin). destruct todo as [|[kb w] todo]; intros [= <-].
    + eapply ok_goto; try done. cbn [thread_ok]. cbn in Hr. rewrite app_nil_r in Hr. subst out. split; [done|].
      split; [by apply RangeShard_NoDup|]. apply during_now; [done|]. intros k v. by rewrite RangeShard_elem, ideal_get.
    + eapply ok_goto; try done; [by left|]. cbn [thread_ok]. split; [done|]. split; [done|]. split; [|set_solver].
      rewrite Hr, Hw. cbn. destruct (wrappers _ !! w); cbn; [by rewrite <- (assoc_L (++))|done].
Qed.

Lemma ok_stepDigests s i t s' : ok s -> runs s i t -> stepDigests s i t = Some s' -> ok s'.
Proof.
  intros Hok Hi. pose proof (ok_threads s Hok i t Hi) as Hti.
  destruct t as [| | | | | | | | | | | | | | | |kd t0 out|]; try done; cbn [stepDigests].
  { intros [= <-]. eapply ok_goto; try done. cbn [thread_ok]. split; [done|]. split; [cbn; lia|]. by intros j d. }
  destruct Hti as (Ht0 & Hlen & Hd). case_decide as Hlt.
  - destruct (canRLock s (length out)) eqn:Ec; [|done]. intros [= <-]. destruct (shard_in s _ Hok Hlt) as [x Hx].
    rewrite (list_lookup_total_correct _ _ _ Hx). apply (shard_unlocked s _ x Hok Ec) in Hx.
    eapply ok_goto; try done. cbn [thread_ok]. split; [done|]. split; [rewrite length_app; cbn; lia|].
    intros j d [Hj|[Hj1 Hj2]]%lookup_app_Some; [by apply Hd|]. apply list_lookup_singleton_Some in Hj2 as [Hj0 <-].
    apply during_now; [done|]. intros g Hg. assert (j = length out) as -> by lia.
    destruct (lookup_lt_is_Some_2 (shards g) (length out)) as [y Hy]; [by rewrite (sm_len g (proj1 Hg))|].
    rewrite Hy. cbn. f_equal. destruct (shard_digests_contents _ _ _ _ _ _ _ Hg (ideal_rep (order s)) eq_refl Hy Hx) as [E1 E2].
    destruct kd; cbn; by rewrite ?E1.
  - intros [= <-]. eapply ok_goto; try done. cbn [thread_ok]. repeat split; [done|lia|done].
Qed.

Lemma ok_step s s' : ok s -> step s s' -> ok s'.
Proof.
  intros Hok (i & t & goOn & Hi & He). destruct t; cbn [exec] in He;
    first [by eapply ok_stepLoad | by eapply ok_stepWrite | by eapply ok_stepRange | by eapply ok_stepRangeShard | by eapply ok_stepDigests].
Qed.

Lemma map_ok_init ts : Forall begins ts -> ok (init g0 ts).
Proof.
  intros Hb. assert (forall i t, runs (init g0 ts) i t -> begins t) as Hbeg by (intros i t Hi; by eapply (Forall_lookup_1 _ _ _ _ Hb Hi)).
  split; [done|done| |constructor|].
  - intros i j t u sh Hi _ Ht. apply Hbeg in Hi. by destruct t.
  - intros i t Hi. apply Hbeg in Hi. destruct t; try done. cbn. apply not_elem_of_nil.
Qed.

Lemma ok_reachable ts s : Forall begins ts -> rtc step (init g0 ts) s -> ok s.
Proof. intros Hb Hr. apply map_ok_init in Hb. induction Hr; eauto using ok_step. Qed.

(** A goroutine that has returned can make another call, other than a write. *)
Lemma ok_next s i t t' :
  ok s -> runs s i t -> finished t -> begins t' -> (forall o, t' <> WIdle o) -> ok (goto s i t').
Proof.
  intros Hok Hi Hf Hb Hw. apply (ok_goto s i t t'); try done.
  - intros sh. by destruct t'.
  - intros sh. by destruct t'.
  - intros sh. by destruct t.
  - destruct t'; try done. by destruct (Hw o).
Qed.

(** Every moment has a map with its contents. *)
Lemma hist_rep ord t : exists g, represents g (hist ord t).
Proof.
  exists (ideal (take t ord)). replace (hist ord t) with (hist (take t ord) (length (take t ord))); [apply ideal_rep|].
  unfold hist. by rewrite firstn_all.
Qed.

Lemma hist_app ord ext t : t <= length ord -> hist (ord ++ ext) t = hist ord t.
Proof. intros Ht. unfold hist. by rewrite take_app_le. Qed.

(** ** Progress *)

Lemma holder_steps s i t : holdsW t <> None \/ holdsR t <> None -> exists s', exec s i true t = Some s'.
Proof.
  intros Hh. destruct t as [| | | |o t0|o t0 p|o t0 p|o t0 res| | | | | |id mask t0 [|[kb w] todo] out| | | |]; cbn in *;
    try (by destruct Hh); try (by eexists). destruct (decidePlan (sm s) o); by eexists.
Qed.

Lemma free_steps s i t : (forall sh, nobodyW s sh /\ nobodyR s sh) -> ~ finished t -> exists s', exec s i true t = Some s'.
Proof.
  intros Hn Hf. assert (forall sh, canRLock s sh = true) as Hr by (intros sh; by apply canRLock_nobody, Hn).
  assert (forall sh, canLock s sh = true) as Hl by (intros sh; by apply canLock_nobody, Hn).
  destruct t as [k| | |o| | | | | | |t0 next [|[kb w] todo] out| |id mask|id mask t0 [|[kb w] todo] out| | |kd t0 out|]; cbn in *;
    try (by destruct Hf); try (by eexists); rewrite ?Hr, ?Hl; try (by eexists).
  - repeat case_match; by eexists.
  - by destruct (decidePlan _ _); eexists.
  - case_decide; by eexists.
  - case_match; by eexists.
  - case_match; by eexists.
  - case_decide; by eexists.
Qed.

Lemma can_progress s i t : runs s i t -> ~ finished t -> exists s', step s s'.
Proof.
  intros Hi Hf. destruct (decide (Exists (fun u => holdsW u <> None \/ holdsR u <> None) (threads s))) as [Hex|Hno].
  - apply Exists_exists in Hex as (u & [j Hj]%list_elem_of_lookup & Hu). destruct (holder_steps s j u Hu) as [s' Hs'].
    exists s', j, u, true. done.
  - destruct (free_steps s i t) as [s' Hs']; [|done|by exists s', i, t, true].
    assert (forall j u, runs s j u -> holdsW u = None /\ holdsR u = None) as Hn.
    { intros j u Hj. split; apply dec_stable; intros E; apply Hno, Exists_exists; exists u; split;
        [by eapply list_elem_of_lookup_2|by left|by eapply list_elem_of_lookup_2|by right]. }
    intros sh. split; intros j u Hj E; destruct (Hn j u Hj); congruence.
Qed.

(** ** What a step leaves alone *)

(** A goroutine stays in its call; a write stays the same write. *)
Inductive call := CallLoad | CallWrite (o : mop) | CallRange | CallRangeShard (id mask : Z) | CallDigests (kd : digests).

Definition call_of (t : thread) : call :=
  match t with
  | LIdle _ | LRef _ _ _ | LDone _ _ _ _ => CallLoad
  | WIdle o | WLocked o _ | WDigests o _ _ | WCounts o _ _ | WUnlock o _ _ | WDone o _ _ _ => CallWrite o
  | RIdle | RIter _ _ _ _ | RDone _ _ _ _ => CallRange
  | SIdle id mask | SIter id mask _ _ _ | SDone id mask _ _ _ => CallRangeShard id mask
  | DIdle kd | DIter kd _ _ | DDone kd _ _ _ => CallDigests kd
  end.

Lemma exec_shape s i goOn t s' :
  exec s i goOn t = Some s' ->
  exists t', threads s' = <[i := t']> (threads s) /\ call_of t' = call_of t /\ ~ finished t /\
    (order s' = order s \/ exists o, call_of t = CallWrite o /\ order s' = order s ++ [(i, o)]).
Proof.
  destruct t as [k|k t0 w| |o|o t0|o t0 p|o t0 p|o t0 res| | |t0 next [|[kb w] todo] out| |id mask|id mask t0 [|[kb w] todo] out| | |kd t0 out|];
    cbn [exec stepLoad stepWrite stepRange stepRangeShard stepDigests call_of finished]; intros He; try done;
    repeat case_match; simplify_eq/=; eexists; (split; [done|]); (split; [done|]); (split; [tauto|]); eauto.
Qed.

(** The start of an iteration: the time of its first step, or now. *)
Definition start_of (d : nat) (t : thread) : nat :=
  match t with
  | RIter t0 _ _ _ | RDone t0 _ _ _ | SIter _ _ t0 _ _ | SDone _ _ t0 _ _ | DIter _ t0 _ | DDone _ t0 _ _ => t0
  | _ => d
  end.
Definition range_start (s : state) (i : nat) : nat := default (now s) (start_of (now s) <$> threads s !! i).

Lemma exec_start s i goOn t s' :
  exec s i goOn t = Some s' -> exists t', threads s' = <[i := t']> (threads s) /\ start_of (now s) t' = start_of (now s) t.
Proof.
  destruct t as [| | | | | | | | | |t0 next [|[kb w] todo] out| | |id mask t0 [|[kb w] todo] out| | | |];
    cbn [exec stepLoad stepWrite stepRange stepRangeShard stepDigests]; intros He; try done;
    repeat case_match; simplify_eq/=; by eexists.
Qed.

Lemma exec_range_start s i goOn t s' r :
  threads s !! i = Some t -> exec s i goOn t = Some s' -> range_start s r <= range_start s' r.
Proof.
  intros Hi He. destruct (exec_start _ _ _ _ _ He) as (t' & Ht' & Hst). destruct (exec_shape _ _ _ _ _ He) as (_ & _ & _ & _ & Ho).
  assert (now s <= now s') as Hn by (unfold now; destruct Ho as [->|(o & _ & ->)]; rewrite ?length_app; lia).
  assert (forall u, start_of (now s) u <= start_of (now s') u) as Hu by (intros []; cbn; lia).
  unfold range_start. rewrite Ht'. destruct (decide (r = i)) as [->|Hne].
  - rewrite list_lookup_insert_eq, Hi by by eapply lookup_lt_Some. cbn. rewrite <- Hst. apply Hu.
  - rewrite list_lookup_insert_ne by done. destruct (threads s !! r); cbn; [apply Hu|done].
Qed.

(** With no lock held, the map is the ideal one. *)
Lemma quiet_ideal s : ok s -> (forall i t, runs s i t -> holdsW t = None) -> sm s = ideal (order s).
Proof.
  intros [(Hw & Hn & Hl) Hf _ _ _] Hq. assert (shards (sm s) = shards (ideal (order s))) as Hs.
  { apply list_eq. intros sh. apply Hf. intros j u Hj E. by rewrite (Hq j u Hj) in E. }
  destruct (sm s), (ideal (order s)). cbn in *. by subst.
Qed.

End History.

(** ** Theorems *)

Section Theorems.
Context `{HX : XXHash} `{HR : Radix} `{!XXHashLaws} `{!RadixLaws}.

(** C3. The map is linearizable.  However its calls interleave, the writes take effect in one
    order, each once and between its start and its return, with the result that a plain map
    gives at that point; what a [Load] or [LoadData], which take no lock, returns is what the
    call returns on a map with the contents of some moment between its start and its return,
    even if the key is deleted under it; the same holds for all that a [RangeShard] reports.
    When no write is under way the map is well formed and holds what the plain map holds, and
    as long as a call has not returned some goroutine can go on. *)
Theorem map_linearizable (g0 : ShardedMap) (m0 : gmap Key Value) ts s :
  represents g0 m0 -> Forall begins ts -> rtc step (init g0 ts) s ->
  NoDup (order s).*1 /\
  (forall i t, threads s !! i = Some t ->
     match t with
     | LDone k t0 t1 r => t1 <= now s /\ during m0 (order s) t0 t1 (fun m => forall g, represents g m ->
         Load g k (HashFunc k) = loadResult r /\ LoadData g k (HashFunc k) = loadDataResult r)
     | WDone o t0 t1 res => took_effect m0 (order s) i o t0 t1 res
     | SDone id mask t0 t1 out => t1 <= now s /\
         during m0 (order s) t0 t1 (fun m => forall g, represents g m -> out ≡ₚ RangeShard g id mask)
     | _ => True
     end) /\
  ((forall i t, threads s !! i = Some t -> holdsW t = None) -> represents (sm s) (hist m0 (order s) (now s))) /\
  (forall i t, threads s !! i = Some t -> ~ finished t -> exists s', step s s').
Proof.
  intros R0 Hts Hr. pose proof (ok_reachable g0 m0 R0 ts s Hts Hr) as Hok. split; [apply (ok_order _ _ _ Hok)|]. split; [|split].
  - intros i t Hi. pose proof (ok_threads _ _ _ Hok i t Hi) as Ht. destruct t; try done.
    + destruct Ht as [H1 (t & Hb & Hm)]. split; [done|]. exists t. split; [done|]. intros g Hg.
      destruct (Load_represents g _ k Hg) as [-> ->]. by rewrite Hm.
    + destruct Ht as (H1 & Hnd & (t & Hb & Hm)). split; [done|]. exists t. split; [done|]. intros g [Hg Hget].
      destruct (decide (0 <= id < ShardCount)%Z) as [Hid|Hid].
      * apply NoDup_Permutation; [by eapply NoDup_fmap_1|by eapply NoDup_fmap_1, RangeShard_NoDup|].
        intros [k v]. rewrite (Hm k v), RangeShard_elem by done. by rewrite Hget.
      * unfold RangeShard. replace ((id <? 0) || (ShardCount <=? id))%Z with true by (symmetry; apply orb_true_iff; lia).
        destruct out as [|[k v] out]; [done|]. exfalso. destruct (Hm k v) as [Hs _]. destruct Hs as [Hs _]; [left|].
        pose proof (shardIndex_lt (HashFunc k)). change ShardCount with 128%Z in *. lia.
  - intros Hq. rewrite (quiet_ideal _ _ s Hok Hq). by apply ideal_rep.
  - intros i t. apply can_progress.
Qed.

(** C18. Iteration is weakly consistent, as [Range] promises.  Among concurrent writes a [Range]
    reports only values that their keys had at some moment of the iteration, no key twice, and,
    unless the callback stops it, every key that was there all the time; and each of the
    digests that [FillShardDigests], [FillDigests] and [RootDigest] collect is that of its shard at some
    moment, so that the root is exact when no write takes effect meanwhile. *)
Theorem range_weakly_consistent (g0 : ShardedMap) (m0 : gmap Key Value) ts s :
  represents g0 m0 -> Forall begins ts -> rtc step (init g0 ts) s ->
  forall i t, threads s !! i = Some t ->
    match t with
    | RDone t0 t1 out all => t1 <= now s /\ NoDup out.*1 /\
        (forall k v, (k, v) ∈ out -> during m0 (order s) t0 t1 (fun m => m !! k = Some v)) /\
        (all = true -> forall k, (forall τ, t0 <= τ <= t1 -> is_Some (hist m0 (order s) τ !! k)) -> k ∈ out.*1)
    | DDone kd t0 t1 out => t1 <= now s /\ length out = Z.to_nat ShardCount /\
        (forall j d, out !! j = Some d ->
           during m0 (order s) t0 t1 (fun m => forall g, represents g m -> readDigests kd <$> shards g !! j = Some d)) /\
        (kd = PerShard -> t0 = t1 -> forall g, represents g (hist m0 (order s) t0) -> rootOf out = RootDigest g)
    | _ => True
    end.
Proof.
  intros R0 Hts Hr i t Hi. pose proof (ok_reachable g0 m0 R0 ts s Hts Hr) as Hok.
  pose proof (ok_threads _ _ _ Hok i t Hi) as Ht. destruct t as [| | | | | | | | | | |t0 t1 out all| | | | | |kd t0 t1 out]; try done.
  - destruct Ht as (H1 & H2 & H3 & H4). done.
  - destruct Ht as (H1 & H2 & H3). do 3 (split; [done|]). intros -> <- g Hg. by eapply root_exact.
Qed.

End Theorems.

(** ** Examples *)

Module MapConcExamples.
Import Fnv GmapRadix.

(** A schedule: which goroutine moves next, and what its callback answers. *)
Fixpoint play (s : state) (xs : list (nat * bool)) : option state :=
  match xs with
  | [] => Some s
  | (i, goOn) :: xs' =>
      match threads s !! i with
      | Some t => match exec s i goOn t with Some s' => play s' xs' | None => None end
      | None => None
      end
  end.

Lemma map_play_rtc s xs s' : play s xs = Some s' -> rtc step s s'.
Proof.
  revert s. induction xs as [|[i goOn] xs IH]; intros s; cbn; [by intros [= ->]|].
  destruct (threads s !! i) as [t|] eqn:Ei; [|done]. destruct (exec s i goOn t) as [s1|] eqn:Es; [|done].
  intros Hp. eapply rtc_l; [by exists i, t, goOn|by apply IH].
Qed.

(** A whole schedule from the empty map. *)
Definition run (ts : list thread) (turns : list nat) : option state :=
  play (init NewShardedMap ts) ((fun i => (i, true)) <$> turns).
Definition after (ts : list thread) (turns : list nat) : state := default (init NewShardedMap []) (run ts turns).

Lemma after_rtc ts turns : bool_decide (is_Some (run ts turns)) = true -> rtc step (init NewShardedMap ts) (after ts turns).
Proof. intros [s' Hs]%bool_decide_eq_true. unfold after. rewrite Hs. by eapply map_play_rtc. Qed.

Definition some_value : Value := mkValue "n1" (Some (string_bytes "hello")) 7 false 0.

(** A key is stored; a reader finds its wrapper; the key is deleted; the reader goes on. *)
Definition callers : list thread := [WIdle (MStore "k" some_value); LIdle "k"; WIdle (MDelete "k")].
Definition turns : list nat := [0; 0; 0; 0; 0; 1; 2; 2; 2; 2; 2; 1].

Definition read_back (t : option thread) : bool :=
  match t with Some (LDone "k" 1 2 (Some v)) => bool_decide (Data v = Data some_value) | _ => false end.

Lemma map_linearizable_witness :
  read_back (threads (after callers turns) !! 1) = true /\
  represents (sm (after callers turns)) (hist ∅ (order (after callers turns)) (now (after callers turns))).
Proof.
  split; [vm_compute; reflexivity|].
  destruct (map_linearizable NewShardedMap ∅ callers (after callers turns)) as (_ & _ & Hq & _).
  - apply NewShardedMap_represents.
  - repeat constructor.
  - apply after_rtc. vm_compute. reflexivity.
  - apply Hq. assert (forallb (fun u => bool_decide (holdsW u = None)) (threads (after callers turns)) = true) as Hall
      by (vm_compute; reflexivity).
    intros i t Hi. rewrite forallb_forall in Hall. apply list_elem_of_lookup_2, list_elem_of_In, Hall in Hi.
    by apply bool_decide_eq_true in Hi.
Defined.

(** A [Range], and a key that is stored after its shard was passed. *)
Definition walkers : list thread := [RIdle; WIdle (MStore "k" some_value)].
Definition walk : list nat := replicate 129 0 ++ [1; 1; 1; 1; 1; 0].

Definition ended (t : option thread) : bool := match t with Some (RDone 0 1 [] true) => true | _ => false end.

Lemma ended_eq t : ended t = true -> t = Some (RDone 0 1 [] true).
Proof. unfold ended. by repeat (case_match; try done). Qed.

Lemma range_weakly_consistent_witness :
  threads (after walkers walk) !! 0 = Some (RDone 0 1 [] true) /\ 1 <= now (after walkers walk).
Proof.
  assert (threads (after walkers walk) !! 0 = Some (RDone 0 1 [] true)) as Ht by (apply ended_eq; vm_compute; reflexivity).
  split; [exact Ht|].
  refine (proj1 (range_weakly_consistent NewShardedMap ∅ walkers (after walkers walk) _ _ _ 0 _ Ht)).
  - apply NewShardedMap_represents.
  - repeat constructor.
  - apply after_rtc. vm_compute. reflexivity.
Defined.

End MapConcExamples.
End MapConc.
