(* ===== verification/HashRing.v ===== *)
(** * The consistent-hashing ring (src/cluster/mesh/hashring.go)

    A node owns [weight] positions on a circle of 64-bit hashes; a key belongs to the
    nodes met walking clockwise from its hash.  The ring keeps the positions sorted and
    looks them up with the binary search of [sort.Search], written out here.  The scratch
    slices the code recycles are overwritten entirely before use and are not part of the
    state.  [slices.SortFunc] is modelled by a merge sort: Go leaves the order of equal
    hashes open, so the theorems that depend on it assume distinct positions. *)

From S2P Require Import Prelude Kv.
From stdpp Require Import pretty.

#[local] Open Scope Z_scope.

Module HashRing.

Definition defaultVnodes : Z := 128.

Record vnode := mkVnode { vhash : Z; nodeIdx : Z }.

Record HashRing := mkRing {
  nodes : gmap string Z;
  weights : gmap string Z;
  nodeList : list string;
  vnodes : list vnode
}.

Definition NewHashRing : HashRing := mkRing ∅ ∅ [] [].

(** The weight used for a node: a missing or negative entry means the default. *)
Definition weightOf (ws : gmap string Z) (id : string) : Z :=
  match ws !! id with
  | Some w => if w <? 0 then defaultVnodes else w
  | None => defaultVnodes
  end.

(** [fmt.Sprintf("%s-%d", id, j)]. *)
Definition vnodeName (id : string) (j : nat) : string := id +:+ "-" +:+ pretty j.

Definition vnode_le (a b : vnode) : Prop := vhash a <= vhash b.
#[export] Instance vnode_le_dec : RelDecision vnode_le.
Proof. intros a b. unfold vnode_le. apply _. Defined.

(** The positions of one node, in the order the code generates them. *)
Definition nodeVnodes (ns ws : gmap string Z) (id : string) : list vnode :=
  (fun j => mkVnode (HashFuncSecure (vnodeName id j)) (default 0 (ns !! id)))
    <$> seq 0 (Z.to_nat (weightOf ws id)).

Definition rebuildVnodes (r : HashRing) : HashRing :=
  mkRing (nodes r) (weights r) (nodeList r)
    (merge_sort vnode_le (nodeList r ≫= nodeVnodes (nodes r) (weights r))).

Definition AddNodeWithWeight (r : HashRing) (nodeID : string) (weight : Z) : HashRing :=
  match nodes r !! nodeID with
  | Some _ =>
      rebuildVnodes (mkRing (nodes r) (<[nodeID := weight]> (weights r)) (nodeList r) (vnodes r))
  | None =>
      let idx := u32 (Z.of_nat (length (nodeList r))) in
      rebuildVnodes (mkRing (<[nodeID := idx]> (nodes r)) (<[nodeID := weight]> (weights r))
                       (nodeList r ++ [nodeID]) (vnodes r))
  end.

Definition AddNode (r : HashRing) (nodeID : string) : HashRing :=
  AddNodeWithWeight r nodeID defaultVnodes.

Definition UpdateNodeWeight (r : HashRing) (nodeID : string) (weight : Z) : HashRing :=
  match nodes r !! nodeID with
  | None => r
  | Some _ =>
      rebuildVnodes (mkRing (nodes r) (<[nodeID := weight]> (weights r)) (nodeList r) (vnodes r))
  end.

(** One iteration of the second loop of [AddNodes]. *)
Definition addNewNode (r : HashRing) (id : string) : HashRing :=
  mkRing (<[id := u32 (Z.of_nat (length (nodeList r)))]> (nodes r))
    (<[id := defaultVnodes]> (weights r)) (nodeList r ++ [id]) (vnodes r).

Definition AddNodes (r : HashRing) (nodeIDs : list string) : HashRing :=
  let newNodes := filter (fun id => nodes r !! id = None) nodeIDs in
  match newNodes with
  | [] => r
  | _ => rebuildVnodes (foldl addNewNode r newNodes)
  end.

(** The loop of [RemoveNode] that renumbers the remaining nodes. *)
Fixpoint renumber (idx : Z) (ids : list string) (ns : gmap string Z) : gmap string Z :=
  match ids with
  | [] => ns
  | id :: rest => renumber (u32 (idx + 1)) rest (<[id := idx]> ns)
  end.

Definition RemoveNode (r : HashRing) (nodeID : string) : HashRing :=
  match nodes r !! nodeID with
  | None => r
  | Some _ =>
      let newNodeList := filter (fun id => id <> nodeID) (nodeList r) in
      rebuildVnodes (mkRing (renumber 0 newNodeList ∅) (delete nodeID (weights r))
                       newNodeList (vnodes r))
  end.

(** ** Lookup *)

(** The loop of [sort.Search]; [fuel] bounds the iterations. *)
Fixpoint searchLoop (fuel : nat) (f : nat -> bool) (i j : nat) : nat :=
  match fuel with
  | O => i
  | S fuel' =>
      if (i <? j)%nat then
        let h := ((i + j) / 2)%nat in
        if negb (f h) then searchLoop fuel' f (h + 1)%nat j else searchLoop fuel' f i h
      else i
  end.

(** [sort.Search(n, f)]: the interval shrinks at every iteration, so [n] are enough. *)
Definition Search (n : nat) (f : nat -> bool) : nat := searchLoop n f 0 n.

#[export] Instance vnode_inhabited : Inhabited vnode := populate (mkVnode 0 0).

Definition firstVnode (r : HashRing) (hash : Z) : nat :=
  Search (length (vnodes r)) (fun i => hash <=? vhash (vnodes r !!! i)).

(** [r.nodeList[r.vnodes[i].nodeIdx]]; [None] is the run-time panic of an index out of
    range. *)
Definition nodeAt (r : HashRing) (i : nat) : option string :=
  v ← vnodes r !! i; nodeList r !! Z.to_nat (nodeIdx v).

Definition GetNode (r : HashRing) (key : string) : option string :=
  if (length (vnodes r) =? 0)%nat then Some EmptyString
  else
    let hash := HashFuncSecure key in
    let idx := firstVnode r hash in
    let idx := if (idx =? length (vnodes r))%nat then 0%nat else idx in
    nodeAt r idx.

(** The clockwise walk: [n] vnodes are left, [i] have been passed. *)
Fixpoint ownersLoop (r : HashRing) (idx target n i : nat) (owners : list string)
    : option (list string) :=
  match n with
  | O => Some owners
  | S n' =>
      if (length owners <? target)%nat then
        node ← nodeAt r ((idx + i) mod length (vnodes r))%nat;
        ownersLoop r idx target n' (S i)
          (if bool_decide (node ∈ owners) then owners else owners ++ [node])
      else Some owners
  end.

Definition GetOwners (r : HashRing) (key : string) (replicationFactor : Z)
    : option (list string) :=
  if (length (vnodes r) =? 0)%nat then Some []
  else
    let target := if Z.of_nat (length (nodeList r)) <? replicationFactor
                  then Z.of_nat (length (nodeList r)) else replicationFactor in
    if target <=? 0 then Some []
    else
      let idx := firstVnode r (HashFuncSecure key) in
      ownersLoop r idx (Z.to_nat target) (length (vnodes r)) 0 [].

(** [GetNodes]: the keys of the node map, in unspecified order. *)
Definition GetNodes (r : HashRing) : list string := (map_to_list (nodes r)).*1.

(** ** The abstract ring: what routing promises, from the membership alone *)

(** The membership: each node with its configured weight. *)
Abbreviation membership := (gmap string Z).

Inductive ring_op :=
| OpJoin (id : string) (weight : Z)
| OpAddNodes (ids : list string)
| OpWeight (id : string) (weight : Z)
| OpLeave (id : string).

Definition ring_apply (r : HashRing) (o : ring_op) : HashRing :=
  match o with
  | OpJoin id w => AddNodeWithWeight r id w
  | OpAddNodes ids => AddNodes r ids
  | OpWeight id w => UpdateNodeWeight r id w
  | OpLeave id => RemoveNode r id
  end.

Definition ring_run (ops : list ring_op) : HashRing := foldl ring_apply NewHashRing ops.

Definition spec_apply (m : membership) (o : ring_op) : membership :=
  match o with
  | OpJoin id w => <[id := w]> m
  | OpAddNodes ids => foldl (fun m' id => <[id := defaultVnodes]> m') m
                        (filter (fun id => m !! id = None) ids)
  | OpWeight id w => match m !! id with Some _ => <[id := w]> m | None => m end
  | OpLeave id => delete id m
  end.

Definition spec_run (ops : list ring_op) : membership := foldl spec_apply ∅ ops.

(** Number of nodes a call can add; node indices are 32 bits wide. *)
Definition op_joins (o : ring_op) : nat :=
  match o with OpJoin _ _ => 1 | OpAddNodes ids => length ids | _ => 0 end.

Definition ops_ok (ops : list ring_op) : Prop :=
  Forall (fun o => match o with OpAddNodes ids => NoDup ids | _ => True end) ops /\
  Z.of_nat (sum_list_with op_joins ops) <= 2 ^ 32.

(** A position of the circle with the node that owns it. *)
Abbreviation pos := (Z * string)%type.

Definition nodePositions (m : membership) (id : string) : list pos :=
  (fun j => (HashFuncSecure (vnodeName id j), id)) <$> seq 0 (Z.to_nat (weightOf m id)).

Definition positions (m : membership) (ids : list string) : list pos :=
  ids ≫= nodePositions m.

Definition pos_le (a b : pos) : Prop := a.1 <= b.1.
#[export] Instance pos_le_dec : RelDecision pos_le.
Proof. intros a b. unfold pos_le. apply _. Defined.

(** The order in which a walk from hash [h] meets the nodes. *)
Definition clockwise (h : Z) (l : list pos) : list string :=
  (filter (fun p => h <= p.1) l ++ filter (fun p => p.1 < h) l).*2.

(** First occurrences only. *)
Definition addNew (acc : list string) (x : string) : list string :=
  if bool_decide (x ∈ acc) then acc else acc ++ [x].
Definition nub (l : list string) : list string := foldl addNew [] l.

Definition circle (m : membership) : list pos :=
  merge_sort pos_le (positions m (map_to_list m).*1).

(** The preference list of a key and its first [rf] members. *)
Definition preference (m : membership) (key : string) : list string :=
  nub (clockwise (HashFuncSecure key) (circle m)).

Definition spec_owners (m : membership) (key : string) (rf : Z) : list string :=
  take (Z.to_nat rf) (preference m key).

(** No two nodes share a position of the circle. *)
Definition distinct_positions (m : membership) : Prop :=
  forall p q, p ∈ circle m -> q ∈ circle m -> p.1 = q.1 -> p = q.

(** ** The binary search *)

(** The contract of [sort.Search]: a predicate false below [n] and true from [n] on is
    located exactly, whatever the interval. *)
Lemma searchLoop_split f n fuel i j :
  (forall k, (i <= k < j)%nat -> f k = (n <=? k)%nat) ->
  (i <= n <= j)%nat -> (j - i <= fuel)%nat -> searchLoop fuel f i j = n.
Proof.
  revert i j. induction fuel as [|fuel IH]; intros i j Hf Hn Hfuel; cbn [searchLoop]; [lia|].
  destruct (Nat.ltb_spec i j) as [Hlt|]; [|lia].
  set (h := ((i + j) / 2)%nat).
  assert (i <= h < j)%nat as Hh.
  { unfold h. split; [apply Nat.div_le_lower_bound|apply Nat.Div0.div_lt_upper_bound]; lia. }
  rewrite (Hf h) by lia. destruct (Nat.leb_spec n h); simpl; apply IH; intros; try apply Hf; lia.
Qed.

(** On a sorted list the search splits it at the first position not below [h]. *)
Lemma Search_sorted (l : list vnode) h :
  StronglySorted vnode_le l ->
  exists idx, Search (length l) (fun i => h <=? vhash (l !!! i)) = idx /\
  (idx <= length l)%nat /\
  take idx l = filter (fun v => vhash v < h) l /\ drop idx l = filter (fun v => h <= vhash v) l.
Proof.
  intros Hs.
  assert (exists n, (n <= length l)%nat /\ take n l = filter (fun v => vhash v < h) l /\
    drop n l = filter (fun v => h <= vhash v) l) as (n & Hn & Ht & Hd).
  { induction Hs as [|v l Hs IH Hv]; [by exists 0%nat|].
    rewrite !filter_cons. destruct (decide (vhash v < h)).
    - destruct IH as (n & Hn & Ht & Hd). exists (S n). simpl.
      rewrite decide_False by lia. split; [lia|]. by rewrite Ht.
    - exists 0%nat. simpl. rewrite decide_True by lia.
      assert (Forall (fun w => h <= vhash w) l) as Hall.
      { eapply Forall_impl; [exact Hv|]. unfold vnode_le. simpl. lia. }
      split; [lia|]. rewrite (filter_all (fun v => h <= vhash v) l) by done. split; [|done].
      symmetry. apply filter_none. eapply Forall_impl; [exact Hall|]. simpl. lia. }
  exists n. split; [|done]. apply searchLoop_split; [|lia..].
  intros k Hk. pose proof (list_lookup_lookup_total_lt l k ltac:(lia)) as Hl.
  destruct (Nat.leb_spec n k).
  - assert (l !!! k ∈ drop n l) as Hin.
    { apply list_elem_of_lookup. exists (k - n)%nat. rewrite lookup_drop.
      by replace (n + (k - n))%nat with k by lia. }
    rewrite Hd in Hin. apply list_elem_of_filter in Hin. lia.
  - assert (l !!! k ∈ take n l) as Hin.
    { apply list_elem_of_lookup. exists k. by rewrite lookup_take_lt by lia. }
    rewrite Ht in Hin. apply list_elem_of_filter in Hin. lia.
Qed.

(** ** The walk *)

Lemma addNew_prefix acc l : acc `prefix_of` foldl addNew acc l.
Proof.
  revert acc. induction l as [|x l IH]; intros acc; simpl; [done|].
  etrans; [|apply IH]. unfold addNew. case_bool_decide; [done|]. by eexists.
Qed.

(** The loop with its early exit is the first [target] entries of the full pass. *)
Lemma ownersLoop_take r idx target n i owners l :
  (forall k, (k < n)%nat -> nodeAt r ((idx + (i + k)) mod length (vnodes r))%nat = l !! k) ->
  length l = n -> (length owners <= target)%nat ->
  ownersLoop r idx target n i owners = Some (take target (foldl addNew owners l)).
Proof.
  revert i owners l. induction n as [|n IH]; intros i owners l Hat Hl Ho; simpl.
  - destruct l; [|done]. simpl. by rewrite take_ge.
  - destruct l as [|x l]; [done|]. simpl in *.
    destruct (Nat.ltb_spec (length owners) target).
    + pose proof (Hat 0%nat ltac:(lia)) as H0. rewrite Nat.add_0_r in H0. rewrite H0. simpl.
      change (if bool_decide (x ∈ owners) then owners else owners ++ [x]) with (addNew owners x).
      apply IH; [|lia|].
      * intros k Hk. etrans; [|apply (Hat (S k)); lia]. do 2 f_equal. lia.
      * unfold addNew. case_bool_decide; [lia|]. rewrite length_app. simpl. lia.
    + assert (length owners = target) as <- by lia.
      destruct (addNew_prefix owners (x :: l)) as [k Hk]. simpl in Hk. rewrite Hk.
      by rewrite take_app_length.
Qed.

Lemma foldl_addNew_elem acc l x : x ∈ foldl addNew acc l <-> x ∈ acc \/ x ∈ l.
Proof.
  revert acc. induction l as [|y l IH]; intros acc; simpl.
  - rewrite elem_of_nil. tauto.
  - rewrite IH, elem_of_cons. unfold addNew. case_bool_decide.
    + naive_solver.
    + rewrite elem_of_app, list_elem_of_singleton. tauto.
Qed.

Lemma foldl_addNew_NoDup acc l : NoDup acc -> NoDup (foldl addNew acc l).
Proof.
  revert acc. induction l as [|y l IH]; intros acc Hacc; simpl; [done|].
  apply IH. unfold addNew. case_bool_decide; [done|].
  apply NoDup_app. split_and!; [done| |apply NoDup_singleton].
  intros z Hz ->%list_elem_of_singleton. done.
Qed.

Lemma nub_elem l x : x ∈ nub l <-> x ∈ l.
Proof. unfold nub. rewrite foldl_addNew_elem, elem_of_nil. tauto. Qed.

Lemma nub_NoDup l : NoDup (nub l).
Proof. apply foldl_addNew_NoDup, NoDup_nil_2. Qed.

Lemma nub_cons_prefix x l : [x] `prefix_of` nub (x :: l).
Proof. apply (addNew_prefix [x]). Qed.

(** Dropping a node from the walk drops it from the preference list and moves no other. *)
Lemma foldl_addNew_filter (P : string -> Prop) `{!forall x, Decision (P x)} acc l :
  filter P (foldl addNew acc l) = foldl addNew (filter P acc) (filter P l).
Proof.
  revert acc. induction l as [|y l IH]; intros acc; [done|]. cbn [foldl]. rewrite IH.
  assert (filter P (addNew acc y) =
    if decide (P y) then addNew (filter P acc) y else filter P acc) as ->.
  { unfold addNew. rewrite (bool_decide_ext _ (y ∈ filter P acc \/ (y ∈ acc /\ ~ P y)))
      by (rewrite list_elem_of_filter; destruct (decide (P y)); tauto).
    case_decide; repeat case_bool_decide;
      rewrite ?list.filter_app, ?filter_cons_True, ?filter_cons_False, ?filter_nil, ?app_nil_r
        by done; try done; tauto. }
  rewrite (filter_cons P y l). by case_decide.
Qed.

Lemma nub_filter (P : string -> Prop) `{!forall x, Decision (P x)} l :
  filter P (nub l) = nub (filter P l).
Proof. apply (foldl_addNew_filter P []). Qed.

(** ** The invariant *)

(** The index of a node in [nodes] is its place in [nodeList], the two hold the members of
    [m] once each, and no more than [n] nodes ever joined. *)
Record members_ok (r : HashRing) (m : membership) (n : nat) : Prop := {
  mo_nodup : NoDup (nodeList r);
  mo_index : forall i id, nodeList r !! i = Some id -> nodes r !! id = Some (Z.of_nat i);
  mo_nodes : forall id, is_Some (nodes r !! id) <-> id ∈ nodeList r;
  mo_dom : forall id, is_Some (m !! id) <-> id ∈ nodeList r;
  mo_weights : weights r = m;
  mo_length : (length (nodeList r) <= n)%nat
}.

(** The positions are the sorted positions of the current members. *)
Definition ring_ok (r : HashRing) (m : membership) (n : nat) : Prop :=
  members_ok r m n /\ vnodes r = vnodes (rebuildVnodes r).

Lemma rebuild_ok r m n : members_ok r m n -> ring_ok (rebuildVnodes r) m n.
Proof. intros []. split; [by constructor|done]. Qed.

Lemma members_mono r m n n' : members_ok r m n -> (n <= n')%nat -> members_ok r m n'.
Proof. intros [] ?. constructor; try done. lia. Qed.

(** Appending a node that is not yet a member. *)
Lemma members_append r m n id w :
  members_ok r m n -> m !! id = None -> Z.of_nat (S n) <= 2 ^ 32 ->
  members_ok (mkRing (<[id := u32 (Z.of_nat (length (nodeList r)))]> (nodes r))
                (<[id := w]> (weights r)) (nodeList r ++ [id]) (vnodes r))
    (<[id := w]> m) (S n).
Proof.
  intros [Hnd Hidx Hns Hdom Hw Hlen] Hid Hn.
  assert (id ∉ nodeList r) as Hnew by (rewrite <- Hdom, Hid; apply is_Some_None).
  rewrite u32_small by lia. constructor; simpl.
  - apply NoDup_app. split_and!; [done| |apply NoDup_singleton].
    intros x Hx ->%list_elem_of_singleton. done.
  - intros i x [Hi|[-> Hx]]%lookup_snoc_Some; [|subst; by rewrite lookup_insert_eq].
    destruct Hi as [_ Hi]. rewrite lookup_insert_ne; [auto|].
    intros ->. apply Hnew. by eapply list_elem_of_lookup_2.
  - intros x. rewrite elem_of_app, list_elem_of_singleton, <- Hns, lookup_insert_is_Some. naive_solver.
  - intros x. rewrite elem_of_app, list_elem_of_singleton, <- Hdom, lookup_insert_is_Some. naive_solver.
  - by rewrite Hw.
  - rewrite length_app. simpl. lia.
Qed.

(** Changing the weight of a member. *)
Lemma members_reweigh r m n id w :
  members_ok r m n -> is_Some (m !! id) ->
  members_ok (mkRing (nodes r) (<[id := w]> (weights r)) (nodeList r) (vnodes r))
    (<[id := w]> m) n.
Proof.
  intros [Hnd Hidx Hns Hdom Hw Hlen] Hid. constructor; simpl; try done.
  - intros x. rewrite <- Hdom, lookup_insert_is_Some. destruct (decide (id = x)); naive_solver.
  - by rewrite Hw.
Qed.

Lemma members_AddNodes r m n ids :
  members_ok r m n -> NoDup ids -> Forall (fun id => m !! id = None) ids ->
  Z.of_nat (n + length ids) <= 2 ^ 32 ->
  members_ok (foldl addNewNode r ids)
    (foldl (fun m' id => <[id := defaultVnodes]> m') m ids) (n + length ids).
Proof.
  intros Hr Hnd. revert r m n Hr. induction Hnd as [|id ids Hid Hnd IH]; intros r m n Hr Hnew Hn.
  - simpl. by rewrite Nat.add_0_r.
  - inversion Hnew as [|? ? H1 H2]; subst. simpl in *.
    replace (n + S (length ids))%nat with (S n + length ids)%nat by lia.
    apply IH; [apply members_append; (done || lia)| |lia].
    rewrite list.Forall_forall in H2 |- *. intros x Hx.
    rewrite lookup_insert_ne; [auto|congruence].
Qed.

(** The renumbering loop gives every remaining node its place in the new list. *)
Lemma renumber_lookup ids idx ns id :
  NoDup ids -> 0 <= idx -> idx + Z.of_nat (length ids) <= 2 ^ 32 ->
  renumber idx ids ns !! id =
    match list_find (fun x => x = id) ids with
    | Some (i, _) => Some (idx + Z.of_nat i)
    | None => ns !! id
    end.
Proof.
  intros Hnd. revert idx ns. induction Hnd as [|x ids Hx Hnd IH]; intros idx ns H0 Hb; [done|].
  cbn [renumber length list_find] in *.
  destruct (decide (ids = [])) as [->|Hne].
  { cbn. case_decide; subst; [by rewrite lookup_insert_eq, Z.add_0_r|by rewrite lookup_insert_ne]. }
  assert (length ids > 0)%nat by (destruct ids; [done|simpl; lia]).
  rewrite u32_small by lia. rewrite IH by lia.
  case_decide as Ex; subst.
  - rewrite (proj2 (list_find_None _ _)).
    + by rewrite lookup_insert_eq, Z.add_0_r.
    + rewrite list.Forall_forall. by intros z Hz ->.
  - rewrite lookup_insert_ne by done.
    destruct (list_find _ ids) as [[i z]|]; simpl; [f_equal; lia|done].
Qed.

Lemma members_remove r m n id :
  members_ok r m n -> Z.of_nat n <= 2 ^ 32 ->
  members_ok (mkRing (renumber 0 (filter (fun x => x <> id) (nodeList r)) ∅)
                (delete id (weights r)) (filter (fun x => x <> id) (nodeList r)) (vnodes r))
    (delete id m) n.
Proof.
  intros [Hnd Hidx Hns Hdom Hw Hlen] Hn.
  set (l := filter (fun x => x <> id) (nodeList r)).
  assert (NoDup l) as Hl by by apply NoDup_filter.
  assert (length l <= n)%nat as Hll.
  { unfold l. etrans; [|exact Hlen]. apply length_filter. }
  assert (forall x, renumber 0 l ∅ !! x =
    match list_find (fun y => y = x) l with
    | Some (i, _) => Some (Z.of_nat i) | None => None end) as Hren.
  { intros x. rewrite renumber_lookup by (done || lia). destruct list_find as [[]|]; done. }
  constructor; simpl; fold l; try done.
  - intros i x Hi. rewrite Hren, (proj2 (list_find_Some _ l i x)); [done|].
    split_and!; [done..|]. intros j y Hj Hlt ->. assert (i = j); [|lia].
    by eapply NoDup_lookup.
  - intros x. rewrite Hren. split.
    + destruct list_find as [[i y]|] eqn:E; [|by intros []].
      apply list_find_Some in E as (Hi & -> & _). intros _. by eapply list_elem_of_lookup_2.
    + intros Hx. destruct (list_find_elem_of (fun y => y = x) l x) as [[i y] ->]; [done..|].
      by eexists.
  - intros x. unfold l. rewrite list_elem_of_filter, <- Hdom, lookup_delete_is_Some. naive_solver.
  - by rewrite Hw.
Qed.

Lemma ring_apply_ok r m n o :
  ring_ok r m n -> match o with OpAddNodes ids => NoDup ids | _ => True end ->
  Z.of_nat (n + op_joins o) <= 2 ^ 32 ->
  ring_ok (ring_apply r o) (spec_apply m o) (n + op_joins o).
Proof.
  intros [Hm Hv] Ho Hn.
  assert (forall id, nodes r !! id = None <-> m !! id = None) as Hnone.
  { intros id. rewrite !eq_None_not_Some, (mo_nodes _ _ _ Hm), (mo_dom _ _ _ Hm). done. }
  destruct o as [id w|ids|id w|id]; simpl in *.
  - unfold AddNodeWithWeight. destruct (nodes r !! id) eqn:E; apply rebuild_ok.
    + apply members_mono with n; [|lia]. apply members_reweigh; [done|].
      rewrite (mo_dom _ _ _ Hm), <- (mo_nodes _ _ _ Hm), E. by eexists.
    + rewrite Nat.add_1_r. apply members_append; [done|by apply Hnone|lia].
  - unfold AddNodes.
    rewrite (list_filter_iff (fun id => nodes r !! id = None) (fun id => m !! id = None) ids)
      by apply Hnone.
    pose proof (length_filter (fun id => m !! id = None) ids) as Hlf.
    assert (Forall (fun id => m !! id = None) (filter (fun id => m !! id = None) ids)) as Hf.
    { rewrite list.Forall_forall. by intros x [? _]%list_elem_of_filter. }
    pose proof (NoDup_filter (fun id => m !! id = None) ids Ho) as Hnd.
    set (new := filter (fun id => m !! id = None) ids) in *.
    destruct new as [|x l] eqn:E.
    + split; [|done]. apply members_mono with n; [done|lia].
    + rewrite <- E in *. apply rebuild_ok.
      apply members_mono with (n + length new)%nat; [|lia].
      apply members_AddNodes; (done || lia).
  - unfold UpdateNodeWeight. rewrite Nat.add_0_r. destruct (nodes r !! id) eqn:E.
    + assert (is_Some (m !! id)) as [w' Hw']
        by (rewrite (mo_dom _ _ _ Hm), <- (mo_nodes _ _ _ Hm), E; by eexists).
      rewrite Hw'. apply rebuild_ok, members_reweigh; [done|by eexists].
    + apply Hnone in E. by rewrite E.
  - unfold RemoveNode. rewrite Nat.add_0_r in *. destruct (nodes r !! id) eqn:E.
    + apply rebuild_ok, members_remove; [done|lia].
    + apply Hnone in E. by rewrite delete_id.
Qed.

Lemma ring_run_ok ops :
  ops_ok ops -> ring_ok (ring_run ops) (spec_run ops) (sum_list_with op_joins ops).
Proof.
  induction ops as [|o ops IH] using rev_ind; intros [Hf Hn].
  - assert (forall id, is_Some ((∅ : membership) !! id) <-> id ∈ ([] : list string)) as He.
    { intros id. rewrite lookup_empty. split; [by intros []|by intros ?%elem_of_nil]. }
    split; [|done]. constructor; [apply NoDup_nil_2|done|exact He|exact He|done|apply Nat.le_0_l].
  - apply Forall_app in Hf as [Hf Ho]. rewrite list.Forall_singleton in Ho.
    rewrite sum_list_with_app in *. cbn [sum_list_with] in *.
    unfold ring_run, spec_run. rewrite !foldl_snoc, Nat.add_0_r.
    apply ring_apply_ok; [apply IH; split; [done|lia]|done|lia].
Qed.

(** ** Routing *)

(** Where the ring's arrays place each position. *)
Definition resolve (r : HashRing) (v : vnode) : pos :=
  (vhash v, nodeList r !!! Z.to_nat (nodeIdx v)).

#[export] Instance vnode_le_trans : Transitive vnode_le.
Proof. intros ???. unfold vnode_le. lia. Qed.
#[export] Instance vnode_le_total : Total vnode_le.
Proof. intros ??. unfold vnode_le. lia. Qed.
#[export] Instance pos_le_trans : Transitive pos_le.
Proof. intros ???. unfold pos_le. lia. Qed.
#[export] Instance pos_le_total : Total pos_le.
Proof. intros ??. unfold pos_le. lia. Qed.

Lemma nodeVnodes_resolve r m n id :
  members_ok r m n -> id ∈ nodeList r ->
  resolve r <$> nodeVnodes (nodes r) (weights r) id = nodePositions m id.
Proof.
  intros Hm [i Hi]%list_elem_of_lookup. unfold nodeVnodes, nodePositions.
  rewrite <- list_fmap_compose, (mo_weights _ _ _ Hm). apply list_fmap_ext. intros _ j _.
  unfold compose, resolve. cbn [vhash nodeIdx]. rewrite (mo_index _ _ _ Hm i id Hi).
  cbn [from_option]. unfold Datatypes.id. rewrite Nat2Z.id. by rewrite (list_lookup_total_correct _ _ _ Hi).
Qed.

Lemma map_keys_elem (m : membership) id : id ∈ (map_to_list m).*1 <-> is_Some (m !! id).
Proof.
  rewrite list_elem_of_fmap. split.
  - intros [[id' w] [-> Hw%elem_of_map_to_list]]. by eexists.
  - intros [w Hw]. exists (id, w). split; [done|by apply elem_of_map_to_list].
Qed.

Lemma map_keys_NoDup_perm (m : membership) (l : list string) :
  NoDup l -> (forall id, id ∈ l <-> is_Some (m !! id)) -> l ≡ₚ (map_to_list m).*1.
Proof.
  intros Hnd Hl. apply NoDup_Permutation; [done|apply NoDup_fst_map_to_list|].
  intros id. by rewrite Hl, map_keys_elem.
Qed.

Section Routing.
Context (r : HashRing) (m : membership) (n : nat).
Context (Hr : ring_ok r m n).

Let Hm : members_ok r m n := proj1 Hr.

Lemma vnodes_sorted : StronglySorted vnode_le (vnodes r).
Proof. rewrite (proj2 Hr). apply StronglySorted_merge_sort; apply _. Qed.

Lemma vnodes_perm :
  vnodes r ≡ₚ nodeList r ≫= nodeVnodes (nodes r) (weights r).
Proof. rewrite (proj2 Hr) at 1. apply merge_sort_Permutation. Qed.

Lemma resolved_perm : resolve r <$> vnodes r ≡ₚ positions m (nodeList r).
Proof.
  rewrite vnodes_perm. unfold positions.
  assert (forall l, l ⊆ nodeList r -> resolve r <$> (l ≫= nodeVnodes (nodes r) (weights r)) =
    l ≫= nodePositions m) as Hl; [|by rewrite Hl].
  induction l as [|id l IH]; intros Hsub; [done|]. cbn [mbind list_bind].
  rewrite fmap_app. f_equal; [|apply IH; set_solver].
  eapply nodeVnodes_resolve; [exact Hm|set_solver].
Qed.

Lemma members_list_perm : nodeList r ≡ₚ (map_to_list m).*1.
Proof.
  apply map_keys_NoDup_perm; [apply Hm|]. intros id. by rewrite (mo_dom _ _ _ Hm).
Qed.

Lemma resolved_circle :
  distinct_positions m -> resolve r <$> vnodes r = circle m.
Proof.
  intros Hd.
  assert (resolve r <$> vnodes r ≡ₚ circle m) as Hp.
  { rewrite resolved_perm. unfold circle. rewrite merge_sort_Permutation.
    unfold positions. by rewrite members_list_perm. }
  apply (StronglySorted_unique_strong pos_le); [| | |done].
  - intros p q Hp1 Hq. unfold pos_le. intros. apply Hd; [|done|lia]. by rewrite <- Hp.
  - generalize vnodes_sorted. generalize (vnodes r) as l.
    induction 1 as [|v l Hs IH Hv]; [constructor|]. cbn. constructor; [done|].
    by apply list.Forall_fmap.
  - apply StronglySorted_merge_sort; apply _.
Qed.

(** The index the walk reads is always in range, and names the resolved node. *)
Lemma nodeAt_resolve i :
  (i < length (vnodes r))%nat -> nodeAt r i = snd <$> ((resolve r <$> vnodes r) !! i).
Proof.
  intros Hi. unfold nodeAt. rewrite list_lookup_fmap.
  destruct (vnodes r !! i) as [v|] eqn:Ev; [|by apply lookup_ge_None in Ev; lia].
  ored. cbn [resolve snd].
  assert (v ∈ vnodes r) as Hin by by eapply list_elem_of_lookup_2.
  rewrite vnodes_perm in Hin. apply list_elem_of_bind in Hin as (id & Hv & [k Hk]%list_elem_of_lookup).
  apply list_elem_of_fmap in Hv as (j & -> & _). cbn [nodeIdx vhash].
  rewrite (mo_index _ _ _ Hm k id Hk). cbn [from_option]. unfold Datatypes.id. rewrite Nat2Z.id.
  rewrite Hk. by rewrite (list_lookup_total_correct _ _ _ Hk).
Qed.

(** The walk of length [length (vnodes r)] from the position found by the search meets the
    nodes in clockwise order. *)
Lemma walk_clockwise h k :
  (k < length (vnodes r))%nat ->
  nodeAt r ((firstVnode r h + k) mod length (vnodes r))%nat =
    clockwise h (resolve r <$> vnodes r) !! k.
Proof.
  intros Hk. unfold firstVnode.
  destruct (Search_sorted (vnodes r) h vnodes_sorted) as (idx & -> & Hle & Ht & Hd).
  rewrite nodeAt_resolve by (apply Nat.mod_upper_bound; lia).
  unfold clockwise. rewrite !filter_fmap. cbn [resolve fst].
  rewrite <- Ht, <- Hd, <- fmap_app, !list_lookup_fmap. do 2 f_equal.
  destruct (decide (idx + k < length (vnodes r))%nat) as [Hlt|Hge].
  - rewrite Nat.mod_small by done. rewrite lookup_app_l by (rewrite length_drop; lia).
    by rewrite lookup_drop.
  - rewrite lookup_app_r by (rewrite length_drop; lia). rewrite length_drop.
    replace ((idx + k) mod length (vnodes r))%nat with (k - (length (vnodes r) - idx))%nat.
    + symmetry. apply lookup_take_lt. lia.
    + apply (Nat.mod_unique _ _ 1); lia.
Qed.

Lemma clockwise_length h l : length (clockwise h l) = length l.
Proof.
  unfold clockwise. rewrite length_fmap, length_app.
  induction l as [|p l IH]; [done|]. rewrite !filter_cons.
  destruct (decide (h <= p.1)), (decide (p.1 < h)); cbn [length]; lia.
Qed.

(** The nodes the walk collects, in order of first appearance. *)
Definition ringPreference (key : string) : list string :=
  nub (clockwise (HashFuncSecure key) (resolve r <$> vnodes r)).

Lemma clockwise_elem h l x : x ∈ clockwise h l <-> x ∈ l.*2.
Proof.
  unfold clockwise. rewrite !list_elem_of_fmap. split; intros (p & -> & Hp); exists p; split; auto.
  - apply elem_of_app in Hp. rewrite !list_elem_of_filter in Hp. tauto.
  - apply elem_of_app. rewrite !list_elem_of_filter. destruct (decide (h <= p.1)); [tauto|].
    right. split; [lia|done].
Qed.

(** A node is met exactly when it is a member with a positive weight. *)
Lemma ringPreference_elem key x :
  x ∈ ringPreference key <-> x ∈ nodeList r /\ 0 < weightOf m x.
Proof.
  unfold ringPreference. rewrite nub_elem, clockwise_elem, resolved_perm. unfold positions.
  rewrite list_elem_of_fmap. split.
  - intros ([h y] & -> & Hp). apply list_elem_of_bind in Hp as (id & Hp & Hid).
    apply list_elem_of_fmap in Hp as (j & [= -> ->] & Hj%elem_of_seq). cbn [snd]. split; [done|lia].
  - intros [Hx Hw]. exists (HashFuncSecure (vnodeName x 0), x). split; [done|].
    apply list_elem_of_bind. exists x. split; [|done]. apply list_elem_of_fmap.
    exists 0%nat. split; [done|]. apply elem_of_seq. lia.
Qed.

Lemma ringPreference_length key : (length (ringPreference key) <= length (nodeList r))%nat.
Proof.
  apply submseteq_length, NoDup_submseteq; [apply nub_NoDup|].
  intros x Hx. by apply ringPreference_elem in Hx as [? _].
Qed.

(** [GetOwners] never panics and returns the first members of the preference list. *)
Lemma GetOwners_preference key rf :
  GetOwners r key rf = Some (take (Z.to_nat rf) (ringPreference key)).
Proof.
  unfold GetOwners. destruct (Nat.eqb_spec (length (vnodes r)) 0) as [E|E].
  { unfold ringPreference. apply nil_length_inv in E as ->. cbn. by rewrite take_nil. }
  set (target := if _ <? rf then _ else rf).
  assert (take (Z.to_nat rf) (ringPreference key) = take (Z.to_nat target) (ringPreference key)) as ->.
  { unfold target. destruct (Z.ltb_spec (Z.of_nat (length (nodeList r))) rf); [|done].
    pose proof (ringPreference_length key). rewrite !take_ge by lia. done. }
  destruct (Z.leb_spec target 0).
  { replace (Z.to_nat target) with 0%nat by lia. done. }
  apply ownersLoop_take; [|by rewrite clockwise_length, length_fmap|apply Nat.le_0_l].
  intros k Hk. rewrite Nat.add_0_l. by apply walk_clockwise.
Qed.

(** [GetNode] never panics and is the head of the preference list. *)
Lemma GetNode_preference key :
  GetNode r key = Some (default EmptyString (head (ringPreference key))).
Proof.
  unfold GetNode. destruct (Nat.eqb_spec (length (vnodes r)) 0) as [E|E].
  { unfold ringPreference. by apply nil_length_inv in E as ->. }
  pose proof (walk_clockwise (HashFuncSecure key) 0 ltac:(lia)) as Hw.
  rewrite Nat.add_0_r in Hw.
  assert (firstVnode r (HashFuncSecure key) <= length (vnodes r))%nat as Hle.
  { unfold firstVnode.
    destruct (Search_sorted (vnodes r) (HashFuncSecure key) vnodes_sorted) as (? & -> & ? & _).
    done. }
  assert ((if (firstVnode r (HashFuncSecure key) =? length (vnodes r))%nat then 0%nat
    else firstVnode r (HashFuncSecure key)) =
    firstVnode r (HashFuncSecure key) mod length (vnodes r))%nat as ->.
  { destruct (Nat.eqb_spec (firstVnode r (HashFuncSecure key)) (length (vnodes r))) as [->|].
    - by rewrite Nat.Div0.mod_same.
    - rewrite Nat.mod_small; lia. }
  rewrite Hw. unfold ringPreference.
  assert (length (clockwise (HashFuncSecure key) (resolve r <$> vnodes r)) <> 0%nat) as Hlen
    by by rewrite clockwise_length, length_fmap.
  destruct (clockwise _ _) as [|x l]; [done|].
  destruct (nub_cons_prefix x l) as [k ->]. done.
Qed.

End Routing.

(** ** Membership changes *)

(** Deleting a node deletes its positions and leaves the others where they were. *)
Lemma positions_delete (m : membership) id ids :
  positions (delete id m) (filter (fun x => x <> id) ids) =
    filter (fun p => p.2 <> id) (positions m ids).
Proof.
  induction ids as [|x ids IH]; [done|]. unfold positions in *. cbn [mbind list_bind].
  rewrite list.filter_app, <- IH, filter_cons. case_decide as Hx.
  - rewrite (filter_all _ (nodePositions m x)).
    + cbn [mbind list_bind]. f_equal. unfold nodePositions, weightOf.
      by rewrite lookup_delete_ne.
    + rewrite list.Forall_forall. by intros p (j & -> & _)%list_elem_of_fmap.
  - rewrite (filter_none _ (nodePositions m x)); [done|]. rewrite list.Forall_forall.
    intros p (j & -> & _)%list_elem_of_fmap. cbn. tauto.
Qed.

Lemma circle_delete (m : membership) id :
  distinct_positions m -> circle (delete id m) = filter (fun p => p.2 <> id) (circle m).
Proof.
  intros Hd.
  assert (circle (delete id m) ≡ₚ filter (fun p => p.2 <> id) (circle m)) as Hp.
  { unfold circle. rewrite !merge_sort_Permutation, <- positions_delete.
    unfold positions. apply bind_Permutation. symmetry. apply map_keys_NoDup_perm.
    - apply NoDup_filter, NoDup_fst_map_to_list.
    - intros x. rewrite list_elem_of_filter, map_keys_elem, lookup_delete_is_Some. naive_solver. }
  apply (StronglySorted_unique_strong pos_le); [| | |done].
  - intros p q Hp1 Hq. unfold pos_le. intros. apply list_elem_of_filter in Hq as [_ Hq].
    rewrite Hp in Hp1. apply list_elem_of_filter in Hp1 as [_ Hp1]. apply Hd; [done..|lia].
  - apply StronglySorted_merge_sort; apply _.
  - apply StronglySorted_filter, StronglySorted_merge_sort; apply _.
Qed.

Lemma filter_filter_comm {A} (P Q : A -> Prop) `{!forall x, Decision (P x)}
    `{!forall x, Decision (Q x)} (l : list A) :
  filter P (filter Q l) = filter Q (filter P l).
Proof.
  induction l as [|x l IH]; [done|]. rewrite (filter_cons P), (filter_cons Q).
  repeat case_decide; rewrite ?filter_cons_True, ?filter_cons_False by done; by rewrite ?IH.
Qed.

Lemma preference_delete (m : membership) id key :
  distinct_positions m ->
  preference (delete id m) key = filter (fun x => x <> id) (preference m key).
Proof.
  intros Hd. unfold preference. rewrite nub_filter. f_equal. unfold clockwise.
  rewrite circle_delete by done. rewrite filter_fmap, list.filter_app.
  f_equal. f_equal; apply filter_filter_comm.
Qed.

Lemma GetOwners_spec ops key rf :
  ops_ok ops -> distinct_positions (spec_run ops) ->
  GetOwners (ring_run ops) key rf = Some (spec_owners (spec_run ops) key rf).
Proof.
  intros Hok%ring_run_ok Hd. erewrite GetOwners_preference by exact Hok.
  unfold ringPreference. by erewrite resolved_circle by done.
Qed.

Lemma GetNode_spec ops key :
  ops_ok ops -> distinct_positions (spec_run ops) ->
  GetNode (ring_run ops) key = Some (default EmptyString (head (preference (spec_run ops) key))).
Proof.
  intros Hok%ring_run_ok Hd. erewrite GetNode_preference by exact Hok.
  unfold ringPreference. by erewrite resolved_circle by done.
Qed.

(** Executable test of [distinct_positions]. *)
Definition distinct_positionsb (m : membership) : bool :=
  forallb (fun p => forallb (fun q => negb (p.1 =? q.1) || bool_decide (p = q)) (circle m))
    (circle m).

Lemma distinct_positionsb_sound m : distinct_positionsb m = true -> distinct_positions m.
Proof.
  unfold distinct_positionsb. rewrite forallb_forall. intros H p q Hp Hq E.
  apply list_elem_of_In, H in Hp. rewrite forallb_forall in Hp.
  apply list_elem_of_In, Hp in Hq. rewrite E, Z.eqb_refl in Hq. cbn in Hq.
  by apply bool_decide_eq_true in Hq.
Qed.

(** ** Properties *)

(** C10. Routing depends on the membership alone: whatever calls built a ring, if no two
    nodes share a position, [GetOwners] and [GetNode] never panic and return the
    clockwise preference list computed from the map of members and weights. Two nodes of a
    cluster that agree on the membership therefore route every key alike, in whatever
    order they learned of the members. *)
Theorem routing_refinement ops :
  ops_ok ops -> distinct_positions (spec_run ops) ->
  forall key rf,
    GetOwners (ring_run ops) key rf = Some (spec_owners (spec_run ops) key rf) /\
    GetNode (ring_run ops) key = Some (default EmptyString (head (preference (spec_run ops) key))).
Proof. intros Hok Hd key rf. split; [by apply GetOwners_spec|by apply GetNode_spec]. Qed.

(** Replica placement: [GetOwners] returns distinct members of positive weight, as
    many as the replication factor asks for or as there are, and its first entry is the
    node [GetNode] names. *)
Theorem owners_placement ops key rf :
  ops_ok ops -> 0 < rf ->
  exists owners,
    GetOwners (ring_run ops) key rf = Some owners /\ NoDup owners /\
    (forall id, id ∈ owners ->
      id ∈ nodeList (ring_run ops) /\ 0 < weightOf (weights (ring_run ops)) id) /\
    length owners = Nat.min (Z.to_nat rf)
      (length (filter (fun id => 0 < weightOf (weights (ring_run ops)) id)
         (nodeList (ring_run ops)))) /\
    GetNode (ring_run ops) key = Some (default EmptyString (head owners)).
Proof.
  intros Hok%ring_run_ok Hrf. set (r := ring_run ops) in *.
  pose proof (proj1 Hok) as Hm. rewrite (mo_weights _ _ _ Hm).
  exists (take (Z.to_nat rf) (ringPreference r key)).
  split_and!.
  - by eapply GetOwners_preference.
  - eapply sublist_NoDup; [apply nub_NoDup|apply sublist_take].
  - intros id Hid. eapply ringPreference_elem; [exact Hok|].
    eapply subseteq_take; exact Hid.
  - rewrite length_take. f_equal. apply Permutation_length, NoDup_Permutation.
    + apply nub_NoDup.
    + apply NoDup_filter, Hm.
    + intros id. rewrite ringPreference_elem by exact Hok. rewrite list_elem_of_filter. tauto.
  - erewrite GetNode_preference by exact Hok. do 2 f_equal.
    destruct (ringPreference r key); [by rewrite take_nil|].
    by replace (Z.to_nat rf) with (S (Z.to_nat (rf - 1))) by lia.
Qed.

(** C28. Minimal disruption when a node leaves: the owners of every key become the
    preference list it had before with that node removed, so a key the node did not own
    keeps its owners, and a key it owned keeps its other owners in order.  Assumed: no two
    nodes share a position of the circle, a 64-bit prefix of a SHA-256 hash
    ([distinct_positions]; with a shared position the owners of other keys may change), and
    the ring was built by at most 2^32 joins, none of which adds a name twice ([ops_ok]). *)
Theorem leave_minimal_disruption ops id key rf owners :
  ops_ok (ops ++ [OpLeave id]) -> distinct_positions (spec_run ops) ->
  GetOwners (ring_run ops) key rf = Some owners ->
  exists owners',
    GetOwners (ring_run (ops ++ [OpLeave id])) key rf = Some owners' /\
    filter (fun x => x <> id) owners `prefix_of` owners' /\
    (id ∉ owners -> owners' = owners).
Proof.
  intros Hok Hd Ho.
  assert (ops_ok ops) as Hok'.
  { destruct Hok as [Hf Hn]. apply Forall_app in Hf as [Hf _].
    rewrite sum_list_with_app in Hn. split; [done|lia]. }
  rewrite GetOwners_spec in Ho by done. injection Ho as <-.
  assert (spec_run (ops ++ [OpLeave id]) = delete id (spec_run ops)) as Hrun
    by (unfold spec_run; by rewrite foldl_snoc).
  assert (distinct_positions (delete id (spec_run ops))) as Hd'.
  { intros p q. rewrite circle_delete by done. rewrite !list_elem_of_filter.
    intros [_ ?] [_ ?]. by apply Hd. }
  exists (take (Z.to_nat rf) (filter (fun x => x <> id) (preference (spec_run ops) key))).
  split.
  { rewrite GetOwners_spec by (rewrite ?Hrun; done). unfold spec_owners.
    by rewrite Hrun, preference_delete. }
  unfold spec_owners. set (l := preference (spec_run ops) key).
  generalize (Z.to_nat rf) as k. induction l as [|x l IH]; intros k.
  - rewrite filter_nil, !take_nil. split; [apply prefix_nil|done].
  - destruct k as [|k]; [split; [apply prefix_nil|done]|].
    cbn [take]. rewrite !filter_cons. destruct (decide (x <> id)) as [Hx|Hx]; cbn [take].
    + destruct (IH k) as [Hp He]. split; [by apply prefix_cons|].
      intros Hin. f_equal. apply He. set_solver.
    + split; [|set_solver].
      destruct (IH k) as [Hp _]. etrans; [exact Hp|].
      rewrite <- (Nat.min_l k (S k)) at 1 by lia. rewrite <- take_take. apply prefix_take.
Qed.

(** Minimal disruption when a node joins: every key keeps its primary or moves to the
    new node, so data only moves to the node that joined. *)
Theorem join_minimal_disruption ops id w key :
  ops_ok (ops ++ [OpJoin id w]) -> spec_run ops !! id = None ->
  distinct_positions (spec_run (ops ++ [OpJoin id w])) ->
  GetNode (ring_run (ops ++ [OpJoin id w])) key = Some id \/
  GetNode (ring_run (ops ++ [OpJoin id w])) key = GetNode (ring_run ops) key.
Proof.
  intros Hok Hid Hd.
  assert (ops_ok ops) as Hok'.
  { destruct Hok as [Hf Hn]. apply Forall_app in Hf as [Hf _].
    rewrite sum_list_with_app in Hn. split; [done|lia]. }
  assert (spec_run (ops ++ [OpJoin id w]) = <[id := w]> (spec_run ops)) as Hrun
    by (unfold spec_run; by rewrite foldl_snoc).
  rewrite Hrun in Hd.
  assert (delete id (<[id := w]> (spec_run ops)) = spec_run ops) as Hdel
    by by rewrite delete_insert_id.
  assert (distinct_positions (spec_run ops)) as Hd'.
  { intros p q. rewrite <- Hdel. rewrite circle_delete by done. rewrite !list_elem_of_filter.
    intros [_ ?] [_ ?]. by apply Hd. }
  rewrite !GetNode_spec by (rewrite ?Hrun; done). rewrite Hrun.
  rewrite <- Hdel at 3. rewrite preference_delete by done.
  destruct (preference (<[id := w]> (spec_run ops)) key) as [|x l]; [by right|].
  destruct (decide (x = id)) as [->|Hx]; [by left|right].
  by rewrite filter_cons_True.
Qed.

Module Examples.

Definition three : list ring_op :=
  [OpJoin "n1" 2; OpJoin "n2" 3; OpWeight "n2" 2; OpJoin "n3" 2].

Lemma three_ok : ops_ok three.
Proof. split; [repeat constructor|by vm_compute]. Qed.

Lemma three_distinct : distinct_positions (spec_run three).
Proof. apply distinct_positionsb_sound. by vm_compute. Qed.

Lemma three_leave_ok : ops_ok (three ++ [OpLeave "n2"]).
Proof. split; [repeat constructor|by vm_compute]. Qed.

Lemma routing_refinement_witness :
  GetOwners (ring_run three) "user:7" 2 = Some (spec_owners (spec_run three) "user:7" 2).
Proof. exact (proj1 (routing_refinement three three_ok three_distinct "user:7" 2)). Defined.

Lemma owners_placement_witness :
  exists owners, GetOwners (ring_run three) "user:7" 5 = Some owners /\ NoDup owners /\
    length owners = 3%nat.
Proof.
  destruct (owners_placement three "user:7" 5 three_ok eq_refl) as (o & H1 & H2 & _ & H3 & _).
  exists o. split; [exact H1|]. split; [exact H2|]. rewrite H3. vm_compute. reflexivity.
Defined.

Lemma leave_minimal_disruption_witness :
  exists owners', GetOwners (ring_run (three ++ [OpLeave "n2"])) "user:7" 1 = Some owners'.
Proof.
  destruct (leave_minimal_disruption three "n2" "user:7" 1
    (default [] (GetOwners (ring_run three) "user:7" 1)) three_leave_ok three_distinct)
    as (o & H & _); [by vm_compute|]. exists o. exact H.
Defined.

Lemma join_minimal_disruption_witness :
  GetNode (ring_run (take 3 three ++ [OpJoin "n3" 2])) "user:7" = Some "n3"%string \/
  GetNode (ring_run (take 3 three ++ [OpJoin "n3" 2])) "user:7" =
    GetNode (ring_run (take 3 three)) "user:7".
Proof.
  apply (join_minimal_disruption (take 3 three) "n3" 2 "user:7");
    [exact three_ok|by vm_compute|exact three_distinct].
Defined.

End Examples.

End HashRing.
