(* ===== verification/Fs.v ===== *)
(** * Files, faults and buffered output

    The part of the operating system and of Go's [os], [io] and [bufio] packages that the
    write-ahead log and the snapshots use.

    A file name leads to an inode; an open file refers to its inode whatever happens to the
    name.  An inode has the contents programs see ([data]) and the contents known to be on
    the medium ([stable]), which [Sync] brings up to date.  A change of the directory is seen
    at once but reaches the medium at a time of its own, unless the directory is synced, which
    the program never does: the directories that a crash may still bring back are kept in
    [was].  Every system call reads one
    [outcome] from an oracle: it succeeds, fails after part of its effect, or the machine
    stops there.  A theorem that quantifies over the oracle covers every combination of
    failures and crash points; an exhausted oracle means success. *)

From S2P Require Import Prelude.

Record inode := mkInode { data : bytes; stable : bytes }.

Record FS := mkFS {
  dir : gmap string nat;
  inodes : gmap nat inode;
  next_ino : nat;
  was : list (gmap string nat)
}.

Definition empty_fs : FS := mkFS ∅ ∅ 0 [].

(** The directories that a crash may leave: the present one, or an earlier one. *)
Definition exposed (s : FS) : list (gmap string nat) := dir s :: was s.

(** [Bad n] and [Crash n]: [n] is how far the call got (bytes transferred; any positive
    number means that a call without a length took effect). *)
Inductive outcome := Good | Bad (n : nat) | Crash (n : nat).

Record world := mkWorld { fs : FS; oracle : list outcome }.

(** A computation returns, or the machine stops and leaves the file system. *)
Inductive run (A : Type) :=
| Ret (a : A) (w : world)
| Halt (f : FS).
Arguments Ret {A} _ _.
Arguments Halt {A} _.

Definition IO (A : Type) : Type := world -> run A.

Definition io_ret {A} (a : A) : IO A := fun w => Ret a w.
Definition io_bind {A B} (m : IO A) (k : A -> IO B) : IO B :=
  fun w => match m w with Ret a w' => k a w' | Halt f => Halt f end.

Notation "x <-- m ; k" := (io_bind m (fun x => k))
  (at level 60, m at next level, right associativity, format "x  <--  m ;  '//' k") : go_scope.
Notation "' p <-- m ; k" := (io_bind m (fun p => k))
  (at level 60, p pattern, m at next level, right associativity) : go_scope.
Open Scope go_scope.

(** [if err != nil { ... }] after a call: [onerr] is the error branch. *)
Definition io_try {A B} (m : IO (result A)) (onerr : goerr -> IO B) (k : A -> IO B) : IO B :=
  io_bind m (fun r => match r with Ok a => k a | Err e => onerr e end).

Notation "x <-- m 'orelse' h ; k" := (io_try m h (fun x => k))
  (at level 60, m at next level, h at next level, right associativity) : go_scope.

(** Reads the next outcome. *)
Definition next_outcome (w : world) : outcome * world :=
  match oracle w with
  | [] => (Good, w)
  | o :: os => (o, mkWorld (fs w) os)
  end.

(** A call with effect [eff n] when it got as far as [n]; [full] is a complete run. *)
Definition syscall {A} (op : string) (full : nat) (eff : nat -> FS -> FS)
    (val : FS -> A) : IO (result A) :=
  fun w =>
    let '(o, w) := next_outcome w in
    match o with
    | Good => Ret (Ok (val (eff full (fs w)))) (mkWorld (eff full (fs w)) (oracle w))
    | Bad n => Ret (Err (ErrIO op)) (mkWorld (eff (Nat.min n full) (fs w)) (oracle w))
    | Crash n => Halt (eff (Nat.min n full) (fs w))
    end.

(** ** Open files *)

(** An open file: its inode, its offset, and whether writes append ([O_APPEND]). *)
Record file := mkFile { ino : nat; pos : nat; append : bool; closed : bool }.

Definition upd_inode (i : nat) (f : inode -> inode) (s : FS) : FS :=
  mkFS (dir s) (alter f i (inodes s)) (next_ino s) (was s).

Definition content (s : FS) (i : nat) : bytes := default [] (data <$> inodes s !! i).
Definition stable_content (s : FS) (i : nat) : bytes := default [] (stable <$> inodes s !! i).

(** The contents a name leads to. *)
Definition named (s : FS) (path : string) : option bytes := content s <$> dir s !! path.

(** [O_CREATE]: a missing file is created empty. *)
Definition creat (path : string) (s : FS) : FS :=
  match dir s !! path with
  | Some _ => s
  | None => mkFS (<[path := next_ino s]> (dir s)) (<[next_ino s := mkInode [] []]> (inodes s))
              (S (next_ino s)) (exposed s)
  end.

(** [O_TRUNC] and [Truncate]: nothing reaches the medium until the next [Sync]. *)
Definition set_length (n : nat) (i : inode) : inode := mkInode (take n (data i)) (stable i).

Definition openFile (path : string) (trunc app : bool) : IO (result file) :=
  syscall "open" 1
    (fun n s => if (n =? 0)%nat then s else
       let s := creat path s in
       if trunc then upd_inode (default 0%nat (dir s !! path)) (set_length 0) s else s)
    (fun s => mkFile (default 0%nat (dir s !! path)) 0 app false).

(** Bytes written at an offset, extending the file when they pass its end. *)
Definition write_at (off : nat) (b : bytes) (i : inode) : inode :=
  mkInode (take off (data i) ++ b ++ drop (off + length b) (data i)) (stable i).

Definition write_offset (f : file) (s : FS) : nat :=
  if append f then length (content s (ino f)) else pos f.

(** [os.File.Write] returns the number of bytes written and an error; the offset advances
    by that number. *)
Definition fwrite (f : file) (b : bytes) : IO (nat * option goerr * file) :=
  if closed f then io_ret (0%nat, Some (ErrIO "write"), f) else
  fun w =>
    let off := write_offset f (fs w) in
    let advance n := mkFile (ino f) (off + n) (append f) (closed f) in
    let eff n := upd_inode (ino f) (write_at off (take n b)) in
    let '(o, w) := next_outcome w in
    match o with
    | Good => Ret (length b, None, advance (length b)) (mkWorld (eff (length b) (fs w)) (oracle w))
    | Bad n =>
        let n := Nat.min n (length b) in
        Ret (n, Some (ErrIO "write"), advance n) (mkWorld (eff n (fs w)) (oracle w))
    | Crash n => Halt (eff n (fs w))
    end.

Definition on_open {A} (f : file) (op : string) (m : IO (result A)) : IO (result A) :=
  if closed f then io_ret (Err (ErrIO op)) else m.

Definition fsync (f : file) : IO (result unit) :=
  on_open f "sync" (syscall "sync" 1
    (fun n => if (n =? 0)%nat then fun s => s
              else upd_inode (ino f) (fun i => mkInode (data i) (data i))) (fun _ => tt)).

Definition ftruncate (f : file) (len : nat) : IO (result unit) :=
  on_open f "truncate" (syscall "truncate" 1
    (fun n => if (n =? 0)%nat then fun s => s else upd_inode (ino f) (set_length len)) (fun _ => tt)).

(** [Seek(off, io.SeekStart)] and [Seek(0, io.SeekEnd)]; both return the new offset. *)
Definition fseek_start (f : file) (off : nat) : IO (result file) :=
  on_open f "seek" (syscall "seek" 0 (fun _ s => s)
    (fun _ => mkFile (ino f) off (append f) (closed f))).

Definition fseek_end (f : file) : IO (result file) :=
  on_open f "seek" (syscall "seek" 0 (fun _ s => s)
    (fun s => mkFile (ino f) (length (content s (ino f))) (append f) (closed f))).

(** [Close] gives the descriptor up even when it reports an error. *)
Definition fclose (f : file) : IO (result unit * file) :=
  let f' := mkFile (ino f) (pos f) (append f) true in
  if closed f then io_ret (Err (ErrIO "close"), f') else
  io_bind (syscall "close" 0 (fun _ s => s) (fun _ => tt)) (fun r => io_ret (r, f')).

(** Reading to the end from the current offset.  The bytes delivered, and whether the
    stream ended in an error instead of the end of the file. *)
Definition fread_all (f : file) : IO (bytes * bool * file) :=
  if closed f then io_ret ([], true, f) else
  fun w =>
    let rest := drop (pos f) (content (fs w) (ino f)) in
    let advance n := mkFile (ino f) (pos f + n) (append f) (closed f) in
    let '(o, w) := next_outcome w in
    match o with
    | Good => Ret (rest, false, advance (length rest)) w
    | Bad n => Ret (take n rest, true, advance (Nat.min n (length rest))) w
    | Crash _ => Halt (fs w)
    end.

(** [os.Rename] replaces the target in one step; a crash shows the directory before or after
    it, even some time later. *)
Definition do_rename (old new : string) (s : FS) : FS :=
  match dir s !! old with
  | Some i => mkFS (<[new := i]> (delete old (dir s))) (inodes s) (next_ino s) (exposed s)
  | None => s
  end.

Definition os_Rename (old new : string) : IO (result unit) :=
  fun w =>
    match dir (fs w) !! old with
    | None => Ret (Err (ErrIO "rename")) w
    | Some _ =>
        let '(o, w) := next_outcome w in
        match o with
        | Good => Ret (Ok tt) (mkWorld (do_rename old new (fs w)) (oracle w))
        | Bad _ => Ret (Err (ErrIO "rename")) w
        | Crash n => Halt (if (n =? 0)%nat then fs w else do_rename old new (fs w))
        end
    end.

Definition do_remove (path : string) (s : FS) : FS :=
  mkFS (delete path (dir s)) (inodes s) (next_ino s) (exposed s).

Definition os_Remove (path : string) : IO (result unit) :=
  syscall "remove" 1 (fun n s => if (n =? 0)%nat then s else do_remove path s) (fun _ => tt).

(** [io.CopyBuffer(dst, src, _)]: everything that is left in [src]. *)
Definition io_Copy (dst src : file) : IO (result unit * file * file) :=
  '(b, rderr, src) <-- fread_all src;
  '(_, werr, dst) <-- fwrite dst b;
  io_ret (match werr with
          | None => if (rderr : bool) then Err (ErrIO "read") else Ok tt
          | Some e => Err e
          end, dst, src).

(** ** bufio.Writer *)

(** The buffered bytes, the capacity of the buffer, and the error that sticks. *)
Record bufw := mkBufw { buffered : bytes; bsize : nat; berr : option goerr }.

(** [bufio.NewWriterSize]: a size of zero or less means 4096. *)
Definition NewWriterSize (size : Z) : bufw :=
  mkBufw [] (Z.to_nat (if size <=? 0 then 4096 else size)) None.

Definition breset (b : bufw) : bufw := mkBufw [] (bsize b) None.

(** [bufio.Writer.Flush]: after a failed write the unwritten bytes stay buffered and the
    error sticks. *)
Definition bflush (f : file) (b : bufw) : IO (result unit * file * bufw) :=
  match berr b with
  | Some e => io_ret (Err e, f, b)
  | None =>
      match buffered b with
      | [] => io_ret (Ok tt, f, b)
      | _ =>
          '(n, err, f) <-- fwrite f (buffered b);
          match err with
          | None => io_ret (Ok tt, f, mkBufw [] (bsize b) None)
          | Some e => io_ret (Err e, f, mkBufw (drop n (buffered b)) (bsize b) (Some e))
          end
      end
  end.

Definition available (b : bufw) : nat := bsize b - length (buffered b).

Definition no_error (b : bufw) : bool := match berr b with None => true | Some _ => false end.

(** The loop of [bufio.Writer.Write]: while [p] does not fit, either send it straight to
    the file (empty buffer) or fill the buffer and flush it.  The result is [None] when
    the rounds ran out; three always suffice ([bwrite_loop_total]). *)
Fixpoint bwrite_loop (rounds : nat) (f : file) (b : bufw) (p : bytes)
    : IO (option (file * bufw * bytes)) :=
  match rounds with
  | O => io_ret None
  | S rounds' =>
      if (available b <? length p)%nat && no_error b then
        match buffered b with
        | [] =>
            '(n, err, f) <-- fwrite f p;
            bwrite_loop rounds' f (mkBufw [] (bsize b) err) (drop n p)
        | _ =>
            let n := available b in
            '(_, f, b) <-- bflush f (mkBufw (buffered b ++ take n p) (bsize b) None);
            bwrite_loop rounds' f b (drop n p)
        end
      else io_ret (Some (f, b, p))
  end.

Definition bwrite (f : file) (b : bufw) (p : bytes) : IO (result unit * file * bufw) :=
  st <-- bwrite_loop 3 f b p;
  match st with
  | None => io_ret (Err (ErrMsg "rounds"), f, b)
  | Some (f, b, p) =>
      match berr b with
      | Some e => io_ret (Err e, f, b)
      | None => io_ret (Ok tt, f, mkBufw (buffered b ++ p) (bsize b) None)
      end
  end.

(** ** Reasoning about runs *)

(** [wp m Q C w]: if [m] returns from [w], its result and world satisfy [Q]; if the machine
    stops, the file system satisfies [C]. *)
Definition wp {A} (m : IO A) (Q : A -> world -> Prop) (C : FS -> Prop) (w : world) : Prop :=
  match m w with Ret a w' => Q a w' | Halt f => C f end.

(** No fault is scheduled. *)
Definition quiet (w : world) : Prop := oracle w = [].

Section Rules.
Context {A : Type}.
Implicit Types (Q : A -> world -> Prop) (C : FS -> Prop).

Lemma wp_ret (a : A) Q C w : Q a w -> wp (io_ret a) Q C w.
Proof. done. Qed.

Lemma wp_bind {B} (m : IO B) (k : B -> IO A) Q C w :
  wp m (fun b w' => wp (k b) Q C w') C w -> wp (io_bind m k) Q C w.
Proof. unfold wp, io_bind. by destruct (m w). Qed.

Lemma wp_mono (m : IO A) Q Q' C C' w :
  wp m Q C w -> (forall a w', Q a w' -> Q' a w') -> (forall f, C f -> C' f) -> wp m Q' C' w.
Proof. unfold wp. destruct (m w); auto. Qed.

(** Case analysis on the outcome of a call. *)
Lemma wp_syscall op full eff val (Q : result A -> world -> Prop) C w :
  (forall w', fs w' = eff full (fs w) -> (quiet w -> quiet w') -> Q (Ok (val (fs w'))) w') ->
  (forall n w', (n <= full)%nat -> fs w' = eff n (fs w) -> ~ quiet w -> Q (Err (ErrIO op)) w') ->
  (forall n, (n <= full)%nat -> C (eff n (fs w))) ->
  wp (syscall op full eff val) Q C w.
Proof.
  intros HG HB HC. unfold wp, syscall, next_outcome.
  destruct w as [s [|[|n|n] os]]; simpl in *.
  - apply (HG (mkWorld (eff full s) [])); done.
  - apply (HG (mkWorld (eff full s) os)); done.
  - apply (HB (Nat.min n full)); [lia|done..].
  - apply HC. lia.
Qed.

End Rules.

(** ** Contents *)

(** Replaces what programs see of inode [i]; the medium is not touched. *)
Definition set_content (i : nat) (c : bytes) (s : FS) : FS :=
  upd_inode i (fun x => mkInode c (stable x)) s.

Definition has_inode (s : FS) (i : nat) : Prop := is_Some (inodes s !! i).

Lemma FS_eq (s t : FS) :
  dir s = dir t -> (forall j, inodes s !! j = inodes t !! j) -> next_ino s = next_ino t -> was s = was t -> s = t.
Proof. destruct s, t. cbn. intros -> H%map_eq -> ->. by subst. Qed.

Lemma has_inode_set s i j c : has_inode (set_content i c s) j <-> has_inode s j.
Proof.
  unfold has_inode, set_content, upd_inode. cbn.
  destruct (decide (i = j)) as [->|]; [rewrite lookup_alter_eq, fmap_is_Some|rewrite lookup_alter_ne];
    done.
Qed.

Lemma set_content_set i c c' s : set_content i c' (set_content i c s) = set_content i c' s.
Proof.
  apply FS_eq; [done| |done..]. intros j. unfold set_content, upd_inode. cbn.
  destruct (decide (i = j)) as [->|]; [|by rewrite !lookup_alter_ne].
  rewrite !lookup_alter_eq. by destruct (inodes s !! j).
Qed.

Lemma set_content_id i s : set_content i (content s i) s = s.
Proof.
  apply FS_eq; [done| |done..]. intros j. unfold set_content, upd_inode, content. cbn.
  destruct (decide (i = j)) as [->|]; [|by rewrite !lookup_alter_ne].
  rewrite !lookup_alter_eq. by destruct (inodes s !! j) as [[]|].
Qed.

Lemma content_set i c s : has_inode s i -> content (set_content i c s) i = c.
Proof.
  intros [x Hx]. unfold content, set_content, upd_inode. cbn. by rewrite lookup_alter_eq, Hx.
Qed.

Lemma content_set_ne i j c s : i <> j -> content (set_content i c s) j = content s j.
Proof. intros. unfold content, set_content, upd_inode. cbn. by rewrite lookup_alter_ne. Qed.

Lemma stable_set i j c s : stable_content (set_content i c s) j = stable_content s j.
Proof.
  unfold stable_content, set_content, upd_inode. cbn.
  destruct (decide (i = j)) as [->|]; [|by rewrite lookup_alter_ne].
  rewrite lookup_alter_eq. by destruct (inodes s !! j).
Qed.

Lemma upd_inode_set i g s :
  (forall x, stable (g x) = stable x) ->
  upd_inode i g s = set_content i (default [] (data ∘ g <$> inodes s !! i)) s.
Proof.
  intros Hg. apply FS_eq; [done| |done..]. intros j. unfold set_content, upd_inode. cbn.
  destruct (decide (i = j)) as [->|]; [|by rewrite !lookup_alter_ne].
  rewrite !lookup_alter_eq. destruct (inodes s !! j) as [x|]; [|done]. cbn. f_equal.
  rewrite <- (Hg x). by destruct (g x).
Qed.

Lemma write_at_end s i b :
  upd_inode i (write_at (length (content s i)) b) s = set_content i (content s i ++ b) s.
Proof.
  rewrite upd_inode_set by done.
  destruct (inodes s !! i) as [x|] eqn:E.
  - f_equal. unfold content. rewrite E. cbn.
    by rewrite firstn_all, drop_ge, app_nil_r by lia.
  - apply FS_eq; [done| |done..]. intros j. unfold set_content, upd_inode. cbn.
    destruct (decide (i = j)) as [->|]; [rewrite !lookup_alter_eq, E|rewrite !lookup_alter_ne]; done.
Qed.

Lemma set_truncate s i :
  upd_inode i (set_length 0) s = set_content i [] s.
Proof.
  rewrite upd_inode_set by done. f_equal. by destruct (inodes s !! i).
Qed.



(** ** Appending writes *)

(** An open file in append mode. *)
Definition appending (f : file) : Prop := append f = true /\ closed f = false.

(** A write at the end of the file, in append mode or not. *)
Lemma wp_fwrite_end f b (Q : nat * option goerr * file -> world -> Prop) C w :
  closed f = false -> write_offset f (fs w) = length (content (fs w) (ino f)) ->
  let after n := mkFile (ino f) (length (content (fs w) (ino f)) + n) (append f) false in
  (forall w', (quiet w -> quiet w') ->
     fs w' = set_content (ino f) (content (fs w) (ino f) ++ b) (fs w) ->
     Q (length b, None, after (length b)) w') ->
  (forall n w', (n <= length b)%nat -> ~ quiet w ->
     fs w' = set_content (ino f) (content (fs w) (ino f) ++ take n b) (fs w) ->
     Q (n, Some (ErrIO "write"), after n) w') ->
  (forall n, C (set_content (ino f) (content (fs w) (ino f) ++ take n b) (fs w))) ->
  wp (fwrite f b) Q C w.
Proof.
  intros Hc Ho after HG HB HC. unfold wp, fwrite, next_outcome. rewrite Hc, Ho.
  destruct w as [s [|[|n|n] os]]; cbn [fs oracle] in *.
  - apply HG; [done|]. cbn. by rewrite firstn_all, write_at_end.
  - apply HG; [done|]. cbn. by rewrite firstn_all, write_at_end.
  - apply HB; [lia|done|]. cbn. by rewrite write_at_end.
  - rewrite write_at_end. apply HC.
Qed.

Lemma wp_fwrite f b (Q : nat * option goerr * file -> world -> Prop) C w :
  appending f ->
  (forall f' w', appending f' -> ino f' = ino f -> (quiet w -> quiet w') ->
     fs w' = set_content (ino f) (content (fs w) (ino f) ++ b) (fs w) ->
     Q (length b, None, f') w') ->
  (forall n f' w', (n <= length b)%nat -> appending f' -> ino f' = ino f -> ~ quiet w ->
     fs w' = set_content (ino f) (content (fs w) (ino f) ++ take n b) (fs w) ->
     Q (n, Some (ErrIO "write"), f') w') ->
  (forall n, C (set_content (ino f) (content (fs w) (ino f) ++ take n b) (fs w))) ->
  wp (fwrite f b) Q C w.
Proof.
  intros [Ha Hc] HG HB HC. apply wp_fwrite_end; [done|unfold write_offset; by rewrite Ha|..].
  - intros w' Hq Hs. by apply HG.
  - intros n w' Hn Hq Hs. by apply HB.
  - done.
Qed.

(** The result of pushing [l] through a writer that stood at [c]: the file grew along [l],
    and unless the writer has failed nothing of [l] is missing. *)
Record pushed (i : nat) (s : FS) (l : bytes) (f' : file) (sz : nat) (b' : bufw) (s' : FS) : Prop := {
  pu_appending : appending f';
  pu_ino : ino f' = i;
  pu_size : bsize b' = sz;
  pu_content : exists c, s' = set_content i c s /\
     content s i `prefix_of` c /\ c `prefix_of` content s i ++ l /\
     (berr b' = None -> c ++ buffered b' = content s i ++ l)
}.

(** The file systems a crash can leave while [l] is being pushed. *)
Definition torn (i : nat) (s : FS) (l : bytes) (s' : FS) : Prop :=
  exists c, s' = set_content i c s /\ content s i `prefix_of` c /\ c `prefix_of` content s i ++ l.

Lemma content_pushed i s l f sz b' s' :
  has_inode s i -> pushed i s l f sz b' s' -> berr b' = None ->
  content s' i ++ buffered b' = content s i ++ l.
Proof.
  intros Hi Hp He. destruct (pu_content _ _ _ _ _ _ _ Hp) as (c & -> & _ & _ & Hb).
  rewrite content_set by done. auto.
Qed.

(** Pushing in two steps, the second from where the first got to. *)
Lemma torn_trans i s l f sz b1 s1 s2 :
  has_inode s i -> pushed i s l f sz b1 s1 -> berr b1 = None ->
  torn i s1 (buffered b1) s2 -> torn i s l s2.
Proof.
  intros Hi Hp He (c & -> & H1 & H2). pose proof (content_pushed _ _ _ _ _ _ _ Hi Hp He) as Hc.
  destruct (pu_content _ _ _ _ _ _ _ Hp) as (c1 & -> & Hlo & _ & _).
  rewrite content_set in * by done. exists c. rewrite set_content_set.
  split; [done|]. split; [by trans c1|]. by rewrite <- Hc.
Qed.

Lemma pushed_trans i s l f1 f2 sz b1 b2 s1 s2 :
  has_inode s i -> pushed i s l f1 sz b1 s1 -> berr b1 = None ->
  pushed i s1 (buffered b1) f2 (bsize b1) b2 s2 -> pushed i s l f2 sz b2 s2.
Proof.
  intros Hi Hp He Hp2. pose proof (content_pushed _ _ _ _ _ _ _ Hi Hp He) as Hc.
  destruct Hp as [_ _ Hsz (c1 & -> & Hlo & _ & _)].
  destruct Hp2 as [Ha Hino Hsz2 (c & -> & H1 & H2 & H3)].
  rewrite content_set in * by done.
  constructor; [done|done|congruence|]. exists c. rewrite set_content_set.
  split; [done|]. split; [by trans c1|]. rewrite <- Hc. auto.
Qed.

Lemma pushed_more i s l p f sz b' s' :
  pushed i s l f sz b' s' ->
  pushed i s (l ++ p) f sz (mkBufw (buffered b' ++ p) (bsize b') (berr b')) s'.
Proof.
  intros [Ha Hino Hsz (c & -> & H1 & H2 & H3)]. constructor; [done..|].
  exists c. split_and!; [done..| |].
  - rewrite (assoc_L _ (content s i)). by apply prefix_app_r.
  - cbn. intros He. rewrite (assoc_L _ c), (H3 He). by rewrite <- (assoc_L _).
Qed.

Lemma torn_more i s l p s' : torn i s l s' -> torn i s (l ++ p) s'.
Proof.
  intros (c & -> & H1 & H2). exists c. split_and!; [done..|].
  rewrite (assoc_L _ (content s i)). by apply prefix_app_r.
Qed.

Lemma pushed_refl f s b :
  appending f -> pushed (ino f) s (buffered b) f (bsize b) b s.
Proof.
  intros Hf. constructor; [done..|]. exists (content s (ino f)).
  rewrite set_content_id. split_and!; [done|done|by apply prefix_app_r|done].
Qed.

Lemma torn_take i s l n : torn i s l (set_content i (content s i ++ take n l) s).
Proof.
  exists (content s i ++ take n l). split_and!; [done|by apply prefix_app_r|].
  apply prefix_app, prefix_take.
Qed.

(** The writer sends [p] after what it holds. *)
Lemma wp_bflush f b w :
  appending f -> has_inode (fs w) (ino f) ->
  wp (bflush f b)
    (fun '(r, f', b') w' =>
       pushed (ino f) (fs w) (buffered b) f' (bsize b) b' (fs w') /\
       match r with Ok _ => berr b' = None /\ buffered b' = [] | Err e => berr b' = Some e end /\
       (quiet w -> berr b = None -> quiet w' /\ r = Ok tt))
    (torn (ino f) (fs w) (buffered b)) w.
Proof.
  intros Hf Hi. unfold bflush. destruct (berr b) as [e|] eqn:Ee.
  { apply wp_ret. split; [by apply pushed_refl|]. by split. }
  destruct (buffered b) as [|x l] eqn:El.
  { apply wp_ret. rewrite <- El. split; [by apply pushed_refl|]. by rewrite El. }
  rewrite <- El. apply wp_bind, wp_fwrite; [done|..].
  - intros f' w' Hf' Hino Hq Hs. apply wp_ret. split; [|by split; [|intros Hw _; split; [apply Hq|]]].
    constructor; [done..|]. exists (content (fs w) (ino f) ++ buffered b).
    split_and!; [done|by apply prefix_app_r|done|]. by rewrite app_nil_r.
  - intros n f' w' Hn Hf' Hino Hq Hs. apply wp_ret. split; [|by split].
    constructor; [done..|]. exists (content (fs w) (ino f) ++ take n (buffered b)).
    split_and!; [done|by apply prefix_app_r|apply prefix_app, prefix_take|done].
  - intros n. apply torn_take.
Qed.

(** Rounds the loop of [Write] needs. *)
Definition rounds_needed (b : bufw) (p : bytes) : nat :=
  if (available b <? length p)%nat && no_error b then
    match buffered b with [] => 2 | _ => 3 end
  else 1.

Definition with_pending (b : bufw) (p : bytes) : bufw := mkBufw (buffered b ++ p) (bsize b) (berr b).

Lemma bwrite_loop_failed rounds f b p e :
  berr b = Some e -> bwrite_loop (S rounds) f b p = io_ret (Some (f, b, p)).
Proof. intros He. cbn. unfold no_error. by rewrite He, andb_false_r. Qed.

(** What the loop of [Write] leaves, started at [f], [b] and [p] in the world [w]. *)
Definition loop_post (f : file) (b : bufw) (p : bytes) (w : world) (st : option (file * bufw * bytes)) (w' : world) : Prop :=
  exists f' b' p', st = Some (f', b', p') /\
    pushed (ino f) (fs w) (buffered b ++ p) f' (bsize b) (with_pending b' p') (fs w') /\
    (berr b' = None -> (length p' <= available b')%nat) /\
    (quiet w -> berr b = None -> quiet w' /\ berr b' = None).

(** Rounds after a first one that went well. *)
Lemma wp_loop_rest m f b p w f1 b1 p1 w1 :
  (has_inode (fs w1) (ino f1) -> wp m (loop_post f1 b1 p1 w1) (torn (ino f1) (fs w1) (buffered b1 ++ p1)) w1) ->
  pushed (ino f) (fs w) (buffered b ++ p) f1 (bsize b) (with_pending b1 p1) (fs w1) ->
  has_inode (fs w) (ino f) -> (quiet w -> quiet w1) -> berr b1 = None ->
  wp m (loop_post f b p w) (torn (ino f) (fs w) (buffered b ++ p)) w1.
Proof.
  intros Hm Hp Hi Hq1 He1. destruct (pu_content _ _ _ _ _ _ _ Hp) as (c & Hc & _).
  eapply wp_mono; [apply Hm|..].
  - rewrite (pu_ino _ _ _ _ _ _ _ Hp), Hc. by apply has_inode_set.
  - intros st w' (f' & b' & p' & -> & Hp' & Hfit & Hq'). rewrite (pu_ino _ _ _ _ _ _ _ Hp) in Hp'.
    exists f', b', p'. split; [done|]. split; [|split; [done|]].
    + by apply (pushed_trans _ _ _ f1 _ _ (with_pending b1 p1) _ (fs w1)).
    + intros Hw _. by apply Hq'; [apply Hq1|].
  - rewrite (pu_ino _ _ _ _ _ _ _ Hp). intros s' Ht.
    by apply (torn_trans _ _ _ f1 (bsize b) (with_pending b1 p1) (fs w1)).
Qed.

(** A round that does not fit: the loop stops. *)
Lemma wp_loop_stop f b p w :
  appending f -> (available b <? length p)%nat && no_error b = false -> loop_post f b p w (Some (f, b, p)) w.
Proof.
  intros Hf Efit. exists f, b, p. split; [done|]. split; [by apply pushed_more, pushed_refl|]. split; [|done].
  intros He. unfold no_error in Efit. rewrite He, andb_true_r in Efit. by apply Nat.ltb_ge in Efit.
Qed.

Lemma wp_bwrite_loop rounds f b p w :
  appending f -> has_inode (fs w) (ino f) -> (rounds_needed b p <= rounds)%nat ->
  wp (bwrite_loop rounds f b p) (loop_post f b p w) (torn (ino f) (fs w) (buffered b ++ p)) w.
Proof.
  revert f b p w. induction rounds as [|rounds IH]; intros f b p w Hf Hi Hr.
  { unfold rounds_needed in Hr. destruct (_ && _), (buffered b); lia. }
  cbn [bwrite_loop]. unfold rounds_needed in Hr.
  destruct ((available b <? length p)%nat && no_error b) eqn:Efit; [|by apply wp_ret, wp_loop_stop].
  apply andb_true_iff in Efit as [Hlt%Nat.ltb_lt Hne].
  assert (berr b = None) as He by (unfold no_error in Hne; by destruct (berr b)).
  assert (forall f1 b1 p1 w1,
    pushed (ino f) (fs w) (buffered b ++ p) f1 (bsize b) (with_pending b1 p1) (fs w1) ->
    (rounds_needed b1 p1 <= rounds)%nat -> (quiet w -> quiet w1) -> berr b1 = None ->
    wp (bwrite_loop rounds f1 b1 p1) (loop_post f b p w) (torn (ino f) (fs w) (buffered b ++ p)) w1) as Hrest.
  { intros f1 b1 p1 w1 Hp Hr1 Hq1 He1. apply (wp_loop_rest _ f b p w f1 b1 p1); try done. intros Hi1. by apply IH; [apply Hp|..]. }
  destruct (buffered b) as [|x l] eqn:Eb.
  - cbn [app] in *. apply wp_bind, wp_fwrite; [done|..].
    + intros f' w' Hf' Hino Hq Hs. rewrite drop_ge by lia. apply Hrest; [|cbn|auto|done].
      * constructor; [done..|]. exists (content (fs w) (ino f) ++ p).
        split_and!; [done|by apply prefix_app_r|done|]. cbn. by rewrite app_nil_r.
      * unfold rounds_needed. cbn. lia.
    + intros n f' w' Hn Hf' Hino Hq Hs. destruct rounds; [lia|].
      erewrite bwrite_loop_failed by done. apply wp_ret. do 3 eexists. split; [done|]. rewrite Eb.
      split; [|by split]. constructor; [done..|]. exists (content (fs w) (ino f) ++ take n p).
      split_and!; [done|by apply prefix_app_r|apply prefix_app, prefix_take|done].
    + intros n. apply torn_take.
  - rewrite <- Eb in Hrest |- *. set (n := available b) in *. apply wp_bind. eapply wp_mono; [apply wp_bflush; done|..].
    + intros [[r f'] b'] w'. cbn [buffered bsize berr]. intros (Hp & Hr' & Hq).
      apply (pushed_more _ _ _ (drop n p)) in Hp.
      rewrite <- (assoc_L _), take_drop in Hp. destruct r as [u|e].
      * destruct Hr' as [He' Hb']. apply Hrest; [done|..|done].
        -- unfold rounds_needed. rewrite Hb'. destruct (_ && _); lia.
        -- intros Hw. destruct (Hq Hw eq_refl). done.
      * destruct rounds; [lia|]. erewrite bwrite_loop_failed by done.
        apply wp_ret. do 3 eexists. split; [done|]. split; [done|]. split; [congruence|].
        intros Hw _. by destruct (Hq Hw eq_refl).
    + cbn [buffered]. intros s' Ht. rewrite <- (take_drop n p), (assoc_L _).
      by apply torn_more.
Qed.

(** [Write] always completes, and pushes [p] behind the buffered bytes. *)
Lemma wp_bwrite f b p w :
  appending f -> has_inode (fs w) (ino f) ->
  wp (bwrite f b p)
    (fun '(r, f', b') w' =>
       pushed (ino f) (fs w) (buffered b ++ p) f' (bsize b) b' (fs w') /\
       match r with Ok _ => berr b' = None | Err e => berr b' = Some e end /\
       (quiet w -> berr b = None -> quiet w' /\ r = Ok tt))
    (torn (ino f) (fs w) (buffered b ++ p)) w.
Proof.
  intros Hf Hi. unfold bwrite. apply wp_bind.
  eapply wp_mono; [apply wp_bwrite_loop; [done..|]| |done].
  { unfold rounds_needed. destruct (_ && _), (buffered b); lia. }
  intros st w' (f' & b' & p' & -> & Hp & Hfit & Hq). destruct (berr b') as [e|] eqn:Ee.
  - apply wp_ret. split; [|split; [done|intros Hw He; by destruct (Hq Hw He)]].
    destruct Hp as [Ha Hino Hsz (c & Hc & H1 & H2 & _)]. constructor; [done..|].
    exists c. split_and!; [done..|]. congruence.
  - apply wp_ret. split; [|split; [done|intros Hw He; by destruct (Hq Hw He)]].
    unfold with_pending in Hp. by rewrite Ee in Hp.
Qed.

(** ** Fault-free runs *)

(** Without faults the computation returns, and schedules none. *)
Definition faultless {A} (m : IO A) : Prop :=
  forall s, exists a s', m (mkWorld s []) = Ret a (mkWorld s' []).

Create HintDb fs.

Lemma faultless_ret {A} (a : A) : faultless (io_ret a).
Proof. intros s. by do 2 eexists. Qed.

Lemma faultless_bind {A B} (m : IO A) (k : A -> IO B) :
  faultless m -> (forall a, faultless (k a)) -> faultless (io_bind m k).
Proof.
  intros Hm Hk s. destruct (Hm s) as (a & s1 & E). unfold io_bind. rewrite E. apply Hk.
Qed.

Lemma faultless_syscall {A} op full eff (val : FS -> A) : faultless (syscall op full eff val).
Proof. intros s. by do 2 eexists. Qed.

Lemma faultless_fwrite f b : faultless (fwrite f b).
Proof. intros s. unfold fwrite. destruct (closed f); by do 2 eexists. Qed.

Lemma faultless_bflush f b : faultless (bflush f b).
Proof.
  unfold bflush. destruct (berr b); [apply faultless_ret|].
  destruct (buffered b); [apply faultless_ret|].
  apply faultless_bind; [apply faultless_fwrite|]. intros [[n [e|]] f']; apply faultless_ret.
Qed.

Lemma faultless_bwrite f b p : faultless (bwrite f b p).
Proof.
  unfold bwrite. apply faultless_bind.
  - generalize 3%nat as rounds. intros rounds. revert f b p.
    induction rounds as [|rounds IH]; intros f b p; cbn [bwrite_loop]; [apply faultless_ret|].
    destruct (_ && _); [|apply faultless_ret]. destruct (buffered b).
    + apply faultless_bind; [apply faultless_fwrite|]. intros [[n e] f']. apply IH.
    + apply faultless_bind; [apply faultless_bflush|]. intros [[r f'] b']. apply IH.
  - intros [[[f' b'] p']|]; [destruct (berr b')|]; apply faultless_ret.
Qed.

(** The result of a fault-free run satisfies what holds of every run. *)
Lemma wp_faultless {A} (m : IO A) Q C s :
  faultless m -> wp m Q C (mkWorld s []) ->
  exists a s', m (mkWorld s []) = Ret a (mkWorld s' []) /\ Q a (mkWorld s' []).
Proof. intros Hm Hw. destruct (Hm s) as (a & s' & E). unfold wp in Hw. rewrite E in Hw. eauto. Qed.

#[export] Hint Resolve faultless_ret faultless_bind faultless_syscall faultless_fwrite
  faultless_bflush faultless_bwrite : fs.

Lemma faultless_try {A B} (m : IO (result A)) h (k : A -> IO B) :
  faultless m -> (forall e, faultless (h e)) -> (forall a, faultless (k a)) -> faultless (io_try m h k).
Proof. intros Hm Hh Hk. apply faultless_bind; [done|]. intros []; auto. Qed.

Lemma faultless_on_open {A} f op (m : IO (result A)) : faultless m -> faultless (on_open f op m).
Proof. intros Hm. unfold on_open. destruct (closed f); [apply faultless_ret|done]. Qed.

Lemma faultless_fclose f : faultless (fclose f).
Proof. unfold fclose. destruct (closed f); auto with fs. Qed.

Lemma faultless_fread_all f : faultless (fread_all f).
Proof. intros s. unfold fread_all. destruct (closed f); by do 2 eexists. Qed.

Lemma faultless_io_Copy f g : faultless (io_Copy f g).
Proof.
  apply faultless_bind; [apply faultless_fread_all|]. intros [[b r] g'].
  apply faultless_bind; [apply faultless_fwrite|]. intros [[n e] f']. apply faultless_ret.
Qed.

Lemma faultless_os_Rename p q : faultless (os_Rename p q).
Proof. intros s. unfold os_Rename. cbn. destruct (dir s !! p); by do 2 eexists. Qed.

Lemma faultless_os_Remove p : faultless (os_Remove p).
Proof. apply faultless_syscall. Qed.

Lemma faultless_openFile p t a : faultless (openFile p t a).
Proof. apply faultless_syscall. Qed.

Lemma faultless_fsync f : faultless (fsync f).
Proof. apply faultless_on_open, faultless_syscall. Qed.

Lemma faultless_ftruncate f n : faultless (ftruncate f n).
Proof. apply faultless_on_open, faultless_syscall. Qed.

Lemma faultless_fseek_start f n : faultless (fseek_start f n).
Proof. apply faultless_on_open, faultless_syscall. Qed.

Lemma faultless_fseek_end f : faultless (fseek_end f).
Proof. apply faultless_on_open, faultless_syscall. Qed.

#[export] Hint Resolve faultless_try faultless_on_open faultless_fclose faultless_fread_all
  faultless_io_Copy faultless_os_Rename faultless_os_Remove faultless_openFile faultless_fsync
  faultless_ftruncate faultless_fseek_start faultless_fseek_end : fs.

(** Splits a program along its binds and branches. *)
Ltac faultless_tac :=
  repeat first
    [ apply faultless_bind; [solve [auto with fs]|intros]
    | apply faultless_try; [solve [auto with fs]|intros|intros]
    | progress cbn beta zeta iota
    | solve [auto with fs]
    | match goal with |- faultless (match ?x with _ => _ end) => destruct x end ].
