(* ===== verification/Atomic.v ===== *)
(** * Replacing a file by rename

    The idiom the log and the snapshots use to replace a file in one step: write the new
    contents under a temporary name, sync, and rename over the old name.  The lemmas say that
    nothing done to the temporary file touches the old one ([kept]), and that after the rename
    the name leads to the new contents, on the medium too ([replaced]).  A crash can bring back
    an earlier directory: [screened] says that nothing done to the temporary file shows under
    the name in any of them, and [survives] what a crash can show there once it is renamed. *)

From S2P Require Import Prelude Fs.

(** The directory and the inode table agree. *)
Record fs_ok (s : FS) : Prop := {
  fo_inode : forall p i, dir s !! p = Some i -> has_inode s i;
  fo_fresh : forall p i, dir s !! p = Some i -> (i < next_ino s)%nat;
  fo_inj : forall p q i, dir s !! p = Some i -> dir s !! q = Some i -> p = q
}.

Lemma fs_ok_creat p s : fs_ok s -> fs_ok (creat p s) /\ is_Some (dir (creat p s) !! p).
Proof.
  intros [H1 H2 H3]. unfold creat. destruct (dir s !! p) as [i|] eqn:E; [by split; [|eexists]|].
  split; [|cbn; rewrite lookup_insert_eq; by eexists]. constructor; cbn.
  - intros q i. rewrite lookup_insert_Some. unfold has_inode. cbn.
    intros [[<- <-]|[Hq Hd]]; [rewrite lookup_insert_eq; by eexists|].
    pose proof (H2 q i Hd). rewrite lookup_insert_ne by lia. by eapply H1.
  - intros q i. rewrite lookup_insert_Some. intros [[<- <-]|[Hq Hd]]; [lia|].
    pose proof (H2 q i Hd). lia.
  - intros q q' i. rewrite !lookup_insert_Some. intros [[<- <-]|[Hq Hd]] [[<- Hi]|[Hq' Hd']].
    + done.
    + pose proof (H2 _ _ Hd'). lia.
    + pose proof (H2 _ _ Hd). lia.
    + by eapply H3.
Qed.

Lemma fs_ok_same s s' :
  fs_ok s -> dir s' = dir s -> next_ino s' = next_ino s ->
  (forall i, has_inode s' i <-> has_inode s i) -> fs_ok s'.
Proof.
  intros [H1 H2 H3] Hd Hn Hi. constructor; rewrite ?Hd, ?Hn; [|done..].
  intros p i Hp. apply Hi. by eapply H1.
Qed.

Lemma fs_ok_upd s t g : fs_ok s -> fs_ok (upd_inode t g s).
Proof.
  intros Hs. eapply fs_ok_same; [exact Hs|done|done|]. intros j. unfold has_inode, upd_inode. cbn.
  destruct (decide (t = j)) as [->|]; [rewrite lookup_alter_eq, fmap_is_Some|rewrite lookup_alter_ne];
    done.
Qed.

(** ** Rules for calls *)

Lemma wp_try {A B} (m : IO (result A)) h (k : A -> IO B) Q C w :
  wp m (fun r w' => match r with Ok a => wp (k a) Q C w' | Err e => wp (h e) Q C w' end) C w ->
  wp (io_try m h k) Q C w.
Proof. intros Hm. unfold io_try. apply wp_bind. eapply wp_mono; [exact Hm| |done]. by intros []. Qed.

(** Calls that do not touch the file system. *)
Lemma wp_pure_call {A} op (val : FS -> A) Q C w :
  (forall w', fs w' = fs w -> (quiet w -> quiet w') -> Q (Ok (val (fs w))) w') ->
  (forall w', fs w' = fs w -> ~ quiet w -> Q (Err (ErrIO op)) w') -> C (fs w) ->
  wp (syscall op 0 (fun _ s => s) val) Q C w.
Proof.
  intros HG HB HC. apply wp_syscall; [|intros n w' _ Hs Hq; by apply HB|done].
  intros w' Hs Hq. rewrite Hs. by apply HG.
Qed.

Lemma wp_fclose f (Q : result unit * file -> world -> Prop) C w :
  (forall r w', fs w' = fs w -> (quiet w -> closed f = false -> quiet w' /\ r = Ok tt) ->
     Q (r, mkFile (ino f) (pos f) (append f) true) w') -> C (fs w) -> wp (fclose f) Q C w.
Proof.
  intros HQ HC. unfold fclose. destruct (closed f) eqn:E; [by apply wp_ret, HQ|].
  apply wp_bind, wp_pure_call; [..|done]; intros w' Hs Hq; apply wp_ret; apply HQ; auto; by split.
Qed.

Lemma wp_fread_all f (Q : bytes * bool * file -> world -> Prop) C w :
  closed f = false ->
  (forall w' f', closed f' = false -> fs w' = fs w -> (quiet w -> quiet w') ->
     Q (drop (pos f) (content (fs w) (ino f)), false, f') w') ->
  (forall n w' f', closed f' = false -> fs w' = fs w -> ~ quiet w ->
     Q (take n (drop (pos f) (content (fs w) (ino f))), true, f') w') ->
  C (fs w) -> wp (fread_all f) Q C w.
Proof.
  intros Hc HG HB HC. unfold wp, fread_all, next_outcome. rewrite Hc.
  destruct w as [s [|[|n|n] os]]; cbn [fs oracle] in *; [by apply HG|by apply HG|by apply HB|done].
Qed.

(** ** The idiom *)

Section Atomic.
Context (p tmp : string) (s0 : FS).

(** The name [p] leads where it did in [s0], to the same bytes. *)
Record kept (s : FS) : Prop := {
  ke_ok : fs_ok s;
  ke_dir : dir s !! p = dir s0 !! p;
  ke_content : forall i, dir s0 !! p = Some i ->
    content s i = content s0 i /\ stable_content s i = stable_content s0 i
}.

(** The temporary file is open and holds [c]. *)
Record tmp_open (s : FS) (t : nat) (c : bytes) : Prop := {
  to_dir : dir s !! tmp = Some t;
  to_ne : dir s !! p <> Some t;
  to_content : content s t = c;
  to_inode : has_inode s t
}.

Lemma kept_refl : fs_ok s0 -> kept s0.
Proof. by constructor. Qed.

Lemma kept_upd s t g : kept s -> dir s !! p <> Some t -> kept (upd_inode t g s).
Proof.
  intros [H1 H2 H3] Hne. constructor; [by apply fs_ok_upd|done|].
  intros i Hi. rewrite <- (proj1 (H3 i Hi)), <- (proj2 (H3 i Hi)). rewrite H2, Hi in Hne.
  unfold content, stable_content, upd_inode. cbn. rewrite lookup_alter_ne by congruence. done.
Qed.

Context (Hne : tmp <> p).

Lemma kept_creat s : kept s -> kept (creat tmp s).
Proof.
  intros [H1 H2 H3]. destruct (fs_ok_creat tmp s H1) as [Hok _]. unfold creat in *.
  destruct (dir s !! tmp) eqn:E; [by constructor|]. constructor; [done|..]; cbn.
  - by rewrite lookup_insert_ne.
  - intros i Hi. rewrite <- (proj1 (H3 i Hi)), <- (proj2 (H3 i Hi)). rewrite <- H2 in Hi.
    pose proof (fo_fresh _ H1 _ _ Hi). unfold content, stable_content. cbn.
    by rewrite lookup_insert_ne by lia.
Qed.

Lemma kept_remove s : kept s -> kept (do_remove tmp s).
Proof.
  intros [[Ha Hb Hc] H2 H3]. constructor; [constructor; cbn|..|done].
  - intros q j [_ Hq]%lookup_delete_Some. by eapply Ha.
  - intros q j [_ Hq]%lookup_delete_Some. by eapply Hb.
  - intros q q' j [_ Hq]%lookup_delete_Some [_ Hq']%lookup_delete_Some. by eapply Hc.
  - cbn. by rewrite lookup_delete_ne.
Qed.

(** Opening the temporary file, which may be left over from an earlier attempt. *)
Lemma open_tmp s :
  kept s ->
  let s1 := upd_inode (default 0%nat (dir (creat tmp s) !! tmp)) (set_length 0) (creat tmp s) in
  kept s1 /\ exists t, dir s1 !! tmp = Some t /\ tmp_open s1 t [].
Proof.
  intros Hk. pose proof (kept_creat s Hk) as Hk1.
  destruct (fs_ok_creat tmp s (ke_ok _ Hk)) as [_ [t Ht]]. rewrite Ht. cbn [from_option].
  unfold Datatypes.id.
  assert (dir (creat tmp s) !! p <> Some t) as Hnt.
  { intros Hp. apply Hne. by eapply (fo_inj _ (ke_ok _ Hk1)). }
  pose proof (fo_inode _ (ke_ok _ Hk1) _ _ Ht) as Hi.
  split; [by apply kept_upd|]. exists t. split; [done|]. rewrite set_truncate.
  constructor; [done|done|by apply content_set|by apply has_inode_set].
Qed.

Lemma tmp_write s t c c' : kept s -> tmp_open s t c ->
  kept (set_content t c' s) /\ tmp_open (set_content t c' s) t c'.
Proof.
  intros Hk [H1 H2 H3 H4]. split; [by apply kept_upd|].
  constructor; [done|done|by apply content_set|by apply has_inode_set].
Qed.

Lemma tmp_sync s t c : kept s -> tmp_open s t c ->
  let s' := upd_inode t (fun x => mkInode (data x) (data x)) s in
  kept s' /\ tmp_open s' t c /\ stable_content s' t = c.
Proof.
  intros Hk [H1 H2 H3 [x Hx]] s'. split; [by apply kept_upd|].
  assert (inodes s' !! t = Some (mkInode (data x) (data x))) as Hs'
    by (unfold s', upd_inode; cbn; by rewrite lookup_alter_eq, Hx).
  unfold content in H3. rewrite Hx in H3. cbn in H3.
  split; [constructor; [done|done|unfold content; by rewrite Hs'|unfold has_inode; rewrite Hs'; by eexists]|].
  unfold stable_content. by rewrite Hs'.
Qed.

(** After the rename the name leads to [c], and so does the medium. *)
Definition replaced (c : bytes) (s : FS) : Prop :=
  exists t, dir s !! p = Some t /\ has_inode s t /\ content s t = c /\ stable_content s t = c.

Lemma rename_replaced s t c :
  kept s -> tmp_open s t c -> stable_content s t = c -> replaced c (do_rename tmp p s).
Proof.
  intros Hk [H1 H2 H3 H4] Hst. unfold do_rename. rewrite H1. exists t. cbn.
  rewrite lookup_insert_eq. done.
Qed.

(** ** What a crash can show *)

(** In some directory that a crash can leave, the name leads to inode [i]. *)
Definition leads (s : FS) (i : nat) : Prop := exists d, d ∈ exposed s /\ d !! p = Some i.

(** No crash shows the temporary file under the name. *)
Record private (s : FS) : Prop := {
  pr_tmp : forall i, leads s i -> dir s !! tmp <> Some i;
  pr_fresh : forall i, leads s i -> (i < next_ino s)%nat
}.

(** A crash shows nothing under the name that it could not have shown in [s0], unchanged. *)
Record screened (s : FS) : Prop := {
  sc_private : private s;
  sc_exposed : forall d, d ∈ exposed s -> exists d0, d0 ∈ exposed s0 /\ d !! p = d0 !! p;
  sc_content : forall i, leads s i -> content s i = content s0 i /\ stable_content s i = stable_content s0 i
}.

(** What a crash can show under the name: what it could have shown in [s0], unchanged, or the
    complete new contents [c]. *)
Definition survives (c : bytes) (s : FS) : Prop :=
  forall d, d ∈ exposed s ->
    (exists d0, d0 ∈ exposed s0 /\ d !! p = d0 !! p /\
       forall i, d !! p = Some i -> content s i = content s0 i /\ stable_content s i = stable_content s0 i) \/
    (exists t, d !! p = Some t /\ content s t = c /\ stable_content s t = c).

Lemma screened_refl : private s0 -> screened s0.
Proof. constructor; [done|eauto|done]. Qed.

Lemma screened_survives c s : screened s -> survives c s.
Proof.
  intros [_ H2 H3] d Hd. left. destruct (H2 d Hd) as (d0 & H0 & E). exists d0. split; [done|]. split; [done|].
  intros i Hi. apply H3. by exists d.
Qed.

Lemma screened_upd s t g : screened s -> dir s !! tmp = Some t -> screened (upd_inode t g s).
Proof.
  intros [[Ha Hb] H2 H3] Ht. constructor; [by constructor|done|]. intros i Hi. rewrite <- (proj1 (H3 i Hi)), <- (proj2 (H3 i Hi)).
  specialize (Ha i Hi). unfold content, stable_content, upd_inode. cbn. by rewrite lookup_alter_ne by congruence.
Qed.

(** A change of the directory away from the name. *)
Lemma exposed_step s s' :
  was s' = exposed s -> dir s' !! p = dir s !! p ->
  forall d, d ∈ exposed s' -> exists d0, d0 ∈ exposed s /\ d !! p = d0 !! p.
Proof.
  intros Hw Hd d [->|Hin]%elem_of_cons; [exists (dir s); split; [left|done]|]. rewrite Hw in Hin. by exists d.
Qed.

Lemma leads_step s s' i : was s' = exposed s -> dir s' !! p = dir s !! p -> leads s' i -> leads s i.
Proof.
  intros Hw Hd (d & Hin & Hi). destruct (exposed_step s s' Hw Hd d Hin) as (d0 & H0 & E). exists d0. by rewrite <- E.
Qed.

Lemma screened_creat s : screened s -> screened (creat tmp s).
Proof.
  intros Hsc. unfold creat. destruct (dir s !! tmp) as [t|] eqn:E; [done|]. destruct Hsc as [[Ha Hb] H2 H3].
  set (s' := mkFS _ _ _ _). assert (was s' = exposed s) as Hw by done.
  assert (dir s' !! p = dir s !! p) as Hd by (cbn; by rewrite lookup_insert_ne).
  constructor; [constructor|..].
  - intros i Hi. apply (leads_step _ _ _ Hw Hd), Hb in Hi. cbn. rewrite lookup_insert_eq. intros [= <-]. lia.
  - intros i Hi. apply (leads_step _ _ _ Hw Hd), Hb in Hi. cbn. lia.
  - intros d Hin. destruct (exposed_step s s' Hw Hd d Hin) as (d1 & H1 & E1). destruct (H2 d1 H1) as (d0 & H0 & E0).
    exists d0. by rewrite E1.
  - intros i Hi. apply (leads_step _ _ _ Hw Hd) in Hi. rewrite <- (proj1 (H3 i Hi)), <- (proj2 (H3 i Hi)). apply Hb in Hi.
    unfold content, stable_content. cbn. by rewrite lookup_insert_ne by lia.
Qed.

Lemma screened_remove s : screened s -> screened (do_remove tmp s).
Proof.
  intros [[Ha Hb] H2 H3]. set (s' := do_remove tmp s). assert (was s' = exposed s) as Hw by done.
  assert (dir s' !! p = dir s !! p) as Hd by (cbn; by rewrite lookup_delete_ne).
  constructor; [constructor|..].
  - intros i _. cbn. by rewrite lookup_delete_eq.
  - intros i Hi. apply (leads_step _ _ _ Hw Hd), Hb in Hi. done.
  - intros d Hin. destruct (exposed_step s s' Hw Hd d Hin) as (d1 & H1 & E1). destruct (H2 d1 H1) as (d0 & H0 & E0).
    exists d0. by rewrite E1.
  - intros i Hi. apply (leads_step _ _ _ Hw Hd) in Hi. by apply H3.
Qed.

(** The rename: a crash shows the new contents, or still what it could show before. *)
Lemma rename_survives s t c :
  screened s -> tmp_open s t c -> stable_content s t = c ->
  survives c (do_rename tmp p s) /\ dir s ∈ was (do_rename tmp p s).
Proof.
  intros [[Ha Hb] H2 H3] [H4 H5 H6 H7] Hst. unfold do_rename. rewrite H4. split; [|left].
  intros d [->|Hin]%elem_of_cons; [right; exists t; cbn; by rewrite lookup_insert_eq|].
  left. cbn in Hin. destruct (H2 d Hin) as (d0 & H0 & E). exists d0. split; [done|]. split; [done|].
  intros i Hi. apply H3. by exists d.
Qed.

End Atomic.
