(* ===== verification/Wal.v ===== *)
(** * The write-ahead log (src/core/wal/wal.go)

    A log is a list of segment files.  A record is a 4-byte big-endian length followed by a
    protobuf message; it goes to the segment its key hashes to, through a buffered writer.
    The model runs over the files of [Fs], so every system call can fail or be the last one
    before a crash.

    The pooled [WalEntry] objects share their [oneof] wrappers with callers that publish a
    [*pb.WalEntry]: wrappers live in a heap ([wheap]), and the object the pool hands out is
    an argument of [Publish], so that the theorems hold for any state of the pool.  Segments
    are locked one at a time; [Replay], which visits them in parallel, is modelled in
    segment order. *)

From S2P Require Import Prelude Kv Fs.
From stdpp Require Import pretty.

#[local] Open Scope Z_scope.

Module Wal.

Record walSegment := mkSegment { wrt : bufw; wfile : file; path : string }.

Record Wal := mkWal { segments : list walSegment; count : Z }.

(** The wrappers of the [oneof]: [*pb.WalEntry_Set] and [*pb.WalEntry_Delete]. *)
Inductive wrapper :=
| WSet (s : option SetRequest)
| WDelete (d : option DeleteRequest).

Abbreviation wheap := (gmap nat wrapper).

(** The messages [Publish] distinguishes; a [*pb.WalEntry] is given by its wrapper. *)
Inductive message :=
| MEntry (e : option nat)
| MSet (r : SetRequest)
| MDelete (r : DeleteRequest)
| MOther (type : string).

(** [binary.BigEndian.PutUint32]. *)
Definition PutUint32 (v : Z) : bytes :=
  [byte_of (Z.shiftr v 24); byte_of (Z.shiftr v 16); byte_of (Z.shiftr v 8); byte_of v].

(** [binary.BigEndian.Uint32] of the first four bytes. *)
Definition Uint32 (b : bytes) : Z :=
  match b with
  | b0 :: b1 :: b2 :: b3 :: _ =>
      Z.lor (byte_val b3) (Z.lor (Z.shiftl (byte_val b2) 8)
        (Z.lor (Z.shiftl (byte_val b1) 16) (Z.shiftl (byte_val b0) 24)))
  | _ => 0
  end.

(** The combined header and payload of a record. *)
Definition frame (payload : bytes) : bytes :=
  PutUint32 (u32 (Z.of_nat (length payload))) ++ payload.

(** [fmt.Sprintf("%s/seg_%02d.log", dirPath, i)]. *)
Definition segmentPath (dirPath : string) (i : nat) : string :=
  dirPath +:+ "/seg_" +:+ (if (i <? 10)%nat then "0" else EmptyString) +:+ pretty i +:+ ".log".

Fixpoint openSegments (dirPath : string) (bufferSize : Z) (i n : nat) (acc : list walSegment)
    : IO (result (list walSegment)) :=
  match n with
  | O => io_ret (Ok acc)
  | S n' =>
      f <-- openFile (segmentPath dirPath i) false true orelse (fun e => io_ret (Err e));
      f' <-- fseek_end f orelse (fun e =>
        '(_, _) <-- fclose f; io_ret (Err e));
      openSegments dirPath bufferSize (S i) n'
        (acc ++ [mkSegment (NewWriterSize bufferSize) f' (segmentPath dirPath i)])
  end.

(** [NewWal]; directories are not part of the file model, so [os.MkdirAll] is a call
    without effect that can fail. *)
Definition NewWal (dirPath : string) (bufferSize : Z) (segmentCount : nat) : IO (result Wal) :=
  _ <-- syscall "mkdir" 0 (fun _ s => s) (fun _ => tt) orelse (fun e => io_ret (Err e));
  segs <-- openSegments dirPath bufferSize 0 segmentCount [] orelse (fun e => io_ret (Err e));
  io_ret (Ok (mkWal segs (Z.of_nat segmentCount))).

(** One tick of [backgroundSync]; the results of [Flush] and [Sync] are ignored. *)
Definition backgroundSync (seg : walSegment) : IO walSegment :=
  if (0 <? length (buffered (wrt seg)))%nat then
    '(_, f, b) <-- bflush (wfile seg) (wrt seg);
    _ <-- fsync f;
    io_ret (mkSegment b f (path seg))
  else io_ret seg.

(** [Stop] on one segment. *)
Definition stopSegment (seg : walSegment) : IO walSegment :=
  '(_, f, b) <-- bflush (wfile seg) (wrt seg);
  _ <-- fsync f;
  '(_, f) <-- fclose f;
  io_ret (mkSegment b f (path seg)).

Fixpoint mapSegments (g : walSegment -> IO walSegment) (l : list walSegment)
    : IO (list walSegment) :=
  match l with
  | [] => io_ret []
  | s :: l' => s' <-- g s; l'' <-- mapSegments g l'; io_ret (s' :: l'')
  end.

Definition Stop (w : Wal) : IO Wal :=
  segs <-- mapSegments stopSegment (segments w); io_ret (mkWal segs (count w)).

(** The index [getSegment] computes; a count of zero divides by zero. *)
Definition getSegment (w : Wal) (hash : Z) : option nat :=
  let countU := u64 (count w) in
  if countU =? 0 then None else Some (Z.to_nat (hash mod countU)).

Section Publish.
Context `{Proto}.

(** [entry.Entry = &pb.WalEntry_...{...}]: a new wrapper. *)
Definition newWrapper (h : wheap) (x : wrapper) : wheap * option nat :=
  let l := fresh (dom h) in (<[l := x]> h, Some l).

(** The [switch] of [Publish]: the wrapper the pooled entry holds afterwards; a wrapper of
    the right kind is filled in place. *)
Definition installMessage (h : wheap) (entry : option nat) (msg : message)
    : result (wheap * option nat) :=
  match msg with
  | MEntry e => Ok (h, e)
  | MSet m =>
      match entry with
      | Some l =>
          match h !! l with
          | Some (WSet _) => Ok (<[l := WSet (Some m)]> h, entry)
          | _ => Ok (newWrapper h (WSet (Some m)))
          end
      | None => Ok (newWrapper h (WSet (Some m)))
      end
  | MDelete m =>
      match entry with
      | Some l =>
          match h !! l with
          | Some (WDelete _) => Ok (<[l := WDelete (Some m)]> h, entry)
          | _ => Ok (newWrapper h (WDelete (Some m)))
          end
      | None => Ok (newWrapper h (WDelete (Some m)))
      end
  | MOther t => Err (ErrMsg ("unsupported message type: " +:+ t))
  end.

(** The deferred function: the payload of the entry's wrapper is dropped. *)
Definition releaseEntry (h : wheap) (entry : option nat) : wheap :=
  match entry with
  | None => h
  | Some l =>
      match h !! l with
      | Some (WSet _) => <[l := WSet None]> h
      | Some (WDelete _) => <[l := WDelete None]> h
      | None => h
      end
  end.

Definition marshalEntry (h : wheap) (entry : option nat) : option bytes :=
  match entry ≫= (h !!.) with
  | None => Marshal (mkWalEntry None)
  | Some (WSet (Some r)) => Marshal (mkWalEntry (Some (WalEntry_Set r)))
  | Some (WDelete (Some r)) => Marshal (mkWalEntry (Some (WalEntry_Delete r)))
  | Some (WSet None) => MarshalNil true
  | Some (WDelete None) => MarshalNil false
  end.

(** [Publish]: [entry] is the wrapper of the object the pool returned; the result carries
    the wrapper of the object given back to the pool. *)
Definition Publish (w : Wal) (h : wheap) (entry : option nat) (hash : Z) (msg : message)
    : IO (result unit * Wal * wheap * option nat) :=
  match installMessage h entry msg with
  | Err e => io_ret (Err e, w, releaseEntry h entry, entry)
  | Ok (h, entry) =>
      let h' := releaseEntry h entry in
      match marshalEntry h entry with
      | None => io_ret (Err (ErrMsg "marshal"), w, h', entry)
      | Some data =>
          match getSegment w hash ≫= fun i => pair i <$> segments w !! i with
          | None => io_ret (Err (ErrPanic "segment"), w, h', entry)
          | Some (i, seg) =>
              '(r, f, b) <-- bwrite (wfile seg) (wrt seg) (frame data);
              let w := mkWal (<[i := mkSegment b f (path seg)]> (segments w)) (count w) in
              match r with
              | Err e => io_ret (Err e, w, h', entry)
              | Ok _ => io_ret (Ok tt, w, h', entry)
              end
          end
      end
  end.

(** ** Replay *)

(** The [switch] of [setResults]: an operation newer than what the map holds replaces it. *)
Definition applyEntry (results : gmap string Value) (e : WalEntry) : gmap string Value :=
  match Entry e with
  | Some (WalEntry_Set r) =>
      let v := mkValue EmptyString (Some (slice_bytes (set_Value r))) (set_Timestamp r) false 0 in
      match results !! set_Key r with
      | None => <[set_Key r := v]> results
      | Some existing =>
          if Timestamp existing <? set_Timestamp r then <[set_Key r := v]> results else results
      end
  | Some (WalEntry_Delete r) =>
      let v := mkValue EmptyString None (del_Timestamp r) true 0 in
      match results !! del_Key r with
      | None => <[del_Key r := v]> results
      | Some existing =>
          if Timestamp existing <? del_Timestamp r then <[del_Key r := v]> results else results
      end
  | None => results
  end.

(** [setResults]: the pooled entry is reset before it is filled. *)
Definition setResults (payload : bytes) (results : gmap string Value)
    : result (gmap string Value) :=
  match Unmarshal payload with
  | None => Err (ErrMsg "unmarshal")
  | Some entry => Ok (applyEntry results entry)
  end.

(** The loop of [replaySegment] over the bytes of the file; [rderr] says that reading
    ended in an error and not at the end of the file.  Every round consumes four bytes or
    more, so a fuel above the number of bytes is enough. *)
Fixpoint replayLoop (fuel : nat) (b : bytes) (rderr : bool) (results : gmap string Value)
    : gmap string Value * result unit :=
  match fuel with
  | O => (results, Err (ErrMsg "fuel"))
  | S fuel' =>
      if (length b <? 4)%nat then
        if (length b =? 0)%nat && negb rderr then (results, Ok tt)
        else (results, Err (ErrMsg "read header"))
      else
        let size := Z.to_nat (Uint32 b) in
        let rest := drop 4 b in
        if (length rest <? size)%nat then (results, Err (ErrMsg "read payload"))
        else
          match setResults (take size rest) results with
          | Err e => (results, Err e)
          | Ok results => replayLoop fuel' (drop size rest) rderr results
          end
  end.

Definition replaySegment (seg : walSegment) (results : gmap string Value)
    : IO (result unit * walSegment * gmap string Value) :=
  '(r, f, b) <-- bflush (wfile seg) (wrt seg);
  let seg := mkSegment b f (path seg) in
  match r with
  | Err e => io_ret (Err e, seg, results)
  | Ok _ =>
      f <-- fseek_start f 0 orelse (fun e => io_ret (Err e, seg, results));
      '(bs, rderr, f) <-- fread_all f;
      let '(results, r) := replayLoop (S (length bs)) bs rderr results in
      match r with
      | Err e => io_ret (Err e, mkSegment b f (path seg), results)
      | Ok _ =>
          f <-- fseek_end f orelse (fun e => io_ret (Err e, mkSegment b f (path seg), results));
          io_ret (Ok tt, mkSegment b f (path seg), results)
      end
  end.

Fixpoint replaySegments (l : list walSegment) (results : gmap string Value) (firstErr : result unit)
    : IO (gmap string Value * result unit * list walSegment) :=
  match l with
  | [] => io_ret (results, firstErr, [])
  | seg :: l' =>
      '(r, seg, results) <-- replaySegment seg results;
      '(results, err, l'') <-- replaySegments l' results
         (match firstErr with Ok _ => r | Err _ => firstErr end);
      io_ret (results, err, seg :: l'')
  end.

Definition Replay (w : Wal) : IO (gmap string Value * result unit * Wal) :=
  '(results, err, segs) <-- replaySegments (segments w) ∅ (Ok tt);
  io_ret (results, err, mkWal segs (count w)).

End Publish.

(** ** Reclaiming space *)

Fixpoint prepareSegments (l : list walSegment) : IO (result (list Z) * list walSegment) :=
  match l with
  | [] => io_ret (Ok [], [])
  | seg :: l' =>
      '(r, f, b) <-- bflush (wfile seg) (wrt seg);
      match r with
      | Err e => io_ret (Err e, mkSegment b f (path seg) :: l')
      | Ok _ =>
          f <-- fseek_end f orelse (fun e => io_ret (Err e, mkSegment b f (path seg) :: l'));
          '(r, l'') <-- prepareSegments l';
          io_ret (match r with
                  | Ok offs => Ok (Z.of_nat (pos f) :: offs)
                  | Err e => Err e
                  end, mkSegment b f (path seg) :: l'')
      end
  end.

Definition PrepareSnapshot (w : Wal) : IO (result (list Z) * Wal) :=
  '(r, segs) <-- prepareSegments (segments w); io_ret (r, mkWal segs (count w)).

(** The last part of [clearSegment]: the old descriptor refers to an unlinked inode, and the
    renamed file is opened in its place. *)
Definition reopenSegment (b : bufw) (f : file) (p : string) : IO (result unit * walSegment) :=
  '(r, f) <-- fclose f;
  let fail e := io_ret (Err e, mkSegment b f p) in
  match r with
  | Err e => fail e
  | Ok _ =>
      newFile <-- openFile p false true orelse fail;
      newFile <-- fseek_end newFile orelse (fun e => '(_, _) <-- fclose newFile; fail e);
      io_ret (Ok tt, mkSegment (breset b) newFile p)
  end.

(** The path of [clearSegment] that keeps the bytes after [offset]: copy them to a temporary
    file, sync it, and rename it over the segment. *)
Definition clearTail (b : bufw) (f : file) (p : string) (offset : Z) : IO (result unit * walSegment) :=
  let fail f e := io_ret (Err e, mkSegment b f p) in
  f <-- fseek_start f (Z.to_nat offset) orelse fail f;
  let tmpPath := p +:+ ".clear.tmp" in
  tmp <-- openFile tmpPath true false orelse fail f;
  '(r, tmp, f) <-- io_Copy tmp f;
  match r with
  | Err e => '(_, _) <-- fclose tmp; _ <-- os_Remove tmpPath; fail f e
  | Ok _ =>
      _ <-- fsync tmp orelse (fun e => '(_, _) <-- fclose tmp; _ <-- os_Remove tmpPath; fail f e);
      '(r, _) <-- fclose tmp;
      match r with
      | Err e => _ <-- os_Remove tmpPath; fail f e
      | Ok _ =>
          _ <-- os_Rename tmpPath p orelse (fun e => _ <-- os_Remove tmpPath; fail f e);
          reopenSegment b f p
      end
  end.

(** [clearSegment]; the returned segment is the one left behind by the path taken. *)
Definition clearSegment (seg : walSegment) (offset : Z) : IO (result unit * walSegment) :=
  '(r, f, b) <-- bflush (wfile seg) (wrt seg);
  let fail f e := io_ret (Err e, mkSegment b f (path seg)) in
  match r with
  | Err e => fail f e
  | Ok _ =>
      f <-- fseek_end f orelse fail f;
      let currSize := Z.of_nat (pos f) in
      if (offset <=? 0) || (currSize <=? offset) then
        _ <-- ftruncate f 0 orelse fail f;
        f <-- fseek_start f 0 orelse fail f;
        io_ret (Ok tt, mkSegment (breset b) f (path seg))
      else clearTail b f (path seg) offset
  end.

(** The loop of [Clear]; a missing offset is zero. *)
Fixpoint clearSegments (offsets : list Z) (l : list walSegment) : IO (result unit * list walSegment) :=
  match l with
  | [] => io_ret (Ok tt, [])
  | seg :: l' =>
      '(r, seg) <-- clearSegment seg (default 0 (head offsets));
      match r with
      | Err e => io_ret (Err e, seg :: l')
      | Ok _ => '(r, l'') <-- clearSegments (tail offsets) l'; io_ret (r, seg :: l'')
      end
  end.

(** [Clear]; a nil slice of offsets is the empty list. *)
Definition Clear (w : Wal) (offsets : list Z) : IO (result unit * Wal) :=
  '(r, segs) <-- clearSegments offsets (segments w); io_ret (r, mkWal segs (count w)).

End Wal.
