(* ===== verification/WalTheory.v ===== *)
(** * What the write-ahead log guarantees

    Framing round trip, replay, the behaviour under faults and crashes, and the space
    reclamation of [Clear]. *)

From S2P Require Import Prelude Kv Fs Atomic Wal.
From stdpp Require Import pretty.

#[local] Open Scope Z_scope.

Import Wal.

(** ** Framing *)

Lemma byte_of_val_shift v k :
  0 <= k -> byte_val (byte_of (Z.shiftr v k)) = (v / 2 ^ k) mod 256.
Proof. intros. by rewrite byte_val_of, Z.shiftr_div_pow2. Qed.

Lemma lor_add lo hi n : 0 <= n -> 0 <= lo < 2 ^ n -> Z.lor lo (hi * 2 ^ n) = lo + hi * 2 ^ n.
Proof.
  intros. rewrite Z.lor_comm, <- Z.shiftl_mul_pow2, lor_shiftl_low by lia.
  rewrite Z.shiftl_mul_pow2 by lia. lia.
Qed.

Lemma Uint32_PutUint32 v rest : 0 <= v < 2 ^ 32 -> Uint32 (PutUint32 v ++ rest) = v.
Proof.
  intros Hv. unfold PutUint32, Uint32. cbn [app].
  rewrite !byte_of_val_shift, byte_val_of by lia.
  set (b0 := (v / 2 ^ 24) mod 256). set (b1 := (v / 2 ^ 16) mod 256).
  set (b2 := (v / 2 ^ 8) mod 256). set (b3 := v mod 256).
  assert (0 <= b0 < 2 ^ 8 /\ 0 <= b1 < 2 ^ 8 /\ 0 <= b2 < 2 ^ 8 /\ 0 <= b3 < 2 ^ 8) as Hb
    by (unfold b0, b1, b2, b3; repeat split; apply Z.mod_pos_bound; lia).
  rewrite !Z.shiftl_mul_pow2 by lia.
  rewrite (lor_add (b1 * 2 ^ 16) b0 24) by lia.
  replace (b1 * 2 ^ 16 + b0 * 2 ^ 24) with ((b1 + b0 * 2 ^ 8) * 2 ^ 16) by lia.
  rewrite (lor_add (b2 * 2 ^ 8) _ 16) by lia.
  replace (b2 * 2 ^ 8 + (b1 + b0 * 2 ^ 8) * 2 ^ 16) with
    ((b2 + (b1 + b0 * 2 ^ 8) * 2 ^ 8) * 2 ^ 8) by lia.
  rewrite (lor_add b3 _ 8) by lia.
  unfold b0, b1, b2, b3.
  rewrite (Z.mod_small (v / 2 ^ 24)) by (split; [apply Z.div_pos|apply Z.div_lt_upper_bound]; lia).
  zlia.
Qed.

Section Replay.
Context `{ProtoLaws}.

(** A payload the log can carry: its length fits the header and it decodes to [e]. *)
Definition carries (payload : bytes) (e : WalEntry) : Prop :=
  Z.of_nat (length payload) < 2 ^ 32 /\ Unmarshal payload = Some e.

(** The bytes of a log of payloads. *)
Definition log_bytes (ps : list bytes) : bytes := ps ≫= frame.

Lemma log_bytes_app ps qs : log_bytes (ps ++ qs) = log_bytes ps ++ log_bytes qs.
Proof. apply bind_app. Qed.

Lemma log_bytes_snoc ps p : log_bytes (ps ++ [p]) = log_bytes ps ++ frame p.
Proof. rewrite log_bytes_app. unfold log_bytes. by rewrite bind_singleton. Qed.

Lemma frame_length p : length (frame p) = (4 + length p)%nat.
Proof. done. Qed.

(** One round of the loop reads one record back. *)
Lemma replayLoop_frame fuel p e rest rderr m :
  carries p e ->
  replayLoop (S fuel) (frame p ++ rest) rderr m = replayLoop fuel rest rderr (applyEntry m e).
Proof.
  intros [Hlen Hun]. cbn [replayLoop].
  rewrite length_app, frame_length. destruct (Nat.ltb_spec (4 + length p + length rest) 4); [lia|].
  unfold frame. rewrite <- (assoc_L (++)), Uint32_PutUint32 by apply u32_range.
  rewrite u32_small, Nat2Z.id by lia.
  change (drop 4 (PutUint32 (Z.of_nat (length p)) ++ p ++ rest)) with (p ++ rest).
  rewrite length_app. destruct (Nat.ltb_spec (length p + length rest) (length p)); [lia|].
  rewrite take_app_length, drop_app_length. unfold setResults. by rewrite Hun.
Qed.

(** Replaying a whole log applies its entries in order. *)
Lemma replayLoop_log ps es fuel rest rderr m :
  Forall2 carries ps es ->
  replayLoop (length ps + fuel) (log_bytes ps ++ rest) rderr m =
    replayLoop fuel rest rderr (foldl applyEntry m es).
Proof.
  intros Hc. revert m. induction Hc as [|p e ps es Hp Hps IH]; intros m; [done|].
  cbn [length Nat.add foldl]. unfold log_bytes in *. rewrite bind_cons, <- (assoc_L (++)).
  by rewrite (replayLoop_frame _ p e) by done.
Qed.

(** A fuel above the number of bytes is enough. *)
Lemma replayLoop_fuel fuel fuel' b rderr m :
  (length b < fuel)%nat -> (fuel <= fuel')%nat ->
  replayLoop fuel' b rderr m = replayLoop fuel b rderr m.
Proof.
  revert fuel' b m. induction fuel as [|fuel IH]; intros fuel' b m Hb Hf; [lia|].
  destruct fuel' as [|fuel']; [lia|]. cbn [replayLoop].
  destruct (Nat.ltb_spec (length b) 4); [done|].
  destruct (length (drop 4 b) <? _)%nat; [done|]. destruct (setResults _ _); [|done].
  apply IH; [|lia]. rewrite !length_drop. lia.
Qed.

Lemma log_bytes_length ps : (length ps <= length (log_bytes ps))%nat.
Proof.
  induction ps as [|p ps IH]; [done|]. unfold log_bytes in *.
  rewrite bind_cons, length_app, frame_length. cbn. lia.
Qed.

(** The result of replaying an intact log. *)
Lemma replayLoop_intact ps es m :
  Forall2 carries ps es ->
  replayLoop (S (length (log_bytes ps))) (log_bytes ps) false m = (foldl applyEntry m es, Ok tt).
Proof.
  intros Hc. pose proof (log_bytes_length ps).
  rewrite <- (app_nil_r (log_bytes ps)) at 2.
  replace (S (length (log_bytes ps))) with
    (length ps + S (length (log_bytes ps) - length ps))%nat by lia.
  by rewrite (replayLoop_log ps es).
Qed.

(** A torn log: some whole records, and a piece of the next one. *)
Lemma torn_log ps c :
  c `prefix_of` log_bytes ps ->
  exists qs t, qs `prefix_of` ps /\ c = log_bytes qs ++ t /\
    (t = [] \/ exists p, qs ++ [p] `prefix_of` ps /\ t `prefix_of` frame p /\
       (length t < length (frame p))%nat).
Proof.
  induction ps as [|p ps IH] using rev_ind; intros Hc.
  - apply prefix_nil_inv in Hc as ->. exists [], []. split; [done|]. split; [done|by left].
  - rewrite log_bytes_snoc in Hc. destruct (decide (length c <= length (log_bytes ps))%nat) as [Hl|Hl].
    + destruct IH as (qs & t & Hq & -> & Ht).
      { destruct Hc as [k Hk]. apply (f_equal (take (length c))) in Hk.
        rewrite take_app_length, take_app_le in Hk by lia. rewrite <- Hk. apply prefix_take. }
      exists qs, t. split; [by apply prefix_app_r|]. split; [done|].
      destruct Ht as [?|(x & Hx & ?)]; [by left|right]. exists x. split; [|done].
      by apply prefix_app_r.
    + destruct Hc as [k Hk].
      assert (c = log_bytes ps ++ drop (length (log_bytes ps)) c) as Hcc.
      { rewrite <- (take_drop (length (log_bytes ps)) c) at 1. f_equal.
        apply (f_equal (take (length (log_bytes ps)))) in Hk.
        rewrite take_app_length, take_app_le in Hk by lia. done. }
      set (t := drop (length (log_bytes ps)) c) in *.
      rewrite Hcc, <- (assoc_L (++)) in Hk. apply app_inv_head in Hk.
      destruct (decide (k = [])) as [->|Hk0].
      * exists (ps ++ [p]), []. split; [done|]. split; [|by left].
        rewrite app_nil_r in *. rewrite log_bytes_snoc, Hk. done.
      * exists ps, t. split; [by apply prefix_app_r|]. split; [done|]. right. exists p.
        split; [done|]. split; [by exists k|]. rewrite Hk, length_app.
        destruct k; [done|]. cbn. lia.
Qed.

(** The piece of a record at the end of a torn log is reported as an error. *)
Lemma replayLoop_piece fuel p t m :
  Z.of_nat (length p) < 2 ^ 32 -> t `prefix_of` frame p -> (length t < length (frame p))%nat ->
  t <> [] -> exists e, replayLoop (S fuel) t false m = (m, Err e).
Proof.
  intros Hp [k Hk] Hlt Hne. cbn [replayLoop]. destruct (Nat.ltb_spec (length t) 4) as [|H4].
  { destruct t; [done|]. cbn. by eexists. }
  assert (Uint32 t = Z.of_nat (length p)) as ->.
  { unfold frame in Hk. rewrite u32_small in Hk by lia.
    destruct t as [|a [|b [|c [|d t]]]]; cbn in H4; try lia.
    rewrite <- (Uint32_PutUint32 (Z.of_nat (length p)) p) by lia. rewrite Hk. done. }
  rewrite Nat2Z.id, length_drop. rewrite frame_length in Hlt.
  destruct (Nat.ltb_spec (length t - 4) (length p)); [by eexists|lia].
Qed.

(** Whole records at the front of a torn log are all among those found. *)
Lemma torn_log_max ps qs t c j :
  c = log_bytes qs ++ t -> qs `prefix_of` ps ->
  (t = [] \/ exists p, qs ++ [p] `prefix_of` ps /\ t `prefix_of` frame p /\
     (length t < length (frame p))%nat) ->
  (j <= length ps)%nat -> log_bytes (take j ps) `prefix_of` c -> (j <= length qs)%nat.
Proof.
  intros -> Hq Ht Hj Hpre. destruct (decide (j <= length qs)%nat) as [|Hlt]; [done|exfalso].
  assert (exists p, qs ++ [p] `prefix_of` take j ps /\ qs ++ [p] `prefix_of` ps) as (p & Hp & Hp').
  { destruct Hq as [k ->]. rewrite length_app in Hj. destruct k as [|p k]; [cbn in *; lia|].
    exists p. rewrite take_app_ge by lia.
    replace (j - length qs)%nat with (S (j - length qs - 1)) by lia. cbn [take].
    split; apply prefix_app, prefix_cons, prefix_nil. }
  assert (log_bytes qs ++ frame p `prefix_of` log_bytes qs ++ t) as Hf.
  { rewrite <- log_bytes_snoc. etrans; [|exact Hpre]. destruct Hp as [k ->].
    rewrite (log_bytes_app (qs ++ [p])). by apply prefix_app_r. }
  apply prefix_length in Hf. rewrite !length_app in Hf.
  destruct Ht as [->|(p' & Hp2 & _ & Hl)]; [cbn in Hf; lia|].
  destruct Hp' as [k1 E1], Hp2 as [k2 E2]. rewrite E1, <- !(assoc_L (++)) in E2.
  apply app_inv_head in E2. injection E2 as -> _. lia.
Qed.

(** Replaying what a crash left of a log applies a prefix of its entries, with every whole
    record in it, and succeeds exactly when the log was cut between two records. *)
Lemma replayLoop_prefix ps es c m :
  Forall2 carries ps es -> c `prefix_of` log_bytes ps ->
  exists k r, (k <= length ps)%nat /\
    replayLoop (S (length c)) c false m = (foldl applyEntry m (take k es), r) /\
    (forall j, (j <= length ps)%nat -> log_bytes (take j ps) `prefix_of` c -> (j <= k)%nat) /\
    (r = Ok tt <-> c = log_bytes (take k ps)).
Proof.
  intros Hc Hpre. destruct (torn_log ps c Hpre) as (qs & t & Hq & Ec & Ht).
  assert (qs = take (length qs) ps) as Eq by (destruct Hq as [k ->]; by rewrite take_app_length).
  exists (length qs).
  assert (forall j, (j <= length ps)%nat -> log_bytes (take j ps) `prefix_of` c ->
    (j <= length qs)%nat) as Hmax by (intros j; by apply (torn_log_max ps qs t)). subst c.
  assert (Forall2 carries qs (take (length qs) es)) as Hcq
    by (rewrite Eq; rewrite Eq at 1; rewrite length_take; by apply Forall2_take).
  set (n := (S (length (log_bytes qs ++ t)) - length qs)%nat).
  pose proof (log_bytes_length qs).
  assert (S (length (log_bytes qs ++ t)) = (length qs + n)%nat) as ->
    by (unfold n; rewrite length_app; lia).
  rewrite (replayLoop_log qs (take (length qs) es)) by done. rewrite <- Eq.
  assert (n = S (pred n)) as Hn by (unfold n; rewrite length_app; lia).
  rewrite Hn. pose proof (prefix_length _ _ Hq).
  destruct Ht as [->|(p & Hp & Htp & Hlt)].
  - exists (Ok tt). rewrite app_nil_r in *. split; [done|]. split; [done|]. by split.
  - destruct (decide (t = [])) as [->|Hne].
    { exists (Ok tt). rewrite app_nil_r in *. split; [done|]. split; [done|]. by split. }
    assert (Z.of_nat (length p) < 2 ^ 32) as Hlp.
    { destruct Hp as [k' ->]. rewrite <- (assoc_L (++)) in Hc.
      apply Forall2_app_inv_l in Hc as (? & ? & _ & Hc & _).
      inversion Hc as [|? ? ? ? [Hl _]]; subst. done. }
    destruct (replayLoop_piece (pred n) p t (foldl applyEntry m (take (length qs) es)))
      as [e He]; [done..|].
    rewrite He. exists (Err e). split; [done|]. split; [done|].
    split; [done|]. split; [done|].
    intros E. rewrite <- (app_nil_r (log_bytes qs)) in E at 2. by apply app_inv_head in E.
Qed.

End Replay.

(** ** What replay computes *)

Definition entry_key (e : WalEntry) : option string :=
  match Entry e with
  | Some (WalEntry_Set r) => Some (set_Key r)
  | Some (WalEntry_Delete r) => Some (del_Key r)
  | None => None
  end.

Definition entry_ts (e : WalEntry) : Z :=
  match Entry e with
  | Some (WalEntry_Set r) => set_Timestamp r
  | Some (WalEntry_Delete r) => del_Timestamp r
  | None => 0
  end.

(** The record an entry restores: the node id is not restored. *)
Definition entry_value (e : WalEntry) : Value :=
  match Entry e with
  | Some (WalEntry_Set r) =>
      mkValue EmptyString (Some (slice_bytes (set_Value r))) (set_Timestamp r) false 0
  | Some (WalEntry_Delete r) => mkValue EmptyString None (del_Timestamp r) true 0
  | None => zeroValue
  end.

(** [m] holds, for every key of [es] and no other, the newest of its entries. *)
Definition newest (es : list WalEntry) (m : gmap string Value) : Prop :=
  forall k, match m !! k with
            | None => forall e, e ∈ es -> entry_key e <> Some k
            | Some v => (exists e, e ∈ es /\ entry_key e = Some k /\ entry_value e = v) /\
                        forall e, e ∈ es -> entry_key e = Some k -> entry_ts e <= Timestamp v
            end.

Lemma applyEntry_lookup m e k :
  applyEntry m e !! k =
    if decide (entry_key e = Some k) then
      match m !! k with
      | None => Some (entry_value e)
      | Some v => if Timestamp v <? entry_ts e then Some (entry_value e) else Some v
      end
    else m !! k.
Proof.
  unfold applyEntry, entry_key, entry_value, entry_ts.
  destruct (Entry e) as [[r|r]|]; [..|by rewrite decide_False].
  - destruct (decide (Some (set_Key r) = Some k)) as [[= <-]|Hk].
    + destruct (m !! set_Key r) as [v|] eqn:E; [|by rewrite lookup_insert_eq].
      destruct (_ <? _); [by rewrite lookup_insert_eq|done].
    + assert (set_Key r <> k) by congruence.
      destruct (m !! set_Key r); [destruct (_ <? _)|]; by rewrite ?lookup_insert_ne.
  - destruct (decide (Some (del_Key r) = Some k)) as [[= <-]|Hk].
    + destruct (m !! del_Key r) as [v|] eqn:E; [|by rewrite lookup_insert_eq].
      destruct (_ <? _); [by rewrite lookup_insert_eq|done].
    + assert (del_Key r <> k) by congruence.
      destruct (m !! del_Key r); [destruct (_ <? _)|]; by rewrite ?lookup_insert_ne.
Qed.

Lemma entry_value_ts e k : entry_key e = Some k -> Timestamp (entry_value e) = entry_ts e.
Proof. unfold entry_key, entry_value, entry_ts. by destruct (Entry e) as [[]|]. Qed.

Lemma newest_snoc es m e : newest es m -> newest (es ++ [e]) (applyEntry m e).
Proof.
  intros Hn k. specialize (Hn k). rewrite applyEntry_lookup.
  assert (forall x, x ∈ es ++ [e] <-> x ∈ es \/ x = e) as Hin
    by (intros x; by rewrite elem_of_app, list_elem_of_singleton).
  destruct (decide (entry_key e = Some k)) as [Hk|Hk].
  - destruct (m !! k) as [v|].
    + destruct Hn as [(e0 & H0 & Hk0 & Hv0) Hmax]. destruct (Z.ltb_spec (Timestamp v) (entry_ts e)).
      * split; [exists e; split; [apply Hin; by right|done]|].
        rewrite (entry_value_ts e k Hk). intros x [Hx| ->]%Hin Hxk; [|done].
        specialize (Hmax x Hx Hxk). lia.
      * split; [exists e0; split; [apply Hin; by left|done]|].
        intros x [Hx| ->]%Hin Hxk; [by apply Hmax|lia].
    + split; [exists e; split; [apply Hin; by right|done]|].
      rewrite (entry_value_ts e k Hk). intros x [Hx| ->]%Hin Hxk; [by destruct (Hn x)|done].
  - destruct (m !! k) as [v|].
    + destruct Hn as [(e0 & H0 & Hk0 & Hv0) Hmax].
      split; [exists e0; split; [apply Hin; by left|done]|].
      intros x [Hx| ->]%Hin Hxk; [by apply Hmax|done].
    + intros x [Hx| ->]%Hin; [by apply Hn|done].
Qed.

Lemma newest_foldl es : newest es (foldl applyEntry ∅ es).
Proof.
  induction es as [|e es IH] using rev_ind.
  - intros k. cbn [foldl]. rewrite lookup_empty. intros e He. by apply elem_of_nil in He.
  - rewrite foldl_snoc. by apply newest_snoc.
Qed.

(** A key's value depends only on the entries of that key, in their order. *)
Lemma foldl_applyEntry_key es m k :
  foldl applyEntry m es !! k =
    foldl applyEntry m (filter (fun e => entry_key e = Some k) es) !! k.
Proof.
  assert (forall es m m', m !! k = m' !! k ->
    foldl applyEntry m es !! k =
    foldl applyEntry m' (filter (fun e => entry_key e = Some k) es) !! k) as H; [|by apply H].
  clear es m. induction es as [|e es IH]; intros m m' Hm; [done|].
  rewrite filter_cons. cbn [foldl]. destruct (decide (entry_key e = Some k)) as [Hk|Hk].
  - cbn [foldl]. apply IH. rewrite !applyEntry_lookup, !decide_True by done. by rewrite Hm.
  - apply IH. by rewrite applyEntry_lookup, decide_False.
Qed.

(** Two logs with the same entries per key replay to the same map, however the keys are
    interleaved: this is why segments can be replayed in any order and in parallel. *)
Lemma foldl_applyEntry_interleave es es' :
  (forall k, filter (fun e => entry_key e = Some k) es = filter (fun e => entry_key e = Some k) es') ->
  foldl applyEntry ∅ es = foldl applyEntry ∅ es'.
Proof.
  intros H. apply map_eq. intros k. rewrite (foldl_applyEntry_key es), (foldl_applyEntry_key es').
  by rewrite H.
Qed.

(** ** The invariant of an open log *)

Definition seg_ino (seg : walSegment) : nat := ino (wfile seg).

(** A segment that was given the payloads [ps]: while its writer works, file and buffer
    together hold exactly their records; after a failure the file holds a prefix. *)
Definition seg_inv (s : FS) (seg : walSegment) (ps : list bytes) : Prop :=
  appending (wfile seg) /\ has_inode s (seg_ino seg) /\ dir s !! path seg = Some (seg_ino seg) /\
  content s (seg_ino seg) `prefix_of` log_bytes ps /\
  (berr (wrt seg) = None -> content s (seg_ino seg) ++ buffered (wrt seg) = log_bytes ps).

Definition healthy (w : Wal) : Prop := Forall (fun seg => berr (wrt seg) = None) (segments w).

Record wal_inv (s : FS) (w : Wal) (logs : list (list bytes)) : Prop := {
  wi_segments : Forall2 (seg_inv s) (segments w) logs;
  wi_distinct : NoDup (seg_ino <$> segments w);
  wi_count : count w = Z.of_nat (length (segments w));
  wi_range : 0 < count w < 2 ^ 64
}.

(** What a crash leaves: every segment file holds a prefix of its records. *)
Definition files_inv (s : FS) (w : Wal) (logs : list (list bytes)) : Prop :=
  Forall2 (fun seg ps => exists i, dir s !! path seg = Some i /\ content s i `prefix_of` log_bytes ps)
    (segments w) logs.

Lemma wal_files_inv s w logs : wal_inv s w logs -> files_inv s w logs.
Proof.
  intros [H _ _ _]. eapply Forall2_impl; [exact H|]. intros seg ps (_ & _ & Hd & Hp & _).
  by eexists.
Qed.

Lemma seg_inv_other s seg ps i c :
  seg_inv s seg ps -> i <> seg_ino seg -> seg_inv (set_content i c s) seg ps.
Proof.
  intros (Ha & Hi & Hd & Hp & Hc) Hne. repeat split; [apply Ha|apply Ha|by apply has_inode_set|done|..];
    by rewrite content_set_ne.
Qed.

(** Changing one segment, and the contents of its inode. *)
Lemma wal_inv_update s w logs i seg seg' ps ps' c :
  wal_inv s w logs -> segments w !! i = Some seg -> logs !! i = Some ps ->
  seg_ino seg' = seg_ino seg ->
  seg_inv (set_content (seg_ino seg) c s) seg' ps' ->
  wal_inv (set_content (seg_ino seg) c s) (mkWal (<[i := seg']> (segments w)) (count w))
    (<[i := ps']> logs).
Proof.
  intros [HF Hd Hn Hr] Hi Hl Hino Hs.
  assert (i < length (segments w))%nat as Hlt by by eapply lookup_lt_Some.
  constructor; cbn [segments count].
  - apply Forall2_same_length_lookup_2.
    { rewrite !length_insert. by eapply Forall2_length. }
    intros j x y Hx Hy. destruct (decide (i = j)) as [->|Hij].
    + rewrite list_lookup_insert_eq in Hx by done.
      rewrite list_lookup_insert_eq in Hy by (by eapply lookup_lt_Some). by simplify_eq.
    + rewrite list_lookup_insert_ne in Hx by done. rewrite list_lookup_insert_ne in Hy by done.
      apply seg_inv_other; [by eapply (Forall2_lookup_lr _ _ _ j)|].
      intros E. apply Hij. eapply (NoDup_lookup _ i j (seg_ino seg) Hd).
      * by rewrite list_lookup_fmap, Hi.
      * by rewrite list_lookup_fmap, Hx, E.
  - rewrite list_fmap_insert, Hino, list_insert_id; [done|]. by rewrite list_lookup_fmap, Hi.
  - by rewrite length_insert.
  - done.
Qed.

Lemma files_inv_update s w logs i seg ps ps' c :
  wal_inv s w logs -> segments w !! i = Some seg -> logs !! i = Some ps ->
  c `prefix_of` log_bytes ps' ->
  files_inv (set_content (seg_ino seg) c s) w (<[i := ps']> logs).
Proof.
  intros Hw Hi Hl Hc. pose proof Hw as [HF Hd Hn Hr]. unfold files_inv.
  apply Forall2_same_length_lookup_2.
  { rewrite length_insert. by eapply Forall2_length. }
  intros j x y Hx Hy.
  pose proof (Forall2_lookup_l _ _ _ j x HF Hx) as (y0 & Hy0 & (_ & Hino & Hdir & Hpre & _)).
  exists (seg_ino x). split; [done|]. destruct (decide (i = j)) as [->|Hij].
  - rewrite list_lookup_insert_eq in Hy by (by eapply lookup_lt_Some). simplify_eq.
    by rewrite content_set.
  - rewrite list_lookup_insert_ne in Hy by done. rewrite content_set_ne; [by simplify_eq|].
    intros E. apply Hij. eapply (NoDup_lookup _ i j (seg_ino seg) Hd).
    + by rewrite list_lookup_fmap, Hi.
    + by rewrite list_lookup_fmap, Hx, E.
Qed.

(** Files only grow, nothing is synced, and names stay where they are. *)
Record extends (s s' : FS) : Prop := {
  ex_dir : dir s' = dir s;
  ex_next : next_ino s' = next_ino s;
  ex_inode : forall i, has_inode s' i <-> has_inode s i;
  ex_stable : forall i, stable_content s' i = stable_content s i;
  ex_content : forall i, content s i `prefix_of` content s' i
}.

#[export] Instance extends_preorder : PreOrder extends.
Proof.
  split; [by intros s|]. intros s1 s2 s3 [] []. constructor; try congruence.
  - intros i. by trans (has_inode s2 i).
  - intros i. by trans (content s2 i).
Qed.

Lemma extends_set s i c : content s i `prefix_of` c -> extends s (set_content i c s).
Proof.
  intros Hc. constructor; [done..|intros; apply has_inode_set|intros; apply stable_set|].
  intros j. destruct (decide (i = j)) as [->|Hne].
  - destruct (inodes s !! j) as [x|] eqn:E.
    + rewrite content_set; [done|]. by eexists.
    + unfold content at 1. rewrite E. apply prefix_nil.
  - by rewrite content_set_ne.
Qed.

Lemma bwrite_failed f b p e w : berr b = Some e -> bwrite f b p w = Ret (Err e, f, b) w.
Proof.
  intros He. unfold bwrite, io_bind. rewrite (bwrite_loop_failed _ _ _ _ e) by done. cbn.
  by rewrite He.
Qed.

(** Handing one more record to a segment. *)
Lemma wp_append w h i seg ps p wd :
  wal_inv (fs wd) w h -> segments w !! i = Some seg -> h !! i = Some ps ->
  wp (bwrite (wfile seg) (wrt seg) (frame p))
    (fun '(r, f, b) wd' =>
       wal_inv (fs wd') (mkWal (<[i := mkSegment b f (path seg)]> (segments w)) (count w))
         (<[i := ps ++ [p]]> h) /\
       extends (fs wd) (fs wd') /\
       match r with Ok _ => berr b = None | Err e => berr b = Some e end /\
       (quiet wd -> berr (wrt seg) = None -> quiet wd' /\ r = Ok tt))
    (fun s' => files_inv s' w (<[i := ps ++ [p]]> h) /\ extends (fs wd) s') wd.
Proof.
  intros Hw Hi Hl.
  pose proof (Forall2_lookup_lr _ _ _ i seg ps (wi_segments _ _ _ Hw) Hi Hl)
    as ([Ha Hcl] & Hino & Hdir & Hpre & Hcont).
  destruct (berr (wrt seg)) as [e|] eqn:Ee.
  { unfold wp. rewrite (bwrite_failed _ _ _ e) by done. split; [|by split].
    rewrite <- (set_content_id (seg_ino seg) (fs wd)).
    apply (wal_inv_update _ _ _ _ _ _ ps); [done..|]. rewrite set_content_id.
    split; [by split|]. split; [done|]. split; [done|]. cbn [wrt]. rewrite Ee. split; [|done].
    rewrite log_bytes_snoc. by apply prefix_app_r. }
  specialize (Hcont eq_refl).
  assert (content (fs wd) (seg_ino seg) ++ buffered (wrt seg) ++ frame p = log_bytes (ps ++ [p]))
    as Hlog by by rewrite log_bytes_snoc, <- Hcont, (assoc_L (++)).
  eapply wp_mono; [by apply wp_bwrite|..].
  - intros [[r f] b] wd' (Hp & Hr & Hq). split; [|split; [|by split; [|intros; apply Hq]]].
    + destruct (pu_content _ _ _ _ _ _ _ Hp) as (c & Hs & H1 & H2 & H3). rewrite Hs.
      apply (wal_inv_update _ _ _ _ seg _ ps); [done..|by apply Hp|].
      unfold seg_ino in *. split; [apply Hp|]. cbn [wfile wrt path]. unfold seg_ino. cbn [wfile].
      rewrite (pu_ino _ _ _ _ _ _ _ Hp).
      split; [by apply has_inode_set|]. split; [done|]. rewrite content_set by done.
      split; [by rewrite <- Hlog|]. intros He. rewrite (H3 He). done.
    + destruct (pu_content _ _ _ _ _ _ _ Hp) as (c & Hs & H1 & _). rewrite Hs.
      by apply extends_set.
  - intros s' (c & -> & H1 & H2). split; [|by apply extends_set].
    eapply files_inv_update; [done..|]. by rewrite <- Hlog.
Qed.

Section PublishSpec.
Context `{ProtoLaws}.

(** The messages the storage layer publishes. *)
Definition op_message (o : walOp) : message :=
  match o with WalEntry_Set r => MSet r | WalEntry_Delete r => MDelete r end.

(** Whatever object the pool hands out, it is encoded with the message just installed. *)
Lemma install_marshal h entry o :
  exists h' entry', installMessage h entry (op_message o) = Ok (h', entry') /\
    marshalEntry h' entry' = Marshal (mkWalEntry (Some o)).
Proof.
  assert (forall l x, marshalEntry (<[l := x]> h) (Some l) = match x with
    | WSet (Some r) => Marshal (mkWalEntry (Some (WalEntry_Set r)))
    | WDelete (Some r) => Marshal (mkWalEntry (Some (WalEntry_Delete r)))
    | WSet None => MarshalNil true | WDelete None => MarshalNil false end) as Hx.
  { intros l x. unfold marshalEntry. ored. rewrite lookup_insert_eq. by destruct x as [[]|[]]. }
  destruct o as [r|r]; cbn [op_message installMessage];
    (destruct entry as [l|]; [destruct (h !! l) as [[]|]|]); do 2 eexists;
    (split; [reflexivity|apply Hx]).
Qed.

Lemma getSegment_lookup s w logs hash :
  wal_inv s w logs -> 0 <= hash ->
  exists i seg ps, getSegment w hash = Some i /\ i = Z.to_nat (hash mod count w) /\
    segments w !! i = Some seg /\ logs !! i = Some ps.
Proof.
  intros Hw Hh. pose proof (wi_range _ _ _ Hw) as Hr. pose proof (wi_count _ _ _ Hw) as Hn.
  unfold getSegment. rewrite u64_small by lia.
  destruct (Z.eqb_spec (count w) 0); [lia|]. set (i := Z.to_nat (hash mod count w)).
  assert (i < length (segments w))%nat as Hi
    by (unfold i; pose proof (Z.mod_pos_bound hash (count w)); lia).
  destruct (lookup_lt_is_Some_2 _ _ Hi) as [seg Hseg].
  destruct (Forall2_lookup_l _ _ _ i seg (wi_segments _ _ _ Hw) Hseg) as (ps & Hps & _).
  exists i, seg, ps. done.
Qed.

(** [Publish] of a message that encodes to [data]. *)
Lemma wp_Publish w logs h entry hash o payload wd :
  wal_inv (fs wd) w logs -> 0 <= hash -> Marshal (mkWalEntry (Some o)) = Some payload ->
  let i := Z.to_nat (hash mod count w) in
  let logs' := alter (fun ps => ps ++ [payload]) i logs in
  wp (Publish w h entry hash (op_message o))
    (fun '(r, w', h', _) wd' =>
       wal_inv (fs wd') w' logs' /\ extends (fs wd) (fs wd') /\ count w' = count w /\
       path <$> segments w' = path <$> segments w /\
       (r = Ok tt -> exists seg, segments w' !! i = Some seg /\ berr (wrt seg) = None) /\
       (quiet wd -> healthy w -> quiet wd' /\ r = Ok tt /\ healthy w'))
    (fun s' => files_inv s' w logs' /\ extends (fs wd) s') wd.
Proof.
  intros Hw Hh Hm i logs'. unfold Publish.
  destruct (install_marshal h entry o) as (h' & entry' & -> & ->). rewrite Hm.
  destruct (getSegment_lookup _ _ _ hash Hw Hh) as (i' & seg & ps & -> & -> & Hseg & Hps).
  fold i in Hseg, Hps |- *. ored. rewrite Hseg. ored.
  assert (logs' = <[i := ps ++ [payload]]> logs) as Hlogs.
  { unfold logs'. apply list_eq. intros j. destruct (decide (i = j)) as [->|].
    - rewrite list_lookup_alter_eq, list_lookup_insert_eq by (by eapply lookup_lt_Some).
      by rewrite Hps.
    - by rewrite list_lookup_alter_ne, list_lookup_insert_ne. }
  rewrite Hlogs. apply wp_bind. eapply wp_mono; [by apply wp_append| |done].
  intros [[r f] b] wd' (Hw' & Hext & Hr & Hq).
  assert (path <$> <[i := mkSegment b f (path seg)]> (segments w) = path <$> segments w) as Hpath
    by (rewrite list_fmap_insert; apply list_insert_id; by rewrite list_lookup_fmap, Hseg).
  assert (quiet wd -> healthy w -> quiet wd' /\ r = Ok tt /\
    healthy (mkWal (<[i := mkSegment b f (path seg)]> (segments w)) (count w))) as Hqq.
  { intros Hqw Hh'. pose proof (Forall_lookup_1 _ _ i seg Hh' Hseg) as He.
    destruct (Hq Hqw He) as [? ->]. split; [done|]. split; [done|].
    apply list.Forall_insert; [exact Hh'|exact Hr]. }
  destruct r as [[]|e]; apply wp_ret; split_and!; try done.
  - intros _. eexists. cbn [segments]. rewrite list_lookup_insert_eq by (by eapply lookup_lt_Some). done.
Qed.

End PublishSpec.

(** ** Segment names *)

Lemma pretty_N_go_head x s :
  (0 < x)%N -> exists c s', pretty_N_go x s = String c s' /\ c <> "0"%char.
Proof.
  revert s. induction (N.lt_wf_0 x) as [x _ IH]; intros s Hx.
  rewrite pretty_N_go_step by done. destruct (decide (x < 10)%N) as [Hs|Hl].
  - rewrite N.div_small, pretty_N_go_0, N.mod_small by done. do 2 eexists. split; [done|].
    assert (x = 1 \/ x = 2 \/ x = 3 \/ x = 4 \/ x = 5 \/ x = 6 \/ x = 7 \/ x = 8 \/ x = 9)%N
      as Hcases by lia. destruct Hcases as [->|[->|[->|[->|[->|[->|[->|[->| ->]]]]]]]]; done.
  - apply IH; [apply N.div_lt; lia|]. apply N.div_str_pos. lia.
Qed.

Lemma segmentPath_inj d : Inj (=) (=) (segmentPath d).
Proof.
  intros i j E. unfold segmentPath in E. do 2 apply string_app_inj_l in E.
  assert (forall n, (10 <= n)%nat -> exists c s, pretty n = String c s /\ c <> "0"%char) as Hbig.
  { intros n Hn. unfold pretty, pretty_nat, pretty, pretty_N. rewrite decide_False by lia.
    apply pretty_N_go_head. lia. }
  destruct (Nat.ltb_spec i 10) as [Hi|Hi], (Nat.ltb_spec j 10) as [Hj|Hj].
  - apply string_app_inj_l, string_app_inj_r in E. by apply pretty_nat_inj.
  - destruct (Hbig j Hj) as (c & s & Hs & Hc). rewrite Hs in E.
    apply (f_equal string_bytes) in E. rewrite !string_bytes_app in E. cbn in E. congruence.
  - destruct (Hbig i Hi) as (c & s & Hs & Hc). rewrite Hs in E.
    apply (f_equal string_bytes) in E. rewrite !string_bytes_app in E. cbn in E. congruence.
  - apply string_app_inj_l, string_app_inj_r in E. by apply pretty_nat_inj.
Qed.

(** ** Opening a log *)

(** What a name leads to, with a missing file read as empty. *)
Definition file_bytes (s : FS) (p : string) : bytes := default [] (named s p).

Lemma creat_file_bytes p q s : fs_ok s -> file_bytes (creat p s) q = file_bytes s q.
Proof.
  intros [H1 H2 H3]. unfold creat. destruct (dir s !! p) as [i|] eqn:E; [done|].
  unfold file_bytes, named. cbn. destruct (decide (p = q)) as [->|Hne].
  - rewrite lookup_insert_eq, E. cbn. unfold content. cbn. by rewrite lookup_insert_eq.
  - rewrite lookup_insert_ne by done. destruct (dir s !! q) as [j|] eqn:Ej; [|done]. cbn.
    unfold content. cbn. pose proof (H2 _ _ Ej). by rewrite lookup_insert_ne by lia.
Qed.

Lemma creat_dir_mono p q i s : dir s !! q = Some i -> dir (creat p s) !! q = Some i.
Proof.
  intros H. unfold creat. destruct (dir s !! p) eqn:E; [done|]. cbn.
  rewrite lookup_insert_ne; [done|]. by intros ->; simplify_eq.
Qed.

(** An open segment whose file holds [c], with nothing buffered. *)
Definition seg_open (s : FS) (seg : walSegment) (c : bytes) : Prop :=
  appending (wfile seg) /\ has_inode s (seg_ino seg) /\ dir s !! path seg = Some (seg_ino seg) /\
  berr (wrt seg) = None /\ buffered (wrt seg) = [] /\ content s (seg_ino seg) = c.

Lemma file_bytes_dir s p i : dir s !! p = Some i -> file_bytes s p = content s i.
Proof. intros H. unfold file_bytes, named. by rewrite H. Qed.

(** Opening without faults creates the missing files and changes no contents. *)
Lemma openSegments_quiet d size i n acc s :
  fs_ok s ->
  exists segs s', openSegments d size i n acc (mkWorld s []) = Ret (Ok (acc ++ segs)) (mkWorld s' []) /\
    fs_ok s' /\ (forall q, file_bytes s' q = file_bytes s q) /\
    (forall q j, dir s !! q = Some j -> dir s' !! q = Some j) /\ length segs = n /\
    (forall j seg, segs !! j = Some seg -> path seg = segmentPath d (i + j) /\
       seg_open s' seg (file_bytes s (path seg))).
Proof.
  revert i acc s. induction n as [|n IH]; intros i acc s Hs.
  { exists [], s. rewrite app_nil_r. split_and!; done. }
  destruct (fs_ok_creat (segmentPath d i) s Hs) as [Hs1 [k Hk]].
  set (s1 := creat (segmentPath d i) s) in *.
  set (seg := mkSegment (NewWriterSize size) (mkFile k (length (content s1 k)) true false)
    (segmentPath d i)).
  destruct (IH (S i) (acc ++ [seg]) s1 Hs1) as (segs & s' & Hrun & Hs' & Hfb & Hdir & Hlen & Hsegs).
  exists (seg :: segs), s'. split_and!.
  - cbn [openSegments]. unfold io_try, io_bind, openFile, fseek_end, on_open, syscall.
    cbn [next_outcome oracle fs Nat.eqb closed ino append]. fold s1. rewrite Hk. cbn [from_option].
    unfold Datatypes.id. fold seg. rewrite Hrun. by rewrite <- (assoc_L (++)).
  - done.
  - intros q. rewrite Hfb. by apply creat_file_bytes.
  - intros q j Hq. by apply Hdir, creat_dir_mono.
  - cbn. by rewrite Hlen.
  - intros [|j] x Hx; cbn in Hx; simplify_eq/=.
    + rewrite Nat.add_0_r. split; [done|]. apply Hdir in Hk.
      repeat split; [|exact Hk|].
      * by eapply fo_inode.
      * cbn. rewrite <- (file_bytes_dir _ _ _ Hk), Hfb. by apply creat_file_bytes.
    + destruct (Hsegs j x Hx) as [Hp Ho]. rewrite Hp, Nat.add_succ_r. split; [done|].
      rewrite Hp in Ho. by rewrite <- (creat_file_bytes (segmentPath d i)).
Qed.

Definition files_of (s : FS) (d : string) (n : nat) : list bytes :=
  (fun i => file_bytes s (segmentPath d i)) <$> seq 0 n.

Definition wal_open (s : FS) (w : Wal) (cs : list bytes) : Prop :=
  Forall2 (seg_open s) (segments w) cs /\ NoDup (seg_ino <$> segments w) /\
  count w = Z.of_nat (length (segments w)).

Lemma NewWal_quiet d size n s :
  fs_ok s ->
  exists w s', NewWal d size n (mkWorld s []) = Ret (Ok w) (mkWorld s' []) /\
    fs_ok s' /\ length (segments w) = n /\ wal_open s' w (files_of s d n).
Proof.
  intros Hs. destruct (openSegments_quiet d size 0 n [] s Hs)
    as (segs & s' & Hrun & Hs' & Hfb & Hdir & Hlen & Hsegs).
  exists (mkWal segs (Z.of_nat n)), s'. split_and!; [|done|done|split_and!].
  - unfold NewWal, io_try, io_bind, syscall. cbn [next_outcome oracle fs]. by rewrite Hrun.
  - apply Forall2_same_length_lookup_2; [unfold files_of; by rewrite length_fmap, length_seq|].
    intros j seg c Hseg Hc. destruct (Hsegs j seg Hseg) as [Hp Ho]. cbn [Nat.add] in Hp.
    unfold files_of in Hc. rewrite list_lookup_fmap in Hc.
    apply fmap_Some in Hc as (x & [-> _]%lookup_seq & ->). cbn [Nat.add]. by rewrite <- Hp.
  - apply NoDup_alt. cbn [segments]. intros a b i Ha Hb. rewrite list_lookup_fmap in Ha, Hb.
    apply fmap_Some in Ha as (x & Hx & ->). apply fmap_Some in Hb as (y & Hy & E).
    destruct (Hsegs a x Hx) as [Hpx (_ & _ & Hdx & _)].
    destruct (Hsegs b y Hy) as [Hpy (_ & _ & Hdy & _)].
    rewrite <- E in Hdy. pose proof (fo_inj _ Hs' _ _ _ Hdx Hdy) as Hxy.
    rewrite Hpx, Hpy in Hxy. by apply segmentPath_inj in Hxy.
  - cbn. by rewrite Hlen.
Qed.

(** ** Replaying an open log *)

Section ReplayRun.
Context `{ProtoLaws}.

Lemma bflush_quiet f b s :
  appending f -> has_inode s (ino f) -> berr b = None ->
  exists f', bflush f b (mkWorld s []) =
    Ret (Ok tt, f', mkBufw [] (bsize b) None)
      (mkWorld (set_content (ino f) (content s (ino f) ++ buffered b) s) []) /\
    appending f' /\ ino f' = ino f.
Proof.
  intros Hf Hi He. pose proof (wp_bflush f b (mkWorld s []) Hf Hi) as Hw. unfold wp in Hw.
  destruct (bflush f b (mkWorld s [])) as [[[r f'] b'] [s' os]|] eqn:E.
  - destruct Hw as (Hp & Hr & Hq). destruct (Hq eq_refl He) as [Hos ->].
    unfold quiet in Hos. cbn in Hos. subst os. destruct Hr as [He' Hb'].
    destruct Hp as [Ha Hino Hsz (c & Hs & _ & _ & Hc)]. cbn [fs] in *.
    specialize (Hc He'). rewrite Hb', app_nil_r in Hc. subst c.
    exists f'. rewrite Hs. split; [|done]. destruct b' as [bb bs be]. cbn in *. by subst.
  - exfalso. unfold bflush in E. rewrite He in E. destruct (buffered b); [done|].
    unfold io_bind, fwrite in E. by rewrite (proj2 Hf) in E.
Qed.

Lemma replaySegment_quiet seg s c m :
  appending (wfile seg) -> has_inode s (seg_ino seg) -> berr (wrt seg) = None ->
  content s (seg_ino seg) ++ buffered (wrt seg) = c ->
  exists seg', replaySegment seg m (mkWorld s []) =
    Ret ((replayLoop (S (length c)) c false m).2, seg', (replayLoop (S (length c)) c false m).1)
      (mkWorld (set_content (seg_ino seg) c s) []).
Proof.
  intros Hf Hi He Hc. unfold replaySegment, io_bind.
  destruct (bflush_quiet (wfile seg) (wrt seg) s Hf Hi He) as (f & -> & [Ha Hcl] & Hino).
  change (ino (wfile seg)) with (seg_ino seg) in *. rewrite Hc.
  unfold io_try, io_bind, fseek_start, on_open, syscall, fread_all, fseek_end. rewrite Hcl.
  cbn [next_outcome oracle fs closed pos ino append drop].
  rewrite Hino, content_set, drop_0 by done.
  destruct (replayLoop (S (length c)) c false m) as [m' [u|e]]; [|by eexists].
  unfold on_open, syscall. cbn [next_outcome oracle fs closed pos ino append fst snd]. destruct u. by eexists.
Qed.

(** The replay of several segments, one after the other. *)
Fixpoint replay_all (cs : list bytes) (m : gmap string Value) (r : result unit)
    : gmap string Value * result unit :=
  match cs with
  | [] => (m, r)
  | c :: cs' =>
      let '(m', r') := replayLoop (S (length c)) c false m in
      replay_all cs' m' (match r with Ok _ => r' | Err _ => r end)
  end.

Lemma replaySegments_quiet segs cs s m r :
  Forall2 (fun seg c => appending (wfile seg) /\ has_inode s (seg_ino seg) /\
    berr (wrt seg) = None /\ content s (seg_ino seg) ++ buffered (wrt seg) = c) segs cs ->
  NoDup (seg_ino <$> segs) ->
  exists segs' s', replaySegments segs m r (mkWorld s []) =
    Ret ((replay_all cs m r).1, (replay_all cs m r).2, segs') (mkWorld s' []).
Proof.
  intros HF. revert s m r HF. revert cs. induction segs as [|seg segs IH]; intros cs s m r HF Hnd.
  { inversion HF; subst. by do 2 eexists. }
  inversion HF as [|? c ? cs' (Ha & Hi & He & Hc) HF']; subst. cbn [fmap list_fmap] in Hnd.
  apply NoDup_cons in Hnd as [Hnin Hnd].
  destruct (replaySegment_quiet seg s _ m Ha Hi He eq_refl) as [seg' Hrun].
  cbn [replaySegments replay_all]. unfold io_bind. rewrite Hrun.
  set (c := content s (seg_ino seg) ++ buffered (wrt seg)) in *.
  destruct (replayLoop (S (length c)) c false m) as [m' r'] eqn:El. cbn [fst snd].
  edestruct (IH cs' (set_content (seg_ino seg) c s) m' (match r with Ok _ => r' | Err _ => r end))
    as (segs' & s' & Hrest); [|done|].
  - apply Forall2_same_length_lookup_2; [by eapply Forall2_length|]. intros j x y Hx Hy.
    destruct (Forall2_lookup_lr _ _ _ j x y HF' Hx Hy) as (Hax & Hix & Hex & Hcx).
    apply list_elem_of_lookup_2 in Hx. split_and!; [done|by apply has_inode_set|done|].
    rewrite content_set_ne; [done|]. intros E. apply Hnin. rewrite E.
    by apply list_elem_of_fmap_2.
  - rewrite Hrest. cbn. by do 2 eexists.
Qed.

Lemma replay_all_intact pss ess m :
  Forall2 (Forall2 carries) pss ess ->
  replay_all (log_bytes <$> pss) m (Ok tt) = (foldl applyEntry m (mjoin ess), Ok tt).
Proof.
  intros HF. revert m. induction HF as [|ps es pss ess Hp HF IH]; intros m; [done|].
  cbn [fmap list_fmap replay_all]. rewrite (replayLoop_intact ps es) by done. rewrite IH.
  by rewrite <- foldl_app.
Qed.

(** After a crash every segment replays a prefix of its entries, all its whole records. *)
Lemma replay_all_torn cs pss ess m r :
  Forall2 (Forall2 carries) pss ess ->
  Forall2 (fun c ps => c `prefix_of` log_bytes ps) cs pss ->
  exists ks, length ks = length pss /\
    (forall i k c ps j, ks !! i = Some k -> cs !! i = Some c -> pss !! i = Some ps ->
       (j <= length ps)%nat -> log_bytes (take j ps) `prefix_of` c -> (j <= k)%nat) /\
    (replay_all cs m r).1 = foldl applyEntry m (mjoin (zip_with take ks ess)).
Proof.
  intros HF. revert cs m r. induction HF as [|ps es pss ess Hp HF IH]; intros cs m r HC.
  { inversion HC; subst. by exists []. }
  inversion HC as [|c ? cs' ? Hc HC']; subst. cbn [replay_all].
  destruct (replayLoop_prefix ps es c m Hp Hc) as (k & r' & Hk & -> & Hmax & _).
  destruct (IH cs' (foldl applyEntry m (take k es)) (match r with Ok _ => r' | Err _ => r end) HC')
    as (ks & Hlen & Hks & Hrest).
  exists (k :: ks). split; [cbn; by rewrite Hlen|]. split.
  - intros [|i] k0 c0 ps0 j; cbn; [intros; simplify_eq; eauto|]. apply Hks.
  - rewrite Hrest. cbn [zip_with]. by rewrite <- foldl_app.
Qed.

End ReplayRun.

(** ** Runs of publications *)

Definition op_key (o : walOp) : string :=
  match o with WalEntry_Set r => set_Key r | WalEntry_Delete r => del_Key r end.

Section Runs.
Context `{ProtoLaws} (hf : string -> Z).

(** Publishing a list of operations; each comes with the object the pool hands out, and the
    hash is that of its key, as in every caller. *)
Fixpoint publishAll (w : Wal) (h : wheap) (ops : list (option nat * walOp))
    : IO (list (result unit) * Wal) :=
  match ops with
  | [] => io_ret ([], w)
  | (entry, o) :: ops' =>
      '(r, w, h, _) <-- Publish w h entry (hf (op_key o)) (op_message o);
      '(rs, w) <-- publishAll w h ops';
      io_ret (r :: rs, w)
  end.

(** An operation whose encoding [p] fits a record. *)
Definition encodes (o : walOp) (p : bytes) : Prop :=
  Marshal (mkWalEntry (Some o)) = Some p /\ Z.of_nat (length p) < 2 ^ 32.

Definition segment_of (n : Z) (o : walOp) : nat := Z.to_nat (hf (op_key o) mod n).

(** The logs after publishing [l], an operation with its payload at a time. *)
Definition logs_with (n : Z) (logs : list (list bytes)) (l : list (walOp * bytes)) : list (list bytes) :=
  foldl (fun logs x => alter (fun ps => ps ++ [x.2]) (segment_of n x.1) logs) logs l.

Lemma logs_with_prefix n logs l : Forall2 prefix logs (logs_with n logs l).
Proof.
  revert logs. induction l as [|x l IH]; intros logs; cbn [logs_with foldl].
  { done. }
  etrans; [|apply IH].
  apply Forall2_same_length_lookup_2; [by rewrite length_alter|].
  intros j a b Ha Hb. destruct (decide (segment_of n x.1 = j)) as [<-|Hne].
  - rewrite list_lookup_alter_eq, Ha in Hb. simplify_eq/=. by apply prefix_app_r.
  - rewrite list_lookup_alter_ne, Ha in Hb by done. by simplify_eq.
Qed.

Lemma log_bytes_prefix ps qs : ps `prefix_of` qs -> log_bytes ps `prefix_of` log_bytes qs.
Proof. intros [k ->]. rewrite log_bytes_app. by apply prefix_app_r. Qed.

Lemma files_inv_mono s w w' logs logs' :
  files_inv s w logs -> Forall2 prefix logs logs' -> path <$> segments w' = path <$> segments w ->
  files_inv s w' logs'.
Proof.
  intros HF Hp Hpath. assert (length (segments w') = length (segments w)) as Hl
    by by rewrite <- (length_fmap path (segments w')), Hpath, length_fmap.
  apply Forall2_same_length_lookup_2.
  { rewrite Hl. trans (length logs); by eapply Forall2_length. }
  intros j seg' qs Hs' Hq.
  assert (exists seg, segments w !! j = Some seg /\ path seg = path seg') as (seg & Hs & Hpe).
  { assert ((path <$> segments w) !! j = Some (path seg')) as Hj
      by by rewrite <- Hpath, list_lookup_fmap, Hs'.
    rewrite list_lookup_fmap in Hj. by apply fmap_Some in Hj as (seg & ? & ?); exists seg. }
  destruct (Forall2_lookup_l _ _ _ j seg HF Hs) as (ps & Hps & i & Hd & Hc).
  exists i. rewrite <- Hpe. split; [done|]. etrans; [exact Hc|]. apply log_bytes_prefix.
  by eapply Forall2_lookup_lr.
Qed.

(** Any run of publications, under any faults: if it returns, the log is in order, and
    without faults every publication succeeded; if the machine stops, every file holds what
    it held before and a prefix of its new records. *)
Lemma wp_publishAll ops ps w h logs wd :
  wal_inv (fs wd) w logs -> (forall k, 0 <= hf k) -> Forall2 (fun x p => encodes x.2 p) ops ps ->
  let logs' := logs_with (count w) logs (zip ops.*2 ps) in
  wp (publishAll w h ops)
    (fun '(rs, w') wd' =>
       wal_inv (fs wd') w' logs' /\ extends (fs wd) (fs wd') /\
       path <$> segments w' = path <$> segments w /\
       (quiet wd -> healthy w -> quiet wd' /\ Forall (fun r => r = Ok tt) rs /\ healthy w'))
    (fun s' => files_inv s' w logs' /\ extends (fs wd) s') wd.
Proof.
  intros Hw Hh HF. revert w h logs wd Hw. induction HF as [|[entry o] p ops ps [Hm Hlen] HF IH];
    intros w h logs wd Hw; cbn [publishAll].
  { apply wp_ret. by split_and!. }
  apply wp_bind. eapply wp_mono; [by apply wp_Publish|..].
  - intros [[[r w1] h1] e1] wd1 (Hw1 & Hext1 & Hn1 & Hp1 & _ & Hq1).
    apply wp_bind. eapply wp_mono; [by apply IH|..].
    + intros [rs w'] wd' (Hw' & Hext & Hp & Hq). apply wp_ret. cbn [fmap list_fmap zip_with snd].
      rewrite Hn1 in Hw'. split_and!; [exact Hw'|by trans (fs wd1)|congruence|].
      intros Hqw Hhw. destruct (Hq1 Hqw Hhw) as (Hqw1 & -> & Hhw1).
      destruct (Hq Hqw1 Hhw1) as (? & ? & ?). split_and!; [done|by constructor|done].
    + intros s' [Hf Hext]. rewrite Hn1 in Hf. split; [|by trans (fs wd1)].
      by eapply files_inv_mono; [exact Hf| |].
  - intros s' [Hf Hext]. split; [|done]. eapply files_inv_mono; [exact Hf| |done].
    apply (logs_with_prefix _ (alter (fun ps => ps ++ [p]) (segment_of (count w) o) logs)).
Qed.

End Runs.

(** ** Distributing operations over segments *)

Section Bins.
Context {A : Type} (f : A -> nat).

(** Puts every element at the end of the bin [f] names. *)
Definition bins (bs : list (list A)) (l : list A) : list (list A) :=
  foldl (fun bs x => alter (fun b => b ++ [x]) (f x) bs) bs l.

Lemma bins_lookup l bs i b :
  bs !! i = Some b -> bins bs l !! i = Some (b ++ filter (fun x => f x = i) l).
Proof.
  revert bs b. induction l as [|x l IH]; intros bs b Hb; cbn [bins foldl].
  { by rewrite filter_nil, app_nil_r. }
  rewrite filter_cons. destruct (decide (f x = i)) as [Hx|Hx].
  - fold (bins (alter (fun b => b ++ [x]) (f x) bs) l). subst i.
    rewrite (IH _ (b ++ [x])); [by rewrite <- (assoc_L (++))|].
    by rewrite list_lookup_alter_eq, Hb.
  - apply IH. by rewrite list_lookup_alter_ne.
Qed.

Lemma bins_length l bs : length (bins bs l) = length bs.
Proof.
  revert bs. induction l as [|x l IH]; intros bs; [done|]. cbn [bins foldl].
  etrans; [apply IH|]. apply length_alter.
Qed.

Lemma bins_seq l n :
  bins (replicate n []) l = (fun i => filter (fun x => f x = i) l) <$> seq 0 n.
Proof.
  apply list_eq. intros i. destruct (decide (i < n)%nat) as [Hi|Hi].
  - rewrite (bins_lookup l _ i []) by (by apply lookup_replicate_2).
    rewrite list_lookup_fmap, lookup_seq_lt by done. done.
  - rewrite !lookup_ge_None_2; [done|..]; rewrite ?bins_length, ?length_fmap, ?length_seq, ?length_replicate; lia.
Qed.

(** Elements that share a bin keep their order, and no other bin holds any of them. *)
Lemma filter_join_bins (P : A -> Prop) `{!forall x, Decision (P x)} l n i0 :
  (forall x, P x -> f x = i0) -> (i0 < n)%nat ->
  filter P (mjoin (bins (replicate n []) l)) = filter P l.
Proof.
  intros HP Hi. rewrite bins_seq.
  assert (forall js, i0 ∉ js ->
    filter P (mjoin ((fun i => filter (fun x => f x = i) l) <$> js)) = []) as Hnil.
  { induction js as [|i js IH]; intros Hn; [done|].
    rewrite fmap_cons, mjoin_cons, list.filter_app, IH by set_solver.
    rewrite app_nil_r. apply filter_none. rewrite list.Forall_forall.
    intros x [Hx _]%list_elem_of_filter Hp. apply Hn. rewrite <- Hx, (HP x Hp). set_solver. }
  assert (filter P (filter (fun x => f x = i0) l) = filter P l) as Hsame.
  { clear Hnil. induction l as [|x l IH]; [done|]. rewrite (filter_cons (fun y => f y = i0)), (filter_cons P x l).
    destruct (decide (P x)) as [Hp|Hp].
    - rewrite decide_True by auto. rewrite filter_cons_True by done. by rewrite IH.
    - destruct (decide (f x = i0)); [rewrite filter_cons_False by done|]; done. }
  replace n with (i0 + S (n - i0 - 1))%nat by lia.
  rewrite seq_app, fmap_app, join_app. cbn [seq Nat.add]. rewrite fmap_cons, mjoin_cons.
  rewrite !list.filter_app, Hsame. rewrite !Hnil; [by rewrite app_nil_r|..]; rewrite elem_of_seq; lia.
Qed.

End Bins.

Section Theorems.
Context `{ProtoLaws} (hf : string -> Z) (Hhf : forall k, 0 <= hf k).

(** What an operation is decoded to. *)
Definition op_entry (o : walOp) : WalEntry := norm_entry (mkWalEntry (Some o)).

Lemma op_entry_key o : entry_key (op_entry o) = Some (op_key o).
Proof. by destruct o. Qed.

Lemma encodes_carries o p : encodes o p -> carries p (op_entry o).
Proof. intros [Hm Hl]. split; [done|]. by apply Unmarshal_Marshal. Qed.

(** The logs carry the entries of the operations, distributed in the same way. *)
Lemma logs_with_carries n pss oss ops ps :
  Forall2 (Forall2 (fun p o => carries p (op_entry o))) pss oss -> Forall2 encodes ops ps ->
  Forall2 (Forall2 (fun p o => carries p (op_entry o)))
    (logs_with hf n pss (zip ops ps)) (bins (segment_of hf n) oss ops).
Proof.
  intros HF Henc. revert pss oss HF. induction Henc as [|o p ops ps Ho Henc IH]; intros pss oss HF.
  { done. }
  cbn [zip_with logs_with bins foldl fst snd]. apply IH.
  apply Forall2_same_length_lookup_2; [rewrite !length_alter; by eapply Forall2_length|].
  intros j a b Ha Hb. destruct (decide (segment_of hf n o = j)) as [<-|Hne].
  - rewrite list_lookup_alter_eq in Ha. rewrite list_lookup_alter_eq in Hb.
    apply fmap_Some in Ha as (a0 & Ha0 & ->). apply fmap_Some in Hb as (b0 & Hb0 & ->).
    apply Forall2_app; [by eapply Forall2_lookup_lr|].
    constructor; [by apply encodes_carries|done].
  - rewrite list_lookup_alter_ne in Ha by done. rewrite list_lookup_alter_ne in Hb by done.
    by eapply Forall2_lookup_lr.
Qed.

Lemma carries_fmap pss oss :
  Forall2 (Forall2 (fun p o => carries p (op_entry o))) pss oss <->
  Forall2 (Forall2 carries) pss ((fun os : list walOp => op_entry <$> os) <$> oss).
Proof.
  rewrite Forall2_fmap_r. split; intros HF; (eapply Forall2_impl; [exact HF|]);
    intros ps os; unfold compose; by rewrite Forall2_fmap_r.
Qed.

(** Opens the log in [d], publishes [ops] and replays. *)
Definition session (d : string) (size : Z) (n : nat) (h : wheap) (ops : list (option nat * walOp))
    : IO (result (list (result unit) * gmap string Value * result unit)) :=
  w <-- NewWal d size n orelse (fun e => io_ret (Err e));
  '(rs, w) <-- publishAll hf w h ops;
  '(m, r, _) <-- Replay w;
  io_ret (Ok (rs, m, r)).

Lemma wal_open_inv s w pss :
  wal_open s w (log_bytes <$> pss) -> 0 < count w < 2 ^ 64 -> wal_inv s w pss /\ healthy w.
Proof.
  intros (HF & Hnd & Hn) Hr. split.
  - constructor; [|done..]. rewrite Forall2_fmap_r in HF. eapply Forall2_impl; [exact HF|].
    intros seg ps (Ha & Hi & Hd & He & Hb & Hc). split_and!; [done..| |].
    + by rewrite Hc.
    + intros _. by rewrite Hb, app_nil_r.
  - apply list.Forall_forall. intros seg Hs. apply list_elem_of_lookup in Hs as [i Hi].
    destruct (Forall2_lookup_l _ _ _ i seg HF Hi) as (c & _ & _ & _ & _ & He & _). done.
Qed.

(** Replaying a healthy log without faults. *)
Lemma Replay_healthy w pss oss s :
  wal_inv s w pss -> healthy w -> Forall2 (Forall2 (fun p o => carries p (op_entry o))) pss oss ->
  exists w' s', Replay w (mkWorld s []) =
    Ret (foldl applyEntry ∅ (op_entry <$> mjoin oss), Ok tt, w') (mkWorld s' []).
Proof.
  intros Hw Hh HF%carries_fmap. unfold Replay, io_bind.
  destruct (replaySegments_quiet (segments w) (log_bytes <$> pss) s ∅ (Ok tt)) as (segs & s' & ->).
  - apply Forall2_fmap_r. apply Forall2_same_length_lookup_2; [by eapply Forall2_length, Hw|].
    intros j seg ps Hs Hp.
    destruct (Forall2_lookup_lr _ _ _ j seg ps (wi_segments _ _ _ Hw) Hs Hp)
      as (Ha & Hi & _ & _ & Hc).
    pose proof (Forall_lookup_1 _ _ j seg Hh Hs) as He. cbn in He. split_and!; auto.
  - apply Hw.
  - rewrite (replay_all_intact _ _ _ HF). cbn [fst snd]. unfold io_ret.
    assert (mjoin ((fun os : list walOp => op_entry <$> os) <$> oss) = op_entry <$> mjoin oss) as ->.
    { clear HF. induction oss as [|os oss IH]; [done|].
      rewrite fmap_cons, !mjoin_cons, fmap_app. f_equal. by apply IH. }
    by do 2 eexists.
Qed.

(** Distributing over segments and reading them one after the other replays as the
    publication order does. *)
Lemma replay_bins n ops :
  0 < n ->
  foldl applyEntry ∅ (op_entry <$> mjoin (bins (segment_of hf n) (replicate (Z.to_nat n) []) ops)) =
    foldl applyEntry ∅ (op_entry <$> ops).
Proof.
  intros Hn. apply foldl_applyEntry_interleave. intros k. rewrite !filter_fmap. f_equal.
  apply (filter_join_bins _ _ _ _ (Z.to_nat (hf k mod n))).
  - intros o. rewrite op_entry_key. intros [= <-]. done.
  - pose proof (Z.mod_pos_bound (hf k) n). lia.
Qed.

Lemma faultless_publishAll w h ops : faultless (publishAll hf w h ops).
Proof.
  revert w h. induction ops as [|[entry o] ops IH]; intros w h; cbn [publishAll]; [auto with fs|].
  apply faultless_bind.
  - unfold Publish. destruct (installMessage _ _ _) as [[h' entry']|e]; [|auto with fs].
    destruct (marshalEntry _ _); [|auto with fs]. destruct (_ ≫= _) as [[i seg]|]; [|auto with fs].
    apply faultless_bind; [auto with fs|]. intros [[[] f] b]; auto with fs.
  - intros [[[r w'] h'] e]. apply faultless_bind; [apply IH|]. intros [rs w'']. auto with fs.
Qed.

(** C17. What was published is what is replayed: without faults, opening a log in an empty
    directory, publishing any operations (whatever objects the pool hands out) and replaying
    succeeds, and the replay gives every key the newest of its operations, as if they had been
    applied in the order of publication, although they were spread over several files. *)
Theorem publish_replay d size n h ops ps s :
  fs_ok s -> 0 < Z.of_nat n < 2 ^ 64 -> files_of s d n = replicate n [] ->
  Forall2 (fun x p => encodes x.2 p) ops ps ->
  exists rs m wd,
    session d size n h ops (mkWorld s []) = Ret (Ok (rs, m, Ok tt)) wd /\
    Forall (fun r => r = Ok tt) rs /\
    m = foldl applyEntry ∅ (op_entry <$> ops.*2) /\ newest (op_entry <$> ops.*2) m.
Proof.
  intros Hs Hn Hempty HF. destruct (NewWal_quiet d size n s Hs) as (w & s1 & Hrun & Hs1 & Hlen & Hopen).
  assert (replicate n [] = log_bytes <$> replicate n []) as Hrep by by rewrite fmap_replicate.
  pose proof Hopen as (_ & _ & Hcount).
  rewrite Hempty, Hrep in Hopen. apply wal_open_inv in Hopen as [Hw Hh]; [|lia].
  destruct (wp_faultless _ _ _ s1 (faultless_publishAll w h ops)
    (wp_publishAll hf ops ps w h (replicate n []) (mkWorld s1 []) Hw Hhf HF))
    as ([rs w'] & s2 & Hpub & Hw' & _ & _ & Hq).
  destruct (Hq eq_refl Hh) as (_ & Hrs & Hh').
  assert (Forall2 encodes ops.*2 ps) as HF' by by rewrite Forall2_fmap_l.
  destruct (Replay_healthy w' _ (bins (segment_of hf (count w)) (replicate n []) ops.*2) s2 Hw' Hh')
    as (w'' & s3 & Hrep').
  { apply logs_with_carries; [|done]. by apply Forall2_replicate. }
  exists rs, (foldl applyEntry ∅ (op_entry <$> ops.*2)), (mkWorld s3 []).
  split_and!; [|done|done|apply newest_foldl].
  unfold session, io_try, io_bind. rewrite Hrun, Hpub, Hrep'. unfold io_ret. do 3 f_equal.
  replace n with (Z.to_nat (count w)) by lia. rewrite replay_bins by lia. done.
Qed.

(** What an outage can leave of the file system [s] once the names of its files have reached
    the medium: every file keeps what is on the medium and any part of what was written
    since. *)
Record outage (s s' : FS) : Prop := {
  out_dir : dir s' = dir s;
  out_next : next_ino s' = next_ino s;
  out_inode : forall i, has_inode s' i <-> has_inode s i;
  out_content : forall i, stable_content s i `prefix_of` content s' i /\
                          content s' i `prefix_of` content s i
}.

Lemma NewWal_paths d size n s w s' :
  fs_ok s -> NewWal d size n (mkWorld s []) = Ret (Ok w) (mkWorld s' []) ->
  fs_ok s' /\ wal_open s' w (files_of s d n) /\ path <$> segments w = segmentPath d <$> seq 0 n.
Proof.
  intros Hs Hrun. destruct (openSegments_quiet d size 0 n [] s Hs)
    as (segs & s1 & Hrun1 & Hs1 & _ & _ & Hlen & Hsegs).
  destruct (NewWal_quiet d size n s Hs) as (w' & s2 & Hrun' & Hs2 & _ & Hopen).
  rewrite Hrun in Hrun'. simplify_eq. split; [done|]. split; [done|].
  unfold NewWal, io_try, io_bind, syscall in Hrun. cbn [next_outcome oracle fs] in Hrun.
  rewrite Hrun1 in Hrun. unfold io_ret in Hrun. simplify_eq. cbn [segments app].
  apply list_eq. intros j. rewrite !list_lookup_fmap.
  destruct (segs !! j) as [seg|] eqn:E.
  - destruct (Hsegs j seg E) as [Hp _]. apply lookup_lt_Some in E.
    rewrite lookup_seq_lt by lia. ored. f_equal. exact Hp.
  - apply lookup_ge_None in E. rewrite lookup_ge_None_2; [done|]. rewrite length_seq. lia.
Qed.

Lemma log_bytes_take_prefix ps qs : ps `prefix_of` qs -> log_bytes (take (length ps) qs) = log_bytes ps.
Proof. intros [k ->]. by rewrite take_app_length. Qed.

(** Reopening files that hold torn logs. *)
Lemma reopen_torn d size n s logs oss :
  fs_ok s -> Forall2 (fun c qs => c `prefix_of` log_bytes qs) (files_of s d n) logs ->
  Forall2 (Forall2 (fun p o => carries p (op_entry o))) logs oss ->
  exists w m r w' s1 s2 ks,
    NewWal d size n (mkWorld s []) = Ret (Ok w) (mkWorld s1 []) /\
    Replay w (mkWorld s1 []) = Ret (m, r, w') (mkWorld s2 []) /\ length ks = length logs /\
    (forall i k c qs j, ks !! i = Some k -> files_of s d n !! i = Some c -> logs !! i = Some qs ->
       (j <= length qs)%nat -> log_bytes (take j qs) `prefix_of` c -> (j <= k)%nat) /\
    m = foldl applyEntry ∅ (op_entry <$> mjoin (zip_with take ks oss)).
Proof.
  intros Hs Hpre Hcar%carries_fmap.
  destruct (NewWal_quiet d size n s Hs) as (w & s1 & Hnew & _ & _ & Hopen & Hnd & _).
  destruct (replaySegments_quiet (segments w) (files_of s d n) s1 ∅ (Ok tt)) as (segs & s2 & Hrun);
    [|done|].
  { eapply Forall2_impl; [exact Hopen|]. intros seg c (Ha & Hi & _ & He & Hb & Hc).
    split_and!; [done..|]. by rewrite Hb, app_nil_r. }
  destruct (replay_all_torn _ _ _ ∅ (Ok tt) Hcar Hpre) as (ks & Hlen & Hks & Hm).
  exists w, (replay_all (files_of s d n) ∅ (Ok tt)).1, (replay_all (files_of s d n) ∅ (Ok tt)).2,
    (mkWal segs (count w)), s1, s2, ks.
  split_and!; [done| |done|done|].
  - unfold Replay, io_bind. by rewrite Hrun.
  - rewrite Hm. f_equal. clear. revert oss. induction ks as [|k ks IH]; intros [|os oss]; [done..|].
    rewrite fmap_cons. cbn [zip_with]. rewrite !mjoin_cons, fmap_app, fmap_take. by rewrite IH.
Qed.

(** What an outage during a run leaves in the segment files. *)
Lemma files_after_outage d n s1 s2 s3 w pss0 logs :
  wal_open s1 w (log_bytes <$> pss0) -> path <$> segments w = segmentPath d <$> seq 0 n ->
  (forall i, stable_content s1 i = content s1 i) -> extends s1 s2 -> files_inv s2 w logs ->
  outage s2 s3 ->
  Forall2 (fun c qs => c `prefix_of` log_bytes qs) (files_of s3 d n) logs /\
  Forall2 (fun c qs => log_bytes qs `prefix_of` c) (files_of s3 d n) pss0.
Proof.
  intros (Hopen & _ & _) Hpaths Hst Hext Hfi Hout.
  assert (length (segments w) = n) as Hlen
    by by rewrite <- (length_fmap path), Hpaths, length_fmap, length_seq.
  assert (length (files_of s3 d n) = n) as Hlf by (unfold files_of; by rewrite length_fmap, length_seq).
  assert (forall j c, files_of s3 d n !! j = Some c -> exists seg c0, segments w !! j = Some seg /\
    (log_bytes <$> pss0) !! j = Some c0 /\ content s1 (seg_ino seg) = c0 /\
    dir s1 !! path seg = Some (seg_ino seg) /\ c = content s3 (seg_ino seg)) as Hfile.
  { intros j c Hc. assert (j < n)%nat as Hj by (rewrite <- Hlf; by eapply lookup_lt_Some).
    destruct (lookup_lt_is_Some_2 (segments w) j) as [seg Hseg]; [lia|].
    destruct (Forall2_lookup_l _ _ _ j seg Hopen Hseg) as (c0 & Hc0 & _ & _ & Hd & _ & _ & Hcc).
    exists seg, c0. split_and!; [done..|]. unfold files_of in Hc.
    rewrite list_lookup_fmap, lookup_seq_lt in Hc by done. injection Hc as <-.
    apply file_bytes_dir. rewrite (out_dir _ _ Hout), (ex_dir _ _ Hext), <- Hd. f_equal.
    assert ((path <$> segments w) !! j = Some (path seg)) as Hp by by rewrite list_lookup_fmap, Hseg.
    rewrite Hpaths, list_lookup_fmap, lookup_seq_lt in Hp by done. by injection Hp. }
  split; (apply Forall2_same_length_lookup_2;
    [rewrite Hlf, <- Hlen; apply Forall2_length in Hopen; apply Forall2_length in Hfi;
     rewrite length_fmap in Hopen; congruence|]); intros j c qs Hc Hq;
    destruct (Hfile j c Hc) as (seg & c0 & Hseg & Hc0 & Hcc & Hd & ->).
  - destruct (Forall2_lookup_lr _ _ _ j seg qs Hfi Hseg Hq) as (i & Hdi & Hi).
    rewrite (ex_dir _ _ Hext), Hd in Hdi. simplify_eq. etrans; [apply (out_content _ _ Hout)|done].
  - rewrite list_lookup_fmap, Hq in Hc0. injection Hc0 as Hc0. rewrite Hc0, <- Hcc, <- Hst, <- (ex_stable _ _ Hext).
    apply (out_content _ _ Hout).
Qed.

(** C6. Crash recovery: open a log whose files hold the records [oss0], publish any
    operations under any combination of write failures, and stop the machine at any point,
    losing any part of what was not on the medium. Reopening then succeeds, and the replay
    restores, segment by segment, everything the files held and a prefix of the operations
    published since: nothing is reordered, altered or invented. *)
Theorem crash_recovery d size n h ops ps s pss0 oss0 w s1 os s2 s3 :
  fs_ok s -> 0 < Z.of_nat n < 2 ^ 64 -> files_of s d n = log_bytes <$> pss0 ->
  Forall2 (Forall2 (fun p o => carries p (op_entry o))) pss0 oss0 ->
  Forall2 (fun x p => encodes x.2 p) ops ps ->
  NewWal d size n (mkWorld s []) = Ret (Ok w) (mkWorld s1 []) ->
  (forall i, stable_content s1 i = content s1 i) ->
  match publishAll hf w h ops (mkWorld s1 os) with
  | Ret _ wd => fs wd = s2
  | Halt f => f = s2
  end -> outage s2 s3 ->
  exists w' m r w'' s4 s5 ks,
    NewWal d size n (mkWorld s3 []) = Ret (Ok w') (mkWorld s4 []) /\
    Replay w' (mkWorld s4 []) = Ret (m, r, w'') (mkWorld s5 []) /\
    Forall2 (fun k os0 => (length os0 <= k)%nat) ks oss0 /\
    m = foldl applyEntry ∅ (op_entry <$>
          mjoin (zip_with take ks (bins (segment_of hf (Z.of_nat n)) oss0 ops.*2))).
Proof.
  intros Hs Hn Hfiles Hc0 HF Hnew Hstable Hpub Hout.
  destruct (NewWal_paths d size n s w s1 Hs Hnew) as (Hs1 & Hopen & Hpaths).
  pose proof Hopen as (Hlen & _ & Hcount). apply Forall2_length in Hlen.
  unfold files_of in Hlen. rewrite length_fmap, length_seq in Hlen. rewrite Hfiles in Hopen.
  destruct (wal_open_inv _ _ _ Hopen) as [Hw Hh]; [lia|].
  set (logs := logs_with hf (count w) pss0 (zip ops.*2 ps)).
  assert (files_inv s2 w logs /\ extends s1 s2) as [Hfi Hext].
  { pose proof (wp_publishAll hf ops ps w h pss0 (mkWorld s1 os) Hw Hhf HF) as Hwp.
    unfold wp in Hwp. destruct (publishAll hf w h ops (mkWorld s1 os)) as [[rs w'] wd|f]; subst s2;
      [|exact Hwp].
    destruct Hwp as (Hw' & He & Hp & _). split; [|done].
    by eapply files_inv_mono; [apply wal_files_inv, Hw'| |]. }
  destruct (files_after_outage d n s1 s2 s3 w pss0 logs) as [Hpre Hlow]; [done..|].
  destruct (reopen_torn d size n s3 logs (bins (segment_of hf (Z.of_nat n)) oss0 ops.*2))
    as (w' & m & r & w'' & s4 & s5 & ks & H1 & H2 & Hks & H3 & H4); [|done| |].
  { eapply fs_ok_same; [exact Hs1|..].
    - rewrite (out_dir _ _ Hout). apply Hext.
    - rewrite (out_next _ _ Hout). apply Hext.
    - intros i. rewrite (out_inode _ _ Hout). apply Hext. }
  { unfold logs. replace (Z.of_nat n) with (count w) by lia. apply logs_with_carries; [done|].
    by rewrite Forall2_fmap_l. }
  exists w', m, r, w'', s4, s5, ks. split_and!; [done|done| |done].
  pose proof (logs_with_prefix hf (count w) pss0 (zip ops.*2 ps)) as Hlp. fold logs in Hlp.
  apply Forall2_same_length_lookup_2.
  { rewrite Hks, <- (Forall2_length _ _ _ Hlp). by eapply Forall2_length. }
  intros i k os0 Hk Ho. destruct (Forall2_lookup_r _ _ _ i os0 Hc0 Ho) as (ps0 & Hp0 & Hcar).
  destruct (Forall2_lookup_r _ _ _ i ps0 Hlow Hp0) as (c & Hc & Hlc).
  destruct (Forall2_lookup_l _ _ _ i ps0 Hlp Hp0) as (qs & Hq & Hpq).
  rewrite <- (Forall2_length _ _ _ Hcar). apply (H3 i k c qs); [done..|by apply prefix_length|].
  by rewrite log_bytes_take_prefix.
Qed.

End Theorems.

(** ** Reclaiming space *)

Section ClearSpec.

Context (i : nat) (p : string) (s0 : FS) (full : bytes).
Context (Hp0 : dir s0 !! p = Some i) (Hfull : content s0 i = full).

Abbreviation tmp_of := (p +:+ ".clear.tmp").

Lemma tmp_ne : tmp_of <> p.
Proof.
  intros E%(f_equal (fun s => length (string_bytes s))).
  rewrite string_bytes_app, length_app in E. cbn in E. lia.
Qed.

Abbreviation kept := (kept p s0).
Abbreviation tmp_open := (tmp_open p tmp_of).
Abbreviation replaced := (replaced p).

(** Whatever happens during [Clear], the name leads to all the bytes or to all of the tail. *)
Definition safe (tail : bytes) (s : FS) : Prop := kept s \/ replaced tail s.

Section Tail.
Context (b : bufw) (tail : bytes).

(** The outcome every path must have: safe, and without faults a success that leaves the
    segment open on the tail. *)
Definition clear_post (ok0 : Prop) : result unit * walSegment -> world -> Prop :=
  fun '(r, seg') wd' =>
    safe tail (fs wd') /\
    (r = Ok tt -> replaced tail (fs wd') /\ seg_open (fs wd') seg' tail /\ path seg' = p) /\
    (ok0 -> r = Ok tt).

Lemma wp_cleanup f e wd (ok0 : Prop) :
  kept (fs wd) -> ~ ok0 ->
  wp (_ <-- os_Remove tmp_of; io_ret (Err e, mkSegment b f p)) (clear_post ok0) (safe tail) wd.
Proof.
  intros Hk Hno. apply wp_bind, wp_syscall.
  - intros w' Hs _. apply wp_ret. split; [left; rewrite Hs; by apply (kept_remove _ _ _ tmp_ne)|]. by split.
  - intros n w' Hn Hs _. apply wp_ret. split; [left; rewrite Hs|by split].
    destruct n; [done|]. by apply (kept_remove _ _ _ tmp_ne).
  - intros n Hn. left. destruct n; [done|]. by apply (kept_remove _ _ _ tmp_ne).
Qed.

Lemma wp_close_cleanup tmp f e wd (ok0 : Prop) :
  kept (fs wd) -> ~ ok0 ->
  wp ('(_, _) <-- fclose tmp; _ <-- os_Remove tmp_of; io_ret (Err e, mkSegment b f p))
    (clear_post ok0) (safe tail) wd.
Proof.
  intros Hk Hno. apply wp_bind, wp_fclose; [|by left].
  intros r w' Hs _. apply wp_cleanup; [by rewrite Hs|done].
Qed.

Lemma wp_reopen f wd (ok0 : Prop) :
  replaced tail (fs wd) -> closed f = false -> (ok0 -> quiet wd) ->
  wp (reopenSegment b f p) (clear_post ok0) (safe tail) wd.
Proof.
  intros (t & Hd & Hi & Hc & Hst) Hcl Hq.
  assert (forall s, s = fs wd -> replaced tail s) as Hrep by (intros s ->; by exists t).
  unfold reopenSegment. apply wp_bind, wp_fclose; [|right; by apply Hrep].
  intros r w1 Hs1 Hr. destruct r as [u|e].
  2:{ apply wp_ret. split; [right; by apply Hrep|]. split; [done|]. intros Hok.
      by destruct (Hr (Hq Hok) Hcl). }
  assert (creat p (fs wd) = fs wd) as Hcr by (unfold creat; by rewrite Hd).
  apply wp_try, wp_syscall.
  - intros w2 Hs2 Hq2. cbn [Nat.eqb] in Hs2. rewrite Hs1, Hcr in Hs2.
    rewrite Hs2, Hd. cbn [from_option]. unfold Datatypes.id.
    apply wp_try. unfold fseek_end, on_open. cbn [closed ino append].
    apply wp_pure_call; [..|right; by apply Hrep].
    + intros w3 Hs3 Hq3. apply wp_ret. rewrite Hs2 in Hs3.
      split; [right; by apply Hrep|]. split; [|done]. intros _.
      split; [by apply Hrep|]. rewrite Hs3. by repeat split.
    + intros w3 Hs3 Hq3. apply wp_bind, wp_fclose; [|right; apply Hrep; congruence].
      intros r w4 Hs4 _. apply wp_ret. split; [right; apply Hrep; congruence|]. split; [done|].
      intros Hok. exfalso. apply Hq3, Hq2. by destruct (Hr (Hq Hok) Hcl).
  - intros n w2 Hn Hs2 Hq2. apply wp_ret. split; [right|].
    + apply Hrep. rewrite Hs2, Hs1. destruct n; [done|]. done.
    + split; [done|]. intros Hok. exfalso. apply Hq2. by destruct (Hr (Hq Hok) Hcl).
  - intros n Hn. right. apply Hrep. rewrite Hs1. by destruct n.
Qed.

(** The copy leaves the old file alone and fills the temporary one. *)
Lemma wp_copy_tmp f t wd (Q : result unit * file * file -> world -> Prop) :
  kept (fs wd) -> tmp_open (fs wd) t [] -> closed f = false -> ino f = i ->
  drop (pos f) full = tail ->
  (forall r tmp f' w' c, ino tmp = t -> closed tmp = false -> closed f' = false ->
     kept (fs w') -> tmp_open (fs w') t c -> (r = Ok tt -> c = tail) ->
     (quiet wd -> quiet w' /\ r = Ok tt) -> Q (r, tmp, f') w') ->
  wp (io_Copy (mkFile t 0 false false) f) Q (safe tail) wd.
Proof.
  intros Hk Ht Hcl Hino Htail HQ. unfold io_Copy.
  assert (forall rd w1 f1 (ok : Prop), closed f1 = false -> fs w1 = fs wd ->
    (quiet wd -> quiet w1 /\ ok) -> forall bs, (rd = false -> bs = tail) -> (ok -> rd = false) ->
    wp ('(_, werr, dst) <-- fwrite (mkFile t 0 false false) bs;
        io_ret (match werr with
                | None => if (rd : bool) then Err (ErrIO "read") else Ok tt
                | Some e => Err e end, dst, f1)) Q (safe tail) w1) as Hw.
  { intros rd w1 f1 ok Hf1 Hs1 Hq1 bs Hbs Hok.
    rewrite <- Hs1 in Hk, Ht.
    apply wp_bind, wp_fwrite_end; cbn [closed ino append]; [done| |..]; rewrite (to_content _ _ _ _ _ Ht).
    - done.
    - intros w2 Hq2 Hs2. destruct (tmp_write _ _ _ _ _ _ bs Hk Ht) as [Hk2 Ht2].
      apply wp_ret. apply (HQ _ _ _ _ bs); rewrite ?Hs2; try done.
      + intros Hr. apply Hbs. by destruct rd.
      + intros Hq. destruct (Hq1 Hq) as [? Hok']. split; [auto|]. by rewrite (Hok Hok').
    - intros n w2 Hn Hq2 Hs2. destruct (tmp_write _ _ _ _ _ _ (take n bs) Hk Ht) as [Hk2 Ht2].
      apply wp_ret. apply (HQ _ _ _ _ (take n bs)); rewrite ?Hs2; try done.
      intros Hq. by destruct (Hq1 Hq).
    - intros n. left. by apply (tmp_write _ _ _ _ _ _ _ Hk Ht). }
  apply wp_bind, wp_fread_all; [done|..|by left]; rewrite Hino, (proj1 (ke_content _ _ _ Hk i Hp0)), Hfull.
  - intros w1 f1 Hf1 Hs1 Hq1. apply (Hw false w1 f1 True); auto.
  - intros n w1 f1 Hf1 Hs1 Hq1. by apply (Hw true w1 f1 False).
Qed.

Lemma wp_clearTail f off wd :
  kept (fs wd) -> closed f = false -> ino f = i -> drop (Z.to_nat off) full = tail ->
  wp (clearTail b f p off) (clear_post (quiet wd)) (safe tail) wd.
Proof.
  intros Hk Hcl Hino Htail. unfold clearTail.
  apply wp_try. unfold fseek_start, on_open. rewrite Hcl. apply wp_pure_call; [..|by left].
  2:{ intros w1 Hs1 Hq1. apply wp_ret. split; [left; by rewrite Hs1|]. by split. }
  intros w1 Hs1 Hq1. rewrite <- Hs1 in Hk. destruct (open_tmp _ _ _ tmp_ne (fs w1) Hk) as (Hk2 & t & Hd2 & Ht2).
  apply wp_try, wp_syscall.
  2:{ intros n w2 Hn Hs2 Hq2. apply wp_ret. split; [left; rewrite Hs2|split; [done|]].
      - destruct n; [done|exact Hk2].
      - intros Hq. by destruct Hq2; apply Hq1. }
  2:{ intros n Hn. left. destruct n; [done|exact Hk2]. }
  intros w2 Hs2 Hq2. cbn [Nat.eqb] in Hs2. rewrite <- Hs2 in Hk2, Ht2, Hd2.
  rewrite Hd2. cbn [from_option]. unfold Datatypes.id.
  apply wp_bind, (wp_copy_tmp _ t); [done|done|done|done|exact Htail|].
  intros r tmp f3 w3 c Htmp Htc Hf3 Hk3 Ht3 Hr3 Hq3. destruct r as [[]|e].
  2:{ apply wp_close_cleanup; [done|]. intros Hq. by destruct (Hq3 (Hq2 (Hq1 Hq))). }
  specialize (Hr3 eq_refl). subst c.
  apply wp_try. unfold fsync, on_open. rewrite Htc, Htmp. apply wp_syscall.
  2:{ intros n w4 Hn Hs4 Hq4. apply wp_close_cleanup.
      - rewrite Hs4. destruct n; [done|]. by apply (tmp_sync _ _ _ _ _ _ Hk3 Ht3).
      - intros Hq. by destruct Hq4; apply (Hq3 (Hq2 (Hq1 Hq))). }
  2:{ intros n Hn. left. destruct n; [done|]. by apply (tmp_sync _ _ _ _ _ _ Hk3 Ht3). }
  intros w4 Hs4 Hq4. cbn [Nat.eqb] in Hs4.
  destruct (tmp_sync _ _ _ _ _ _ Hk3 Ht3) as (Hk4 & Ht4 & Hst4). rewrite <- Hs4 in Hk4, Ht4, Hst4.
  apply wp_bind, wp_fclose; [|by left]. intros r w5 Hs5 Hr5. rewrite <- Hs5 in Hk4, Ht4, Hst4.
  destruct r as [[]|e].
  2:{ apply wp_cleanup; [done|]. intros Hq.
      destruct (Hr5 (Hq4 (proj1 (Hq3 (Hq2 (Hq1 Hq))))) Htc). done. }
  pose proof (rename_replaced _ _ _ _ _ _ Hk4 Ht4 Hst4) as Hrep.
  apply wp_try. unfold wp at 1, os_Rename, next_outcome. rewrite (to_dir _ _ _ _ _ Ht4).
  assert (quiet wd -> quiet w5) as Hq5.
  { intros Hq. by destruct (Hr5 (Hq4 (proj1 (Hq3 (Hq2 (Hq1 Hq))))) Htc). }
  destruct w5 as [s5 [|[|n|n] os]]; cbn [fs oracle] in *.
  - by apply wp_reopen.
  - apply wp_reopen; [done..|]. intros Hq. by specialize (Hq5 Hq).
  - apply wp_cleanup; [done|]. intros Hq. by specialize (Hq5 Hq).
  - destruct (n =? 0)%nat; [by left|by right].
Qed.

End Tail.

End ClearSpec.

Lemma faultless_clearSegment seg off : faultless (clearSegment seg off).
Proof. unfold clearSegment, clearTail, reopenSegment. faultless_tac. Qed.

(** What the name of a segment leads to, during and after [Clear]: all bytes that were in
    the file when it began, possibly with some that were still buffered, or exactly the bytes
    after the offset, and then on the medium too. *)
Definition clear_state (s0 : FS) (seg : walSegment) (full tail : bytes) (s : FS) : Prop :=
  exists j, dir s !! path seg = Some j /\
    ((content s0 (seg_ino seg) `prefix_of` content s j /\ content s j `prefix_of` full /\
      stable_content s j = stable_content s0 (seg_ino seg)) \/
     (content s j = tail /\ stable_content s j = tail)).

(** C29. Reclaiming space is crash safe: while [clearSegment] drops the records before a
    positive offset, every failure and every crash leaves the segment's name on all the bytes
    or on exactly the bytes after the offset, both as programs see it and on the medium;
    a success leaves the segment open on the bytes after the offset, and without faults it
    succeeds. *)
Theorem clear_crash_safe seg off wd :
  fs_ok (fs wd) -> appending (wfile seg) -> dir (fs wd) !! path seg = Some (seg_ino seg) ->
  berr (wrt seg) = None ->
  let full := content (fs wd) (seg_ino seg) ++ buffered (wrt seg) in
  0 < off < Z.of_nat (length full) ->
  let tail := drop (Z.to_nat off) full in
  wp (clearSegment seg off)
    (fun '(r, seg') wd' =>
       clear_state (fs wd) seg full tail (fs wd') /\
       (r = Ok tt -> seg_open (fs wd') seg' tail /\ path seg' = path seg) /\
       (quiet wd -> r = Ok tt))
    (clear_state (fs wd) seg full tail) wd.
Proof.
  intros Hs Ha Hd He full Hoff tail. set (i := seg_ino seg) in *.
  pose proof (fo_inode _ Hs _ _ Hd) as Hi.
  assert (forall s', torn i (fs wd) (buffered (wrt seg)) s' ->
    clear_state (fs wd) seg full tail s') as Htorn.
  { intros s' (c & -> & H1 & H2). exists i. split; [done|]. left.
    rewrite content_set by done. split_and!; [done..|]. by rewrite stable_set. }
  unfold clearSegment. apply wp_bind. eapply wp_mono; [by apply wp_bflush| |exact Htorn].
  intros [[r f] b] w1 (Hp & Hr & Hq). destruct r as [[]|e].
  2:{ apply wp_ret. split; [|split; [done|intros Hqw; by destruct (Hq Hqw He)]].
      destruct (pu_content _ _ _ _ _ _ _ Hp) as (c & Hc & H1 & H2 & _). apply Htorn.
      by exists c. }
  destruct Hr as [Hb1 Hb2]. pose proof (content_pushed _ _ _ _ _ _ _ Hi Hp Hb1) as Hc.
  rewrite Hb2, app_nil_r in Hc. fold full in Hc.
  destruct Hp as [[Haf Hcf] Hif _ (c & Hcs & _)].
  assert (dir (fs w1) !! path seg = Some i) as Hd1 by by rewrite Hcs.
  assert (stable_content (fs w1) i = stable_content (fs wd) i) as Hst1 by by rewrite Hcs, stable_set.
  assert (kept (path seg) (fs w1) (fs w1)) as Hk
    by (apply kept_refl; rewrite Hcs; by apply fs_ok_upd).
  assert (forall s', safe (path seg) (fs w1) tail s' -> clear_state (fs wd) seg full tail s') as Hsafe.
  { intros s' [[H1 H2 H3]|(t & H1 & _ & H2 & H3)].
    - exists i. rewrite H2. split; [done|]. left. destruct (H3 i Hd1) as [-> ->].
      rewrite Hc, Hst1. split_and!; [by apply prefix_app_r|done..].
    - exists t. split; [done|]. by right. }
  apply wp_try. unfold fseek_end, on_open. rewrite Hcf.
  apply wp_pure_call; [..|apply Hsafe; by left].
  2:{ intros w2 Hs2 Hq2. apply wp_ret. split; [apply Hsafe; left; by rewrite Hs2|].
      split; [done|]. intros Hqw. by destruct Hq2; apply (Hq Hqw He). }
  intros w2 Hs2 Hq2. cbn [pos]. change (ino (wfile seg)) with i in Hif. rewrite Hif, Hc.
  destruct (Z.leb_spec off 0); [lia|]. destruct (Z.leb_spec (Z.of_nat (length full)) off); [lia|].
  cbn [orb]. eapply wp_mono; [apply (wp_clearTail i (path seg) (fs w1) full); [done|done|..|done]| |exact Hsafe].
  - by rewrite Hs2.
  - done.
  - done.
  - intros [r seg'] w3 (H1 & H2 & H3). split; [by apply Hsafe|]. split; [by intros ?; apply H2|].
    intros Hqw. apply H3. apply Hq2. by apply (Hq Hqw He).
Qed.

(** The truncating path: without faults the segment ends up empty. *)
Lemma clear_truncates seg off s :
  has_inode s (seg_ino seg) -> appending (wfile seg) -> dir s !! path seg = Some (seg_ino seg) ->
  berr (wrt seg) = None ->
  off <= 0 \/ Z.of_nat (length (content s (seg_ino seg) ++ buffered (wrt seg))) <= off ->
  exists seg', clearSegment seg off (mkWorld s []) =
    Ret (Ok tt, seg') (mkWorld (set_content (seg_ino seg) [] s) []) /\
    seg_open (set_content (seg_ino seg) [] s) seg' [] /\ path seg' = path seg.
Proof.
  intros Hi Ha Hd He Hoff. unfold clearSegment, io_bind.
  destruct (bflush_quiet (wfile seg) (wrt seg) s Ha Hi He) as (f & -> & [Haf Hcf] & Hif).
  change (ino (wfile seg)) with (seg_ino seg) in *.
  unfold io_try, io_bind, fseek_end, ftruncate, fseek_start, on_open, syscall. rewrite Hcf.
  cbn [next_outcome oracle fs pos closed ino append Nat.eqb]. rewrite Hif, content_set by done.
  assert ((off <=? 0) || (Z.of_nat (length (content s (seg_ino seg) ++ buffered (wrt seg))) <=? off)
    = true) as -> by (apply orb_true_iff; rewrite !Z.leb_le; lia).
  cbn [next_outcome oracle fs closed ino append breset]. rewrite set_truncate, set_content_set.
  eexists. split; [reflexivity|]. split; [|done]. cbn.
  split_and!; [done|by apply has_inode_set|exact Hd|done|done|by apply content_set].
Qed.

(** What [Clear] keeps: given the offset [PrepareSnapshot] reported, the length of the
    records [ps] the segment held then, clearing without faults succeeds and leaves exactly
    the records [qs] published since, provided the segment held a record at the time; if it
    was empty, the offset is zero and the records published since are dropped too. *)
Theorem clear_keeps_new_records seg s ps qs :
  fs_ok s -> appending (wfile seg) -> dir s !! path seg = Some (seg_ino seg) ->
  berr (wrt seg) = None ->
  content s (seg_ino seg) ++ buffered (wrt seg) = log_bytes (ps ++ qs) ->
  exists seg' s', clearSegment seg (Z.of_nat (length (log_bytes ps))) (mkWorld s []) =
      Ret (Ok tt, seg') (mkWorld s' []) /\
    path seg' = path seg /\
    seg_open s' seg' (log_bytes (match ps with [] => [] | _ => qs end)).
Proof.
  intros Hs Ha Hd He Hc. pose proof (fo_inode _ Hs _ _ Hd) as Hi.
  set (off := Z.of_nat (length (log_bytes ps))).
  destruct (decide (ps <> [] /\ qs <> [])) as [[Hps Hqs]|Hdeg].
  - assert (0 < off < Z.of_nat (length (content s (seg_ino seg) ++ buffered (wrt seg)))) as Hoff.
    { pose proof (log_bytes_length ps). pose proof (log_bytes_length qs).
      rewrite Hc, log_bytes_app, length_app. unfold off. destruct ps, qs; cbn in *; try done; lia. }
    destruct (wp_faultless _ _ _ s (faultless_clearSegment seg off)
      (clear_crash_safe seg off (mkWorld s []) Hs Ha Hd He Hoff))
      as ([r seg'] & s' & Hrun & _ & Hok & Hq).
    rewrite (Hq eq_refl) in *. destruct (Hok eq_refl) as [Hopen Hp].
    exists seg', s'. split_and!; [done..|]. cbn [fs] in Hopen. unfold off in Hopen.
    rewrite Hc, log_bytes_app, Nat2Z.id, drop_app_length in Hopen. by destruct ps.
  - destruct (clear_truncates seg off s Hi Ha Hd He) as (seg' & Hrun & Hopen & Hp).
    { rewrite Hc, log_bytes_app, length_app. unfold off. destruct ps as [|x ps]; [left; done|right].
      destruct qs as [|y qs]; [cbn; lia|]. by destruct Hdeg. }
    exists seg', (set_content (seg_ino seg) [] s). split_and!; [done..|].
    destruct ps as [|x ps]; [done|]. destruct qs as [|y qs]; [done|]. by destruct Hdeg.
Qed.

Section Race.
Context `{ProtoLaws}.

(** A snapshot of an empty log during which one operation is published. *)
Definition snapshot_race (d : string) (size : Z) (h : wheap) (entry : option nat) (hash : Z) (o : walOp)
    : IO (result (result unit * result unit * gmap string Value * result unit)) :=
  w <-- NewWal d size 1 orelse (fun e => io_ret (Err e));
  '(offsets, w) <-- PrepareSnapshot w;
  match offsets with
  | Err e => io_ret (Err e)
  | Ok offsets =>
      '(published, w, _, _) <-- Publish w h entry hash (op_message o);
      '(cleared, w) <-- Clear w offsets;
      '(m, replayed, _) <-- Replay w;
      io_ret (Ok (published, cleared, m, replayed))
  end.

Lemma Publish_quiet w pss h entry hash o p s :
  wal_inv s w pss -> healthy w -> 0 <= hash -> encodes o p ->
  exists w' h' e' s', Publish w h entry hash (op_message o) (mkWorld s []) =
      Ret (Ok tt, w', h', e') (mkWorld s' []) /\
    wal_inv s' w' (alter (fun ps => ps ++ [p]) (Z.to_nat (hash mod count w)) pss) /\
    healthy w' /\ extends s s' /\ path <$> segments w' = path <$> segments w.
Proof.
  intros Hw Hh Hhash [Hm Hl].
  assert (faultless (Publish w h entry hash (op_message o))) as Hf.
  { unfold Publish. destruct (installMessage _ _ _) as [[? ?]|]; faultless_tac. }
  destruct (wp_faultless _ _ _ s Hf (wp_Publish w pss h entry hash o p (mkWorld s []) Hw Hhash Hm))
    as ([[[r w'] h'] e'] & s' & Hrun & Hw' & Hext & Hn & Hpath & _ & Hq).
  destruct (Hq eq_refl Hh) as (_ & -> & Hh'). exists w', h', e', s'. by split_and!.
Qed.

(** [PrepareSnapshot] of a log with nothing buffered reports the lengths of its files. *)
Lemma prepareSegments_quiet segs cs s :
  Forall2 (seg_open s) segs cs ->
  exists segs', prepareSegments segs (mkWorld s []) =
      Ret (Ok ((fun c => Z.of_nat (length c)) <$> cs), segs') (mkWorld s []) /\
    Forall2 (seg_open s) segs' cs /\ seg_ino <$> segs' = seg_ino <$> segs /\
    path <$> segs' = path <$> segs.
Proof.
  induction 1 as [|seg c segs cs (Ha & Hi & Hd & He & Hb & Hc) HF IH]; [by exists []|].
  destruct IH as (segs' & Hrun & HF' & Hino & Hp).
  exists (mkSegment (wrt seg) (mkFile (seg_ino seg) (length c) true false) (path seg) :: segs').
  split_and!.
  - cbn [prepareSegments]. unfold bflush, io_try, io_bind. rewrite He, Hb. unfold io_ret.
    unfold fseek_end, on_open, syscall. destruct Ha as [-> ->].
    cbn [next_outcome oracle fs]. rewrite Hrun. cbn [pos fs]. by rewrite <- Hc.
  - constructor; [|done]. by split_and!.
  - rewrite !fmap_cons, Hino. done.
  - rewrite !fmap_cons, Hp. done.
Qed.

(** C30. A record can be lost although every call succeeds: when the log is empty as a
    snapshot begins, a record published while it runs (too late for the snapshot to see) is
    removed by the [Clear] that ends it, and the next replay does not find it. *)
Theorem first_snapshot_drops_concurrent_record d size h entry hash o p s :
  fs_ok s -> files_of s d 1 = [[]] -> 0 <= hash -> encodes o p ->
  exists wd, snapshot_race d size h entry hash o (mkWorld s []) = Ret (Ok (Ok tt, Ok tt, ∅, Ok tt)) wd.
Proof.
  intros Hs Hempty Hhash Hp. destruct (NewWal_quiet d size 1 s Hs) as (w & s1 & Hnew & Hs1 & Hlen & Hopen).
  rewrite Hempty in Hopen. destruct Hopen as (HF & Hnd & Hn). rewrite Hlen in Hn.
  destruct (prepareSegments_quiet _ _ _ HF) as (segs1 & Hprep & HF1 & Hino1 & _).
  set (w1 := mkWal segs1 (count w)).
  assert (length segs1 = 1%nat) as Hlen1 by by rewrite (Forall2_length _ _ _ HF1).
  destruct (wal_open_inv s1 w1 [[]]) as [Hw Hh]; [|cbn; lia|].
  { split_and!; [done|cbn [segments w1]; by rewrite Hino1|cbn; lia]. }
  destruct (Publish_quiet _ _ h entry hash o p s1 Hw Hh Hhash Hp)
    as (w2 & h2 & e2 & s2 & Hpub & Hw2 & Hh2 & _ & _).
  assert (exists seg2, segments w2 = [seg2]) as [seg2 Hseg2].
  { pose proof (Forall2_length _ _ _ (wi_segments _ _ _ Hw2)) as Hl. rewrite length_alter in Hl.
    destruct (segments w2) as [|x [|? ?]]; try done. by exists x. }
  pose proof (wi_segments _ _ _ Hw2) as HF2. unfold healthy in Hh2. rewrite Hseg2 in HF2, Hh2.
  apply Forall2_cons_inv_l in HF2 as (ps2 & ? & (Ha2 & Hi2 & Hd2 & _ & Hc2) & _ & _).
  apply Forall_cons_1 in Hh2 as [He2 _].
  destruct (clear_truncates seg2 0 s2) as (seg3 & Hclr & Hopen3 & _); [done..|by left|].
  destruct (replaySegments_quiet [seg3] [[]] (set_content (seg_ino seg2) [] s2) ∅ (Ok tt))
    as (segs & s4 & Hrep); [|apply NoDup_singleton|].
  { constructor; [|constructor]. destruct Hopen3 as (? & ? & ? & ? & Hb3 & ?).
    split_and!; [done..|]. by rewrite Hb3, app_nil_r. }
  exists (mkWorld s4 []). unfold snapshot_race, io_try, io_bind. rewrite Hnew.
  unfold PrepareSnapshot, io_bind. rewrite Hprep. unfold io_ret. fold w1. rewrite Hpub.
  unfold Clear, io_bind. rewrite Hseg2. cbn [clearSegments fmap list_fmap length head tail from_option].
  unfold io_bind. change (Datatypes.id (Z.of_nat 0)) with 0. rewrite Hclr. unfold io_ret, Replay, io_bind.
  cbn [segments]. rewrite Hrep. done.
Qed.

End Race.

(** ** Concrete runs *)

Module WalExamples.
Import Fnv BitCodec.

Definition hash_key (k : string) : Z := HashFunc k.

Lemma hash_key_nonneg k : 0 <= hash_key k.
Proof. apply HashFunc_range. Qed.

Definition set_op (k v : string) (ts : Z) : walOp :=
  WalEntry_Set (mkSet k (Some (string_bytes v)) ts "n1").
Definition del_op (k : string) (ts : Z) : walOp := WalEntry_Delete (mkDelete k ts "n1").

Definition payload (o : walOp) : bytes := default [] (Marshal (mkWalEntry (Some o))).

Definition some_ops : list (option nat * walOp) :=
  [(None, set_op "a" "1" 5); (Some 0%nat, set_op "b" "x" 6); (None, set_op "a" "2" 9);
   (Some 1%nat, del_op "b" 7)].

Definition some_payloads : list bytes := payload ∘ snd <$> some_ops.

(** A run of executable tests that proves a pointwise encoding. *)
Definition encodesb (o : walOp) (p : bytes) : bool :=
  bool_decide (Marshal (mkWalEntry (Some o)) = Some p) && (Z.of_nat (length p) <? 2 ^ 32).

Lemma encodesb_sound o p : encodesb o p = true -> encodes o p.
Proof. intros [H1 H2]%andb_true_iff. split; [by apply bool_decide_eq_true in H1|lia]. Qed.

Lemma some_ops_encode : Forall2 (fun x p => encodes x.2 p) some_ops some_payloads.
Proof. repeat constructor; by apply encodesb_sound; vm_compute. Qed.

Lemma empty_fs_ok : fs_ok empty_fs.
Proof. by constructor. Qed.

Lemma empty_files d n : files_of empty_fs d n = replicate n [].
Proof.
  unfold files_of, file_bytes, named. apply list_eq. intros i. rewrite list_lookup_fmap.
  destruct (decide (i < n)%nat) as [Hi|Hi].
  - by rewrite lookup_seq_lt, lookup_replicate_2.
  - rewrite !lookup_ge_None_2; [done|..]; rewrite ?length_seq, ?length_replicate; lia.
Qed.

Lemma publish_replay_witness :
  exists rs m wd,
    session hash_key "data" 16 2 ∅ some_ops (mkWorld empty_fs []) = Ret (Ok (rs, m, Ok tt)) wd /\
    m !! "a"%string = Some (mkValue EmptyString (Some (string_bytes "2")) 9 false 0).
Proof.
  destruct (publish_replay hash_key hash_key_nonneg "data" 16 2 ∅ some_ops some_payloads empty_fs)
    as (rs & m & wd & Hrun & _ & Hm & _);
    [exact empty_fs_ok|lia|apply empty_files|exact some_ops_encode|].
  exists rs, m, wd. split; [exact Hrun|]. rewrite Hm. vm_compute. reflexivity.
Defined.

(** Facts about all inodes, decided on the table. *)
Lemma stable_all s :
  map_Forall (fun _ x => stable x = data x) (inodes s) -> forall i, stable_content s i = content s i.
Proof.
  intros Hs i. unfold stable_content, content. destruct (inodes s !! i) as [x|] eqn:E; [|done].
  cbn. by apply (Hs i).
Qed.

Lemma outage_refl s :
  map_Forall (fun _ x => stable x `prefix_of` data x) (inodes s) -> outage s s.
Proof.
  intros Hs. constructor; [done..|]. intros i. split; [|done].
  unfold stable_content, content. destruct (inodes s !! i) as [x|] eqn:E; [|done].
  by apply (Hs i).
Qed.

(** A log opened in an empty directory, and a crash in the middle of the second record. *)
Definition opened : Wal * FS :=
  match NewWal "data" 1 2 (mkWorld empty_fs []) with
  | Ret (Ok w) wd => (w, fs wd)
  | _ => (mkWal [] 0, empty_fs)
  end.

Definition crashed : FS :=
  match publishAll hash_key opened.1 ∅ some_ops (mkWorld opened.2 [Good; Crash 7]) with
  | Ret _ wd => fs wd
  | Halt f => f
  end.

Lemma crash_recovery_witness :
  exists w' m r w'' s4 s5,
    NewWal "data" 1 2 (mkWorld crashed []) = Ret (Ok w') (mkWorld s4 []) /\
    Replay w' (mkWorld s4 []) = Ret (m, r, w'') (mkWorld s5 []).
Proof.
  destruct (crash_recovery hash_key hash_key_nonneg "data" 1 2 ∅ some_ops some_payloads empty_fs
    [[]; []] [[]; []] opened.1 opened.2 [Good; Crash 7] crashed crashed)
    as (w' & m & r & w'' & s4 & s5 & ks & H1 & H2 & _).
  - exact empty_fs_ok.
  - lia.
  - apply empty_files.
  - repeat constructor.
  - exact some_ops_encode.
  - vm_compute. reflexivity.
  - apply stable_all. apply (bool_decide_eq_true_1 _). vm_compute. reflexivity.
  - unfold crashed. destruct (publishAll _ _ _ _ _); reflexivity.
  - apply outage_refl. apply (bool_decide_eq_true_1 _). vm_compute. reflexivity.
  - exists w', m, r, w'', s4, s5. split; [exact H1|exact H2].
Defined.

(** One segment that holds two records, the second still in the buffer. *)
Definition p1 : bytes := payload (set_op "a" "1" 5).
Definition p2 : bytes := payload (del_op "b" 7).

Definition one_fs : FS :=
  mkFS {["seg"%string := 0%nat]} {[0%nat := mkInode (log_bytes [p1]) []]} 1 [].
Definition one_seg : walSegment :=
  mkSegment (mkBufw (log_bytes [p2]) 64 None) (mkFile 0 0 true false) "seg".

Lemma one_fs_ok : fs_ok one_fs.
Proof.
  assert (forall p i, dir one_fs !! p = Some i -> p = "seg"%string /\ i = 0%nat) as H.
  { intros p i Hp. cbn [one_fs dir] in Hp. by apply lookup_singleton_Some in Hp as [<- <-]. }
  constructor.
  - intros p i [_ ->]%H. by eexists.
  - intros p i [_ ->]%H. cbn. lia.
  - intros p q i [-> _]%H [-> _]%H. done.
Qed.

Definition one_offset : Z := Z.of_nat (length (log_bytes [p1])).

Lemma clear_crash_safe_witness :
  match clearSegment one_seg one_offset (mkWorld one_fs [Good; Good; Good; Good; Good; Good; Crash 0]) with
  | Ret _ _ => True
  | Halt f => clear_state one_fs one_seg (log_bytes [p1] ++ log_bytes [p2]) (log_bytes [p2]) f
  end.
Proof.
  pose proof (clear_crash_safe one_seg one_offset
    (mkWorld one_fs [Good; Good; Good; Good; Good; Good; Crash 0]) one_fs_ok (conj eq_refl eq_refl)
    eq_refl eq_refl (conj eq_refl eq_refl)) as Hw.
  unfold wp in Hw. destruct (clearSegment _ _ _); [exact I|]. exact Hw.
Defined.

Lemma clear_keeps_new_records_witness :
  exists seg' s', clearSegment one_seg one_offset (mkWorld one_fs []) = Ret (Ok tt, seg') (mkWorld s' []) /\
    path seg' = "seg"%string /\ seg_open s' seg' (log_bytes [p2]).
Proof.
  exact (clear_keeps_new_records one_seg one_fs [p1] [p2] one_fs_ok (conj eq_refl eq_refl) eq_refl
    eq_refl eq_refl).
Defined.

Lemma first_snapshot_drops_concurrent_record_witness :
  exists wd, snapshot_race "data" 16 ∅ None (hash_key "a") (set_op "a" "1" 5) (mkWorld empty_fs []) =
    Ret (Ok (Ok tt, Ok tt, ∅, Ok tt)) wd.
Proof.
  apply (first_snapshot_drops_concurrent_record "data" 16 ∅ None (hash_key "a") (set_op "a" "1" 5) p1).
  - exact empty_fs_ok.
  - apply (empty_files "data" 1).
  - apply hash_key_nonneg.
  - apply encodesb_sound. vm_compute. reflexivity.
Defined.

End WalExamples.
