(* ===== verification/Iface.v ===== *)
(** * Interfaces between the storage components

    The Go interfaces [clock.Clocker], [wal.Waler] and [evict.Evictor] as classes of
    operations, with the laws clients rely on as classes of their own.  The writer and the
    engine are modelled and proved against these; the instances at the end show that the
    clock and the log discharge the laws.

    An operation returns [None] when the call does not return: the clock is still asleep, or
    the machine has stopped. *)

From S2P Require Import Prelude Kv Clock Fs Wal WalTheory.
Import Clock Wal.

#[local] Open Scope Z_scope.

(** ** clock.Clocker *)

Class Clocker (C : Type) := {
  clk_Now : C -> option (Z * C);
  clk_Update : Z -> C -> option C
}.

(** [clk_last] bounds every timestamp the clock has issued or accepted; [clk_Now] exceeds
    it until the clock saturates. *)
Class ClockerLaws (C : Type) `{Clocker C} := {
  clk_ok : C -> Prop;
  clk_last : C -> Z;
  clk_saturated : C -> Prop;
  clk_accepts : Z -> C -> Prop;
  clk_Now_law : forall c ts c', clk_ok c -> clk_Now c = Some (ts, c') ->
    clk_ok c' /\ - 2 ^ 63 <= ts <= MaxInt64 /\ clk_last c <= clk_last c' /\
    (clk_saturated c' \/ clk_last c < ts /\ ts <= clk_last c');
  clk_Update_law : forall r c c', - 2 ^ 63 <= r <= MaxInt64 -> clk_ok c ->
    clk_Update r c = Some c' ->
    clk_ok c' /\ clk_last c <= clk_last c' /\
    (clk_accepts r c -> clk_saturated c' \/ r <= clk_last c');
  clk_saturated_mono : forall c c', clk_last c <= clk_last c' -> clk_saturated c -> clk_saturated c'
}.

(** ** wal.Waler *)

Class Waler (W : Type) := {
  wal_Publish : string -> Z -> message -> W -> option (result unit * W);
  wal_Replay : W -> option (gmap string Value * result unit * W);
  wal_PrepareSnapshot : W -> option (result (list Z) * W);
  wal_Clear : list Z -> W -> option (result unit * W)
}.

(** The encoding of a request, if it has one, is short enough for a record. *)
Definition fits `{Proto} (o : walOp) : Prop :=
  forall p, Marshal (mkWalEntry (Some o)) = Some p -> Z.of_nat (length p) < 2 ^ 32.

(** A log that keeps what it acknowledges: [wal_rep w ops] says that [w] keeps [ops].  A call of
    [Publish] may fail, and then the request is kept or it is not, but the log stays one that
    can be replayed. *)
Class DurableWaler (W : Type) `{Waler W} `{Proto} (hf : string -> Z) := {
  wal_rep : W -> list walOp -> Prop;
  wal_Publish_law : forall w ops key o r w', wal_rep w ops -> fits o ->
    wal_Publish key (hf (op_key o)) (op_message o) w = Some (r, w') ->
    wal_rep w' (ops ++ [o]) \/ r <> Ok tt /\ wal_rep w' ops;
  wal_Replay_law : forall w ops, wal_rep w ops ->
    exists w', wal_Replay w = Some (foldl applyEntry ∅ (op_entry <$> ops), Ok tt, w')
}.

(** ** evict.Evictor *)

Class Evictor (E : Type) := {
  evt_Publish : string -> Z -> E -> E;
  evt_PublishDelete : string -> Z -> E -> E
}.

(** ** oryx.Database *)

(** The operations a server needs of a database; a result of [None] means that the call does
    not return. *)
Class Database (D : Type) := {
  db_Get : string -> D -> option (option slice * D);
  db_Set : string -> slice -> D -> option (result unit * D);
  db_Delete : string -> D -> option (bool * result unit * D)
}.

(** A database that behaves as one map: [db_rep d st] says that [d] holds [st].  The laws hold
    up to states that are not [db_good] (for an engine, whose clock is at its last tick), which
    once reached are never left. *)
Class DatabaseLaws (D : Type) `{Database D} := {
  db_inv : D -> Prop;
  db_rep : D -> gmap string slice -> Prop;
  db_good : D -> Prop;
  db_rep_inv : forall d st, db_rep d st -> db_inv d;
  db_Get_inv : forall d k a d', db_inv d -> db_Get k d = Some (a, d') ->
    db_inv d' /\ (db_good d' -> db_good d);
  db_Set_inv : forall d k v r d', db_inv d -> db_Set k v d = Some (r, d') ->
    db_inv d' /\ (db_good d' -> db_good d);
  db_Delete_inv : forall d k b r d', db_inv d -> db_Delete k d = Some (b, r, d') ->
    db_inv d' /\ (db_good d' -> db_good d);
  db_Get_law : forall d st k a d', db_rep d st -> db_Get k d = Some (a, d') -> db_good d' ->
    a = st !! k /\ db_rep d' st;
  db_Set_law : forall d st k v r d', db_rep d st -> db_Set k v d = Some (r, d') -> db_good d' ->
    db_rep d' (<[k := v]> st);
  db_Delete_law : forall d st k b r d', db_rep d st -> db_Delete k d = Some (b, r, d') -> db_good d' ->
    b = bool_decide (is_Some (st !! k)) /\ db_rep d' (delete k st)
}.

(** ** Instances *)

(** [NopWal]: nothing is written and nothing is replayed. *)
Record NopWal : Set := NewNopWal {}.

#[export] Instance nop_waler : Waler NopWal := {|
  wal_Publish _ _ _ w := Some (Ok tt, w);
  wal_Replay w := Some (∅, Ok tt, w);
  wal_PrepareSnapshot w := Some (Ok [], w);
  wal_Clear _ w := Some (Ok tt, w)
|}.

(** The clock with the wall-clock readings each of its calls will take. *)
Record timedClock := mkTimed { readings : list (list Z); clk : Clock }.

#[export] Instance timed_clocker : Clocker timedClock := {|
  clk_Now c :=
    match readings c with
    | [] => None
    | samples :: rest =>
        match Clock.Now samples (clk c) with
        | Some (ts, c') => Some (ts, mkTimed rest c')
        | None => None
        end
    end;
  clk_Update r c :=
    match readings c with
    | [] => None
    | samples :: rest => c' ← Clock.Update r samples (clk c); Some (mkTimed rest c')
    end
|}.

(** The clock accepts a remote timestamp unless it is negative or more than five seconds
    ahead of the wall clock. *)
#[export] Program Instance timed_clocker_laws : ClockerLaws timedClock := {|
  clk_ok c := state_ok (state (clk c));
  clk_last c := state (clk c);
  clk_saturated c := maxPhysical <= physical (state (clk c));
  clk_accepts r c :=
    forall t rest rest', readings c = (t :: rest) :: rest' -> update_ignores r (physicalNow t) = false
|}.
Next Obligation.
  intros c ts c' Hok Hnow. cbn in Hnow. destruct (readings c) as [|samples rest]; [done|].
  destruct (Clock.Now samples (clk c)) as [[ts0 c0]|] eqn:E; [|done]. cbn in Hnow.
  injection Hnow as -> <-. cbn.
  destruct (Now_ok _ _ _ _ Hok E) as (H1 & Hts & [(_ & H2 & H3)|(H2 & H3)]); unfold state_ok in Hts.
  - rewrite H2. split; [done|]. split; [lia|]. split; [lia|]. by left.
  - split; [done|]. split; [lia|]. split; [lia|]. right. lia.
Qed.
Next Obligation.
  intros r c c' Hr Hok Hup. cbn in Hup. destruct (readings c) as [|samples rest] eqn:Er; [done|].
  destruct (Clock.Update r samples (clk c)) as [c0|] eqn:E; [|done]. cbn in Hup.
  injection Hup as <-. cbn. unfold Update in E. destruct samples as [|t samples]; [done|].
  destruct (update_ignores r (physicalNow t)) eqn:Ei.
  - injection E as <-. split; [done|]. split; [lia|]. intros Ha.
    by rewrite (Ha _ _ _ Er) in Ei.
  - apply (update_accepts r (physicalNow t) Hr (physicalNow_range t)) in Ei as [Hr' _].
    destruct (update_loop_ok r _ _ _ Hok Hr' E) as (H1 & H2 & [H3|H3]).
    + split; [done|]. split; [lia|]. right. lia.
    + split; [done|]. split; [lia|]. by left.
Qed.

Next Obligation.
  intros c c' Hle. cbn. rewrite !physical_div. pose proof (Z.div_le_mono _ _ 65536 ltac:(lia) Hle). lia.
Qed.

(** The log on disk: the open log, the heap of wrappers, the objects in the entry pool (the
    last one given back is handed out first), and the machine. *)
Record diskWal := mkDisk {
  dw_wal : Wal;
  dw_heap : wheap;
  dw_pool : list (option nat);
  dw_world : world
}.

Section Disk.
Context `{Proto}.

(** Runs a computation on the machine of [w]; [None] when it stops. *)
Definition on_disk {A B} (m : IO A) (k : A -> world -> B) (w : diskWal) : option B :=
  match m (dw_world w) with Ret a wd => Some (k a wd) | Halt _ => None end.

#[export] Instance disk_waler : Waler diskWal := {|
  wal_Publish _ hash msg w :=
    on_disk (Publish (dw_wal w) (dw_heap w) (default None (head (dw_pool w))) hash msg)
      (fun '(r, l, h, e) wd => (r, mkDisk l h (e :: tail (dw_pool w)) wd)) w;
  wal_Replay w :=
    on_disk (Replay (dw_wal w))
      (fun '(m, r, l) wd => (m, r, mkDisk l (dw_heap w) (dw_pool w) wd)) w;
  wal_PrepareSnapshot w :=
    on_disk (PrepareSnapshot (dw_wal w))
      (fun '(r, l) wd => (r, mkDisk l (dw_heap w) (dw_pool w) wd)) w;
  wal_Clear offsets w :=
    on_disk (Clear (dw_wal w) offsets)
      (fun '(r, l) wd => (r, mkDisk l (dw_heap w) (dw_pool w) wd)) w
|}.

Context `{!ProtoLaws} (hf : string -> Z) (Hhf : forall k, 0 <= hf k).

(** The log of [ops], spread over the segments, on a machine that does not fail. *)
Definition disk_rep (w : diskWal) (ops : list walOp) : Prop :=
  exists s ps, dw_world w = mkWorld s [] /\ Forall2 encodes ops ps /\ healthy (dw_wal w) /\
    wal_inv s (dw_wal w)
      (logs_with hf (count (dw_wal w)) (replicate (Z.to_nat (count (dw_wal w))) []) (zip ops ps)).

Lemma logs_with_snoc n logs l x :
  logs_with hf n logs (l ++ [x]) =
    alter (fun ps => ps ++ [x.2]) (segment_of hf n x.1) (logs_with hf n logs l).
Proof. unfold logs_with. by rewrite foldl_snoc. Qed.

#[export] Program Instance disk_durable : DurableWaler diskWal hf := {| wal_rep := disk_rep |}.
Next Obligation.
  intros [l h pool wd] ops key o r w' (s & ps & Hwd & Hps & Hh & Hinv) Hfit. cbn in *. subst wd.
  unfold on_disk. cbn [dw_world].
  destruct (Marshal (mkWalEntry (Some o))) as [p|] eqn:Hm.
  2: { unfold Publish. destruct (install_marshal h (default None (head pool)) o) as (h' & e' & -> & ->). rewrite Hm.
    unfold io_ret. intros [= <- <-]. right. split; [done|]. by exists s, ps. }
  assert (encodes o p) as Hp by (split; [done|by apply Hfit]).
  destruct (Publish_quiet l _ h (default None (head pool)) (hf (op_key o)) o p s Hinv Hh (Hhf _) Hp)
    as (l' & h' & e' & s' & Hrun & Hinv' & Hh' & _ & _).
  rewrite Hrun. intros [= <- <-]. left.
  exists s', (ps ++ [p]). cbn [dw_world dw_wal].
  assert (count l' = count l) as Hc.
  { pose proof (wi_count _ _ _ Hinv) as Hc1. pose proof (wi_count _ _ _ Hinv') as Hc2.
    pose proof (Forall2_length _ _ _ (wi_segments _ _ _ Hinv)) as Hl1.
    pose proof (Forall2_length _ _ _ (wi_segments _ _ _ Hinv')) as Hl2.
    rewrite length_alter in Hl2. congruence. }
  split; [done|]. split; [apply Forall2_app; [done|by constructor]|]. split; [done|].
  rewrite Hc, zip_with_app by by eapply Forall2_length. cbn [zip_with].
  by rewrite logs_with_snoc.
Qed.
Next Obligation.
  intros [l h pool wd] ops (s & ps & Hwd & Hps & Hh & Hinv). cbn in *. subst wd.
  pose proof (wi_range _ _ _ Hinv) as Hr.
  destruct (Replay_healthy l _ (bins (segment_of hf (count l)) (replicate (Z.to_nat (count l)) []) ops)
    s Hinv Hh) as (l' & s' & Hrun).
  { apply logs_with_carries; [|done]. by apply Forall2_replicate. }
  rewrite replay_bins in Hrun by lia. unfold on_disk. cbn [dw_world]. rewrite Hrun. by eexists.
Qed.

End Disk.
