(* ===== verification/Writer.v ===== *)
(** * The storage writer (src/core/writer/storagewriter.go)

    Applies sets and deletes to the map under last-write-wins and publishes the accepted ones
    to the log.  The writer shares the map, the log and the clock with the engine; the model
    passes the three together.  Byte slices are values in the model, so [cloneBytes], whose
    purpose is to end the sharing of the caller's buffer, only preserves nil. *)

From S2P Require Import Prelude Kv ShardedMap MapTheory Wal Iface.
Import Wal ShardedMap.

Module Writer.

Section Writer.
Context `{XXHash, Radix} {W C : Type} `{Waler W} `{Clocker C}.

Record StorageWriter := NewStorageWriter {
  sw_hm : ShardedMap.ShardedMap;
  sw_wal : W;
  sw_clock : C
}.

Definition cloneBytes (b : slice) : slice :=
  match b with
  | None => None
  | Some l => Some l
  end.

(** The records that the two requests describe. *)
Definition setValue (req : SetRequest) : Value :=
  mkValue (set_NodeId req) (cloneBytes (set_Value req)) (set_Timestamp req) false 0.

Definition deleteValue (req : DeleteRequest) : Value :=
  mkValue (del_NodeId req) None (del_Timestamp req) true 0.

(** The common part of [ApplySet] and [ApplyDelete]. *)
Definition apply (sw : StorageWriter) (key : string) (ts : Z) (val : Value) (msg : message)
    (ctx : string) : option (result unit * StorageWriter) :=
  clock ← clk_Update ts (sw_clock sw);
  let hash := HashFunc key in
  let '(stored, hm) := StoreLWW (sw_hm sw) key hash val in
  if negb stored then Some (Ok tt, NewStorageWriter hm (sw_wal sw) clock)
  else
    match wal_Publish key hash msg (sw_wal sw) with
    | None => None
    | Some (Err e, wal) => Some (Err (ErrWrap ctx e), NewStorageWriter hm wal clock)
    | Some (Ok _, wal) => Some (Ok tt, NewStorageWriter hm wal clock)
    end.

Definition ApplySet (sw : StorageWriter) (req : SetRequest) : option (result unit * StorageWriter) :=
  apply sw (set_Key req) (set_Timestamp req) (setValue req) (MSet req) "failed to persist set to WAL".

Definition ApplyDelete (sw : StorageWriter) (req : DeleteRequest)
    : option (result unit * StorageWriter) :=
  apply sw (del_Key req) (del_Timestamp req) (deleteValue req) (MDelete req)
    "failed to persist delete to WAL".

Definition Exists (sw : StorageWriter) (key : string) : bool :=
  match Load (sw_hm sw) key (HashFunc key) with
  | Some val => negb (Tombstone val)
  | None => false
  end.

End Writer.
#[global] Arguments StorageWriter {_} W C.

(** ** What a request does *)

Section Theory.
Context `{HX : XXHash} `{HR : Radix} `{!XXHashLaws} `{!RadixLaws} {W C : Type} `{Waler W} `{Clocker C}.
Implicit Types (sw : StorageWriter W C) (m : gmap string Value).

(** One request to a node: a write or a delete. *)
Definition ApplyOp sw (o : walOp) : option (result unit * StorageWriter W C) :=
  match o with
  | WalEntry_Set r => ApplySet sw r
  | WalEntry_Delete r => ApplyDelete sw r
  end.

Definition op_value (o : walOp) : Value :=
  match o with
  | WalEntry_Set r => setValue r
  | WalEntry_Delete r => deleteValue r
  end.

Lemma apply_spec sw m key ts val msg ctx r sw' :
  represents (sw_hm sw) m -> apply sw key ts val msg ctx = Some (r, sw') ->
  represents (sw_hm sw') (spec_StoreLWW m key val) /\
  clk_Update ts (sw_clock sw) = Some (sw_clock sw') /\
  if lww_accepts (m !! key) (stamp key val) then
    exists published, wal_Publish key (HashFunc key) msg (sw_wal sw) = Some (published, sw_wal sw') /\
      r = match published with Ok _ => Ok tt | Err e => Err (ErrWrap ctx e) end
  else r = Ok tt /\ sw_wal sw' = sw_wal sw.
Proof.
  intros Hm. unfold apply. destruct (clk_Update ts (sw_clock sw)) as [c|] eqn:Ec; [|done]. ored.
  destruct (StoreLWW_represents (sw_hm sw) m key val Hm) as [Hacc Hm'].
  destruct (StoreLWW (sw_hm sw) key (HashFunc key) val) as [stored hm]. cbn [fst snd] in *. subst stored.
  destruct (lww_accepts (m !! key) (stamp key val)); cbn [negb].
  - destruct (wal_Publish key (HashFunc key) msg (sw_wal sw)) as [[[u|e] w']|] eqn:Ew; [..|done].
    + intros [= <- <-]. cbn. split; [done|]. split; [done|]. by exists (Ok u).
    + intros [= <- <-]. cbn. split; [done|]. split; [done|]. by exists (Err e).
  - intros [= <- <-]. by split_and!.
Qed.

Lemma ApplyOp_spec sw m o r sw' :
  represents (sw_hm sw) m -> ApplyOp sw o = Some (r, sw') ->
  represents (sw_hm sw') (spec_StoreLWW m (WalTheory.op_key o) (op_value o)).
Proof. destruct o; intros Hm Ha; by eapply apply_spec in Ha as [Hr _]. Qed.

(** Applying a list of requests, whatever each call reports. *)
Fixpoint applyAll sw (ops : list walOp) : option (StorageWriter W C) :=
  match ops with
  | [] => Some sw
  | o :: ops' => match ApplyOp sw o with Some (_, sw') => applyAll sw' ops' | None => None end
  end.

Definition op_record (o : walOp) : string * Value := (WalTheory.op_key o, op_value o).

Lemma applyAll_represents sw m ops sw' :
  represents (sw_hm sw) m -> applyAll sw ops = Some sw' ->
  represents (sw_hm sw') (spec_merge m (op_record <$> ops)).
Proof.
  revert sw m. induction ops as [|o ops IH]; intros sw m Hm; cbn [applyAll].
  { by intros [= <-]. }
  destruct (ApplyOp sw o) as [[r sw1]|] eqn:E; [|done]. intros Hrest.
  by eapply IH; [eapply ApplyOp_spec|].
Qed.

(** C5. Replication: two nodes that start empty and receive the same requests, each in its own
    order, with repetitions, with any log and any clock, and whatever errors their logs report,
    end with the same record for every key and the same root digest, provided that no two
    different records of a key tie on timestamp, node and item hash ([collision_free]). *)
Theorem replicas_converge sw1 sw2 ops1 ops2 sw1' sw2' :
  represents (sw_hm sw1) ∅ -> represents (sw_hm sw2) ∅ ->
  (forall o, o ∈ ops1 <-> o ∈ ops2) -> collision_free (op_record <$> ops1) ->
  applyAll sw1 ops1 = Some sw1' -> applyAll sw2 ops2 = Some sw2' ->
  (forall k, Load (sw_hm sw1') k (HashFunc k) = Load (sw_hm sw2') k (HashFunc k)) /\
  RootDigest (sw_hm sw1') = RootDigest (sw_hm sw2').
Proof.
  intros Hr1 Hr2 Hsame Hcf Ha1 Ha2.
  apply (applyAll_represents _ _ _ _ Hr1) in Ha1 as R1. apply (applyAll_represents _ _ _ _ Hr2) in Ha2 as R2.
  rewrite <- (spec_merge_same (op_record <$> ops1) (op_record <$> ops2)) in R2.
  - split; [|by eapply RootDigest_contents].
    intros k. destruct (Load_represents _ _ k R1) as [-> _]. by destruct (Load_represents _ _ k R2) as [-> _].
  - intros x. rewrite !list_elem_of_fmap. split; intros (o & -> & Ho); exists o; by rewrite ?Hsame, <- ?Hsame in *.
  - done.
Qed.

(** Every branch of a request: it updates the map by last-write-wins; a stale request is
    ignored, reports success and is not logged; an accepted one is logged, and an error of the
    log is reported although the map has changed. *)
Theorem request_branches sw m o r sw' :
  represents (sw_hm sw) m -> ApplyOp sw o = Some (r, sw') ->
  let k := WalTheory.op_key o in
  represents (sw_hm sw') (spec_StoreLWW m k (op_value o)) /\
  if lww_accepts (m !! k) (stamp k (op_value o)) then
    exists published,
      wal_Publish k (HashFunc k) (WalTheory.op_message o) (sw_wal sw) = Some (published, sw_wal sw') /\
      (r = Ok tt <-> published = Ok tt)
  else r = Ok tt /\ sw_wal sw' = sw_wal sw.
Proof.
  intros Hm Ha. destruct o; cbn [ApplyOp] in Ha; eapply apply_spec in Ha as (Hr & _ & Hc);
    [|done| |done]; (split; [done|]); cbn [WalTheory.op_key op_value WalTheory.op_message] in *;
    (destruct (lww_accepts _ _); [|done]); destruct Hc as (p & Hp & ->); exists p; (split; [done|]);
    by destruct p as [[]|].
Qed.

(** [Exists] reports exactly the keys that hold a live record. *)
Theorem exists_live sw m key :
  represents (sw_hm sw) m ->
  Exists sw key = true <-> exists v, m !! key = Some v /\ Tombstone v = false.
Proof.
  intros Hm. unfold Exists. destruct (Load_represents _ _ key Hm) as [-> _].
  destruct (m !! key) as [v|]; cbn.
  - rewrite negb_true_iff. split; [by exists v|]. by intros (v' & [= <-] & ?).
  - split; [done|]. by intros (v' & ? & _).
Qed.

End Theory.
End Writer.
