(* ===== verification/Snap.v ===== *)
(** * Snapshots (src/core/snap/snapshot.go)

    A snapshot is a gob stream of entries written under a temporary name and renamed into
    place; then the log is cleared up to the offsets taken before.  Of [encoding/gob] the
    model keeps what the code depends on: a value is sent as its non-zero fields, and decoding
    sets the fields that were sent and leaves the others of the destination alone
    ([gobInto]).  The byte format of a message is not modelled: a snapshot is written as a
    list of chunks, and read as the list of its messages with whether it ended cleanly. *)

From S2P Require Import Prelude Kv Fs Atomic Wal.

#[local] Open Scope Z_scope.

Module Snap.

Record SnapshotEntry := mkEntry {
  se_Key : string;
  se_Data : slice;
  se_Timestamp : Z;
  se_NodeID : string;
  se_Tombstone : bool
}.

(** A new object of the pool, [&snap.SnapshotEntry{}]. *)
Definition emptyEntry : SnapshotEntry := mkEntry EmptyString None 0 EmptyString false.

(** ** encoding/gob *)

(** The fields a message carries. *)
Record gobMsg := mkMsg {
  g_Key : option string;
  g_Data : option bytes;
  g_Timestamp : option Z;
  g_NodeID : option string;
  g_Tombstone : option bool
}.

#[export] Instance gobMsg_eq_dec : EqDecision gobMsg.
Proof. solve_decision. Defined.

Definition nonzero {A} `{EqDecision A} (zero x : A) : option A :=
  if decide (x = zero) then None else Some x.

(** [Encode]: zero fields, and empty byte slices, are not sent. *)
Definition gobFields (e : SnapshotEntry) : gobMsg :=
  mkMsg (nonzero EmptyString (se_Key e)) (nonzero [] (slice_bytes (se_Data e)))
    (nonzero 0 (se_Timestamp e)) (nonzero EmptyString (se_NodeID e)) (nonzero false (se_Tombstone e)).

(** [Decode] into an existing value. *)
Definition gobInto (m : gobMsg) (e : SnapshotEntry) : SnapshotEntry :=
  mkEntry (default (se_Key e) (g_Key m)) (match g_Data m with Some d => Some d | None => se_Data e end)
    (default (se_Timestamp e) (g_Timestamp m)) (default (se_NodeID e) (g_NodeID m))
    (default (se_Tombstone e) (g_Tombstone m)).

(** ** Writing a snapshot *)

Section Create.
Context {W : Type} (prepare : W -> IO (result (list Z) * W)) (clear : list Z -> W -> IO (result unit * W)).

(** The encoder writes the messages straight to the file and stops at the first error. *)
Fixpoint encodeAll (f : file) (chunks : list bytes) : IO (result unit * file) :=
  match chunks with
  | [] => io_ret (Ok tt, f)
  | c :: chunks' =>
      '(_, err, f) <-- fwrite f c;
      match err with
      | Some e => io_ret (Err (ErrWrap "failed to encode snapshot entry" e), f)
      | None => encodeAll f chunks'
      end
  end.

(** The middle of [Create], from [os.Create] to [os.Rename], with the deferred cleanup that
    closes and removes the temporary file on every failure. *)
Definition writeSnapshot (path : string) (chunks : list bytes) : IO (result unit) :=
  let tmpPath := path +:+ ".tmp" in
  file <-- openFile tmpPath true false orelse (fun e => io_ret (Err e));
  '(r, file) <-- encodeAll file chunks;
  let cleanup file e := '(_, _) <-- fclose file; _ <-- os_Remove tmpPath; io_ret (Err e) in
  match r with
  | Err e => cleanup file e
  | Ok _ =>
      _ <-- fsync file orelse cleanup file;
      '(r, file) <-- fclose file;
      match r with
      | Err e => cleanup file e
      | Ok _ =>
          _ <-- os_Rename tmpPath path orelse cleanup file;
          io_ret (Ok tt)
      end
  end.

Definition Create (w : W) (path : string) (chunks : list bytes) : IO (result unit * W) :=
  '(r, w) <-- prepare w;
  match r with
  | Err e => io_ret (Err e, w)
  | Ok offsets =>
      r <-- writeSnapshot path chunks;
      match r with
      | Err e => io_ret (Err e, w)
      | Ok _ => clear offsets w
      end
  end.

End Create.

(** ** The producer and the consumer of snapshot requests *)

(** The channel of capacity one, the flag, and where the consumer stands. *)
Inductive consumer := Waiting | Received | Creating.
Record snapshotter := mkSnp { ch : nat; inProgress : bool; cons : consumer }.

Definition queueSnapShot (s : snapshotter) : snapshotter :=
  if inProgress s then s
  else if (ch s <? 1)%nat then mkSnp (S (ch s)) (inProgress s) (cons s) else s.

(** The steps of the two goroutines: a tick of the producer, and the consumer's receive, its
    setting of the flag, and the end of its [Create]. *)
Inductive snp_step : snapshotter -> snapshotter -> Prop :=
| snp_tick s : snp_step s (queueSnapShot s)
| snp_receive c p : snp_step (mkSnp (S c) p Waiting) (mkSnp c p Received)
| snp_begin c p : snp_step (mkSnp c p Received) (mkSnp c true Creating)
| snp_end c p : snp_step (mkSnp c p Creating) (mkSnp c false Waiting).

(** [NewSnapshotter], its channel made with capacity one. *)
Definition NewSnapshotter : snapshotter := mkSnp 0 false Waiting.

(** ** Theorems *)

(** At most one request waits; a tick during [Create] adds none, but one that falls between the
    receipt of a request and the setting of the flag does, and is served right after. *)
Theorem snapshot_requests s :
  rtc snp_step NewSnapshotter s ->
  (ch s <= 1)%nat /\ (cons s = Creating -> queueSnapShot s = s) /\
  (cons s = Received -> ch s = 0%nat -> ch (queueSnapShot s) = 1%nat).
Proof.
  intros Hr. enough ((ch s <= 1)%nat /\ (inProgress s = true <-> cons s = Creating)) as [Hc Hp].
  { split; [done|]. unfold queueSnapShot. split; intros Hs; [by rewrite (proj2 Hp Hs)|]. intros Hz.
    destruct (inProgress s); [destruct Hp as [Hp _]; specialize (Hp eq_refl); congruence|]. by rewrite Hz. }
  assert (forall a b, snp_step a b -> (ch a <= 1)%nat /\ (inProgress a = true <-> cons a = Creating) ->
    (ch b <= 1)%nat /\ (inProgress b = true <-> cons b = Creating)) as Hstep.
  { intros a b [x| | |]; cbn; try (intros [? ?]; split; [lia|naive_solver]). unfold queueSnapShot.
    destruct (inProgress x) eqn:Ei; [by rewrite Ei|]. destruct (Nat.ltb_spec (ch x) 1); cbn; rewrite ?Ei; [|done].
    intros [? ?]. by split; [lia|]. }
  assert ((ch NewSnapshotter <= 1)%nat /\ (inProgress NewSnapshotter = true <-> cons NewSnapshotter = Creating)) as H0
    by (split; [cbn; lia|done]).
  induction Hr; eauto.
Qed.

Lemma snap_tmp_ne path : path +:+ ".tmp" <> path.
Proof.
  intros E%(f_equal (fun s => length (string_bytes s))).
  rewrite string_bytes_app, length_app in E. cbn in E. lia.
Qed.

Section Write.
Context (path : string) (s0 : FS).
Abbreviation tmp := (path +:+ ".tmp").

(** Nothing has happened to the snapshot yet: the name leads where it did, and a crash can only
    show what it could show before. *)
Definition untouched (s : FS) : Prop := kept path s0 s /\ screened path tmp s0 s.

(** The new snapshot [c] has been renamed into place. *)
Definition in_place (c : bytes) (s : FS) : Prop := replaced path c s /\ survives path s0 c s.

(** The outcomes of writing the snapshot [c]. *)
Definition snap_state (c : bytes) (s : FS) : Prop := untouched s \/ in_place c s.

Lemma untouched_write s t c c' : untouched s -> tmp_open path tmp s t c ->
  untouched (set_content t c' s) /\ tmp_open path tmp (set_content t c' s) t c'.
Proof.
  intros [Hk Hs] Ht. destruct (tmp_write _ _ _ _ _ _ c' Hk Ht) as [Hk' Ht']. split; [|done]. split; [done|].
  apply screened_upd; [done|apply Ht].
Qed.

Lemma untouched_remove s : untouched s -> untouched (do_remove tmp s).
Proof. intros [Hk Hs]. split; [by apply kept_remove; [apply snap_tmp_ne|]|by apply screened_remove; [apply snap_tmp_ne|]]. Qed.

Lemma untouched_sync s t c : untouched s -> tmp_open path tmp s t c ->
  let s' := upd_inode t (fun x => mkInode (data x) (data x)) s in
  untouched s' /\ tmp_open path tmp s' t c /\ stable_content s' t = c.
Proof.
  intros [Hk Hs] Ht s'. destruct (tmp_sync _ _ _ _ _ _ Hk Ht) as (Hk' & Ht' & Hst). split; [|done]. split; [done|].
  apply screened_upd; [done|apply Ht].
Qed.

Lemma untouched_open s :
  untouched s ->
  let s1 := upd_inode (default 0%nat (dir (creat tmp s) !! tmp)) (set_length 0) (creat tmp s) in
  untouched s1 /\ exists t, dir s1 !! tmp = Some t /\ tmp_open path tmp s1 t [].
Proof.
  intros [Hk Hs] s1. destruct (open_tmp _ _ _ (snap_tmp_ne path) s Hk) as (Hk1 & t & Hd & Ht).
  split; [|by exists t]. split; [done|]. change (dir (creat tmp s) !! tmp = Some t) in Hd. subst s1. rewrite Hd.
  apply screened_upd; [|done]. apply screened_creat; [apply snap_tmp_ne|done].
Qed.

Lemma wp_encodeAll chunks f t c wd (Q : result unit * file -> world -> Prop) (C : FS -> Prop) :
  untouched (fs wd) -> tmp_open path tmp (fs wd) t c -> f = mkFile t (length c) false false ->
  (forall r f' w' c', ino f' = t -> closed f' = false -> untouched (fs w') ->
     tmp_open path tmp (fs w') t c' -> (r = Ok tt -> c' = c ++ mjoin chunks) ->
     (quiet wd -> quiet w' /\ r = Ok tt) -> Q (r, f') w') ->
  (forall s, untouched s -> C s) -> wp (encodeAll f chunks) Q C wd.
Proof.
  revert f c wd. induction chunks as [|x chunks IH]; intros f c wd Hk Ht Hf HQ HC; cbn [encodeAll].
  { subst f. apply wp_ret, (HQ _ _ _ c); try done. intros _. by rewrite app_nil_r. }
  subst f. apply wp_bind, wp_fwrite_end; cbn [closed ino append]; rewrite ?(to_content _ _ _ _ _ Ht);
    [done..| | |].
  - intros w' Hq Hs. destruct (untouched_write _ _ _ (c ++ x) Hk Ht) as [Hk' Ht'].
    rewrite <- Hs in Hk', Ht'. eapply IH; [done|exact Ht'| | |done].
    + by rewrite length_app.
    + intros r f' w2 c' H1 H2 H3 H4 H5 H6. apply (HQ _ _ _ c'); try done.
      * intros Hr. rewrite (H5 Hr), mjoin_cons. by rewrite (assoc_L (++)).
      * intros Hqw. auto.
  - intros n w' Hn Hq Hs. destruct (untouched_write _ _ _ (c ++ take n x) Hk Ht) as [Hk' Ht'].
    rewrite <- Hs in Hk', Ht'. apply wp_ret, (HQ _ _ _ (c ++ take n x)); done.
  - intros n. apply HC. by apply (untouched_write _ _ _ _ Hk Ht).
Qed.

(** How writing a snapshot ends. *)
Definition snap_post (c : bytes) (ok0 : Prop) (r : result unit) (wd' : world) : Prop :=
  match r with
  | Ok _ => in_place c (fs wd') /\ exists d, d ∈ was (fs wd') /\ d !! path = dir s0 !! path
  | Err _ => untouched (fs wd') /\ ~ ok0
  end.

Lemma wp_snap_cleanup f e c wd (ok0 : Prop) :
  untouched (fs wd) -> ~ ok0 ->
  wp ('(_, _) <-- fclose f; _ <-- os_Remove tmp; io_ret (Err e : result unit))
    (snap_post c ok0) (snap_state c) wd.
Proof.
  intros Hk Hno. apply wp_bind, wp_fclose; [|by left]. intros r w' Hs _. rewrite <- Hs in Hk.
  apply wp_bind, wp_syscall.
  - intros w2 Hs2 _. apply wp_ret. split; [|done]. rewrite Hs2. by apply untouched_remove.
  - intros n w2 Hn Hs2 _. apply wp_ret. split; [|done]. rewrite Hs2. destruct n; [done|]. by apply untouched_remove.
  - intros n Hn. left. destruct n; [done|]. by apply untouched_remove.
Qed.

Lemma wp_writeSnapshot chunks wd :
  untouched (fs wd) ->
  wp (writeSnapshot path chunks) (snap_post (mjoin chunks) (quiet wd)) (snap_state (mjoin chunks)) wd.
Proof.
  intros Hk. set (c := mjoin chunks). unfold writeSnapshot.
  destruct (untouched_open (fs wd) Hk) as (Hk1 & t & Hd1 & Ht1).
  apply wp_try, wp_syscall.
  2:{ intros n w1 Hn Hs1 Hq1. apply wp_ret. split; [|done]. rewrite Hs1. by destruct n. }
  2:{ intros n Hn. left. by destruct n. }
  intros w1 Hs1 Hq1. cbn [Nat.eqb] in Hs1. rewrite <- Hs1 in Hk1, Hd1, Ht1. rewrite Hd1.
  cbn [from_option]. unfold Datatypes.id.
  apply wp_bind, (wp_encodeAll _ _ t []); [done..| |by left].
  intros r f w2 c' Hi2 Hc2 Hk2 Ht2 Hr2 Hq2. destruct r as [[]|e].
  2:{ apply wp_snap_cleanup; [done|]. intros Hq. by destruct (Hq2 (Hq1 Hq)). }
  specialize (Hr2 eq_refl). cbn [app] in Hr2. subst c'.
  apply wp_try. unfold fsync, on_open. rewrite Hc2, Hi2. apply wp_syscall.
  2:{ intros n w3 Hn Hs3 Hq3. apply wp_snap_cleanup.
      - rewrite Hs3. destruct n; [done|]. by apply (untouched_sync _ _ _ Hk2 Ht2).
      - intros Hq. by destruct Hq3; apply (Hq2 (Hq1 Hq)). }
  2:{ intros n Hn. left. destruct n; [done|]. by apply (untouched_sync _ _ _ Hk2 Ht2). }
  intros w3 Hs3 Hq3. cbn [Nat.eqb] in Hs3.
  destruct (untouched_sync _ _ _ Hk2 Ht2) as (Hk3 & Ht3 & Hst3). rewrite <- Hs3 in Hk3, Ht3, Hst3.
  apply wp_bind, wp_fclose; [|by left]. intros r w4 Hs4 Hr4. rewrite <- Hs4 in Hk3, Ht3, Hst3.
  assert (quiet wd -> quiet w4 /\ r = Ok tt) as Hq4.
  { intros Hq. by destruct (Hr4 (Hq3 (proj1 (Hq2 (Hq1 Hq)))) Hc2). }
  destruct r as [[]|e]; [|apply wp_snap_cleanup; [done|]; intros Hq; by destruct (Hq4 Hq)].
  pose proof (rename_replaced _ _ _ _ _ _ (proj1 Hk3) Ht3 Hst3) as Hrep.
  destruct (rename_survives _ _ _ _ _ _ (proj2 Hk3) Ht3 Hst3) as [Hsur Hwas]. fold c in Hrep, Hsur.
  assert (exists d, d ∈ was (do_rename tmp path (fs w4)) /\ d !! path = dir s0 !! path) as Hold
    by (exists (dir (fs w4)); split; [done|apply Hk3]).
  apply wp_try. unfold wp at 1, os_Rename, next_outcome. rewrite (to_dir _ _ _ _ _ Ht3).
  destruct w4 as [s4 [|[|n|n] os]]; cbn [fs oracle] in *.
  - apply wp_ret. by split.
  - apply wp_ret. by split.
  - apply wp_snap_cleanup; [done|]. intros Hq. by destruct (Hq4 Hq).
  - destruct (n =? 0)%nat; [by left|by right].
Qed.

End Write.

(** The state of the file system in which a snapshot can be written: its directory is sound,
    and no crash would show the temporary file of an earlier attempt as the snapshot. *)
Definition snap_ready (path : string) (s : FS) : Prop := fs_ok s /\ private path (path +:+ ".tmp") s.

(** C16. A snapshot is replaced atomically, and the log is cleared only after the rename.  For
    any [prepare] and [clear], which may fail or crash: if [prepare] fails, nothing is written;
    and otherwise, after any failure and at any crash point before [clear] is called, the name
    of the snapshot leads to the old one, untouched, or to the complete new one, and whichever
    directory a crash brings back (renames reach the medium later, and the program does not
    sync the directory) shows under the name something it could have shown before, unchanged
    on the medium, or the complete new snapshot on the medium.  [clear] is only called once the
    new snapshot is in place; without faults [Create] gets there.  That the directory of the
    rename has reached the medium by then is not guaranteed: the old one can still come back
    ([old_snapshot_can_return]). *)
Theorem create_atomic {W} prepare (clear : list Z -> W -> IO (result unit * W)) w path chunks wd P Cp Q C :
  wp (prepare w) (fun '(r, w1) wd1 => P r w1 wd1 /\ (is_ok r = true -> snap_ready path (fs wd1))) Cp wd ->
  (forall offsets w1 wd1 wd2, P (Ok offsets) w1 wd1 -> in_place path (fs wd1) (mjoin chunks) (fs wd2) ->
     wp (clear offsets w1) Q C wd2) ->
  wp (Create prepare clear w path chunks)
    (fun '(r, w') wd' =>
       Q (r, w') wd' \/
       (exists e, r = Err e /\ P (Err e) w' wd') \/
       (exists offsets wd1, P (Ok offsets) w' wd1 /\ untouched path (fs wd1) (fs wd') /\ r <> Ok tt /\ ~ quiet wd1))
    (fun s => Cp s \/ C s \/
       exists offsets w1 wd1, P (Ok offsets) w1 wd1 /\ snap_state path (fs wd1) (mjoin chunks) s) wd.
Proof.
  intros Hprep Hclear. unfold Create. apply wp_bind. eapply wp_mono; [exact Hprep| |by left].
  intros [r w1] wd1 [HP Hready]. destruct r as [offsets|e]; [|apply wp_ret; right; left; by exists e].
  destruct (Hready eq_refl) as [Hs Hpr]. apply wp_bind.
  eapply wp_mono; [apply (wp_writeSnapshot path (fs wd1)); split; [by apply kept_refl|by apply screened_refl]| |].
  - intros r wd2 Hpost. destruct r as [[]|e]; cbn in Hpost.
    + eapply wp_mono; [eapply Hclear; [exact HP|apply Hpost]| |by right; left]. intros [r' w'] wd' HQ. by left.
    + apply wp_ret. right. right. exists offsets, wd1. by destruct Hpost.
  - intros s Hss. right. right. by exists offsets, w1, wd1.
Qed.

(** When [clear] is called, a crash can still bring back the directory in which the name leads
    to the old snapshot, or to none: the log may be cleared before the snapshot that makes it
    superfluous is sure to stay. *)
Theorem old_snapshot_can_return path chunks wd :
  snap_ready path (fs wd) -> quiet wd ->
  wp (writeSnapshot path chunks)
    (fun r wd' => r = Ok tt /\ exists d, d ∈ was (fs wd') /\ d !! path = dir (fs wd) !! path) (fun _ => True) wd.
Proof.
  intros [Hs Hpr] Hq. eapply wp_mono; [apply (wp_writeSnapshot path (fs wd)); split; [by apply kept_refl|by apply screened_refl]| |done].
  intros [[]|e] wd' Hpost; cbn in Hpost; [by split; [|apply Hpost]|by destruct Hpost].
Qed.

End Snap.
