(* ===== verification/Evict.v ===== *)
(** * Eviction (src/core/evict/eviction.go)

    The sharded least-recently-used service.  Entries live in a heap and are linked by
    pointers, as in the code; all shards take entries from one pool.  A call can finish,
    panic (a nil dereference, or [rand.Int64N] of a number that is not positive), block on a
    full channel, or, for the model's loops, run out of fuel, which is shown not to happen.
    The theorems that the pointers implement a list in recency order are in [EvictTheory]. *)

From S2P Require Import Prelude Kv Iface.

#[local] Open Scope Z_scope.

Module Evict.

Inductive Reason := ReasonTTL | ReasonCapacity.

#[export] Instance Reason_eq_dec : EqDecision Reason.
Proof. solve_decision. Defined.

(** ** Outcomes *)

Inductive outcome (A : Type) :=
| Done (a : A)
| Panics
| Blocks
| OutOfFuel.
#[global] Arguments Done {A} a.
#[global] Arguments Panics {A}.
#[global] Arguments Blocks {A}.
#[global] Arguments OutOfFuel {A}.

Definition andThen {A B} (o : outcome A) (k : A -> outcome B) : outcome B :=
  match o with Done a => k a | Panics => Panics | Blocks => Blocks | OutOfFuel => OutOfFuel end.

Declare Scope evict_scope.
Delimit Scope evict_scope with evict.
Notation "x <~ o ; k" := (andThen o (fun x => k))
  (at level 20, o at level 100, k at level 200, right associativity) : evict_scope.
Notation "' p <~ o ; k" := (andThen o (fun x => match x with p => k end))
  (at level 20, p pattern, o at level 100, k at level 200, right associativity) : evict_scope.
#[local] Open Scope evict_scope.

(** ** State *)

Abbreviation loc := nat.

Record entry := mkEntry {
  e_expiry : Z;
  e_prev : option loc;
  e_next : option loc;
  e_key : string;
  e_hash : Z
}.

Definition zeroEntry : entry := mkEntry 0 None None EmptyString 0.
Definition set_prev (p : option loc) (e : entry) : entry :=
  mkEntry (e_expiry e) p (e_next e) (e_key e) (e_hash e).
Definition set_next (n : option loc) (e : entry) : entry :=
  mkEntry (e_expiry e) (e_prev e) n (e_key e) (e_hash e).
Definition set_expiry (t : Z) (e : entry) : entry :=
  mkEntry t (e_prev e) (e_next e) (e_key e) (e_hash e).
Definition set_key (k : string) (e : entry) : entry :=
  mkEntry (e_expiry e) (e_prev e) (e_next e) k (e_hash e).
Definition set_hash (h : Z) (e : entry) : entry :=
  mkEntry (e_expiry e) (e_prev e) (e_next e) (e_key e) h.

Record lruMsg := mkLruMsg { msg_key : string; msg_hash : Z }.
Record evictMsg := mkEvictMsg { ev_key : string; ev_reason : Reason }.

(** A buffered channel. *)
Record chan (A : Type) := mkChan { queue : list A; room : Z }.
#[global] Arguments mkChan {A}.
#[global] Arguments queue {A}.
#[global] Arguments room {A}.

Definition full {A} (c : chan A) : bool := room c <=? Z.of_nat (length (queue c)).
Definition send {A} (x : A) (c : chan A) : chan A := mkChan (queue c ++ [x]) (room c).

(** [select { case ch <- x: default: }] *)
Definition trySend {A} (x : A) (c : chan A) : chan A := if full c then c else send x c.

(** [onEvict] says whether a callback is set; its calls are an output of [select]. *)
Record lruShard := mkShard {
  head : option loc;
  tail : option loc;
  cache : gmap Z loc;
  ch : chan lruMsg;
  delCh : chan Z;
  evictCh : chan evictMsg;
  onEvict : bool;
  ttl : Z;
  capacity : Z
}.

Definition with_head (h : option loc) (s : lruShard) : lruShard :=
  mkShard h (tail s) (cache s) (ch s) (delCh s) (evictCh s) (onEvict s) (ttl s) (capacity s).
Definition with_tail (t : option loc) (s : lruShard) : lruShard :=
  mkShard (head s) t (cache s) (ch s) (delCh s) (evictCh s) (onEvict s) (ttl s) (capacity s).
Definition with_cache (c : gmap Z loc) (s : lruShard) : lruShard :=
  mkShard (head s) (tail s) c (ch s) (delCh s) (evictCh s) (onEvict s) (ttl s) (capacity s).
Definition with_ch (c : chan lruMsg) (s : lruShard) : lruShard :=
  mkShard (head s) (tail s) (cache s) c (delCh s) (evictCh s) (onEvict s) (ttl s) (capacity s).
Definition with_delCh (c : chan Z) (s : lruShard) : lruShard :=
  mkShard (head s) (tail s) (cache s) (ch s) c (evictCh s) (onEvict s) (ttl s) (capacity s).
Definition with_evictCh (c : chan evictMsg) (s : lruShard) : lruShard :=
  mkShard (head s) (tail s) (cache s) (ch s) (delCh s) c (onEvict s) (ttl s) (capacity s).

(** The heap of entries and the pool of entries given back. *)
Record mem := mkMem { heap : gmap loc entry; pool : list loc }.

Definition deref (m : mem) (x : loc) : outcome entry :=
  match heap m !! x with Some e => Done e | None => Panics end.

Definition write (x : loc) (e : entry) (m : mem) : mem := mkMem (<[x:=e]> (heap m)) (pool m).

(** [p.field = v] *)
Definition update (m : mem) (x : loc) (f : entry -> entry) : outcome mem :=
  e <~ deref m x; Done (write x (f e) m).

(** [pool.Get]: the pool may hand out any of its objects ([choice] is its position), or make
    a new one. *)
Definition poolGet (choice : option nat) (m : mem) : loc * mem :=
  match choice ≫= fun i => (fun x => (i, x)) <$> pool m !! i with
  | Some (i, x) => (x, mkMem (heap m) (base.delete i (pool m)))
  | None => let x := fresh (dom (heap m)) in (x, mkMem (<[x:=zeroEntry]> (heap m)) (pool m))
  end.

Definition poolPut (x : loc) (m : mem) : mem := mkMem (heap m) (x :: pool m).

(** ** The linked list *)

Definition remove (s : lruShard) (m : mem) (x : loc) : outcome (lruShard * mem) :=
  e <~ deref m x;
  '(s, m) <~ match e_prev e with
             | Some p => m <~ update m p (set_next (e_next e)); Done (s, m)
             | None => Done (with_head (e_next e) s, m)
             end;
  e <~ deref m x;
  '(s, m) <~ match e_next e with
             | Some n => m <~ update m n (set_prev (e_prev e)); Done (s, m)
             | None => Done (with_tail (e_prev e) s, m)
             end;
  m <~ update m x (set_prev None);
  m <~ update m x (set_next None);
  Done (s, m).

Definition pushFront (s : lruShard) (m : mem) (x : loc) : outcome (lruShard * mem) :=
  m <~ update m x (set_next (head s));
  m <~ update m x (set_prev None);
  m <~ match head s with
       | Some h => update m h (set_prev (Some x))
       | None => Done m
       end;
  let s := with_head (Some x) s in
  let s := match tail s with None => with_tail (Some x) s | Some _ => s end in
  Done (s, m).

(** The end of the life of an entry: [e.key = ""; pool.Put(e)]. *)
Definition release (m : mem) (x : loc) : outcome mem :=
  m <~ update m x (set_key EmptyString); Done (poolPut x m).

(** ** Operations of a shard *)

Definition evictOldest (s : lruShard) (m : mem) : outcome (lruShard * mem) :=
  match tail s with
  | None => Done (s, m)
  | Some x =>
      '(s, m) <~ remove s m x;
      e <~ deref m x;
      let s := with_cache (base.delete (e_hash e) (cache s)) s in
      if full (evictCh s) then Blocks
      else
        let s := with_evictCh (send (mkEvictMsg (e_key e) ReasonCapacity) (evictCh s)) s in
        m <~ release m x;
        Done (s, m)
  end.

(** The part of [seen] for a key that is not cached yet. *)
Definition insertNew (s : lruShard) (m : mem) (key : string) (hkey expiry : Z) (choice : option nat)
    : outcome (lruShard * mem) :=
  let '(x, m) := poolGet choice m in
  m <~ update m x (set_key key);
  m <~ update m x (set_hash hkey);
  m <~ update m x (set_expiry expiry);
  let s := with_cache (<[hkey := x]> (cache s)) s in
  pushFront s m x.

(** [now] is the reading of the clock and [jitter] the result of [rand.Int64N], which panics
    when its argument is not positive. *)
Definition seen (s : lruShard) (m : mem) (key : string) (hkey now jitter : Z) (choice : option nat)
    : outcome (lruShard * mem) :=
  if ttl s ÷ 10 <=? 0 then Panics
  else
    let expiry := now + i64 (ttl s + jitter) in
    match cache s !! hkey with
    | Some x =>
        m <~ update m x (set_expiry expiry);
        '(s, m) <~ remove s m x;
        pushFront s m x
    | None =>
        '(s, m) <~ (if capacity s <=? u32 (Z.of_nat (size (cache s))) then evictOldest s m
                    else Done (s, m));
        insertNew s m key hkey expiry choice
    end.

Fixpoint expireLoop (fuel : nat) (s : lruShard) (m : mem) (now : Z) : outcome (lruShard * mem) :=
  match fuel with
  | O => OutOfFuel
  | S fuel =>
      match tail s with
      | None => Done (s, m)
      | Some x =>
          e <~ deref m x;
          if now <? e_expiry e then Done (s, m)
          else
            '(s, m) <~ remove s m x;
            let s := with_cache (base.delete (e_hash e) (cache s)) s in
            let s := with_evictCh (trySend (mkEvictMsg (e_key e) ReasonTTL) (evictCh s)) s in
            m <~ release m x;
            expireLoop fuel s m now
      end
  end.

(** Each round removes an entry of the cache, so one more round than entries is enough. *)
Definition evictExpired (s : lruShard) (m : mem) (now : Z) : outcome (lruShard * mem) :=
  expireLoop (S (size (cache s))) s m now.

Definition delete (s : lruShard) (m : mem) (hKey : Z) : outcome (lruShard * mem) :=
  match cache s !! hKey with
  | Some x =>
      '(s, m) <~ remove s m x;
      let s := with_cache (base.delete hKey (cache s)) s in
      m <~ release m x;
      Done (s, m)
  | None => Done (s, m)
  end.

(** ** The goroutine of a shard *)

(** What the [select] of [run] picks: a message of [ch], of [delCh], of [evictCh], or a tick. *)
Inductive event :=
| EvSeen (now jitter : Z) (choice : option nat)
| EvDelete
| EvEvict
| EvTick (now : Z).

(** One round of [run]: [None] when the case is not ready, else the outcome with the message
    the callback was called with. *)
Definition select (s : lruShard) (m : mem) (ev : event)
    : option (outcome (lruShard * mem * option evictMsg)) :=
  match ev with
  | EvSeen now jitter choice =>
      match queue (ch s) with
      | [] => None
      | msg :: rest =>
          let s := with_ch (mkChan rest (room (ch s))) s in
          Some ('(s, m) <~ seen s m (msg_key msg) (msg_hash msg) now jitter choice; Done (s, m, None))
      end
  | EvDelete =>
      match queue (delCh s) with
      | [] => None
      | hKey :: rest =>
          let s := with_delCh (mkChan rest (room (delCh s))) s in
          Some ('(s, m) <~ delete s m hKey; Done (s, m, None))
      end
  | EvEvict =>
      match queue (evictCh s) with
      | [] => None
      | msg :: rest =>
          let s := with_evictCh (mkChan rest (room (evictCh s))) s in
          Some (Done (s, m, if onEvict s then Some msg else None))
      end
  | EvTick now =>
      if 0 <? ttl s then Some ('(s, m) <~ evictExpired s m now; Done (s, m, None)) else None
  end.

(** ** The service *)

Record LeastRecentlyUsed := mkLRU { shards : list lruShard; memory : mem }.

Definition count (lru : LeastRecentlyUsed) : Z := Z.of_nat (length (shards lru)).

Definition newShard (shardCap ttl : Z) : lruShard :=
  mkShard None None ∅ (mkChan [] (Z.max (shardCap / 2) 8192)) (mkChan [] (Z.max (shardCap / 2) 8192))
    (mkChan [] (Z.max (shardCap / 4) 4096)) false ttl shardCap.

Record LRUConfig := mkLRUConfig { Capacity : Z; TTL : Z; LruShardCount : Z }.

(** [None] is the panic. *)
Definition NewLRU (config : LRUConfig) : option LeastRecentlyUsed :=
  if Capacity config =? 0 then None
  else if LruShardCount config <=? 0 then None
  else
    let shardCount := if Capacity config <? LruShardCount config then Capacity config
                      else LruShardCount config in
    let shardCap := Capacity config / u32 shardCount in
    Some (mkLRU (replicate (Z.to_nat shardCount) (newShard shardCap (TTL config))) (mkMem ∅ [])).

Definition shardIndex (lru : LeastRecentlyUsed) (hash : Z) : nat := Z.to_nat (hash mod u64 (count lru)).

Definition getShardByHash (lru : LeastRecentlyUsed) (hash : Z) : outcome lruShard :=
  match shards lru !! shardIndex lru hash with Some s => Done s | None => Panics end.

Definition putShard (lru : LeastRecentlyUsed) (hash : Z) (s : lruShard) (m : mem) : LeastRecentlyUsed :=
  mkLRU (<[shardIndex lru hash := s]> (shards lru)) m.

Definition sampleMask (qLen qCap : Z) : Z :=
  if qLen * 100 <? qCap then 0
  else if qLen * 20 <? qCap then 1
  else if qLen * 10 <? qCap then 3
  else if qLen * 5 <? qCap then 7
  else if qLen * 10 <? qCap * 3 then 15
  else if qLen * 5 <? qCap * 2 then 31
  else if qLen * 2 <? qCap then 63
  else if qLen * 5 <? qCap * 3 then 127
  else if qLen * 10 <? qCap * 7 then 255
  else 511.

(** [r] is the result of [rand.Uint32]. *)
Definition shouldSample (qLen qCap r : Z) : bool :=
  if qCap * 4 <=? qLen * 5 then false
  else
    let mask := sampleMask qLen qCap in
    (mask =? 0) || (Z.land r mask =? 0).

(** [r1] and [r2] are the results of the two calls of [rand.Uint32]. *)
Definition Publish (lru : LeastRecentlyUsed) (key : string) (hash r1 r2 : Z) : outcome LeastRecentlyUsed :=
  if negb (Z.land r1 1 =? 0) then Done lru
  else
    shard <~ getShardByHash lru hash;
    if negb (shouldSample (Z.of_nat (length (queue (ch shard)))) (room (ch shard)) r2) then Done lru
    else Done (putShard lru hash (with_ch (trySend (mkLruMsg key hash) (ch shard)) shard) (memory lru)).

Definition PublishDelete (lru : LeastRecentlyUsed) (hash : Z) : outcome LeastRecentlyUsed :=
  shard <~ getShardByHash lru hash;
  Done (putShard lru hash (with_delCh (trySend hash (delCh shard)) shard) (memory lru)).

Definition lruSeen (lru : LeastRecentlyUsed) (key : string) (hash now jitter : Z) (choice : option nat)
    : outcome LeastRecentlyUsed :=
  shard <~ getShardByHash lru hash;
  '(shard, m) <~ seen shard (memory lru) key hash now jitter choice;
  Done (putShard lru hash shard m).

Definition setCallback (s : lruShard) : lruShard :=
  mkShard (head s) (tail s) (cache s) (ch s) (delCh s) (evictCh s) true (ttl s) (capacity s).

Definition SetEvictCallback (lru : LeastRecentlyUsed) : LeastRecentlyUsed :=
  mkLRU (setCallback <$> shards lru) (memory lru).

Definition GetShardTTL (lru : LeastRecentlyUsed) (idx : nat) : outcome Z :=
  match shards lru !! idx with Some s => Done (ttl s) | None => Panics end.

Definition GetShardCapacity (lru : LeastRecentlyUsed) (idx : nat) : outcome Z :=
  match shards lru !! idx with Some s => Done (capacity s) | None => Panics end.

(** The two sums whose quotient, or 0 when the second is 0, [Occupancy] returns. *)
Definition Occupancy (lru : LeastRecentlyUsed) : Z * Z :=
  foldl (fun '(totalSize, totalCap) s =>
           (u32 (totalSize + u32 (Z.of_nat (size (cache s)))), u32 (totalCap + capacity s)))
    (0, 0) (shards lru).

(** The service as the engine's evictor, with the numbers that [rand.Uint32] will return.  No
    shard index is out of range for the hashes the engine passes, so no call panics. *)
Record liveLRU := mkLive { live : LeastRecentlyUsed; draws : nat -> Z; drawn : nat }.

#[export] Instance lru_evictor : Evictor liveLRU := {|
  evt_Publish key hash e :=
    match Publish (live e) key hash (draws e (drawn e)) (draws e (S (drawn e))) with
    | Done lru => mkLive lru (draws e) (S (S (drawn e)))
    | _ => e
    end;
  evt_PublishDelete _ hash e :=
    match PublishDelete (live e) hash with
    | Done lru => mkLive lru (draws e) (drawn e)
    | _ => e
    end
|}.

(** One round of the goroutine of the [i]-th shard. *)
Definition runShard (lru : LeastRecentlyUsed) (i : nat) (ev : event)
    : option (outcome (LeastRecentlyUsed * option evictMsg)) :=
  s ← shards lru !! i;
  o ← select s (memory lru) ev;
  Some ('(s, m, out) <~ o; Done (mkLRU (<[i := s]> (shards lru)) m, out)).

End Evict.
