(* ===== verification/EvictTheory.v ===== *)
(** * The eviction service implements a bounded recency list

    The doubly linked entries of a shard are represented by a list of items, most recently
    seen first ([shard_rep]).  Every operation of a shard finishes and acts on that list as
    the specification says; the other shards, which share the heap and the pool, are not
    touched. *)

From S2P Require Import Prelude Kv Iface Evict.
Import Evict.

#[local] Open Scope Z_scope.
#[local] Open Scope evict_scope.

(** ** Items and linked segments *)

Record item := mkItem { it_key : string; it_hash : Z; it_expiry : Z }.

Abbreviation cells := (list (loc * item)) (only parsing).

Definition first (l : cells) (n : option loc) : option loc :=
  match l with [] => n | c :: _ => Some c.1 end.
Definition final (p : option loc) (l : cells) : option loc :=
  match last l with Some c => Some c.1 | None => p end.

Definition node (it : item) (p n : option loc) : entry :=
  mkEntry (it_expiry it) p n (it_key it) (it_hash it).

(** [l] is linked in [h], entered from [p] and left to [n]. *)
Fixpoint dseg (h : gmap loc entry) (p : option loc) (l : cells) (n : option loc) : Prop :=
  match l with
  | [] => True
  | c :: l' => h !! c.1 = Some (node c.2 p (first l' n)) /\ dseg h (Some c.1) l' n
  end.

Lemma final_snoc p l c : final p (l ++ [c]) = Some c.1.
Proof. unfold final. by rewrite last_snoc. Qed.

Lemma final_cons p c l : final p (c :: l) = final (Some c.1) l.
Proof. unfold final. rewrite last_cons. by destruct (last l). Qed.

Lemma dseg_app h p l1 l2 n :
  dseg h p (l1 ++ l2) n <-> dseg h p l1 (first l2 n) /\ dseg h (final p l1) l2 n.
Proof.
  revert p. induction l1 as [|c l1 IH]; intros p; cbn; [tauto|].
  assert (first (l1 ++ l2) n = first l1 (first l2 n)) as -> by by destruct l1.
  rewrite IH, final_cons. tauto.
Qed.

Lemma dseg_write h x e p l n : x ∉ l.*1 -> dseg h p l n -> dseg (<[x:=e]> h) p l n.
Proof.
  revert p. induction l as [|c l IH]; intros p Hx; cbn; [done|]. rewrite fmap_cons, not_elem_of_cons in Hx.
  intros [Hc Hl]. destruct Hx as [Hx1 Hx2]. rewrite lookup_insert_ne by exact Hx1.
  split; [done|]. by apply IH.
Qed.

(** Frame: a segment depends on the heap only at its own locations. *)
Lemma dseg_frame h h' p l n :
  (forall x, x ∈ l.*1 -> h' !! x = h !! x) -> dseg h p l n -> dseg h' p l n.
Proof.
  revert p. induction l as [|c l IH]; intros p Hx; cbn; [done|]. intros [Hc Hl].
  split; [rewrite Hx; [done|]; left|]. apply IH; [|done]. intros x Hin. apply Hx. by right.
Qed.

(** ** Shards and lists *)

Record shard_rep (m : mem) (s : lruShard) (l : cells) : Prop := {
  sr_seg : dseg (heap m) None l None;
  sr_head : head s = first l None;
  sr_tail : tail s = final None l;
  sr_locs : NoDup l.*1;
  sr_hashes : NoDup (it_hash <$> l.*2);
  sr_cache : cache s = list_to_map ((fun c => (it_hash c.2, c.1)) <$> l)
}.

(** The pointers of [s] without its cache. *)
Definition linked (m : mem) (s : lruShard) (l : cells) : Prop :=
  dseg (heap m) None l None /\ head s = first l None /\ tail s = final None l /\ NoDup l.*1.

(** [m'] differs from [m] only at [xs], and has the same pool. *)
Definition same_but (xs : list loc) (m m' : mem) : Prop :=
  pool m' = pool m /\ forall y, y ∉ xs -> heap m' !! y = heap m !! y.

Definition same_ends (s s' : lruShard) : Prop := s' = with_tail (tail s') (with_head (head s') s).

Lemma update_Done m x e f : heap m !! x = Some e -> update m x f = Done (write x (f e) m).
Proof. intros Hx. unfold update, deref. by rewrite Hx. Qed.

Lemma deref_Done m x e : heap m !! x = Some e -> deref m x = Done e.
Proof. intros Hx. unfold deref. by rewrite Hx. Qed.

(** The segment before a removed cell, when its exit changes. *)
Lemma dseg_exit h p l c n n' :
  NoDup (l ++ [c]).*1 -> dseg h p (l ++ [c]) n ->
  dseg (<[c.1 := node c.2 (final p l) n']> h) p (l ++ [c]) n'.
Proof.
  intros Hnd. rewrite !dseg_app. rewrite fmap_app, NoDup_app in Hnd. destruct Hnd as (_ & Hnd & _).
  intros [H1 H2]. split.
  - apply dseg_write; [|done]. intros Hin. apply (Hnd _ Hin). left.
  - cbn in *. split; [|done]. by rewrite lookup_insert_eq.
Qed.

(** The segment after a removed cell, when its entry changes. *)
Lemma dseg_entry h p p' c l n :
  NoDup (c :: l).*1 -> dseg h p (c :: l) n ->
  dseg (<[c.1 := node c.2 p' (first l n)]> h) p' (c :: l) n.
Proof.
  cbn. rewrite NoDup_cons. intros [Hc _] [_ Hl]. rewrite lookup_insert_eq. split; [done|].
  by apply dseg_write.
Qed.

(** The first half of [remove]: the cell before [x], or the head, now leads to [n]. *)
Lemma unlink_before s m x l1 n :
  dseg (heap m) None l1 (Some x) -> NoDup l1.*1 ->
  exists s' m', match final None l1 with
      | Some p => m <~ update m p (set_next n); Done (s, m)
      | None => Done (with_head n s, m)
      end = Done (s', m') /\
    dseg (heap m') None l1 n /\ same_but l1.*1 m m' /\
    s' = with_head (match l1 with [] => n | _ => head s end) s.
Proof.
  intros Hl Hnd. destruct l1 as [|c l1 _] using rev_ind.
  - exists (with_head n s), m. by split_and!.
  - rewrite final_snoc. pose proof (proj1 (dseg_app _ _ _ _ _) Hl) as [_ [Hc _]]. cbn in Hc.
    rewrite (update_Done _ _ _ _ Hc). eexists _, _. split; [reflexivity|].
    split; [|split; [split|]].
    + exact (dseg_exit _ _ _ _ _ n Hnd Hl).
    + done.
    + intros y Hy. cbn. rewrite lookup_insert_ne; [done|]. intros <-. apply Hy.
      rewrite fmap_app. apply elem_of_app. right. left.
    + destruct s; destruct l1; done.
Qed.

(** The second half: the cell after [x], or the tail, now leads back to [p]. *)
Lemma unlink_after s m x l2 p :
  dseg (heap m) (Some x) l2 None -> NoDup l2.*1 ->
  exists s' m', match first l2 None with
      | Some n => m <~ update m n (set_prev p); Done (s, m)
      | None => Done (with_tail p s, m)
      end = Done (s', m') /\
    dseg (heap m') p l2 None /\ same_but l2.*1 m m' /\
    s' = with_tail (match l2 with [] => p | _ => tail s end) s.
Proof.
  intros Hl Hnd. destruct l2 as [|c l2].
  - exists (with_tail p s), m. by split_and!.
  - cbn [first]. rewrite (update_Done _ _ _ _ (proj1 Hl)). eexists _, _. split; [reflexivity|].
    split; [|split; [split|]].
    + exact (dseg_entry _ _ p _ _ _ Hnd Hl).
    + done.
    + intros y Hy. cbn. rewrite lookup_insert_ne; [done|]. intros <-. apply Hy. left.
    + by destruct s.
Qed.

Lemma final_app p l1 l2 : final p (l1 ++ l2) = final (final p l1) l2.
Proof. unfold final. rewrite last_app. by destruct (last l2). Qed.

Lemma first_app l1 l2 n : first (l1 ++ l2) n = first l1 (first l2 n).
Proof. by destruct l1. Qed.

Lemma NoDup_middle {A} (l1 : list A) x l2 :
  NoDup (l1 ++ x :: l2) ->
  NoDup l1 /\ NoDup l2 /\ x ∉ l1 /\ x ∉ l2 /\ (forall y, y ∈ l1 -> y ∉ l2) /\ NoDup (l1 ++ l2).
Proof.
  rewrite NoDup_app, NoDup_cons. intros (Hn1 & Hd & Hx & Hn2).
  assert (forall y, y ∈ l1 -> y ∉ l2) as Hdis by (intros y Hy Hy2; apply (Hd y Hy); by right).
  split_and!; try done.
  - intros Hx1. apply (Hd x Hx1). left.
  - by apply NoDup_app.
Qed.

(** [remove] takes a cell out of the list and leaves its entry with nil links. *)
Lemma remove_linked s m x it l1 l2 :
  linked m s (l1 ++ (x, it) :: l2) ->
  exists s' m', remove s m x = Done (s', m') /\ linked m' s' (l1 ++ l2) /\
    same_but (l1 ++ (x, it) :: l2).*1 m m' /\ heap m' !! x = Some (node it None None) /\ same_ends s s'.
Proof.
  intros (Hseg & Hh & Ht & Hnd).
  pose proof (proj1 (dseg_app _ _ _ _ _) Hseg) as [H1 [Hx H2]]. cbn [first fst snd] in *.
  rewrite fmap_app, fmap_cons in *. cbn [fst] in *.
  destruct (NoDup_middle _ _ _ Hnd) as (Hn1 & Hn2 & Hx1 & Hx2 & Hdis & Hn).
  destruct (unlink_before s m x l1 (first l2 None) H1 Hn1) as (s1 & m1 & Hs1 & Hd1 & [Hp1 Hm1] & Es1).
  assert (heap m1 !! x = Some (node it (final None l1) (first l2 None))) as Hx' by (by rewrite Hm1).
  assert (dseg (heap m1) (Some x) l2 None) as H2'.
  { eapply dseg_frame; [|exact H2]. intros y Hy. apply Hm1. intros Hy1. by apply (Hdis y). }
  destruct (unlink_after s1 m1 x l2 (final None l1) H2' Hn2) as (s2 & m2 & Hs2 & Hd2 & [Hp2 Hm2] & Es2).
  assert (heap m2 !! x = Some (node it (final None l1) (first l2 None))) as Hx'' by (by rewrite Hm2).
  unfold remove. rewrite (deref_Done _ _ _ Hx). cbn [andThen e_prev e_next node].
  rewrite Hs1. cbn [andThen]. rewrite (deref_Done _ _ _ Hx'). cbn [andThen e_prev e_next node].
  rewrite Hs2. cbn [andThen]. rewrite (update_Done _ _ _ _ Hx''). cbn [andThen].
  erewrite update_Done by (apply lookup_insert_eq). cbn [andThen].
  eexists _, _. split; [reflexivity|]. split; [|split; [split|split]].
  - split_and!; [..|by rewrite fmap_app].
    + cbn [heap write]. apply dseg_app. split.
      * do 2 (apply dseg_write; [done|]). eapply dseg_frame; [|exact Hd1].
        intros y Hy. apply Hm2. by apply Hdis.
      * by do 2 (apply dseg_write; [done|]).
    + rewrite Es2, Es1, first_app. cbn. rewrite Hh, first_app. by destruct l1.
    + rewrite Es2, Es1, final_app. cbn. rewrite Ht, final_app. destruct l2; [done|]. by rewrite !final_cons.
  - cbn. by rewrite Hp2.
  - intros y. rewrite not_elem_of_app, not_elem_of_cons. intros (Hy1 & Hyx & Hy2). cbn.
    rewrite !lookup_insert_ne by done. by rewrite Hm2, Hm1.
  - cbn. rewrite lookup_insert_eq. done.
  - unfold same_ends. by rewrite Es2, Es1.
Qed.

(** [pushFront] of an entry outside the list. *)
Lemma pushFront_linked s m x e l :
  linked m s l -> x ∉ l.*1 -> heap m !! x = Some e ->
  let it := mkItem (e_key e) (e_hash e) (e_expiry e) in
  exists s' m', pushFront s m x = Done (s', m') /\ linked m' s' ((x, it) :: l) /\
    same_but (x :: l.*1) m m' /\ same_ends s s'.
Proof.
  intros (Hseg & Hh & Ht & Hnd) Hx He it. unfold pushFront.
  rewrite (update_Done _ _ _ _ He). cbn [andThen].
  erewrite update_Done by apply lookup_insert_eq. cbn [andThen].
  set (m1 := write x _ (write x _ m)).
  assert (heap m1 !! x = Some (node it None (first l None))) as H1.
  { unfold m1. cbn [heap]. cbn. rewrite lookup_insert_eq. by rewrite Hh. }
  assert (dseg (heap m1) None l None) as Hd1 by (by do 2 (apply dseg_write; [done|])).
  assert (same_but [x] m m1) as [Hp1 Hm1].
  { split; [done|]. intros y Hy. unfold m1. cbn [heap write].
    rewrite !lookup_insert_ne; [done|intros ->; apply Hy; left..]. }
  destruct l as [|c l]; cbn [first] in Hh; rewrite Hh; cbn [andThen].
  - eexists _, _. split; [reflexivity|]. cbn [tail with_head]. rewrite Ht. cbn [final last].
    split; [|split]; [split_and!; try done; by apply NoDup_singleton| |done].
    split; [done|]. intros y Hy. apply Hm1. done.
  - rewrite (update_Done _ _ _ _ (proj1 Hd1)). cbn [andThen].
    eexists _, _. split; [reflexivity|].
    rewrite fmap_cons, not_elem_of_cons in Hx. destruct Hx as [Hxc Hxl].
    assert (exists t, tail s = Some t) as [t Et].
    { rewrite Ht, final_cons. unfold final. destruct (last l); by eexists. }
    cbn [tail with_head]. rewrite Et. split; [|split].
    + split_and!.
      * cbn [dseg fst snd first heap write]. rewrite lookup_insert_ne by done. split; [exact H1|].
        exact (dseg_entry _ _ (Some x) _ _ _ Hnd Hd1).
      * done.
      * cbn [tail with_head]. by rewrite Ht, !final_cons.
      * cbn. apply NoDup_cons. split; [|done]. apply not_elem_of_cons. done.
    + split; [done|]. intros y. rewrite !fmap_cons, !not_elem_of_cons. intros (Hyx & Hyc & _).
      cbn [heap write]. rewrite lookup_insert_ne by done. apply Hm1.
      by rewrite list_elem_of_singleton.
    + unfold same_ends. destruct s. cbn in *. by rewrite Et.
Qed.

(** ** The cache *)

Definition cacheOf (l : cells) : gmap Z loc := list_to_map ((fun c => (it_hash c.2, c.1)) <$> l).
Definition hashes (l : cells) : list Z := it_hash <$> l.*2.

Lemma cache_keys l : ((fun c : loc * item => (it_hash c.2, c.1)) <$> l).*1 = hashes l.
Proof. unfold hashes. by rewrite <- !list_fmap_compose. Qed.

Lemma cache_perm l l' : l ≡ₚ l' -> NoDup (hashes l) -> cacheOf l = cacheOf l'.
Proof. intros Hp Hnd. apply list_to_map_proper; [by rewrite cache_keys|by rewrite Hp]. Qed.

Lemma cache_size l : NoDup (hashes l) -> size (cacheOf l) = length l.
Proof.
  intros Hnd. unfold cacheOf. rewrite map_size_list_to_map by by rewrite cache_keys.
  apply length_fmap.
Qed.

Lemma cache_lookup_None l h : cacheOf l !! h = None <-> h ∉ hashes l.
Proof.
  unfold cacheOf. rewrite <- cache_keys. split; [apply not_elem_of_list_to_map_2|apply not_elem_of_list_to_map_1].
Qed.

Lemma cache_lookup_Some l h x :
  cacheOf l !! h = Some x -> exists l1 it l2, l = l1 ++ (x, it) :: l2 /\ it_hash it = h.
Proof.
  intros Hx%elem_of_list_to_map_2. apply list_elem_of_fmap in Hx as ([y it] & Heq & Hin).
  cbn in Heq. injection Heq as -> ->. apply list_elem_of_split in Hin as (l1 & l2 & ->). eauto.
Qed.

Lemma cache_delete l1 x it l2 :
  NoDup (hashes (l1 ++ (x, it) :: l2)) ->
  base.delete (it_hash it) (cacheOf (l1 ++ (x, it) :: l2)) = cacheOf (l1 ++ l2) /\
  NoDup (hashes (l1 ++ l2)) /\ it_hash it ∉ hashes (l1 ++ l2).
Proof.
  intros Hnd. rewrite (cache_perm _ ((x, it) :: l1 ++ l2)); [|by rewrite Permutation_middle|done].
  assert (hashes (l1 ++ (x, it) :: l2) ≡ₚ it_hash it :: hashes (l1 ++ l2)) as Hp.
  { unfold hashes. rewrite <- !list_fmap_compose, !fmap_app, fmap_cons. by rewrite Permutation_middle. }
  rewrite Hp, NoDup_cons in Hnd. destruct Hnd as [Hn Hnd]. split; [|done].
  unfold cacheOf at 1. cbn [fmap list_fmap list_to_map foldr fst snd].
  rewrite delete_insert_id; [done|]. by apply cache_lookup_None.
Qed.

(** ** One shard and the shared memory *)

Record local_rep (m : mem) (s : lruShard) (l : cells) : Prop := {
  lr_linked : linked m s l;
  lr_cache : cache s = cacheOf l;
  lr_hashes : NoDup (hashes l);
  lr_owned : NoDup (l.*1 ++ pool m);
  lr_pool : forall y, y ∈ pool m -> is_Some (heap m !! y)
}.

(** What the owners of other entries may assume of a step of a shard that owns [l]. *)
Record framed (m : mem) (l : cells) (m' : mem) (l' : cells) : Prop := {
  fr_heap : forall y e, y ∉ l.*1 ++ pool m -> heap m !! y = Some e -> heap m' !! y = Some e;
  fr_owned : forall y, y ∈ l'.*1 ++ pool m' -> y ∈ l.*1 ++ pool m \/ heap m !! y = None
}.

Lemma framed_refl m l : framed m l m l.
Proof. constructor; auto. Qed.

Lemma framed_trans m l m1 l1 m2 l2 : framed m l m1 l1 -> framed m1 l1 m2 l2 -> framed m l m2 l2.
Proof.
  intros [H1 O1] [H2 O2]. constructor.
  - intros y e Hy He. apply H2; [|by apply H1]. intros [Hin|Hn]%O1; [done|]. by rewrite Hn in He.
  - intros y [Hy|Hn]%O2; [by apply O1|]. destruct (decide (y ∈ l.*1 ++ pool m)) as [|Hy]; [by left|].
    right. destruct (heap m !! y) as [e|] eqn:He; [|done]. by rewrite (H1 y e Hy He) in Hn.
Qed.

(** The parts of a shard that its list operations leave alone. *)
Definition settings (s : lruShard) := (ch s, delCh s, onEvict s, ttl s, capacity s).

Lemma same_ends_fields s s' :
  same_ends s s' -> settings s' = settings s /\ cache s' = cache s /\ evictCh s' = evictCh s.
Proof. unfold same_ends. intros ->. by destruct s. Qed.

Lemma linked_with_cache m s l c : linked m s l -> linked m (with_cache c s) l.
Proof. done. Qed.

(** [remove], forgetting the key, and [release]: the cell moves to the pool. *)
Lemma drop_cell s m x it l1 l2 :
  local_rep m s (l1 ++ (x, it) :: l2) ->
  exists s1 m1 m2, remove s m x = Done (s1, m1) /\ deref m1 x = Done (node it None None) /\
    release m1 x = Done m2 /\ same_ends s s1 /\
    local_rep m2 (with_cache (base.delete (it_hash it) (cache s1)) s1) (l1 ++ l2) /\
    framed m (l1 ++ (x, it) :: l2) m2 (l1 ++ l2).
Proof.
  intros [Hl Hc Hh Ho Hp].
  destruct (remove_linked s m x it l1 l2 Hl) as (s1 & m1 & Hrun & Hl1 & [Hp1 Hm1] & Hx1 & Hs1).
  destruct (same_ends_fields _ _ Hs1) as (_ & Ec & _).
  destruct (cache_delete l1 x it l2 Hh) as (Hdel & Hh' & _).
  exists s1, m1, (poolPut x (write x (set_key EmptyString (node it None None)) m1)).
  split; [done|]. split; [by apply deref_Done|].
  split; [unfold release; by rewrite (update_Done _ _ _ _ Hx1)|]. split; [done|].
  assert ((l1 ++ (x, it) :: l2).*1 ≡ₚ x :: (l1 ++ l2).*1) as Hperm.
  { rewrite fmap_app, fmap_cons, fmap_app. cbn [fst]. by rewrite Permutation_middle. }
  assert (x ∉ (l1 ++ l2).*1) as Hx.
  { destruct Hl as (_ & _ & _ & Hn). rewrite Hperm, NoDup_cons in Hn. by destruct Hn. }
  split; constructor.
  - apply linked_with_cache. destruct Hl1 as (Hd & ? & ? & ?). split_and!; try done.
    cbn [heap poolPut write]. by apply dseg_write.
  - cbn [cache with_cache]. by rewrite Ec, Hc, Hdel.
  - done.
  - cbn [pool poolPut write]. rewrite Hp1, <- Permutation_middle. rewrite Hperm in Ho. exact Ho.
  - cbn [pool heap poolPut write]. intros y [->|Hy]%elem_of_cons; [by rewrite lookup_insert_eq|].
    destruct (decide (y = x)) as [->|Hne]; [by rewrite lookup_insert_eq|].
    rewrite lookup_insert_ne by done. rewrite Hp1 in Hy. rewrite Hm1; [by apply Hp|].
    apply NoDup_app in Ho as (_ & Ho & _). intros Hin. by apply (Ho y).
  - intros y e Hy He. rewrite not_elem_of_app in Hy. destruct Hy as [Hy1 _].
    cbn [heap poolPut write]. rewrite lookup_insert_ne; [by rewrite Hm1|].
    intros <-. apply Hy1. rewrite Hperm. left.
  - intros y. cbn [pool poolPut write]. rewrite Hp1, Hperm, <- Permutation_middle. by left.
Qed.

Lemma poolGet_ok choice m x m1 xs :
  poolGet choice m = (x, m1) -> NoDup (xs ++ pool m) -> (forall y, y ∈ pool m -> is_Some (heap m !! y)) ->
  (forall y, y ∈ xs -> is_Some (heap m !! y)) ->
  NoDup (x :: xs ++ pool m1) /\ is_Some (heap m1 !! x) /\ (forall y, y ∈ pool m1 -> y ∈ pool m) /\
  (forall y e, heap m !! y = Some e -> heap m1 !! y = Some e) /\
  (x ∈ pool m \/ heap m !! x = None).
Proof.
  unfold poolGet. intros Hget Ho Hp Hxs.
  destruct (choice ≫= _) as [[i z]|] eqn:Ei; injection Hget as <- <-; cbn [pool heap].
  - apply bind_Some in Ei as (j & -> & Hj). destruct (pool m !! j) as [y|] eqn:Hy; [|done].
    cbn in Hj. injection Hj as -> ->. pose proof (list_elem_of_lookup_2 _ _ _ Hy) as Hin.
    pose proof (delete_Permutation _ _ _ Hy) as Hperm.
    split_and!; [|by apply Hp| |done|by left].
    + by rewrite Permutation_middle, <- Hperm.
    + intros y Hy'. rewrite Hperm. by right.
  - set (x := fresh _).
    assert (heap m !! x = None) as Hx by (apply not_elem_of_dom; apply is_fresh).
    split_and!; [|by rewrite lookup_insert_eq|done| |by right].
    + apply NoDup_cons. split; [|done]. rewrite elem_of_app. intros [Hin|Hin].
      * destruct (Hxs _ Hin) as [e He]. by rewrite Hx in He.
      * destruct (Hp _ Hin) as [e He]. by rewrite Hx in He.
    + intros y e He. rewrite lookup_insert_ne; [done|]. intros <-. by rewrite Hx in He.
Qed.

Lemma dseg_in_heap h p l n y : dseg h p l n -> y ∈ l.*1 -> is_Some (h !! y).
Proof.
  revert p. induction l as [|c l IH]; intros p; cbn; [by intros _ ?%elem_of_nil|].
  intros [Hc Hl] [->|Hy]%elem_of_cons; [by eexists|by eapply IH].
Qed.

(** Linking a new entry in front. *)
Lemma insertNew_local s m l key hkey expiry choice :
  local_rep m s l -> hkey ∉ hashes l ->
  exists s' m' x, insertNew s m key hkey expiry choice = Done (s', m') /\
    local_rep m' s' ((x, mkItem key hkey expiry) :: l) /\ framed m l m' ((x, mkItem key hkey expiry) :: l) /\
    settings s' = settings s /\ evictCh s' = evictCh s.
Proof.
  intros [Hl Hc Hh Ho Hp] Hk. unfold insertNew. destruct (poolGet choice m) as [x m1] eqn:Eg.
  destruct (poolGet_ok _ _ _ _ l.*1 Eg Ho Hp) as (Hnd & [e He] & Hpool & Hext & Hx).
  { intros y Hy. eapply dseg_in_heap; [apply Hl|done]. }
  rewrite (update_Done _ _ _ _ He). cbn [andThen].
  erewrite update_Done by apply lookup_insert_eq. cbn [andThen].
  erewrite update_Done by apply lookup_insert_eq. cbn [andThen]. set (m2 := write x _ _).
  apply NoDup_cons in Hnd as [Hxn Hnd]. rewrite elem_of_app in Hxn.
  assert (forall y, y <> x -> heap m2 !! y = heap m1 !! y) as Hm2.
  { intros y Hy. unfold m2. cbn [heap write]. by rewrite !lookup_insert_ne. }
  assert (linked m2 (with_cache (<[hkey:=x]> (cache s)) s) l) as Hl2.
  { apply linked_with_cache. destruct Hl as (Hd & ? & ? & ?). split_and!; try done.
    eapply dseg_frame; [|exact Hd]. intros y Hy. rewrite Hm2 by (intros ->; tauto).
    destruct (dseg_in_heap _ _ _ _ _ Hd Hy) as [f Hf]. by rewrite Hf, (Hext _ _ Hf). }
  destruct (pushFront_linked _ m2 x (set_expiry expiry (set_hash hkey (set_key key e))) l Hl2)
    as (s' & m' & Hrun & Hl' & [Hp' Hm'] & Hs'); [tauto|apply lookup_insert_eq|].
  cbn [e_key e_hash e_expiry set_key set_hash set_expiry] in Hl'.
  destruct (same_ends_fields _ _ Hs') as (Hset & Hca & Hev). rewrite Hrun.
  exists s', m', x. split; [done|]. split; [|split; [|done]]; constructor.
  - done.
  - rewrite Hca. cbn. by rewrite Hc.
  - unfold hashes. cbn. by apply NoDup_cons.
  - rewrite Hp'. cbn [pool m2 write]. cbn. rewrite NoDup_cons, elem_of_app. done.
  - rewrite Hp'. cbn [pool m2 write]. intros y Hy.
    rewrite Hm'; [|apply not_elem_of_cons; split; [by intros ->; tauto|]].
    + rewrite Hm2 by (intros ->; tauto). destruct (Hp y (Hpool y Hy)) as [f Hf].
      rewrite (Hext _ _ Hf). by eexists.
    + apply NoDup_app in Hnd as (_ & Hnd & _). intros Hin. by apply (Hnd y).
  - intros y f Hy Hf. rewrite not_elem_of_app in Hy. destruct Hy as [Hy1 Hy2].
    assert (y <> x) as Hyx by (intros ->; destruct Hx as [Hx|Hx]; [done|by rewrite Hx in Hf]).
    rewrite Hm', Hm2 by (try rewrite not_elem_of_cons; done). by apply Hext.
  - intros y. rewrite Hp'. cbn [pool m2 write fmap list_fmap fst app]. rewrite elem_of_cons, !elem_of_app.
    intros [->|[Hy|Hy]]; [destruct Hx; auto|auto|]. left. right. by apply Hpool.
Qed.

(** [evictOldest] drops the last cell and queues its key, if the queue has room. *)
Lemma evictOldest_local s m l x it :
  local_rep m s (l ++ [(x, it)]) -> full (evictCh s) = false ->
  exists s' m', evictOldest s m = Done (s', m') /\ local_rep m' s' l /\
    framed m (l ++ [(x, it)]) m' l /\ settings s' = settings s /\
    evictCh s' = send (mkEvictMsg (it_key it) ReasonCapacity) (evictCh s).
Proof.
  intros Hl Hfull. unfold evictOldest.
  destruct (lr_linked _ _ _ Hl) as (_ & _ & -> & _). rewrite final_snoc. cbn [fst].
  destruct (drop_cell _ _ _ _ _ _ Hl) as (s1 & m1 & m2 & -> & Hx & Hrel & Hs & Hl2 & Hfr).
  rewrite app_nil_r in *. destruct (same_ends_fields _ _ Hs) as (Hset & _ & Hev).
  cbn [andThen]. rewrite Hx. cbn [andThen evictCh with_cache]. rewrite Hev, Hfull, Hrel. cbn [andThen].
  eexists _, _. split; [reflexivity|]. split; [by destruct Hl2; constructor|]. split; [done|].
  split; [|done]. unfold settings in *. cbn. congruence.
Qed.

(** ** The specification: a list in recency order *)

Definition with_expiry (t : Z) (it : item) : item := mkItem (it_key it) (it_hash it) t.

(** The item with hash [h], taken out of the list. *)
Fixpoint extract (h : Z) (l : list item) : option (item * list item) :=
  match l with
  | [] => None
  | it :: l' =>
      if decide (it_hash it = h) then Some (it, l')
      else match extract h l' with Some (x, l'') => Some (x, it :: l'') | None => None end
  end.

(** A key that is cached moves to the front with a new expiry; a new one enters at the front,
    and the last item leaves when the cache was full. *)
Definition spec_seen (cap : nat) (it : item) (l : list item) : list item * list evictMsg :=
  match extract (it_hash it) l with
  | Some (old, l') => (with_expiry (it_expiry it) old :: l', [])
  | None =>
      if (cap <=? length l)%nat then
        (it :: removelast l,
         match last l with Some o => [mkEvictMsg (it_key o) ReasonCapacity] | None => [] end)
      else (it :: l, [])
  end.

Definition spec_delete (h : Z) (l : list item) : list item :=
  match extract h l with Some (_, l') => l' | None => l end.

(** The expired items at the end of the list, last one first, and what remains. *)
Fixpoint expired (now : Z) (rl : list item) : list item * list item :=
  match rl with
  | [] => ([], [])
  | it :: rl' =>
      if now <? it_expiry it then ([], rl)
      else let '(out, rest) := expired now rl' in (it :: out, rest)
  end.

Definition spec_expire (now : Z) (l : list item) : list item * list evictMsg :=
  let '(out, rest) := expired now (reverse l) in
  (reverse rest, (fun it => mkEvictMsg (it_key it) ReasonTTL) <$> out).

Lemma extract_None h l : extract h l = None <-> h ∉ it_hash <$> l.
Proof.
  induction l as [|it l IH]; cbn; [split; [intros _ ?%elem_of_nil; done|done]|].
  rewrite not_elem_of_cons. destruct (decide _) as [E|E]; [split; [done|intros []; congruence]|].
  destruct (extract h l) as [[??]|]; split; try done.
  - intros [_ Hn]. by apply IH in Hn.
  - intros _. split; [congruence|by apply IH].
Qed.

Lemma extract_middle l1 it l2 :
  it_hash it ∉ it_hash <$> l1 -> extract (it_hash it) (l1 ++ it :: l2) = Some (it, l1 ++ l2).
Proof.
  induction l1 as [|y l1 IH]; cbn; [by rewrite decide_True|].
  rewrite not_elem_of_cons. intros [Hne Hn]. by rewrite decide_False, IH by congruence.
Qed.

Lemma extract_cells l1 x it l2 :
  NoDup (hashes (l1 ++ (x, it) :: l2)) ->
  extract (it_hash it) (l1 ++ (x, it) :: l2).*2 = Some (it, (l1 ++ l2).*2).
Proof.
  intros Hnd. rewrite !fmap_app, fmap_cons. apply extract_middle.
  unfold hashes in Hnd. rewrite !fmap_app, fmap_cons, NoDup_app in Hnd. destruct Hnd as (_ & Hd & _).
  intros Hin. apply (Hd _ Hin). left.
Qed.

Lemma delete_local s m l h :
  local_rep m s l ->
  exists s' m' l', delete s m h = Done (s', m') /\ local_rep m' s' l' /\ framed m l m' l' /\
    l'.*2 = spec_delete h l.*2 /\ settings s' = settings s /\ evictCh s' = evictCh s.
Proof.
  intros Hl. unfold delete, spec_delete. rewrite (lr_cache _ _ _ Hl).
  destruct (cacheOf l !! h) as [x|] eqn:Hc.
  - apply cache_lookup_Some in Hc as (l1 & it & l2 & -> & <-).
    destruct (drop_cell _ _ _ _ _ _ Hl) as (s1 & m1 & m2 & -> & Hx & Hrel & Hs & Hl2 & Hfr).
    destruct (same_ends_fields _ _ Hs) as (Hset & _ & Hev). cbn [andThen]. rewrite Hrel. cbn [andThen].
    rewrite (extract_cells _ _ _ _ (lr_hashes _ _ _ Hl)). eexists _, _, _. by split_and!.
  - apply cache_lookup_None, extract_None in Hc. rewrite Hc.
    exists s, m, l. split_and!; try done. apply framed_refl.
Qed.

(** The new expiry of an entry in place. *)
Lemma expiry_linked s m x it l1 l2 t :
  linked m s (l1 ++ (x, it) :: l2) ->
  exists m', update m x (set_expiry t) = Done m' /\
    linked m' s (l1 ++ (x, with_expiry t it) :: l2) /\ same_but [x] m m'.
Proof.
  intros (Hseg & Hh & Ht & Hnd). rewrite fmap_app, fmap_cons in Hnd. cbn [fst] in Hnd.
  destruct (NoDup_middle _ _ _ Hnd) as (_ & _ & Hx1 & Hx2 & _).
  apply dseg_app in Hseg as [H1 [Hx H2]]. cbn [fst snd first] in *.
  rewrite (update_Done _ _ _ _ Hx). eexists. split; [reflexivity|]. split; [split_and!|].
  - cbn [heap write]. apply dseg_app. split; [by apply dseg_write|].
    split; [by rewrite lookup_insert_eq|by apply dseg_write].
  - rewrite Hh, !first_app. done.
  - rewrite Ht, !final_app, !final_cons. done.
  - by rewrite fmap_app, fmap_cons.
  - split; [done|]. intros y Hy. cbn [heap write]. rewrite lookup_insert_ne; [done|].
    intros ->. apply Hy. left.
Qed.

(** A hit: the cell moves to the front. *)
Lemma touch_local s m x it l1 l2 t :
  local_rep m s (l1 ++ (x, it) :: l2) ->
  exists s' m', (m <~ update m x (set_expiry t); '(s, m) <~ remove s m x; pushFront s m x) = Done (s', m') /\
    local_rep m' s' ((x, with_expiry t it) :: l1 ++ l2) /\
    framed m (l1 ++ (x, it) :: l2) m' ((x, with_expiry t it) :: l1 ++ l2) /\
    settings s' = settings s /\ evictCh s' = evictCh s.
Proof.
  intros [Hl Hc Hh Ho Hp].
  destruct (expiry_linked s m x it l1 l2 t Hl) as (m1 & -> & Hl1 & [Hp1 Hm1]). cbn [andThen].
  destruct (remove_linked _ _ _ _ _ _ Hl1) as (s2 & m2 & -> & Hl2 & [Hp2 Hm2] & Hx2 & Hs2). cbn [andThen].
  assert ((l1 ++ (x, it) :: l2).*1 ≡ₚ x :: (l1 ++ l2).*1) as Hperm.
  { rewrite fmap_app, fmap_cons, fmap_app. cbn [fst]. by rewrite Permutation_middle. }
  assert (x ∉ (l1 ++ l2).*1) as Hx.
  { destruct Hl as (_ & _ & _ & Hn). rewrite Hperm, NoDup_cons in Hn. by destruct Hn. }
  destruct (pushFront_linked _ _ _ _ _ Hl2 Hx Hx2) as (s3 & m3 & -> & Hl3 & [Hp3 Hm3] & Hs3).
  destruct (same_ends_fields _ _ Hs2) as (Hset2 & Hc2 & Hev2).
  destruct (same_ends_fields _ _ Hs3) as (Hset3 & Hc3 & Hev3).
  assert (hashes (l1 ++ (x, it) :: l2) ≡ₚ it_hash it :: hashes (l1 ++ l2)) as Hhp.
  { unfold hashes. rewrite <- !list_fmap_compose, !fmap_app, fmap_cons. by rewrite Permutation_middle. }
  assert (forall y, y ∉ x :: (l1 ++ l2).*1 -> heap m3 !! y = heap m !! y) as Hm.
  { intros y Hy. rewrite Hm3 by done. rewrite Hm2.
    - apply Hm1. apply not_elem_of_cons in Hy as [Hy _]. by rewrite list_elem_of_singleton.
    - rewrite fmap_app in Hy. rewrite fmap_app, fmap_cons. cbn [fst]. by rewrite <- Permutation_middle. }
  eexists _, _. split; [reflexivity|]. split; [|split; [|split; congruence]]; constructor.
  - exact Hl3.
  - rewrite Hc3, Hc2, Hc. rewrite (cache_perm _ ((x, it) :: l1 ++ l2)); [done|by rewrite Permutation_middle|done].
  - unfold hashes in *. cbn. by rewrite <- Hhp.
  - rewrite Hp3, Hp2, Hp1. cbn. by rewrite Hperm in Ho.
  - rewrite Hp3, Hp2, Hp1. intros y Hy. rewrite Hm; [by apply Hp|]. rewrite <- Hperm.
    apply NoDup_app in Ho as (_ & Ho & _). intros Hin. by apply (Ho y).
  - intros y e Hy He. rewrite not_elem_of_app, Hperm in Hy. destruct Hy as [Hy _]. by rewrite Hm.
  - intros y. rewrite Hp3, Hp2, Hp1, Hperm. by left.
Qed.

Definition sendAll (out : list evictMsg) (c : chan evictMsg) : chan evictMsg :=
  foldl (fun c x => trySend x c) c out.

(** A cache within its capacity. *)
Definition bounded (s : lruShard) (n : nat) : Prop :=
  0 < capacity s < 2 ^ 32 /\ Z.of_nat n <= capacity s.

Definition newItem (s : lruShard) (key : string) (h now jitter : Z) : item :=
  mkItem key h (now + i64 (ttl s + jitter)).

Lemma evicts_full s m l :
  local_rep m s l -> bounded s (length l) ->
  (capacity s <=? u32 (Z.of_nat (size (cache s)))) = (Z.to_nat (capacity s) <=? length l)%nat.
Proof.
  intros Hl [Hc Hb]. rewrite (lr_cache _ _ _ Hl), (cache_size _ (lr_hashes _ _ _ Hl)), u32_small by lia.
  apply eq_bool_prop_intro. rewrite !Is_true_true, Z.leb_le, Nat.leb_le. lia.
Qed.

Lemma seen_local s m l key h now jitter choice :
  local_rep m s l -> 10 <= ttl s -> bounded s (length l) ->
  let '(l2, out) := spec_seen (Z.to_nat (capacity s)) (newItem s key h now jitter) l.*2 in
  out = [] \/ full (evictCh s) = false ->
  exists s' m' l', seen s m key h now jitter choice = Done (s', m') /\ local_rep m' s' l' /\
    framed m l m' l' /\ l'.*2 = l2 /\ settings s' = settings s /\ evictCh s' = sendAll out (evictCh s).
Proof.
  intros Hl Httl Hb. unfold seen, spec_seen, newItem. cbn [it_hash it_expiry].
  assert (ttl s ÷ 10 <=? 0 = false) as ->.
  { apply Z.leb_gt. rewrite Z.quot_div_nonneg by lia. pose proof (Z.div_str_pos (ttl s) 10 ltac:(lia)). lia. }
  rewrite (lr_cache _ _ _ Hl). destruct (cacheOf l !! h) as [x|] eqn:Hc.
  - apply cache_lookup_Some in Hc as (l1 & it & l2 & -> & <-).
    rewrite (extract_cells _ _ _ _ (lr_hashes _ _ _ Hl)). intros _.
    destruct (touch_local s m x it l1 l2 (now + i64 (ttl s + jitter)) Hl) as (s' & m' & Hrun & ? & ? & ? & ?).
    eexists _, _, _. by split_and!.
  - apply cache_lookup_None in Hc as Hh. apply extract_None in Hh as ->.
    rewrite <- (lr_cache _ _ _ Hl), (evicts_full _ _ _ Hl Hb), length_fmap.
    destruct (Z.to_nat (capacity s) <=? length l)%nat eqn:Ef.
    + destruct l as [|[x it] l _] using rev_ind; [apply Nat.leb_le in Ef; destruct Hb; cbn in Ef; lia|].
      rewrite fmap_app. cbn [fmap list_fmap snd]. rewrite last_snoc, removelast_last.
      intros [?|Hroom]; [done|].
      destruct (evictOldest_local s m l x it Hl Hroom) as (s1 & m1 & -> & Hl1 & Hf1 & Hs1 & He1). cbn [andThen].
      destruct (insertNew_local s1 m1 l key h (now + i64 (ttl s + jitter)) choice Hl1)
        as (s2 & m2 & y & Hrun & Hl2 & Hf2 & Hs2 & He2).
      { unfold hashes in *. apply cache_lookup_None in Hc. unfold hashes in Hc. rewrite !fmap_app in Hc.
        intros Hin. apply Hc. apply elem_of_app. by left. }
      eexists _, _, _. split; [exact Hrun|]. split; [exact Hl2|]. split; [by eapply framed_trans|].
      split; [done|]. split; [congruence|]. rewrite He2, He1. unfold sendAll, trySend. cbn. by rewrite Hroom.
    + intros _. cbn [andThen].
      destruct (insertNew_local s m l key h (now + i64 (ttl s + jitter)) choice Hl)
        as (s2 & m2 & y & Hrun & Hl2 & Hf2 & Hs2 & He2); [by apply cache_lookup_None|].
      eexists _, _, _. by split_and!.
Qed.

Lemma spec_seen_length cap it l :
  (0 < cap)%nat -> (length l <= cap)%nat -> (length (spec_seen cap it l).1 <= cap)%nat.
Proof.
  intros Hcap Hl. unfold spec_seen. destruct (extract (it_hash it) l) as [[o l']|] eqn:E.
  - assert (length l = S (length l')) as Hlen.
    { revert o l' E. clear. induction l as [|y l IH]; intros o l'; cbn; [done|].
      destruct (decide _); [by intros [= <- <-]|]. destruct (extract _ l) as [[a b]|]; [|done].
      intros [= <- <-]. cbn. by rewrite (IH a b). }
    cbn. lia.
  - destruct (Nat.leb_spec cap (length l)); cbn; [|lia].
    destruct l as [|y l _] using rev_ind; [cbn in *; lia|]. rewrite removelast_last.
    rewrite length_app in *. cbn in *. lia.
Qed.

Lemma expireLoop_local fuel s m l now :
  local_rep m s l -> (length l < fuel)%nat ->
  exists s' m' l', expireLoop fuel s m now = Done (s', m') /\ local_rep m' s' l' /\ framed m l m' l' /\
    l'.*2 = (spec_expire now l.*2).1 /\ settings s' = settings s /\
    evictCh s' = sendAll (spec_expire now l.*2).2 (evictCh s).
Proof.
  revert s m l. induction fuel as [|fuel IH]; intros s m l Hl Hf; [lia|]. cbn [expireLoop].
  destruct (lr_linked _ _ _ Hl) as (Hd & _ & Ht & _). rewrite Ht. unfold spec_expire.
  destruct l as [|[x it] l _] using rev_ind.
  { exists s, m, []. split_and!; try done. apply framed_refl. }
  rewrite final_snoc, fmap_app. cbn [fst fmap list_fmap snd]. rewrite reverse_snoc. cbn [expired].
  apply dseg_app in Hd as [_ [Hx _]]. cbn [fst snd first] in Hx. rewrite (deref_Done _ _ _ Hx).
  cbn [andThen e_expiry node].
  destruct (now <? it_expiry it).
  { exists s, m, (l ++ [(x, it)]). split_and!; try done; [apply framed_refl|].
    cbn [fst]. rewrite <- reverse_snoc, reverse_involutive. by rewrite fmap_app. }
  destruct (drop_cell _ _ _ _ _ _ Hl) as (s1 & m1 & m2 & -> & _ & Hrel & Hs & Hl2 & Hfr).
  rewrite app_nil_r in *. cbn [andThen e_hash e_key node]. rewrite Hrel. cbn [andThen].
  destruct (same_ends_fields _ _ Hs) as (Hset & _ & Hev).
  set (s2 := with_evictCh _ _). assert (local_rep m2 s2 l) as Hl3 by by destruct Hl2; constructor.
  destruct (IH s2 m2 l Hl3) as (s' & m' & l' & Hrun & Hl' & Hf' & Hsp & Hse & Hev').
  { rewrite length_app in Hf. cbn in Hf. lia. }
  exists s', m', l'. unfold spec_expire in Hsp, Hev'. destruct (expired now (reverse l.*2)) as [out rest].
  split_and!; [done|done|by eapply framed_trans|done| |].
  - rewrite Hse. unfold s2, settings in *. cbn. congruence.
  - rewrite Hev'. unfold s2. cbn. by rewrite Hev.
Qed.

Lemma evictExpired_local s m l now :
  local_rep m s l ->
  exists s' m' l', evictExpired s m now = Done (s', m') /\ local_rep m' s' l' /\ framed m l m' l' /\
    l'.*2 = (spec_expire now l.*2).1 /\ settings s' = settings s /\
    evictCh s' = sendAll (spec_expire now l.*2).2 (evictCh s).
Proof.
  intros Hl. apply expireLoop_local; [done|].
  rewrite (lr_cache _ _ _ Hl), (cache_size _ (lr_hashes _ _ _ Hl)). lia.
Qed.

(** ** The abstract service *)

Record ashard := mkA {
  a_items : list item;
  a_ch : chan lruMsg;
  a_delCh : chan Z;
  a_evictCh : chan evictMsg;
  a_onEvict : bool;
  a_ttl : Z;
  a_capacity : Z
}.

Definition abs (s : lruShard) (its : list item) : ashard :=
  mkA its (ch s) (delCh s) (evictCh s) (onEvict s) (ttl s) (capacity s).

Definition a_with (a : ashard) (its : list item) (ev : chan evictMsg) : ashard :=
  mkA its (a_ch a) (a_delCh a) ev (a_onEvict a) (a_ttl a) (a_capacity a).

(** A round of a shard on its list: a lookup that must evict blocks when the queue of
    notifications is full, and a jitter that cannot be drawn panics. *)
Definition a_seen (a : ashard) (msg : lruMsg) (now jitter : Z) : outcome ashard :=
  if a_ttl a ÷ 10 <=? 0 then Panics
  else
    let it := mkItem (msg_key msg) (msg_hash msg) (now + i64 (a_ttl a + jitter)) in
    let '(its, out) := spec_seen (Z.to_nat (a_capacity a)) it (a_items a) in
    match out with
    | [] => Done (a_with a its (a_evictCh a))
    | _ => if full (a_evictCh a) then Blocks else Done (a_with a its (sendAll out (a_evictCh a)))
    end.

Definition a_select (a : ashard) (ev : event) : option (outcome (ashard * option evictMsg)) :=
  match ev with
  | EvSeen now jitter _ =>
      match queue (a_ch a) with
      | [] => None
      | msg :: rest =>
          let a := mkA (a_items a) (mkChan rest (room (a_ch a))) (a_delCh a) (a_evictCh a) (a_onEvict a)
                     (a_ttl a) (a_capacity a) in
          Some (a <~ a_seen a msg now jitter; Done (a, None))
      end
  | EvDelete =>
      match queue (a_delCh a) with
      | [] => None
      | h :: rest =>
          Some (Done (mkA (spec_delete h (a_items a)) (a_ch a) (mkChan rest (room (a_delCh a))) (a_evictCh a)
                        (a_onEvict a) (a_ttl a) (a_capacity a), None))
      end
  | EvEvict =>
      match queue (a_evictCh a) with
      | [] => None
      | msg :: rest =>
          Some (Done (a_with a (a_items a) (mkChan rest (room (a_evictCh a))),
                      if a_onEvict a then Some msg else None))
      end
  | EvTick now =>
      if 0 <? a_ttl a then
        let '(its, out) := spec_expire now (a_items a) in
        Some (Done (a_with a its (sendAll out (a_evictCh a)), None))
      else None
  end.

Lemma abs_settings s s' its ev :
  settings s' = settings s -> evictCh s' = ev -> abs s' its = a_with (abs s its) its ev.
Proof. unfold settings, abs, a_with. intros [= -> -> -> -> ->] ->. done. Qed.

Lemma bounded_settings s s' n n' : settings s' = settings s -> (n' <= n)%nat -> bounded s n -> bounded s' n'.
Proof. unfold bounded, settings. intros [= _ _ _ _ ->] ? []. split; [done|lia]. Qed.

Lemma spec_delete_length h l : (length (spec_delete h l) <= length l)%nat.
Proof.
  unfold spec_delete. induction l as [|it l IH]; cbn; [done|].
  destruct (decide _); [cbn; lia|]. destruct (extract h l) as [[a b]|]; cbn in *; lia.
Qed.

Lemma spec_expire_split now l : exists out, l = (spec_expire now l).1 ++ reverse out /\
  Forall (fun it => it_expiry it <= now) out /\ (spec_expire now l).2 = (fun it => mkEvictMsg (it_key it) ReasonTTL) <$> out /\
  forall it, last (spec_expire now l).1 = Some it -> now < it_expiry it.
Proof.
  unfold spec_expire.
  assert (exists out rest, expired now (reverse l) = (out, rest) /\ reverse l = out ++ rest /\
    Forall (fun it => it_expiry it <= now) out /\ forall it, list.head rest = Some it -> now < it_expiry it)
    as (out & rest & -> & Hl & Hout & Hrest).
  { induction (reverse l) as [|it rl IH]; cbn; [by exists [], []|].
    destruct (Z.ltb_spec now (it_expiry it)); [exists [], (it :: rl); split_and!; try done; by intros ? [= <-]|].
    destruct IH as (out & rest & -> & -> & Ho & Hr). exists (it :: out), rest. split_and!; try done. by constructor. }
  exists out. cbn [fst snd]. split_and!; try done.
  - by rewrite <- reverse_app, <- Hl, reverse_involutive.
  - intros it. rewrite <- head_reverse, reverse_involutive. apply Hrest.
Qed.

Lemma spec_expire_length now l : (length (spec_expire now l).1 <= length l)%nat.
Proof.
  destruct (spec_expire_split now l) as (out & Hl & _).
  rewrite Hl at 2. rewrite length_app. lia.
Qed.

(** [seen] blocks when it must evict and the queue is full. *)
Lemma seen_blocks s m l key h now jitter choice :
  local_rep m s l -> 10 <= ttl s -> bounded s (length l) -> h ∉ hashes l ->
  (Z.to_nat (capacity s) <= length l)%nat -> full (evictCh s) = true ->
  seen s m key h now jitter choice = Blocks.
Proof.
  intros Hl Httl Hb Hh Hcap Hfull. unfold seen.
  assert (ttl s ÷ 10 <=? 0 = false) as ->.
  { apply Z.leb_gt. rewrite Z.quot_div_nonneg by lia. pose proof (Z.div_str_pos (ttl s) 10 ltac:(lia)). lia. }
  rewrite (evicts_full _ _ _ Hl Hb), (proj2 (Nat.leb_le _ _) Hcap), (lr_cache _ _ _ Hl).
  rewrite (proj2 (cache_lookup_None _ _) Hh). unfold evictOldest.
  destruct l as [|[x it] l _] using rev_ind; [destruct Hb; cbn in *; lia|].
  destruct (lr_linked _ _ _ Hl) as (_ & _ & -> & _). rewrite final_snoc. cbn [fst].
  destruct (drop_cell _ _ _ _ _ _ Hl) as (s1 & m1 & m2 & -> & Hx & _ & Hs & _).
  destruct (same_ends_fields _ _ Hs) as (_ & _ & Hev). cbn [andThen]. rewrite Hx.
  cbn [andThen evictCh with_cache]. by rewrite Hev, Hfull.
Qed.

Lemma local_with_ch m s l c : local_rep m s l -> local_rep m (with_ch c s) l.
Proof. intros []. by constructor. Qed.
Lemma local_with_delCh m s l c : local_rep m s l -> local_rep m (with_delCh c s) l.
Proof. intros []. by constructor. Qed.
Lemma local_with_evictCh m s l c : local_rep m s l -> local_rep m (with_evictCh c s) l.
Proof. intros []. by constructor. Qed.

(** The outcome of a computation against the outcome the specification gives. *)
Definition matches {A B} (R : A -> B -> Prop) (o : outcome A) (a : outcome B) : Prop :=
  match a, o with
  | Done b, Done x => R x b
  | Panics, Panics | Blocks, Blocks => True
  | _, _ => False
  end.

(** [s'] and [m'] after a step of a shard that owned [l] represent [a']. *)
Definition stepped (m : mem) (l : cells) (s' : lruShard) (m' : mem) (a' : ashard) : Prop :=
  exists l', local_rep m' s' l' /\ framed m l m' l' /\ abs s' l'.*2 = a' /\ bounded s' (length l').

Lemma seen_matches s m l msg now jitter choice :
  local_rep m s l -> bounded s (length l) ->
  matches (fun x a => stepped m l x.1 x.2 a)
    (seen s m (msg_key msg) (msg_hash msg) now jitter choice) (a_seen (abs s l.*2) msg now jitter).
Proof.
  intros Hl Hb. unfold a_seen. cbn [a_ttl a_capacity a_items a_evictCh abs].
  destruct (Z.leb_spec (ttl s ÷ 10) 0) as [Ht|Ht].
  { unfold seen. by rewrite (proj2 (Z.leb_le _ _) Ht). }
  assert (10 <= ttl s) as Httl.
  { destruct (Z.le_gt_cases 10 (ttl s)); [done|]. destruct (Z.le_gt_cases 0 (ttl s)).
    - rewrite Z.quot_small in Ht by lia. lia.
    - pose proof (Z.quot_le_mono (ttl s) 0 10 ltac:(lia) ltac:(lia)). rewrite Z.quot_0_l in *; lia. }
  pose proof (seen_local s m l (msg_key msg) (msg_hash msg) now jitter choice Hl Httl Hb) as Hok.
  pose proof (spec_seen_length (Z.to_nat (capacity s)) (newItem s (msg_key msg) (msg_hash msg) now jitter) l.*2)
    as Hlen.
  assert (extract (msg_hash msg) l.*2 <> None \/ msg_hash msg ∉ hashes l) as Hcase.
  { destruct (extract (msg_hash msg) l.*2) eqn:Ex; [by left|right]. by apply extract_None in Ex. }
  unfold newItem in *. cbn [it_hash] in *.
  destruct (spec_seen _ _ l.*2) as [its out] eqn:Esp. cbn [fst] in Hlen.
  assert (out = [] \/ full (evictCh s) = false -> matches (fun x a => stepped m l x.1 x.2 a)
    (seen s m (msg_key msg) (msg_hash msg) now jitter choice)
    (Done (a_with (abs s l.*2) its (sendAll out (evictCh s))))) as Hdone.
  { intros Hroom. destruct (Hok Hroom) as (s' & m' & l' & -> & Hl' & Hf & Hi & Hs & He).
    exists l'. split; [done|]. split; [done|]. split; [by rewrite (abs_settings s s' _ _ Hs He), Hi|].
    assert (capacity s' = capacity s) as Hcs by (unfold settings in Hs; congruence).
    destruct Hb as [Hc Hb]. unfold bounded. cbn [fst]. rewrite Hcs, <- (length_fmap snd l'), Hi. split; [done|].
    rewrite length_fmap in Hlen. lia. }
  destruct out as [|o out]; [apply Hdone; by left|].
  destruct (full (evictCh s)) eqn:Hfull; [|apply Hdone; by right].
  unfold spec_seen in Esp. cbn [it_hash] in Esp. destruct Hcase as [Hx|Hx].
  { by destruct (extract (msg_hash msg) l.*2) as [[??]|]. }
  rewrite (proj2 (extract_None _ _) Hx), length_fmap in Esp.
  destruct (Nat.leb_spec (Z.to_nat (capacity s)) (length l)); [|done].
  by rewrite (seen_blocks s m l).
Qed.

(** A round of a shard does what the specification says. *)
Lemma select_matches s m l ev :
  local_rep m s l -> bounded s (length l) ->
  match a_select (abs s l.*2) ev, select s m ev with
  | None, None => True
  | Some a, Some o => matches (fun x a => stepped m l x.1.1 x.1.2 a.1 /\ x.2 = a.2) o a
  | _, _ => False
  end.
Proof.
  intros Hl Hb. destruct ev as [now jitter choice| | |now]; cbn [select a_select abs a_ch a_delCh a_evictCh a_ttl a_items a_onEvict a_capacity].
  - destruct (queue (ch s)) as [|msg rest]; [done|].
    set (s1 := with_ch _ s). assert (local_rep m s1 l) as Hl1 by by apply local_with_ch.
    pose proof (seen_matches s1 m l msg now jitter choice Hl1 Hb) as Hm.
    change (mkA _ _ _ _ _ _ _) with (abs s1 l.*2).
    by destruct (seen s1 m _ _ now jitter choice) as [[s' m']| | |], (a_seen (abs s1 l.*2) msg now jitter).
  - destruct (queue (delCh s)) as [|h rest]; [done|].
    set (s1 := with_delCh _ s). assert (local_rep m s1 l) as Hl1 by by apply local_with_delCh.
    destruct (delete_local s1 m l h Hl1) as (s' & m' & l' & -> & Hl' & Hf & Hi & Hs & He). cbn.
    split; [|done]. exists l'. split; [done|]. split; [done|].
    split; [by rewrite (abs_settings s1 s' _ _ Hs He), Hi|].
    eapply bounded_settings; [exact Hs| |exact Hb].
    rewrite <- (length_fmap snd l'), Hi, <- (length_fmap snd l). apply spec_delete_length.
  - destruct (queue (evictCh s)) as [|msg rest]; [done|]. cbn. split; [|done].
    exists l. split; [by apply local_with_evictCh|]. split; [apply framed_refl|]. done.
  - destruct (0 <? ttl s); [|done].
    destruct (evictExpired_local s m l now Hl) as (s' & m' & l' & -> & Hl' & Hf & Hi & Hs & He).
    pose proof (spec_expire_length now l.*2) as Hlen.
    destruct (spec_expire now l.*2) as [its out]. cbn in *. split; [|done].
    exists l'. split; [done|]. split; [done|].
    split; [by rewrite (abs_settings s s' _ _ Hs He), Hi|].
    eapply bounded_settings; [exact Hs| |exact Hb].
    rewrite <- (length_fmap snd l'), Hi, <- (length_fmap snd l). done.
Qed.

(** ** All shards *)

Lemma lookup_split {A} (l : list A) i x : l !! i = Some x -> exists l1 l2, l = l1 ++ x :: l2 /\ i = length l1.
Proof.
  intros Hx. exists (take i l), (drop (S i) l). split; [by rewrite take_drop_middle|].
  rewrite length_take_le; [done|]. apply lookup_lt_Some in Hx. lia.
Qed.

Lemma Forall2_impl_r {A B} (P Q : A -> B -> Prop) l k :
  Forall2 P l k -> (forall x y, y ∈ k -> P x y -> Q x y) -> Forall2 Q l k.
Proof.
  induction 1 as [|x y l k Hxy _ IH]; intros HPQ; constructor.
  - apply HPQ; [left|done].
  - apply IH. intros x' y' Hy. apply HPQ. by right.
Qed.

Definition shard_ok (m : mem) (s : lruShard) (l : cells) : Prop :=
  linked m s l /\ cache s = cacheOf l /\ NoDup (hashes l) /\ bounded s (length l).

Definition locs (ls : list cells) : list loc := mjoin ((fun l => l.*1) <$> ls).

Record lru_rep (lru : LeastRecentlyUsed) (ls : list cells) : Prop := {
  lu_shards : Forall2 (shard_ok (memory lru)) (shards lru) ls;
  lu_owned : NoDup (locs ls ++ pool (memory lru));
  lu_pool : forall y, y ∈ pool (memory lru) -> is_Some (heap (memory lru) !! y)
}.

Lemma locs_middle ls1 l ls2 : locs (ls1 ++ l :: ls2) ≡ₚ locs (ls1 ++ ls2) ++ l.*1.
Proof.
  unfold locs. rewrite !fmap_app, fmap_cons, !join_app, mjoin_cons.
  rewrite <- (assoc_L (++)). by rewrite (Permutation_app_comm l.*1).
Qed.

Lemma locs_in y ls : y ∈ locs ls -> exists l, l ∈ ls /\ y ∈ l.*1.
Proof.
  unfold locs. induction ls as [|l ls IH]; [by intros ?%elem_of_nil|].
  rewrite fmap_cons, mjoin_cons, elem_of_app. intros [Hy|Hy].
  - exists l. split; [left|done].
  - destruct (IH Hy) as (l' & Hl & Hin). exists l'. split; [by right|done].
Qed.

Lemma lru_local lru ls i s l :
  lru_rep lru ls -> shards lru !! i = Some s -> ls !! i = Some l ->
  local_rep (memory lru) s l /\ bounded s (length l).
Proof.
  intros [Hsh Ho Hp] Hs Hl. destruct (Forall2_lookup_lr _ _ _ _ _ _ Hsh Hs Hl) as (Hlk & Hc & Hh & Hb).
  split; [|done]. constructor; try done.
  apply lookup_split in Hl as (ls1 & ls2 & -> & _).
  rewrite locs_middle, <- (assoc_L (++)) in Ho. by apply NoDup_app in Ho as (_ & _ & Ho).
Qed.

(** A step of one shard preserves the representation of all. *)
Lemma lru_stepped lru ls i s l s' m' a' :
  lru_rep lru ls -> shards lru !! i = Some s -> ls !! i = Some l ->
  stepped (memory lru) l s' m' a' ->
  exists l', lru_rep (mkLRU (<[i := s']> (shards lru)) m') (<[i := l']> ls) /\ abs s' l'.*2 = a'.
Proof.
  intros [Hsh Ho Hp] Hs Hl (l' & Hl' & [Hfh Hfo] & Habs & Hb'). exists l'. split; [|done].
  pose proof (lookup_lt_Some _ _ _ Hl) as Hlt.
  apply lookup_split in Hl as (ls1 & ls2 & -> & ->).
  apply Forall2_app_inv_r in Hsh as (ss1 & ss2' & Hs1 & Hs2' & Hss).
  apply Forall2_cons_inv_r in Hs2' as (s0 & ss2 & _ & Hs2 & ->).
  assert (length ss1 = length ls1) as Hlen by by apply Forall2_length in Hs1.
  rewrite locs_middle, <- (assoc_L (++)) in Ho. apply NoDup_app in Ho as (Hn1 & Hd & Hn2).
  assert (forall y, y ∈ locs (ls1 ++ ls2) -> is_Some (heap (memory lru) !! y)) as Hin.
  { intros y Hy. apply locs_in in Hy as (l0 & Hl0 & Hy).
    assert (exists s0, shard_ok (memory lru) s0 l0) as (s1 & (Hd1 & _) & _).
    { rewrite elem_of_app in Hl0. destruct Hl0 as [Hl0|Hl0]; apply list_elem_of_lookup in Hl0 as [j Hj].
      - destruct (Forall2_lookup_r _ _ _ _ _ Hs1 Hj) as (z & _ & Hz). eauto.
      - destruct (Forall2_lookup_r _ _ _ _ _ Hs2 Hj) as (z & _ & Hz). eauto. }
    by eapply dseg_in_heap. }
  assert (forall s1 l1, l1 ∈ ls1 ++ ls2 -> shard_ok (memory lru) s1 l1 -> shard_ok m' s1 l1) as Hkeep.
  { intros s1 l1 Hl1 ((Hd1 & ? & ? & ?) & ? & ? & ?). split; [split; [|by split_and!]|by split_and!].
    eapply dseg_frame; [|exact Hd1]. intros y Hy.
    destruct (dseg_in_heap _ _ _ _ _ Hd1 Hy) as [e He]. rewrite He. apply Hfh; [|done].
    apply Hd. unfold locs. rewrite list_elem_of_join. exists l1.*1. split; [done|]. by apply list_elem_of_fmap_2. }
  rewrite Hss, insert_app_r_alt by lia. rewrite (insert_app_r_alt ls1) by lia. rewrite Hlen, Nat.sub_diag.
  change (<[0%nat:=s']> (s0 :: ss2)) with (s' :: ss2). change (<[0%nat:=l']> (l :: ls2)) with (l' :: ls2).
  constructor; cbn [shards memory].
  - apply Forall2_app; [|constructor].
    + eapply Forall2_impl_r; [exact Hs1|]. intros x y Hy. apply Hkeep. apply elem_of_app. by left.
    + destruct Hl'. by split_and!.
    + eapply Forall2_impl_r; [exact Hs2|]. intros x y Hy. apply Hkeep. apply elem_of_app. by right.
  - rewrite locs_middle, <- (assoc_L (++)). apply NoDup_app. split; [done|]. split; [|apply Hl'].
    intros y Hy [Hown|Hnone]%Hfo; [by apply (Hd y)|]. destruct (Hin y Hy) as [e He]. by rewrite Hnone in He.
  - apply Hl'.
Qed.

(** ** Calls of the service, and the same calls on lists *)

(** A call of a client, or a round of the goroutine of a shard; a round whose case is not
    ready changes nothing. *)
Inductive lru_call :=
| CallSetEvictCallback
| CallPublish (key : string) (hash r1 r2 : Z)
| CallPublishDelete (hash : Z)
| CallRound (i : nat) (ev : event).

Definition lru_do (lru : LeastRecentlyUsed) (c : lru_call) : outcome (LeastRecentlyUsed * option evictMsg) :=
  match c with
  | CallSetEvictCallback => Done (SetEvictCallback lru, None)
  | CallPublish key hash r1 r2 => lru <~ Publish lru key hash r1 r2; Done (lru, None)
  | CallPublishDelete hash => lru <~ PublishDelete lru hash; Done (lru, None)
  | CallRound i ev => match runShard lru i ev with Some o => o | None => Done (lru, None) end
  end.

(** The final state with the notifications delivered to the callback. *)
Fixpoint lru_run (lru : LeastRecentlyUsed) (cs : list lru_call) : outcome (LeastRecentlyUsed * list evictMsg) :=
  match cs with
  | [] => Done (lru, [])
  | c :: cs' =>
      '(lru, out) <~ lru_do lru c;
      '(lru, outs) <~ lru_run lru cs';
      Done (lru, option_list out ++ outs)
  end.

Definition a_index (al : list ashard) (hash : Z) : nat := Z.to_nat (hash mod u64 (Z.of_nat (length al))).

Definition a_update (al : list ashard) (hash : Z) (f : ashard -> ashard) : outcome (list ashard) :=
  match al !! a_index al hash with
  | Some a => Done (<[a_index al hash := f a]> al)
  | None => Panics
  end.

Definition a_publish (key : string) (hash r : Z) (a : ashard) : ashard :=
  if shouldSample (Z.of_nat (length (queue (a_ch a)))) (room (a_ch a)) r then
    mkA (a_items a) (trySend (mkLruMsg key hash) (a_ch a)) (a_delCh a) (a_evictCh a) (a_onEvict a)
      (a_ttl a) (a_capacity a)
  else a.

Definition a_publishDelete (hash : Z) (a : ashard) : ashard :=
  mkA (a_items a) (a_ch a) (trySend hash (a_delCh a)) (a_evictCh a) (a_onEvict a) (a_ttl a) (a_capacity a).

Definition a_setCallback (a : ashard) : ashard :=
  mkA (a_items a) (a_ch a) (a_delCh a) (a_evictCh a) true (a_ttl a) (a_capacity a).

Definition a_do (al : list ashard) (c : lru_call) : outcome (list ashard * option evictMsg) :=
  match c with
  | CallSetEvictCallback => Done (a_setCallback <$> al, None)
  | CallPublish key hash r1 r2 =>
      if negb (Z.land r1 1 =? 0) then Done (al, None)
      else al <~ a_update al hash (a_publish key hash r2); Done (al, None)
  | CallPublishDelete hash => al <~ a_update al hash (a_publishDelete hash); Done (al, None)
  | CallRound i ev =>
      match al !! i with
      | None => Done (al, None)
      | Some a =>
          match a_select a ev with
          | None => Done (al, None)
          | Some o => '(a, out) <~ o; Done (<[i := a]> al, out)
          end
      end
  end.

Fixpoint a_run (al : list ashard) (cs : list lru_call) : outcome (list ashard * list evictMsg) :=
  match cs with
  | [] => Done (al, [])
  | c :: cs' =>
      '(al, out) <~ a_do al c;
      '(al, outs) <~ a_run al cs';
      Done (al, option_list out ++ outs)
  end.

Definition abs_cells (s : lruShard) (l : cells) : ashard := abs s l.*2.

Definition abs_all (lru : LeastRecentlyUsed) (ls : list cells) : list ashard :=
  zip_with abs_cells (shards lru) ls.

(** [lru] represents the lists [al]. *)
Definition implements (lru : LeastRecentlyUsed) (al : list ashard) : Prop :=
  exists ls, lru_rep lru ls /\ abs_all lru ls = al.

Lemma implements_lookup lru al i :
  implements lru al ->
  length (shards lru) = length al /\
  match shards lru !! i, al !! i with
  | Some s, Some a => exists ls l, lru_rep lru ls /\ abs_all lru ls = al /\ ls !! i = Some l /\ a = abs s l.*2 /\
                        local_rep (memory lru) s l /\ bounded s (length l)
  | None, None => True
  | _, _ => False
  end.
Proof.
  intros (ls & Hrep & <-). pose proof (Forall2_length _ _ _ (lu_shards _ _ Hrep)) as Hlen.
  split; [unfold abs_all; rewrite length_zip_with; lia|].
  unfold abs_all. rewrite lookup_zip_with. destruct (shards lru !! i) as [s|] eqn:Es; [|done].
  destruct (Forall2_lookup_l _ _ _ _ _ (lu_shards _ _ Hrep) Es) as (l & El & _). cbn [mbind option_bind].
  rewrite El. cbn. destruct (lru_local _ _ _ _ _ Hrep Es El). exists ls, l. by split_and!.
Qed.

Lemma implements_step lru al i s a s' m' a' :
  implements lru al -> shards lru !! i = Some s -> al !! i = Some a ->
  (forall l, a = abs s l.*2 -> local_rep (memory lru) s l -> bounded s (length l) ->
     stepped (memory lru) l s' m' a') ->
  implements (mkLRU (<[i := s']> (shards lru)) m') (<[i := a']> al).
Proof.
  intros Himp Hs Ha Hstep. pose proof (implements_lookup lru al i Himp) as [_ Hi]. rewrite Hs, Ha in Hi.
  destruct Hi as (ls & l & Hrep & <- & Hl & Hab & Hloc & Hb).
  destruct (lru_stepped _ _ _ _ _ _ _ _ Hrep Hs Hl (Hstep l Hab Hloc Hb)) as (l' & Hrep' & <-).
  exists (<[i := l']> ls). split; [done|]. symmetry. apply (insert_zip_with abs_cells).
Qed.

Lemma implements_select lru al i s a ev :
  implements lru al -> shards lru !! i = Some s -> al !! i = Some a ->
  match a_select a ev, select s (memory lru) ev with
  | None, None => True
  | Some o', Some o =>
      matches (fun x b => implements (mkLRU (<[i := x.1.1]> (shards lru)) x.1.2) (<[i := b.1]> al) /\ x.2 = b.2) o o'
  | _, _ => False
  end.
Proof.
  intros Himp Hs Ha. pose proof (implements_lookup lru al i Himp) as [_ Hi]. rewrite Hs, Ha in Hi.
  destruct Hi as (ls & l & Hrep & Habs & Hl & -> & Hloc & Hb).
  pose proof (select_matches s (memory lru) l ev Hloc Hb) as Hsel.
  destruct (a_select (abs s l.*2) ev) as [o'|], (select s (memory lru) ev) as [o|]; try done.
  destruct o as [[[s' m'] out]| | |], o' as [[a' out']| | |]; try done. cbn in *. destruct Hsel as [Hst ->].
  split; [|done]. destruct (lru_stepped _ _ _ _ _ _ _ _ Hrep Hs Hl Hst) as (l' & Hrep' & <-).
  exists (<[i := l']> ls). split; [done|]. rewrite <- Habs. symmetry. apply (insert_zip_with abs_cells).
Qed.

Lemma stepped_settings m l s' :
  local_rep m s' l -> bounded s' (length l) -> stepped m l s' m (abs s' l.*2).
Proof. intros Hl Hb. exists l. split; [done|]. split; [apply framed_refl|done]. Qed.

Lemma implements_index lru al hash : implements lru al -> shardIndex lru hash = a_index al hash.
Proof.
  intros Himp. destruct (implements_lookup lru al 0 Himp) as [Hlen _].
  unfold shardIndex, a_index, count. by rewrite Hlen.
Qed.

Lemma implements_callback lru al : implements lru al -> implements (SetEvictCallback lru) (a_setCallback <$> al).
Proof.
  intros (ls & [Hsh Hown Hpool] & <-). exists ls. split; [constructor; [|done|done]|].
  - cbn. apply Forall2_fmap_l. eapply Forall2_impl; [exact Hsh|]. intros s l (Hl & Hc & Hh & Hb). by split_and!.
  - unfold abs_all. cbn. generalize (shards lru). clear. induction ls as [|l ls IH]; intros [|s ss]; cbn; [done..|].
    f_equal. apply IH.
Qed.

(** Every call finishes as the specification says and keeps the representation. *)
Lemma lru_do_matches lru al c :
  implements lru al ->
  matches (fun x b => implements x.1 b.1 /\ x.2 = b.2) (lru_do lru c) (a_do al c).
Proof.
  intros Himp. destruct c as [|key hash r1 r2|hash|i ev]; cbn [lru_do a_do].
  { split; [by apply implements_callback|done]. }
  - unfold Publish, a_update, getShardByHash. rewrite (implements_index _ al) by done.
    destruct (negb (Z.land r1 1 =? 0)); [done|].
    pose proof (implements_lookup lru al (a_index al hash) Himp) as [_ Hi].
    destruct (shards lru !! a_index al hash) as [s|] eqn:Es, (al !! a_index al hash) as [a|] eqn:Ea; try done.
    destruct Hi as (ls & l & _ & _ & _ & -> & Hloc & Hb). cbn [andThen]. unfold a_publish.
    cbn [a_ch abs]. destruct (shouldSample _ _ r2); cbn [negb andThen].
    + cbn. split; [|done]. unfold putShard. rewrite (implements_index _ al) by done.
      eapply implements_step; [done|exact Es|exact Ea|]. intros l0 Hab0 Hloc0 Hb0.
      set (s1 := with_ch _ s).
      assert (mkA l.*2 (trySend (mkLruMsg key hash) (ch s)) (delCh s) (evictCh s) (onEvict s) (ttl s) (capacity s)
        = abs s1 l0.*2) as ->; [unfold s1, abs in *; cbn; congruence|].
      apply stepped_settings; [by apply local_with_ch|done].
    + cbn. split; [|done]. rewrite list_insert_id by done. done.
  - unfold PublishDelete, a_update, getShardByHash. rewrite (implements_index _ al) by done.
    pose proof (implements_lookup lru al (a_index al hash) Himp) as [_ Hi].
    destruct (shards lru !! a_index al hash) as [s|] eqn:Es, (al !! a_index al hash) as [a|] eqn:Ea; try done.
    cbn. split; [|done]. unfold putShard. rewrite (implements_index _ al) by done.
    eapply implements_step; [done|exact Es|exact Ea|]. intros l Hab Hloc Hb. subst a.
    unfold a_publishDelete. cbn [a_items a_ch a_delCh a_evictCh a_onEvict a_ttl a_capacity abs].
    set (s1 := with_delCh _ s). change (mkA _ _ _ _ _ _ _) with (abs s1 l.*2).
    apply stepped_settings; [by apply local_with_delCh|done].
  - unfold runShard. pose proof (implements_lookup lru al i Himp) as [_ Hi].
    destruct (shards lru !! i) as [s|] eqn:Es, (al !! i) as [a|] eqn:Ea; try done. ored.
    pose proof (implements_select lru al i s a ev Himp Es Ea) as Hsel.
    destruct (a_select a ev) as [o'|], (select s (memory lru) ev) as [o|]; try done. ored.
    by destruct o as [[[s' m'] out]| | |], o' as [[a' out']| | |].
Qed.

Lemma lru_run_matches lru al cs :
  implements lru al ->
  matches (fun x b => implements x.1 b.1 /\ x.2 = b.2) (lru_run lru cs) (a_run al cs).
Proof.
  revert lru al. induction cs as [|c cs IH]; intros lru al Himp; cbn [lru_run a_run]; [done|].
  pose proof (lru_do_matches lru al c Himp) as Hc.
  destruct (lru_do lru c) as [[lru1 out]| | |], (a_do al c) as [[al1 out']| | |]; try done.
  cbn in Hc. destruct Hc as [Himp1 ->]. cbn [andThen]. specialize (IH lru1 al1 Himp1).
  destruct (lru_run lru1 cs) as [[lru2 outs]| | |], (a_run al1 cs) as [[al2 outs']| | |]; try done.
  cbn in *. destruct IH as [Himp2 ->]. done.
Qed.

(** A configuration whose numbers fit their types. *)
Definition valid_config (config : LRUConfig) : Prop :=
  0 <= Capacity config < 2 ^ 32 /\ LruShardCount config < 2 ^ 63.

(** The lists of a service that has just been made. *)
Definition newLists (lru : LeastRecentlyUsed) : list ashard := (fun s => abs s []) <$> shards lru.

Lemma NewLRU_inv config lru :
  valid_config config -> NewLRU config = Some lru ->
  exists n c, 0 < n /\ 0 < c /\ c * n <= Capacity config < c * n + n /\ n < 2 ^ 32 /\ c < 2 ^ 32 /\
    n = Z.min (LruShardCount config) (Capacity config) /\
    shards lru = replicate (Z.to_nat n) (newShard c (TTL config)) /\ memory lru = mkMem ∅ [].
Proof.
  intros [Hc Hs] Hnew. unfold NewLRU in Hnew.
  destruct (Z.eqb_spec (Capacity config) 0); [done|].
  destruct (Z.leb_spec (LruShardCount config) 0); [done|].
  set (cnt := if Capacity config <? LruShardCount config then _ else _) in Hnew.
  assert (cnt = Z.min (LruShardCount config) (Capacity config)) as Hn.
  { unfold cnt. destruct (Z.ltb_spec (Capacity config) (LruShardCount config)); lia. }
  cbn zeta in Hnew. rewrite u32_small in Hnew by lia. injection Hnew as <-. cbn [shards memory].
  exists cnt, (Capacity config / cnt).
  pose proof (Z.div_mod (Capacity config) cnt ltac:(lia)).
  pose proof (Z.mod_pos_bound (Capacity config) cnt ltac:(lia)).
  pose proof (Z.div_str_pos (Capacity config) cnt ltac:(lia)).
  split_and!; try done; try lia; nia.
Qed.

Lemma newShard_ok m c t : 0 < c < 2 ^ 32 -> shard_ok m (newShard c t) [].
Proof.
  intros Hc. split; [split_and!; try done; apply NoDup_nil_2|]. split; [done|].
  split; [apply NoDup_nil_2|]. split; cbn; lia.
Qed.

Lemma NewLRU_implements config lru :
  valid_config config -> NewLRU config = Some lru -> implements lru (newLists lru).
Proof.
  intros Hv (n & c & Hn & Hc & _ & _ & Hc2 & _ & Hs & Hm)%NewLRU_inv; [|done].
  exists (replicate (Z.to_nat n) []). split; [constructor|].
  - rewrite Hs. apply Forall2_replicate. apply newShard_ok. lia.
  - rewrite Hm. unfold locs. rewrite fmap_replicate. cbn [pool fmap list_fmap].
    rewrite app_nil_r, join_nil_2; [apply NoDup_nil_2|by apply Forall_replicate].
  - rewrite Hm. by intros y ?%elem_of_nil.
  - unfold abs_all, newLists. rewrite Hs. rewrite zip_with_replicate. by rewrite fmap_replicate.
Qed.

(** C13. The eviction service is a set of bounded recency lists: after any calls of clients,
    [SetEvictCallback] among them, and rounds of the goroutines, in any order and with any
    choices of the pool, the doubly linked entries and the hash table of each shard represent
    the list that the specification keeps, the callback has received the same notifications
    (each one that a round takes from a shard's queue once a callback is set there), and a
    round panics or blocks exactly when the specification says. In particular no nil pointer is
    followed and every loop ends. *)
Theorem lru_refines_lists config lru cs :
  valid_config config -> NewLRU config = Some lru ->
  matches (fun x b => implements x.1 b.1 /\ x.2 = b.2) (lru_run lru cs) (a_run (newLists lru) cs).
Proof. intros Hv Hnew. apply lru_run_matches. by eapply NewLRU_implements. Qed.

(** ** Capacity *)

Definition fixed (a : ashard) : Z * Z := (a_ttl a, a_capacity a).

Lemma fmap_insert_same {A B} (f : A -> B) (l : list A) i x y :
  l !! i = Some x -> f y = f x -> f <$> <[i := y]> l = f <$> l.
Proof. intros Hx Hy. rewrite list_fmap_insert, Hy. by rewrite list_insert_id; [|rewrite list_lookup_fmap, Hx]. Qed.

Lemma a_select_fixed a ev a' out : a_select a ev = Some (Done (a', out)) -> fixed a' = fixed a.
Proof.
  destruct ev as [now jitter choice| | |now]; cbn.
  - destruct (queue (a_ch a)) as [|msg rest]; [done|]. unfold a_seen. cbn.
    destruct (_ <=? 0); [done|]. destruct (spec_seen _ _ _) as [its [|o out']]; [by intros [= <- _]|].
    destruct (full _); [done|]. by intros [= <- _].
  - destruct (queue (a_delCh a)); [done|]. by intros [= <- _].
  - destruct (queue (a_evictCh a)); [done|]. by intros [= <- _].
  - destruct (0 <? a_ttl a); [|done]. destruct (spec_expire _ _). by intros [= <- _].
Qed.

Lemma a_do_fixed al c al' out : a_do al c = Done (al', out) -> fixed <$> al' = fixed <$> al.
Proof.
  destruct c as [|key hash r1 r2|hash|i ev]; cbn; unfold a_update.
  { intros [= <- _]. rewrite <- list_fmap_compose. by apply list_fmap_ext. }
  - destruct (negb _); [by intros [= <- _]|]. destruct (al !! a_index al hash) as [a|] eqn:Ea; [|done].
    intros [= <- _]. eapply fmap_insert_same; [done|]. unfold a_publish. by destruct (shouldSample _ _ _).
  - destruct (al !! a_index al hash) as [a|] eqn:Ea; [|done]. intros [= <- _]. by eapply fmap_insert_same.
  - destruct (al !! i) as [a|] eqn:Ea; [|by intros [= <- _]].
    destruct (a_select a ev) as [[[a' o]| | |]|] eqn:Es; try done; [|by intros [= <- _]].
    intros [= <- _]. eapply fmap_insert_same; [done|]. by eapply a_select_fixed.
Qed.

Lemma a_run_fixed al cs al' outs : a_run al cs = Done (al', outs) -> fixed <$> al' = fixed <$> al.
Proof.
  revert al outs. induction cs as [|c cs IH]; intros al outs; cbn; [by intros [= <- _]|].
  destruct (a_do al c) as [[al1 out]| | |] eqn:Ec; try done. cbn.
  destruct (a_run al1 cs) as [[al2 outs']| | |] eqn:Er; try done. intros [= <- _].
  rewrite (IH _ _ Er). by eapply a_do_fixed.
Qed.

(** A run of the service that finishes, seen on the lists. *)
Lemma run_implements config lru cs lru' outs :
  valid_config config -> NewLRU config = Some lru -> lru_run lru cs = Done (lru', outs) ->
  exists al', a_run (newLists lru) cs = Done (al', outs) /\ implements lru' al'.
Proof.
  intros Hv Hnew Hrun. pose proof (lru_run_matches lru (newLists lru) cs (NewLRU_implements _ _ Hv Hnew)) as Hm.
  rewrite Hrun in Hm. destruct (a_run (newLists lru) cs) as [[al' outs']| | |]; try done.
  cbn in Hm. destruct Hm as [Himp ->]. by exists al'.
Qed.

Lemma implements_shard lru al s :
  implements lru al -> s ∈ shards lru ->
  exists a l, a ∈ al /\ a = abs s l.*2 /\ local_rep (memory lru) s l /\ bounded s (length l).
Proof.
  intros Himp [i Hi]%list_elem_of_lookup. pose proof (implements_lookup lru al i Himp) as [_ Hl].
  rewrite Hi in Hl. destruct (al !! i) as [a|] eqn:Ea; [|done].
  destruct Hl as (ls & l & _ & _ & _ & -> & Hloc & Hb). exists (abs s l.*2), l.
  split; [by eapply list_elem_of_lookup_2|done].
Qed.

Lemma Occupancy_bound n c ss : 0 <= c -> c * Z.of_nat n < 2 ^ 32 -> length ss = n ->
  Forall (fun s => capacity s = c /\ Z.of_nat (size (cache s)) <= c) ss ->
  forall m, let '(total, cap) := Occupancy (mkLRU ss m) in 0 <= total <= cap /\ cap = c * Z.of_nat n.
Proof.
  intros Hc Hn Hlen Hss m. unfold Occupancy. cbn [shards].
  assert (forall t k, 0 <= t <= k -> k + c * Z.of_nat (length ss) < 2 ^ 32 ->
    let '(total, cap) := foldl (fun '(totalSize, totalCap) s =>
       (u32 (totalSize + u32 (Z.of_nat (size (cache s)))), u32 (totalCap + capacity s))) (t, k) ss in
    0 <= total <= cap /\ cap = k + c * Z.of_nat (length ss)) as Hgen.
  { clear Hn Hlen n. induction ss as [|s ss IH]; intros t k Htk Hk; cbn [foldl length] in *; [lia|].
    apply list.Forall_cons in Hss as [[Hcs Hsz] Hss]. rewrite Hcs.
    assert (0 <= c * Z.of_nat (length ss)) by nia.
    rewrite (u32_small (Z.of_nat _)), !u32_small by lia.
    assert (0 <= t + Z.of_nat (size (cache s)) <= k + c) as H1 by lia.
    assert (k + c + c * Z.of_nat (length ss) < 2 ^ 32) as H2 by lia.
    specialize (IH Hss _ _ H1 H2). destruct (foldl _ _ ss). lia. }
  specialize (Hgen 0 0 ltac:(lia) ltac:(rewrite Hlen; lia)). destruct (foldl _ _ ss). rewrite Hlen in Hgen. lia.
Qed.

(** The memory bound: whatever the calls and the rounds, no shard holds more entries than
    its capacity, the capacities of the shards add up to at most the configured one (and miss
    it by less than the number of shards), and [Occupancy] therefore never exceeds one. *)
Theorem lru_within_capacity config lru cs lru' outs :
  valid_config config -> NewLRU config = Some lru -> lru_run lru cs = Done (lru', outs) ->
  (forall s, s ∈ shards lru' -> Z.of_nat (size (cache s)) <= capacity s) /\
  let '(total, cap) := Occupancy lru' in
  0 <= total <= cap /\ 0 < cap <= Capacity config /\ Capacity config < cap + count lru'.
Proof.
  intros Hv Hnew Hrun. destruct (run_implements _ _ _ _ _ Hv Hnew Hrun) as (al' & Ha & Himp).
  destruct (NewLRU_inv _ _ Hv Hnew) as (n & c & Hn & Hc & Hcap & Hn2 & Hc2 & _ & Hs & Hm).
  apply a_run_fixed in Ha as Hfix. unfold newLists in Hfix. rewrite Hs, !fmap_replicate in Hfix.
  assert (forall s, s ∈ shards lru' -> capacity s = c /\ Z.of_nat (size (cache s)) <= c) as Hsh.
  { intros s Hin. destruct (implements_shard _ _ _ Himp Hin) as (a & l & Hal & -> & Hl & [_ Hb]).
    assert (capacity s = c) as Hcs.
    { apply (list_elem_of_fmap_2 fixed) in Hal. rewrite Hfix in Hal.
      apply elem_of_replicate_inv in Hal. unfold fixed in Hal. cbn in Hal. congruence. }
    rewrite (lr_cache _ _ _ Hl), (cache_size _ (lr_hashes _ _ _ Hl)). by rewrite Hcs in *. }
  assert (length (shards lru') = Z.to_nat n) as Hlen.
  { destruct (implements_lookup _ _ 0 Himp) as [-> _].
    rewrite <- (length_fmap fixed al'), Hfix. apply length_replicate. }
  split; [intros s Hin; destruct (Hsh s Hin); lia|].
  assert (Z.of_nat (Z.to_nat n) = n) as Hz by lia. pose proof (proj1 Hv) as Hcfg.
  pose proof (Occupancy_bound (Z.to_nat n) c (shards lru') ltac:(lia) ltac:(rewrite Hz; lia) Hlen) as Hocc.
  specialize (Hocc ltac:(by apply list.Forall_forall) (memory lru')).
  unfold count. rewrite Hlen, Hz in *. destruct lru'. cbn [shards memory] in *.
  destruct (Occupancy _). nia.
Qed.

(** ** Failures *)

(** Calls with the hashes the engine passes. *)
Definition call_ok (c : lru_call) : Prop :=
  match c with
  | CallPublish _ hash _ _ | CallPublishDelete hash => 0 <= hash
  | CallSetEvictCallback | CallRound _ _ => True
  end.

Lemma a_index_lt al hash : 0 <= hash -> (0 < length al)%nat -> Z.of_nat (length al) < 2 ^ 64 ->
  (a_index al hash < length al)%nat.
Proof.
  intros Hh Hl Hb. unfold a_index. rewrite u64_small by lia.
  pose proof (Z.mod_pos_bound hash (Z.of_nat (length al)) ltac:(lia)). lia.
Qed.

Lemma a_update_ok al hash f : 0 <= hash -> (0 < length al)%nat -> Z.of_nat (length al) < 2 ^ 64 ->
  exists al', a_update al hash f = Done al'.
Proof.
  intros Hh Hl Hb. unfold a_update. destruct (lookup_lt_is_Some_2 _ _ (a_index_lt al hash Hh Hl Hb)) as [a ->].
  by eexists.
Qed.

Lemma a_do_no_panic al c t :
  call_ok c -> (0 < length al)%nat -> Z.of_nat (length al) < 2 ^ 64 -> 10 <= t ->
  Forall (fun a => a_ttl a = t) al -> a_do al c <> Panics.
Proof.
  intros Hc Hl Hb Ht Httl. destruct c as [|key hash r1 r2|hash|i ev]; cbn in *; [done|..].
  - destruct (negb _); [done|]. by destruct (a_update_ok al hash (a_publish key hash r2) Hc Hl Hb) as [al' ->].
  - by destruct (a_update_ok al hash (a_publishDelete hash) Hc Hl Hb) as [al' ->].
  - destruct (al !! i) as [a|] eqn:Ea; [|done]. rewrite list.Forall_lookup in Httl. specialize (Httl _ _ Ea).
    destruct ev as [now jitter choice| | |now]; cbn.
    + destruct (queue (a_ch a)) as [|msg rest]; [done|]. unfold a_seen. cbn. rewrite Httl.
      rewrite Z.quot_div_nonneg by lia. pose proof (Z.div_str_pos t 10 ltac:(lia)).
      destruct (Z.leb_spec (t / 10) 0); [lia|]. destruct (spec_seen _ _ _) as [its [|o out]]; [done|].
      by destruct (full _).
    + by destruct (queue (a_delCh a)).
    + by destruct (queue (a_evictCh a)).
    + destruct (0 <? a_ttl a); [|done]. by destruct (spec_expire _ _).
Qed.

Lemma fixed_ttl al al' t : fixed <$> al' = fixed <$> al -> Forall (fun a => a_ttl a = t) al ->
  Forall (fun a => a_ttl a = t) al'.
Proof.
  intros Hf Hal. assert (Forall (fun x : Z * Z => x.1 = t) (fixed <$> al)) as Hx by by apply Forall_fmap.
  rewrite <- Hf in Hx. by apply Forall_fmap in Hx.
Qed.

Lemma a_run_no_panic al cs t :
  Forall call_ok cs -> (0 < length al)%nat -> Z.of_nat (length al) < 2 ^ 64 -> 10 <= t ->
  Forall (fun a => a_ttl a = t) al -> a_run al cs <> Panics.
Proof.
  revert al. induction cs as [|c cs IH]; intros al Hcs Hl Hb Ht Httl; cbn; [done|].
  apply list.Forall_cons in Hcs as [Hc Hcs]. pose proof (a_do_no_panic al c t Hc Hl Hb Ht Httl) as Hn.
  destruct (a_do al c) as [[al1 out]| | |] eqn:Ec; try done. cbn.
  apply a_do_fixed in Ec. assert (length al1 = length al) as Hlen.
  { by rewrite <- (length_fmap fixed al1), Ec, length_fmap. }
  assert (a_run al1 cs <> Panics) as Hn1.
  { apply IH; rewrite ?Hlen; try done. by eapply fixed_ttl. }
  by destruct (a_run al1 cs) as [[al2 outs]| | |].
Qed.

(** No panic: with a time to live of at least ten nanoseconds no call and no round
    panics, whatever the interleaving; so every run finishes or blocks. *)
Theorem lru_never_panics config lru cs :
  valid_config config -> NewLRU config = Some lru -> 10 <= TTL config -> Forall call_ok cs ->
  lru_run lru cs = Blocks \/ exists lru' outs, lru_run lru cs = Done (lru', outs).
Proof.
  intros Hv Hnew Ht Hcs. pose proof (lru_run_matches _ _ cs (NewLRU_implements _ _ Hv Hnew)) as Hm.
  destruct (NewLRU_inv _ _ Hv Hnew) as (n & c & Hn & Hc & Hcap & Hn2 & Hc2 & _ & Hs & _).
  assert (a_run (newLists lru) cs <> Panics) as Hp.
  { unfold newLists. rewrite Hs, fmap_replicate. apply (a_run_no_panic _ _ (TTL config)); try done.
    - rewrite length_replicate. lia.
    - rewrite length_replicate. lia.
    - by apply Forall_replicate. }
  destruct (lru_run lru cs) as [[lru' outs]| | |], (a_run (newLists lru) cs) as [[]| | |]; try done; eauto.
Qed.

(** ** Expiry *)

(** Rounds at times that do not go back, with jitters that [rand.Int64N] can return. *)
Fixpoint timely (t last : Z) (cs : list lru_call) : Prop :=
  match cs with
  | [] => True
  | CallRound _ (EvSeen now jitter _) :: cs' => last <= now /\ 0 <= jitter < t ÷ 10 /\ timely t now cs'
  | CallRound _ (EvTick now) :: cs' => last <= now /\ timely t now cs'
  | _ :: cs' => timely t last cs'
  end.

(** Expiries decrease along the list up to one jitter. *)
Definition aging (t last : Z) (its : list item) : Prop :=
  Forall (fun it => it_expiry it < last + t + t ÷ 10) its /\
  StronglySorted (fun x y => it_expiry y - t ÷ 10 < it_expiry x) its.

Lemma sublist_in {A} (x : A) l k : x ∈ l -> l `sublist_of` k -> x ∈ k.
Proof.
  intros Hx Hl. induction Hl as [|y l k Hl IH|y l k Hl IH]; [done|..].
  - apply elem_of_cons in Hx as [->|Hx]; [left|right; by apply IH].
  - right. by apply IH.
Qed.

Lemma StronglySorted_sublist {A} (R : A -> A -> Prop) l k :
  StronglySorted R k -> l `sublist_of` k -> StronglySorted R l.
Proof.
  intros Hk Hl. induction Hl as [|x l k Hl IH|x l k Hl IH]; [done|..];
    inversion Hk as [|? ? Hk' Hx]; subst.
  - constructor; [by apply IH|]. apply list.Forall_forall. intros y Hy. rewrite list.Forall_forall in Hx.
    apply Hx. by eapply sublist_in.
  - by apply IH.
Qed.

Lemma aging_sublist t last last' its its' :
  its' `sublist_of` its -> last <= last' -> aging t last its -> aging t last' its'.
Proof.
  intros Hs Hl [Hf Hss]. split; [|by eapply StronglySorted_sublist].
  apply list.Forall_forall. intros it Hit. rewrite list.Forall_forall in Hf.
  specialize (Hf it ltac:(by eapply sublist_in)). cbn in Hf. lia.
Qed.

Lemma extract_sublist h l it l' : extract h l = Some (it, l') -> l' `sublist_of` l.
Proof.
  revert it l'. induction l as [|y l IH]; intros it l'; cbn; [done|].
  destruct (decide _); [intros [= <- <-]; by apply sublist_cons|].
  destruct (extract h l) as [[a b]|]; [|done]. intros [= <- <-]. apply sublist_skip. by eapply IH.
Qed.

Lemma spec_seen_rest cap it l : exists x l', (spec_seen cap it l).1 = x :: l' /\ it_expiry x = it_expiry it /\
  l' `sublist_of` l.
Proof.
  unfold spec_seen. destruct (extract _ l) as [[o l']|] eqn:Ex.
  - exists (with_expiry (it_expiry it) o), l'. split; [done|]. split; [done|]. by eapply extract_sublist.
  - destruct (cap <=? length l)%nat; eexists _, _; (split; [done|]); (split; [done|]); [|done].
    destruct l as [|y l _] using rev_ind; [done|]. rewrite removelast_last. by apply sublist_inserts_r.
Qed.

Lemma aging_seen t last now jitter cap it l :
  last <= now -> 0 <= jitter < t ÷ 10 -> it_expiry it = now + (t + jitter) -> aging t last l ->
  aging t now (spec_seen cap it l).1.
Proof.
  intros Hle Hj He Ha. destruct (spec_seen_rest cap it l) as (x & l' & -> & Hx & Hs).
  pose proof (proj1 (aging_sublist t last last l l' Hs ltac:(lia) Ha)) as Hf.
  destruct (aging_sublist t last now l l' Hs Hle Ha) as [Hf' Hss]. split.
  - constructor; [cbn; lia|done].
  - constructor; [done|]. eapply Forall_impl; [exact Hf|]. cbn. intros y Hy. lia.
Qed.

(** The lists of a service in which every shard has the time to live [t]. *)
Definition aged (t last : Z) (al : list ashard) : Prop :=
  Forall (fun a => a_ttl a = t /\ aging t last (a_items a)) al.

Lemma aged_later t last last' al : last <= last' -> aged t last al -> aged t last' al.
Proof.
  intros Hle Hal. eapply Forall_impl; [exact Hal|]. intros a [Ht Ha]. split; [done|]. by eapply aging_sublist.
Qed.

Lemma aged_insert t last al i a : aged t last al -> a_ttl a = t -> aging t last (a_items a) ->
  aged t last (<[i := a]> al).
Proof. intros Hal Ht Ha. by apply Forall_insert. Qed.

Definition tick (last : Z) (c : lru_call) : Z :=
  match c with
  | CallRound _ (EvSeen now _ _) | CallRound _ (EvTick now) => now
  | _ => last
  end.

Lemma timely_cons t last c cs : timely t last (c :: cs) -> last <= tick last c /\ timely t (tick last c) cs /\
  match c with CallRound _ (EvSeen _ jitter _) => 0 <= jitter < t ÷ 10 | _ => True end.
Proof.
  destruct c as [| | |i [now jitter choice| | |now]]; cbn [timely tick]; intros Ht;
    repeat match goal with Hx : _ /\ _ |- _ => destruct Hx end; split_and!; try done; lia.
Qed.

Lemma spec_delete_sublist h l : spec_delete h l `sublist_of` l.
Proof. unfold spec_delete. destruct (extract h l) as [[]|] eqn:E; [by eapply extract_sublist|done]. Qed.

Lemma spec_expire_sublist now l : (spec_expire now l).1 `sublist_of` l.
Proof.
  destruct (spec_expire_split now l) as (out & Hl & _). rewrite Hl at 2. by apply sublist_inserts_r.
Qed.

Lemma a_do_aged t last al c cs al' out :
  10 <= t < 2 ^ 62 -> timely t last (c :: cs) -> aged t last al -> a_do al c = Done (al', out) ->
  aged t (tick last c) al'.
Proof.
  intros Ht (Hle & _ & Hj)%timely_cons Hal Hdo.
  pose proof (aged_later _ _ _ _ Hle Hal) as Hlater.
  destruct c as [|key hash r1 r2|hash|i ev]; cbn [a_do] in Hdo.
  { injection Hdo as <- _. by apply Forall_fmap. }
  - destruct (negb _); [by injection Hdo as <- _|]. unfold a_update in Hdo.
    destruct (al !! a_index al hash) as [a|] eqn:Ea; [|done]. injection Hdo as <- _.
    destruct (proj1 (list.Forall_lookup _ _) Hlater _ _ Ea) as [Hta Haa].
    unfold a_publish. by destruct (shouldSample _ _ _); apply aged_insert.
  - unfold a_update in Hdo. destruct (al !! a_index al hash) as [a|] eqn:Ea; [|done]. injection Hdo as <- _.
    destruct (proj1 (list.Forall_lookup _ _) Hlater _ _ Ea) as [Hta Haa]. by apply aged_insert.
  - destruct (al !! i) as [a|] eqn:Ea; [|by injection Hdo as <- _].
    destruct (proj1 (list.Forall_lookup _ _) Hlater _ _ Ea) as [Hta Haa].
    destruct (proj1 (list.Forall_lookup _ _) Hal _ _ Ea) as [_ Haa0].
    destruct ev as [now jitter choice| | |now]; cbn [a_select tick] in *.
    + destruct (queue (a_ch a)) as [|msg rest]; [by injection Hdo as <- _|]. unfold a_seen in Hdo. cbn in Hdo.
      destruct (_ <=? 0); [done|].
      set (it := mkItem _ _ _) in Hdo.
      pose proof (aging_seen t last now jitter (Z.to_nat (a_capacity a)) it (a_items a) Hle Hj) as Hseen.
      destruct (spec_seen _ it (a_items a)) as [its out'].
      assert (aging t now its) as Hits.
      { apply Hseen; [|done]. unfold it. cbn. rewrite Hta, i64_small; [done|].
        rewrite Z.quot_div_nonneg in Hj by lia. pose proof (Z.div_le_upper_bound t 10 t). lia. }
      destruct out' as [|o out']; [injection Hdo as <- _; by apply aged_insert|].
      destruct (full _); [done|]. injection Hdo as <- _. by apply aged_insert.
    + destruct (queue (a_delCh a)); [by injection Hdo as <- _|]. injection Hdo as <- _.
      apply aged_insert; [done|done|]. eapply aging_sublist; [apply spec_delete_sublist| |done]. lia.
    + destruct (queue (a_evictCh a)); [by injection Hdo as <- _|]. injection Hdo as <- _. by apply aged_insert.
    + destruct (0 <? a_ttl a); [|by injection Hdo as <- _].
      pose proof (spec_expire_sublist now (a_items a)) as Hsub.
      destruct (spec_expire now (a_items a)). injection Hdo as <- _.
      apply aged_insert; [done|done|]. by eapply aging_sublist.
Qed.

Lemma a_run_app al cs cs' :
  a_run al (cs ++ cs') =
    ('(al, outs) <~ a_run al cs; '(al, outs') <~ a_run al cs'; Done (al, outs ++ outs')).
Proof.
  revert al. induction cs as [|c cs IH]; intros al; cbn [a_run app andThen].
  { destruct (a_run al cs') as [[]| | |]; done. }
  destruct (a_do al c) as [[al1 out]| | |]; try done. cbn [andThen]. rewrite IH.
  destruct (a_run al1 cs) as [[al2 outs]| | |]; try done. cbn [andThen].
  destruct (a_run al2 cs') as [[al3 outs']| | |]; try done. cbn [andThen]. by rewrite (assoc_L (++)).
Qed.

Lemma a_run_aged t last al cs cs' al' outs :
  10 <= t < 2 ^ 62 -> timely t last (cs ++ cs') -> aged t last al -> a_run al cs = Done (al', outs) ->
  exists last', aged t last' al' /\ timely t last' cs'.
Proof.
  intros Ht. revert last al outs. induction cs as [|c cs IH]; intros last al outs Htime Hal; cbn.
  { intros [= <- _]. by exists last. }
  destruct (a_do al c) as [[al1 out]| | |] eqn:Ec; try done. cbn.
  destruct (a_run al1 cs) as [[al2 outs']| | |] eqn:Er; try done. intros [= <- _].
  eapply IH; [apply (timely_cons _ _ _ _ Htime)| |exact Er]. by eapply a_do_aged.
Qed.

Lemma aging_last t last its now it :
  aging t last its -> (forall x, list.last its = Some x -> now < it_expiry x) -> 0 <= t ÷ 10 -> it ∈ its ->
  now - t ÷ 10 < it_expiry it.
Proof.
  intros [_ Hs] Hl Ht Hin. destruct its as [|y its _] using rev_ind; [by apply elem_of_nil in Hin|].
  specialize (Hl y ltac:(apply last_snoc)). apply elem_of_app in Hin as [Hin|Hin].
  - pose proof (StronglySorted_app_1_elem_of _ _ _ _ _ Hs Hin (list_elem_of_here y [])) as Hr. cbn in Hr. lia.
  - apply list_elem_of_singleton in Hin as ->. lia.
Qed.

Lemma dseg_items h p l n x e : dseg h p l n -> h !! x = Some e -> x ∈ l.*1 ->
  exists it, it ∈ l.*2 /\ it_expiry it = e_expiry e.
Proof.
  revert p. induction l as [|c l IH]; intros p; cbn; [by intros _ _ ?%elem_of_nil|].
  intros [Hc Hl] He [->|Hx]%elem_of_cons.
  - exists c.2. split; [left|]. rewrite Hc in He. by injection He as <-.
  - destruct (IH _ Hl He Hx) as (it & Hit & Heq). exists it. split; [by right|done].
Qed.

(** A sweep removes what has expired: if the clock does not go back, then after a tick at
    [now] every entry left in the shard expires later than a tenth of the time to live before
    [now], although only the tail of the list is inspected and expiries are jittered. *)
Theorem sweep_bounds_staleness config lru cs i now t0 lru' outs s h x e :
  valid_config config -> NewLRU config = Some lru -> 10 <= TTL config < 2 ^ 62 ->
  timely (TTL config) t0 (cs ++ [CallRound i (EvTick now)]) ->
  lru_run lru (cs ++ [CallRound i (EvTick now)]) = Done (lru', outs) ->
  shards lru' !! i = Some s -> cache s !! h = Some x -> heap (memory lru') !! x = Some e ->
  now - TTL config ÷ 10 < e_expiry e.
Proof.
  intros Hv Hnew Ht Htime Hrun Hs Hx He.
  destruct (run_implements _ _ _ _ _ Hv Hnew Hrun) as (al' & Ha & Himp).
  rewrite a_run_app in Ha. destruct (a_run (newLists lru) cs) as [[al1 outs1]| | |] eqn:Ea; try done.
  assert (aged (TTL config) t0 (newLists lru)) as Hag0.
  { destruct (NewLRU_inv _ _ Hv Hnew) as (n & c & _ & _ & _ & _ & _ & _ & Hsh & _). unfold newLists.
    rewrite Hsh, fmap_replicate. apply Forall_replicate. split; [done|]. split; constructor. }
  destruct (a_run_aged _ _ _ _ _ _ _ Ht Htime Hag0 Ea) as (last & Hag & Htl).
  cbn [andThen a_run] in Ha. destruct (a_do al1 _) as [[al2 out]| | |] eqn:Ed; try done.
  cbn in Ha. injection Ha as -> _. pose proof (implements_lookup _ _ i Himp) as [_ Hi]. rewrite Hs in Hi.
  destruct (al' !! i) as [a|] eqn:Eai; [|done].
  destruct Hi as (ls & l & _ & _ & _ & Hab & Hloc & _).
  assert (exists last', aging (TTL config) last' (a_items a) /\
    forall y, list.last (a_items a) = Some y -> now < it_expiry y) as (last' & Hagi & Hlast).
  { cbn [a_do] in Ed. destruct (al1 !! i) as [a1|] eqn:E1; [|injection Ed as -> _; congruence].
    destruct (proj1 (list.Forall_lookup _ _) Hag _ _ E1) as [Ht1 Ha1]. cbn [a_select] in Ed.
    rewrite Ht1, (proj2 (Z.ltb_lt _ _)) in Ed by lia.
    pose proof (spec_expire_sublist now (a_items a1)) as Hsub.
    destruct (spec_expire_split now (a_items a1)) as (o & _ & _ & _ & Hlast).
    destruct (spec_expire now (a_items a1)) as [its ms]. cbn in Ed, Hlast, Hsub. injection Ed as <- _.
    rewrite list_lookup_insert_eq in Eai by by eapply lookup_lt_Some. injection Eai as <-. cbn.
    exists last. split; [|done]. by eapply aging_sublist. }
  rewrite (lr_cache _ _ _ Hloc) in Hx. apply cache_lookup_Some in Hx as (l1 & it & l2 & -> & _).
  destruct (dseg_items _ _ _ _ x e (proj1 (lr_linked _ _ _ Hloc)) He) as (it' & Hit & <-).
  { rewrite fmap_app, fmap_cons. apply elem_of_app. right. left. }
  subst a. cbn [a_items abs] in *. eapply aging_last; [done|done| |done].
  rewrite Z.quot_div_nonneg by lia. apply Z.div_pos; lia.
Qed.

(** C33. The goroutine of a shard can deadlock on itself: when its queue of notifications is
    full, an access to a new key at capacity blocks on that queue, which no other goroutine
    drains. *)
Theorem eviction_self_deadlock lru al i s msg rest now jitter choice :
  implements lru al -> shards lru !! i = Some s -> 10 <= ttl s ->
  queue (ch s) = msg :: rest -> cache s !! msg_hash msg = None ->
  Z.of_nat (size (cache s)) = capacity s -> full (evictCh s) = true ->
  lru_do lru (CallRound i (EvSeen now jitter choice)) = Blocks.
Proof.
  intros Himp Hs Ht Hq Hc Hcap Hfull. pose proof (implements_lookup _ _ i Himp) as [_ Hi].
  rewrite Hs in Hi. destruct (al !! i) as [a|]; [|done].
  destruct Hi as (ls & l & _ & _ & _ & _ & Hloc & Hb). cbn [lru_do]. unfold runShard. rewrite Hs. ored.
  cbn [select]. rewrite Hq. ored. rewrite (seen_blocks _ _ l); try done.
  - by apply local_with_ch.
  - apply cache_lookup_None. by rewrite <- (lr_cache _ _ _ Hloc).
  - rewrite (lr_cache _ _ _ Hloc), (cache_size _ (lr_hashes _ _ _ Hloc)) in Hcap. cbn. lia.
Qed.

(** A time to live under ten nanoseconds, zero included, makes the goroutine panic at the
    first access it handles, because the jitter is drawn from an empty range. *)
Theorem zero_ttl_panics config lru key hash r2 now jitter choice :
  valid_config config -> NewLRU config = Some lru -> TTL config < 10 -> 0 <= hash ->
  lru_run lru [CallPublish key hash 0 r2; CallRound (shardIndex lru hash) (EvSeen now jitter choice)] = Panics.
Proof.
  intros Hv Hnew Ht Hh. destruct (NewLRU_inv _ _ Hv Hnew) as (n & c & Hn & Hc & _ & Hn2 & _ & _ & Hs & _).
  assert (shards lru !! shardIndex lru hash = Some (newShard c (TTL config))) as Hlk.
  { rewrite Hs. apply lookup_replicate_2. unfold shardIndex, count. rewrite Hs, length_replicate.
    rewrite Z2Nat.id, u64_small by lia. pose proof (Z.mod_pos_bound hash n ltac:(lia)). lia. }
  cbn [lru_run lru_do]. unfold Publish, getShardByHash. rewrite Hlk. cbn [andThen Z.land Z.eqb negb].
  cbn [newShard ch queue room length]. unfold shouldSample. rewrite (proj2 (Z.leb_gt _ _)) by lia.
  unfold sampleMask. rewrite (proj2 (Z.ltb_lt _ _)) by lia. cbn [Z.eqb orb negb andThen].
  change (negb (Z.land 0 1 =? 0)) with false. cbn [andThen].
  unfold runShard, putShard. cbn [shards]. rewrite list_lookup_insert_eq by by eapply lookup_lt_Some.
  ored. cbn [select with_ch ch]. unfold trySend, full. cbn [queue room length].
  rewrite (proj2 (Z.leb_gt _ _)) by lia. cbn [send queue app]. ored.
  unfold seen. cbn [ttl with_ch newShard].
  assert (TTL config ÷ 10 <=? 0 = true) as ->; [|done].
  apply Z.leb_le. destruct (Z.le_gt_cases 0 (TTL config)); [rewrite Z.quot_small by lia; lia|].
  pose proof (Z.quot_le_mono (TTL config) 0 10 ltac:(lia) ltac:(lia)). rewrite Z.quot_0_l in *; lia.
Qed.

(** ** Concrete runs *)

Module EvictExamples.

Definition some_config : LRUConfig := mkLRUConfig 5 1000 2.
Definition made (config : LRUConfig) : LeastRecentlyUsed := default (mkLRU [] (mkMem ∅ [])) (NewLRU config).

Lemma some_config_valid : valid_config some_config.
Proof. unfold valid_config. cbn. lia. Qed.

(** Accesses to six keys of the even shard, which holds two, with a deletion, a sweep and
    deliveries in between. *)
Definition access (key : string) (hash now jitter : Z) (choice : option nat) : list lru_call :=
  [CallPublish key hash 0 0; CallRound (Z.to_nat (hash mod 2)) (EvSeen now jitter choice)].

Definition some_calls : list lru_call :=
  [CallSetEvictCallback] ++ access "a" 2 0 5 None ++ access "b" 4 10 99 None ++ access "a" 2 20 0 None ++ access "c" 6 30 7 (Some 0%nat) ++
  [CallPublishDelete 2; CallRound 0 EvDelete; CallRound 0 EvEvict; CallRound 1 EvEvict] ++
  access "d" 9 40 1 (Some 1%nat) ++ access "e" 8 50 1 None.

Definition run_of (lru : LeastRecentlyUsed) (cs : list lru_call) : LeastRecentlyUsed * list evictMsg :=
  match lru_run lru cs with Done x => x | _ => (lru, []) end.

Definition finishes (lru : LeastRecentlyUsed) (cs : list lru_call) : bool :=
  match lru_run lru cs with Done _ => true | _ => false end.

Lemma run_of_Done lru cs : finishes lru cs = true -> lru_run lru cs = Done ((run_of lru cs).1, (run_of lru cs).2).
Proof. unfold finishes, run_of. destruct (lru_run lru cs) as [[]| | |]; done. Qed.

(** Which keys the callback hears of. *)
Example some_delivered :
  (run_of (made some_config) some_calls).2 = [mkEvictMsg "b" ReasonCapacity].
Proof. vm_compute. reflexivity. Qed.

Lemma lru_refines_lists_witness :
  matches (fun x b => implements x.1 b.1 /\ x.2 = b.2) (lru_run (made some_config) some_calls)
    (a_run (newLists (made some_config)) some_calls).
Proof. apply (lru_refines_lists some_config); [apply some_config_valid|reflexivity]. Defined.

Lemma lru_within_capacity_witness :
  let '(total, cap) := Occupancy (run_of (made some_config) some_calls).1 in
  0 <= total <= cap /\ 0 < cap <= 5 /\ 5 < cap + count (run_of (made some_config) some_calls).1.
Proof.
  assert (finishes (made some_config) some_calls = true) as Hf by (vm_compute; reflexivity).
  destruct (lru_within_capacity some_config (made some_config) some_calls _ _ some_config_valid eq_refl
    (run_of_Done _ _ Hf)) as [_ Hocc].
  exact Hocc.
Defined.

Lemma lru_never_panics_witness :
  lru_run (made some_config) some_calls = Blocks \/
  exists lru' outs, lru_run (made some_config) some_calls = Done (lru', outs).
Proof.
  apply (lru_never_panics some_config); [apply some_config_valid|reflexivity|cbn; lia|].
  repeat constructor; cbn; lia.
Defined.

Lemma sweep_bounds_staleness_witness :
  exists s x e, shards (run_of (made some_config) (some_calls ++ [CallRound 0 (EvTick 1040)])).1 !! 0%nat = Some s /\
    cache s !! 8 = Some x /\ heap (memory (run_of (made some_config) (some_calls ++ [CallRound 0 (EvTick 1040)])).1) !! x = Some e /\
    1040 - 1000 ÷ 10 < e_expiry e.
Proof.
  assert (finishes (made some_config) (some_calls ++ [CallRound 0 (EvTick 1040)]) = true) as Hf
    by (vm_compute; reflexivity).
  pose proof (run_of_Done _ _ Hf) as Hrun.
  eexists _, _, _. split; [vm_compute; reflexivity|]. split; [vm_compute; reflexivity|].
  split; [vm_compute; reflexivity|].
  eapply (sweep_bounds_staleness some_config (made some_config) some_calls 0 1040 0 _ _ _ 8 _ _
    some_config_valid eq_refl) with (3 := Hrun).
  - cbn. lia.
  - cbn [timely some_calls access app TTL some_config]. change (1000 ÷ 10) with 100. lia.
  - vm_compute. reflexivity.
  - vm_compute. reflexivity.
  - vm_compute. reflexivity.
Defined.

(** A shard whose queue of notifications has been filled. *)
Lemma implements_stuffed lru al i s c :
  implements lru al -> shards lru !! i = Some s ->
  exists al', implements (mkLRU (<[i := with_evictCh c s]> (shards lru)) (memory lru)) al'.
Proof.
  intros Himp Hs. pose proof (implements_lookup lru al i Himp) as [_ Hi]. rewrite Hs in Hi.
  destruct (al !! i) as [a|] eqn:Ea; [|done]. destruct Hi as (ls & l & _ & _ & _ & -> & _ & _).
  eexists. apply (implements_step lru al i s _ (with_evictCh c s) (memory lru) (abs (with_evictCh c s) l.*2) Himp Hs Ea).
  intros l' Hl Hloc Hb. exists l'. split; [by apply local_with_evictCh|]. split; [apply framed_refl|].
  split; [|done]. injection Hl as Hl. unfold abs. by rewrite Hl.
Qed.

(** A cache of one entry, its queue of notifications full, and an access to another key. *)
Definition tiny : LRUConfig := mkLRUConfig 1 1000 1.
Definition tiny_calls : list lru_call := access "k" 2 0 0 None ++ [CallPublish "k" 5000 0 0].
Definition tiny_lru : LeastRecentlyUsed := (run_of (made tiny) tiny_calls).1.
Definition tiny_shard : lruShard := default (newShard 1 1000) (shards tiny_lru !! 0%nat).
Definition stuffed : chan evictMsg := mkChan (replicate 4096 (mkEvictMsg "k" ReasonCapacity)) 4096.
Definition stuffed_lru : LeastRecentlyUsed :=
  mkLRU (<[0%nat := with_evictCh stuffed tiny_shard]> (shards tiny_lru)) (memory tiny_lru).

Lemma eviction_self_deadlock_witness :
  lru_do stuffed_lru (CallRound 0 (EvSeen 0 0 None)) = Blocks.
Proof.
  assert (lru_run (made tiny) tiny_calls = Done (tiny_lru, (run_of (made tiny) tiny_calls).2)) as Hrun.
  { apply run_of_Done. vm_compute. reflexivity. }
  assert (valid_config tiny) as Hv by (unfold valid_config; cbn; lia).
  destruct (run_implements tiny (made tiny) tiny_calls _ _ Hv eq_refl Hrun) as (al & _ & Himp).
  destruct (implements_stuffed tiny_lru al 0 tiny_shard stuffed Himp) as [al' Himp'].
  { vm_compute. reflexivity. }
  apply (eviction_self_deadlock stuffed_lru al' 0 (with_evictCh stuffed tiny_shard) (mkLruMsg "k" 5000) [] 0 0 None Himp').
  - vm_compute. reflexivity.
  - vm_compute. discriminate.
  - vm_compute. reflexivity.
  - vm_compute. reflexivity.
  - vm_compute. reflexivity.
  - vm_compute. reflexivity.
Defined.

Lemma zero_ttl_panics_witness :
  lru_run (made (mkLRUConfig 5 0 2))
    [CallPublish "a" 7 0 3; CallRound (shardIndex (made (mkLRUConfig 5 0 2)) 7) (EvSeen 0 0 None)] = Panics.
Proof.
  apply (zero_ttl_panics (mkLRUConfig 5 0 2)); [unfold valid_config; cbn; lia|reflexivity|cbn; lia|lia].
Defined.

End EvictExamples.
