(* ===== verification/Engine.v ===== *)
(** * The storage engine (src/core/engine.go)

    The engine ties the map, the log, the clock and the evictor together.  It is modelled over
    the interfaces of [Iface], so the same definitions run with the log on disk or with
    [NopWal], with or without an evictor.  The pooled request objects are overwritten
    completely before use; the pooled snapshot entries are not, and are kept in the state of
    [recover]. *)

From S2P Require Import Prelude Kv ShardedMap MapTheory Fs Wal WalTheory Iface Writer Snap Evict.
Import Wal ShardedMap Writer Snap.
Import Evict(Reason(..)).

#[local] Open Scope Z_scope.

Module Engine.

Section Engine.
Context `{XXHash, Radix} {W C E : Type} `{Waler W} `{Clocker C} `{Evictor E}.

Record engine := mkEngine {
  sw : StorageWriter W C;
  evt : option E;
  nodeID : string;
  disableSnapshot : bool
}.

Definition hm (eng : engine) : ShardedMap.ShardedMap := sw_hm (sw eng).
Definition clock (eng : engine) : C := sw_clock (sw eng).
Definition wal (eng : engine) : W := sw_wal (sw eng).

Definition with_sw (eng : engine) (s : StorageWriter W C) : engine :=
  mkEngine s (evt eng) (nodeID eng) (disableSnapshot eng).

Definition with_evt (eng : engine) (f : E -> E) : engine :=
  mkEngine (sw eng) (f <$> evt eng) (nodeID eng) (disableSnapshot eng).

Definition with_clock (eng : engine) (c : C) : engine :=
  with_sw eng (NewStorageWriter (hm eng) (wal eng) c).

(** [Get] returns the data and whether the key holds a live record. *)
Definition Get (eng : engine) (key : string) : option slice * engine :=
  let hash := HashFunc key in
  match Load (hm eng) key hash with
  | Some iv =>
      if negb (Tombstone iv) then (Some (Data iv), with_evt eng (evt_Publish key hash))
      else (None, eng)
  | None => (None, eng)
  end.

Definition Set_ (eng : engine) (key : string) (value : slice) : option (result unit * engine) :=
  let hash := HashFunc key in
  let eng := with_evt eng (evt_Publish key hash) in
  match clk_Now (clock eng) with
  | None => None
  | Some (ts, c) =>
      let req := mkSet key value ts (nodeID eng) in
      match ApplySet (NewStorageWriter (hm eng) (wal eng) c) req with
      | None => None
      | Some (r, s) => Some (r, with_sw eng s)
      end
  end.

Definition Delete (eng : engine) (key : string) : option (bool * result unit * engine) :=
  let hash := HashFunc key in
  let live := match Load (hm eng) key hash with Some iv => negb (Tombstone iv) | None => false end in
  if negb live then Some (false, Ok tt, eng)
  else
    let eng := with_evt eng (evt_PublishDelete key hash) in
    match clk_Now (clock eng) with
    | None => None
    | Some (ts, c) =>
        let req := mkDelete key ts (nodeID eng) in
        match ApplyDelete (NewStorageWriter (hm eng) (wal eng) c) req with
        | None => None
        | Some (r, s) => Some (true, r, with_sw eng s)
        end
    end.

(** The eviction callback: capacity evictions drop the record from memory, expired ones leave
    a tombstone; both are logged as deletes. *)
Definition Evict (eng : engine) (key : string) (reason : Reason) : option (result unit * engine) :=
  let hash := HashFunc key in
  match clk_Now (clock eng) with
  | None => None
  | Some (ts, c) =>
      let hm' := match reason with
                 | ReasonCapacity => ShardedMap.Delete (hm eng) key hash
                 | ReasonTTL => Store (hm eng) key hash (mkValue (nodeID eng) None ts true 0)
                 end in
      match wal_Publish key hash (MDelete (mkDelete key ts (nodeID eng))) (wal eng) with
      | None => None
      | Some (r, w) => Some (r, with_sw eng (NewStorageWriter hm' w c))
      end
  end.

Definition EngineApplySet (eng : engine) (req : SetRequest) : option (result unit * engine) :=
  match ApplySet (sw eng) req with None => None | Some (r, s) => Some (r, with_sw eng s) end.

Definition EngineApplyDelete (eng : engine) (req : DeleteRequest) : option (result unit * engine) :=
  match ApplyDelete (sw eng) req with None => None | Some (r, s) => Some (r, with_sw eng s) end.

(** ** Recovery *)

(** The fields [recover] clears before it gives an entry back to the pool. *)
Definition releaseEntry (e : SnapshotEntry) : SnapshotEntry :=
  mkEntry EmptyString None (se_Timestamp e) EmptyString (se_Tombstone e).

(** The decoding loop.  [pooled] is the object the pool would hand out; [reuse] says at each
    round whether it does, or makes a new one.  A list shorter than the stream means that
    the pool returns what was put last, which is what it does when nothing interferes. *)
Fixpoint loadSnapshot (ms : list gobMsg) (reuse : list bool) (pooled : SnapshotEntry)
    (hm : ShardedMap.ShardedMap) : ShardedMap.ShardedMap :=
  match ms with
  | [] => hm
  | m :: ms' =>
      let obj := if default true (head reuse) then pooled else emptyEntry in
      let entry := gobInto m obj in
      let v := mkValue (se_NodeID entry) (se_Data entry) (se_Timestamp entry) (se_Tombstone entry) 0 in
      loadSnapshot ms' (tail reuse) (releaseEntry entry)
        (Store hm (se_Key entry) (HashFunc (se_Key entry)) v)
  end.

(** Merging the replayed updates; a Go map is ranged over in no particular order. *)
Definition applyUpdates (hm : ShardedMap.ShardedMap) (updates : gmap string Value)
    : ShardedMap.ShardedMap :=
  merge_all hm (map_to_list updates).

(** [recover]; [snapshot] is the decoded file, absent when there is none or it is empty, with
    whether the stream ended cleanly. *)
Definition recover (sw : StorageWriter W C) (snapshot : option (list gobMsg * bool))
    (reuse : list bool) : option (result unit * StorageWriter W C) :=
  let '(loaded, ok) :=
    match snapshot with
    | None => (sw_hm sw, true)
    | Some (ms, clean) => (loadSnapshot ms reuse emptyEntry (sw_hm sw), clean)
    end in
  let sw := NewStorageWriter loaded (sw_wal sw) (sw_clock sw) in
  if negb ok then Some (Err (ErrMsg "decode snapshot"), sw)
  else
    match wal_Replay (sw_wal sw) with
    | None => None
    | Some (_, Err e, w) => Some (Err e, NewStorageWriter loaded w (sw_clock sw))
    | Some (updates, Ok _, w) =>
        Some (Ok tt, NewStorageWriter (applyUpdates loaded updates) w (sw_clock sw))
    end.

(** [NewEngine] with the log and the clock already made: recovery runs only when snapshots
    are on and a snapshot path is set, and its error is only logged. *)
Definition NewEngine (w : W) (c : C) (e : option E) (node snpPath : string) (noSnapshot : bool)
    (snapshot : option (list gobMsg * bool)) (reuse : list bool) : option engine :=
  let s := NewStorageWriter NewShardedMap w c in
  if negb noSnapshot && negb (bool_decide (snpPath = EmptyString)) then
    match recover s snapshot reuse with
    | None => None
    | Some (_, s) => Some (mkEngine s e node noSnapshot)
    end
  else Some (mkEngine s e node noSnapshot).

(** The messages the encoder callback writes: one per record of the map, tombstones too. *)
Definition stateTransferEncoder (hm : ShardedMap.ShardedMap) : list gobMsg :=
  (fun '(k, v) => gobFields (mkEntry k (Data v) (Timestamp v) (NodeID v) (Tombstone v))) <$> entries hm.

End Engine.
#[global] Arguments engine {_} W C E.

End Engine.
