(* ===== verification/EngineTheory.v ===== *)
(** * What the engine guarantees to its clients

    A client of one engine sees a plain map; what was acknowledged survives a restart; and
    where the code does not keep these promises, theorems that say so. *)

From S2P Require Import Prelude Kv Clock ShardedMap MapTheory Fs Wal WalTheory Iface Writer Snap Evict EvictTheory Engine.
Import Wal ShardedMap Writer Snap Engine.
Import Evict(Reason(..)).

#[local] Open Scope Z_scope.

Section Theory.
Context `{HX : XXHash} `{HR : Radix} `{!XXHashLaws} `{!RadixLaws}.
Context {W C E : Type} `{HW : Waler W} `{HC : Clocker C} `{HE : Evictor E} `{!ClockerLaws C}.
Implicit Types (eng : engine W C E) (m : gmap string Value).

(** ** The client's view *)

(** The data of a live record. *)
Definition live_data (v : Value) : option slice := if Tombstone v then None else Some (Data v).
Definition live m : gmap string slice := omap live_data m.

Inductive client_op :=
| CGet (key : string)
| CSet (key : string) (value : slice)
| CDelete (key : string)
| CEvict (key : string) (reason : Reason).

(** What the client learns besides the error of the log. *)
Inductive answer := AGet (r : option slice) | ASet | ADelete (existed : bool) | AEvict.

Definition client_step eng (o : client_op) : option (answer * result unit * engine W C E) :=
  match o with
  | CGet k => let '(r, eng') := Get eng k in Some (AGet r, Ok tt, eng')
  | CSet k v => match Set_ eng k v with Some (r, eng') => Some (ASet, r, eng') | None => None end
  | CDelete k =>
      match Delete eng k with Some (b, r, eng') => Some (ADelete b, r, eng') | None => None end
  | CEvict k why => match Evict eng k why with Some (r, eng') => Some (AEvict, r, eng') | None => None end
  end.

(** The abstract store. *)
Definition spec_client (st : gmap string slice) (o : client_op) : answer * gmap string slice :=
  match o with
  | CGet k => (AGet (st !! k), st)
  | CSet k v => (ASet, <[k := v]> st)
  | CDelete k => (ADelete (bool_decide (is_Some (st !! k))), delete k st)
  | CEvict k _ => (AEvict, delete k st)
  end.

Fixpoint run_client eng (ops : list client_op) : option (list (answer * result unit) * engine W C E) :=
  match ops with
  | [] => Some ([], eng)
  | o :: ops' =>
      match client_step eng o with
      | None => None
      | Some (a, r, eng1) =>
          match run_client eng1 ops' with
          | None => None
          | Some (rs, eng2) => Some ((a, r) :: rs, eng2)
          end
      end
  end.

Fixpoint run_spec (st : gmap string slice) (ops : list client_op) : list answer * gmap string slice :=
  match ops with
  | [] => ([], st)
  | o :: ops' => let '(a, st1) := spec_client st o in
                 let '(rs, st2) := run_spec st1 ops' in (a :: rs, st2)
  end.

(** The engine holds the records [m], and its clock is not behind any of them. *)
Record eng_ok eng m : Prop := {
  eo_map : represents (hm eng) m;
  eo_clock : clk_ok (clock eng);
  eo_behind : map_Forall (fun _ v => Timestamp v <= clk_last (clock eng)) m
}.

Lemma lwwWins_newer a b : Timestamp a < Timestamp b -> lwwWins a b = true.
Proof.
  intros Hlt. unfold lwwWins. destruct (Z.eqb_spec (Timestamp a) (Timestamp b)); [lia|]. cbn. lia.
Qed.

Lemma spec_StoreLWW_newer m k v :
  (forall e, m !! k = Some e -> Timestamp e < Timestamp v) ->
  lww_accepts (m !! k) (stamp k v) = true /\ spec_StoreLWW m k v = <[k := stamp k v]> m.
Proof.
  intros Hnew. unfold spec_StoreLWW, lww_join, lww_accepts. destruct (m !! k) as [e|] eqn:Ek; [|done].
  rewrite lwwWins_newer; [done|]. cbn. by apply Hnew.
Qed.

(** What a request stamped by the engine's own clock does. *)
Lemma local_request eng m k ts c (o : walOp) r s' :
  eng_ok eng m -> clk_Now (clock eng) = Some (ts, c) ->
  op_key o = k -> Timestamp (op_value o) = ts ->
  ApplyOp (NewStorageWriter (hm eng) (wal eng) c) o = Some (r, s') ->
  ~ clk_saturated (sw_clock s') ->
  represents (sw_hm s') (<[k := stamp k (op_value o)]> m) /\ clk_ok (sw_clock s') /\
  clk_last (clock eng) < ts /\ ts <= clk_last (sw_clock s') /\
  exists published, wal_Publish k (HashFunc k) (op_message o) (wal eng) = Some (published, sw_wal s') /\
    (published = Ok tt -> r = Ok tt).
Proof.
  intros [Hm Hc Hb] Hnow Hk Hts Ha Hsat.
  destruct (clk_Now_law _ _ _ Hc Hnow) as (Hc1 & Hrange & Hle1 & Hts1).
  assert (clk_Update ts c = Some (sw_clock s')) as Hup.
  { destruct o; cbn [ApplyOp] in Ha; eapply apply_spec in Ha as (_ & Hu & _); try exact Hm;
      cbn in Hts, Hu; by subst. }
  destruct (clk_Update_law _ _ _ Hrange Hc1 Hup) as (Hc2 & Hle2 & _).
  destruct Hts1 as [Hs|[Hlt Hts1]]; [by destruct Hsat; eapply clk_saturated_mono|].
  assert (forall e, m !! k = Some e -> Timestamp e < Timestamp (op_value o)) as Hnew
    by (intros e He; specialize (Hb k e He); cbn in Hb; lia).
  destruct (spec_StoreLWW_newer m k (op_value o) Hnew) as [Hacc Hst].
  assert (represents (sw_hm s') (<[k := stamp k (op_value o)]> m)) as Hm'.
  { apply (ApplyOp_spec _ m) in Ha; [|exact Hm]. by rewrite Hk, Hst in Ha. }
  split; [done|]. split; [done|]. split; [done|]. split; [lia|].
  destruct o; cbn [ApplyOp op_key op_value op_message] in *; subst k;
    eapply apply_spec in Ha as (_ & _ & Ha); try exact Hm; rewrite Hacc in Ha;
    destruct Ha as (p & Hp & ->); exists p; (split; [exact Hp|by intros ->]).
Qed.

Lemma live_lookup m k : live m !! k = m !! k ≫= live_data.
Proof. apply lookup_omap. Qed.

Lemma live_insert m k v d : live_data v = Some d -> live (<[k := v]> m) = <[k := d]> (live m).
Proof. intros Hv. apply omap_insert_Some. done. Qed.

Lemma live_insert_dead m k v : live_data v = None -> live (<[k := v]> m) = delete k (live m).
Proof. apply omap_insert_None. Qed.

Lemma live_delete m k : live (delete k m) = delete k (live m).
Proof. apply map_eq. intros j. rewrite live_lookup, !lookup_delete, live_lookup. by case_decide. Qed.

(** [Load] and liveness, as [Get] and [Delete] test it. *)
Lemma Load_live eng m k :
  represents (hm eng) m ->
  match Load (hm eng) k (HashFunc k) with
  | Some iv => if Tombstone iv then live m !! k = None else live m !! k = Some (Data iv)
  | None => live m !! k = None
  end.
Proof.
  intros Hm. destruct (Load_represents _ _ k Hm) as [-> _]. rewrite live_lookup.
  destruct (m !! k) as [v|]; [|done]. cbn. unfold live_data. by destruct (Tombstone v).
Qed.

Lemma eng_ok_insert eng m k v s' ts eng' :
  eng_ok eng m -> represents (sw_hm s') (<[k := stamp k v]> m) -> clk_ok (sw_clock s') ->
  clk_last (clock eng) < ts -> ts <= clk_last (sw_clock s') -> Timestamp v = ts ->
  sw eng' = s' -> eng_ok eng' (<[k := stamp k v]> m).
Proof.
  intros [_ _ Hb] Hm Hc H1 H2 Hts <-. constructor; [done..|].
  unfold clock in *. apply map_Forall_insert_2.
  - change (Timestamp (stamp k v)) with (Timestamp v). lia.
  - eapply map_Forall_impl; [exact Hb|]. cbn. lia.
Qed.

Lemma Get_ok eng m k r eng' :
  eng_ok eng m -> Get eng k = (r, eng') -> eng_ok eng' m /\ r = live m !! k /\ sw eng' = sw eng.
Proof.
  intros [Hm Hc Hb] Hg. unfold Get in Hg. pose proof (Load_live eng m k Hm) as Hl.
  destruct (Load (hm eng) k (HashFunc k)) as [iv|]; [destruct (Tombstone iv)|]; cbn in Hg;
    injection Hg as <- <-; (split; [by constructor|]); by rewrite Hl.
Qed.

Lemma Set_ok eng m k v r eng' :
  eng_ok eng m -> Set_ eng k v = Some (r, eng') -> ~ clk_saturated (clock eng') ->
  exists ts, let o := WalEntry_Set (mkSet k v ts (nodeID eng)) in
    fst <$> clk_Now (clock eng) = Some ts /\
    eng_ok eng' (<[k := stamp k (op_value o)]> m) /\ clk_last (clock eng) < ts /\
    ts <= clk_last (clock eng') /\
    exists published, wal_Publish k (HashFunc k) (op_message o) (wal eng) = Some (published, wal eng') /\
      (published = Ok tt -> r = Ok tt).
Proof.
  intros Hok Hset Hsat. unfold Set_ in Hset.
  change (clock (with_evt eng (evt_Publish k (HashFunc k)))) with (clock eng) in Hset.
  destruct (clk_Now (clock eng)) as [[ts c]|] eqn:En; [|done].
  change (NewStorageWriter _ _ c) with (NewStorageWriter (hm eng) (wal eng) c) in Hset.
  destruct (ApplySet _ _) as [[r1 s']|] eqn:Ea; [|done]. injection Hset as -> <-.
  destruct (local_request eng m k ts c (WalEntry_Set (mkSet k v ts (nodeID eng))) r s' Hok En)
    as (Hm' & Hc' & H1 & H2 & Hp); [done..|].
  exists ts. split; [done|]. split; [by eapply eng_ok_insert|]. done.
Qed.

Lemma Delete_client_ok eng m k b r eng' :
  eng_ok eng m -> Delete eng k = Some (b, r, eng') -> ~ clk_saturated (clock eng') ->
  b = bool_decide (is_Some (live m !! k)) /\
  if b then
    exists ts, let o := WalEntry_Delete (mkDelete k ts (nodeID eng)) in
      fst <$> clk_Now (clock eng) = Some ts /\
      eng_ok eng' (<[k := stamp k (op_value o)]> m) /\ clk_last (clock eng) < ts /\
      ts <= clk_last (clock eng') /\
      exists published, wal_Publish k (HashFunc k) (op_message o) (wal eng) = Some (published, wal eng') /\
        (published = Ok tt -> r = Ok tt)
  else eng' = eng.
Proof.
  intros Hok Hdel Hsat. unfold Delete in Hdel. pose proof (Load_live eng m k (eo_map _ _ Hok)) as Hl.
  assert ((match Load (hm eng) k (HashFunc k) with Some iv => negb (Tombstone iv) | None => false end)
    = bool_decide (is_Some (live m !! k))) as Hlive.
  { destruct (Load (hm eng) k (HashFunc k)) as [iv|]; [destruct (Tombstone iv)|]; rewrite Hl; done. }
  rewrite Hlive in Hdel. destruct (bool_decide (is_Some (live m !! k))); cbn [negb] in Hdel;
    [|by injection Hdel as <- _ <-].
  change (clock (with_evt eng (evt_PublishDelete k (HashFunc k)))) with (clock eng) in Hdel.
  destruct (clk_Now (clock eng)) as [[ts c]|] eqn:En; [|done].
  change (NewStorageWriter _ _ c) with (NewStorageWriter (hm eng) (wal eng) c) in Hdel.
  destruct (ApplyDelete _ _) as [[r1 s']|] eqn:Ea; [|done]. injection Hdel as <- -> <-.
  destruct (local_request eng m k ts c (WalEntry_Delete (mkDelete k ts (nodeID eng))) r s' Hok En)
    as (Hm' & Hc' & H1 & H2 & Hp); [done..|].
  split; [done|]. exists ts. split; [done|]. split; [by eapply eng_ok_insert|]. done.
Qed.

Lemma Evict_ok eng m k why r eng' :
  eng_ok eng m -> Evict eng k why = Some (r, eng') -> ~ clk_saturated (clock eng') ->
  exists ts m', fst <$> clk_Now (clock eng) = Some ts /\
    eng_ok eng' m' /\ live m' = delete k (live m) /\
    clk_last (clock eng) < ts /\ ts <= clk_last (clock eng') /\
    wal_Publish k (HashFunc k) (MDelete (mkDelete k ts (nodeID eng))) (wal eng) = Some (r, wal eng').
Proof.
  intros [Hm Hc Hb] Hev Hsat. unfold Evict in Hev.
  destruct (clk_Now (clock eng)) as [[ts c]|] eqn:En; [|done].
  destruct (wal_Publish _ _ _ _) as [[r1 w]|] eqn:Ew; [|done]. injection Hev as -> <-.
  destruct (clk_Now_law _ _ _ Hc En) as (Hc1 & Hrange & Hle1 & [Hs|[Hlt Hts1]]); [done|].
  assert (forall m', map_Forall (fun _ v => Timestamp v <= clk_last (clock eng)) m' ->
    map_Forall (fun _ v => Timestamp v <= clk_last c) m') as Hmono
    by (intros m' Hf; eapply map_Forall_impl; [exact Hf|]; cbn; lia).
  exists ts. destruct why.
  - exists (spec_Store m k (mkValue (nodeID eng) None ts true 0)). split_and!; try done.
    + constructor; [by apply Store_represents|done|].
      apply map_Forall_insert_2; [done|by apply Hmono].
    + by apply live_insert_dead.
  - exists (spec_Delete m k). split_and!; try done.
    + constructor; [by apply Delete_represents|done|]. apply Hmono. by apply map_Forall_delete.
    + apply live_delete.
Qed.

(** The clock only advances, saturated or not. *)
Lemma apply_clock (s : StorageWriter W C) key ts v msg ctx r s' :
  apply s key ts v msg ctx = Some (r, s') -> clk_Update ts (sw_clock s) = Some (sw_clock s').
Proof.
  unfold apply. destruct (clk_Update ts (sw_clock s)) as [c|]; [|done]. ored.
  destruct (StoreLWW _ _ _ _) as [[] h]; cbn [negb].
  - destruct (wal_Publish _ _ _ _) as [[[] w]|]; [..|done]; intros Heq; injection Heq as _ <-; done.
  - intros Heq. injection Heq as _ <-. done.
Qed.

Lemma stamped_clock c ts c1 c2 :
  clk_ok c -> clk_Now c = Some (ts, c1) -> clk_Update ts c1 = Some c2 ->
  clk_ok c2 /\ clk_last c <= clk_last c2.
Proof.
  intros Hc Hn Hu. destruct (clk_Now_law _ _ _ Hc Hn) as (Hc1 & Hr & H1 & _).
  destruct (clk_Update_law _ _ _ Hr Hc1 Hu) as (Hc2 & H2 & _). split; [done|lia].
Qed.

Lemma client_step_clock eng o a r eng' :
  clk_ok (clock eng) -> client_step eng o = Some (a, r, eng') ->
  clk_ok (clock eng') /\ clk_last (clock eng) <= clk_last (clock eng').
Proof.
  intros Hc Hs. destruct o as [k|k v|k|k why]; cbn [client_step] in Hs.
  - unfold Get in Hs. destruct (Load _ _ _) as [iv|]; [destruct (negb _)|];
      injection Hs as _ _ <-; split; (done || apply Z.le_refl).
  - unfold Set_ in Hs. destruct (clk_Now _) as [[ts c]|] eqn:En; [|done].
    destruct (ApplySet _ _) as [[r1 s']|] eqn:Ea; [|done]. injection Hs as _ _ <-.
    by apply apply_clock in Ea; eapply stamped_clock.
  - unfold Delete in Hs. destruct (negb _); [injection Hs as _ _ <-; split; (done || apply Z.le_refl)|].
    destruct (clk_Now _) as [[ts c]|] eqn:En; [|done].
    destruct (ApplyDelete _ _) as [[r1 s']|] eqn:Ea; [|done]. injection Hs as _ _ <-.
    by apply apply_clock in Ea; eapply stamped_clock.
  - unfold Evict in Hs. destruct (clk_Now _) as [[ts c]|] eqn:En; [|done].
    destruct (wal_Publish _ _ _ _) as [[r1 w]|]; [|done]. injection Hs as _ _ <-.
    destruct (clk_Now_law _ _ _ Hc En) as (? & _ & ? & _). done.
Qed.

Lemma run_client_clock eng ops rs eng' :
  clk_ok (clock eng) -> run_client eng ops = Some (rs, eng') ->
  clk_ok (clock eng') /\ clk_last (clock eng) <= clk_last (clock eng').
Proof.
  revert eng rs. induction ops as [|o ops IH]; intros eng rs Hc Hrun; cbn [run_client] in Hrun.
  { injection Hrun as _ <-. split; [done|apply Z.le_refl]. }
  destruct (client_step eng o) as [[[a r] eng1]|] eqn:Es; [|done].
  destruct (run_client eng1 ops) as [[rs' eng2]|] eqn:Er; [|done]. injection Hrun as _ <-.
  destruct (client_step_clock _ _ _ _ _ Hc Es) as [Hc1 H1].
  destruct (IH _ _ Hc1 Er) as [Hc2 H2]. split; [done|lia].
Qed.

(** One call: the engine and the abstract store move together. *)
Lemma client_step_ok eng m o a r eng' :
  eng_ok eng m -> client_step eng o = Some (a, r, eng') -> ~ clk_saturated (clock eng') ->
  exists m', eng_ok eng' m' /\ spec_client (live m) o = (a, live m').
Proof.
  intros Hok Hs Hsat. destruct o as [k|k v|k|k why]; cbn [client_step spec_client] in *.
  - destruct (Get eng k) as [res eng1] eqn:Eg. injection Hs as <- _ <-.
    destruct (Get_ok _ _ _ _ _ Hok Eg) as (? & -> & _). by exists m.
  - destruct (Set_ eng k v) as [[r1 eng1]|] eqn:Es; [|done]. injection Hs as <- _ <-.
    destruct (Set_ok _ _ _ _ _ _ Hok Es Hsat) as (ts & _ & Hok' & _). eexists. split; [exact Hok'|].
    rewrite (live_insert _ _ _ v); [done|]. cbn. by destruct v.
  - destruct (Delete eng k) as [[[b r1] eng1]|] eqn:Es; [|done]. injection Hs as <- _ <-.
    destruct (Delete_client_ok _ _ _ _ _ _ Hok Es Hsat) as (Hb & Hrest). subst b.
    destruct (bool_decide (is_Some (live m !! k))) eqn:Ed.
    + destruct Hrest as (ts & _ & Hok' & _). eexists. split; [exact Hok'|]. by rewrite live_insert_dead.
    + subst eng1. exists m. split; [done|]. rewrite delete_id; [done|].
      apply bool_decide_eq_false in Ed. by apply eq_None_not_Some.
  - destruct (Evict eng k why) as [[r1 eng1]|] eqn:Es; [|done]. injection Hs as <- _ <-.
    destruct (Evict_ok _ _ _ _ _ _ Hok Es Hsat) as (ts & m' & _ & Hok' & Hl & _).
    exists m'. split; [done|]. by rewrite Hl.
Qed.

Lemma run_client_ok eng m ops rs eng' :
  eng_ok eng m -> run_client eng ops = Some (rs, eng') -> ~ clk_saturated (clock eng') ->
  exists m', eng_ok eng' m' /\ run_spec (live m) ops = (rs.*1, live m').
Proof.
  revert eng m rs. induction ops as [|o ops IH]; intros eng m rs Hok Hrun Hsat; cbn [run_client] in Hrun.
  { injection Hrun as <- <-. by exists m. }
  destruct (client_step eng o) as [[[a r] eng1]|] eqn:Es; [|done].
  destruct (run_client eng1 ops) as [[rs' eng2]|] eqn:Er; [|done]. injection Hrun as <- <-.
  assert (~ clk_saturated (clock eng1)) as Hsat1.
  { destruct (client_step_clock _ _ _ _ _ (eo_clock _ _ Hok) Es) as [Hc1 _].
    destruct (run_client_clock _ _ _ _ Hc1 Er) as [_ Hle]. intros Hs. apply Hsat.
    by eapply clk_saturated_mono. }
  destruct (client_step_ok _ _ _ _ _ _ Hok Es Hsat1) as (m1 & Hok1 & Hspec).
  destruct (IH _ _ _ Hok1 Er Hsat) as (m2 & Hok2 & Hspec2).
  exists m2. split; [done|]. cbn [run_spec]. rewrite Hspec, Hspec2. done.
Qed.

(** C1. A client of one engine sees a plain map: for any calls of [Get], [Set], [Delete] and
    eviction callbacks, every [Get] returns the last value set and not since deleted or
    evicted, and every [Delete] tells whether there was one, whatever the log reports and
    whatever the evictor is; the engine must start with a clock not behind its records and
    the clock must not run out. *)
Theorem engine_refines_map eng m ops rs eng' :
  eng_ok eng m -> run_client eng ops = Some (rs, eng') -> ~ clk_saturated (clock eng') ->
  rs.*1 = (run_spec (live m) ops).1 /\
  forall k, (Get eng' k).1 = (run_spec (live m) ops).2 !! k.
Proof.
  intros Hok Hrun Hsat. destruct (run_client_ok _ _ _ _ _ Hok Hrun Hsat) as (m' & Hok' & ->).
  split; [done|]. intros k. destruct (Get eng' k) as [r e] eqn:Eg.
  by destruct (Get_ok _ _ _ _ _ Hok' Eg) as (_ & -> & _).
Qed.

(** A write can be lost silently: when the record of a key carries a timestamp above the
    one the clock issues (the clock ignores remote timestamps more than five seconds ahead,
    but the writer stores their records), [Set] reports success, changes nothing and logs
    nothing. *)
Theorem shadowed_set_reports_success eng m k v ts c old r eng' :
  represents (hm eng) m -> m !! k = Some old -> clk_Now (clock eng) = Some (ts, c) ->
  ts < Timestamp old -> Set_ eng k v = Some (r, eng') ->
  r = Ok tt /\ (Get eng' k).1 = (Get eng k).1 /\ wal eng' = wal eng.
Proof.
  intros Hm Hk Hn Hlt Hs. unfold Set_ in Hs.
  change (clock (with_evt eng (evt_Publish k (HashFunc k)))) with (clock eng) in Hs. rewrite Hn in Hs.
  change (NewStorageWriter _ _ c) with (NewStorageWriter (hm eng) (wal eng) c) in Hs.
  destruct (ApplySet _ _) as [[r1 s']|] eqn:Ea; [|done]. injection Hs as -> <-.
  unfold ApplySet in Ea. eapply apply_spec in Ea as (Hm' & _ & Hrest); [|exact Hm].
  cbn [set_Key set_Timestamp] in *. unfold lww_accepts, spec_StoreLWW, lww_join in *. rewrite Hk in *.
  assert (forall x, Timestamp x = ts -> lwwWins old x = false) as Hlose.
  { intros x Hx. unfold lwwWins. destruct (Z.eqb_spec (Timestamp old) (Timestamp x)); [lia|]. cbn. lia. }
  rewrite Hlose in Hrest, Hm' by done. destruct Hrest as [-> Hw]. rewrite insert_id in Hm' by done.
  split; [done|]. split; [|done]. unfold Get.
  change (hm (with_sw _ s')) with (sw_hm s').
  destruct (Load_represents _ _ k Hm') as [-> _]. destruct (Load_represents _ _ k Hm) as [-> _].
  rewrite Hk. cbn. by destruct (Tombstone old).
Qed.

(** ** Restarting *)

Section Restart.
Context `{HP : Proto} `{!ProtoLaws} `{!DurableWaler W HashFunc}.

(** The requests a call hands to the log. *)
Definition logged eng (o : client_op) : list walOp :=
  match clk_Now (clock eng) with
  | None => []
  | Some (ts, _) =>
      match o with
      | CGet _ => []
      | CSet k v => [WalEntry_Set (mkSet k v ts (nodeID eng))]
      | CDelete k =>
          match Load (hm eng) k (HashFunc k) with
          | Some iv => if Tombstone iv then [] else [WalEntry_Delete (mkDelete k ts (nodeID eng))]
          | None => []
          end
      | CEvict k _ => [WalEntry_Delete (mkDelete k ts (nodeID eng))]
      end
  end.

(** Whether the log acknowledges a request. *)
Definition acknowledged eng (x : walOp) : bool :=
  match wal_Publish (op_key x) (HashFunc (op_key x)) (op_message x) (wal eng) with Some (Ok _, _) => true | _ => false end.

Definition answered eng (o : client_op) : list (walOp * bool) := (fun x => (x, acknowledged eng x)) <$> logged eng o.

(** The requests that a run hands to the log, and which of them it acknowledges. *)
Fixpoint run_log eng (ops : list client_op) : list (walOp * bool) :=
  match ops with
  | [] => []
  | o :: ops' =>
      answered eng o ++ match client_step eng o with Some (_, _, eng') => run_log eng' ops' | None => [] end
  end.

(** The log acknowledged the last request about [k], if there was one. *)
Definition settled (k : string) (l : list (walOp * bool)) : bool :=
  default true (snd <$> last (filter (fun x => op_key x.1 = k) l)).

Lemma settled_snoc k l x :
  settled k (l ++ [x]) = if decide (op_key x.1 = k) then x.2 else settled k l.
Proof.
  unfold settled. rewrite filter_app, filter_cons, filter_nil. case_decide; [by rewrite last_snoc|by rewrite app_nil_r].
Qed.

Definition replayed (ops : list walOp) : gmap string Value := foldl applyEntry ∅ (op_entry <$> ops).

(** The bytes of a live record: what a client can tell after a restart, which does not
    distinguish a nil value from an empty one. *)
Definition live_bytes (v : Value) : option bytes := slice_bytes <$> live_data v.

(** The log keeps [log] of the requests [l]: it describes the store [st] at the keys whose last
    request was acknowledged, and no entry is ahead of the clock. *)
Definition describes (log : list walOp) (l : list (walOp * bool)) (st : gmap string slice) (last : Z) : Prop :=
  forall k, (settled k l = true -> (replayed log !! k ≫= live_bytes) = slice_bytes <$> st !! k) /\
            forall v, replayed log !! k = Some v -> Timestamp v <= last.

Lemma replayed_snoc ops o : replayed (ops ++ [o]) = applyEntry (replayed ops) (op_entry o).
Proof. unfold replayed. by rewrite fmap_app, foldl_app. Qed.

(** A newer entry decides its key; a refused one only unsettles it. *)
Lemma describes_newer log log' l st last o b st' last' d :
  describes log l st last -> last < entry_ts (op_entry o) -> entry_ts (op_entry o) <= last' ->
  live_bytes (entry_value (op_entry o)) = d ->
  (forall k, slice_bytes <$> st' !! k =
     if decide (op_key o = k) then d else slice_bytes <$> st !! k) ->
  log' = log ++ [o] \/ b = false /\ log' = log ->
  describes log' (l ++ [(o, b)]) st' last'.
Proof.
  intros Hd Hlt Hle Hv Hst Hlog k. rewrite settled_snoc. cbn [fst snd]. destruct (Hd k) as [Hd1 Hd2].
  destruct Hlog as [->|[-> ->]].
  2: { split; [|intros v Hv'; specialize (Hd2 v Hv'); lia]. destruct (decide (op_key o = k)); [done|]. by rewrite Hst, decide_False. }
  rewrite replayed_snoc, applyEntry_lookup, op_entry_key, Hst.
  destruct (decide (Some (op_key o) = Some k)) as [[= ->]|Hne].
  - rewrite !decide_True by done.
    assert (match replayed log !! k with
            | Some v => if Timestamp v <? entry_ts (op_entry o) then Some (entry_value (op_entry o)) else Some v
            | None => Some (entry_value (op_entry o)) end = Some (entry_value (op_entry o))) as ->.
    { destruct (replayed log !! k) as [v|]; [|done]. specialize (Hd2 v eq_refl).
      destruct (Z.ltb_spec (Timestamp v) (entry_ts (op_entry o))); [done|lia]. }
    split; [done|]. intros v [= <-]. by rewrite (entry_value_ts _ _ (op_entry_key o)).
  - rewrite !decide_False by congruence. split; [done|]. intros v Hv'. specialize (Hd2 v Hv'). lia.
Qed.

Lemma describes_set log log' l st last k v ts node b last' :
  describes log l st last -> last < ts -> ts <= last' ->
  let o := WalEntry_Set (mkSet k v ts node) in
  log' = log ++ [o] \/ b = false /\ log' = log -> describes log' (l ++ [(o, b)]) (<[k := v]> st) last'.
Proof.
  intros Hd Hd1 Hd2 o Hlog. subst o. eapply (describes_newer _ _ _ _ _ _ _ _ _ (Some (slice_bytes v))); try done.
  - cbn. by destruct v as [[]|].
  - intros j. cbn [op_key set_Key]. rewrite lookup_insert. by case_decide.
Qed.

Lemma describes_delete log log' l st last k ts node b last' :
  describes log l st last -> last < ts -> ts <= last' ->
  let o := WalEntry_Delete (mkDelete k ts node) in
  log' = log ++ [o] \/ b = false /\ log' = log -> describes log' (l ++ [(o, b)]) (delete k st) last'.
Proof.
  intros Hd Hd1 Hd2 o Hlog. subst o. eapply (describes_newer _ _ _ _ _ _ _ _ _ None); try done.
  intros j. cbn [op_key del_Key]. rewrite lookup_delete. by case_decide.
Qed.

(** A record that the log acknowledges is appended to what it keeps. *)
Lemma published eng eng' log k (x : walOp) r' :
  wal_rep (wal eng) log -> op_key x = k -> fits x ->
  wal_Publish k (HashFunc k) (op_message x) (wal eng) = Some (r', wal eng') ->
  (acknowledged eng x = true -> r' = Ok tt) /\
  exists log', wal_rep (wal eng') log' /\ (log' = log ++ [x] \/ acknowledged eng x = false /\ log' = log).
Proof.
  intros Hw <- Hfit Hrun. unfold acknowledged. rewrite Hrun. split; [by destruct r' as [[]|]|].
  destruct (wal_Publish_law _ _ (op_key x) _ _ _ Hw Hfit Hrun) as [Hw'|[Hr Hw']]; [eauto|].
  exists log. split; [done|]. right. by destruct r' as [[]|].
Qed.

(** A delete of a key that is not live logs nothing and succeeds. *)
Lemma delete_absent eng m k b r eng' :
  eng_ok eng m -> ~ is_Some (live m !! k) -> Delete eng k = Some (b, r, eng') ->
  logged eng (CDelete k) = [] /\ r = Ok tt.
Proof.
  intros Hok Hdead Es. pose proof (Load_live eng m k (eo_map _ _ Hok)) as Hl. unfold logged, Delete in *.
  destruct (Load (hm eng) k (HashFunc k)) as [iv|]; [destruct (Tombstone iv)|].
  - split; [by destruct (clk_Now (clock eng)) as [[]|]|by injection Es].
  - rewrite Hl in Hdead. by destruct Hdead.
  - split; [by destruct (clk_Now (clock eng)) as [[]|]|by injection Es].
Qed.

Lemma durable_step eng m o a r eng' log l :
  eng_ok eng m -> client_step eng o = Some (a, r, eng') -> ~ clk_saturated (clock eng') ->
  wal_rep (wal eng) log -> describes log l (live m) (clk_last (clock eng)) ->
  Forall (fun x => fits x.1) (answered eng o) ->
  (Forall (fun x => x.2 = true) (answered eng o) -> r = Ok tt) /\
  exists log', wal_rep (wal eng') log' /\
    describes log' (l ++ answered eng o) (spec_client (live m) o).2 (clk_last (clock eng')).
Proof.
  intros Hok Hs Hsat Hw Hd Henc. pose proof (fun k x r' => published eng eng' log k x r' Hw) as Hpub. unfold answered in *.
  destruct o as [k|k v|k|k why]; cbn [client_step spec_client snd] in *.
  - destruct (Get eng k) as [res eng1] eqn:Eg. injection Hs as _ <- <-.
    destruct (Get_ok _ _ _ _ _ Hok Eg) as (_ & _ & Hsw). unfold logged, wal, clock in *. rewrite Hsw in *.
    assert ((match clk_Now (sw_clock (sw eng)) with Some (ts, _) => [] | None => [] end : list walOp) = [])
      as -> by (by destruct (clk_Now _) as [[]|]).
    split; [done|]. exists log. cbn [fmap list_fmap]. by rewrite app_nil_r.
  - destruct (Set_ eng k v) as [[r1 eng1]|] eqn:Es; [|done]. injection Hs as _ <- <-.
    destruct (Set_ok _ _ _ _ _ _ Hok Es Hsat) as (ts & Hnow & _ & Hd1 & Hd2 & p & Hp & Hpr).
    apply fmap_Some in Hnow as ([ts' c] & Hnow & ->). unfold logged in *. rewrite Hnow in *. cbn [fst fmap list_fmap] in *.
    rewrite list.Forall_singleton in Henc |- *.
    destruct (Hpub k (WalEntry_Set (mkSet k v ts' (nodeID eng))) _ eq_refl Henc Hp) as [Hack (log' & Hw' & Hlog)].
    split; [auto|]. exists log'. split; [done|]. by apply (describes_set log _ _ _ (clk_last (clock eng))).
  - destruct (Delete eng k) as [[[b r1] eng1]|] eqn:Es; [|done]. injection Hs as _ <- <-.
    pose proof (Load_live eng m k (eo_map _ _ Hok)) as Hl.
    destruct (Delete_client_ok _ _ _ _ _ _ Hok Es Hsat) as (Hb & Hrest). unfold logged in *.
    destruct (decide (is_Some (live m !! k))) as [Hlive|Hdead].
    + rewrite bool_decide_true in Hb by done. subst b.
      destruct Hrest as (ts & Hnow & _ & Hd1 & Hd2 & p & Hp & Hpr).
      apply fmap_Some in Hnow as ([ts' c] & Hnow & ->). rewrite Hnow in *. cbn [fst] in *.
      destruct (Load (hm eng) k (HashFunc k)) as [iv|]; [|rewrite Hl in Hlive; by destruct Hlive].
      destruct (Tombstone iv); [rewrite Hl in Hlive; by destruct Hlive|]. cbn [fmap list_fmap] in *.
      rewrite list.Forall_singleton in Henc |- *.
      destruct (Hpub k (WalEntry_Delete (mkDelete k ts' (nodeID eng))) _ eq_refl Henc Hp) as [Hack (log' & Hw' & Hlog)].
      split; [auto|]. exists log'. split; [done|]. by apply (describes_delete log _ _ _ (clk_last (clock eng))).
    + rewrite bool_decide_false in Hb by done. subst b eng1. destruct (delete_absent _ _ _ _ _ _ Hok Hdead Es) as [Hlog ->].
      unfold logged in Hlog. rewrite Hlog. split; [done|]. exists log. cbn [fmap list_fmap].
      rewrite app_nil_r, delete_id by by apply eq_None_not_Some. done.
  - destruct (Evict eng k why) as [[r1 eng1]|] eqn:Es; [|done]. injection Hs as _ <- <-.
    destruct (Evict_ok _ _ _ _ _ _ Hok Es Hsat) as (ts & m' & Hnow & _ & _ & Hd1 & Hd2 & Hp).
    apply fmap_Some in Hnow as ([ts' c] & Hnow & ->). unfold logged in *. rewrite Hnow in *. cbn [fst fmap list_fmap] in *.
    rewrite list.Forall_singleton in Henc |- *.
    destruct (Hpub k (WalEntry_Delete (mkDelete k ts' (nodeID eng))) _ eq_refl Henc Hp) as [Hack (log' & Hw' & Hlog)].
    split; [done|]. exists log'. split; [done|]. by apply (describes_delete log _ _ _ (clk_last (clock eng))).
Qed.

Lemma durable_run eng m ops rs eng' log l :
  eng_ok eng m -> run_client eng ops = Some (rs, eng') -> ~ clk_saturated (clock eng') ->
  wal_rep (wal eng) log -> describes log l (live m) (clk_last (clock eng)) ->
  Forall (fun x => fits x.1) (run_log eng ops) ->
  (Forall (fun x => x.2 = true) (run_log eng ops) -> Forall (fun x => x.2 = Ok tt) rs) /\
  exists log', wal_rep (wal eng') log' /\
    describes log' (l ++ run_log eng ops) (run_spec (live m) ops).2 (clk_last (clock eng')).
Proof.
  revert eng m rs log l. induction ops as [|o ops IH]; intros eng m rs log l Hok Hrun Hsat Hw Hd Henc;
    cbn [run_client run_log] in *.
  { injection Hrun as <- <-. rewrite app_nil_r. split; [done|]. by exists log. }
  destruct (client_step eng o) as [[[a r] eng1]|] eqn:Es; [|done].
  destruct (run_client eng1 ops) as [[rs' eng2]|] eqn:Er; [|done]. injection Hrun as <- <-.
  apply Forall_app in Henc as [Henc1 Henc2].
  assert (~ clk_saturated (clock eng1)) as Hsat1.
  { destruct (client_step_clock _ _ _ _ _ (eo_clock _ _ Hok) Es) as [Hc1 _].
    destruct (run_client_clock _ _ _ _ Hc1 Er) as [_ Hle]. intros Hs. apply Hsat.
    by eapply clk_saturated_mono. }
  destruct (client_step_ok _ _ _ _ _ _ Hok Es Hsat1) as (m1 & Hok1 & Hspec).
  destruct (durable_step _ _ _ _ _ _ _ _ Hok Es Hsat1 Hw Hd Henc1) as (Hr & log1 & Hw1 & Hdd).
  rewrite Hspec in Hdd. cbn [snd] in Hdd.
  destruct (IH _ _ _ _ _ Hok1 Er Hsat Hw1 Hdd Henc2) as (Hrs & log2 & Hw2 & Hd2).
  rewrite (assoc_L (++)). split; [intros [Ha1 Ha2]%Forall_app; constructor; [by apply Hr|by apply Hrs]|].
  exists log2. split; [done|]. cbn [run_spec]. rewrite Hspec. by destruct (run_spec (live m1) ops).
Qed.

(** Merging distinct keys into an empty map stores each of them. *)
Lemma spec_merge_fresh m (l : list (string * Value)) k :
  NoDup l.*1 -> (forall j, j ∈ l.*1 -> m !! j = None) ->
  spec_merge m l !! k =
    match (list_to_map l : gmap string Value) !! k with Some v => Some (stamp k v) | None => m !! k end.
Proof.
  intros Hnd Hm. rewrite spec_merge_lookup by done.
  destruct ((list_to_map l : gmap string Value) !! k) as [v|] eqn:Ek; [|done].
  rewrite (Hm k); [done|]. apply elem_of_list_to_map_2 in Ek. apply list_elem_of_fmap. by exists (k, v).
Qed.

Lemma applyUpdates_represents u :
  represents (applyUpdates NewShardedMap u) (map_imap (fun k v => Some (stamp k v)) u).
Proof.
  unfold applyUpdates. pose proof (merge_represents NewShardedMap ∅ (map_to_list u)
    NewShardedMap_represents) as Hr.
  assert (spec_merge ∅ (map_to_list u) = map_imap (fun k v => Some (stamp k v)) u) as <-; [|done].
  apply map_eq. intros k. rewrite spec_merge_fresh, map_lookup_imap.
  - rewrite list_to_map_to_list. by destruct (u !! k).
  - apply NoDup_fst_map_to_list.
  - intros j _. apply lookup_empty.
Qed.

(** C12. Durability: after any calls on an engine that started empty, with an empty log that
    keeps what it acknowledges but may refuse requests, an engine restarted from the log alone
    gives the same value as before (with an empty value for nil) to every key whose last request
    was acknowledged; and if the log acknowledged every request, every call succeeded.  When
    snapshots are disabled, or no snapshot path is set, the log is not read and the restarted
    engine is empty.  Assumed: requests whose encoding fits a record (under 4 GiB), and a clock
    that has not reached its ceiling. *)
Theorem restart_preserves eng ops rs eng' c2 evt2 node path disabled reuse :
  eng_ok eng ∅ -> wal_rep (wal eng) [] -> run_client eng ops = Some (rs, eng') ->
  ~ clk_saturated (clock eng') -> Forall (fun x => fits x.1) (run_log eng ops) ->
  (Forall (fun x => x.2 = true) (run_log eng ops) -> Forall (fun x => x.2 = Ok tt) rs) /\
  exists eng2, NewEngine (wal eng') c2 evt2 node path disabled None reuse = Some eng2 /\
    forall k,
      if negb disabled && negb (bool_decide (path = EmptyString))
      then settled k (run_log eng ops) = true -> slice_bytes <$> (Get eng2 k).1 = slice_bytes <$> (Get eng' k).1
      else (Get eng2 k).1 = None.
Proof.
  intros Hok Hw Hrun Hsat Henc.
  assert (describes [] [] (live ∅) (clk_last (clock eng))) as Hd0.
  { intros k. unfold replayed. cbn [fmap list_fmap foldl]. rewrite live_lookup, !lookup_empty. done. }
  destruct (durable_run _ _ _ _ _ _ _ Hok Hrun Hsat Hw Hd0 Henc) as (Hrs & log & Hw' & Hd').
  destruct (run_client_ok _ _ _ _ _ Hok Hrun Hsat) as (m' & Hok' & Hspec). rewrite Hspec in Hd'.
  cbn [snd app] in Hd', Hw'. split; [done|]. unfold NewEngine.
  destruct (negb disabled && negb (bool_decide (path = EmptyString))) eqn:Ecfg.
  - unfold recover. cbn [negb sw_wal sw_hm sw_clock].
    destruct (wal_Replay_law _ _ Hw') as [w2 ->]. eexists. split; [reflexivity|]. intros k Hset.
    destruct (Get eng' k) as [r1 e1] eqn:Eg. destruct (Get_ok _ _ _ _ _ Hok' Eg) as (_ & -> & _). cbn [fst].
    destruct (Hd' k) as [Hk _]. rewrite <- (Hk Hset). unfold Get, hm. cbn [sw sw_hm].
    destruct (Load_represents _ _ k (applyUpdates_represents (replayed log))) as [Hl _].
    unfold replayed in *. rewrite Hl, map_lookup_imap.
    destruct (foldl applyEntry ∅ _ !! k) as [v|]; [|done]. cbn. unfold live_bytes, live_data.
    by destruct (Tombstone v).
  - eexists. split; [reflexivity|]. intros k. unfold Get, hm. cbn [sw sw_hm].
    destruct (Load_represents _ _ k NewShardedMap_represents) as [-> _]. by rewrite lookup_empty.
Qed.

End Restart.

(** ** Snapshots *)

Definition entry_of (k : string) (v : Value) : SnapshotEntry :=
  mkEntry k (Data v) (Timestamp v) (NodeID v) (Tombstone v).

(** A record as a snapshot restores it: an empty value comes back as nil. *)
Definition restored (k : string) (v : Value) : Value :=
  stamp k (mkValue (NodeID v) (norm_slice (Data v)) (Timestamp v) (Tombstone v) 0).

Lemma nonzero_default {A} `{EqDecision A} (zero x d : A) :
  x <> zero \/ d = zero -> default d (nonzero zero x) = x.
Proof. unfold nonzero. intros Hz. case_decide; [cbn; naive_solver|done]. Qed.

(** Decoding into an object gives the entry that was sent, if nothing stale shows through:
    [recover] clears the other fields of the objects it reuses. *)
Lemma gobInto_gobFields e obj :
  se_Key obj = EmptyString -> se_NodeID obj = EmptyString -> se_Data obj = None ->
  se_Timestamp e <> 0 \/ se_Timestamp obj = 0 ->
  se_Tombstone e = true \/ se_Tombstone obj = false ->
  gobInto (gobFields e) obj =
    mkEntry (se_Key e) (norm_slice (se_Data e)) (se_Timestamp e) (se_NodeID e) (se_Tombstone e).
Proof.
  intros Hk Hn Hd Ht Hb. unfold gobInto, gobFields. cbn [g_Key g_Data g_Timestamp g_NodeID g_Tombstone].
  rewrite !nonzero_default; auto.
  - f_equal. rewrite Hd. unfold nonzero, norm_slice. by destruct (se_Data e) as [[]|].
  - destruct Hb as [-> |]; [by left|by right].
Qed.

(** When the pool makes new objects, or when the snapshot has no tombstone and no zero
    timestamp, loading it restores its records. *)
Lemma loadSnapshot_represents l reuse pooled sm m :
  represents sm m -> NoDup l.*1 ->
  se_Key pooled = EmptyString -> se_NodeID pooled = EmptyString -> se_Data pooled = None ->
  ((forall b, b ∈ reuse -> b = false) /\ (length l <= length reuse)%nat) \/
  (Forall (fun x => Tombstone x.2 = false /\ Timestamp x.2 <> 0) l /\ se_Tombstone pooled = false) ->
  represents (loadSnapshot ((fun x => gobFields (entry_of x.1 x.2)) <$> l) reuse pooled sm)
    (map_imap (fun k v => Some (restored k v)) (list_to_map l) ∪ m).
Proof.
  revert reuse pooled sm m. induction l as [|[k v] l IH]; intros reuse pooled sm m Hm Hnd Hk Hn Hd Hsafe.
  { cbn. rewrite map_imap_empty. by rewrite (left_id_L ∅ (∪)). }
  cbn [fmap list_fmap fst snd] in *. apply NoDup_cons in Hnd as [Hnk Hnd]. cbn [loadSnapshot].
  set (obj := if default true (head reuse) then pooled else emptyEntry).
  assert (gobInto (gobFields (entry_of k v)) obj =
    mkEntry k (norm_slice (Data v)) (Timestamp v) (NodeID v) (Tombstone v)) as Hdec.
  { destruct Hsafe as [[Hf Hl]|[Hf Hp]].
    - destruct reuse as [|b reuse]; [cbn in Hl; lia|].
      unfold obj. cbn [head from_option]. rewrite (Hf b) by apply list_elem_of_here. cbn.
      apply gobInto_gobFields; auto.
    - apply list.Forall_cons in Hf as [[Ht1 Ht2] _]. cbn [snd] in *. unfold obj.
      destruct (default true (head reuse)); apply gobInto_gobFields; auto. }
  rewrite Hdec. cbn [se_Key se_Data se_Timestamp se_NodeID se_Tombstone].
  assert (map_imap (fun k v => Some (restored k v)) (list_to_map ((k, v) :: l)) ∪ m =
    map_imap (fun k v => Some (restored k v)) (list_to_map l) ∪
    spec_Store m k (mkValue (NodeID v) (norm_slice (Data v)) (Timestamp v) (Tombstone v) 0)) as ->.
  { apply map_eq. intros j. rewrite !lookup_union, !map_lookup_imap. unfold spec_Store.
    cbn [list_to_map foldr fst snd]. destruct (decide (k = j)) as [<-|Hne].
    - rewrite !lookup_insert_eq, not_elem_of_list_to_map_1 by done. cbn. by destruct (m !! k).
    - by rewrite !lookup_insert_ne. }
  apply IH; [by apply Store_represents|done..|].
  destruct Hsafe as [[Hf Hl]|[Hf Hp]].
  - left. split; [intros b Hb; apply Hf; destruct reuse; [done|by right]|].
    destruct reuse; cbn in *; lia.
  - right. apply list.Forall_cons in Hf as [[Ht1 _] Hf]. by split.
Qed.

(** C31. Snapshot round trip: loading what the snapshot callback wrote restores every record
    with its timestamp, node and tombstone (an empty value as nil), when the entry pool hands
    out new objects, or when no record is a tombstone or carries a zero timestamp. *)
Theorem snapshot_roundtrip sm m reuse :
  represents sm m ->
  ((forall b, b ∈ reuse -> b = false) /\ (length (stateTransferEncoder sm) <= length reuse)%nat) \/
  map_Forall (fun _ v => Tombstone v = false /\ Timestamp v <> 0) m ->
  represents (loadSnapshot (stateTransferEncoder sm) reuse emptyEntry NewShardedMap)
    (map_imap (fun k v => Some (restored k v)) m).
Proof.
  intros Hm Hsafe. pose proof (entries_represents sm m Hm) as Hp.
  assert (NoDup (entries sm).*1) as Hnd by apply entries_NoDup, Hm.
  assert ((list_to_map (entries sm) : gmap string Value) = m) as Hl.
  { rewrite <- (list_to_map_to_list m). by apply list_to_map_proper. }
  assert (stateTransferEncoder sm = (fun x => gobFields (entry_of x.1 x.2)) <$> entries sm) as Hs.
  { unfold stateTransferEncoder. apply list_fmap_ext. by intros i [k v] _. }
  rewrite Hs in *. rewrite length_fmap in Hsafe. rewrite <- Hl.
  rewrite <- (right_id_L ∅ (∪) (map_imap _ (list_to_map (entries sm)))).
  apply loadSnapshot_represents; [apply NewShardedMap_represents|done..|].
  destruct Hsafe as [?|Hf]; [by left|right]. split; [|done].
  apply list.Forall_forall. intros [k v] Hkv. apply (Hf k). apply elem_of_map_to_list. by rewrite <- Hp.
Qed.

(** C32. A restart can lose live keys: gob does not send a false tombstone and [recover] does
    not clear the flag of the objects it reuses, so a live record that follows a tombstone in
    a snapshot is restored as a tombstone. *)
Theorem tombstone_leaks_into_next_record e1 e2 sm m :
  represents sm m -> se_Tombstone e1 = true -> se_Tombstone e2 = false ->
  exists m', represents (loadSnapshot [gobFields e1; gobFields e2] [] emptyEntry sm) m' /\
    exists v, m' !! se_Key e2 = Some v /\ Tombstone v = true.
Proof.
  intros Hm Ht1 Ht2. cbn [loadSnapshot head tail from_option].
  eexists. split; [apply Store_represents, Store_represents, Hm|].
  set (o1 := releaseEntry _). assert (se_Tombstone o1 = true) as Ho1.
  { unfold o1, gobInto, gobFields, releaseEntry. cbn. by rewrite Ht1. }
  assert (se_Key (gobInto (gobFields e2) o1) = se_Key e2) as ->.
  { unfold gobInto, gobFields. cbn [se_Key g_Key]. apply nonzero_default. by right. }
  eexists. split; [apply lookup_insert_eq|]. cbn. unfold gobInto, gobFields. cbn.
  rewrite Ht2. cbn. by rewrite Ht1.
Qed.

End Theory.

(** ** Concrete runs *)

Module EngineExamples.
Import Fnv BitCodec GmapRadix WalExamples.

Abbreviation node_evictor := Evict.liveLRU.
#[export] Existing Instance Evict.lru_evictor.

(** A computation that returns, returns its default-extracted result. *)
Definition returns {A} (o : option A) : bool := match o with Some _ => true | None => false end.

Lemma returned {A} (d : A) (o : option A) : returns o = true -> o = Some (default d o).
Proof. by destruct o. Qed.

Lemma returns_None {A} (o : option A) : returns o = true -> o <> None.
Proof. by destruct o. Qed.

(** A clock whose calls all read the wall clock at the same millisecond. *)
Definition some_clock (n : nat) : timedClock := mkTimed (replicate n [1000]) Clock.NewClock.

Definition some_sw (n : nat) : StorageWriter NopWal timedClock :=
  NewStorageWriter NewShardedMap (NewNopWal) (some_clock n).

Definition some_reqs : list walOp := [set_op "a" "1" 5; set_op "a" "2" 9; del_op "b" 7].
Definition some_reqs' : list walOp := [del_op "b" 7; set_op "a" "2" 9; set_op "a" "1" 5; del_op "b" 7].

Definition after_reqs (ops : list walOp) : StorageWriter NopWal timedClock :=
  default (some_sw 0) (applyAll (some_sw 9) ops).

Lemma replicas_converge_witness :
  RootDigest (sw_hm (after_reqs some_reqs)) = RootDigest (sw_hm (after_reqs some_reqs')).
Proof.
  apply (replicas_converge (some_sw 9) (some_sw 9) some_reqs some_reqs').
  - apply NewShardedMap_represents.
  - apply NewShardedMap_represents.
  - intros o. unfold some_reqs, some_reqs'. rewrite !elem_of_cons, elem_of_nil. tauto.
  - apply collision_freeb_sound. vm_compute. reflexivity.
  - apply returned. vm_compute. reflexivity.
  - apply returned. vm_compute. reflexivity.
Defined.

Lemma request_branches_witness :
  exists r sw', ApplyOp (some_sw 9) (set_op "a" "1" 5) = Some (r, sw') /\ r = Ok tt.
Proof.
  destruct (ApplyOp (some_sw 9) (set_op "a" "1" 5)) as [[r sw']|] eqn:E;
    [|exfalso; revert E; apply returns_None; vm_compute; reflexivity].
  destruct (request_branches (some_sw 9) ∅ (set_op "a" "1" 5) r sw' NewShardedMap_represents E)
    as (_ & p & Hp & Hr).
  exists r, sw'. split; [reflexivity|]. apply Hr. vm_compute in Hp. injection Hp as <-. reflexivity.
Defined.

Lemma exists_live_witness : Exists (some_sw 0) "a" = false.
Proof.
  apply not_true_iff_false. rewrite (exists_live (some_sw 0) ∅ "a" NewShardedMap_represents).
  intros (v & Hv & _). discriminate Hv.
Defined.

Definition some_lru : node_evictor :=
  Evict.mkLive (Evict.SetEvictCallback (EvictTheory.EvictExamples.made (Evict.mkLRUConfig 4 1000 2))) Z.of_nat 0.

Definition some_engine : engine NopWal timedClock node_evictor :=
  mkEngine (some_sw 20) (Some some_lru) "n1" false.

Lemma some_engine_ok : eng_ok some_engine ∅.
Proof. constructor; [apply NewShardedMap_represents|cbn; unfold Clock.state_ok; vm_compute; split; discriminate|]. apply map_Forall_empty. Qed.

Definition some_calls : list client_op :=
  [CSet "a" (Some (string_bytes "1")); CSet "b" None; CGet "a"; CDelete "a"; CGet "a"; CDelete "a";
   CSet "c" (Some (string_bytes "3")); CEvict "c" ReasonCapacity; CGet "c"; CGet "b"].

Definition some_run := default ([], some_engine) (run_client some_engine some_calls).

Lemma engine_refines_map_witness :
  some_run.1.*1 = [ASet; ASet; AGet (Some (Some (string_bytes "1"))); ADelete true; AGet None;
    ADelete false; ASet; AEvict; AGet None; AGet (Some None)].
Proof.
  destruct (engine_refines_map some_engine ∅ some_calls some_run.1 some_run.2 some_engine_ok) as [H _].
  - rewrite <- surjective_pairing. apply returned. vm_compute. reflexivity.
  - intros H. apply H. vm_compute. reflexivity.
  - rewrite H. vm_compute. reflexivity.
Defined.

(** A record from a node whose clock is two hours ahead. *)
Definition ahead_engine : engine NopWal timedClock node_evictor :=
  match EngineApplySet some_engine (mkSet "a" (Some (string_bytes "old")) (8000000 * 65536) "n2") with
  | Some (_, eng) => eng
  | None => some_engine
  end.

Definition ahead_map : gmap string Value :=
  spec_StoreLWW ∅ "a" (setValue (mkSet "a" (Some (string_bytes "old")) (8000000 * 65536) "n2")).

Lemma ahead_represents : represents (hm ahead_engine) ahead_map.
Proof.
  unfold ahead_engine, EngineApplySet.
  destruct (ApplySet (sw some_engine) _) as [[r s]|] eqn:Ea;
    [|exfalso; revert Ea; apply returns_None; vm_compute; reflexivity].
  by apply (apply_spec _ ∅) in Ea as [Hr _]; [|apply NewShardedMap_represents].
Qed.

Lemma shadowed_set_reports_success_witness :
  exists r eng', Set_ ahead_engine "a" (Some (string_bytes "new")) = Some (r, eng') /\ r = Ok tt /\
    (Get eng' "a").1 = (Get ahead_engine "a").1.
Proof.
  destruct (Set_ ahead_engine "a" (Some (string_bytes "new"))) as [[r eng']|] eqn:Es;
    [|exfalso; revert Es; apply returns_None; vm_compute; reflexivity].
  destruct (shadowed_set_reports_success ahead_engine ahead_map "a" (Some (string_bytes "new"))
    (1000 * 65536) (mkTimed (replicate 18 [1000]) (Clock.mkClock (1000 * 65536) false))
    (stamp "a" (setValue (mkSet "a" (Some (string_bytes "old")) (8000000 * 65536) "n2")))
    r eng' ahead_represents) as (H1 & H2 & _).
  - reflexivity.
  - vm_compute. reflexivity.
  - vm_compute. reflexivity.
  - exact Es.
  - exists r, eng'. split; [reflexivity|]. split; [exact H1|exact H2].
Defined.

Lemma snapshot_roundtrip_witness :
  represents (loadSnapshot (stateTransferEncoder (hm ahead_engine)) [] emptyEntry NewShardedMap)
    (map_imap (fun k v => Some (restored k v)) ahead_map).
Proof.
  apply (snapshot_roundtrip (hm ahead_engine) ahead_map [] ahead_represents). right.
  apply (bool_decide_eq_true_1 _). vm_compute. reflexivity.
Defined.

Lemma tombstone_leaks_into_next_record_witness :
  exists m', represents (loadSnapshot [gobFields (mkEntry "dead" None 5 "n1" true);
      gobFields (mkEntry "alive" (Some (string_bytes "v")) 6 "n1" false)] [] emptyEntry NewShardedMap) m' /\
    exists v, m' !! "alive"%string = Some v /\ Tombstone v = true.
Proof.
  apply (tombstone_leaks_into_next_record (mkEntry "dead" None 5 "n1" true)
    (mkEntry "alive" (Some (string_bytes "v")) 6 "n1" false) NewShardedMap ∅ NewShardedMap_represents);
    reflexivity.
Defined.

(** A node with its log on disk, in an empty directory. *)
Definition disk_engine : engine diskWal timedClock node_evictor :=
  mkEngine (NewStorageWriter NewShardedMap (mkDisk opened.1 ∅ [] (mkWorld opened.2 [])) (some_clock 20))
    None "n1" false.

#[export] Instance node_durable : DurableWaler diskWal HashFunc := disk_durable HashFunc hash_key_nonneg.

Lemma disk_engine_rep : wal_rep (wal disk_engine) [].
Proof.
  destruct (NewWal_quiet "data" 1 2 empty_fs empty_fs_ok) as (w & s & Hrun & _ & Hlen & Hopen).
  assert (opened = (w, s)) as Ho by (unfold opened; by rewrite Hrun).
  assert (files_of empty_fs "data" 2 = log_bytes <$> [[]; []]) as Hf by apply empty_files.
  pose proof Hopen as (_ & _ & Hcount). rewrite Hf in Hopen.
  apply wal_open_inv in Hopen as [Hw Hh]; [|lia].
  exists s, []. cbn [wal sw sw_wal disk_engine dw_world dw_wal]. rewrite Ho. cbn [fst snd].
  split_and!; [done|done|done|]. unfold logs_with. cbn [zip_with foldl].
  replace (Z.to_nat (count w)) with 2%nat by lia. exact Hw.
Qed.

Lemma disk_engine_ok : eng_ok disk_engine ∅.
Proof. constructor; [apply NewShardedMap_represents|cbn; unfold Clock.state_ok; vm_compute; split; discriminate|]. apply map_Forall_empty. Qed.

Lemma fits_sound (l : list (walOp * bool)) :
  forallb (fun x => Z.of_nat (length (payload x.1)) <? 2 ^ 32) l = true -> Forall (fun x => fits x.1) l.
Proof.
  induction l as [|x l IH]; [constructor|]. cbn [forallb]. intros [Hx Hrest]%andb_true_iff.
  constructor; [|by apply IH]. intros p Hp. unfold payload in Hx. rewrite Hp in Hx. cbn [default] in Hx. by apply Z.ltb_lt.
Qed.

Definition disk_run := default ([], disk_engine) (run_client disk_engine some_calls).

Lemma restart_preserves_witness :
  exists eng2, NewEngine (wal disk_run.2) (some_clock 9) None "n1" "snap" false None [] = Some eng2 /\
    slice_bytes <$> (Get (E := node_evictor) eng2 "b").1 = slice_bytes <$> (Get disk_run.2 "b").1.
Proof.
  destruct (restart_preserves disk_engine some_calls disk_run.1 disk_run.2 (some_clock 9) None "n1" "snap"
    false [] disk_engine_ok disk_engine_rep) as (_ & eng2 & Hnew & Hget).
  - rewrite <- surjective_pairing. apply returned. vm_compute. reflexivity.
  - intros Hs. apply Hs. vm_compute. reflexivity.
  - apply fits_sound. vm_compute. reflexivity.
  - exists eng2. split; [exact Hnew|]. apply (Hget "b"). vm_compute. reflexivity.
Defined.

Lemma empty_snap_ready path : snap_ready path empty_fs.
Proof.
  split; [exact empty_fs_ok|]. constructor; intros i (d & ->%list_elem_of_singleton & Hi); cbn in Hi; by rewrite lookup_empty in Hi.
Qed.

(** A crash while the third chunk of a snapshot is written. *)
Lemma create_atomic_witness :
  match Create (fun w => io_ret (Ok [0], w)) (fun _ w => io_ret (Ok tt, w)) tt "snap" (string_bytes <$> ["a"; "b"; "c"]%string)
          (mkWorld empty_fs [Good; Good; Good; Crash 0]) with
  | Ret _ _ => False
  | Halt s => snap_state "snap" empty_fs (string_bytes "abc") s
  end.
Proof.
  pose proof (create_atomic (fun w => io_ret (Ok [0], w)) (fun _ w => io_ret (Ok tt, w)) tt "snap"
    (string_bytes <$> ["a"; "b"; "c"]%string) (mkWorld empty_fs [Good; Good; Good; Crash 0])
    (fun _ _ wd1 => fs wd1 = empty_fs) (fun _ => False) (fun _ _ => True) (fun _ => False)
    (conj eq_refl (fun _ => empty_snap_ready "snap")) (fun _ _ _ _ _ _ => I)) as Hw.
  unfold wp in Hw.
  assert (match Create (fun w => io_ret (Ok [0], w)) (fun _ w => io_ret (Ok tt, w)) tt "snap" (string_bytes <$> ["a"; "b"; "c"]%string)
    (mkWorld empty_fs [Good; Good; Good; Crash 0]) with Ret _ _ => false | Halt _ => true end = true) as Hh
    by (vm_compute; reflexivity).
  destruct (Create _ _ _ _ _ _) as [a wd'|s]; [discriminate Hh|].
  destruct Hw as [[]|[[]|(offsets & w1 & wd1 & Hwd & Hs)]]. rewrite Hwd in Hs. exact Hs.
Defined.

End EngineExamples.
