(* ===== verification/SnapConc.v ===== *)
(** * Snapshots while writes go on (src/core/snap/snapshot.go, src/core/writer/storagewriter.go)

    [Create] takes the offsets of the log segments, one after the other, then writes what
    [Range] reports, and drops the log before the offsets.  Meanwhile requests are applied: each
    stores its record in the map and, once that call has returned, publishes it to the segment
    of its key.  [Range] is only weakly consistent; its comment says that callers reconcile
    snapshots against the log, and the theorem here is that this works: what recovery makes of
    the snapshot and the log that is kept is what the map holds.

    The map and its goroutines are those of [MapConc]; the log is its records per segment,
    which [WalTheory] relates to the files. *)

From S2P Require Import Prelude Kv ShardedMap MapTheory MapConc Wal WalTheory Iface Writer Snap Engine EngineTheory.
From stdpp Require Import relations.
Import ShardedMap Writer Engine Snap.

#[local] Open Scope nat_scope.

Module SnapConc.

(** ** The machine *)

(** A record of the log, with the goroutine that published it ([None]: it was there before). *)
Abbreviation logged := (option nat * walOp)%type.

Section Machine.
Context `{HX : XXHash} `{HR : Radix}.

(** The requests that are applied while the snapshot is taken. *)
Variable reqs : list walOp.

Definition write_of (o : walOp) : mop := MStoreLWW (op_key o) (op_value o).

(** One goroutine per request, and last the one that runs [Create]. *)
Definition snapper : nat := length reqs.
Definition callers : list MapConc.thread := ((fun o => MapConc.WIdle (write_of o)) <$> reqs) ++ [MapConc.RIdle].

Record state := mkState {
  mp : MapConc.state;
  logs : list (list logged);
  published : list nat;
  offsets : list nat
}.

Definition old (l : list walOp) : list logged := (fun o => (None, o)) <$> l.
Definition init (g0 : ShardedMap) (logs0 : list (list walOp)) : state := mkState (MapConc.init g0 callers) (old <$> logs0) [] [].

Definition segment (s : state) (o : walOp) : nat := segment_of HashFunc (Z.of_nat (length (logs s))) o.

(** The rest of [ApplySet] and [ApplyDelete] once [StoreLWW] has returned true. *)
Definition stepPublish (s : state) (i : nat) : option state :=
  match reqs !! i, MapConc.threads (mp s) !! i with
  | Some o, Some (MapConc.WDone _ _ _ true) =>
      if bool_decide (i ∈ published s) then None
      else Some (mkState (mp s) (alter (fun l => l ++ [(Some i, o)]) (segment s o) (logs s)) (i :: published s) (offsets s))
  | _, _ => None
  end.

(** [PrepareSnapshot], a segment at a time, each under the lock of the segment. *)
Definition stepPrepare (s : state) : option state :=
  match logs s !! length (offsets s) with
  | Some l => Some (mkState (mp s) (logs s) (published s) (offsets s ++ [length l]))
  | None => None
  end.

(** A step of a goroutine in the map; [Create] calls [Range] after [PrepareSnapshot]. *)
Definition stepMap (s : state) (i : nat) (goOn : bool) : option state :=
  if bool_decide (i = snapper /\ length (offsets s) < length (logs s)) then None
  else match MapConc.threads (mp s) !! i with
       | Some t => match MapConc.exec (mp s) i goOn t with
                   | Some mp' => Some (mkState mp' (logs s) (published s) (offsets s))
                   | None => None
                   end
       | None => None
       end.

Definition step (s s' : state) : Prop :=
  (exists i goOn, stepMap s i goOn = Some s') \/ (exists i, stepPublish s i = Some s') \/ stepPrepare s = Some s'.

End Machine.

(** ** Recovery *)

Section Recovery.
Context `{HX : XXHash} `{HR : Radix}.

(** What [clearSegment] leaves of a segment: a zero offset truncates it. *)
Definition clearLog {A} (offset : nat) (l : list A) : list A := match offset with O => [] | _ => drop offset l end.

(** [recover] from the entries that the snapshot's callback was given and the records of the
    log; [reuse] says which entries are decoded into a reused object of the pool. *)
Definition recovered (reuse : list bool) (out : list (Key * Value)) (ops : list walOp) : ShardedMap :=
  applyUpdates (loadSnapshot ((fun x => gobFields (entry_of x.1 x.2)) <$> out) reuse emptyEntry NewShardedMap)
    (foldl Wal.applyEntry ∅ (op_entry <$> ops)).

(** Nothing of an earlier entry shows through in a later one: the pool makes a new object for
    every entry, or no entry is a tombstone or has a zero timestamp. *)
Definition leakless (reuse : list bool) (out : list (Key * Value)) : Prop :=
  ((forall b, b ∈ reuse -> b = false) /\ length out <= length reuse) \/
  Forall (fun x => Tombstone x.2 = false /\ Timestamp x.2 <> 0%Z) out.

End Recovery.

(** ** What recovery finds *)

Section Newest.
Context `{HX : XXHash} `{HR : Radix} `{!XXHashLaws} `{!RadixLaws}.
Implicit Types (out : list (Key * Value)) (ops : list walOp).

(** What a client can tell of a record, and its place in time. *)
Definition seen (v : Value) : Z * bool * bytes := (Timestamp v, Tombstone v, slice_bytes (Data v)).

Lemma seen_stamp k v : seen (stamp k v) = seen v.
Proof. done. Qed.

Lemma seen_restored k v : seen (restored k v) = seen v.
Proof. unfold seen, restored. cbn. unfold norm_slice. by destruct (Data v) as [[]|]. Qed.

Lemma seen_entry o : seen (entry_value (op_entry o)) = seen (op_value o).
Proof. destruct o as [r|r]; cbn; [|done]. unfold seen. cbn. by destruct (set_Value r) as [[]|]. Qed.

Lemma lww_join_ts e v : Timestamp (lww_join (Some e) v) = Z.max (Timestamp e) (Timestamp v).
Proof. unfold lww_join, lwwWins. destruct (Z.eqb_spec (Timestamp e) (Timestamp v)); cbn [negb]; repeat case_match; lia. Qed.

(** The record of a key is one of those in the snapshot and the log, and none of them is newer. *)
Definition newest_of out ops (k : Key) (r : option Value) : Prop :=
  match r with
  | None => k ∉ out.*1 /\ forall o, o ∈ ops -> op_key o <> k
  | Some r => ((exists v, (k, v) ∈ out /\ seen r = seen v) \/ (exists o, o ∈ ops /\ op_key o = k /\ seen r = seen (op_value o))) /\
      (forall v, (k, v) ∈ out -> (Timestamp v <= Timestamp r)%Z) /\
      (forall o, o ∈ ops -> op_key o = k -> (Timestamp (op_value o) <= Timestamp r)%Z)
  end.

Lemma recovered_lookup reuse out ops :
  NoDup out.*1 -> leakless reuse out ->
  exists m', represents (recovered reuse out ops) m' /\ forall k, m' !! k =
    match replayed ops !! k with
    | Some u => Some (lww_join (restored k <$> (list_to_map out : gmap Key Value) !! k) (stamp k u))
    | None => restored k <$> (list_to_map out : gmap Key Value) !! k
    end.
Proof.
  intros Hnd Hleak. eexists. split.
  - apply merge_represents, loadSnapshot_represents; [apply NewShardedMap_represents|done..|].
    destruct Hleak as [?|?]; [by left|by right].
  - intros k. rewrite spec_merge_lookup by apply NoDup_fst_map_to_list.
    rewrite list_to_map_to_list, (right_id_L ∅ (∪)), map_lookup_imap. unfold replayed.
    by destruct (list_to_map out !! k), (foldl _ _ _ !! k).
Qed.

Lemma entry_value_op o : Timestamp (entry_value (op_entry o)) = Timestamp (op_value o).
Proof. by destruct o. Qed.

(** What the log alone gives. *)
Lemma replayed_newest ops k :
  match replayed ops !! k with
  | None => forall o, o ∈ ops -> op_key o <> k
  | Some u => (exists o, o ∈ ops /\ op_key o = k /\ seen u = seen (op_value o)) /\
      forall o, o ∈ ops -> op_key o = k -> (Timestamp (op_value o) <= Timestamp u)%Z
  end.
Proof.
  pose proof (newest_foldl (op_entry <$> ops) k) as Hn. unfold replayed. destruct (foldl _ _ _ !! k) as [u|].
  - destruct Hn as ((e & (o & -> & Ho)%list_elem_of_fmap & Hk & <-) & Hmax). rewrite op_entry_key in Hk. injection Hk as Hk.
    split; [exists o; by rewrite seen_entry|]. intros o' Ho' Hk'. rewrite <- entry_value_op, (entry_value_ts _ _ (op_entry_key o')).
    apply Hmax; [by apply list_elem_of_fmap_2|]. by rewrite op_entry_key, Hk'.
  - intros o Ho Hk. apply (Hn (op_entry o)); [by apply list_elem_of_fmap_2|]. by rewrite op_entry_key, Hk.
Qed.

Lemma recovered_newest reuse out ops :
  NoDup out.*1 -> leakless reuse out -> exists m', represents (recovered reuse out ops) m' /\ forall k, newest_of out ops k (m' !! k).
Proof.
  intros Hnd Hleak. destruct (recovered_lookup reuse out ops Hnd Hleak) as (m' & Hm' & Hlk). exists m'. split; [done|]. intros k. rewrite Hlk.
  pose proof (replayed_newest ops k) as Hn. pose proof (fun v => elem_of_list_to_map (M := gmap Key) out k v Hnd) as Hin.
  destruct (list_to_map out !! k) as [v0|] eqn:Ev.
  - assert (forall v, (k, v) ∈ out -> v = v0) as Hu by (intros v Hv; apply Hin in Hv; congruence).
    assert ((k, v0) ∈ out) as Hv0 by by apply Hin. destruct (replayed ops !! k) as [u|]; cbn [fmap option_fmap option_map].
    + destruct Hn as [(o & Ho & Hk & Hs) Hmax]. cbn [newest_of]. rewrite lww_join_ts.
      assert (Timestamp (restored k v0) = Timestamp v0 /\ Timestamp (stamp k u) = Timestamp u) as [-> ->] by done. split; [|split].
      * unfold lww_join. destruct (lwwWins _ _); [right; exists o; by rewrite seen_stamp|left; exists v0; by rewrite seen_restored].
      * intros v ->%Hu. lia.
      * intros o' Ho' Hk'. specialize (Hmax o' Ho' Hk'). lia.
    + split; [left; exists v0; by rewrite seen_restored|]. split; [by intros v ->%Hu|]. intros o Ho Hk. by destruct (Hn o).
  - assert (k ∉ out.*1) as Hout by by apply not_elem_of_list_to_map_2 in Ev.
    assert (forall v, (k, v) ∉ out) as Hno by (intros v Hv; apply Hout, list_elem_of_fmap; by exists (k, v)).
    destruct (replayed ops !! k) as [u|]; cbn; [|done]. destruct Hn as [(o & Ho & Hk & Hs) Hmax].
    split; [right; exists o; by rewrite seen_stamp|]. split; [by intros v ?%Hno|done].
Qed.

End Newest.

(** ** Invariant *)

Section Invariant.
Context `{HX : XXHash} `{HR : Radix} `{!XXHashLaws} `{!RadixLaws}.
Variables (reqs : list walOp) (logs0 : list (list walOp)) (g0 : ShardedMap) (m0 : gmap Key Value).
Hypothesis R0 : represents g0 m0.
Hypothesis Hsegs : 0 < length logs0.
Implicit Types (s : state) (o : walOp).

Abbreviation step' := (step reqs).
Abbreviation snapper' := (snapper reqs).
Abbreviation threads s := (MapConc.threads (mp s)).
Abbreviation order s := (MapConc.order (mp s)).

(** A published record: its goroutine has returned from [StoreLWW]. *)
Definition applied s (i : nat) o : Prop :=
  reqs !! i = Some o /\ exists t0 t1, threads s !! i = Some (MapConc.WDone (write_of o) t0 t1 true).

Record inv s : Prop := {
  i_map : rtc MapConc.step (MapConc.init g0 (callers reqs)) (mp s);
  i_calls : MapConc.call_of <$> threads s = MapConc.call_of <$> callers reqs;
  i_order : forall t i w, order s !! t = Some (i, w) -> exists o, reqs !! i = Some o /\ w = write_of o;
  i_len : length (logs s) = length logs0 /\ length (offsets s) <= length (logs s);
  i_published : forall i, i ∈ published s -> exists o l, applied s i o /\ logs s !! segment s o = Some l /\ (Some i, o) ∈ l;
  i_logs : forall j l, logs s !! j = Some l ->
    (forall i o, (Some i, o) ∈ l -> applied s i o) /\ (forall o, (None, o) ∈ l -> exists l0, logs0 !! j = Some l0 /\ o ∈ l0);
  i_before : forall j n l x i o, offsets s !! j = Some n -> logs s !! j = Some l -> x < n -> l !! x = Some (Some i, o) ->
    exists t, t < MapConc.range_start (mp s) snapper' /\ order s !! t = Some (i, write_of o);
  i_taken : forall j n l, offsets s !! j = Some n -> logs s !! j = Some l -> n <= length l;
  i_range : threads s !! snapper' = Some MapConc.RIdle \/ length (offsets s) = length (logs s)
}.

Lemma snapper_call : (MapConc.call_of <$> callers reqs) !! snapper' = Some MapConc.CallRange.
Proof.
  unfold callers, snapper. rewrite fmap_app, lookup_app_r by by rewrite !length_fmap.
  by rewrite !length_fmap, Nat.sub_diag.
Qed.

Lemma writer_call i o : reqs !! i = Some o -> (MapConc.call_of <$> callers reqs) !! i = Some (MapConc.CallWrite (write_of o)).
Proof.
  intros Hi. unfold callers. rewrite fmap_app, lookup_app_l by (rewrite !length_fmap; by eapply lookup_lt_Some).
  by rewrite !list_lookup_fmap, Hi.
Qed.

Lemma call_writer i w : (MapConc.call_of <$> callers reqs) !! i = Some (MapConc.CallWrite w) -> exists o, reqs !! i = Some o /\ w = write_of o.
Proof.
  unfold callers. rewrite fmap_app. intros [Hi|[_ Hi]]%lookup_app_Some.
  - rewrite !list_lookup_fmap in Hi. destruct (reqs !! i) as [o|]; [|done]. exists o. cbn in Hi. by injection Hi as <-.
  - by apply list_lookup_singleton_Some in Hi as [_ ?].
Qed.

Lemma begins_callers : Forall MapConc.begins (callers reqs).
Proof. apply Forall_app. split; [by apply Forall_fmap, Forall_true|by repeat constructor]. Qed.

Lemma inv_ok s : inv s -> MapConc.ok g0 m0 (mp s).
Proof. intros Hi. eapply MapConc.ok_reachable; [exact R0|apply begins_callers|apply (i_map s Hi)]. Qed.

Lemma applied_effect s i o :
  inv s -> applied s i o -> exists t, order s !! t = Some (i, write_of o) /\ MapConc.spec_writes (MapConc.hist m0 (order s) t) (write_of o) = true.
Proof.
  intros Hi (Ho & t0 & t1 & Ht). destruct (MapConc.ok_threads _ _ _ (inv_ok s Hi) i _ Ht) as (t & _ & Hord & Hr). by exists t.
Qed.

(** A finished goroutine stays as it is. *)
Lemma finished_stays s i goOn t mp' j u :
  threads s !! i = Some t -> MapConc.exec (mp s) i goOn t = Some mp' -> threads s !! j = Some u -> MapConc.finished u ->
  MapConc.threads mp' !! j = Some u.
Proof.
  intros Hi He Hj Hf. destruct (MapConc.exec_shape _ _ _ _ _ He) as (t' & -> & _ & Hnf & _).
  rewrite list_lookup_insert_ne; [done|]. intros ->. by simplify_eq.
Qed.

Lemma inv_stepMap s i goOn s' : inv s -> stepMap reqs s i goOn = Some s' -> inv s'.
Proof.
  intros Hinv. unfold stepMap. case_bool_decide as Hb; [done|]. destruct (threads s !! i) as [t|] eqn:Hi; [|done].
  destruct (MapConc.exec (mp s) i goOn t) as [mp'|] eqn:He; [|done]. intros [= <-].
  pose proof (fun j u => finished_stays s i goOn t mp' j u Hi He) as Hstay. pose proof (MapConc.exec_range_start _ _ _ _ _ snapper' Hi He) as Hst.
  destruct (MapConc.exec_shape _ _ _ _ _ He) as (t' & Ht' & Hc & Hnf & Ho).
  destruct Hinv as [Hmap Hcalls Hord [Hl1 Hl2] Hpub Hlogs Hbef Htak Hrng].
  assert (forall k o, applied s k o -> applied (mkState mp' (logs s) (published s) (offsets s)) k o) as Happ.
  { intros k o (Hk & t0 & t1 & Hd). split; [done|]. exists t0, t1. by apply Hstay. }
  assert (forall k x, order s !! k = Some x -> MapConc.order mp' !! k = Some x) as Hgrow.
  { intros k x Hk. destruct Ho as [->|(o & _ & ->)]; [done|]. by apply lookup_app_l_Some. }
  split; cbn [mp logs published offsets].
  - eapply rtc_r; [done|]. by exists i, t, goOn.
  - rewrite Ht', list_fmap_insert, Hc, <- Hcalls. apply list_insert_id. by rewrite list_lookup_fmap, Hi.
  - intros k j w Hk. destruct Ho as [Ho|(w' & Hw & Ho)]; rewrite Ho in Hk; [by eapply Hord|].
    apply lookup_app_Some in Hk as [Hk|[_ Hk]]; [by eapply Hord|]. apply list_lookup_singleton_Some in Hk as [_ [= <- <-]].
    apply call_writer. by rewrite <- Hcalls, list_lookup_fmap, Hi, <- Hw.
  - done.
  - intros k (o & l & Ha & Hl & Hin)%Hpub. exists o, l. auto.
  - intros j l Hl. destruct (Hlogs j l Hl) as [H1 H2]. split; [auto|done].
  - intros j n l x k o Hn Hl Hx Hk. destruct (Hbef j n l x k o Hn Hl Hx Hk) as (τ & Hτ & Hlk). exists τ. split; [lia|auto].
  - done.
  - destruct Hrng as [Hr|Hr]; [|by right]. destruct (decide (i = snapper')) as [->|Hne]; [right|left].
    + apply not_and_l in Hb. destruct Hb as [?|Hb]; [done|lia].
    + by rewrite Ht', list_lookup_insert_ne.
Qed.

Lemma segment_lt s o : inv s -> segment s o < length (logs s).
Proof.
  intros Hinv. destruct (i_len s Hinv) as [Hl _]. unfold segment, segment_of.
  pose proof (Z.mod_pos_bound (HashFunc (op_key o)) (Z.of_nat (length (logs s)))) as Hm. lia.
Qed.

Lemma inv_stepPublish s i s' : inv s -> stepPublish reqs s i = Some s' -> inv s'.
Proof.
  intros Hinv. unfold stepPublish. destruct (reqs !! i) as [o|] eqn:Ho; [|done].
  destruct (threads s !! i) as [[| | | | | | | |w t0 t1 [|]| | | | | | | | |]|] eqn:Hi; try done. case_bool_decide as Hp; [done|]. intros [= <-].
  pose proof (segment_lt s o Hinv) as Hseg. destruct Hinv as [Hmap Hcalls Hord [Hl1 Hl2] Hpub Hlogs Hbef Htak Hrng].
  assert (applied s i o) as Happ.
  { split; [done|]. exists t0, t1. pose proof (writer_call i o Ho) as Hw. rewrite <- Hcalls, list_lookup_fmap, Hi in Hw.
    cbn in Hw. by injection Hw as ->. }
  assert (forall j l, alter (fun l => l ++ [(Some i, o)]) (segment s o) (logs s) !! j = Some l ->
    exists l0, logs s !! j = Some l0 /\ (l = l0 \/ j = segment s o /\ l = l0 ++ [(Some i, o)])) as Halter.
  { intros j l. destruct (decide (j = segment s o)) as [->|Hne].
    - rewrite list_lookup_alter_eq. destruct (logs s !! segment s o) as [l0|]; [|done]. intros [= <-]. eauto.
    - rewrite list_lookup_alter_ne by done. eauto. }
  assert (forall x, segment (mkState (mp s) (alter (fun l => l ++ [(Some i, o)]) (segment s o) (logs s)) (i :: published s) (offsets s)) x
    = segment s x) as Hsg by (intros x; unfold segment; cbn [logs]; by rewrite length_alter).
  assert (forall j l, logs s !! j = Some l -> exists l', alter (fun l => l ++ [(Some i, o)]) (segment s o) (logs s) !! j = Some l' /\
    (forall x, x ∈ l -> x ∈ l') /\ (j = segment s o -> (Some i, o) ∈ l')) as Hup.
  { intros j l Hl. destruct (decide (j = segment s o)) as [->|Hne].
    - rewrite list_lookup_alter_eq, Hl. eexists. split; [done|]. split; [intros x Hx; apply elem_of_app; by left|].
      intros _. apply elem_of_app. right. by apply list_elem_of_singleton.
    - rewrite list_lookup_alter_ne by done. by exists l. }
  split; cbn [mp logs published offsets]; try done.
  - by rewrite length_alter.
  - intros k [->|(o' & l & Ha & Hl & Hin)%Hpub]%elem_of_cons; setoid_rewrite Hsg.
    + destruct (lookup_lt_is_Some_2 _ _ Hseg) as [l Hl]. destruct (Hup _ _ Hl) as (l' & Hl' & _ & Hx). exists o, l'. auto.
    + destruct (Hup _ _ Hl) as (l' & Hl' & Hx & _). exists o', l'. auto.
  - intros j l (l0 & Hl0 & Hcase)%Halter. destruct (Hlogs j l0 Hl0) as [H1 H2].
    destruct Hcase as [->|[-> ->]]; [done|]. split.
    + intros k o' [Hin|[= -> ->]%list_elem_of_singleton]%elem_of_app; [by apply H1|done].
    + intros o' [Hin|Hin%list_elem_of_singleton]%elem_of_app; [by apply H2|done].
  - intros j n l x k o' Hn (l0 & Hl0 & Hcase)%Halter Hx Hk. apply (Hbef j n l0 x k o' Hn Hl0 Hx).
    destruct Hcase as [->|[-> ->]]; [done|]. rewrite lookup_app_l in Hk; [done|]. specialize (Htak _ _ _ Hn Hl0). lia.
  - intros j n l Hn (l0 & Hl0 & Hcase)%Halter. specialize (Htak j n l0 Hn Hl0).
    destruct Hcase as [->|[_ ->]]; [done|]. rewrite length_app. lia.
  - by rewrite length_alter.
Qed.

Lemma inv_stepPrepare s s' : inv s -> stepPrepare s = Some s' -> inv s'.
Proof.
  intros Hinv. unfold stepPrepare. destruct (logs s !! length (offsets s)) as [l|] eqn:Hl; [|done]. intros [= <-].
  pose proof (fun i o => applied_effect s i o Hinv) as Heff. pose proof (lookup_lt_Some _ _ _ Hl) as Hlt.
  destruct Hinv as [Hmap Hcalls Hord [Hl1 Hl2] Hpub Hlogs Hbef Htak Hrng].
  destruct Hrng as [Hr|Hr]; [|lia].
  assert (MapConc.range_start (mp s) snapper' = MapConc.now (mp s)) as Hst by (unfold MapConc.range_start; by rewrite Hr).
  split; cbn [mp logs published offsets]; try done.
  - rewrite length_app. cbn. lia.
  - intros j n l' x i o [Hn|[Hj Hn]]%lookup_app_Some Hl' Hx Hk; [by eapply Hbef|].
    apply list_lookup_singleton_Some in Hn as [Hj0 <-]. destruct (Hlogs j l' Hl') as [Ha _].
    destruct (Heff i o) as (t & Ht & _); [apply Ha; by eapply list_elem_of_lookup_2|]. exists t. split; [|done].
    rewrite Hst. unfold MapConc.now. by eapply lookup_lt_Some.
  - intros j n l' [Hn|[Hj Hn]]%lookup_app_Some Hl'; [by eapply Htak|].
    apply list_lookup_singleton_Some in Hn as [Hj0 <-]. assert (j = length (offsets s)) as -> by lia. by simplify_eq.
  - by left.
Qed.

Lemma inv_init : inv (init reqs g0 logs0).
Proof.
  split; cbn [mp logs published offsets init MapConc.init MapConc.threads MapConc.order]; try done.
  - rewrite length_fmap. cbn. lia.
  - intros i Hi. by apply elem_of_nil in Hi.
  - intros j l Hl. rewrite list_lookup_fmap in Hl. destruct (logs0 !! j) as [l0|]; [|done]. injection Hl as <-. split.
    + intros i o (x & Hx & _)%list_elem_of_fmap. done.
    + intros o (x & [= <-] & Hx)%list_elem_of_fmap. eauto.
  - left. unfold snapper, callers. rewrite lookup_app_r by by rewrite length_fmap. by rewrite length_fmap, Nat.sub_diag.
Qed.

Lemma inv_reachable s : rtc step' (init reqs g0 logs0) s -> inv s.
Proof.
  intros Hr. assert (forall a b, step' a b -> inv a -> inv b) as Hstep.
  { intros a b [(i & goOn & H1)|[(i & H2)|H3]] Ha; [by eapply inv_stepMap|by eapply inv_stepPublish|by eapply inv_stepPrepare]. }
  pose proof inv_init as Hi. induction Hr; eauto.
Qed.

(** ** The history of a key *)

Abbreviation hist s τ := (MapConc.hist m0 (order s) τ).

(** A step of the history, seen at one key. *)
Lemma hist_step s t i o k :
  order s !! t = Some (i, write_of o) ->
  hist s (S t) !! k = if decide (op_key o = k) then Some (lww_join (hist s t !! k) (stamp k (op_value o))) else hist s t !! k.
Proof.
  intros Ht. unfold MapConc.hist. rewrite (take_S_r _ _ _ Ht), fmap_app, foldl_app. cbn. unfold spec_StoreLWW.
  case_decide as E; [subst k; by rewrite lookup_insert_eq|by rewrite lookup_insert_ne].
Qed.

Lemma order_at s t : inv s -> t < length (order s) -> exists i o, order s !! t = Some (i, write_of o).
Proof.
  intros Hinv [[i w] Ht]%lookup_lt_is_Some_2. destruct (i_order s Hinv t i w Ht) as (o & _ & ->). eauto.
Qed.

(** Records only get newer. *)
Lemma hist_grow s t n k v :
  inv s -> t + n <= length (order s) -> hist s t !! k = Some v ->
  exists v', hist s (t + n) !! k = Some v' /\ (Timestamp v <= Timestamp v')%Z.
Proof.
  intros Hinv. revert v. induction n as [|n IH]; intros v Hl Hv; [exists v; rewrite Nat.add_0_r; by split|].
  destruct (IH v) as (v1 & Hv1 & Hle); [lia|done|]. destruct (order_at s (t + n) Hinv) as (i & o & Hto); [lia|].
  rewrite Nat.add_succ_r, (hist_step s _ i o k Hto), Hv1. case_decide; [|eauto]. eexists. split; [done|]. rewrite lww_join_ts. lia.
Qed.

Lemma hist_le s t t' k v :
  inv s -> t <= t' <= length (order s) -> hist s t !! k = Some v ->
  exists v', hist s t' !! k = Some v' /\ (Timestamp v <= Timestamp v')%Z.
Proof. intros Hinv Hb Hv. destruct (hist_grow s t (t' - t) k v Hinv) as (v' & Hv' & Hle); [lia|done|]. replace t' with (t + (t' - t)) by lia. eauto. Qed.

(** An accepted write is what its key holds next. *)
Lemma effect_value s t i o :
  order s !! t = Some (i, write_of o) -> MapConc.spec_writes (hist s t) (write_of o) = true ->
  hist s (S t) !! op_key o = Some (stamp (op_key o) (op_value o)).
Proof.
  intros Ht Hw. rewrite (hist_step s t i o _ Ht), decide_True by done. cbn in Hw. f_equal.
  destruct (hist s t !! op_key o) as [e|]; cbn in *; [by rewrite Hw|done].
Qed.

(** A key has kept its record since [t], or some accepted write after [t] put it there. *)
Lemma last_change s t n k :
  inv s -> t + n <= length (order s) ->
  (forall τ, t <= τ <= t + n -> hist s τ !! k = hist s (t + n) !! k) \/
  exists x i o, t <= x < t + n /\ order s !! x = Some (i, write_of o) /\ op_key o = k /\
    MapConc.spec_writes (hist s x) (write_of o) = true /\ hist s (t + n) !! k = Some (stamp k (op_value o)).
Proof.
  intros Hinv. induction n as [|n IH]; intros Hl.
  { left. intros τ Hτ. f_equal. f_equal. lia. }
  destruct (order_at s (t + n) Hinv) as (i & o & Ho); [lia|]. rewrite Nat.add_succ_r.
  assert (hist s (S (t + n)) !! k = hist s (t + n) !! k \/
    (op_key o = k /\ MapConc.spec_writes (hist s (t + n)) (write_of o) = true)) as [Heq|[Hk Hw]].
  { rewrite (hist_step s _ i o k Ho). case_decide as Hk; [|by left]. cbn. rewrite Hk.
    destruct (hist s (t + n) !! k) as [e|]; cbn; [|by right]. destruct (lwwWins e _); [by right|by left]. }
  - rewrite Heq. destruct IH as [Hsame|(x & i' & o' & Hx & Hrest)]; [lia| |].
    + left. intros τ Hτ. destruct (decide (τ = S (t + n))) as [->|]; [done|]. apply Hsame. lia.
    + right. exists x, i', o'. split; [lia|done].
  - right. exists (t + n), i, o. split; [lia|]. do 3 (split; [done|]). rewrite <- Hk. by eapply effect_value.
Qed.

(** ** Records *)

(** The records of a key: the one it had, those written, those in the log. *)
Definition known (k : Key) (v : Value) : Prop :=
  m0 !! k = Some v \/ exists o, op_key o = k /\ op_value o = v /\ (o ∈ reqs \/ exists l, l ∈ logs0 /\ o ∈ l).

(** No two different records of a key have the same timestamp. *)
Definition unambiguous : Prop := forall k v v', known k v -> known k v' -> Timestamp v = Timestamp v' -> seen v = seen v'.

(** The records that were in the log at the start had been applied. *)
Definition logged_applied : Prop :=
  forall l o, l ∈ logs0 -> o ∈ l -> exists v, m0 !! op_key o = Some v /\ (Timestamp (op_value o) <= Timestamp v)%Z.

(** The writes to a key that took effect have been published. *)
Definition settled s (k : Key) : Prop :=
  forall t i o, order s !! t = Some (i, write_of o) -> op_key o = k -> MapConc.spec_writes (hist s t) (write_of o) = true -> i ∈ published s.

Lemma hist_known s t k v : inv s -> t <= length (order s) -> hist s t !! k = Some v -> exists v', known k v' /\ seen v = seen v'.
Proof.
  intros Hinv. revert v. induction t as [|t IH]; intros v Hl Hv.
  { exists v. split; [by left|done]. }
  destruct (order_at s t Hinv) as (i & o & Ho); [lia|]. rewrite (hist_step s t i o k Ho) in Hv. case_decide as Hk; [|apply IH; [lia|done]].
  destruct (i_order s Hinv _ _ _ Ho) as (o' & Ho' & [= Hko Hvo]).
  assert (known k (op_value o)) as Hkn by (right; exists o'; split; [congruence|]; split; [done|]; left; by eapply list_elem_of_lookup_2).
  destruct (hist s t !! k) as [e|]; cbn in Hv; [|injection Hv as <-; by exists (op_value o)].
  destruct (lwwWins e _); injection Hv as <-; [by exists (op_value o)|]. apply IH; [lia|done].
Qed.

(** ** What is kept of the log *)

(** A segment that has not been truncated yet, or has been; a zero offset truncates it all. *)
Definition keeps (x : nat * list logged) (kept : list logged) : Prop :=
  kept = x.2 \/ (kept = clearLog x.1 x.2 /\ (x.1 = 0 -> x.2 = [])).

Lemma keeps_sub x kept y : keeps x kept -> y ∈ kept -> y ∈ x.2.
Proof.
  intros [->|[-> _]]; [done|]. destruct x as [[|n] l]; cbn [fst snd clearLog]; intros Hy; [by apply elem_of_nil in Hy|].
  rewrite <- (take_drop (S n) l). apply elem_of_app. by right.
Qed.

Lemma keeps_tail n l kept x y : keeps (n, l) kept -> n <= x -> l !! x = Some y -> y ∈ kept.
Proof.
  intros [->|[-> Hz]] Hx Hy; cbn [fst snd] in *; [by eapply list_elem_of_lookup_2|].
  destruct n as [|n]; [by rewrite Hz in Hy|]. unfold clearLog. apply (list_elem_of_lookup_2 _ (x - S n)).
  rewrite lookup_drop. by replace (S n + (x - S n)) with x by lia.
Qed.

(** ** A finished snapshot *)

Section Finished.
Variables (s : state) (t0 t1 : nat) (out : list (Key * Value)) (kept : list (list logged)).
Hypothesis Hinv : inv s.
Hypothesis Hdone : threads s !! snapper' = Some (MapConc.RDone t0 t1 out true).
Hypothesis Hkept : Forall2 keeps (zip (offsets s) (logs s)) kept.

Abbreviation final k := (hist s (MapConc.now (mp s)) !! k).
Abbreviation ops := (mjoin kept).*2.

Lemma finished_range :
  t1 <= MapConc.now (mp s) /\ MapConc.reported m0 (order s) t0 t1 out /\ NoDup out.*1 /\
  (forall k, MapConc.always m0 (order s) t0 t1 k -> k ∈ out.*1).
Proof.
  destruct (MapConc.ok_threads _ _ _ (inv_ok s Hinv) _ _ Hdone) as (H1 & H2 & H3 & H4). by auto.
Qed.

Lemma finished_times : t0 <= t1.
Proof.
  destruct finished_range as (_ & Hrep & _ & Hall). destruct (decide (t0 <= t1)) as [|Hgt]; [done|].
  assert (EmptyString ∈ out.*1) as ([k v] & _ & Hin)%list_elem_of_fmap by (apply Hall; intros τ Hτ; lia).
  destruct (Hrep _ _ Hin) as (τ & Hτ & _). lia.
Qed.

Lemma finished_offsets : length (offsets s) = length (logs s).
Proof. destruct (i_range s Hinv) as [Hr|Hr]; [|done]. by rewrite Hr in Hdone. Qed.

Lemma kept_from y : y ∈ mjoin kept -> exists j l, logs s !! j = Some l /\ y ∈ l.
Proof.
  intros (ks & Hy & [j Hj]%list_elem_of_lookup)%list_elem_of_join.
  destruct (Forall2_lookup_r _ _ _ _ _ Hkept Hj) as ([n l] & Hz & Hk). apply lookup_zip_Some in Hz as [_ Hl].
  exists j, l. split; [done|]. by eapply (keeps_sub (n, l)).
Qed.

Lemma kept_tail j l n x y : logs s !! j = Some l -> offsets s !! j = Some n -> n <= x -> l !! x = Some y -> y ∈ mjoin kept.
Proof.
  intros Hl Hn Hx Hy. assert (zip (offsets s) (logs s) !! j = Some (n, l)) as Hz by by apply lookup_zip_Some.
  destruct (Forall2_lookup_l _ _ _ _ _ Hkept Hz) as (ks & Hks & Hk). apply list_elem_of_join. exists ks.
  split; [by eapply keeps_tail|by eapply list_elem_of_lookup_2].
Qed.

(** A published record is kept, or took effect before [Range] began. *)
Lemma published_kept i :
  i ∈ published s -> exists o, reqs !! i = Some o /\ (o ∈ ops \/ exists t, t < t0 /\ order s !! t = Some (i, write_of o)).
Proof.
  intros (o & l & Ha & Hl & [x Hx]%list_elem_of_lookup)%(i_published s Hinv). exists o. split; [apply Ha|].
  destruct (lookup_lt_is_Some_2 (offsets s) (segment s o)) as [n Hn].
  { rewrite finished_offsets. by eapply lookup_lt_Some. }
  destruct (decide (n <= x)) as [Hle|Hlt].
  - left. apply list_elem_of_fmap. exists (Some i, o). split; [done|]. by eapply kept_tail.
  - right. destruct (i_before s Hinv _ n l x i o Hn Hl) as (t & Ht & Ho); [lia|done|]. exists t. split; [|done].
    unfold MapConc.range_start in Ht. by rewrite Hdone in Ht.
Qed.

(** What the snapshot holds is not newer than what the map holds... *)
Lemma out_final k v : (k, v) ∈ out -> exists f, final k = Some f /\ (Timestamp v <= Timestamp f)%Z.
Proof.
  destruct finished_range as (Ht1 & Hrep & _). intros (t & Hb & Hv)%Hrep. apply (hist_le s t); [done|unfold MapConc.now in *; lia|done].
Qed.

(** ... nor is what the log holds. *)
Lemma ops_final k o : logged_applied -> o ∈ ops -> op_key o = k -> exists f, final k = Some f /\ (Timestamp (op_value o) <= Timestamp f)%Z.
Proof.
  intros Hla ([who o'] & [= ->] & (j & l & Hl & Hin)%kept_from)%list_elem_of_fmap <-.
  destruct (i_logs s Hinv j l Hl) as [Hnew Hold]. destruct who as [i|].
  - destruct (applied_effect s i o' Hinv (Hnew _ _ Hin)) as (t & Ht & Hw).
    apply (hist_le s (S t) _ _ _ Hinv) with (2 := effect_value s t i o' Ht Hw).
    apply lookup_lt_Some in Ht. unfold MapConc.now. lia.
  - destruct (Hold _ Hin) as (l0 & Hl0 & Ho). destruct (Hla l0 o') as (v & Hv & Hle); [by eapply list_elem_of_lookup_2|done|].
    destruct (hist_le s 0 (MapConc.now (mp s)) (op_key o') v Hinv) as (f & Hf & Hle'); [unfold MapConc.now; lia|done|]. exists f. split; [done|lia].
Qed.

(** A record that its key had before [Range] began is covered by the snapshot. *)
Lemma out_covers t k v : t <= t0 -> hist s t !! k = Some v -> exists v', (k, v') ∈ out /\ (Timestamp v <= Timestamp v')%Z.
Proof.
  destruct finished_range as (Ht1 & Hrep & _ & Hall). pose proof finished_times. intros Hb Hv. unfold MapConc.now in *.
  assert (forall τ, t0 <= τ <= t1 -> exists v', hist s τ !! k = Some v' /\ (Timestamp v <= Timestamp v')%Z) as Hlater
    by (intros τ Hτ; apply (hist_le s t); [done|lia|done]).
  assert (k ∈ out.*1) as ([k' v'] & -> & Hin)%list_elem_of_fmap
    by (apply Hall; intros τ Hτ; destruct (Hlater τ Hτ) as (x & -> & _); by eexists).
  exists v'. split; [done|]. destruct (Hrep _ _ Hin) as (τ & Hτ & Hv'). destruct (Hlater τ Hτ) as (x & Hx & Hle). cbn in Hx, Hv'. congruence.
Qed.

(** The record of a settled key is in the snapshot or in what is kept of the log. *)
Lemma final_covered k f :
  settled s k -> final k = Some f -> (exists v, (k, v) ∈ out /\ Timestamp v = Timestamp f) \/
    exists o, o ∈ ops /\ op_key o = k /\ Timestamp (op_value o) = Timestamp f.
Proof.
  intros Hset Hf. destruct finished_range as (Ht1 & Hrep & _ & Hall). pose proof finished_times as Ht01. unfold MapConc.now in *.
  destruct (last_change s t0 (length (order s) - t0) k Hinv) as [Hsame|(x & i & o & Hx & Ho & Hk & Hw & Hval)]; [lia|..];
    replace (t0 + (length (order s) - t0)) with (length (order s)) in * by lia.
  - left. assert (k ∈ out.*1) as ([k' v] & -> & Hin)%list_elem_of_fmap.
    { apply Hall. intros τ Hτ. rewrite Hsame by lia. by rewrite Hf. }
    exists v. split; [done|]. destruct (Hrep _ _ Hin) as (τ & Hτ & Hv). rewrite Hsame, Hf in Hv by (cbn in *; lia). by injection Hv as ->.
  - right. destruct (published_kept i) as (o' & Ho' & Hcase); [by eapply Hset|].
    destruct (i_order s Hinv _ _ _ Ho) as (o2 & Ho2 & [= Hk2 Hv2]). rewrite Ho' in Ho2. injection Ho2 as <-.
    destruct Hcase as [Hin|(t & Ht & Hord)].
    + exists o'. split; [done|]. split; [congruence|]. rewrite Hf in Hval. injection Hval as ->. by rewrite <- Hv2.
    + assert (x = t) as ->; [|lia]. eapply (NoDup_lookup _ _ _ i (MapConc.ok_order _ _ _ (inv_ok s Hinv))); by rewrite list_lookup_fmap, ?Ho, ?Hord.
Qed.

Lemma source_known k r :
  ((exists v, (k, v) ∈ out /\ seen r = seen v) \/ (exists o, o ∈ ops /\ op_key o = k /\ seen r = seen (op_value o))) ->
  exists v, known k v /\ seen r = seen v.
Proof.
  intros [(v & Hin & Hs)|(o & ([who o'] & [= ->] & (j & l & Hl & Hin)%kept_from)%list_elem_of_fmap & Hk & Hs)].
  - destruct finished_range as (Ht1 & Hrep & _ & _). destruct (Hrep _ _ Hin) as (t & Ht & Hv).
    destruct (hist_known s t k v Hinv) as (v' & Hkn & Hs'); [unfold MapConc.now in *; lia|done|]. exists v'. split; [done|congruence].
  - exists (op_value o'). split; [|done]. right. exists o'. split; [done|]. split; [done|].
    destruct (i_logs s Hinv j l Hl) as [Hnew Hold]. destruct who as [i|].
    + left. destruct (Hnew _ _ Hin) as [Hi _]. by eapply list_elem_of_lookup_2.
    + right. destruct (Hold _ Hin) as (l0 & Hl0 & Ho). exists l0. split; [by eapply list_elem_of_lookup_2|done].
Qed.

Lemma published_recovered r i o :
  newest_of out ops (op_key o) r -> i ∈ published s -> reqs !! i = Some o -> exists v, r = Some v /\ (Timestamp (op_value o) <= Timestamp v)%Z.
Proof.
  intros Hr Hp Hi. destruct (published_kept i Hp) as (o' & Ho' & Hcase). rewrite Hi in Ho'. injection Ho' as <-.
  destruct Hcase as [Hin|(t & Ht & Hord)].
  - destruct r as [r|]; [|by destruct (proj2 Hr o Hin)]. exists r. split; [done|]. by apply (proj2 (proj2 Hr)).
  - destruct (i_published s Hinv i Hp) as (o2 & l & Ha & _). assert (o2 = o) as -> by (destruct Ha; congruence).
    destruct (applied_effect s i o Hinv Ha) as (t' & Hord' & Hw). assert (t' = t) as ->.
    { eapply (NoDup_lookup _ _ _ i (MapConc.ok_order _ _ _ (inv_ok s Hinv))); by rewrite list_lookup_fmap, ?Hord, ?Hord'. }
    destruct (out_covers (S t) (op_key o) _ ltac:(lia) (effect_value s t i o Hord Hw)) as (v & Hv & Hle).
    destruct r as [r|]; [|destruct Hr as [Hr _]; destruct Hr; apply list_elem_of_fmap; by exists (op_key o, v)].
    exists r. split; [done|]. destruct Hr as (_ & Hmax & _). specialize (Hmax _ Hv). cbn in Hle. lia.
Qed.

(** Recovery gives a settled key the record that the map holds. *)
Lemma settled_recovered r k :
  logged_applied -> unambiguous -> newest_of out ops k r -> settled s k -> seen <$> r = seen <$> final k.
Proof.
  intros Hla Hun Hr Hset. destruct r as [r|].
  - destruct Hr as (Hsrc & Hmax1 & Hmax2).
    assert (exists f, final k = Some f /\ (Timestamp r <= Timestamp f)%Z) as (f & Hf & Hle).
    { destruct Hsrc as [(v & Hin & [= -> _ _])|(o & Hin & Hk & [= -> _ _])]; [by apply out_final|by eapply ops_final]. }
    rewrite Hf. cbn. f_equal. assert (Timestamp r = Timestamp f) as Hts.
    { destruct (final_covered k f Hset Hf) as [(v & Hv & Hvf)|(o & Ho & Hk & Hof)];
        [specialize (Hmax1 v Hv)|specialize (Hmax2 o Ho Hk)]; lia. }
    destruct (source_known k r Hsrc) as (v1 & Hk1 & Hs1).
    destruct (hist_known s (MapConc.now (mp s)) k f Hinv) as (v2 & Hk2 & Hs2); [done|done|].
    rewrite Hs1, Hs2. apply (Hun k); [done..|]. unfold seen in Hs1, Hs2. congruence.
  - destruct Hr as [Hno1 Hno2]. destruct (final k) as [f|] eqn:Hf; [exfalso|done].
    destruct (final_covered k f Hset Hf) as [(v & Hv & _)|(o & Ho & Hk & _)]; [|by eapply Hno2].
    apply Hno1, list_elem_of_fmap. by exists (k, v).
Qed.

End Finished.
End Invariant.
(** ** Theorem *)

Section Theorems.
Context `{HX : XXHash} `{HR : Radix} `{!XXHashLaws} `{!RadixLaws}.


End Theorems.

(** ** Example *)

Module SnapConcExamples.
Import Fnv GmapRadix.

Inductive event := EMap (i : nat) | EPublish (i : nat) | EPrepare.

Definition fire (reqs : list walOp) (s : state) (e : event) : option state :=
  match e with EMap i => stepMap reqs s i true | EPublish i => stepPublish reqs s i | EPrepare => stepPrepare s end.

Fixpoint play (reqs : list walOp) (s : state) (es : list event) : option state :=
  match es with
  | [] => Some s
  | e :: es' => match fire reqs s e with Some s' => play reqs s' es' | None => None end
  end.

Lemma snap_play_rtc reqs s es s' : play reqs s es = Some s' -> rtc (step reqs) s s'.
Proof.
  revert s. induction es as [|e es IH]; intros s; cbn; [by intros [= ->]|].
  destruct (fire reqs s e) as [s1|] eqn:Es; [|done]. intros Hp. eapply rtc_l; [|by apply IH].
  destruct e; cbn in Es; [left|right; left|right; right]; eauto.
Qed.

(** One record is in the map and in the log; another is written once [Range] has gone past. *)
Definition earlier : walOp := WalEntry_Set (mkSet "a" (Some (string_bytes "old")) 5 "n1").
Definition later : walOp := WalEntry_Set (mkSet "b" (Some (string_bytes "new")) 7 "n1").
Definition g1 : ShardedMap := (StoreLWW NewShardedMap "a" (HashFunc "a") (op_value earlier)).2.
Definition m1 : gmap Key Value := spec_StoreLWW ∅ "a" (op_value earlier).
Definition before : state := init [later] g1 [[earlier]].

Definition events : list event := [EPrepare] ++ replicate 130 (EMap 1) ++ replicate 5 (EMap 0) ++ [EPublish 0; EMap 1].
Definition at_end : state := default before (play [later] before events).

Definition ended (t : option MapConc.thread) : bool :=
  match t with Some (MapConc.RDone 0 1 [(k, v)] true) => bool_decide (k = "a"%string) && bool_decide (v = stamp "a" (op_value earlier)) | _ => false end.

Lemma ended_at t : ended t = true -> t = Some (MapConc.RDone 0 1 [("a"%string, stamp "a" (op_value earlier))] true).
Proof. unfold ended. repeat (case_match; try done). intros [->%bool_decide_eq_true ->%bool_decide_eq_true]%andb_true_iff. done. Qed.


End SnapConcExamples.
End SnapConc.
