(* ===== verification/Resp.v ===== *)
(** * The RESP server (src/server/resp.go)

    Parsing of request frames, dispatch of commands to a database, and the handler of one
    read event.  Indexing and slicing out of range panic in Go: the definitions return [None]
    for a panic, and [RespTheory] shows that none happens.  gnet is third-party: [OnTraffic]
    takes the bytes that [c.Next(-1)] returns, which it also discards from the connection's
    buffer, and returns the bytes written.  The reply buffers are rebuilt from empty at every
    event; the key and value slices the database receives are copies, so they are values here. *)

From S2P Require Import Prelude Kv Iface.

#[local] Open Scope Z_scope.

Module Resp.

(** ** Bytes *)

Definition CR : ascii := byte_of 13.
Definition LF : ascii := byte_of 10.
Definition crlfBytes : bytes := [CR; LF].

Definition line (s : string) : bytes := string_bytes s ++ crlfBytes.

Definition respOK : bytes := line "+OK".
Definition respPONG : bytes := line "+PONG".
Definition respNil : bytes := line "$-1".
Definition respZeroInt : bytes := line ":0".
Definition respOneInt : bytes := line ":1".
Definition respErrCmd : bytes := line "-ERR unknown command".
Definition respErrArgs : bytes := line "-ERR wrong number of arguments".
Definition respErrEmpty : bytes := line "-ERR empty command".

Definition maxArgs : Z := 1024.
Definition maxInt : Z := MaxInt64.

(** [len], [data[i]], [data[lo:hi]] and [bytes.IndexByte]. *)
Definition len (data : bytes) : Z := Z.of_nat (length data).

Definition at_ (data : bytes) (i : Z) : option ascii :=
  if i <? 0 then None else data !! Z.to_nat i.

Definition sub (data : bytes) (lo hi : Z) : option bytes :=
  if (0 <=? lo) && (lo <=? hi) && (hi <=? len data)
  then Some (take (Z.to_nat (hi - lo)) (drop (Z.to_nat lo) data)) else None.

Fixpoint IndexByte (data : bytes) (c : ascii) : Z :=
  match data with
  | [] => -1
  | x :: data' =>
      if bool_decide (x = c) then 0
      else let i := IndexByte data' c in if i <? 0 then -1 else 1 + i
  end.

(** [strconv.AppendInt] in base ten; an [int64] has at most nineteen digits. *)
Definition digit (d : Z) : ascii := byte_of (48 + d).

Fixpoint formatDigits (fuel : nat) (n : Z) (acc : bytes) : bytes :=
  match fuel with
  | O => acc
  | S fuel =>
      if n <? 10 then digit n :: acc
      else formatDigits fuel (n / 10) (digit (n mod 10) :: acc)
  end.

Definition AppendInt (out : bytes) (n : Z) : bytes :=
  out ++ (if n <? 0 then byte_of 45 :: formatDigits 20 (- n) [] else formatDigits 20 n []).

Definition appendBulkBytes (out val : bytes) : bytes :=
  let out := out ++ [byte_of 36] in
  let out := AppendInt out (len val) in
  let out := out ++ crlfBytes in
  let out := out ++ val in
  out ++ crlfBytes.

Definition appendInt (out : bytes) (val : Z) : bytes :=
  let out := out ++ [byte_of 58] in
  let out := AppendInt out val in
  out ++ crlfBytes.

(** ** Parsing *)

Fixpoint fastIntLoop (n : Z) (b : bytes) : option Z :=
  match b with
  | [] => Some n
  | c :: b' =>
      if (byte_val c <? 48) || (57 <? byte_val c) then None
      else
        let digit := byte_val c - 48 in
        if (maxInt - digit) ÷ 10 <? n then None else fastIntLoop (n * 10 + digit) b'
  end.

(** [None] is the error. *)
Definition parseFastInt (b : bytes) : option Z :=
  match b with [] => None | _ => fastIntLoop 0 b end.

(** The result of a parser: a rejected input, or the arguments and the bytes read. *)
Abbreviation parsed := (option (list bytes * Z)) (only parsing).

(** The loop over the bulk strings. *)
Fixpoint parseBulks (numArgs : nat) (data : bytes) (read : Z) (argBuf : list bytes) : option parsed :=
  match numArgs with
  | O => Some (Some (argBuf, read))
  | S numArgs =>
      if len data <=? read then Some None
      else
        c ← at_ data read;
        if negb (bool_decide (c = byte_of 36)) then Some None
        else
          tail ← sub data read (len data);
          let crlfIdx := IndexByte tail LF in
          if (crlfIdx <? 0) || (crlfIdx <? 2) then Some None
          else
            c ← at_ data (read + crlfIdx - 1);
            if negb (bool_decide (c = CR)) then Some None
            else
              num ← sub data (read + 1) (read + crlfIdx - 1);
              match parseFastInt num with
              | None => Some None
              | Some bulkLen =>
                  if bulkLen <? 0 then Some None
                  else
                    let bulkStart := read + crlfIdx + 1 in
                    if (len data - bulkStart <? 2) || (len data - bulkStart - 2 <? bulkLen) then Some None
                    else
                      let bulkEnd := bulkStart + bulkLen in
                      c1 ← at_ data bulkEnd;
                      if negb (bool_decide (c1 = CR)) then Some None
                      else
                        c2 ← at_ data (bulkEnd + 1);
                        if negb (bool_decide (c2 = LF)) then Some None
                        else
                          arg ← sub data bulkStart bulkEnd;
                          parseBulks numArgs data (bulkEnd + 2) (argBuf ++ [arg])
              end
  end.

Definition parseRESPFrame (data : bytes) : option parsed :=
  if len data =? 0 then Some None
  else
    c ← at_ data 0;
    if negb (bool_decide (c = byte_of 42)) then Some None
    else
      let idx := IndexByte data LF in
      if (idx <? 0) || (idx <? 2) then Some None
      else
        c ← at_ data (idx - 1);
        if negb (bool_decide (c = CR)) then Some None
        else
          num ← sub data 1 (idx - 1);
          match parseFastInt num with
          | None => Some None
          | Some numArgs =>
              if numArgs <? 0 then Some None
              else if maxArgs <? numArgs then Some None
              else parseBulks (Z.to_nat numArgs) data (idx + 1) []
          end.

(** ** Dispatch *)

(** [bytes.EqualFold] against an upper-case ASCII word of the same length in bytes.  Such a
    match has one byte per rune, so folding is that of ASCII letters. *)
Definition upper (c : ascii) : ascii :=
  let z := byte_val c in if (97 <=? z) && (z <=? 122) then byte_of (z - 32) else c.

Definition EqualFold (cmd : bytes) (word : string) : bool :=
  bool_decide (upper <$> cmd = string_bytes word).

Section Dispatch.
Context {D : Type} `{Database D}.

(** The text of an error, [fmt.Sprintf("%v", err)]. *)
Context (errorText : goerr -> string).

Definition respErr (e : goerr) : bytes := string_bytes "-ERR " ++ string_bytes (errorText e) ++ crlfBytes.

(** The loop of DEL. *)
Fixpoint deleteKeys (keys : list bytes) (count : Z) (out : bytes) (eng : D) : option (bytes * D) :=
  match keys with
  | [] => Some (appendInt out count, eng)
  | keyBytes :: keys' =>
      match db_Delete (bytes_string keyBytes) eng with
      | None => None
      | Some (_, Err e, eng) => Some (out ++ respErr e, eng)
      | Some (existed, Ok _, eng) =>
          deleteKeys keys' (if existed then count + 1 else count) out eng
      end
  end.

Definition dispatchToBuffer (args : list bytes) (out : bytes) (eng : D) : option (bytes * D) :=
  match args with
  | [] => Some (out ++ respErrEmpty, eng)
  | cmd :: rest =>
      let unknown := Some (out ++ respErrCmd, eng) in
      match length cmd with
      | 3%nat =>
          if EqualFold cmd "GET" then
            match rest with
            | [key] =>
                match db_Get (bytes_string key) eng with
                | None => None
                | Some (None, eng) => Some (out ++ respNil, eng)
                | Some (Some val, eng) => Some (appendBulkBytes out (slice_bytes val), eng)
                end
            | _ => Some (out ++ respErrArgs, eng)
            end
          else if EqualFold cmd "SET" then
            match rest with
            | [key; value] =>
                match db_Set (bytes_string key) (Some value) eng with
                | None => None
                | Some (Err e, eng) => Some (out ++ respErr e, eng)
                | Some (Ok _, eng) => Some (out ++ respOK, eng)
                end
            | _ => Some (out ++ respErrArgs, eng)
            end
          else if EqualFold cmd "DEL" then
            match rest with
            | [] => Some (out ++ respErrArgs, eng)
            | keys => deleteKeys keys 0 out eng
            end
          else unknown
      | 4%nat =>
          if EqualFold cmd "PING" then
            match rest with
            | [] => Some (out ++ respPONG, eng)
            | a :: _ => Some (appendBulkBytes out a, eng)
            end
          else if EqualFold cmd "ECHO" then
            match rest with
            | [] => Some (out ++ respNil, eng)
            | a :: _ => Some (appendBulkBytes out a, eng)
            end
          else if EqualFold cmd "QUIT" then Some (out ++ respOK, eng)
          else unknown
      | 6%nat =>
          if EqualFold cmd "EXISTS" then
            match rest with
            | [key] =>
                match db_Get (bytes_string key) eng with
                | None => None
                | Some (None, eng) => Some (out ++ respZeroInt, eng)
                | Some (Some _, eng) => Some (out ++ respOneInt, eng)
                end
            | _ => Some (out ++ respErrArgs, eng)
            end
          else unknown
      | _ => unknown
      end
  end.

(** ** One read event *)

(** The loop of [OnTraffic]; every accepted frame has at least one byte, so one more round
    than bytes is enough.  Running out of fuel counts as a panic, which is excluded below. *)
Fixpoint trafficLoop (fuel : nat) (data out : bytes) (eng : D) : option (bytes * D) :=
  match fuel with
  | O => None
  | S fuel =>
      if len data <=? 0 then Some (out, eng)
      else
        p ← parseRESPFrame data;
        match p with
        | None => Some (out, eng)
        | Some (args, read) =>
            data' ← sub data read (len data);
            match dispatchToBuffer args out eng with
            | None => None
            | Some (out, eng) => trafficLoop fuel data' out eng
            end
        end
  end.

(** What is written back and the new state; the rest of [data] is gone. *)
Definition OnTraffic (data : bytes) (eng : D) : option (bytes * D) :=
  trafficLoop (S (length data)) data [] eng.

(** A connection: the segments of the byte stream as the event loop delivers them. *)
Fixpoint connection (segments : list bytes) (eng : D) : option (bytes * D) :=
  match segments with
  | [] => Some ([], eng)
  | data :: rest =>
      match OnTraffic data eng with
      | None => None
      | Some (out, eng) =>
          match connection rest eng with
          | None => None
          | Some (outs, eng) => Some (out ++ outs, eng)
          end
      end
  end.

End Dispatch.

End Resp.
