(* ===== verification/RespTheory.v ===== *)
(** * What the RESP server guarantees

    The parser inverts the encoding of requests and never panics; a read event executes the
    complete frames it holds in order; over a database that behaves as a map the replies are
    those of an abstract store.  Two theorems say what happens to a request that arrives in
    more than one read event. *)

From S2P Require Import Prelude Kv Iface Resp.
Import Resp.

#[local] Open Scope Z_scope.

(** ** Numbers *)

Lemma len_app a b : len (a ++ b) = len a + len b.
Proof. unfold len. rewrite length_app. lia. Qed.
Lemma len_cons c b : len (c :: b) = 1 + len b.
Proof. unfold len. cbn [length]. lia. Qed.
Lemma len_nil : len [] = 0.
Proof. done. Qed.
Lemma len_nonneg b : 0 <= len b.
Proof. unfold len. lia. Qed.
#[local] Hint Rewrite len_app len_cons len_nil : len.
Ltac lens := autorewrite with len in *.

(** Equality of concatenations up to nesting. *)
Ltac flat := unfold crlfBytes; cbn [app]; repeat (rewrite <- !(assoc_L (++)); cbn [app]); reflexivity.

Lemma digit_val d : 0 <= d < 10 -> byte_val (digit d) = 48 + d.
Proof. intros Hd. unfold digit. rewrite byte_val_of. apply Z.mod_small. lia. Qed.

Definition is_digit (c : ascii) : Prop := 48 <= byte_val c <= 57.

Lemma digit_is_digit d : 0 <= d < 10 -> is_digit (digit d).
Proof. intros Hd. unfold is_digit. rewrite digit_val by done. lia. Qed.

Lemma fastIntLoop_digit n d b :
  0 <= n -> 0 <= d < 10 -> n * 10 + d <= maxInt ->
  fastIntLoop n (digit d :: b) = fastIntLoop (n * 10 + d) b.
Proof.
  intros Hn Hd Hmax. cbn [fastIntLoop]. rewrite digit_val by done.
  replace (48 + d - 48) with d by lia.
  destruct (Z.ltb_spec (48 + d) 48); [lia|]. destruct (Z.ltb_spec 57 (48 + d)); [lia|]. cbn [orb].
  rewrite Z.quot_div_nonneg by (unfold maxInt, MaxInt64 in *; lia).
  assert (n <= (maxInt - d) / 10) by (apply Z.div_le_lower_bound; lia).
  destruct (Z.ltb_spec ((maxInt - d) / 10) n); [lia|done].
Qed.

Lemma fastIntLoop_format fuel n acc :
  0 <= n < 10 ^ Z.of_nat fuel -> n <= maxInt -> (0 < fuel)%nat ->
  fastIntLoop 0 (formatDigits fuel n acc) = fastIntLoop n acc.
Proof.
  revert n acc. induction fuel as [|fuel IH]; intros n acc Hn Hmax Hf; [lia|]. cbn [formatDigits].
  destruct (Z.ltb_spec n 10).
  - by rewrite fastIntLoop_digit by lia.
  - rewrite Nat2Z.inj_succ, Z.pow_succ_r in Hn by lia.
    pose proof (Z.div_mod n 10 ltac:(lia)). pose proof (Z.mod_pos_bound n 10 ltac:(lia)).
    assert (0 <= n / 10 < 10 ^ Z.of_nat fuel).
    { split; [apply Z.div_pos; lia|]. apply Z.div_lt_upper_bound; lia. }
    assert (0 < fuel)%nat.
    { destruct fuel; [|lia]. cbn in *. lia. }
    rewrite IH by lia. rewrite fastIntLoop_digit by lia. f_equal. lia.
Qed.

(** The decimal text of a length or a count. *)
Definition decimal (n : Z) : bytes := formatDigits 20 n [].

Lemma formatDigits_nonempty fuel n acc : acc <> [] \/ (0 < fuel)%nat -> formatDigits fuel n acc <> [].
Proof.
  revert n acc. induction fuel as [|fuel IH]; intros n acc Hne; cbn; [destruct Hne; [done|lia]|].
  destruct (n <? 10); [done|]. apply IH. by left.
Qed.

Lemma decimal_nonempty n : decimal n <> [].
Proof. apply formatDigits_nonempty. right. lia. Qed.

(** The parser inverts the printer on every non-negative [int]. *)
Lemma parseFastInt_decimal n : 0 <= n <= maxInt -> parseFastInt (decimal n) = Some n.
Proof.
  intros Hn. pose proof (decimal_nonempty n). unfold parseFastInt.
  destruct (decimal n) as [|c b] eqn:E; [done|]. rewrite <- E. unfold decimal.
  rewrite fastIntLoop_format; [done| |lia|lia]. unfold maxInt, MaxInt64 in *. cbn. lia.
Qed.

(** What the number parser accepts is within range: no overflow is possible. *)
Lemma fastIntLoop_range n b r : 0 <= n <= maxInt -> fastIntLoop n b = Some r -> 0 <= r <= maxInt.
Proof.
  revert n. induction b as [|c b IH]; intros n Hn; cbn; [by intros [= <-]|].
  destruct (Z.ltb_spec (byte_val c) 48); [done|]. destruct (Z.ltb_spec 57 (byte_val c)); [done|]. cbn [orb].
  destruct (Z.ltb_spec ((maxInt - (byte_val c - 48)) ÷ 10) n) as [|Hle]; [done|]. apply IH.
  rewrite Z.quot_div_nonneg in Hle by (unfold maxInt, MaxInt64 in *; lia).
  pose proof (Z.mul_div_le (maxInt - (byte_val c - 48)) 10 ltac:(lia)). lia.
Qed.

Lemma AppendInt_decimal out n : 0 <= n -> AppendInt out n = out ++ decimal n.
Proof. intros Hn. unfold AppendInt. destruct (Z.ltb_spec n 0); [lia|done]. Qed.

(** ** Slices *)

Lemma at_app a c b : at_ (a ++ c :: b) (len a) = Some c.
Proof.
  unfold at_, len. destruct (Z.ltb_spec (Z.of_nat (length a)) 0); [lia|].
  rewrite Nat2Z.id. by apply list_lookup_middle.
Qed.

Lemma sub_app a b c lo hi : lo = len a -> hi = len a + len b -> sub (a ++ b ++ c) lo hi = Some b.
Proof.
  intros -> ->. unfold sub. lens. pose proof (len_nonneg a). pose proof (len_nonneg b). pose proof (len_nonneg c).
  destruct (Z.leb_spec 0 (len a)); [|lia]. destruct (Z.leb_spec (len a) (len a + len b)); [|lia].
  destruct (Z.leb_spec (len a + len b) (len a + (len b + len c))); [|lia]. cbn [andb].
  f_equal. unfold len. rewrite Nat2Z.id, drop_app_length.
  replace (Z.to_nat (Z.of_nat (length a) + Z.of_nat (length b) - Z.of_nat (length a))) with (length b) by lia.
  apply take_app_length.
Qed.

Lemma sub_tail a b : sub (a ++ b) (len a) (len (a ++ b)) = Some b.
Proof. rewrite <- (app_nil_r (a ++ b)) at 1. rewrite <- (assoc_L (++)). apply sub_app; [done|]. by lens. Qed.

Lemma IndexByte_app a c b : c ∉ a -> IndexByte (a ++ c :: b) c = len a.
Proof.
  induction a as [|x a IH]; intros Hc; cbn [app IndexByte].
  - by rewrite bool_decide_eq_true_2.
  - rewrite not_elem_of_cons in Hc. rewrite bool_decide_eq_false_2 by (intros ->; tauto).
    rewrite IH by tauto. lens. destruct (Z.ltb_spec (len a) 0); [pose proof (len_nonneg a)|]; lia.
Qed.

Lemma digits_no_LF b : Forall is_digit b -> LF ∉ b.
Proof.
  intros Hb Hin. rewrite list.Forall_forall in Hb. specialize (Hb _ Hin). unfold is_digit in Hb.
  revert Hb. vm_compute. by intros [].
Qed.

Lemma IndexByte_inv data c i :
  IndexByte data c = i -> 0 <= i -> exists a b, data = a ++ c :: b /\ len a = i /\ c ∉ a.
Proof.
  revert i. induction data as [|x data IH]; intros i; cbn [IndexByte]; [lia|].
  destruct (bool_decide_reflect (x = c)) as [->|Hne].
  - intros <- _. exists [], data. split; [done|]. split; [done|]. by intros ?%elem_of_nil.
  - destruct (Z.ltb_spec (IndexByte data c) 0); [lia|]. intros <- _.
    destruct (IH _ eq_refl) as (a & b & -> & Ha & Hc); [lia|]. exists (x :: a), b.
    split; [done|]. split; [lens; lia|]. rewrite not_elem_of_cons. auto.
Qed.

Lemma at_split data i : 0 <= i < len data -> exists a c b, data = a ++ c :: b /\ len a = i /\ at_ data i = Some c.
Proof.
  intros Hi. unfold len in Hi. destruct (lookup_lt_is_Some_2 data (Z.to_nat i)) as [c Hc]; [lia|].
  exists (take (Z.to_nat i) data), c, (drop (S (Z.to_nat i)) data).
  split; [by rewrite take_drop_middle|].
  assert (len (take (Z.to_nat i) data) = i) as Ha by (unfold len; rewrite length_take; lia).
  split; [done|]. unfold at_. destruct (Z.ltb_spec i 0); [lia|done].
Qed.

(** ** The wire format *)

(** A bulk string, with any text for its length that the number parser reads. *)
Definition bulk_form (b v : bytes) : Prop :=
  exists ds, parseFastInt ds = Some (len v) /\ b = byte_of 36 :: ds ++ crlfBytes ++ v ++ crlfBytes.

(** The encoding of requests that clients use: it is the server's own [appendBulkBytes]. *)
Definition encodeBulk (v : bytes) : bytes := appendBulkBytes [] v.
Definition encodeCommand (args : list bytes) : bytes :=
  byte_of 42 :: decimal (Z.of_nat (length args)) ++ crlfBytes ++ mjoin (encodeBulk <$> args).

Lemma encodeBulk_eq v : encodeBulk v = byte_of 36 :: decimal (len v) ++ crlfBytes ++ v ++ crlfBytes.
Proof.
  unfold encodeBulk, appendBulkBytes. rewrite AppendInt_decimal by apply len_nonneg.
  rewrite <- !(assoc_L (++)). done.
Qed.

Lemma encodeBulk_form v : len v <= maxInt -> bulk_form (encodeBulk v) v.
Proof.
  intros Hv. exists (decimal (len v)). split; [|apply encodeBulk_eq].
  apply parseFastInt_decimal. pose proof (len_nonneg v). lia.
Qed.

Lemma parseFastInt_digits ds n : parseFastInt ds = Some n -> LF ∉ ds /\ 0 <= n <= maxInt /\ 1 <= len ds.
Proof.
  unfold parseFastInt. destruct ds as [|c ds]; [done|]. intros Hp.
  assert (forall m b, fastIntLoop m b = Some n -> Forall is_digit b) as Hd.
  { intros m b. revert m. induction b as [|x b IH]; intros m; cbn [fastIntLoop]; [by constructor|].
    destruct (Z.ltb_spec (byte_val x) 48); [done|]. destruct (Z.ltb_spec 57 (byte_val x)); [done|].
    cbn [orb]. destruct (_ <? m); [done|]. intros Hr%IH. by constructor. }
  split; [by eapply digits_no_LF, Hd|]. split; [eapply fastIntLoop_range; [|exact Hp]; unfold maxInt, MaxInt64; lia|].
  lens. pose proof (len_nonneg ds). lia.
Qed.

(** A line ended by CR LF, after a one-byte tag, as both parsers look for it. *)
Lemma tagged_line tag ds rest :
  tag <> LF -> LF ∉ ds -> IndexByte (tag :: ds ++ crlfBytes ++ rest) LF = 2 + len ds.
Proof.
  intros Ht Hd. change (tag :: ds ++ crlfBytes ++ rest) with ((tag :: ds) ++ [CR; LF] ++ rest).
  assert ((tag :: ds) ++ [CR; LF] ++ rest = ((tag :: ds) ++ [CR]) ++ LF :: rest) as ->.
  { by rewrite <- !(assoc_L (++)). }
  rewrite IndexByte_app; [lens; lia|]. rewrite elem_of_app, elem_of_cons, list_elem_of_singleton.
  intros [[E|?]|E]; [by symmetry in E|done|]. by vm_compute in E.
Qed.

Lemma tagged_line_inv tag data idx :
  tag <> LF -> IndexByte (tag :: data) LF = idx -> 2 <= idx -> at_ (tag :: data) (idx - 1) = Some CR ->
  exists ds rest, data = ds ++ crlfBytes ++ rest /\ idx = 2 + len ds /\ LF ∉ ds.
Proof.
  intros Ht Hi Hge Hcr. apply IndexByte_inv in Hi as (a & b & Hab & Ha & Hn); [|lia].
  destruct a as [|t a]; [lens; lia|]. cbn in Hab. injection Hab as <- ->.
  destruct a as [|c a _] using rev_ind; [lens; lia|]. exists a, b. lens.
  assert (c = CR) as ->.
  { replace (tag :: (a ++ [c]) ++ LF :: b) with ((tag :: a) ++ c :: LF :: b) in Hcr by by rewrite <- (assoc_L (++)).
    replace (idx - 1) with (len (tag :: a)) in Hcr by (lens; lia). rewrite at_app in Hcr. by injection Hcr. }
  split; [by rewrite <- (assoc_L (++))|]. split; [lia|].
  rewrite not_elem_of_cons, not_elem_of_app in Hn. tauto.
Qed.

(** ** The parser on well-formed input *)

Lemma parseBulks_form n pre b v rest buf :
  bulk_form b v ->
  parseBulks (S n) (pre ++ b ++ rest) (len pre) buf =
    parseBulks n (pre ++ b ++ rest) (len pre + len b) (buf ++ [v]).
Proof.
  intros (ds & Hds & ->). destruct (parseFastInt_digits _ _ Hds) as (HLF & Hr & Hl).
  set (b := byte_of 36 :: ds ++ crlfBytes ++ v ++ crlfBytes).
  assert (len b = 1 + len ds + 2 + len v + 2) as Hb by (unfold b, crlfBytes; lens; lia).
  pose proof (len_nonneg pre). pose proof (len_nonneg rest). pose proof (len_nonneg v).
  set (data := pre ++ b ++ rest). assert (len data = len pre + len b + len rest) as Hd by (unfold data; lens; lia).
  cbn [parseBulks]. destruct (Z.leb_spec (len data) (len pre)); [lia|].
  assert (at_ data (len pre) = Some (byte_of 36)) as -> by apply at_app. ored.
  rewrite bool_decide_eq_true_2 by done. cbn [negb].
  assert (sub data (len pre) (len data) = Some (b ++ rest)) as -> by apply sub_tail. ored.
  assert (IndexByte (b ++ rest) LF = 2 + len ds) as ->.
  { replace (b ++ rest) with (byte_of 36 :: ds ++ crlfBytes ++ v ++ crlfBytes ++ rest) by (unfold b; flat).
    by apply tagged_line. }
  destruct (Z.ltb_spec (2 + len ds) 0); [lia|]. destruct (Z.ltb_spec (2 + len ds) 2); [lia|]. cbn [orb].
  assert (at_ data (len pre + (2 + len ds) - 1) = Some CR) as ->.
  { replace data with ((pre ++ byte_of 36 :: ds) ++ CR :: LF :: v ++ crlfBytes ++ rest)
      by (unfold data, b; flat).
    replace (len pre + (2 + len ds) - 1) with (len (pre ++ byte_of 36 :: ds)) by (lens; lia). apply at_app. }
  ored. rewrite bool_decide_eq_true_2 by done. cbn [negb].
  assert (sub data (len pre + 1) (len pre + (2 + len ds) - 1) = Some ds) as ->.
  { replace data with ((pre ++ [byte_of 36]) ++ ds ++ crlfBytes ++ v ++ crlfBytes ++ rest)
      by (unfold data, b; flat).
    apply sub_app; lens; lia. }
  ored. rewrite Hds. destruct (Z.ltb_spec (len v) 0); [lia|].
  set (start := len pre + (2 + len ds) + 1).
  destruct (Z.ltb_spec (len data - start) 2); [lia|]. destruct (Z.ltb_spec (len data - start - 2) (len v)); [lia|].
  cbn [orb].
  set (head := pre ++ byte_of 36 :: ds ++ crlfBytes).
  assert (len head = start) as Hhead by (unfold head, start, crlfBytes; lens; lia).
  assert (data = head ++ v ++ CR :: LF :: rest) as Hdata.
  { unfold data, b, head. flat. }
  assert (at_ data (start + len v) = Some CR) as ->.
  { rewrite Hdata, (assoc_L (++)). replace (start + len v) with (len (head ++ v)) by (lens; lia). apply at_app. }
  ored. rewrite bool_decide_eq_true_2 by done. cbn [negb].
  assert (at_ data (start + len v + 1) = Some LF) as ->.
  { rewrite Hdata. replace (head ++ v ++ CR :: LF :: rest) with ((head ++ v ++ [CR]) ++ LF :: rest)
      by flat.
    replace (start + len v + 1) with (len (head ++ v ++ [CR])) by (lens; lia). apply at_app. }
  ored. rewrite bool_decide_eq_true_2 by done. cbn [negb].
  assert (sub data start (start + len v) = Some v) as ->.
  { rewrite Hdata. apply sub_app; lia. }
  ored. f_equal. lia.
Qed.

Lemma parseBulks_forms bs vs pre rest buf :
  Forall2 bulk_form bs vs ->
  parseBulks (length vs) (pre ++ mjoin bs ++ rest) (len pre) buf =
    Some (Some (buf ++ vs, len pre + len (mjoin bs))).
Proof.
  intros Hf. revert pre buf. induction Hf as [|b v bs vs Hb Hf IH]; intros pre buf.
  { cbn [parseBulks length]. rewrite app_nil_r. change (len (mjoin [])) with 0. do 3 f_equal. lia. }
  cbn [length]. rewrite mjoin_cons, <- (assoc_L (++)), (parseBulks_form _ _ _ _ _ _ Hb).
  rewrite (assoc_L (++) pre), <- len_app, IH. rewrite <- (assoc_L (++)). do 3 f_equal. lens. lia.
Qed.

(** A request frame, with any texts for its numbers that the parser reads. *)
Definition frame_form (f : bytes) (args : list bytes) : Prop :=
  exists ds bs, parseFastInt ds = Some (Z.of_nat (length args)) /\ Z.of_nat (length args) <= maxArgs /\
    Forall2 bulk_form bs args /\ f = byte_of 42 :: ds ++ crlfBytes ++ mjoin bs.

Lemma parse_form f args rest :
  frame_form f args -> parseRESPFrame (f ++ rest) = Some (Some (args, len f)).
Proof.
  intros (ds & bs & Hds & Hmax & Hbs & ->). destruct (parseFastInt_digits _ _ Hds) as (HLF & Hr & Hl).
  assert ((byte_of 42 :: ds ++ crlfBytes ++ mjoin bs) ++ rest =
    byte_of 42 :: ds ++ crlfBytes ++ mjoin bs ++ rest) as ->.
  { flat. }
  set (data := byte_of 42 :: ds ++ crlfBytes ++ mjoin bs ++ rest). unfold parseRESPFrame.
  assert (len data = 1 + len ds + 2 + len (mjoin bs) + len rest) as Hd by (unfold data, crlfBytes; lens; lia).
  pose proof (len_nonneg rest). pose proof (len_nonneg (mjoin bs)).
  destruct (Z.eqb_spec (len data) 0); [lia|]. change (at_ data 0) with (Some (byte_of 42)). ored.
  rewrite bool_decide_eq_true_2 by done. cbn [negb].
  assert (IndexByte data LF = 2 + len ds) as -> by by apply tagged_line.
  destruct (Z.ltb_spec (2 + len ds) 0); [lia|]. destruct (Z.ltb_spec (2 + len ds) 2); [lia|]. cbn [orb].
  assert (at_ data (2 + len ds - 1) = Some CR) as ->.
  { replace (2 + len ds - 1) with (len (byte_of 42 :: ds)) by (lens; lia).
    exact (at_app (byte_of 42 :: ds) CR (LF :: mjoin bs ++ rest)). }
  ored. rewrite bool_decide_eq_true_2 by done. cbn [negb].
  assert (sub data 1 (2 + len ds - 1) = Some ds) as ->.
  { apply (sub_app [byte_of 42]); lens; lia. }
  ored. rewrite Hds. destruct (Z.ltb_spec (Z.of_nat (length args)) 0); [lia|].
  destruct (Z.ltb_spec maxArgs (Z.of_nat (length args))); [lia|]. rewrite Nat2Z.id.
  set (head := byte_of 42 :: ds ++ crlfBytes).
  assert (data = head ++ mjoin bs ++ rest) as -> by (unfold data, head; flat).
  replace (2 + len ds + 1) with (len head) by (unfold head, crlfBytes; lens; lia).
  rewrite parseBulks_forms by done. do 3 f_equal. unfold head, crlfBytes. lens. lia.
Qed.

Lemma encodeCommand_form args :
  Z.of_nat (length args) <= maxArgs -> Forall (fun v => len v <= maxInt) args ->
  frame_form (encodeCommand args) args.
Proof.
  intros Hmax Hargs. exists (decimal (Z.of_nat (length args))), (encodeBulk <$> args).
  split; [apply parseFastInt_decimal; unfold maxArgs, maxInt, MaxInt64 in *; lia|]. split; [done|].
  split; [|done]. apply Forall2_fmap_l. clear Hmax.
  induction Hargs as [|v args Hv _ IH]; constructor; [by apply encodeBulk_form|done].
Qed.

(** ** The parser on any input *)

Lemma bulkLine_sound pre suf :
  let data := pre ++ suf in
  forall c tail, suf = c :: tail -> c = byte_of 36 ->
  let i := IndexByte suf LF in 2 <= i ->
  exists x, at_ data (len pre + i - 1) = Some x /\
    (x = CR -> exists ds rest, suf = byte_of 36 :: ds ++ crlfBytes ++ rest /\ i = 2 + len ds /\
       sub data (len pre + 1) (len pre + i - 1) = Some ds).
Proof.
  intros data c tail -> -> i Hi.
  destruct (IndexByte_inv (byte_of 36 :: tail) LF i eq_refl) as (a & b & Hab & Ha & Hn); [lia|].
  destruct a as [|t a]; [lens; lia|]. cbn [app] in Hab. injection Hab as <- ->.
  destruct a as [|x a _] using rev_ind; [lens; lia|]. exists x. lens.
  assert (data = (pre ++ byte_of 36 :: a) ++ x :: LF :: b) as Hdata by (unfold data; flat).
  split.
  { rewrite Hdata. replace (len pre + i - 1) with (len (pre ++ byte_of 36 :: a)) by (lens; lia). apply at_app. }
  intros ->. exists a, b. split; [flat|]. split; [lia|]. rewrite Hdata.
  replace ((pre ++ byte_of 36 :: a) ++ CR :: LF :: b) with ((pre ++ [byte_of 36]) ++ a ++ CR :: LF :: b) by flat.
  apply sub_app; lens; lia.
Qed.

Lemma split_len (b : bytes) n : 0 <= n <= len b -> exists x y, b = x ++ y /\ len x = n.
Proof.
  intros Hn. exists (take (Z.to_nat n) b), (drop (Z.to_nat n) b). split; [by rewrite take_drop|].
  unfold len in *. rewrite length_take. lia.
Qed.

(** The parser never panics, and what it accepts has the shape of a frame. *)
Lemma parseBulks_sound n pre suf buf :
  exists p, parseBulks n (pre ++ suf) (len pre) buf = Some p /\
  forall args read, p = Some (args, read) ->
    exists bs vs rest, args = buf ++ vs /\ length vs = n /\ Forall2 bulk_form bs vs /\
      suf = mjoin bs ++ rest /\ read = len pre + len (mjoin bs).
Proof.
  revert pre suf buf. induction n as [|n IH]; intros pre suf buf.
  { eexists. split; [reflexivity|]. intros args read [= <- <-]. exists [], [], suf.
    rewrite app_nil_r. change (len (mjoin [])) with 0. split_and!; try done. lia. }
  cbn [parseBulks]. set (data := pre ++ suf). pose proof (len_nonneg pre).
  assert (len data = len pre + len suf) as Hlen by (unfold data; lens; lia).
  destruct (Z.leb_spec (len data) (len pre)); [by eexists|].
  destruct suf as [|c tail]; [lens; lia|]. assert (at_ data (len pre) = Some c) as -> by apply at_app. ored.
  destruct (bool_decide_reflect (c = byte_of 36)) as [->|]; cbn [negb]; [|by eexists].
  assert (sub data (len pre) (len data) = Some (byte_of 36 :: tail)) as -> by apply sub_tail. ored.
  set (i := IndexByte (byte_of 36 :: tail) LF).
  destruct (Z.ltb_spec i 0); [by eexists|]. destruct (Z.ltb_spec i 2); [by eexists|]. cbn [orb].
  destruct (bulkLine_sound pre (byte_of 36 :: tail) _ _ eq_refl eq_refl) as (x & Hx & Hline); [done|]. fold data i in Hx, Hline.
  rewrite Hx. ored. destruct (bool_decide_reflect (x = CR)) as [->|]; cbn [negb]; [|by eexists].
  destruct (Hline eq_refl) as (ds & rest & Hsuf & Hi & Hsub). rewrite Hsub. ored.
  destruct (parseFastInt ds) as [bulkLen|] eqn:Hds; [|by eexists].
  destruct (parseFastInt_digits _ _ Hds) as (_ & Hr & _). destruct (Z.ltb_spec bulkLen 0); [by eexists|].
  set (start := len pre + i + 1).
  assert (len (byte_of 36 :: tail) = 1 + len ds + 2 + len rest) as Hl2 by (rewrite Hsuf; unfold crlfBytes; lens; lia).
  destruct (Z.ltb_spec (len data - start) 2); [by eexists|].
  destruct (Z.ltb_spec (len data - start - 2) bulkLen); [by eexists|]. cbn [orb].
  destruct (split_len rest bulkLen) as (v & after & -> & Hv); [lia|].
  set (head := pre ++ byte_of 36 :: ds ++ crlfBytes).
  assert (len head = start) as Hhead by (unfold head, start, crlfBytes; lens; lia).
  assert (data = head ++ v ++ after) as Hdata by (unfold data, head; rewrite Hsuf; flat).
  destruct after as [|x1 [|x2 after]]; [unfold crlfBytes in *; lens; lia..|].
  assert (at_ data (start + bulkLen) = Some x1) as ->.
  { rewrite Hdata, (assoc_L (++)). replace (start + bulkLen) with (len (head ++ v)) by (lens; lia). apply at_app. }
  ored. destruct (bool_decide_reflect (x1 = CR)) as [->|]; cbn [negb]; [|by eexists].
  assert (at_ data (start + bulkLen + 1) = Some x2) as ->.
  { rewrite Hdata. replace (head ++ v ++ CR :: x2 :: after) with ((head ++ v ++ [CR]) ++ x2 :: after) by flat.
    replace (start + bulkLen + 1) with (len (head ++ v ++ [CR])) by (lens; lia). apply at_app. }
  ored. destruct (bool_decide_reflect (x2 = LF)) as [->|]; cbn [negb]; [|by eexists].
  assert (sub data start (start + bulkLen) = Some v) as -> by (rewrite Hdata; apply sub_app; lia). ored.
  assert (data = (head ++ v ++ crlfBytes) ++ after) as -> by (rewrite Hdata; flat).
  replace (start + bulkLen + 2) with (len (head ++ v ++ crlfBytes)) by (unfold crlfBytes; lens; lia).
  destruct (IH (head ++ v ++ crlfBytes) after (buf ++ [v])) as (p & -> & Hp). exists p. split; [done|].
  intros args read ->. destruct (Hp args read eq_refl) as (bs & vs & rest & -> & <- & Hbs & -> & ->).
  exists ((byte_of 36 :: ds ++ crlfBytes ++ v ++ crlfBytes) :: bs), (v :: vs), rest.
  split; [by rewrite <- (assoc_L (++))|]. split; [done|].
  split; [constructor; [|done]; exists ds; by rewrite Hds, Hv|]. rewrite mjoin_cons.
  split; [rewrite Hsuf; flat|]. unfold head, crlfBytes. lens. lia.
Qed.

Lemma parse_sound data :
  exists p, parseRESPFrame data = Some p /\
  forall args read, p = Some (args, read) ->
    exists f rest, data = f ++ rest /\ frame_form f args /\ read = len f.
Proof.
  unfold parseRESPFrame. destruct (Z.eqb_spec (len data) 0); [by eexists|].
  destruct data as [|c tail]; [done|]. change (at_ (c :: tail) 0) with (Some c). ored.
  destruct (bool_decide_reflect (c = byte_of 42)) as [->|]; cbn [negb]; [|by eexists].
  set (idx := IndexByte (byte_of 42 :: tail) LF).
  destruct (Z.ltb_spec idx 0); [by eexists|]. destruct (Z.ltb_spec idx 2); [by eexists|]. cbn [orb].
  destruct (IndexByte_inv (byte_of 42 :: tail) LF idx eq_refl) as (a & b & Hab & Ha & _); [lia|].
  destruct (at_split (byte_of 42 :: tail) (idx - 1)) as (a' & x & b' & _ & _ & Hx).
  { rewrite Hab. lens. pose proof (len_nonneg b). lia. }
  rewrite Hx. ored. destruct (bool_decide_reflect (x = CR)) as [->|]; cbn [negb]; [|by eexists].
  destruct (tagged_line_inv (byte_of 42) tail idx) as (ds & rest & -> & Hidx & _);
    [by vm_compute|done|lia|done|].
  assert (sub (byte_of 42 :: ds ++ crlfBytes ++ rest) 1 (idx - 1) = Some ds) as ->.
  { apply (sub_app [byte_of 42]); lens; lia. }
  ored. destruct (parseFastInt ds) as [numArgs|] eqn:Hds; [|by eexists].
  destruct (Z.ltb_spec numArgs 0); [by eexists|]. destruct (Z.ltb_spec maxArgs numArgs); [by eexists|].
  set (head := byte_of 42 :: ds ++ crlfBytes).
  assert (byte_of 42 :: ds ++ crlfBytes ++ rest = head ++ rest) as -> by (unfold head; flat).
  replace (idx + 1) with (len head) by (unfold head, crlfBytes; lens; lia).
  destruct (parseBulks_sound (Z.to_nat numArgs) head rest []) as (p & -> & Hp). exists p. split; [done|].
  intros args read ->. destruct (Hp args read eq_refl) as (bs & vs & rest' & -> & Hn & Hbs & -> & ->).
  exists (head ++ mjoin bs), rest'. split; [flat|]. split; [|by lens].
  exists ds, bs. cbn [app]. rewrite Hn, Z2Nat.id by lia. split; [done|]. split; [done|]. split; [done|].
  unfold head. flat.
Qed.

Lemma frame_nonempty f args : frame_form f args -> 0 < len f.
Proof. intros (ds & bs & _ & _ & _ & ->). lens. pose proof (len_nonneg (ds ++ crlfBytes ++ mjoin bs)). lens. lia. Qed.

(** C22. The request parser is exact: it never panics, and it accepts an input with arguments
    [args] after [read] bytes exactly when the input begins with a frame of [read] bytes that
    carries [args]: an array header, then for each argument its length and its bytes. *)
Theorem parse_exact data :
  parseRESPFrame data <> None /\
  forall args read, parseRESPFrame data = Some (Some (args, read)) <->
    exists f rest, data = f ++ rest /\ frame_form f args /\ read = len f.
Proof.
  destruct (parse_sound data) as (p & Hp & Hs). rewrite Hp. split; [done|]. intros args read. split.
  - intros [= ->]. by apply Hs.
  - intros (f & rest & -> & Hf & ->). by rewrite (parse_form f args rest Hf) in Hp.
Qed.

(** Round trip: a request of at most 1024 arguments, encoded with the server's own bulk
    encoder and followed by any bytes, is parsed to its arguments and consumed exactly. *)
Theorem request_roundtrip args rest :
  Z.of_nat (length args) <= maxArgs -> Forall (fun v => len v <= maxInt) args ->
  parseRESPFrame (encodeCommand args ++ rest) = Some (Some (args, len (encodeCommand args))).
Proof. intros Hmax Hargs. apply parse_form. by apply encodeCommand_form. Qed.

(** ** Read events *)

Section Traffic.
Context {D : Type} `{HD : Database D} (errorText : goerr -> string).
Implicit Types (eng : D).

(** The commands one after the other. *)
Fixpoint execute (cmds : list (list bytes)) eng : option (bytes * D) :=
  match cmds with
  | [] => Some ([], eng)
  | args :: cmds' =>
      match dispatchToBuffer errorText args [] eng with
      | None => None
      | Some (out, eng) =>
          match execute cmds' eng with
          | None => None
          | Some (outs, eng) => Some (out ++ outs, eng)
          end
      end
  end.

Definition prepend (out : bytes) (r : option (bytes * D)) : option (bytes * D) :=
  match r with Some (o, eng) => Some (out ++ o, eng) | None => None end.

Lemma appendBulk_out out v : appendBulkBytes out v = out ++ appendBulkBytes [] v.
Proof.
  unfold appendBulkBytes. rewrite !AppendInt_decimal by apply len_nonneg. flat.
Qed.

Lemma appendInt_out out n : appendInt out n = out ++ appendInt [] n.
Proof. unfold appendInt, AppendInt. flat. Qed.

Lemma deleteKeys_out keys n out eng :
  deleteKeys errorText keys n out eng = prepend out (deleteKeys errorText keys n [] eng).
Proof.
  revert n eng. induction keys as [|k keys IH]; intros n eng; cbn.
  { by rewrite appendInt_out. }
  destruct (db_Delete _ eng) as [[[b [u|e]] eng']|]; [apply IH|done|done].
Qed.

Lemma dispatch_out args out eng :
  dispatchToBuffer errorText args out eng = prepend out (dispatchToBuffer errorText args [] eng).
Proof.
  unfold dispatchToBuffer. destruct args as [|cmd rest]; [done|].
  assert (forall v e, Some (appendBulkBytes out v, e) = prepend out (Some (appendBulkBytes [] v, e))) as Hbulk.
  { intros v e. unfold prepend. by rewrite <- appendBulk_out. }
  destruct (length cmd) as [|[|[|[|[|[|[|n]]]]]]]; try done.
  - destruct (EqualFold cmd "GET").
    { destruct rest as [|k [|]]; try done. destruct (db_Get _ eng) as [[[v|] eng']|]; [apply Hbulk|done..]. }
    destruct (EqualFold cmd "SET").
    { destruct rest as [|k [|v [|]]]; try done. by destruct (db_Set _ _ eng) as [[[u|e] eng']|]. }
    destruct (EqualFold cmd "DEL"); [|done]. destruct rest; [done|]. apply deleteKeys_out.
  - destruct (EqualFold cmd "PING"); [destruct rest; [done|apply Hbulk]|].
    destruct (EqualFold cmd "ECHO"); [destruct rest; [done|apply Hbulk]|]. by destruct (EqualFold cmd "QUIT").
  - destruct (EqualFold cmd "EXISTS"); [|done]. destruct rest as [|k [|]]; try done.
    by destruct (db_Get _ eng) as [[[v|] eng']|].
Qed.

Lemma prepend_app a b r : prepend a (prepend b r) = prepend (a ++ b) r.
Proof. destruct r as [[o eng]|]; cbn; [|done]. by rewrite (assoc_L (++)). Qed.

Lemma execute_cons args cmds eng :
  execute (args :: cmds) eng =
    match dispatchToBuffer errorText args [] eng with
    | None => None
    | Some (out, eng) => prepend out (execute cmds eng)
    end.
Proof. done. Qed.

(** The loop on complete frames followed by [rest]. *)
Lemma trafficLoop_frames fs cmds rest fuel out eng :
  Forall2 frame_form fs cmds -> (length (mjoin fs ++ rest) < fuel)%nat ->
  rest = [] \/ parseRESPFrame rest = Some None ->
  trafficLoop errorText fuel (mjoin fs ++ rest) out eng = prepend out (execute cmds eng).
Proof.
  intros Hf. revert fuel out eng. induction Hf as [|f args fs cmds Hf1 Hf IH]; intros fuel out eng Hfuel Hrest.
  - change (mjoin [] ++ rest) with rest in *. destruct fuel as [|fuel]; [lia|]. cbn.
    destruct (Z.leb_spec (len rest) 0); [by rewrite app_nil_r|].
    destruct Hrest as [->|Hrest]; [done|]. rewrite Hrest. ored. by rewrite app_nil_r.
  - destruct fuel as [|fuel]; [lia|]. cbn [trafficLoop]. rewrite mjoin_cons, <- (assoc_L (++)) in *.
    pose proof (frame_nonempty _ _ Hf1). pose proof (len_nonneg (mjoin fs ++ rest)).
    destruct (Z.leb_spec (len (f ++ mjoin fs ++ rest)) 0); [lens; lia|].
    rewrite (parse_form _ _ _ Hf1). ored. rewrite sub_tail. ored. rewrite execute_cons, dispatch_out.
    destruct (dispatchToBuffer errorText args [] eng) as [[o eng']|]; cbn [prepend]; [|done].
    rewrite IH, prepend_app; [done| |done]. unfold len in *. rewrite length_app in Hfuel. lia.
Qed.

Lemma OnTraffic_frames fs cmds rest eng :
  Forall2 frame_form fs cmds -> rest = [] \/ parseRESPFrame rest = Some None ->
  OnTraffic errorText (mjoin fs ++ rest) eng = execute cmds eng.
Proof.
  intros Hf Hrest. unfold OnTraffic. rewrite (trafficLoop_frames fs cmds) by (done || lia).
  by destruct (execute cmds eng) as [[]|].
Qed.

(** Every input splits into complete frames and a rest. *)
Lemma frames_of data : exists fs cmds rest, data = mjoin fs ++ rest /\ Forall2 frame_form fs cmds /\
  (rest = [] \/ parseRESPFrame rest = Some None).
Proof.
  remember (length data) as n eqn:Hn. revert data Hn. induction n as [n IH] using lt_wf_ind. intros data ->.
  destruct (parse_sound data) as (p & Hp & Hs). destruct p as [[args read]|].
  - destruct (Hs args read eq_refl) as (f & rest & -> & Hf & ->). pose proof (frame_nonempty _ _ Hf) as Hlen.
    destruct (IH (length rest)) with (data := rest) as (fs & cmds & rest' & -> & Hfs & Hr); [|done|].
    { rewrite length_app. unfold len in Hlen. lia. }
    exists (f :: fs), (args :: cmds), rest'. split; [by rewrite mjoin_cons, <- (assoc_L (++))|].
    split; [by constructor|done].
  - exists [], [], data. split; [done|]. split; [constructor|by right].
Qed.

(** C34. A read event executes, in order and each exactly once, the complete frames its data
    begins with, writes their replies in that order, and always ends; what follows the last
    complete frame has no effect. *)
Theorem traffic_executes_frames data eng :
  exists fs cmds rest, data = mjoin fs ++ rest /\ Forall2 frame_form fs cmds /\
    (rest = [] \/ parseRESPFrame rest = Some None) /\ OnTraffic errorText data eng = execute cmds eng.
Proof.
  destruct (frames_of data) as (fs & cmds & rest & -> & Hf & Hr). exists fs, cmds, rest.
  split; [done|]. split; [done|]. split; [done|]. by apply OnTraffic_frames.
Qed.

(** A strict prefix of a frame is not a frame. *)
Lemma prefix_rejected f a b args : frame_form f args -> f = a ++ b -> b <> [] -> parseRESPFrame a = Some None.
Proof.
  intros Hf -> Hb. destruct (parse_sound a) as ([[args' read]|] & Hp & Hs); [|done].
  destruct (Hs _ _ eq_refl) as (g & rest & -> & Hg & ->).
  pose proof (parse_form _ _ [] Hf) as H1. rewrite app_nil_r, <- (assoc_L (++)), (parse_form _ _ (rest ++ b) Hg) in H1.
  injection H1 as _ Hlen. lens. destruct b; [done|]. lens.
  pose proof (len_nonneg b). pose proof (len_nonneg rest). lia.
Qed.

Lemma connection_two a b eng :
  connection errorText [a; b] eng =
    match OnTraffic errorText a eng with
    | None => None
    | Some (out, eng) => prepend out (OnTraffic errorText b eng)
    end.
Proof.
  cbn [connection]. destruct (OnTraffic errorText a eng) as [[out eng1]|]; [|done].
  destruct (OnTraffic errorText b eng1) as [[out2 eng2]|]; [|done]. cbn. by rewrite app_nil_r.
Qed.

Lemma OnTraffic_prefix f a b args eng :
  frame_form f args -> f = a ++ b -> b <> [] -> OnTraffic errorText a eng = Some ([], eng).
Proof.
  intros Hf Hab Hb. exact (OnTraffic_frames [] [] a eng ltac:(constructor) (or_intror (prefix_rejected f a b args Hf Hab Hb))).
Qed.

(** C35. A request whose bytes arrive in two read events is lost, and its payload can be taken
    for commands: a SET whose value is an encoded command [inner] stores that value when it
    arrives in one piece, but when the second event begins at the value, nothing is stored and
    [inner] is executed. *)
Theorem split_request_smuggles key inner eng :
  Z.of_nat (length inner) <= maxArgs -> Forall (fun v => len v <= maxInt) inner ->
  len (encodeCommand inner) <= maxInt -> len key <= maxInt ->
  let request := [string_bytes "SET"; key; encodeCommand inner] in
  exists a b, encodeCommand request = a ++ b /\
    connection errorText [a ++ b] eng = execute [request] eng /\
    connection errorText [a; b] eng = execute [inner] eng.
Proof.
  intros Hn Hin Hv Hk request.
  assert (frame_form (encodeCommand request) request) as Hreq.
  { apply encodeCommand_form; [done|]. constructor; [done|]. constructor; [done|]. by constructor. }
  set (a := byte_of 42 :: decimal 3 ++ crlfBytes ++ encodeBulk (string_bytes "SET") ++ encodeBulk key ++
            byte_of 36 :: decimal (len (encodeCommand inner)) ++ crlfBytes).
  set (b := encodeCommand inner ++ crlfBytes).
  assert (encodeCommand request = a ++ b) as Hab.
  { unfold encodeCommand at 1, request. cbn [length fmap list_fmap]. rewrite !mjoin_cons.
    rewrite (encodeBulk_eq (encodeCommand inner)). change (Z.of_nat 3) with 3. unfold a, b.
    change (mjoin []) with ([] : bytes). rewrite app_nil_r. flat. }
  exists a, b. split; [done|]. split.
  - cbn [connection]. rewrite <- Hab.
    pose proof (OnTraffic_frames [encodeCommand request] [request] [] eng ltac:(by repeat constructor)
      (or_introl eq_refl)) as He.
    change (mjoin [encodeCommand request]) with (encodeCommand request ++ []) in He. rewrite !app_nil_r in He.
    rewrite He. destruct (execute [request] eng) as [[out eng']|]; [|done]. by rewrite app_nil_r.
  - rewrite connection_two, (OnTraffic_prefix _ a b _ _ Hreq Hab); [|by unfold b; destruct (encodeCommand inner)].
    unfold b.
    pose proof (OnTraffic_frames [encodeCommand inner] [inner] crlfBytes eng
      ltac:(repeat constructor; by apply encodeCommand_form) (or_intror eq_refl)) as He.
    change (mjoin [encodeCommand inner]) with (encodeCommand inner ++ []) in He. rewrite app_nil_r in He.
    rewrite He. by destruct (execute [inner] eng) as [[out eng']|].
Qed.

End Traffic.

(** ** The abstract server: commands on a map *)

Section Store.
Context (errorText : goerr -> string).
Implicit Types (st : gmap string slice).

Definition named (cmd : bytes) (word : string) : Prop := EqualFold cmd word = true.

Definition words : list string := ["GET"; "SET"; "DEL"; "PING"; "ECHO"; "QUIT"; "EXISTS"]%string.

(** DEL: the keys in order, counting those that were there; an error of the storage ends the
    command after the key has been deleted. *)
Inductive redis_del : gmap string slice -> list bytes -> Z -> bytes -> gmap string slice -> Prop :=
| rd_done st n : redis_del st [] n (appendInt [] n) st
| rd_error st k ks n e : redis_del st (k :: ks) n (respErr errorText e) (delete (bytes_string k) st)
| rd_key st k ks n out st' :
    redis_del (delete (bytes_string k) st) ks (if bool_decide (is_Some (st !! bytes_string k)) then n + 1 else n) out st' ->
    redis_del st (k :: ks) n out st'.

(** The reply to a command and the store after it.  A SET whose logging fails replies with the
    error although the value is stored. *)
Inductive redis : gmap string slice -> list bytes -> bytes -> gmap string slice -> Prop :=
| redis_empty st : redis st [] respErrEmpty st
| redis_get st c k : named c "GET" ->
    redis st [c; k] (match st !! bytes_string k with Some v => encodeBulk (slice_bytes v) | None => respNil end) st
| redis_set st c k v : named c "SET" -> redis st [c; k; v] respOK (<[bytes_string k := Some v]> st)
| redis_set_error st c k v e : named c "SET" ->
    redis st [c; k; v] (respErr errorText e) (<[bytes_string k := Some v]> st)
| redis_delete st c k ks out st' : named c "DEL" -> redis_del st (k :: ks) 0 out st' ->
    redis st (c :: k :: ks) out st'
| redis_exists st c k : named c "EXISTS" ->
    redis st [c; k] (if bool_decide (is_Some (st !! bytes_string k)) then respOneInt else respZeroInt) st
| redis_ping st c : named c "PING" -> redis st [c] respPONG st
| redis_echo st c a rest : named c "PING" \/ named c "ECHO" -> redis st (c :: a :: rest) (encodeBulk a) st
| redis_echo_nil st c : named c "ECHO" -> redis st [c] respNil st
| redis_quit st c rest : named c "QUIT" -> redis st (c :: rest) respOK st
| redis_arity st c rest :
    (named c "GET" \/ named c "EXISTS") /\ length rest <> 1%nat \/ named c "SET" /\ length rest <> 2%nat \/
    named c "DEL" /\ rest = [] ->
    redis st (c :: rest) respErrArgs st
| redis_unknown st c rest : Forall (fun w => ~ named c w) words -> redis st (c :: rest) respErrCmd st.

(** A sequence of commands. *)
Inductive redis_run : gmap string slice -> list (list bytes) -> bytes -> gmap string slice -> Prop :=
| rr_nil st : redis_run st [] [] st
| rr_cons st args cmds out st1 outs st2 :
    redis st args out st1 -> redis_run st1 cmds outs st2 -> redis_run st (args :: cmds) (out ++ outs) st2.

Lemma named_length c w : named c w -> length c = length (string_bytes w).
Proof. unfold named, EqualFold. intros E%bool_decide_eq_true. by rewrite <- E, length_fmap. Qed.

Context {D : Type} `{HD : Database D} `{!DatabaseLaws D}.
Implicit Types (eng : D).

Lemma deleteKeys_inv keys n out eng out' eng' :
  db_inv eng -> deleteKeys errorText keys n out eng = Some (out', eng') ->
  db_inv eng' /\ (db_good eng' -> db_good eng).
Proof.
  revert n eng. induction keys as [|k keys IH]; intros n eng Hi; cbn; [by intros [= <- <-]|].
  destruct (db_Delete _ eng) as [[[b [u|e]] eng1]|] eqn:Ed; [..|done];
    destruct (db_Delete_inv _ _ _ _ _ Hi Ed) as [Hi1 Hg1].
  - intros Hr. destruct (IH _ _ Hi1 Hr). auto.
  - by intros [= <- <-].
Qed.

Lemma dispatch_inv args eng out eng' :
  db_inv eng -> dispatchToBuffer errorText args [] eng = Some (out, eng') ->
  db_inv eng' /\ (db_good eng' -> db_good eng).
Proof.
  intros Hi. unfold dispatchToBuffer. destruct args as [|c rest]; [by intros [= <- <-]|].
  destruct (length c) as [|[|[|[|[|[|[|n]]]]]]]; try (by intros [= <- <-]).
  - destruct (EqualFold c "GET").
    { destruct rest as [|k [|]]; try (by intros [= <- <-]).
      destruct (db_Get _ eng) as [[[v|] eng1]|] eqn:Eg; try done; intros [= <- <-]; by eapply db_Get_inv. }
    destruct (EqualFold c "SET").
    { destruct rest as [|k [|v [|]]]; try (by intros [= <- <-]).
      destruct (db_Set _ _ eng) as [[[u|e] eng1]|] eqn:Es; try done; intros [= <- <-]; by eapply db_Set_inv. }
    destruct (EqualFold c "DEL"); [|by intros [= <- <-]].
    destruct rest; [by intros [= <- <-]|]. by apply deleteKeys_inv.
  - destruct (EqualFold c "PING"); [destruct rest; by intros [= <- <-]|].
    destruct (EqualFold c "ECHO"); [destruct rest; by intros [= <- <-]|].
    destruct (EqualFold c "QUIT"); by intros [= <- <-].
  - destruct (EqualFold c "EXISTS"); [|by intros [= <- <-]].
    destruct rest as [|k [|]]; try (by intros [= <- <-]).
    destruct (db_Get _ eng) as [[[v|] eng1]|] eqn:Eg; try done; intros [= <- <-]; by eapply db_Get_inv.
Qed.

Lemma execute_inv cmds eng out eng' :
  db_inv eng -> execute errorText cmds eng = Some (out, eng') -> db_inv eng' /\ (db_good eng' -> db_good eng).
Proof.
  revert eng out. induction cmds as [|args cmds IH]; intros eng out Hi; cbn; [by intros [= <- <-]|].
  destruct (dispatchToBuffer errorText args [] eng) as [[o eng1]|] eqn:Ed; [|done].
  destruct (execute errorText cmds eng1) as [[os eng2]|] eqn:Ee; [|done]. intros [= <- <-].
  destruct (dispatch_inv _ _ _ _ Hi Ed) as [Hi1 Hg1]. destruct (IH _ _ Hi1 Ee). auto.
Qed.

Lemma deleteKeys_redis keys n eng st out eng' :
  db_rep eng st -> deleteKeys errorText keys n [] eng = Some (out, eng') -> db_good eng' ->
  exists st', redis_del st keys n out st' /\ db_rep eng' st'.
Proof.
  revert n eng st. induction keys as [|k keys IH]; intros n eng st Hr; cbn [deleteKeys].
  { intros [= <- <-] _. exists st. split; [constructor|done]. }
  destruct (db_Delete (bytes_string k) eng) as [[[b [u|e]] eng1]|] eqn:Ed; [..|done].
  - intros Hrun Hg. destruct (db_Delete_inv _ _ _ _ _ (db_rep_inv _ _ Hr) Ed) as [Hi1 _].
    destruct (deleteKeys_inv _ _ _ _ _ _ Hi1 Hrun) as [_ Hg1].
    destruct (db_Delete_law _ _ _ _ _ _ Hr Ed (Hg1 Hg)) as [-> Hr1].
    destruct (IH _ _ _ Hr1 Hrun Hg) as (st' & Hd & Hr'). exists st'. split; [by constructor|done].
  - intros [= <- <-] Hg. destruct (db_Delete_law _ _ _ _ _ _ Hr Ed Hg) as [_ Hr1].
    eexists. split; [apply rd_error|done].
Qed.

(** No word matches: some differ, the others have another length. *)
Ltac no_word := repeat constructor; intros Hn; first [unfold named in Hn; congruence | apply named_length in Hn; cbn in Hn; lia].

(** One command does what the abstract server allows. *)
Lemma dispatch_redis args eng st out eng' :
  db_rep eng st -> dispatchToBuffer errorText args [] eng = Some (out, eng') -> db_good eng' ->
  exists st', redis st args out st' /\ db_rep eng' st'.
Proof.
  intros Hr. unfold dispatchToBuffer. destruct args as [|c rest].
  { intros [= <- <-] _. exists st. split; [constructor|done]. }
  assert (forall reply o e, redis st (c :: rest) reply st -> Some ([] ++ reply, eng) = Some (o, e) ->
    db_good e -> exists st', redis st (c :: rest) o st' /\ db_rep e st') as Hlocal.
  { intros reply o e Hred [= <- <-] _. by exists st. }
  destruct (length c) as [|[|[|[|[|[|[|n]]]]]]] eqn:Hlen;
    try (apply Hlocal, redis_unknown; no_word).
  - destruct (EqualFold c "GET") eqn:E1.
    { destruct rest as [|k [|]]; try (apply Hlocal, redis_arity; by auto).
      destruct (db_Get _ eng) as [[[v|] eng1]|] eqn:Eg; try done; intros [= <- <-] Hg;
        destruct (db_Get_law _ _ _ _ _ Hr Eg Hg) as [Hv Hr1]; exists st; (split; [|done]);
        pose proof (redis_get st c k E1) as Hred; rewrite <- Hv in Hred; exact Hred. }
    destruct (EqualFold c "SET") eqn:E2.
    { destruct rest as [|k [|v [|]]]; try (apply Hlocal, redis_arity; by auto).
      destruct (db_Set _ _ eng) as [[[u|e] eng1]|] eqn:Es; try done; intros [= <- <-] Hg;
        pose proof (db_Set_law _ _ _ _ _ _ Hr Es Hg) as Hr1; eexists; (split; [|done]);
        [by apply redis_set|by apply redis_set_error]. }
    destruct (EqualFold c "DEL") eqn:E3; [|apply Hlocal, redis_unknown; no_word].
    destruct rest as [|k ks]; [apply Hlocal, redis_arity; by auto|]. intros Hrun Hg.
    destruct (deleteKeys_redis _ _ _ _ _ _ Hr Hrun Hg) as (st' & Hd & Hr'). exists st'.
    split; [by apply redis_delete|done].
  - destruct (EqualFold c "PING") eqn:E1.
    { destruct rest; apply Hlocal; [by apply redis_ping|apply redis_echo; by left]. }
    destruct (EqualFold c "ECHO") eqn:E2.
    { destruct rest; apply Hlocal; [by apply redis_echo_nil|apply redis_echo; by right]. }
    destruct (EqualFold c "QUIT") eqn:E3; apply Hlocal; [by apply redis_quit|apply redis_unknown; no_word].
  - destruct (EqualFold c "EXISTS") eqn:E1; [|apply Hlocal, redis_unknown; no_word].
    destruct rest as [|k [|]]; try (apply Hlocal, redis_arity; by auto).
    destruct (db_Get _ eng) as [[[v|] eng1]|] eqn:Eg; try done; intros [= <- <-] Hg;
      destruct (db_Get_law _ _ _ _ _ Hr Eg Hg) as [Hv Hr1]; exists st; (split; [|done]);
      pose proof (redis_exists st c k E1) as Hred; rewrite <- Hv in Hred; exact Hred.
Qed.

Lemma execute_redis cmds eng st out eng' :
  db_rep eng st -> execute errorText cmds eng = Some (out, eng') -> db_good eng' ->
  exists st', redis_run st cmds out st' /\ db_rep eng' st'.
Proof.
  revert eng st out. induction cmds as [|args cmds IH]; intros eng st out Hr; cbn.
  { intros [= <- <-] _. exists st. split; [constructor|done]. }
  destruct (dispatchToBuffer errorText args [] eng) as [[o eng1]|] eqn:Ed; [|done].
  destruct (execute errorText cmds eng1) as [[os eng2]|] eqn:Ee; [|done]. intros [= <- <-] Hg.
  destruct (dispatch_inv _ _ _ _ (db_rep_inv _ _ Hr) Ed) as [Hi1 _].
  destruct (execute_inv _ _ _ _ Hi1 Ee) as [_ Hg1].
  destruct (dispatch_redis _ _ _ _ _ Hr Ed (Hg1 Hg)) as (st1 & Hd & Hr1).
  destruct (IH _ _ _ Hr1 Ee Hg) as (st2 & Hrun & Hr2). exists st2. split; [by econstructor|done].
Qed.

(** C11. The RESP server over a database that behaves as a map is a map server: the replies to
    the frames of a read event are those of the abstract server run on the stored map, and the
    database then holds the abstract server's map. *)
Theorem resp_refines_store data eng st out eng' :
  db_rep eng st -> OnTraffic errorText data eng = Some (out, eng') -> db_good eng' ->
  exists fs cmds rest st', data = mjoin fs ++ rest /\ Forall2 frame_form fs cmds /\
    (rest = [] \/ parseRESPFrame rest = Some None) /\ redis_run st cmds out st' /\ db_rep eng' st'.
Proof.
  intros Hr Hrun Hg. destruct (frames_of data) as (fs & cmds & rest & -> & Hf & Hrest).
  rewrite (OnTraffic_frames errorText fs cmds rest eng Hf Hrest) in Hrun.
  destruct (execute_redis _ _ _ _ _ Hr Hrun Hg) as (st' & Hred & Hr'). by exists fs, cmds, rest, st'.
Qed.

End Store.
