(* ===== verification/Mesh.v ===== *)
(** * Membership and routing (src/cluster/mesh/mesh.go, meshbuilder.go)

    The mesh follows the membership that memberlist reports: it keeps the ring and the gRPC
    address of every peer.  memberlist and the protobuf codec are third-party: the model takes
    the notifications as inputs, the results of [Join] as a list, and the codec of the node
    metadata as a class with its documented round trip. *)

From S2P Require Import Prelude Kv HashRing.
From stdpp Require Import pretty.

#[local] Open Scope Z_scope.

Module Mesh.

(** ** Configuration *)

Definition Strict : string := "strict".
Definition Lenient : string := "lenient".

Definition millisecond : Z := 1000000.
Definition defaultJoinRetries : Z := 5.
Definition defaultJoinRetryBaseDelay : Z := 500 * millisecond.
Definition maxJoinRetryDelay : Z := 10000 * millisecond.

Record Config := mkConfig {
  NodeID : string;
  BindAddr : string;
  AdvertiseAddr : string;
  SeedNodes : list string;
  ReplicationFactor : Z;
  BindPort : Z;
  GrpcPort : Z;
  SingleNode : bool;
  FastTest : bool;
  ReplicationFailureMode : string;
  JoinRetries : Z;
  JoinRetryBaseDelay : Z
}.

(** ConfigBuilder: the configuration under construction. *)
Definition NewConfigBuilder : Config := mkConfig "" "" "" [] 3 0 0 false false Strict 0 0.

Definition setSingleNode (b : bool) (c : Config) : Config :=
  mkConfig (NodeID c) (BindAddr c) (AdvertiseAddr c) (SeedNodes c) (ReplicationFactor c) (BindPort c) (GrpcPort c)
    b (FastTest c) (ReplicationFailureMode c) (JoinRetries c) (JoinRetryBaseDelay c).
Definition SetNodeID (id : string) (c : Config) : Config :=
  mkConfig id (BindAddr c) (AdvertiseAddr c) (SeedNodes c) (ReplicationFactor c) (BindPort c) (GrpcPort c)
    (SingleNode c) (FastTest c) (ReplicationFailureMode c) (JoinRetries c) (JoinRetryBaseDelay c).
Definition SetBindAddr (addr : string) (c : Config) : Config :=
  mkConfig (NodeID c) addr (AdvertiseAddr c) (SeedNodes c) (ReplicationFactor c) (BindPort c) (GrpcPort c)
    (SingleNode c) (FastTest c) (ReplicationFailureMode c) (JoinRetries c) (JoinRetryBaseDelay c).
Definition SetBindPort (port : Z) (c : Config) : Config :=
  mkConfig (NodeID c) (BindAddr c) (AdvertiseAddr c) (SeedNodes c) (ReplicationFactor c) port (GrpcPort c)
    (SingleNode c) (FastTest c) (ReplicationFailureMode c) (JoinRetries c) (JoinRetryBaseDelay c).
Definition SetAdvertiseAddr (addr : string) (c : Config) : Config :=
  mkConfig (NodeID c) (BindAddr c) addr (SeedNodes c) (ReplicationFactor c) (BindPort c) (GrpcPort c)
    (SingleNode c) (FastTest c) (ReplicationFailureMode c) (JoinRetries c) (JoinRetryBaseDelay c).
Definition SetSeedNodes (seeds : list string) (c : Config) : Config :=
  mkConfig (NodeID c) (BindAddr c) (AdvertiseAddr c) seeds (ReplicationFactor c) (BindPort c) (GrpcPort c)
    (SingleNode c) (FastTest c) (ReplicationFailureMode c) (JoinRetries c) (JoinRetryBaseDelay c).
Definition SetGrpcPort (port : Z) (c : Config) : Config :=
  mkConfig (NodeID c) (BindAddr c) (AdvertiseAddr c) (SeedNodes c) (ReplicationFactor c) (BindPort c) port
    (SingleNode c) (FastTest c) (ReplicationFailureMode c) (JoinRetries c) (JoinRetryBaseDelay c).
Definition EnableFastTest (c : Config) : Config :=
  mkConfig (NodeID c) (BindAddr c) (AdvertiseAddr c) (SeedNodes c) (ReplicationFactor c) (BindPort c) (GrpcPort c)
    (SingleNode c) true (ReplicationFailureMode c) (JoinRetries c) (JoinRetryBaseDelay c).
Definition SetReplicationFactor (n : Z) (c : Config) : Config :=
  let n := if n <? 1 then 1 else n in
  mkConfig (NodeID c) (BindAddr c) (AdvertiseAddr c) (SeedNodes c) n (BindPort c) (GrpcPort c)
    (SingleNode c) (FastTest c) (ReplicationFailureMode c) (JoinRetries c) (JoinRetryBaseDelay c).
Definition SetReplicationFailureMode (m : string) (c : Config) : Config :=
  mkConfig (NodeID c) (BindAddr c) (AdvertiseAddr c) (SeedNodes c) (ReplicationFactor c) (BindPort c) (GrpcPort c)
    (SingleNode c) (FastTest c) m (JoinRetries c) (JoinRetryBaseDelay c).

(** ** Node metadata *)

Record NodeMetadata := mkMeta { meta_GrpcPort : Z; meta_Weight : Z }.

Class MetaCodec := {
  marshalMeta : NodeMetadata -> option bytes;
  unmarshalMeta : bytes -> option NodeMetadata
}.

Class MetaCodecLaws `{MetaCodec} : Prop := {
  unmarshal_marshal : forall m b, marshalMeta m = Some b -> unmarshalMeta b = Some m
}.

(** A [memberlist.Node]: its name, its address as text, and its metadata. *)
Record member := mkMember { m_Name : string; m_Addr : string; m_Meta : bytes }.

(** [fmt.Sprintf("%s:%d", addr, port)]. *)
Definition hostPort (addr : string) (port : Z) : string := addr +:+ ":" +:+ pretty port.

(** ** State *)

(** [memberList] says whether memberlist has been created. *)
Record Mesh := mkMesh {
  config : Config;
  ring : HashRing.HashRing;
  nodeAddrs : gmap string string;
  stopping : bool;
  memberList : bool;
  localWeight : Z
}.

Definition with_members (m : Mesh) (r : HashRing.HashRing) (addrs : gmap string string) : Mesh :=
  mkMesh (config m) r addrs (stopping m) (memberList m) (localWeight m).

(** [NewMesh] when [memberlist.Create] succeeds; its error is returned otherwise. *)
Definition NewMesh (c : Config) (created : result unit) : result Mesh :=
  match created with
  | Err e => Err (ErrWrap "failed to create memberlist" e)
  | Ok _ => Ok (mkMesh c HashRing.NewHashRing ∅ false true HashRing.defaultVnodes)
  end.

(** The order of a [sync.Map] range is not specified. *)
Definition Members (m : Mesh) : list string :=
  if stopping m || negb (memberList m) then [] else (map_to_list (nodeAddrs m)).*2.

Definition AddressForNode (m : Mesh) (nodeID : string) : string :=
  if stopping m || negb (memberList m) then EmptyString
  else match nodeAddrs m !! nodeID with Some a => a | None => EmptyString end.

Definition Owner (m : Mesh) (key : string) : option string := HashRing.GetNode (ring m) key.

Definition GetOwners (m : Mesh) (key : string) (n : Z) : option (list string) :=
  HashRing.GetOwners (ring m) key n.

Definition UpdateLocalWeight (m : Mesh) (weight : Z) : Mesh :=
  mkMesh (config m) (ring m) (nodeAddrs m) (stopping m) (memberList m) (i32 weight).

Definition Stop (m : Mesh) : Mesh :=
  mkMesh (config m) (ring m) (nodeAddrs m) true (memberList m) (localWeight m).

Section Meta.
Context `{MetaCodec}.

(** The common part of the join and update notifications: the address table and the weight
    that the metadata give. *)
Definition readMeta (node : member) (addrs : gmap string string) : gmap string string * Z :=
  match m_Meta node with
  | [] => (addrs, HashRing.defaultVnodes)
  | _ =>
      match unmarshalMeta (m_Meta node) with
      | None => (addrs, HashRing.defaultVnodes)
      | Some meta =>
          (if 0 <? meta_GrpcPort meta
           then <[m_Name node := hostPort (m_Addr node) (meta_GrpcPort meta)]> addrs else addrs,
           meta_Weight meta)
      end
  end.

Definition NotifyJoin (m : Mesh) (node : option member) : Mesh :=
  match node with
  | None => m
  | Some node =>
      let '(addrs, weight) := readMeta node (nodeAddrs m) in
      with_members m (HashRing.AddNodeWithWeight (ring m) (m_Name node) weight) addrs
  end.

Definition NotifyLeave (m : Mesh) (node : option member) : Mesh :=
  match node with
  | None => m
  | Some node =>
      with_members m (HashRing.RemoveNode (ring m) (m_Name node)) (delete (m_Name node) (nodeAddrs m))
  end.

Definition NotifyUpdate (m : Mesh) (node : option member) : Mesh :=
  match node with
  | None => m
  | Some node =>
      let '(addrs, weight) := readMeta node (nodeAddrs m) in
      with_members m (HashRing.UpdateNodeWeight (ring m) (m_Name node) weight) addrs
  end.

(** [None] is the nil slice returned when the metadata cannot be encoded. *)
Definition NodeMeta (m : Mesh) : option bytes :=
  marshalMeta (mkMeta (i32 (GrpcPort (config m))) (localWeight m)).

End Meta.

(** ** Joining the cluster *)

(** The attempts left, the next delay and the outcomes of the calls of [Join]; the result with
    the sleeps made.  A list of outcomes that is too short means that a call does not return. *)
Fixpoint joinLoop (attempts : nat) (delay : Z) (joins : list (result Z)) (retries : Z)
    : option (result unit * list Z) :=
  match attempts, joins with
  | O, _ => None
  | S _, [] => None
  | S others, Ok _ :: _ => Some (Ok tt, [])
  | S others, Err e :: joins' =>
      match others with
      | O => Some (Err (ErrWrap ("failed to join cluster after " +:+ pretty retries +:+ " attempts") e), [])
      | _ =>
          match joinLoop others (Z.min (i64 (delay * 2)) maxJoinRetryDelay) joins' retries with
          | None => None
          | Some (r, slept) => Some (r, delay :: slept)
          end
      end
  end.

Definition Start (c : Config) (joins : list (result Z)) : option (result unit * list Z) :=
  match SeedNodes c with
  | [] => Some (Ok tt, [])
  | _ =>
      let retries := if JoinRetries c <=? 0 then defaultJoinRetries else JoinRetries c in
      let delay := if JoinRetryBaseDelay c <=? 0 then defaultJoinRetryBaseDelay else JoinRetryBaseDelay c in
      joinLoop (Z.to_nat retries) delay joins retries
  end.

(** ** mesh.Mesher *)

(** The operations that routing uses; [None] is a panic. *)
Class Mesher (M : Type) := {
  mesh_Members : M -> list string;
  mesh_Owner : M -> string -> option string;
  mesh_GetOwners : M -> string -> Z -> option (list string);
  mesh_AddressForNode : M -> string -> string;
  mesh_UpdateLocalWeight : M -> Z -> M
}.

#[export] Instance mesh_mesher : Mesher Mesh := {|
  mesh_Members := Members;
  mesh_Owner := Owner;
  mesh_GetOwners := GetOwners;
  mesh_AddressForNode := AddressForNode;
  mesh_UpdateLocalWeight := UpdateLocalWeight
|}.

(** [NopMesh]: no peers and no owners. *)
Record NopMesh : Set := mkNopMesh {}.

#[export] Instance nop_mesher : Mesher NopMesh := {|
  mesh_Members _ := [];
  mesh_Owner _ _ := Some EmptyString;
  mesh_GetOwners _ _ _ := Some [];
  mesh_AddressForNode _ _ := EmptyString;
  mesh_UpdateLocalWeight m _ := m
|}.

(** ** Theorems *)

(** A notification of memberlist. *)
Inductive notice := Joined (n : member) | Left (n : member) | Updated (n : member).

Section Theory.
Context `{MetaCodec}.

Definition notify (m : Mesh) (n : notice) : Mesh :=
  match n with
  | Joined x => NotifyJoin m (Some x)
  | Left x => NotifyLeave m (Some x)
  | Updated x => NotifyUpdate m (Some x)
  end.

(** The metadata a member advertises, when they can be read. *)
Definition advertised (x : member) : option NodeMetadata :=
  match m_Meta x with [] => None | b => unmarshalMeta b end.

Definition weight_of_member (x : member) : Z :=
  match advertised x with Some meta => meta_Weight meta | None => HashRing.defaultVnodes end.

Definition address_of_member (x : member) : option string :=
  meta ← advertised x;
  if 0 <? meta_GrpcPort meta then Some (hostPort (m_Addr x) (meta_GrpcPort meta)) else None.

Lemma readMeta_eq x addrs :
  readMeta x addrs =
    (match address_of_member x with Some a => <[m_Name x := a]> addrs | None => addrs end, weight_of_member x).
Proof.
  unfold readMeta, address_of_member, weight_of_member, advertised.
  destruct (m_Meta x) as [|c b]; [done|]. destruct (unmarshalMeta (c :: b)) as [meta|]; [|done]. ored.
  by destruct (0 <? meta_GrpcPort meta).
Qed.

(** The ring operation a notification amounts to. *)
Definition ring_of (n : notice) : HashRing.ring_op :=
  match n with
  | Joined x => HashRing.OpJoin (m_Name x) (weight_of_member x)
  | Left x => HashRing.OpLeave (m_Name x)
  | Updated x => HashRing.OpWeight (m_Name x) (weight_of_member x)
  end.

Lemma notify_ring m n : ring (notify m n) = HashRing.ring_apply (ring m) (ring_of n).
Proof. destruct n as [x|x|x]; cbn; unfold NotifyJoin, NotifyUpdate; by rewrite ?readMeta_eq. Qed.

(** The address table that a history of notifications should leave: per node, the last
    address advertised since it last left. *)
Fixpoint last_address (ns : list notice) (id : string) : option string :=
  match ns with
  | [] => None
  | Left x :: ns' => if decide (m_Name x = id) then None else last_address ns' id
  | (Joined x | Updated x) :: ns' =>
      if decide (m_Name x = id)
      then match address_of_member x with Some a => Some a | None => last_address ns' id end
      else last_address ns' id
  end.

Lemma notify_address m n id :
  nodeAddrs (notify m n) !! id =
    match n with
    | Left x => if decide (m_Name x = id) then None else nodeAddrs m !! id
    | Joined x | Updated x =>
        if decide (m_Name x = id)
        then match address_of_member x with Some a => Some a | None => nodeAddrs m !! id end
        else nodeAddrs m !! id
    end.
Proof.
  destruct n as [x|x|x]; cbn; unfold NotifyJoin, NotifyUpdate; rewrite ?readMeta_eq; cbn.
  - destruct (address_of_member x); case_decide as Hd; simplify_eq; rewrite ?lookup_insert_eq, ?lookup_insert_ne; done.
  - case_decide as Hd; simplify_eq; rewrite ?lookup_delete_eq, ?lookup_delete_ne; done.
  - destruct (address_of_member x); case_decide as Hd; simplify_eq; rewrite ?lookup_insert_eq, ?lookup_insert_ne; done.
Qed.

Definition notify_all (m : Mesh) (ns : list notice) : Mesh := foldl notify m ns.

(** C36. The routing table follows the membership: after any notifications the ring is the ring
    built by the corresponding joins, weight changes and leaves, and the address of a node is
    the last one it advertised since it last left. *)
Theorem mesh_follows_membership c m ns :
  NewMesh c (Ok tt) = Ok m ->
  ring (notify_all m ns) = HashRing.ring_run (ring_of <$> ns) /\
  forall id, AddressForNode (notify_all m ns) id = default EmptyString (last_address (reverse ns) id).
Proof.
  intros [= <-]. unfold notify_all. induction ns as [|n ns [IHr IHa]] using rev_ind.
  { split; [done|]. intros id. done. }
  rewrite foldl_snoc. set (m := foldl notify _ ns) in *.
  assert (stopping m = false /\ memberList m = true) as [Hs Hm].
  { unfold m. clear. induction ns as [|n ns [IH1 IH2]] using rev_ind; [done|]. rewrite foldl_snoc.
    set (k := foldl notify _ ns) in *.
    destruct n as [x|x|x]; cbn; unfold NotifyJoin, NotifyUpdate; try destruct (readMeta x _); done. }
  split.
  - rewrite notify_ring, IHr, fmap_app. unfold HashRing.ring_run. cbn. by rewrite foldl_snoc.
  - intros id. rewrite reverse_snoc.
    assert (forall n, stopping (notify m n) = false /\ memberList (notify m n) = true) as Hn.
    { intros [x|x|x]; cbn; unfold NotifyJoin, NotifyUpdate; try destruct (readMeta x _); done. }
    unfold AddressForNode in *. destruct (Hn n) as [-> ->]. rewrite Hs, Hm in IHa. cbn [negb orb] in *.
    rewrite notify_address. specialize (IHa id).
    assert (forall o, match o with Some a => a | None => EmptyString end = default EmptyString o) as Hd by by intros [].
    rewrite Hd in *. destruct n as [x|x|x]; cbn [last_address]; case_decide; try done;
      by destruct (address_of_member x).
Qed.

(** What a node advertises reaches the peers that learn of it: with a lawful codec, a join
    notification that carries the metadata of [m] leads its address and weight into the
    tables of the peer. *)
Theorem metadata_reaches_peers `{!MetaCodecLaws} m peer id addr c b :
  NodeMeta m = Some (c :: b) -> stopping peer = false -> memberList peer = true ->
  let port := i32 (GrpcPort (config m)) in
  let peer' := NotifyJoin peer (Some (mkMember id addr (c :: b))) in
  ring peer' = HashRing.AddNodeWithWeight (ring peer) id (localWeight m) /\
  (0 < port -> AddressForNode peer' id = hostPort addr port).
Proof.
  intros Hm Hs Hl port peer'. unfold NodeMeta in Hm. apply unmarshal_marshal in Hm.
  unfold peer', NotifyJoin, readMeta. cbn [m_Meta m_Name m_Addr]. rewrite Hm. cbn [meta_GrpcPort meta_Weight].
  split; [done|]. intros Hp. unfold AddressForNode, with_members. cbn. rewrite Hs, Hl. cbn. fold port.
  rewrite (proj2 (Z.ltb_lt 0 port) Hp). by rewrite lookup_insert_eq.
Qed.

End Theory.

(** ** Retries *)

Fixpoint backoff (n : nat) (delay : Z) : list Z :=
  match n with O => [] | S n => delay :: backoff n (Z.min (i64 (delay * 2)) maxJoinRetryDelay) end.

(** The number of failures before the first success. *)
Fixpoint failures (joins : list (result Z)) : nat :=
  match joins with Err _ :: joins' => S (failures joins') | _ => 0 end.

Lemma joinLoop_spec attempts delay joins retries :
  (0 < attempts)%nat -> (attempts <= length joins)%nat ->
  if (failures joins <? attempts)%nat
  then joinLoop attempts delay joins retries = Some (Ok tt, backoff (failures joins) delay)
  else exists e, joinLoop attempts delay joins retries =
         Some (Err (ErrWrap ("failed to join cluster after " +:+ pretty retries +:+ " attempts") e),
               backoff (pred attempts) delay) /\ joins !! pred attempts = Some (Err e).
Proof.
  revert delay joins. induction attempts as [|n IH]; intros delay joins Hn Hl; [lia|].
  destruct joins as [|[z|e] joins]; cbn [length] in Hl; [lia|done|].
  cbn [failures joinLoop]. destruct n as [|n].
  { cbn. by exists e. }
  specialize (IH (Z.min (i64 (delay * 2)) maxJoinRetryDelay) joins ltac:(lia) ltac:(lia)).
  change (S (failures joins) <? S (S n))%nat with (failures joins <? S n)%nat.
  destruct (failures joins <? S n)%nat.
  - by rewrite IH.
  - destruct IH as (e' & -> & He'). by exists e'.
Qed.

Lemma backoff_bound n delay : 0 < delay <= maxJoinRetryDelay ->
  Forall (fun d => 0 < d <= maxJoinRetryDelay) (backoff n delay).
Proof.
  revert delay. induction n as [|n IH]; intros delay Hd; cbn; [constructor|]. constructor; [done|].
  apply IH. unfold maxJoinRetryDelay, millisecond in *. rewrite i64_small by lia. lia.
Qed.

(** Joining terminates within its bounds: with [retries] outcomes available, [Start]
    succeeds at the first [Join] that succeeds, if one of the first [retries] does, and
    otherwise reports the last error; it sleeps once per failed attempt but the last, at most
    ten seconds each when the base delay is within that bound. *)
Theorem start_bounded c joins seed seeds :
  SeedNodes c = seed :: seeds ->
  let retries := if JoinRetries c <=? 0 then 5 else JoinRetries c in
  retries <= Z.of_nat (length joins) -> JoinRetryBaseDelay c <= maxJoinRetryDelay ->
  exists r slept, Start c joins = Some (r, slept) /\
    (r = Ok tt <-> Z.of_nat (failures joins) < retries) /\
    Z.of_nat (length slept) = Z.min (Z.of_nat (failures joins)) (retries - 1) /\
    Forall (fun d => 0 < d <= maxJoinRetryDelay) slept.
Proof.
  intros Hseed retries Hlen Hbase. unfold Start. rewrite Hseed. change defaultJoinRetries with 5. fold retries.
  assert (0 < retries) as Hr by (unfold retries; destruct (Z.leb_spec (JoinRetries c) 0); lia).
  set (delay := if JoinRetryBaseDelay c <=? 0 then _ else _).
  assert (0 < delay <= maxJoinRetryDelay) as Hd.
  { unfold delay, defaultJoinRetryBaseDelay, maxJoinRetryDelay, millisecond in *.
    destruct (Z.leb_spec (JoinRetryBaseDelay c) 0); lia. }
  assert (forall n d, length (backoff n d) = n) as Hbl by (intros n; induction n; intros d; cbn; auto).
  pose proof (joinLoop_spec (Z.to_nat retries) delay joins retries ltac:(lia) ltac:(lia)) as Hspec.
  destruct (Nat.ltb_spec (failures joins) (Z.to_nat retries)).
  - rewrite Hspec. eexists _, _. split; [done|]. split; [split; [lia|done]|]. rewrite Hbl.
    split; [lia|by apply backoff_bound].
  - destruct Hspec as (e & -> & _). eexists _, _. split; [done|]. split; [split; [done|lia]|]. rewrite Hbl.
    split; [lia|by apply backoff_bound].
Qed.

End Mesh.
