(* ===== verification/Database.v ===== *)
(** * The single-node database (src/database.go)

    [singleNodeAdapter] embeds the engine, so its [Get], [Set] and [Delete] are the engine's,
    and answers the cluster questions of the [Database] interface for a node without peers.
    The engine discharges [DatabaseLaws], which makes the RESP server's theorems theorems about
    the server over this database. *)

From S2P Require Import Prelude Kv Clock ShardedMap MapTheory HashRing Wal WalTheory Iface Writer Evict Engine EngineTheory Mesh Resp RespTheory.
Import ShardedMap Writer Engine.

#[local] Open Scope Z_scope.

Section Engine.
Context `{HX : XXHash} `{HR : Radix}.
Context {W C E : Type} `{HW : Waler W} `{HC : Clocker C} `{HE : Evictor E}.

Record singleNodeAdapter := mkSingle { sn_Engine : engine W C E; sn_config : Mesh.Config }.

Implicit Types (s : singleNodeAdapter).

Definition sn_with s (e : engine W C E) : singleNodeAdapter := mkSingle e (sn_config s).

Definition sn_Owner s (key : string) : string := Mesh.NodeID (sn_config s).
Definition sn_NodeID s : string := Mesh.NodeID (sn_config s).

Definition sn_SyncPull s : result (list SetRequest * list DeleteRequest) := Ok ([], []).
Definition sn_SyncPush s (sets : list SetRequest) (deletes : list DeleteRequest) : result unit := Ok tt.

(** [None] is the panic on an empty bind address. *)
Definition sn_Addr s : option string :=
  let c := sn_config s in
  if bool_decide (Mesh.BindAddr c = EmptyString) then None
  else Some (Mesh.hostPort (Mesh.BindAddr c) (Mesh.GrpcPort c)).

Definition sn_GossipAddr s : option string :=
  let c := sn_config s in
  if bool_decide (Mesh.BindAddr c = EmptyString) then None
  else Some (Mesh.hostPort (Mesh.BindAddr c) (Mesh.BindPort c)).

#[export] Instance single_database : Database singleNodeAdapter := {|
  db_Get k s := let '(r, e) := Get (sn_Engine s) k in Some (r, sn_with s e);
  db_Set k v s := match Set_ (sn_Engine s) k v with None => None | Some (r, e) => Some (r, sn_with s e) end;
  db_Delete k s :=
    match Delete (sn_Engine s) k with None => None | Some (b, r, e) => Some (b, r, sn_with s e) end
|}.

Context `{!XXHashLaws} `{!RadixLaws} `{!ClockerLaws C}.

Definition single_rep s (st : gmap string slice) : Prop :=
  exists m, eng_ok (sn_Engine s) m /\ live m = st.

Lemma single_step_inv s s' o a r :
  clk_ok (clock (sn_Engine s)) -> client_step (sn_Engine s) o = Some (a, r, sn_Engine s') ->
  clk_ok (clock (sn_Engine s')) /\
  (~ clk_saturated (clock (sn_Engine s')) -> ~ clk_saturated (clock (sn_Engine s))).
Proof.
  intros Hc Hs. destruct (client_step_clock _ _ _ _ _ Hc Hs) as [Hc' Hle]. split; [done|].
  intros Hn Hsat. apply Hn. by eapply clk_saturated_mono.
Qed.

Lemma single_step_rep s s' st o a r :
  single_rep s st -> client_step (sn_Engine s) o = Some (a, r, sn_Engine s') ->
  ~ clk_saturated (clock (sn_Engine s')) ->
  a = (spec_client st o).1 /\ single_rep s' (spec_client st o).2.
Proof.
  intros (m & Hok & <-) Hs Hn. destruct (client_step_ok _ _ _ _ _ _ Hok Hs Hn) as (m' & Hok' & ->).
  split; [done|]. by exists m'.
Qed.

(** The engine behind the adapter is a map for its clients. *)
#[export] Program Instance single_database_laws : DatabaseLaws singleNodeAdapter := {|
  db_inv s := clk_ok (clock (sn_Engine s));
  db_rep := single_rep;
  db_good s := ~ clk_saturated (clock (sn_Engine s))
|}.
Next Obligation. by intros s st (m & [_ Hc _] & _). Qed.
Next Obligation.
  intros s k a s' Hc Hg. cbn in Hg. destruct (Get (sn_Engine s) k) as [r e] eqn:Eg. injection Hg as <- <-.
  apply (single_step_inv s (sn_with s e) (CGet k) (AGet r) (Ok tt) Hc). cbn. by rewrite Eg.
Qed.
Next Obligation.
  intros s k v r s' Hc Hg. cbn in Hg. destruct (Set_ (sn_Engine s) k v) as [[r1 e]|] eqn:Eg; [|done].
  injection Hg as <- <-.
  apply (single_step_inv s (sn_with s e) (CSet k v) ASet r1 Hc). cbn. by rewrite Eg.
Qed.
Next Obligation.
  intros s k b r s' Hc Hg. cbn in Hg. destruct (Delete (sn_Engine s) k) as [[[b1 r1] e]|] eqn:Eg; [|done].
  injection Hg as <- <- <-.
  apply (single_step_inv s (sn_with s e) (CDelete k) (ADelete b1) r1 Hc). cbn. by rewrite Eg.
Qed.
Next Obligation.
  intros s st k a s' Hr Hg Hn. cbn in Hg. destruct (Get (sn_Engine s) k) as [r e] eqn:Eg. injection Hg as <- <-.
  destruct (single_step_rep s (sn_with s e) st (CGet k) (AGet r) (Ok tt) Hr) as [Ha Hr']; [cbn; by rewrite Eg|done|].
  by injection Ha as ->.
Qed.
Next Obligation.
  intros s st k v r s' Hr Hg Hn. cbn in Hg. destruct (Set_ (sn_Engine s) k v) as [[r1 e]|] eqn:Eg; [|done].
  injection Hg as <- <-.
  by destruct (single_step_rep s (sn_with s e) st (CSet k v) ASet r1 Hr) as [_ Hr']; [cbn; by rewrite Eg|done|].
Qed.
Next Obligation.
  intros s st k b r s' Hr Hg Hn. cbn in Hg. destruct (Delete (sn_Engine s) k) as [[[b1 r1] e]|] eqn:Eg; [|done].
  injection Hg as <- <- <-.
  destruct (single_step_rep s (sn_with s e) st (CDelete k) (ADelete b1) r1 Hr) as [Ha Hr']; [cbn; by rewrite Eg|done|].
  by injection Ha as ->.
Qed.

End Engine.

Arguments singleNodeAdapter {_} W C E.

(** ** gRPC: the handlers of src/server/server.go behind the client of gateway/client.go *)

Module Grpc.

Section Handlers.
Context {D : Type} `{Database D}.

(** [server.Get]: the value and whether the key exists. *)
Definition Get (key : string) (eng : D) : option ((slice * bool) * D) :=
  match db_Get key eng with
  | None => None
  | Some (Some val, eng) => Some ((val, true), eng)
  | Some (None, eng) => Some ((None, false), eng)
  end.

(** [server.Set] and [server.Delete]: with an error the response is dropped. *)
Definition Set_ (key : string) (value : slice) (eng : D) : option (result unit * D) := db_Set key value eng.

Definition Delete (key : string) (eng : D) : option (result bool * D) :=
  match db_Delete key eng with
  | None => None
  | Some (_, Err e, eng) => Some (Err e, eng)
  | Some (existed, Ok _, eng) => Some (Ok existed, eng)
  end.

(** [Client.Get], [Client.Set] and [Client.Delete] over a connection that works: an empty
    value is received as nil. *)
Definition clientGet (key : string) (eng : D) : option ((slice * bool) * D) :=
  match Get key eng with None => None | Some ((val, ok), eng) => Some ((norm_slice val, ok), eng) end.

Definition clientSet (key : string) (value : slice) (eng : D) : option (result unit * D) :=
  Set_ key (norm_slice value) eng.

Definition clientDelete (key : string) (eng : D) : option (result bool * D) := Delete key eng.

Inductive call := CallGet (key : string) | CallSet (key : string) (value : slice) | CallDelete (key : string).
Inductive reply := Value (val : slice) (exists_ : bool) | Stored | Deleted (existed : bool) | Failed (e : goerr).

Definition client (c : call) (eng : D) : option (reply * D) :=
  match c with
  | CallGet k => match clientGet k eng with None => None | Some ((v, ok), eng) => Some (Value v ok, eng) end
  | CallSet k v =>
      match clientSet k v eng with
      | None => None
      | Some (Ok _, eng) => Some (Stored, eng)
      | Some (Err e, eng) => Some (Failed e, eng)
      end
  | CallDelete k =>
      match clientDelete k eng with
      | None => None
      | Some (Ok b, eng) => Some (Deleted b, eng)
      | Some (Err e, eng) => Some (Failed e, eng)
      end
  end.

Fixpoint session (cs : list call) (eng : D) : option (list reply * D) :=
  match cs with
  | [] => Some ([], eng)
  | c :: cs' =>
      match client c eng with
      | None => None
      | Some (r, eng) => match session cs' eng with None => None | Some (rs, eng) => Some (r :: rs, eng) end
      end
  end.

End Handlers.

(** ** The abstract store, with nil for an empty value *)

Definition serve (st : gmap string slice) (c : call) : reply * gmap string slice :=
  match c with
  | CallGet k => (match st !! k with Some v => Value (norm_slice v) true | None => Value None false end, st)
  | CallSet k v => (Stored, <[k := norm_slice v]> st)
  | CallDelete k => (Deleted (bool_decide (is_Some (st !! k))), delete k st)
  end.

Fixpoint serve_all (st : gmap string slice) (cs : list call) : list reply * gmap string slice :=
  match cs with
  | [] => ([], st)
  | c :: cs' => let '(r, st1) := serve st c in let '(rs, st2) := serve_all st1 cs' in (r :: rs, st2)
  end.

(** What a client may be told: the store's reply, or an error of the log. *)
Definition told (r s : reply) : Prop :=
  r = s \/ (s = Stored \/ exists b, s = Deleted b) /\ exists e, r = Failed e.

Section Laws.
Context {D : Type} `{HD : Database D} `{!DatabaseLaws D}.
Implicit Types (eng : D).

Lemma client_inv c eng r eng' : db_inv eng -> client c eng = Some (r, eng') -> db_inv eng' /\ (db_good eng' -> db_good eng).
Proof.
  intros Hi. destruct c as [k|k v|k]; cbn; unfold clientGet, clientSet, clientDelete, Get, Set_, Delete.
  - destruct (db_Get k eng) as [[[v|] e]|] eqn:Eq; [| |done]; intros [= _ <-]; by eapply db_Get_inv.
  - destruct (db_Set k (norm_slice v) eng) as [[[|] e]|] eqn:Eq; [| |done]; intros [= _ <-]; by eapply db_Set_inv.
  - destruct (db_Delete k eng) as [[[b [|]] e]|] eqn:Eq; [| |done]; intros [= _ <-]; by eapply db_Delete_inv.
Qed.

Lemma client_serves c eng st r eng' :
  db_rep eng st -> client c eng = Some (r, eng') -> db_good eng' ->
  told r (serve st c).1 /\ db_rep eng' (serve st c).2.
Proof.
  intros Hr Hc Hg. destruct c as [k|k v|k]; cbn in *; unfold clientGet, clientSet, clientDelete, Get, Set_, Delete in *.
  - destruct (db_Get k eng) as [[a e]|] eqn:Eq; [|done]. assert (e = eng') as -> by (by destruct a; injection Hc as _ <-).
    destruct (db_Get_law _ _ _ _ _ Hr Eq Hg) as [-> Hr']. split; [|done]. left.
    by destruct (st !! k); injection Hc as <-.
  - destruct (db_Set k (norm_slice v) eng) as [[q e]|] eqn:Eq; [|done].
    assert (e = eng') as -> by (by destruct q; injection Hc as _ <-).
    split; [|by eapply db_Set_law]. destruct q as [|err]; injection Hc as <-; [by left|right]. eauto.
  - destruct (db_Delete k eng) as [[[b q] e]|] eqn:Eq; [|done].
    assert (e = eng') as -> by (by destruct q; injection Hc as _ <-).
    destruct (db_Delete_law _ _ _ _ _ _ Hr Eq Hg) as [-> Hr']. split; [|done].
    destruct q as [|err]; injection Hc as <-; [by left|right]. eauto.
Qed.

Lemma session_inv cs eng rs eng' : db_inv eng -> session cs eng = Some (rs, eng') -> db_good eng' -> db_good eng.
Proof.
  revert eng rs. induction cs as [|c cs IH]; intros eng rs Hi; cbn; [by intros [= _ <-]|].
  destruct (client c eng) as [[r e]|] eqn:Ec; [|done]. destruct (session cs e) as [[rs' e']|] eqn:Es; [|done].
  intros [= _ <-] Hg. destruct (client_inv _ _ _ _ Hi Ec) as [Hi' Hgood]. by eapply Hgood, IH.
Qed.

(** A gRPC client of a node that behaves as a map sees that map: every [Get] returns the
    last value set and not since deleted (nil for an empty one) and whether there is one, every
    [Delete] tells whether there was one, or else the error of the log is reported although
    the change has been made. *)
Theorem grpc_refines_store cs eng st rs eng' :
  db_rep eng st -> session cs eng = Some (rs, eng') -> db_good eng' ->
  Forall2 told rs (serve_all st cs).1 /\ db_rep eng' (serve_all st cs).2.
Proof.
  revert eng st rs. induction cs as [|c cs IH]; intros eng st rs Hr Hs Hg; cbn in *.
  { injection Hs as <- <-. split; [constructor|done]. }
  destruct (client c eng) as [[r e]|] eqn:Ec; [|done]. destruct (session cs e) as [[rs' e']|] eqn:Es; [|done].
  injection Hs as <- <-. destruct (client_inv _ _ _ _ (db_rep_inv _ _ Hr) Ec) as [Hi _].
  destruct (client_serves _ _ _ _ _ Hr Ec (session_inv _ _ _ _ Hi Es Hg)) as [Ht Hr'].
  destruct (serve st c) as [s st1]. cbn in *. destruct (IH _ _ _ Hr' Es Hg) as [Hall Hrep].
  destruct (serve_all st1 cs). split; [by constructor|done].
Qed.

End Laws.
End Grpc.

(** ** A server over a volatile node *)

Module DatabaseExamples.
Import Fnv GmapRadix EngineExamples Resp.

Definition some_node : singleNodeAdapter NopWal timedClock node_evictor := mkSingle some_engine Mesh.NewConfigBuilder.

Definition some_text (e : goerr) : string := "failed".

Definition some_requests : list (list bytes) :=
  [[string_bytes "SET"; string_bytes "k"; string_bytes "v"]; [string_bytes "get"; string_bytes "k"];
   [string_bytes "DEL"; string_bytes "k"; string_bytes "k"]; [string_bytes "EXISTS"; string_bytes "k"]].

Definition some_data : bytes := mjoin (encodeCommand <$> some_requests).

Definition some_reply := default ([], some_node) (OnTraffic some_text some_data some_node).

Lemma some_node_rep : db_rep some_node ∅.
Proof. exists ∅. split; [exact some_engine_ok|]. apply omap_empty. Qed.

Lemma resp_refines_store_witness :
  exists fs cmds rest st', some_data = mjoin fs ++ rest /\ Forall2 frame_form fs cmds /\
    (rest = [] \/ parseRESPFrame rest = Some None) /\ redis_run some_text ∅ cmds some_reply.1 st'.
Proof.
  destruct (resp_refines_store some_text some_data some_node ∅ some_reply.1 some_reply.2 some_node_rep)
    as (fs & cmds & rest & st' & H1 & H2 & H3 & H4 & _).
  - rewrite <- surjective_pairing. apply returned. vm_compute. reflexivity.
  - intros H. apply H. vm_compute. reflexivity.
  - exists fs, cmds, rest, st'. done.
Defined.

Lemma request_roundtrip_witness :
  parseRESPFrame (encodeCommand [string_bytes "PING"] ++ crlfBytes) = Some (Some ([string_bytes "PING"], 14)).
Proof.
  rewrite (request_roundtrip [string_bytes "PING"] crlfBytes).
  - vm_compute. reflexivity.
  - vm_compute. discriminate.
  - constructor; [vm_compute; discriminate|constructor].
Defined.

Lemma split_request_smuggles_witness :
  exists a b, encodeCommand [string_bytes "SET"; string_bytes "k"; encodeCommand [string_bytes "PING"]] = a ++ b /\
    connection some_text [a; b] some_node = Some (respPONG, some_node).
Proof.
  destruct (split_request_smuggles some_text (string_bytes "k") [string_bytes "PING"] some_node)
    as (a & b & Hab & _ & Hc).
  - vm_compute. discriminate.
  - constructor; [vm_compute; discriminate|constructor].
  - vm_compute. discriminate.
  - vm_compute. discriminate.
  - exists a, b. split; [exact Hab|]. rewrite Hc. reflexivity.
Defined.

Definition some_session : list Grpc.call :=
  [Grpc.CallSet "k" (Some []); Grpc.CallGet "k"; Grpc.CallDelete "k"; Grpc.CallDelete "k"; Grpc.CallGet "k"].

Definition some_replies := default ([], some_node) (Grpc.session some_session some_node).

Lemma grpc_refines_store_witness :
  Forall2 Grpc.told some_replies.1
    [Grpc.Stored; Grpc.Value None true; Grpc.Deleted true; Grpc.Deleted false; Grpc.Value None false].
Proof.
  destruct (Grpc.grpc_refines_store some_session some_node ∅ some_replies.1 some_replies.2 some_node_rep) as [Ht _].
  - rewrite <- surjective_pairing. apply returned. vm_compute. reflexivity.
  - intros Hs. apply Hs. vm_compute. reflexivity.
  - exact Ht.
Defined.

(** The configuration of a node with two seeds, and membership notices of a peer. *)
Definition seeded : Mesh.Config := Mesh.SetSeedNodes ["10.0.0.1:7946"; "10.0.0.2:7946"] Mesh.NewConfigBuilder.

Lemma start_bounded_witness :
  exists r slept, Mesh.Start seeded (replicate 5 (Err (ErrMsg "refused"))) = Some (r, slept) /\
    r <> Ok tt /\ length slept = 4%nat.
Proof.
  destruct (Mesh.start_bounded seeded (replicate 5 (Err (ErrMsg "refused"))) "10.0.0.1:7946" ["10.0.0.2:7946"])
    as (r & slept & Hs & Hr & Hl & _).
  - reflexivity.
  - vm_compute. discriminate.
  - vm_compute. discriminate.
  - exists r, slept. split; [exact Hs|]. split.
    + intros Ho. apply Hr in Ho. discriminate Ho.
    + apply Nat2Z.inj. rewrite Hl. reflexivity.
Defined.

(** A codec of metadata as one byte each for the port and the weight, for numbers that fit. *)
Definition fits (z : Z) : bool := (0 <=? z) && (z <? 256).

#[local] Instance byte_codec : Mesh.MetaCodec := {|
  Mesh.marshalMeta m :=
    if fits (Mesh.meta_GrpcPort m) && fits (Mesh.meta_Weight m)
    then Some [byte_of (Mesh.meta_GrpcPort m); byte_of (Mesh.meta_Weight m)] else None;
  Mesh.unmarshalMeta b :=
    match b with [p; w] => Some (Mesh.mkMeta (byte_val p) (byte_val w)) | _ => None end
|}.

#[local] Instance byte_codec_laws : Mesh.MetaCodecLaws.
Proof.
  constructor. intros [p w] b. cbn. destruct (fits p && fits w) eqn:Ef; [|done]. intros [= <-].
  unfold fits in Ef. by rewrite !byte_val_of, !Z.mod_small by lia.
Qed.

Definition peer (meta : bytes) : Mesh.member := Mesh.mkMember "n2" "10.0.0.2" meta.

Definition some_notices : list Mesh.notice :=
  [Mesh.Joined (peer []); Mesh.Left (peer []); Mesh.Joined (peer [byte_of 80; byte_of 3])].

Definition new_mesh : Mesh.Mesh :=
  Mesh.mkMesh seeded HashRing.NewHashRing ∅ false true HashRing.defaultVnodes.

Lemma mesh_follows_membership_witness :
  Mesh.AddressForNode (Mesh.notify_all new_mesh some_notices) "n2" = "10.0.0.2:80"%string.
Proof.
  destruct (Mesh.mesh_follows_membership seeded new_mesh some_notices eq_refl) as [_ Ha].
  rewrite (Ha "n2"%string). vm_compute. reflexivity.
Defined.

End DatabaseExamples.
