(* ===== verification/Entropy.v ===== *)
(** * Anti-entropy (src/cluster/entropy/sync.go, the Pull and Push handlers of src/server/server.go)

    A node asks a peer for the records in which they differ: it sends its root, shard and
    sub-bucket digests, the peer returns the records of the sub-buckets whose digests differ
    and for which the requester is a replica, and the node merges them under last-write-wins.

    Go ranges over maps in an unspecified order: [Pull] takes the order in which the shards
    come.  The pooled maps are arguments of the functions that take them from their pool, and
    the theorems hold for whatever an earlier use left in them.  A call is modelled against one
    state of the map: writes that arrive while a pull is being answered are not. *)

From S2P Require Import Prelude Kv ShardedMap MapTheory Wal WalTheory Iface Writer Mesh.
Import ShardedMap Writer.

#[local] Open Scope Z_scope.

Module Entropy.

Record PullConfig := mkPull {
  Shards : gmap Z Z;
  Buckets : gmap Z (list Z);
  RequesterID : string;
  Root : Z
}.

(** The message on the wire. *)
Record PullRequest := mkPullRequest {
  NodeId : string;
  pr_RootDigest : Z;
  ShardDigests : gmap Z Z;
  SubDigests : gmap Z (list Z)
}.

Abbreviation batch := (list SetRequest * list DeleteRequest)%type.

(** The copy of a map whose keys are converted one by one. *)
Definition rekey {A} (f : Z -> Z) (m : gmap Z A) : gmap Z A :=
  list_to_map ((fun '(id, x) => (f id, x)) <$> map_to_list m).

(** What [sync.Pool.New] makes for the bucket maps. *)
Definition newBuckets : gmap Z (list Z) :=
  list_to_map ((fun i => (Z.of_nat i, replicate (Z.to_nat SubBucketCount) 0)) <$> seq 0 (Z.to_nat ShardCount)).

(** [None] is a panic: an index out of range. *)
Fixpoint maskLoop (i n : nat) (remote local : list Z) (mask : Z) : option Z :=
  match n with
  | O => Some mask
  | S n =>
      l ← local !! i;
      r ← remote !! i;
      maskLoop (S i) n remote local
        (if negb (l =? r) then Z.lor mask (u64 (Z.shiftl 1 (Z.of_nat i))) else mask)
  end.

Definition calculateMismatchMask (hasBuckets : bool) (remote local : list Z) : option Z :=
  if negb hasBuckets || negb (length remote =? length local)%nat then Some (2 ^ 64 - 1)
  else maskLoop 0 (Z.to_nat SubBucketCount) remote local 0.

Definition buildSetRequest (key : string) (val : Value) : SetRequest :=
  mkSet key (Data val) (Timestamp val) (NodeID val).

Definition buildDeleteRequest (key : string) (val : Value) : DeleteRequest :=
  mkDelete key (Timestamp val) (NodeID val).

Definition excludeSelf (members : list string) (self : string) : list string :=
  filter (fun addr => addr <> self) members.

Section Syncer.
Context `{HX : XXHash} `{HR : Radix} {W C M : Type} `{HW : Waler W} `{HC : Clocker C} `{HM : Mesh.Mesher M}.

(** The map that the Go syncer holds is the one its writer writes to. *)
Record Syncer := mkSyncer {
  writer : StorageWriter W C;
  mesh : M;
  meshConfig : Mesh.Config;
  nodeID : string;
  interval : Z
}.

Implicit Types (s : Syncer).

Definition shm s : ShardedMap.ShardedMap := sw_hm (writer s).

Definition with_writer s (w : StorageWriter W C) : Syncer :=
  mkSyncer w (mesh s) (meshConfig s) (nodeID s) (interval s).

(** A missing mesh or client cache panics. *)
Definition NewSyncer (w : StorageWriter W C) (msh : option M) (cc : bool) (c : Mesh.Config) (id : string)
    (ival : Z) : option Syncer :=
  match msh with
  | None => None
  | Some m => if cc then Some (mkSyncer w m c id ival) else None
  end.

(** [Start] panics on an interval that is not positive. *)
Definition startPanics s : bool := interval s <=? 0.

(** ** Answering a pull *)

Definition isRequesterResponsible s (key requesterID : string) : option bool :=
  if Mesh.SingleNode (meshConfig s) then Some true
  else
    owners ← Mesh.mesh_GetOwners (mesh s) key (Mesh.ReplicationFactor (meshConfig s));
    Some (bool_decide (requesterID ∈ owners)).

Fixpoint collectLoop s (requesterID : string) (l : list (string * Value)) (acc : batch) : option batch :=
  match l with
  | [] => Some acc
  | (k, v) :: l' =>
      responsible ← isRequesterResponsible s k requesterID;
      collectLoop s requesterID l'
        (if negb responsible then acc
         else if Tombstone v then (acc.1, acc.2 ++ [buildDeleteRequest k v])
         else (acc.1 ++ [buildSetRequest k v], acc.2))
  end.

Definition collectShardMismatches s (shardID mismatchMask : Z) (requesterID : string) (acc : batch) : option batch :=
  collectLoop s requesterID (RangeShard (shm s) shardID mismatchMask) acc.

(** One round of the loop of [Pull]. *)
Definition pullShard s (cfg : PullConfig) (localShards : gmap Z Z) (localBuckets : gmap Z (list Z))
    (shardID : Z) (acc : batch) : option batch :=
  localShardHash ← localShards !! shardID;
  if bool_decide (Shards cfg !! shardID = Some localShardHash) then Some acc
  else
    let remote := Buckets cfg !! shardID in
    mask ← calculateMismatchMask (bool_decide (is_Some remote)) (default [] remote)
             (default [] (localBuckets !! shardID));
    if 0 <? mask then collectShardMismatches s shardID mask (RequesterID cfg) acc else Some acc.

Fixpoint pullLoop s (cfg : PullConfig) (localShards : gmap Z Z) (localBuckets : gmap Z (list Z))
    (order : list Z) (acc : batch) : option batch :=
  match order with
  | [] => Some acc
  | id :: order' =>
      acc ← pullShard s cfg localShards localBuckets id acc;
      pullLoop s cfg localShards localBuckets order' acc
  end.

(** [order]: the keys of the filled shard map in the order in which the range visits them;
    [poolShards] and [poolBuckets]: the maps taken from the pools. *)
Definition Pull s (cfg : PullConfig) (poolShards : gmap Z Z) (poolBuckets : gmap Z (list Z)) (order : list Z)
    : option batch :=
  if Root cfg =? RootDigest (shm s) then Some ([], [])
  else
    let localShards := FillShardDigests (shm s) poolShards in
    localBuckets ← FillDigests (shm s) (Some poolBuckets);
    pullLoop s cfg localShards localBuckets order ([], []).

(** ** Applying a batch *)

Fixpoint pushSets (w : StorageWriter W C) (sets : list SetRequest) : option (result unit * StorageWriter W C) :=
  match sets with
  | [] => Some (Ok tt, w)
  | req :: sets' =>
      match ApplySet w req with
      | None => None
      | Some (Err e, w) => Some (Err e, w)
      | Some (Ok _, w) => pushSets w sets'
      end
  end.

Fixpoint pushDeletes (w : StorageWriter W C) (dels : list DeleteRequest) : option (result unit * StorageWriter W C) :=
  match dels with
  | [] => Some (Ok tt, w)
  | req :: dels' =>
      match ApplyDelete w req with
      | None => None
      | Some (Err e, w) => Some (Err e, w)
      | Some (Ok _, w) => pushDeletes w dels'
      end
  end.

(** The first error ends the batch. *)
Definition Push s (sets : list SetRequest) (deletes : list DeleteRequest) : option (result unit * Syncer) :=
  match pushSets (writer s) sets with
  | None => None
  | Some (Err e, w) => Some (Err e, with_writer s w)
  | Some (Ok _, w) =>
      match pushDeletes w deletes with
      | None => None
      | Some (r, w) => Some (r, with_writer s w)
      end
  end.

(** ** One round *)

(** The shard identifiers are converted to [uint32]. *)
Definition preparePullRequest s (poolShards : gmap Z Z) (poolBuckets : gmap Z (list Z)) : option PullRequest :=
  let localShards := FillShardDigests (shm s) poolShards in
  localBuckets ← FillDigests (shm s) (Some poolBuckets);
  Some (mkPullRequest (nodeID s) (RootDigest (shm s)) (rekey u32 localShards) (rekey u32 localBuckets)).

(** [pick]: the random index; [dial]: whether a client for the peer can be had; [rpc]: the
    peer's answer.  Errors are logged and end the round. *)
Definition performSync s (pick : nat) (dial : string -> result unit)
    (rpc : string -> PullRequest -> result batch) (poolShards : gmap Z Z) (poolBuckets : gmap Z (list Z))
    : option Syncer :=
  let members := Mesh.mesh_Members (mesh s) in
  match members with
  | [] => Some s
  | _ =>
      let peers := excludeSelf members (Mesh.mesh_AddressForNode (mesh s) (nodeID s)) in
      match peers with
      | [] => Some s
      | _ =>
          target ← peers !! pick;
          match dial target with
          | Err _ => Some s
          | Ok _ =>
              req ← preparePullRequest s poolShards poolBuckets;
              match rpc target req with
              | Err _ => Some s
              | Ok (entries, deletions) =>
                  if (0 <? length entries)%nat || (0 <? length deletions)%nat then
                    match Push s entries deletions with None => None | Some (_, s') => Some s' end
                  else Some s
              end
          end
      end
  end.

(** ** The gRPC handlers *)

(** [copy(dst, src)]: as much as fits. *)
Definition copyInto (dst src : list Z) : list Z := take (length dst) src ++ drop (length src) dst.

(** [server.Pull] up to the call of [SyncPull]: the shard map is empty when taken from the
    pool; the bucket map has every shard, zeroed. *)
Definition handlerConfig (req : PullRequest) : PullConfig :=
  mkPull (rekey i32 (ShardDigests req))
    (map_imap (fun id dst => Some (match rekey i32 (SubDigests req) !! id with
                                   | Some src => copyInto dst src | None => dst end)) newBuckets)
    (NodeId req) (pr_RootDigest req).

Definition serverPull s (req : PullRequest) (poolShards : gmap Z Z) (poolBuckets : gmap Z (list Z)) (order : list Z)
    : option batch :=
  Pull s (handlerConfig req) poolShards poolBuckets order.

(** [server.Push] returns the error of [SyncPush]. *)
Definition serverPush s (sets : list SetRequest) (deletes : list DeleteRequest) : option (result unit * Syncer) :=
  Push s sets deletes.

(** A message sent with an empty value is received with a nil one. *)
Definition wire (b : batch) : batch :=
  ((fun r => mkSet (set_Key r) (norm_slice (set_Value r)) (set_Timestamp r) (set_NodeId r)) <$> b.1, b.2).

End Syncer.

Arguments Syncer {_} W C M.
End Entropy.
