(* ===== verification/EntropyTheory.v ===== *)
(** * What anti-entropy achieves

    A pull returns exactly the records of the sub-buckets that differ and that the requester
    replicates; a round of synchronisation is a last-write-wins merge of them; and two rounds,
    one in each direction, make two replicas equal. *)

From S2P Require Import Prelude Kv ShardedMap MapTheory Wal WalTheory Iface Writer Mesh Entropy.
Import ShardedMap Writer Entropy.

#[local] Open Scope Z_scope.

(** ** Digest maps *)

(** The identifiers of the shards. *)
Definition shardIDs : list Z := Z.of_nat <$> seq 0 (Z.to_nat ShardCount).

Lemma elem_of_shardIDs id : id ∈ shardIDs <-> 0 <= id < ShardCount.
Proof.
  unfold shardIDs. rewrite list_elem_of_fmap. change ShardCount with 128. split.
  - intros (i & -> & Hi%elem_of_seq). lia.
  - intros Hid. exists (Z.to_nat id). rewrite elem_of_seq. lia.
Qed.

Lemma shardIDs_NoDup : NoDup shardIDs.
Proof. apply NoDup_fmap_2; [apply _|apply NoDup_seq]. Qed.

Lemma lookup_indexed {A B} (F : nat -> A -> B) (l : list A) (i : nat) :
  (list_to_map (imap (fun i s => (Z.of_nat i, F i s)) l) : gmap Z B) !! Z.of_nat i = F i <$> l !! i.
Proof.
  assert (forall j, (imap (fun i s => (Z.of_nat i, F i s)) l) !! j = (fun s => (Z.of_nat j, F j s)) <$> l !! j) as Hl
    by (intros j; by rewrite list_lookup_imap).
  destruct (l !! i) as [x|] eqn:Ei; cbn.
  - apply elem_of_list_to_map_1.
    + apply NoDup_alt. intros j1 j2 z H1 H2. rewrite !list_lookup_fmap, Hl in *.
      destruct (l !! j1), (l !! j2); simplify_eq/=. lia.
    + apply list_elem_of_lookup. exists i. by rewrite Hl, Ei.
  - apply not_elem_of_list_to_map_1. intros ([z y] & Hz & [j Hj]%list_elem_of_lookup)%list_elem_of_fmap.
    rewrite Hl in Hj. destruct (l !! j) eqn:Ej; simplify_eq/=.
Qed.

Lemma rekey_id {A} (f : Z -> Z) (m : gmap Z A) : (forall i x, m !! i = Some x -> f i = i) -> rekey f m = m.
Proof.
  intros Hf. unfold rekey. rewrite <- (list_to_map_to_list m) at 2. f_equal.
  rewrite <- (list_fmap_id (map_to_list m)) at 2. apply list_fmap_ext. intros j [i x] Hj.
  cbn. rewrite (Hf i x); [done|]. apply elem_of_map_to_list, list_elem_of_lookup. by exists j.
Qed.

(** What may be in the pooled maps: identifiers of shards, and buffers of at most 64 digests. *)
Definition pools_ok (ps : gmap Z Z) (pb : gmap Z (list Z)) : Prop :=
  (forall i x, ps !! i = Some x -> 0 <= i < ShardCount) /\
  (forall i b, pb !! i = Some b -> 0 <= i < ShardCount /\ Z.of_nat (length b) <= SubBucketCount).

Section Maps.
Context `{HX : XXHash} `{HR : Radix} `{!XXHashLaws} `{!RadixLaws}.
Implicit Types (sm : ShardedMap.ShardedMap).

Lemma subHashes_length sm i s : sm_ok sm -> shards sm !! i = Some s -> length (subHashes s) = Z.to_nat SubBucketCount.
Proof.
  intros Hok Hs. pose proof (sm_shards sm Hok _ _ Hs) as Hso. unfold subHashes.
  rewrite length_zip_with, (so_digests _ _ Hso), (so_counts _ _ Hso), !length_fmap, (so_len _ _ Hso). lia.
Qed.

Lemma FillShardDigests_lookup sm ps id :
  sm_ok sm -> (forall i x, ps !! i = Some x -> 0 <= i < ShardCount) ->
  FillShardDigests sm ps !! id = if decide (0 <= id < ShardCount) then shardHash <$> shards sm !! Z.to_nat id else None.
Proof.
  intros Hok Hps. unfold FillShardDigests. case_decide as Hid.
  - destruct (shard_lookup sm id Hok Hid) as [s Hs]. rewrite Hs. apply lookup_union_Some_l.
    rewrite <- (Z2Nat.id id) at 1 by lia. by rewrite (lookup_indexed (fun _ => shardHash)), Hs.
  - apply lookup_union_None. split; [|by destruct (ps !! id) eqn:E; [apply Hps in E|]].
    apply not_elem_of_list_to_map_1. intros ([z y] & -> & [j Hj]%list_elem_of_lookup)%list_elem_of_fmap.
    rewrite list_lookup_imap in Hj. destruct (shards sm !! j) eqn:Ej; simplify_eq/=.
    apply lookup_lt_Some in Ej. rewrite (sm_len sm Hok) in Ej. lia.
Qed.

Lemma FillDigests_lookup sm pb :
  sm_ok sm -> (forall i b, pb !! i = Some b -> 0 <= i < ShardCount /\ Z.of_nat (length b) <= SubBucketCount) ->
  exists d, FillDigests sm (Some pb) = Some d /\
    forall id, d !! id = if decide (0 <= id < ShardCount) then subHashes <$> shards sm !! Z.to_nat id else None.
Proof.
  intros Hok Hpb. eexists. split; [reflexivity|]. intros id. case_decide as Hid.
  - destruct (shard_lookup sm id Hok Hid) as [s Hs]. rewrite Hs. apply lookup_union_Some_l.
    rewrite <- (Z2Nat.id id) at 1 by lia.
    rewrite (lookup_indexed (fun i s => fillBuf (default [] (pb !! Z.of_nat i)) s)), Hs. cbn. f_equal.
    unfold fillBuf. case_match eqn:El; [done|]. destruct (pb !! Z.of_nat (Z.to_nat id)) as [b|] eqn:Eb; [|done].
    apply Hpb in Eb as [_ Hb]. cbn in *. rewrite drop_ge by lia. apply app_nil_r.
  - apply lookup_union_None. split; [|by destruct (pb !! id) eqn:E; [apply Hpb in E as [? _]|]].
    apply not_elem_of_list_to_map_1. intros ([z y] & -> & [j Hj]%list_elem_of_lookup)%list_elem_of_fmap.
    rewrite list_lookup_imap in Hj. destruct (shards sm !! j) eqn:Ej; simplify_eq/=.
    apply lookup_lt_Some in Ej. rewrite (sm_len sm Hok) in Ej. lia.
Qed.

(** The pooled maps can be used again after a fill. *)
Lemma pools_ok_filled sm ps pb d :
  sm_ok sm -> pools_ok ps pb -> FillDigests sm (Some pb) = Some d -> pools_ok (FillShardDigests sm ps) d.
Proof.
  intros Hok [Hps Hpb] Hd. destruct (FillDigests_lookup sm pb Hok Hpb) as (d' & Hd' & Hl).
  rewrite Hd' in Hd. injection Hd as <-. split.
  - intros i x. rewrite FillShardDigests_lookup by done. case_decide; done.
  - intros i b. rewrite Hl. case_decide as Hi; [|done]. destruct (shards sm !! Z.to_nat i) as [s|] eqn:Es; [|done].
    intros [= <-]. rewrite (subHashes_length sm _ s Hok Es). change SubBucketCount with 64. lia.
Qed.

Lemma filled_order sm ps order :
  sm_ok sm -> (forall i x, ps !! i = Some x -> 0 <= i < ShardCount) ->
  order ≡ₚ (map_to_list (FillShardDigests sm ps)).*1 -> order ≡ₚ shardIDs.
Proof.
  intros Hok Hps ->. apply NoDup_Permutation; [apply NoDup_fst_map_to_list|apply shardIDs_NoDup|].
  intros id. rewrite elem_of_shardIDs, list_elem_of_fmap. split.
  - intros ([j x] & -> & Hx%elem_of_map_to_list). rewrite FillShardDigests_lookup in Hx by done. by case_decide.
  - intros Hid. destruct (shard_lookup sm id Hok Hid) as [s Hs]. exists (id, shardHash s). split; [done|].
    apply elem_of_map_to_list. rewrite FillShardDigests_lookup, decide_True by done. by rewrite Hs.
Qed.

(** ** Masks *)

Lemma maskLoop_spec n i remote local mask :
  (i + n <= 64)%nat -> (i + n <= length remote)%nat -> (i + n <= length local)%nat -> 0 <= mask ->
  exists mask', maskLoop i n remote local mask = Some mask' /\ 0 <= mask' /\
    forall j, Z.testbit mask' (Z.of_nat j) =
      Z.testbit mask (Z.of_nat j) ||
      (bool_decide (i <= j < i + n)%nat && negb (bool_decide (remote !! j = local !! j))).
Proof.
  revert i mask. induction n as [|n IH]; intros i mask H64 Hr Hl Hm; cbn [maskLoop].
  - exists mask. split; [done|]. split; [done|]. intros j. rewrite bool_decide_false by lia. by rewrite orb_false_r.
  - destruct (lookup_lt_is_Some_2 local i ltac:(lia)) as [l El].
    destruct (lookup_lt_is_Some_2 remote i ltac:(lia)) as [r Er]. rewrite El, Er. ored.
    assert (0 <= if negb (l =? r) then Z.lor mask (u64 (Z.shiftl 1 (Z.of_nat i))) else mask) as Hset.
    { destruct (negb _); [|done]. apply Z.lor_nonneg. split; [done|]. apply u64_range. }
    edestruct (IH (S i)) as (mask' & -> & Hm' & Hbits); [lia..|exact Hset|]. exists mask'. split; [done|].
    split; [done|]. intros j. rewrite Hbits.
    destruct (decide (i = j)) as [<-|Hne].
    + rewrite (bool_decide_false (S i <= _ < _)%nat), (bool_decide_true (i <= i < _)%nat) by lia. rewrite Er, El.
      rewrite andb_false_l, orb_false_r. destruct (Z.eqb_spec l r) as [->|Hlr]; cbn [negb].
      * rewrite bool_decide_true by done. by rewrite orb_false_r.
      * rewrite bool_decide_false by congruence. cbn [negb andb].
        rewrite Z.shiftl_1_l, u64_small by (split; [lia|apply Z.pow_lt_mono_r; lia]).
        rewrite Z.lor_spec, Z.pow2_bits_true by lia. done.
    + assert (bool_decide (S i <= j < S i + n)%nat = bool_decide (i <= j < i + S n)%nat) as ->
        by (apply bool_decide_ext; lia).
      f_equal. destruct (negb (l =? r)); [|done].
      rewrite Z.shiftl_1_l, u64_small by (split; [lia|apply Z.pow_lt_mono_r; lia]).
      rewrite Z.lor_spec, Z.pow2_bits_false by lia. by rewrite orb_false_r.
Qed.

(** Bit [b] of the mask: the sub-bucket's digests differ, or those of the peer are missing. *)
Lemma calculateMismatchMask_spec (remote : option (list Z)) local :
  length local = Z.to_nat SubBucketCount ->
  exists mask, calculateMismatchMask (bool_decide (is_Some remote)) (default [] remote) local = Some mask /\
    0 <= mask /\
    forall b, (b < Z.to_nat SubBucketCount)%nat ->
      Z.testbit mask (Z.of_nat b) =
        match remote with
        | None => true
        | Some r => negb (length r =? Z.to_nat SubBucketCount)%nat || negb (bool_decide (r !! b = local !! b))
        end.
Proof.
  intros Hl. unfold calculateMismatchMask. change (Z.to_nat SubBucketCount) with 64%nat in *.
  assert (forall b, (b < 64)%nat -> Z.testbit (2 ^ 64 - 1) (Z.of_nat b) = true) as Hones.
  { intros b Hb. change (2 ^ 64 - 1) with (Z.ones 64). apply Z.ones_spec_low. lia. }
  destruct remote as [r|]; [rewrite (bool_decide_true (is_Some (Some r))) by done|]; cbn [default negb orb id].
  - rewrite Hl. destruct (Nat.eqb_spec (length r) 64) as [Hr|Hr]; cbn [negb orb].
    + destruct (maskLoop_spec 64 0 r local 0) as (mask & -> & Hm & Hbits); [lia..|]. exists mask. split; [done|].
      split; [done|]. intros b Hb. rewrite Hbits, Z.testbit_0_l, bool_decide_true by lia. done.
    + exists (2 ^ 64 - 1). split; [done|]. split; [lia|]. intros b Hb. by apply Hones.
  - exists (2 ^ 64 - 1). split; [done|]. split; [lia|]. intros b Hb. by apply Hones.
Qed.

End Maps.

(** ** The requests for a list of records *)

Definition setsOf (l : list (string * Value)) : list SetRequest :=
  omap (fun '(k, v) => if Tombstone v then None else Some (buildSetRequest k v)) l.
Definition delsOf (l : list (string * Value)) : list DeleteRequest :=
  omap (fun '(k, v) => if Tombstone v then Some (buildDeleteRequest k v) else None) l.

Definition requestOf (kv : string * Value) : walOp :=
  if Tombstone kv.2 then WalEntry_Delete (buildDeleteRequest kv.1 kv.2) else WalEntry_Set (buildSetRequest kv.1 kv.2).

Definition batch_ops (b : batch) : list walOp := (WalEntry_Set <$> b.1) ++ (WalEntry_Delete <$> b.2).

Lemma batch_ops_of l : batch_ops (setsOf l, delsOf l) ≡ₚ requestOf <$> l.
Proof.
  unfold batch_ops, requestOf. induction l as [|[k v] l IH]; [done|]. cbn in *.
  destruct (Tombstone v); cbn; [|by rewrite IH].
  by rewrite <- Permutation_middle, IH.
Qed.

Lemma setsOf_app l1 l2 : setsOf (l1 ++ l2) = setsOf l1 ++ setsOf l2.
Proof. unfold setsOf. by rewrite omap_app. Qed.
Lemma delsOf_app l1 l2 : delsOf (l1 ++ l2) = delsOf l1 ++ delsOf l2.
Proof. unfold delsOf. by rewrite omap_app. Qed.

(** ** Pull *)

Section Pull.
Context `{HX : XXHash} `{HR : Radix} `{!XXHashLaws} `{!RadixLaws}.
Context {W C M : Type} `{HW : Waler W} `{HC : Clocker C} `{HM : Mesh.Mesher M}.
Implicit Types (s : Syncer W C M) (sm : ShardedMap.ShardedMap) (m : gmap string Value) (cfg : PullConfig).

Abbreviation responsible f := (fun kv => f (fst kv) = true).

Lemma collectLoop_spec s who resp l acc :
  (forall k, isRequesterResponsible s k who = Some (resp k)) ->
  collectLoop s who l acc =
    Some (acc.1 ++ setsOf (filter (responsible resp) l), acc.2 ++ delsOf (filter (responsible resp) l)).
Proof.
  intros Hresp. revert acc. induction l as [|[k v] l IH]; intros acc; cbn [collectLoop].
  { cbn. by rewrite !app_nil_r, <- surjective_pairing. }
  rewrite Hresp. ored. rewrite IH, filter_cons. cbn [fst].
  destruct (resp k); cbn [negb]; [|by rewrite decide_False by done]. rewrite decide_True by done.
  unfold setsOf, delsOf. cbn [omap list_omap]. destruct (Tombstone v); cbn [fst snd]; by rewrite <- ?(assoc_L (++)).
Qed.

(** Does the requester's configuration differ from [sm] at the sub-bucket of [k]? *)
Definition differs cfg sm (k : string) : bool :=
  let id := Z.of_nat (shardIndex (HashFunc k)) in
  let sh := getShardByHash sm (HashFunc k) in
  let b := subIndex (HashFunc k) in
  negb (Root cfg =? RootDigest sm) &&
  negb (bool_decide (Shards cfg !! id = Some (shardHash sh))) &&
  match Buckets cfg !! id with
  | None => true
  | Some r => negb (length r =? Z.to_nat SubBucketCount)%nat || negb (bool_decide (r !! b = subHashes sh !! b))
  end.

(** The records that one round of the loop selects. *)
Lemma pullShard_spec s cfg resp ls lb id acc :
  sm_ok (shm s) -> Root cfg <> RootDigest (shm s) -> 0 <= id < ShardCount ->
  (forall k, isRequesterResponsible s k (RequesterID cfg) = Some (resp k)) ->
  ls !! id = shardHash <$> shards (shm s) !! Z.to_nat id ->
  lb !! id = subHashes <$> shards (shm s) !! Z.to_nat id ->
  exists l, pullShard s cfg ls lb id acc = Some (acc.1 ++ setsOf l, acc.2 ++ delsOf l) /\ NoDup l.*1 /\
    forall k v, (k, v) ∈ l <-> Z.of_nat (shardIndex (HashFunc k)) = id /\ sm_get (shm s) k = Some v /\
      differs cfg (shm s) k = true /\ resp k = true.
Proof.
  intros Hok Hroot Hid Hresp Hls Hlb. destruct (shard_lookup (shm s) id Hok Hid) as [sh Hsh].
  rewrite Hsh in Hls, Hlb. cbn in Hls, Hlb. unfold pullShard. rewrite Hls, Hlb. ored.
  assert (forall k, Z.of_nat (shardIndex (HashFunc k)) = id -> getShardByHash (shm s) (HashFunc k) = sh) as Hget.
  { intros k <-. rewrite Nat2Z.id in Hsh. by apply list_lookup_total_correct. }
  assert ((forall k, Z.of_nat (shardIndex (HashFunc k)) = id -> differs cfg (shm s) k = false) ->
    exists l, Some acc = Some (acc.1 ++ setsOf l, acc.2 ++ delsOf l) /\ NoDup l.*1 /\
    forall k v, (k, v) ∈ l <-> Z.of_nat (shardIndex (HashFunc k)) = id /\ sm_get (shm s) k = Some v /\
      differs cfg (shm s) k = true /\ resp k = true) as Hnone.
  { intros Hsame. exists []. cbn. rewrite !app_nil_r, <- surjective_pairing. split; [done|]. split; [constructor|].
    intros k v. split; [by intros ?%elem_of_nil|]. intros (H1 & H2 & H3 & _). by rewrite (Hsame k H1) in H3. }
  destruct (bool_decide (Shards cfg !! id = Some (shardHash sh))) eqn:Esh.
  { apply Hnone. intros k Hk. unfold differs. rewrite (Hget k Hk), Hk, Esh.
    by rewrite andb_false_r. }
  change (default [] (Some (subHashes sh))) with (subHashes sh).
  destruct (calculateMismatchMask_spec (Buckets cfg !! id) (subHashes sh) (subHashes_length _ _ _ Hok Hsh))
    as (mask & -> & Hm & Hbits). ored.
  assert (forall k, Z.of_nat (shardIndex (HashFunc k)) = id ->
    differs cfg (shm s) k = Z.testbit mask (Z.of_nat (subIndex (HashFunc k)))) as Hdiff.
  { intros k Hk. unfold differs. rewrite (Hget k Hk), Hk, Esh, Hbits by apply subIndex_lt.
    by rewrite (proj2 (Z.eqb_neq _ _) Hroot). }
  destruct (Z.ltb_spec 0 mask) as [Hpos|Hz].
  - unfold collectShardMismatches. rewrite (collectLoop_spec _ _ resp) by done. eexists. split; [reflexivity|]. split.
    + eapply sublist_NoDup; [apply (RangeShard_NoDup (shm s) id mask Hok)|].
      apply fmap_sublist, sublist_filter.
    + intros k v. rewrite list_elem_of_filter, RangeShard_elem by done. cbn [fst]. split.
      * intros (Hr & Hk & Hb & Hg). by rewrite (Hdiff k Hk).
      * intros (Hk & Hg & Hd & Hr). by rewrite <- (Hdiff k Hk).
  - assert (mask = 0) as -> by lia. apply Hnone. intros k Hk.
    by rewrite (Hdiff k Hk), Z.testbit_0_l.
Qed.

Lemma pullLoop_spec s cfg resp ls lb order acc :
  sm_ok (shm s) -> Root cfg <> RootDigest (shm s) -> NoDup order -> Forall (fun id => 0 <= id < ShardCount) order ->
  (forall k, isRequesterResponsible s k (RequesterID cfg) = Some (resp k)) ->
  (forall id, 0 <= id < ShardCount -> ls !! id = shardHash <$> shards (shm s) !! Z.to_nat id) ->
  (forall id, 0 <= id < ShardCount -> lb !! id = subHashes <$> shards (shm s) !! Z.to_nat id) ->
  exists l, pullLoop s cfg ls lb order acc = Some (acc.1 ++ setsOf l, acc.2 ++ delsOf l) /\ NoDup l.*1 /\
    forall k v, (k, v) ∈ l <-> Z.of_nat (shardIndex (HashFunc k)) ∈ order /\ sm_get (shm s) k = Some v /\
      differs cfg (shm s) k = true /\ resp k = true.
Proof.
  intros Hok Hroot Hnd Hids Hresp Hls Hlb. revert acc. induction Hids as [|id order Hid Hids IH]; intros acc.
  { exists []. cbn. rewrite !app_nil_r, <- surjective_pairing. split; [done|]. split; [constructor|].
    intros k v. rewrite !elem_of_nil. tauto. }
  apply NoDup_cons in Hnd as [Hni Hnd]. cbn [pullLoop].
  destruct (pullShard_spec s cfg resp ls lb id acc Hok Hroot Hid Hresp (Hls id Hid) (Hlb id Hid))
    as (l1 & -> & Hnd1 & Hin1). ored.
  destruct (IH Hnd (acc.1 ++ setsOf l1, acc.2 ++ delsOf l1)) as (l2 & -> & Hnd2 & Hin2).
  exists (l1 ++ l2). cbn [fst snd]. rewrite setsOf_app, delsOf_app, !(assoc_L (++)). split; [done|]. split.
  - rewrite fmap_app. apply NoDup_app. split; [done|]. split; [|done].
    intros k ([j1 v1] & -> & Hk1)%list_elem_of_fmap ([j2 v2] & Heq & Hk2)%list_elem_of_fmap. cbn in *. subst.
    apply Hin1 in Hk1 as (Hk1 & _). apply Hin2 in Hk2 as (Hk2 & _). by rewrite Hk1 in Hk2.
  - intros k v. rewrite elem_of_app, Hin1, Hin2, elem_of_cons. tauto.
Qed.

Lemma Pull_selects s cfg m resp ps pb order :
  represents (shm s) m -> pools_ok ps pb -> order ≡ₚ (map_to_list (FillShardDigests (shm s) ps)).*1 ->
  (forall k, isRequesterResponsible s k (RequesterID cfg) = Some (resp k)) ->
  exists b, Pull s cfg ps pb order = Some b /\
    batch_ops b ≡ₚ requestOf <$> filter (fun kv => differs cfg (shm s) kv.1 && resp kv.1 = true) (map_to_list m).
Proof.
  intros [Hok Hm] [Hps Hpb] Hord Hresp. unfold Pull.
  destruct (Z.eqb_spec (Root cfg) (RootDigest (shm s))) as [Hroot|Hroot].
  { exists ([], []). split; [done|]. rewrite (proj2 (Permutation_nil_r (filter _ _))); [done|].
    induction (map_to_list m) as [|x l IH]; [done|]. rewrite filter_cons, decide_False; [done|].
    unfold differs. by rewrite (proj2 (Z.eqb_eq _ _) Hroot). }
  apply (filled_order _ _ _ Hok Hps) in Hord.
  destruct (FillDigests_lookup (shm s) pb Hok Hpb) as (lb & -> & Hlb). ored.
  destruct (pullLoop_spec s cfg resp (FillShardDigests (shm s) ps) lb order ([], [])) as (l & -> & Hnd & Hin); try done.
  - rewrite Hord. apply shardIDs_NoDup.
  - rewrite Hord. apply list.Forall_forall. intros id. apply elem_of_shardIDs.
  - intros id Hid. rewrite FillShardDigests_lookup by done. by rewrite decide_True.
  - intros id Hid. rewrite Hlb. by rewrite decide_True.
  - eexists. split; [reflexivity|]. rewrite !app_nil_l, batch_ops_of. apply fmap_Permutation, NoDup_Permutation.
    + by eapply NoDup_fmap_1.
    + apply NoDup_filter, NoDup_map_to_list.
    + intros [k v]. rewrite Hin, list_elem_of_filter, elem_of_map_to_list, Hord, elem_of_shardIDs, Hm. cbn [fst].
      rewrite andb_true_iff. pose proof (shardIndex_lt (HashFunc k)). split; [tauto|].
      intros ((? & ?) & ?). split; [change ShardCount with 128 in *; lia|done].
Qed.

(** C19. A pull is exact: whatever order the shards are visited in and whatever is left in the
    pooled maps, the answer is one request for each local record whose sub-bucket the digests
    of the request show to differ and which the requester replicates, a tombstone as a delete
    and a live record as a set, and nothing else; equal root digests give an empty answer. *)
Theorem pull_exact s cfg m resp ps pb order :
  represents (shm s) m -> pools_ok ps pb -> order ≡ₚ (map_to_list (FillShardDigests (shm s) ps)).*1 ->
  (forall k, isRequesterResponsible s k (RequesterID cfg) = Some (resp k)) ->
  exists b, Pull s cfg ps pb order = Some b /\
    batch_ops b ≡ₚ requestOf <$> filter (fun kv => differs cfg (shm s) kv.1 && resp kv.1 = true) (map_to_list m).
Proof. apply Pull_selects. Qed.

End Pull.

(** ** One round between two nodes *)

(** A record as a peer sees it: an empty value travels as nil. *)
Definition norm_value (v : Value) : Value :=
  mkValue (NodeID v) (norm_slice (Data v)) (Timestamp v) (Tombstone v) (ItemHash v).

(** Tombstones carry no data, as every delete leaves them. *)
Definition tombs_empty (m : gmap string Value) : Prop :=
  map_Forall (fun _ v => Tombstone v = true -> norm_slice (Data v) = None) m.

(** The join of what two nodes hold for a key. *)
Definition lww_merge (o1 o2 : option Value) : option Value :=
  match o2 with None => o1 | Some v => Some (lww_join o1 v) end.

Section Round.
Context `{HX : XXHash} `{HR : Radix} `{!XXHashLaws} `{!RadixLaws}.
Context {W C M : Type} `{HW : Waler W} `{HC : Clocker C} `{HM : Mesh.Mesher M}.
Implicit Types (a b s : Syncer W C M) (sm : ShardedMap.ShardedMap) (m : gmap string Value).

Lemma wire_ops (x : batch) : batch_ops (wire x) = norm_op <$> batch_ops x.
Proof. unfold batch_ops, wire. cbn. rewrite fmap_app, <- !list_fmap_compose. done. Qed.

Lemma received_record k v :
  stamp k v = v -> (Tombstone v = true -> norm_slice (Data v) = None) ->
  stamp k (op_value (norm_op (requestOf (k, v)))) = norm_value v.
Proof.
  intros Hst Htomb. unfold requestOf, norm_value, stamp in *. cbn [fst snd].
  assert (ItemHash v = getItemHash (HashFunc k) v) as Hh by (rewrite <- Hst at 1; done). rewrite Hh.
  assert (slice_bytes (norm_slice (Data v)) = slice_bytes (Data v) /\
          slice_len (norm_slice (Data v)) = slice_len (Data v)) as [Hb Hl] by by destruct (Data v) as [[]|].
  destruct (Tombstone v) eqn:Ed; cbn; unfold with_ItemHash, setValue, deleteValue, cloneBytes; cbn; rewrite ?Ed.
  - rewrite Htomb by done. rewrite Htomb in Hb, Hl by done. f_equal. unfold getItemHash. cbn. by rewrite Ed, <- Hl, <- Hb.
  - replace (match norm_slice (Data v) with Some l => Some l | None => None end) with (norm_slice (Data v))
      by by destruct (norm_slice (Data v)).
    f_equal. unfold getItemHash. cbn. rewrite Ed, Hl, <- Hb. done.
Qed.

(** Applying a batch without errors is applying its requests. *)
Lemma applyAll_app (w : StorageWriter W C) l1 l2 : applyAll w (l1 ++ l2) = w' ← applyAll w l1; applyAll w' l2.
Proof.
  revert w. induction l1 as [|o l1 IH]; intros w; [done|]. cbn [applyAll app].
  destruct (ApplyOp w o) as [[r w']|]; [apply IH|done].
Qed.

Lemma pushSets_all w sets w' : pushSets w sets = Some (Ok tt, w') -> applyAll w (WalEntry_Set <$> sets) = Some w'.
Proof.
  revert w. induction sets as [|r sets IH]; intros w; cbn; [by intros [= <-]|].
  destruct (ApplySet w r) as [[[|] w1]|]; [apply IH|done..].
Qed.

Lemma pushDeletes_all w dels w' :
  pushDeletes w dels = Some (Ok tt, w') -> applyAll w (WalEntry_Delete <$> dels) = Some w'.
Proof.
  revert w. induction dels as [|r dels IH]; intros w; cbn; [by intros [= <-]|].
  destruct (ApplyDelete w r) as [[[|] w1]|]; [apply IH|done..].
Qed.

Lemma Push_all s x s' :
  Push s x.1 x.2 = Some (Ok tt, s') ->
  applyAll (writer s) (batch_ops x) = Some (writer s') /\ s' = with_writer s (writer s').
Proof.
  unfold Push, batch_ops. destruct (pushSets (writer s) x.1) as [[[[]|] w1]|] eqn:Es; [|done..].
  destruct (pushDeletes w1 x.2) as [[r w2]|] eqn:Ed; [|done]. intros [= -> <-]. split; [|done].
  rewrite applyAll_app, (pushSets_all _ _ _ Es). ored. by apply pushDeletes_all.
Qed.

(** A log that reports no errors. *)
Definition log_reliable : Prop :=
  forall k h msg (w : W) r w', wal_Publish k h msg w = Some (r, w') -> r = Ok tt.

Lemma apply_reliable (w : StorageWriter W C) key ts v msg ctx r w' :
  log_reliable -> apply w key ts v msg ctx = Some (r, w') -> r = Ok tt.
Proof.
  intros Hlog. unfold apply. destruct (clk_Update ts (sw_clock w)); [|done]. ored.
  destruct (StoreLWW _ _ _ _) as [[] h]; cbn [negb]; [|by intros [= <- _]].
  destruct (wal_Publish _ _ _ _) as [[[|e] w1]|] eqn:Ew; [by intros [= <- _]| |done].
  by apply Hlog in Ew.
Qed.

Lemma Push_reliable s x r s' : log_reliable -> Push s x.1 x.2 = Some (r, s') -> r = Ok tt.
Proof.
  intros Hlog. unfold Push.
  assert (forall l w r1 w1, pushSets w l = Some (r1, w1) -> r1 = Ok tt) as Hs.
  { intros l. induction l as [|q l IH]; intros w r1 w1; cbn; [by intros [= <- _]|].
    destruct (ApplySet w q) as [[[|e] w2]|] eqn:Eq; [apply IH| |done].
    by apply (apply_reliable _ _ _ _ _ _ _ _ Hlog) in Eq. }
  assert (forall l w r1 w1, pushDeletes w l = Some (r1, w1) -> r1 = Ok tt) as Hd.
  { intros l. induction l as [|q l IH]; intros w r1 w1; cbn; [by intros [= <- _]|].
    destruct (ApplyDelete w q) as [[[|e] w2]|] eqn:Eq; [apply IH| |done].
    by apply (apply_reliable _ _ _ _ _ _ _ _ Hlog) in Eq. }
  destruct (pushSets (writer s) x.1) as [[[[]|e] w1]|] eqn:Es; [|by apply Hs in Es|done].
  destruct (pushDeletes w1 x.2) as [[r2 w2]|] eqn:Ed; [|done]. intros [= <- _]. by eapply Hd.
Qed.

(** ** The request as the peer sees it *)

Lemma newBuckets_lookup id :
  newBuckets !! id = if decide (0 <= id < ShardCount) then Some (replicate (Z.to_nat SubBucketCount) 0) else None.
Proof.
  unfold newBuckets. case_decide as Hid.
  - apply elem_of_list_to_map_1.
    + rewrite <- list_fmap_compose. exact shardIDs_NoDup.
    + apply list_elem_of_fmap. exists (Z.to_nat id). rewrite elem_of_seq. change ShardCount with 128 in *.
      split; [f_equal; lia|lia].
  - apply not_elem_of_list_to_map_1. rewrite <- list_fmap_compose. intros Hin. apply Hid.
    apply elem_of_shardIDs. exact Hin.
Qed.

Lemma prepare_spec s ps pb :
  sm_ok (shm s) -> pools_ok ps pb ->
  exists req, preparePullRequest s ps pb = Some req /\
    RequesterID (handlerConfig req) = nodeID s /\ Root (handlerConfig req) = RootDigest (shm s) /\
    forall id, 0 <= id < ShardCount ->
      Shards (handlerConfig req) !! id = shardHash <$> shards (shm s) !! Z.to_nat id /\
      Buckets (handlerConfig req) !! id = subHashes <$> shards (shm s) !! Z.to_nat id.
Proof.
  intros Hok [Hps Hpb]. unfold preparePullRequest.
  destruct (FillDigests_lookup (shm s) pb Hok Hpb) as (lb & -> & Hlb). ored. eexists. split; [done|].
  unfold handlerConfig. cbn [RequesterID Root Shards Buckets ShardDigests SubDigests NodeId pr_RootDigest].
  split; [done|]. split; [done|].
  assert (forall i, 0 <= i < ShardCount -> u32 i = i /\ i32 i = i) as Hkey.
  { intros i Hi. change ShardCount with 128 in Hi. unfold i32. rewrite u32_small by lia. split; [done|].
    case_match; lia. }
  assert (forall i x, FillShardDigests (shm s) ps !! i = Some x -> 0 <= i < ShardCount) as Hi1.
  { intros i x. rewrite FillShardDigests_lookup by done. by case_decide. }
  assert (forall i x, lb !! i = Some x -> 0 <= i < ShardCount) as Hi2.
  { intros i x. rewrite Hlb. by case_decide. }
  rewrite !(rekey_id u32) by (intros i x Hx; apply Hkey; eauto).
  rewrite !(rekey_id i32) by (intros i x Hx; apply Hkey; eauto).
  intros id Hid. destruct (shard_lookup (shm s) id Hok Hid) as [sh Hsh].
  rewrite FillShardDigests_lookup, decide_True, Hsh by done. split; [done|].
  rewrite map_lookup_imap, newBuckets_lookup, decide_True by done. cbn. rewrite Hlb, decide_True, Hsh by done. cbn.
  f_equal. unfold copyInto. pose proof (subHashes_length _ _ _ Hok Hsh) as Hlen. rewrite length_replicate, <- Hlen.
  by rewrite take_ge, drop_ge, app_nil_r by (rewrite ?length_replicate; lia).
Qed.

(** Do the digests of two maps differ, at all three levels, for the sub-bucket of [k]? *)
Definition digests_differ sm1 sm2 (k : string) : bool :=
  let s1 := getShardByHash sm1 (HashFunc k) in
  let s2 := getShardByHash sm2 (HashFunc k) in
  let i := subIndex (HashFunc k) in
  negb (RootDigest sm1 =? RootDigest sm2) && negb (shardHash s1 =? shardHash s2) &&
  negb (bool_decide (subHashes s1 !! i = subHashes s2 !! i)).

Lemma differs_digests cfg sm1 sm2 k :
  sm_ok sm1 -> Root cfg = RootDigest sm1 ->
  (forall id, 0 <= id < ShardCount ->
    Shards cfg !! id = shardHash <$> shards sm1 !! Z.to_nat id /\
    Buckets cfg !! id = subHashes <$> shards sm1 !! Z.to_nat id) ->
  differs cfg sm2 k = digests_differ sm1 sm2 k.
Proof.
  intros Hok Hroot Hcfg. unfold differs, digests_differ. rewrite Hroot.
  pose proof (shardIndex_lt (HashFunc k)) as Hi.
  destruct (Hcfg (Z.of_nat (shardIndex (HashFunc k)))) as [-> ->]; [change ShardCount with 128 in *; lia|].
  rewrite Nat2Z.id, (shard_at sm1 (HashFunc k) Hok). cbn.
  rewrite (subHashes_length _ _ _ Hok (shard_at sm1 (HashFunc k) Hok)), Nat.eqb_refl. cbn [negb orb]. f_equal. f_equal.
  f_equal. case_bool_decide; [symmetry; apply Z.eqb_eq; congruence|symmetry; apply Z.eqb_neq; congruence].
Qed.

(** ** The round *)

(** [a] runs [performSync], reaches [b], and ends as [a']. *)
Definition synced a b a' : Prop :=
  exists pick dial rpc target psa pba psb pbb order,
    excludeSelf (Mesh.mesh_Members (mesh a)) (Mesh.mesh_AddressForNode (mesh a) (nodeID a)) !! pick = Some target /\
    dial target = Ok tt /\
    (forall req x, serverPull b req psb pbb order = Some x -> rpc target req = Ok (wire x)) /\
    pools_ok psa pba /\ pools_ok psb pbb /\
    order ≡ₚ (map_to_list (FillShardDigests (shm b) psb)).*1 /\
    performSync a pick dial rpc psa pba = Some a'.

Lemma synced_push a b a' ma mb resp :
  represents (shm a) ma -> represents (shm b) mb -> log_reliable ->
  (forall k, isRequesterResponsible b k (nodeID a) = Some (resp k)) -> synced a b a' ->
  exists x, batch_ops x ≡ₚ requestOf <$>
      filter (fun kv => digests_differ (shm a) (shm b) kv.1 && resp kv.1 = true) (map_to_list mb) /\
    applyAll (writer a) (norm_op <$> batch_ops x) = Some (writer a').
Proof.
  intros Ra Rb Hlog Hresp (pick & dial & rpc & target & psa & pba & psb & pbb & order & Hpeer & Hdial & Hrpc & Hpa & Hpb & Hord & Hrun).
  destruct (prepare_spec a psa pba (proj1 Ra) Hpa) as (req & Hreq & Hid & Hroot & Hcfg).
  destruct (Pull_selects b (handlerConfig req) mb resp psb pbb order Rb Hpb Hord) as (x & Hx & Hperm);
    [by rewrite Hid|].
  exists x. split.
  { rewrite Hperm. f_equiv. apply reflexive_eq, list_filter_iff. intros [k v]. cbn [fst].
    by rewrite (differs_digests _ (shm a) (shm b) k (proj1 Ra) Hroot Hcfg). }
  unfold performSync in Hrun. destruct (Mesh.mesh_Members (mesh a)) as [|mem0 mems]; [done|].
  destruct (excludeSelf _ _) as [|p0 ps] eqn:Ep; [done|]. rewrite Hpeer in Hrun. cbn [mbind option_bind] in Hrun.
  rewrite Hdial, Hreq in Hrun. cbn [mbind option_bind] in Hrun. rewrite (Hrpc _ _ Hx) in Hrun.
  destruct (wire x) as [sets dels] eqn:Ewx. rewrite <- wire_ops, Ewx.
  destruct (_ || _) eqn:Eemp.
  - destruct (Push a sets dels) as [[r s']|] eqn:Epush; [|done]. injection Hrun as <-.
    pose proof (Push_reliable a (sets, dels) r s' Hlog Epush) as ->.
    by destruct (Push_all a (sets, dels) s' Epush).
  - injection Hrun as <-. apply orb_false_iff in Eemp as [H1%Nat.ltb_ge H2%Nat.ltb_ge].
    destruct sets, dels; cbn in *; [done|lia..].
Qed.

Definition received (kv : string * Value) : string * Value := op_record (norm_op (requestOf kv)).

Lemma received_key kv : (received kv).1 = kv.1.
Proof. unfold received, requestOf. by destruct (Tombstone kv.2). Qed.

Lemma received_lookup (P : string -> bool) m k :
  (list_to_map (received <$> filter (fun kv => P kv.1 = true) (map_to_list m)) : gmap string Value) !! k =
    if P k then (fun v => (received (k, v)).2) <$> m !! k else None.
Proof.
  set (l := received <$> filter _ _).
  assert (l.*1 = (filter (fun kv => P kv.1 = true) (map_to_list m)).*1) as Hkeys.
  { unfold l. rewrite <- list_fmap_compose. apply list_fmap_ext. intros. apply received_key. }
  assert (NoDup l.*1) as Hnd.
  { rewrite Hkeys. eapply sublist_NoDup; [apply (NoDup_fst_map_to_list m)|]. apply fmap_sublist, sublist_filter. }
  assert (forall v, (k, v) ∈ l <-> P k = true /\ exists v0, m !! k = Some v0 /\ v = (received (k, v0)).2) as Hin.
  { intros v. unfold l. rewrite list_elem_of_fmap. split.
    - intros ([j v0] & Heq & [Hp Hm%elem_of_map_to_list]%list_elem_of_filter).
      pose proof (received_key (j, v0)) as Hj. rewrite <- Heq in Hj. cbn in Hj. subst j.
      split; [done|]. exists v0. by rewrite <- Heq.
    - intros (Hp & v0 & Hm & ->). exists (k, v0). split.
      + rewrite (surjective_pairing (received (k, v0))). by rewrite received_key.
      + by rewrite list_elem_of_filter, elem_of_map_to_list. }
  destruct (P k) eqn:Ep; [|].
  - destruct (m !! k) as [v0|] eqn:Em; cbn.
    + apply elem_of_list_to_map_1; [done|]. apply Hin. by eauto.
    + apply not_elem_of_list_to_map_1. intros ([j v] & -> & Hv)%list_elem_of_fmap.
      apply Hin in Hv as (_ & v0 & ? & _). congruence.
  - apply not_elem_of_list_to_map_1. intros ([j v] & -> & Hv)%list_elem_of_fmap. by apply Hin in Hv as [? _].
Qed.

Lemma synced_merges a b a' ma mb resp :
  represents (shm a) ma -> represents (shm b) mb -> tombs_empty mb -> log_reliable ->
  (forall k, isRequesterResponsible b k (nodeID a) = Some (resp k)) -> synced a b a' ->
  exists ma', represents (shm a') ma' /\
    forall k, ma' !! k = if digests_differ (shm a) (shm b) k && resp k
                         then lww_merge (ma !! k) (norm_value <$> mb !! k) else ma !! k.
Proof.
  intros Ra Rb Htomb Hlog Hresp Hsync.
  destruct (synced_push a b a' ma mb resp Ra Rb Hlog Hresp Hsync) as (x & Hperm & Hall).
  pose proof (applyAll_represents _ _ _ _ Ra Hall) as Ra'. eexists. split; [exact Ra'|]. intros k.
  set (P k := digests_differ (shm a) (shm b) k && resp k) in *.
  assert (op_record <$> (norm_op <$> batch_ops x) ≡ₚ received <$> filter (fun kv => P kv.1 = true) (map_to_list mb)) as Hrec.
  { rewrite Hperm, <- !list_fmap_compose. done. }
  assert (NoDup (op_record <$> (norm_op <$> batch_ops x)).*1) as Hnd.
  { rewrite Hrec, <- list_fmap_compose.
    rewrite (list_fmap_ext _ fst) by (intros; apply received_key).
    eapply sublist_NoDup; [apply (NoDup_fst_map_to_list mb)|]. apply fmap_sublist, sublist_filter. }
  rewrite spec_merge_lookup by done. rewrite (list_to_map_proper _ _ Hnd Hrec), received_lookup. fold (P k).
  destruct (P k); [|done]. destruct (mb !! k) as [v|] eqn:Ev; cbn; [|done]. do 2 f_equal.
  unfold received, op_record. cbn [snd]. apply received_record; [exact (represents_stamped _ _ _ _ Rb Ev)|exact (Htomb k v Ev)].
Qed.

(** C21. A completed round of synchronisation is a partial merge: for every key whose root, shard
    and sub-bucket digests all differ ([digests_differ]) and which [a] replicates, [a]
    afterwards holds the last-write-wins join of both nodes' records (an empty value arriving
    as nil), and it is unchanged at every other key, those included whose difference the
    digests hide.  Assumed: logs that report no errors ([log_reliable]; an error would end
    [Push] midway), tombstones without data on [b], and a ring of [b] that answers which keys
    [a] replicates. *)
Theorem sync_round a b a' ma mb resp :
  represents (shm a) ma -> represents (shm b) mb -> tombs_empty mb -> log_reliable ->
  (forall k, isRequesterResponsible b k (nodeID a) = Some (resp k)) -> synced a b a' ->
  exists ma', represents (shm a') ma' /\
    forall k, ma' !! k = if digests_differ (shm a) (shm b) k && resp k
                         then lww_merge (ma !! k) (norm_value <$> mb !! k) else ma !! k.
Proof. apply synced_merges. Qed.

(** Where two maps' digests agree for a sub-bucket, so do their records. *)
Definition digests_distinguish a (ma : gmap string Value) b (mb : gmap string Value) : Prop :=
  forall k, digests_differ (shm a) (shm b) k = false -> norm_value <$> ma !! k = norm_value <$> mb !! k.

(** Records of two nodes for one key that agree on timestamp, node and hash are the same. *)
Definition no_ties (ma mb : gmap string Value) : Prop :=
  forall k va vb, ma !! k = Some va -> mb !! k = Some vb -> lww_key va = lww_key vb -> norm_value va = norm_value vb.

Lemma norm_merge o1 o2 : norm_value <$> lww_merge o1 o2 = lww_merge (norm_value <$> o1) (norm_value <$> o2).
Proof.
  destruct o1 as [v1|], o2 as [v2|]; [|done..]. cbn. unfold lww_join.
  change (lwwWins (norm_value v1) (norm_value v2)) with (lwwWins v1 v2). by destruct (lwwWins v1 v2).
Qed.

Lemma norm_norm (o : option Value) : norm_value <$> (norm_value <$> o) = norm_value <$> o.
Proof. destruct o as [v|]; [|done]. cbn. unfold norm_value. cbn. by destruct (Data v) as [[]|]. Qed.

Lemma lww_merge_same o : lww_merge o o = o.
Proof. destruct o as [v|]; [|done]. cbn. unfold lww_join. by rewrite lwwWins_irrefl. Qed.

Lemma norm_hashes m1 m2 : (forall k, norm_value <$> m1 !! k = norm_value <$> m2 !! k) -> hashes m1 = hashes m2.
Proof.
  intros Hm. apply map_eq. intros k. unfold hashes. rewrite !lookup_fmap. specialize (Hm k).
  destruct (m1 !! k), (m2 !! k); try done. cbn in *. by injection Hm as _ _ _ _ ->.
Qed.

(** Merging back what was merged changes nothing. *)
Lemma lww_merge_back oa ob :
  (forall va vb, oa = Some va -> ob = Some vb -> lww_key va = lww_key vb -> va = vb) ->
  lww_merge ob (lww_merge oa ob) = lww_merge oa ob.
Proof.
  intros Hties. destruct oa as [va|], ob as [vb|]; cbn; try done; unfold lww_join; [|by rewrite lwwWins_irrefl].
  destruct (lwwWins va vb) eqn:Eab; [by rewrite lwwWins_irrefl|].
  destruct (lwwWins vb va) eqn:Eba; [done|]. by rewrite (Hties va vb eq_refl eq_refl (lwwWins_total _ _ Eab Eba)).
Qed.

Lemma sync_round_key a b a' ma mb :
  represents (shm a) ma -> represents (shm b) mb -> tombs_empty mb -> log_reliable ->
  (forall k, isRequesterResponsible b k (nodeID a) = Some true) -> synced a b a' ->
  digests_distinguish a ma b mb ->
  exists ma', represents (shm a') ma' /\
    forall k, norm_value <$> ma' !! k = lww_merge (norm_value <$> ma !! k) (norm_value <$> mb !! k).
Proof.
  intros Ra Rb Htomb Hlog Hresp Hsync Hdist.
  destruct (synced_merges a b a' ma mb (fun _ => true) Ra Rb Htomb Hlog Hresp Hsync) as (ma' & Ra' & Hma').
  exists ma'. split; [done|]. intros k. rewrite Hma', andb_true_r.
  destruct (digests_differ (shm a) (shm b) k) eqn:Ed.
  - by rewrite norm_merge, norm_norm.
  - by rewrite (Hdist k Ed), lww_merge_same.
Qed.

(** A tombstone carries no value, before and after a merge. *)
Definition tomb_ok (o : option Value) : Prop := forall v, o = Some v -> Tombstone v = true -> norm_slice (Data v) = None.

Lemma tomb_norm o : tomb_ok (norm_value <$> o) <-> tomb_ok o.
Proof.
  destruct o as [v|]; [|done]. unfold tomb_ok. cbn. split; intros Ho w [= <-] Ht.
  - specialize (Ho _ eq_refl Ht). cbn in Ho. by destruct (Data v) as [[]|].
  - specialize (Ho _ eq_refl Ht). cbn. by rewrite Ho.
Qed.

Lemma tomb_merge o1 o2 : tomb_ok o1 -> tomb_ok o2 -> tomb_ok (lww_merge o1 o2).
Proof.
  intros H1 H2. destruct o2 as [v2|]; [|done]. cbn. destruct o1 as [v1|]; [|done]. cbn. by destruct (lwwWins v1 v2).
Qed.

Lemma merged_tombs (ma mb ma' : gmap string Value) :
  tombs_empty ma -> tombs_empty mb ->
  (forall k, norm_value <$> ma' !! k = lww_merge (norm_value <$> ma !! k) (norm_value <$> mb !! k)) ->
  tombs_empty ma'.
Proof.
  intros Ha Hb Heq k v Hv. assert (tomb_ok (ma' !! k)) as Hk; [|by apply Hk].
  apply tomb_norm. rewrite Heq. apply tomb_merge; apply tomb_norm; intros w Hw; [by apply (Ha k)|by apply (Hb k)].
Qed.

Lemma Push_frame s sets dels r s' : Push s sets dels = Some (r, s') -> s' = with_writer s (writer s').
Proof.
  unfold Push. destruct (pushSets (writer s) sets) as [[[|] w]|]; [|by intros [= _ <-]|done].
  destruct (pushDeletes w dels) as [[r1 w1]|]; [|done]. by intros [= _ <-].
Qed.

(** A round changes what a node stores, not how it routes. *)
Lemma synced_frame a b a' : synced a b a' -> a' = with_writer a (writer a').
Proof.
  intros (pick & dial & rpc & target & psa & pba & psb & pbb & order & _ & _ & _ & _ & _ & _ & Hrun).
  assert (a = with_writer a (writer a)) as Ha by by destruct a.
  unfold performSync in Hrun. destruct (Mesh.mesh_Members (mesh a)); [by injection Hrun as <-|].
  destruct (excludeSelf _ _); [by injection Hrun as <-|]. destruct (_ !! pick) as [t|]; [|done]. cbn [mbind option_bind] in Hrun.
  destruct (dial t); [|by injection Hrun as <-]. destruct (preparePullRequest a psa pba) as [req|]; [|done].
  cbn [mbind option_bind] in Hrun. destruct (rpc t req) as [[sets dels]|]; [|by injection Hrun as <-].
  destruct (_ || _); [|by injection Hrun as <-]. destruct (Push a sets dels) as [[r s']|] eqn:Ep; [|done].
  injection Hrun as <-. by eapply Push_frame.
Qed.

(** Two replicas converge: when each replicates every key, digests that agree mean records
    that agree, no two records tie, and [a] synchronises from [b] and then [b] from [a], both
    end with the last-write-wins join of what they held (up to nil for empty values), with the
    same root digest, and the next pull between them is empty. *)
Theorem sync_converges a b a' b' ma mb :
  represents (shm a) ma -> represents (shm b) mb -> tombs_empty ma -> tombs_empty mb -> no_ties ma mb ->
  log_reliable ->
  (forall k, isRequesterResponsible b k (nodeID a) = Some true) ->
  (forall k, isRequesterResponsible a k (nodeID b) = Some true) ->
  synced a b a' -> synced b a' b' -> digests_distinguish a ma b mb ->
  (forall ma', represents (shm a') ma' -> digests_distinguish b mb a' ma') ->
  exists ma' mb', represents (shm a') ma' /\ represents (shm b') mb' /\
    (forall k, norm_value <$> ma' !! k = lww_merge (norm_value <$> ma !! k) (norm_value <$> mb !! k) /\
               norm_value <$> mb' !! k = norm_value <$> ma' !! k) /\
    RootDigest (shm a') = RootDigest (shm b') /\
    forall cfg ps pb order, Root cfg = RootDigest (shm b') -> Pull a' cfg ps pb order = Some ([], []).
Proof.
  intros Ra Rb Hta Htb Hties Hlog Hra Hrb Hs1 Hs2 Hd1 Hd2.
  destruct (sync_round_key a b a' ma mb Ra Rb Htb Hlog Hra Hs1 Hd1) as (ma' & Ra' & Hma').
  pose proof (merged_tombs ma mb ma' Hta Htb Hma') as Hta'.
  assert (forall k, isRequesterResponsible a' k (nodeID b) = Some true) as Hrb'.
  { intros k. rewrite (synced_frame _ _ _ Hs1). apply Hrb. }
  destruct (sync_round_key b a' b' mb ma' Rb Ra' Hta' Hlog Hrb' Hs2 (Hd2 ma' Ra')) as (mb' & Rb' & Hmb').
  assert (forall k, norm_value <$> mb' !! k = norm_value <$> ma' !! k) as Heq.
  { intros k. rewrite Hmb', Hma'. apply lww_merge_back. intros va vb.
    destruct (ma !! k) as [xa|] eqn:Ea, (mb !! k) as [xb|] eqn:Eb; [|done..]. intros [= <-] [= <-] Hk.
    by apply (Hties k). }
  assert (RootDigest (shm a') = RootDigest (shm b')) as Hroot.
  { apply (RootDigest_hashes _ _ ma' mb'); [done..|]. by apply norm_hashes. }
  exists ma', mb'. split_and!; try done. intros cfg ps pb order Hc. unfold Pull. by rewrite Hc, Hroot, Z.eqb_refl.
Qed.

End Round.

(** ** Two nodes that replicate every key *)

Module EntropyExamples.
Import Fnv GmapRadix.

(** A fixed membership, every node of which owns every key: identifiers with addresses. *)
Record fullMesh := mkFull { fm_nodes : list (string * string) }.

#[export] Instance full_mesher : Mesh.Mesher fullMesh := {|
  Mesh.mesh_Members f := (fm_nodes f).*2;
  Mesh.mesh_Owner f _ := Some (default EmptyString (list.head (fm_nodes f).*1));
  Mesh.mesh_GetOwners f _ _ := Some (fm_nodes f).*1;
  Mesh.mesh_AddressForNode f id := default EmptyString ((list_to_map (fm_nodes f) : gmap string string) !! id);
  Mesh.mesh_UpdateLocalWeight f _ := f
|}.

(** A logical clock that always ticks. *)
Record tickClock := mkTick { ticks : Z }.

#[export] Instance tick_clocker : Clocker tickClock := {|
  clk_Now c := Some (ticks c + 1, mkTick (ticks c + 1));
  clk_Update r c := Some (mkTick (Z.max r (ticks c)))
|}.

Abbreviation peer := (Syncer NopWal tickClock fullMesh).

Definition both : fullMesh := mkFull [("n1", "10.0.0.1:80"); ("n2", "10.0.0.2:80")].

Definition empty_writer : StorageWriter NopWal tickClock := NewStorageWriter NewShardedMap (NewNopWal) (mkTick 0).

Definition node_after (id : string) (ops : list walOp) : peer :=
  mkSyncer (default empty_writer (applyAll empty_writer ops)) both Mesh.NewConfigBuilder id 10.

Definition set_at (k : string) (v : bytes) (ts : Z) (n : string) : walOp := WalEntry_Set (mkSet k (Some v) ts n).
Definition del_at (k : string) (ts : Z) (n : string) : walOp := WalEntry_Delete (mkDelete k ts n).

Definition ops_a : list walOp := [set_at "x" (string_bytes "old") 5 "n1"; set_at "y" (string_bytes "1") 6 "n1"].
Definition ops_b : list walOp := [set_at "x" (string_bytes "new") 7 "n2"; del_at "y" 4 "n2"; set_at "z" [] 9 "n2"].

Definition node_a := node_after "n1" ops_a.
Definition node_b := node_after "n2" ops_b.
Definition node_ab := node_after "n1" (ops_a ++ ops_b).
Definition map_of (ops : list walOp) : gmap string Value := spec_merge ∅ (op_record <$> ops).

(** A round in which the first peer is picked and everything works. *)
Definition good_order (s : peer) : list Z := (map_to_list (FillShardDigests (shm s) ∅)).*1.

Definition good_rpc (s : peer) (target : string) (req : PullRequest) : result batch :=
  match serverPull s req ∅ newBuckets (good_order s) with Some x => Ok (wire x) | None => Err (ErrMsg "panic") end.

Definition good_round (s t : peer) : option peer :=
  performSync s 0 (fun _ => Ok tt) (good_rpc t) ∅ newBuckets.

Definition node_a' := default node_a (good_round node_a node_b).
Definition node_b' := default node_b (good_round node_b node_a').

Definition did {A} (o : option A) : bool := match o with Some _ => true | None => false end.

Lemma did_default {A} (d : A) o : did o = true -> o = Some (default d o).
Proof. by destruct o. Qed.

Lemma new_pools_ok : pools_ok ∅ newBuckets.
Proof.
  split; [done|]. intros i b. rewrite newBuckets_lookup. case_decide; [|done]. intros [= <-].
  split; [done|]. vm_compute. discriminate.
Qed.

Lemma apply_total (w : StorageWriter NopWal tickClock) key ts v msg ctx :
  exists w', apply w key ts v msg ctx = Some (Ok tt, w').
Proof.
  unfold apply. cbn. destruct (StoreLWW _ _ _ _) as [[] h]; cbn [negb]; by eexists.
Qed.

Lemma Push_total (s : peer) sets dels : did (Push s sets dels) = true.
Proof.
  unfold Push.
  assert (forall l w, exists w', pushSets (W := NopWal) (C := tickClock) w l = Some (Ok tt, w')) as Hs.
  { intros l. induction l as [|r l IH]; intros w; cbn [pushSets]; [by eexists|].
    unfold ApplySet. destruct (apply_total w (set_Key r) (set_Timestamp r) (setValue r) (Wal.MSet r) "failed to persist set to WAL")
      as [w' ->]. apply IH. }
  assert (forall l w, exists w', pushDeletes (W := NopWal) (C := tickClock) w l = Some (Ok tt, w')) as Hd.
  { intros l. induction l as [|r l IH]; intros w; cbn [pushDeletes]; [by eexists|].
    unfold ApplyDelete. destruct (apply_total w (del_Key r) (del_Timestamp r) (deleteValue r) (Wal.MDelete r) "failed to persist delete to WAL")
      as [w' ->]. apply IH. }
  destruct (Hs sets (writer s)) as [w1 ->]. by destruct (Hd dels w1) as [w2 ->].
Qed.

Lemma good_synced (s t : peer) target :
  sm_ok (shm s) ->
  excludeSelf (Mesh.mesh_Members (mesh s)) (Mesh.mesh_AddressForNode (mesh s) (nodeID s)) !! 0%nat = Some target ->
  synced s t (default s (good_round s t)).
Proof.
  intros Hok Hp. exists 0%nat, (fun _ => Ok tt), (good_rpc t), target, ∅, newBuckets, ∅, newBuckets, (good_order t).
  split; [done|]. split; [done|]. split; [intros req x Hx; unfold good_rpc; by rewrite Hx|].
  split; [apply new_pools_ok|]. split; [apply new_pools_ok|]. split; [done|]. fold (good_round s t).
  apply did_default. unfold good_round, performSync. destruct (Mesh.mesh_Members _) as [|m0 ms]; [done|].
  destruct (excludeSelf _ _); [done|]. rewrite Hp. cbn [mbind option_bind].
  destruct (prepare_spec s ∅ newBuckets Hok new_pools_ok) as (req & -> & _). cbn [mbind option_bind].
  destruct (good_rpc t target req) as [[sets dels]|]; [|done]. destruct (_ || _); [|done].
  pose proof (Push_total s sets dels). by destruct (Push s sets dels) as [[]|].
Qed.

Lemma node_represents id ops :
  did (applyAll empty_writer ops) = true -> represents (shm (node_after id ops)) (map_of ops).
Proof.
  intros Hd. apply (applyAll_represents empty_writer); [apply NewShardedMap_represents|]. by apply did_default.
Qed.

Definition keys_of (ma mb : gmap string Value) : list string := (map_to_list ma).*1 ++ (map_to_list mb).*1.

(** A property of the records of two maps at every key, when it holds for two absent records,
    need only be checked at the keys. *)
Lemma check_keys (P : string -> option Value -> option Value -> bool) (ma mb : gmap string Value) :
  (forall k, P k None None = true) -> forallb (fun k => P k (ma !! k) (mb !! k)) (keys_of ma mb) = true ->
  forall k, P k (ma !! k) (mb !! k) = true.
Proof.
  intros Hnone Hall k. rewrite forallb_forall in Hall.
  assert (forall (m : gmap string Value) v, m !! k = Some v -> k ∈ (map_to_list m).*1) as Hin.
  { intros m v Hv. apply list_elem_of_fmap. exists (k, v). by rewrite elem_of_map_to_list. }
  destruct (ma !! k) as [va|] eqn:Ea.
  - rewrite <- Ea. apply Hall, list_elem_of_In, elem_of_app. left. by eapply Hin.
  - destruct (mb !! k) as [vb|] eqn:Eb; [|done].
    rewrite <- Ea, <- Eb. apply Hall, list_elem_of_In, elem_of_app. right. by eapply Hin.
Qed.

Definition same (o1 o2 : option Value) : bool := bool_decide (norm_value <$> o1 = norm_value <$> o2).

Lemma distinguish_check (a b : peer) ma mb :
  forallb (fun k => digests_differ (shm a) (shm b) k || same (ma !! k) (mb !! k)) (keys_of ma mb) = true ->
  digests_distinguish a ma b mb.
Proof.
  intros Hall k Hd. apply (bool_decide_eq_true_1 _).
  pose proof (check_keys (fun k o1 o2 => digests_differ (shm a) (shm b) k || same o1 o2) ma mb
    ltac:(intros; apply orb_true_intro; by right) Hall k) as Hk. cbv beta in Hk. by rewrite Hd in Hk.
Qed.

Lemma ties_check (ma mb : gmap string Value) :
  forallb (fun k => negb (bool_decide (lww_key <$> ma !! k = lww_key <$> mb !! k)) || same (ma !! k) (mb !! k))
    (keys_of ma mb) = true -> no_ties ma mb.
Proof.
  intros Hall k va vb Ha Hb Hk.
  pose proof (check_keys (fun _ o1 o2 => negb (bool_decide (lww_key <$> o1 = lww_key <$> o2)) || same o1 o2) ma mb
    ltac:(intros; apply orb_true_intro; by right) Hall k) as Hc. cbv beta in Hc. rewrite Ha, Hb in Hc. cbn [fmap option_fmap option_map] in Hc.
  rewrite bool_decide_true in Hc by by rewrite Hk. apply (bool_decide_eq_true_1 _) in Hc. by apply (inj Some) in Hc.
Qed.

Lemma reliable_nop : log_reliable (W := NopWal).
Proof. by intros k h msg w r w' [= <- _]. Qed.

Lemma rep_a : represents (shm node_a) (map_of ops_a).
Proof. apply node_represents. vm_compute. reflexivity. Qed.
Lemma rep_b : represents (shm node_b) (map_of ops_b).
Proof. apply node_represents. vm_compute. reflexivity. Qed.
Lemma rep_ab : represents (shm node_ab) (map_of (ops_a ++ ops_b)).
Proof. apply node_represents. vm_compute. reflexivity. Qed.

Lemma tombs_a : tombs_empty (map_of ops_a).
Proof. unfold tombs_empty. apply (bool_decide_eq_true_1 _). vm_compute. reflexivity. Qed.
Lemma tombs_b : tombs_empty (map_of ops_b).
Proof. unfold tombs_empty. apply (bool_decide_eq_true_1 _). vm_compute. reflexivity. Qed.

Lemma synced_ab : synced node_a node_b node_a'.
Proof. apply (good_synced node_a node_b "10.0.0.2:80" (proj1 rep_a)). vm_compute. reflexivity. Qed.

Lemma distinguish_ab : digests_distinguish node_a (map_of ops_a) node_b (map_of ops_b).
Proof. apply distinguish_check. vm_compute. reflexivity. Qed.

Lemma everyone (s : peer) k who : mesh s = both -> Mesh.SingleNode (meshConfig s) = false -> who ∈ ["n1"; "n2"]%string ->
  isRequesterResponsible s k who = Some true.
Proof.
  intros Hm Hs Hw. unfold isRequesterResponsible. rewrite Hs, Hm. cbn. by rewrite bool_decide_true.
Qed.

(** After the first round [node_a'] holds what a node that received all requests holds. *)
Lemma hashes_a' ma' :
  represents (shm node_a') ma' ->
  (forall k, norm_value <$> ma' !! k = norm_value <$> map_of (ops_a ++ ops_b) !! k).
Proof.
  intros Hr k.
  destruct (sync_round_key node_a node_b node_a' _ _ rep_a rep_b tombs_b reliable_nop
    (fun k => everyone node_b k "n1" eq_refl eq_refl ltac:(set_solver)) synced_ab distinguish_ab) as (m1 & H1 & Hm1).
  assert (ma' !! k = m1 !! k) as -> by by rewrite <- (proj2 Hr), <- (proj2 H1).
  rewrite Hm1. apply (bool_decide_eq_true_1 _).
  assert (map_of (ops_a ++ ops_b) !! k = lww_merge (map_of ops_a !! k) (map_of ops_b !! k)) as ->; [|rewrite norm_merge; by apply bool_decide_eq_true].
  unfold map_of. rewrite fmap_app. unfold spec_merge at 1. rewrite foldl_app.
  fold (spec_merge ∅ (op_record <$> ops_a)). fold (spec_merge (spec_merge ∅ (op_record <$> ops_a)) (op_record <$> ops_b)).
  assert (NoDup (op_record <$> ops_b).*1) as Hnd by (apply (bool_decide_eq_true_1 _); vm_compute; reflexivity).
  rewrite !(spec_merge_lookup _ (op_record <$> ops_b)), lookup_empty by done.
  by destruct ((list_to_map (op_record <$> ops_b) : gmap string Value) !! k).
Qed.

Lemma digests_differ_hashes sm sm1 sm2 m1 m2 k :
  represents sm1 m1 -> represents sm2 m2 -> hashes m1 = hashes m2 ->
  digests_differ sm sm1 k = digests_differ sm sm2 k.
Proof.
  intros R1 R2 Hh. unfold digests_differ.
  destruct (shard_digests_contents sm1 sm2 m1 m2 _ _ _ R1 R2 Hh (shard_at _ (HashFunc k) (proj1 R1))
    (shard_at _ (HashFunc k) (proj1 R2))) as [-> ->]. by rewrite (RootDigest_hashes _ _ _ _ R1 R2 Hh).
Qed.

Lemma distinguish_ba ma' : represents (shm node_a') ma' -> digests_distinguish node_b (map_of ops_b) node_a' ma'.
Proof.
  intros Hr k Hd. rewrite (hashes_a' ma' Hr k).
  rewrite (digests_differ_hashes _ _ (shm node_ab) ma' _ k Hr rep_ab (norm_hashes _ _ (hashes_a' ma' Hr))) in Hd.
  revert k Hd. apply (distinguish_check node_b node_ab). vm_compute. reflexivity.
Qed.

Lemma pull_exact_witness :
  exists b, Pull node_b (mkPull ∅ ∅ "n1" 0) ∅ newBuckets (good_order node_b) = Some b /\
    Permutation (batch_ops b) (requestOf <$> filter (fun kv => differs (mkPull ∅ ∅ "n1" 0) (shm node_b) kv.1 && true = true)
      (map_to_list (map_of ops_b))).
Proof.
  destruct (pull_exact node_b (mkPull ∅ ∅ "n1" 0) (map_of ops_b) (fun _ => true) ∅ newBuckets (good_order node_b)
    rep_b new_pools_ok) as (b & Hb & Hp).
  - reflexivity.
  - intros k. apply everyone; [reflexivity|reflexivity|set_solver].
  - exists b. split; [exact Hb|exact Hp].
Defined.

Lemma sync_round_witness :
  exists ma', represents (shm node_a') ma' /\ norm_value <$> ma' !! "x"%string = norm_value <$> map_of ops_b !! "x"%string.
Proof.
  destruct (sync_round node_a node_b node_a' _ _ (fun _ => true) rep_a rep_b) as (ma' & Hr & Hk).
  - exact tombs_b.
  - exact reliable_nop.
  - intros k. apply everyone; [reflexivity|reflexivity|set_solver].
  - exact synced_ab.
  - exists ma'. split; [exact Hr|]. rewrite (Hk "x"%string). vm_compute. reflexivity.
Defined.

Lemma sync_converges_witness : RootDigest (shm node_a') = RootDigest (shm node_b').
Proof.
  destruct (sync_converges node_a node_b node_a' node_b' _ _ rep_a rep_b tombs_a tombs_b)
    as (ma' & mb' & _ & _ & _ & Hroot & _).
  - apply ties_check. vm_compute. reflexivity.
  - exact reliable_nop.
  - intros k. apply everyone; [reflexivity|reflexivity|set_solver].
  - intros k. apply everyone; [reflexivity|reflexivity|set_solver].
  - exact synced_ab.
  - apply (good_synced node_b node_a' "10.0.0.1:80" (proj1 rep_b)). vm_compute. reflexivity.
  - exact distinguish_ab.
  - exact distinguish_ba.
  - exact Hroot.
Defined.

End EntropyExamples.
