(* ===== verification/PullConc.v ===== *)
(** * A pull while writes go on (src/cluster/entropy/sync.go, src/server/server.go)

    [Pull] asks the map for its root, for the digests of the shards and of the sub-buckets, and
    then for the records of each sub-bucket that differs, in separate calls, between which and
    during which other goroutines write.  The machine runs it as one of the goroutines of
    [MapConc]; what the map is asked for at a time is one of that file's calls, made by
    goroutine [p].  [EntropyTheory] has the same code on a map that nobody else touches. *)

From S2P Require Import Prelude Kv ShardedMap MapTheory MapConc Wal WalTheory Iface Writer Mesh Entropy EntropyTheory.
From stdpp Require Import relations.
Import ShardedMap Writer Entropy.

#[local] Open Scope nat_scope.

Module PullConc.

Section Machine.
Context `{HX : XXHash} `{HR : Radix} {W C M : Type} `{HW : Waler W} `{HC : Clocker C} `{HM : Mesh.Mesher M}.
(** The syncer that answers, the request, the maps taken from the pools, and the goroutine. *)
Variables (syn : Syncer W C M) (cfg : PullConfig) (ps : gmap Z Z) (pb : gmap Z (list Z)) (p : nat).

(** Where [Pull] is: in [RootDigest], in [FillShardDigests], in [FillDigests], at the head of
    its loop, in the [RangeShard] of a round, returned ([None] is a panic), with whether the
    roots agreed. *)
Inductive pullAt :=
| PRoot
| PShards
| PBuckets (localShards : gmap Z Z)
| PLoop (localShards : gmap Z Z) (localBuckets : gmap Z (list Z)) (order : list Z) (acc : batch)
| PCollect (localShards : gmap Z Z) (localBuckets : gmap Z (list Z)) (id mask : Z) (order : list Z) (acc : batch)
| PDone (matched : bool) (answer : option batch).

Record state := mkState { mp : MapConc.state; at_ : pullAt }.

(** What [FillShardDigests] and [FillDigests] leave in their destinations. *)
Definition fillShards (out : list (list Z)) : gmap Z Z :=
  list_to_map (imap (fun i d => (Z.of_nat i, default 0%Z (head d))) out) ∪ ps.
Definition fillFrom (buf d : list Z) : list Z :=
  if (Z.of_nat (length buf) <? SubBucketCount)%Z then d else d ++ drop (Z.to_nat SubBucketCount) buf.
Definition fillBuckets (out : list (list Z)) : gmap Z (list Z) :=
  list_to_map (imap (fun i d => (Z.of_nat i, fillFrom (default [] (pb !! Z.of_nat i)) d)) out) ∪ pb.

(** The mask of a round; [None] when the shard is skipped, [Some None] on a panic. *)
Definition roundMask (localShards : gmap Z Z) (localBuckets : gmap Z (list Z)) (id : Z) : option (option Z) :=
  match localShards !! id with
  | None => Some None
  | Some h =>
      if bool_decide (Shards cfg !! id = Some h) then None
      else
        let remote := Buckets cfg !! id in
        match calculateMismatchMask (bool_decide (is_Some remote)) (default [] remote) (default [] (localBuckets !! id)) with
        | None => Some None
        | Some mask => if (0 <? mask)%Z then Some (Some mask) else None
        end
  end.

(** A step of [Pull] between its calls; [order]: the order in which the range visits the map. *)
Definition stepPull (s : state) (order : list Z) : option state :=
  let call t := MapConc.goto (mp s) p t in
  match at_ s, MapConc.threads (mp s) !! p with
  | PRoot, Some (MapConc.DDone MapConc.PerShard _ _ out) =>
      Some (if (Root cfg =? MapConc.rootOf out)%Z then mkState (mp s) (PDone true (Some ([], [])))
            else mkState (call (MapConc.DIdle MapConc.PerShard)) PShards)
  | PShards, Some (MapConc.DDone MapConc.PerShard _ _ out) =>
      Some (mkState (call (MapConc.DIdle MapConc.PerBucket)) (PBuckets (fillShards out)))
  | PBuckets ls, Some (MapConc.DDone MapConc.PerBucket _ _ out) =>
      if bool_decide (order ≡ₚ (map_to_list ls).*1) then Some (mkState (mp s) (PLoop ls (fillBuckets out) order ([], []))) else None
  | PLoop ls lb [] acc, _ => Some (mkState (mp s) (PDone false (Some acc)))
  | PLoop ls lb (id :: rest) acc, _ =>
      Some match roundMask ls lb id with
           | None => mkState (mp s) (PLoop ls lb rest acc)
           | Some None => mkState (mp s) (PDone false None)
           | Some (Some mask) => mkState (call (MapConc.SIdle id mask)) (PCollect ls lb id mask rest acc)
           end
  | PCollect ls lb _ _ rest acc, Some (MapConc.SDone _ _ _ _ out) =>
      Some match collectLoop syn (RequesterID cfg) out acc with
           | None => mkState (mp s) (PDone false None)
           | Some acc => mkState (mp s) (PLoop ls lb rest acc)
           end
  | _, _ => None
  end.

Definition step (s s' : state) : Prop :=
  (exists mp', MapConc.step (mp s) mp' /\ s' = mkState mp' (at_ s)) \/ exists order, stepPull s order = Some s'.

End Machine.

(** ** What has been seen *)

Section Seen.
Context `{HX : XXHash} `{HR : Radix} `{!XXHashLaws} `{!RadixLaws}.
Context {W C M : Type} `{HW : Waler W} `{HC : Clocker C} `{HM : Mesh.Mesher M}.
Variables (syn : Syncer W C M) (cfg : PullConfig) (ps : gmap Z Z) (pb : gmap Z (list Z)) (p : nat).
Variables (g0 : ShardedMap) (m0 : gmap Key Value) (resp : string -> bool) (τ0 : nat).
Hypothesis R0 : represents g0 m0.
Hypothesis Hresp : forall k, isRequesterResponsible syn k (RequesterID cfg) = Some (resp k).
Implicit Types (ord : list (nat * mop)) (k : Key) (id : Z).

Abbreviation hist := (MapConc.hist m0).
Abbreviation shard_of k := (Z.of_nat (shardIndex (HashFunc k))).

(** At some moment since the pull began. *)
Definition seen_at ord (P : gmap Key Value -> Prop) : Prop := MapConc.during m0 ord τ0 (length ord) P.

(** A shard that no write has changed since. *)
Definition quiet ord id : Prop :=
  forall t k, τ0 <= t <= length ord -> shard_of k = id -> hist ord t !! k = hist ord τ0 !! k.

(** Whether the request differs from [g] at the sub-bucket of [k], roots apart. *)
Definition shardDiffers (g : ShardedMap) k : bool :=
  let sh := getShardByHash g (HashFunc k) in
  negb (bool_decide (Shards cfg !! shard_of k = Some (shardHash sh))) &&
  match Buckets cfg !! shard_of k with
  | None => true
  | Some r => negb (length r =? Z.to_nat SubBucketCount) || negb (bool_decide (r !! subIndex (HashFunc k) = subHashes sh !! subIndex (HashFunc k)))
  end.

Lemma differs_shard g k : differs cfg g k = negb (Root cfg =? RootDigest g)%Z && shardDiffers g k.
Proof. unfold differs, shardDiffers. by rewrite <- andb_assoc. Qed.

(** The digests of a shard that was quiet are those of every map with the contents of the start. *)
Lemma quiet_digests ord kd j d g :
  quiet ord (Z.of_nat j) -> seen_at ord (fun m => forall g, represents g m -> MapConc.readDigests kd <$> shards g !! j = Some d) ->
  represents g (hist ord τ0) -> MapConc.readDigests kd <$> shards g !! j = Some d.
Proof.
  intros Hq (t & Ht & Hd) Hg. destruct (MapConc.hist_rep g0 m0 R0 ord t) as [g' Hg']. specialize (Hd g' Hg').
  destruct (shards g' !! j) as [x'|] eqn:Ex'; [|done].
  destruct (lookup_lt_is_Some_2 (shards g) j) as [x Hx].
  { rewrite (sm_len g (proj1 Hg)), <- (sm_len g' (proj1 Hg')). by eapply lookup_lt_Some. }
  rewrite Hx. destruct (shard_digests_local g g' _ _ j x x' Hg Hg') as [E1 E2]; [|done..|].
  - intros k Hk. unfold hashes. rewrite !lookup_fmap. f_equal. symmetry. apply Hq; [done|lia].
  - rewrite <- Hd. cbn. f_equal. destruct kd; cbn; by rewrite ?E1.
Qed.

(** What the local maps of the loop hold. *)
Definition shards_known ord (ls : gmap Z Z) : Prop :=
  forall id, if decide (0 <= id < ShardCount)%Z then exists h, ls !! id = Some h /\
    seen_at ord (fun m => forall g, represents g m -> MapConc.readDigests MapConc.PerShard <$> shards g !! Z.to_nat id = Some [h])
  else ls !! id = None.
Definition buckets_known ord (lb : gmap Z (list Z)) : Prop :=
  forall id, (0 <= id < ShardCount)%Z -> exists d, lb !! id = Some d /\ length d = Z.to_nat SubBucketCount /\
    seen_at ord (fun m => forall g, represents g m -> MapConc.readDigests MapConc.PerBucket <$> shards g !! Z.to_nat id = Some d).

(** The records collected from the shards [done]. *)
Record pulled ord (done : list Z) (l : list (Key * Value)) : Prop := {
  pl_nodup : NoDup l.*1;
  pl_sound : forall k v, (k, v) ∈ l -> shard_of k ∈ done /\ resp k = true /\ seen_at ord (fun m => m !! k = Some v);
  pl_quiet : forall k v g, shard_of k ∈ done -> quiet ord (shard_of k) -> represents g (hist ord τ0) ->
    (k, v) ∈ l <-> hist ord τ0 !! k = Some v /\ shardDiffers g k = true /\ resp k = true
}.

(** All of it stays true as writes take effect. *)
Lemma seen_grow ord ext P : seen_at ord P -> seen_at (ord ++ ext) P.
Proof.
  intros (t & Ht & HP). exists t. rewrite length_app. split; [lia|]. by rewrite MapConc.hist_app by lia.
Qed.

Lemma quiet_shrink ord ext id : τ0 <= length ord -> quiet (ord ++ ext) id -> quiet ord id.
Proof.
  intros Hl Hq t k Ht Hk. specialize (Hq t k). rewrite length_app, !MapConc.hist_app in Hq by lia. apply Hq; [lia|done].
Qed.

Lemma shards_known_grow ord ext ls : shards_known ord ls -> shards_known (ord ++ ext) ls.
Proof. intros Hk id. specialize (Hk id). case_decide; [|done]. destruct Hk as (h & Hh & Hs). exists h. split; [done|by apply seen_grow]. Qed.

Lemma buckets_known_grow ord ext lb : buckets_known ord lb -> buckets_known (ord ++ ext) lb.
Proof. intros Hk id Hid. destruct (Hk id Hid) as (d & Hd & Hl & Hs). exists d. do 2 (split; [done|]). by apply seen_grow. Qed.

Lemma pulled_grow ord ext done l : τ0 <= length ord -> pulled ord done l -> pulled (ord ++ ext) done l.
Proof.
  intros Hl [Hn Hs Hq]. split; [done| |].
  - intros k v Hk. destruct (Hs k v Hk) as (H1 & H2 & H3). do 2 (split; [done|]). by apply seen_grow.
  - intros k v g Hk Hquiet Hg. rewrite MapConc.hist_app in Hg |- * by done. apply Hq; [done| |done]. by eapply quiet_shrink.
Qed.

(** ** A round of the loop *)

(** In a quiet shard the round decides by the digests of the start. *)
Lemma known_digests ord ls lb id g :
  (0 <= id < ShardCount)%Z -> shards_known ord ls -> buckets_known ord lb -> quiet ord id -> represents g (hist ord τ0) ->
  exists sh, shards g !! Z.to_nat id = Some sh /\ ls !! id = Some (shardHash sh) /\ lb !! id = Some (subHashes sh) /\
    forall k, shard_of k = id -> getShardByHash g (HashFunc k) = sh.
Proof.
  intros Hid Hls Hlb Hq Hg. specialize (Hls id). rewrite decide_True in Hls by done. destruct Hls as (h & -> & Hh).
  destruct (Hlb id Hid) as (d & -> & _ & Hd). assert (id = Z.of_nat (Z.to_nat id)) as Eid by lia. rewrite Eid in Hq.
  apply (quiet_digests _ _ _ _ g Hq) in Hh, Hd; [|done..]. destruct (shards g !! Z.to_nat id) as [sh|] eqn:Esh; [|done].
  exists sh. cbn in Hh, Hd. split; [done|]. split; [congruence|]. split; [congruence|].
  intros k Hk. rewrite <- Hk, Nat2Z.id in Esh. by apply list_lookup_total_correct.
Qed.

Lemma roundMask_some ord ls lb id :
  (0 <= id < ShardCount)%Z -> shards_known ord ls -> buckets_known ord lb -> roundMask cfg ls lb id <> Some None.
Proof.
  intros Hid Hls Hlb. unfold roundMask. specialize (Hls id). rewrite decide_True in Hls by done. destruct Hls as (h & -> & _).
  case_bool_decide; [done|]. destruct (Hlb id Hid) as (d & -> & Hl & _).
  destruct (calculateMismatchMask_spec (Buckets cfg !! id) d Hl) as (mask & Hm & _). cbn. rewrite Hm. by destruct (0 <? mask)%Z.
Qed.

(** The mask of a quiet shard selects the sub-buckets that differ. *)
Lemma roundMask_quiet ord ls lb id k g :
  (0 <= id < ShardCount)%Z -> shards_known ord ls -> buckets_known ord lb -> quiet ord id -> represents g (hist ord τ0) ->
  shard_of k = id ->
  shardDiffers g k = match roundMask cfg ls lb id with Some (Some mask) => Z.testbit mask (Z.of_nat (subIndex (HashFunc k))) | _ => false end.
Proof.
  intros Hid Hls Hlb Hq Hg Hk. destruct (known_digests ord ls lb id g Hid Hls Hlb Hq Hg) as (sh & Hsh & El & Eb & Hget).
  unfold roundMask, shardDiffers. rewrite (Hget k Hk), Hk, El, Eb. case_bool_decide as Hs; [done|]. cbn [negb andb default].
  destruct (calculateMismatchMask_spec (Buckets cfg !! id) (subHashes sh) (subHashes_length _ _ _ (proj1 Hg) Hsh)) as (mask & Hm & Hm0 & Hb).
  cbn. rewrite Hm. specialize (Hb _ (subIndex_lt (HashFunc k))). destruct (Z.ltb_spec 0 mask); [by rewrite Hb|].
  assert (mask = 0%Z) as -> by lia. rewrite Z.testbit_0_l in Hb. done.
Qed.

(** A shard that is skipped adds nothing... *)
Lemma pulled_skip ord ls lb id done l :
  (0 <= id < ShardCount)%Z -> shards_known ord ls -> buckets_known ord lb -> roundMask cfg ls lb id = None -> id ∉ done ->
  pulled ord done l -> pulled ord (id :: done) l.
Proof.
  intros Hid Hls Hlb Hm Hn [Hnd Hs Hq]. split; [done| |].
  - intros k v Hk. destruct (Hs k v Hk) as (H1 & H2). split; [by right|done].
  - intros k v g [Hk|Hk]%elem_of_cons Hquiet Hg; [|by apply Hq]. rewrite Hk in Hquiet.
    rewrite (roundMask_quiet ord ls lb id k g) by done. rewrite Hm. split; [|by intros (_ & ? & _)].
    intros (Hin & _)%Hs. rewrite Hk in Hin. done.
Qed.

(** ... and one that is collected adds what [RangeShard] reported. *)
Lemma pulled_add ord ls lb id mask done l out :
  (0 <= id < ShardCount)%Z -> shards_known ord ls -> buckets_known ord lb -> roundMask cfg ls lb id = Some (Some mask) -> id ∉ done ->
  NoDup out.*1 -> seen_at ord (MapConc.selected id mask out) ->
  pulled ord done l -> pulled ord (id :: done) (l ++ filter (fun kv => resp kv.1 = true) out).
Proof.
  intros Hid Hls Hlb Hm Hn Hno (t & Ht & Hsel) [Hnd Hs Hq].
  assert (forall k v, (k, v) ∈ filter (fun kv => resp kv.1 = true) out <-> resp k = true /\ shard_of k = id /\
    Z.testbit mask (Z.of_nat (subIndex (HashFunc k))) = true /\ hist ord t !! k = Some v) as Hin.
  { intros k v. by rewrite list_elem_of_filter, (Hsel k v). }
  split.
  - rewrite fmap_app. apply NoDup_app. split; [done|]. split; [|eapply sublist_NoDup; [exact Hno|apply fmap_sublist, sublist_filter]].
    intros k ([k1 v1] & -> & H1)%list_elem_of_fmap ([k2 v2] & E & H2)%list_elem_of_fmap. cbn in E. subst k2.
    apply Hs in H1 as [H1 _]. apply Hin in H2 as (_ & H2 & _). cbn in H1. by rewrite H2 in H1.
  - intros k v [Hk|Hk]%elem_of_app.
    + destruct (Hs k v Hk) as (H1 & H2). split; [by right|done].
    + apply Hin in Hk as (H1 & H2 & _ & H3). split; [rewrite H2; by left|]. split; [done|]. by exists t.
  - intros k v g Hk Hquiet Hg. rewrite elem_of_app, Hin. destruct (decide (shard_of k = id)) as [Hki|Hki].
    + rewrite Hki in Hquiet. rewrite (roundMask_quiet ord ls lb id k g), Hm by done. rewrite (Hquiet t k) by done.
      split; [|tauto]. intros [Hl|?]; [|tauto]. apply Hs in Hl as [Hl _]. by rewrite Hki in Hl.
    + apply elem_of_cons in Hk as [?|Hk]; [done|]. rewrite <- (Hq k v g) by done. tauto.
Qed.

(** ** The maps that are filled *)

Hypothesis Hpools : pools_ok ps pb.

Lemma digests_seen kd ord t0 t1 out j d :
  MapConc.digests_ok m0 kd ord t0 t1 out -> τ0 <= t0 -> t1 <= length ord -> out !! j = Some d ->
  seen_at ord (fun m => forall g, represents g m -> MapConc.readDigests kd <$> shards g !! j = Some d).
Proof. intros Hd H1 H2 (t & Ht & HP)%Hd. exists t. split; [lia|done]. Qed.

Lemma fillShards_known ord t0 t1 out :
  MapConc.digests_ok m0 MapConc.PerShard ord t0 t1 out -> length out = Z.to_nat ShardCount -> τ0 <= t0 -> t1 <= length ord ->
  shards_known ord (fillShards ps out).
Proof.
  intros Hd Hlen H1 H2 id. unfold fillShards. case_decide as Hid.
  - destruct (lookup_lt_is_Some_2 out (Z.to_nat id)) as [d Ed]; [lia|]. exists (default 0%Z (head d)). split.
    + apply lookup_union_Some_l. rewrite <- (Z2Nat.id id) at 1 by lia. by rewrite (lookup_indexed (fun _ d => default 0%Z (head d))), Ed.
    + destruct (digests_seen _ _ _ _ _ _ _ Hd H1 H2 Ed) as (t & Ht & HP). exists t. split; [done|]. intros g Hg. specialize (HP g Hg).
      destruct (shards g !! Z.to_nat id); [|done]. cbn in *. by injection HP as <-.
  - apply lookup_union_None. split; [|by destruct (ps !! id) eqn:E; [apply Hpools in E|]].
    apply not_elem_of_list_to_map_1. intros ([z y] & -> & [j Hj]%list_elem_of_lookup)%list_elem_of_fmap.
    rewrite list_lookup_imap in Hj. destruct (out !! j) eqn:Ej; simplify_eq/=. apply lookup_lt_Some in Ej. lia.
Qed.

Lemma fillBuckets_known ord t0 t1 out :
  MapConc.digests_ok m0 MapConc.PerBucket ord t0 t1 out -> length out = Z.to_nat ShardCount -> τ0 <= t0 -> t1 <= length ord ->
  buckets_known ord (fillBuckets pb out).
Proof.
  intros Hd Hlen H1 H2 id Hid. destruct (lookup_lt_is_Some_2 out (Z.to_nat id)) as [d Ed]; [lia|]. exists d. split; [|split].
  - apply lookup_union_Some_l. rewrite <- (Z2Nat.id id) at 1 by lia.
    rewrite (lookup_indexed (fun i d => fillFrom (default [] (pb !! Z.of_nat i)) d)), Ed. cbn. f_equal. unfold fillFrom.
    case_match eqn:El; [done|]. destruct (pb !! Z.of_nat (Z.to_nat id)) as [b|] eqn:Eb; [|done].
    apply Hpools in Eb as [_ Hb]. cbn in *. rewrite drop_ge by lia. apply app_nil_r.
  - destruct (Hd _ _ Ed) as (t & _ & HP). destruct (MapConc.hist_rep g0 m0 R0 ord t) as [g Hg]. specialize (HP g Hg).
    destruct (shards g !! Z.to_nat id) as [sh|] eqn:Esh; [|done]. injection HP as <-. cbn.
    by rewrite (subHashes_length _ _ _ (proj1 Hg) Esh).
  - by eapply digests_seen.
Qed.

(** The loop visits every shard. *)
Lemma known_order ord ls order : shards_known ord ls -> order ≡ₚ (map_to_list ls).*1 -> order ≡ₚ shardIDs.
Proof.
  intros Hls ->. apply NoDup_Permutation; [apply NoDup_fst_map_to_list|apply shardIDs_NoDup|].
  intros id. rewrite elem_of_shardIDs, list_elem_of_fmap. specialize (Hls id). split.
  - intros ([j x] & -> & Hx%elem_of_map_to_list). cbn in *. case_decide; [done|]. by rewrite Hls in Hx.
  - intros Hid. rewrite decide_True in Hls by done. destruct Hls as (h & Hh & _). exists (id, h). split; [done|]. by apply elem_of_map_to_list.
Qed.

(** ** Invariant *)

Abbreviation thread_p s := (MapConc.threads (mp s) !! p).
Abbreviation ord_of s := (MapConc.order (mp s)).
Implicit Types (s : state).

Definition calls s (c : MapConc.call) : Prop := exists t, thread_p s = Some t /\ MapConc.call_of t = c.
Definition ended s : Prop := exists t, thread_p s = Some t /\ MapConc.finished t.

(** While nothing is written, the comparison of the roots is exact. *)
Definition root_ok ord (matched : bool) : Prop :=
  length ord = τ0 -> forall g, represents g (hist ord τ0) -> (Root cfg =? RootDigest g)%Z = matched.

(** The shards still to visit, and what the others gave. *)
Definition progress ord (rest : list Z) (acc : batch) : Prop :=
  exists done l, done ++ rest ≡ₚ shardIDs /\ acc = (setsOf l, delsOf l) /\ pulled ord done l.

Definition at_ok s : Prop :=
  match at_ s with
  | PRoot => calls s (MapConc.CallDigests MapConc.PerShard)
  | PShards => calls s (MapConc.CallDigests MapConc.PerShard) /\ root_ok (ord_of s) false
  | PBuckets ls => calls s (MapConc.CallDigests MapConc.PerBucket) /\ root_ok (ord_of s) false /\ shards_known (ord_of s) ls
  | PLoop ls lb rest acc => ended s /\ root_ok (ord_of s) false /\ shards_known (ord_of s) ls /\ buckets_known (ord_of s) lb /\
      progress (ord_of s) rest acc
  | PCollect ls lb id mask rest acc => calls s (MapConc.CallRangeShard id mask) /\ root_ok (ord_of s) false /\ shards_known (ord_of s) ls /\
      buckets_known (ord_of s) lb /\ progress (ord_of s) (id :: rest) acc /\ roundMask cfg ls lb id = Some (Some mask)
  | PDone matched r => ended s /\ root_ok (ord_of s) matched /\
      exists l, r = Some (setsOf l, delsOf l) /\ if matched then l = [] else pulled (ord_of s) shardIDs l
  end.

Record pinv s : Prop := {
  q_ok : MapConc.ok g0 m0 (mp s);
  q_time : τ0 <= MapConc.now (mp s);
  q_start : τ0 <= MapConc.range_start (mp s) p;
  q_at : at_ok s
}.

Lemma root_ok_grow ord ext matched : τ0 <= length ord -> root_ok ord matched -> root_ok (ord ++ ext) matched.
Proof.
  intros Hl Hr Hlen. rewrite length_app in Hlen. assert (ext = []) as -> by (destruct ext; [done|cbn in Hlen; lia]).
  rewrite app_nil_r. apply Hr. cbn in Hlen. lia.
Qed.

Lemma progress_grow ord ext rest acc : τ0 <= length ord -> progress ord rest acc -> progress (ord ++ ext) rest acc.
Proof. intros Hl (done & l & H1 & H2 & H3). exists done, l. do 2 (split; [done|]). by apply pulled_grow. Qed.

(** A step of some goroutine within its call. *)
Lemma map_step_shape (mp mp' : MapConc.state) :
  MapConc.step mp mp' -> MapConc.range_start mp p <= MapConc.range_start mp' p /\
  (exists ext, MapConc.order mp' = MapConc.order mp ++ ext) /\
  forall t, MapConc.threads mp !! p = Some t ->
    exists t', MapConc.threads mp' !! p = Some t' /\ MapConc.call_of t' = MapConc.call_of t /\ (MapConc.finished t -> t' = t).
Proof.
  intros (i & t & goOn & Hi & He). split; [by eapply MapConc.exec_range_start|].
  destruct (MapConc.exec_shape _ _ _ _ _ He) as (t' & Ht' & Hc & Hnf & Ho). split.
  - destruct Ho as [->|(o & _ & ->)]; [exists []; by rewrite app_nil_r|by eexists].
  - intros u Hu. rewrite Ht'. destruct (decide (p = i)) as [->|Hne].
    + rewrite list_lookup_insert_eq by by eapply lookup_lt_Some. exists t'. by simplify_eq.
    + rewrite list_lookup_insert_ne by done. by exists u.
Qed.

Lemma pinv_map s mp' : pinv s -> MapConc.step (mp s) mp' -> pinv (mkState mp' (at_ s)).
Proof.
  intros [Hok Htime Hstart Hat] Hst. destruct (map_step_shape _ _ Hst) as (Hrs & (ext & Hext) & Hth).
  assert (forall c, calls s c -> calls (mkState mp' (at_ s)) c) as Hcalls.
  { intros c (t & Ht & Hc). destruct (Hth t Ht) as (t' & Ht' & Hc' & _). exists t'. split; [done|congruence]. }
  assert (ended s -> ended (mkState mp' (at_ s))) as Hend.
  { intros (t & Ht & Hf). destruct (Hth t Ht) as (t' & Ht' & _ & He). rewrite He in Ht' by done. by exists t. }
  unfold MapConc.now in Htime. split; cbn [mp].
  - by eapply MapConc.ok_step.
  - unfold MapConc.now. rewrite Hext, length_app. lia.
  - lia.
  - unfold at_ok in *. cbn [at_ mp]. rewrite Hext. destruct (at_ s) as [| |ls|ls lb rest acc|ls lb id mask rest acc|matched r].
    + by apply Hcalls.
    + destruct Hat as (H1 & H2). auto using root_ok_grow.
    + destruct Hat as (H1 & H2 & H3). auto using root_ok_grow, shards_known_grow.
    + destruct Hat as (H1 & H2 & H3 & H4 & H5). auto 6 using root_ok_grow, shards_known_grow, buckets_known_grow, progress_grow.
    + destruct Hat as (H1 & H2 & H3 & H4 & H5 & H6). auto 7 using root_ok_grow, shards_known_grow, buckets_known_grow, progress_grow.
    + destruct Hat as (H1 & H2 & l & -> & Hl). split; [auto|]. split; [by apply root_ok_grow|]. exists l. split; [done|].
      destruct matched; [done|]. by apply pulled_grow.
Qed.

(** A step of the pull: it makes its next call, or it has returned from the last one. *)
Lemma pinv_call s t t' at' :
  pinv s -> thread_p s = Some t -> MapConc.finished t -> MapConc.begins t' -> (forall o, t' <> MapConc.WIdle o) ->
  MapConc.start_of (MapConc.now (mp s)) t' = MapConc.now (mp s) ->
  at_ok (mkState (MapConc.goto (mp s) p t') at') -> pinv (mkState (MapConc.goto (mp s) p t') at').
Proof.
  intros [Hok Htime Hstart Hat] Ht Hf Hb Hw Hs Hat'. split; cbn [mp]; [by eapply MapConc.ok_next|done| |done].
  unfold MapConc.range_start. change (MapConc.now (MapConc.goto (mp s) p t')) with (MapConc.now (mp s)).
  cbn [MapConc.threads MapConc.goto]. rewrite list_lookup_insert_eq by by eapply lookup_lt_Some.
  cbn -[MapConc.start_of MapConc.now]. by rewrite Hs.
Qed.

Lemma pinv_stay s at' : pinv s -> at_ok (mkState (mp s) at') -> pinv (mkState (mp s) at').
Proof. by intros [Hok Htime Hstart _] Hat. Qed.

Lemma calls_goto s t t' at' : thread_p s = Some t -> calls (mkState (MapConc.goto (mp s) p t') at') (MapConc.call_of t').
Proof. intros Ht. exists t'. split; [|done]. cbn. apply list_lookup_insert_eq. by eapply lookup_lt_Some. Qed.

(** What the thread of the pull has returned. *)
Lemma digests_returned s kd t0 t1 out :
  pinv s -> thread_p s = Some (MapConc.DDone kd t0 t1 out) ->
  MapConc.digests_ok m0 kd (ord_of s) t0 t1 out /\ length out = Z.to_nat ShardCount /\ τ0 <= t0 /\ t1 <= length (ord_of s).
Proof.
  intros [Hok _ Hstart _] Ht. destruct (MapConc.ok_threads _ _ _ Hok _ _ Ht) as (H1 & H2 & H3).
  unfold MapConc.range_start in Hstart. rewrite Ht in Hstart. done.
Qed.

Lemma shard_returned s id mask t0 t1 out :
  pinv s -> thread_p s = Some (MapConc.SDone id mask t0 t1 out) ->
  NoDup out.*1 /\ seen_at (ord_of s) (MapConc.selected id mask out).
Proof.
  intros [Hok _ Hstart _] Ht. destruct (MapConc.ok_threads _ _ _ Hok _ _ Ht) as (H1 & H2 & (t & Hb & Hs)).
  unfold MapConc.range_start in Hstart. rewrite Ht in Hstart. cbn in Hstart. split; [done|]. exists t. split; [lia|done].
Qed.

Lemma root_compared s t0 t1 out :
  pinv s -> thread_p s = Some (MapConc.DDone MapConc.PerShard t0 t1 out) ->
  root_ok (ord_of s) (Root cfg =? MapConc.rootOf out)%Z.
Proof.
  intros Hi Ht Hlen g Hg. destruct (digests_returned _ _ _ _ _ Hi Ht) as (Hd & Hl & H1 & H2).
  destruct (lookup_lt_is_Some_2 out 0) as [d Ed]; [rewrite Hl; change ShardCount with 128%Z; lia|].
  destruct (Hd _ _ Ed) as (t & Htt & _). assert (t0 = τ0) as -> by lia.
  by rewrite (MapConc.root_exact _ _ _ _ _ g Hd Hl) by (done || lia).
Qed.

Lemma next_shard ord id rest acc :
  progress ord (id :: rest) acc -> (0 <= id < ShardCount)%Z /\
  exists done l, (id :: done) ++ rest ≡ₚ shardIDs /\ id ∉ done /\ acc = (setsOf l, delsOf l) /\ pulled ord done l.
Proof.
  intros (done & l & Hp & Hacc & Hl). assert ((id :: done) ++ rest ≡ₚ shardIDs) as Hp' by (rewrite <- Hp; apply Permutation_middle).
  split; [apply elem_of_shardIDs; rewrite <- Hp'; by left|]. exists done, l. split; [done|]. split; [|done].
  pose proof shardIDs_NoDup as Hnd. rewrite <- Hp' in Hnd. cbn in Hnd. apply NoDup_cons in Hnd as [Hn _]. by apply not_elem_of_app in Hn as [? _].
Qed.

Lemma pinv_round s ls lb id rest acc s' :
  pinv s -> at_ s = PLoop ls lb (id :: rest) acc -> stepPull syn cfg ps pb p s [] = Some s' -> pinv s'.
Proof.
  intros Hi Ha. pose proof (q_at _ Hi) as Hat. unfold at_ok in Hat. rewrite Ha in Hat. destruct Hat as ((t & Ht & Hf) & Hr & Hls & Hlb & Hp).
  destruct (next_shard _ _ _ _ Hp) as (Hid & done & l & Hperm & Hn & -> & Hl). unfold stepPull. rewrite Ha.
  destruct (roundMask cfg ls lb id) as [[mask|]|] eqn:Em; intros [= <-].
  - eapply pinv_call; try done. unfold at_ok. cbn [at_ mp]. split; [by eapply calls_goto|]. cbn [MapConc.order MapConc.goto]. by auto 6.
  - by destruct (roundMask_some _ _ _ _ Hid Hls Hlb).
  - apply pinv_stay; [done|]. unfold at_ok. cbn [at_ mp]. split; [by exists t|]. do 3 (split; [done|]).
    exists (id :: done), l. do 2 (split; [done|]). by eapply pulled_skip.
Qed.

Lemma pinv_collected s ls lb id mask rest acc t0 t1 out s' :
  pinv s -> at_ s = PCollect ls lb id mask rest acc -> thread_p s = Some (MapConc.SDone id mask t0 t1 out) ->
  stepPull syn cfg ps pb p s [] = Some s' -> pinv s'.
Proof.
  intros Hi Ha Ht. pose proof (q_at _ Hi) as Hat. unfold at_ok in Hat. rewrite Ha in Hat. destruct Hat as (_ & Hr & Hls & Hlb & Hp & Hm).
  destruct (next_shard _ _ _ _ Hp) as (Hid & done & l & Hperm & Hn & -> & Hl). destruct (shard_returned _ _ _ _ _ _ Hi Ht) as [Hnd Hsel].
  unfold stepPull. rewrite Ha, Ht, (collectLoop_spec _ _ resp) by done. intros [= <-]. apply pinv_stay; [done|].
  unfold at_ok. cbn [at_ mp fst snd]. split; [by eexists|]. do 3 (split; [done|]). rewrite <- setsOf_app, <- delsOf_app.
  exists (id :: done), (l ++ filter (fun kv => resp kv.1 = true) out). do 2 (split; [done|]). by eapply pulled_add.
Qed.

Lemma pinv_pull s order s' : pinv s -> stepPull syn cfg ps pb p s order = Some s' -> pinv s'.
Proof.
  intros Hi Hs. pose proof (q_at _ Hi) as Hat. unfold at_ok in Hat.
  destruct (at_ s) as [| |ls|ls lb [|id rest] acc|ls lb id mask rest acc|matched r] eqn:Ha.
  - unfold stepPull in Hs. rewrite Ha in Hs. destruct (thread_p s) as [[| | | | | | | | | | | | | | | | |[|] t0 t1 out]|] eqn:Et; try done.
    injection Hs as <-. pose proof (root_compared _ _ _ _ Hi Et) as Hr. destruct (Root cfg =? _)%Z.
    + apply pinv_stay; [done|]. split; [by eexists|]. split; [done|]. by exists [].
    + eapply pinv_call; try done. split; [by eapply calls_goto|done].
  - unfold stepPull in Hs. rewrite Ha in Hs. destruct (thread_p s) as [[| | | | | | | | | | | | | | | | |[|] t0 t1 out]|] eqn:Et; try done.
    injection Hs as <-. destruct (digests_returned _ _ _ _ _ Hi Et) as (Hd & Hl & H1 & H2). eapply pinv_call; try done.
    split; [by eapply calls_goto|]. split; [apply Hat|]. by eapply fillShards_known.
  - unfold stepPull in Hs. rewrite Ha in Hs. destruct (thread_p s) as [[| | | | | | | | | | | | | | | | |[|] t0 t1 out]|] eqn:Et; try done.
    case_bool_decide as Hord; [|done]. injection Hs as <-. destruct (digests_returned _ _ _ _ _ Hi Et) as (Hd & Hl & H1 & H2).
    destruct Hat as (_ & Hr & Hls). apply pinv_stay; [done|]. split; [by eexists|]. do 2 (split; [done|]). split; [by eapply fillBuckets_known|].
    exists [], []. split; [by eapply known_order|]. split; [done|].
    split; [constructor|by intros k v ?%elem_of_nil|by intros k v g ?%elem_of_nil].
  - unfold stepPull in Hs. rewrite Ha in Hs. injection Hs as <-. destruct Hat as (He & Hr & _ & _ & done & l & Hp & -> & Hl).
    apply pinv_stay; [done|]. split; [done|]. split; [done|]. exists l. split; [done|]. rewrite app_nil_r in Hp. destruct Hl as [Hn Hsnd Hq].
    split; [done| |].
    + intros k v Hk. rewrite <- Hp. by apply Hsnd.
    + intros k v g. rewrite <- Hp. apply Hq.
  - eapply pinv_round; [done|done|]. unfold stepPull in *. rewrite Ha in *. done.
  - pose proof Hs as Hs'. unfold stepPull in Hs. rewrite Ha in Hs. destruct (thread_p s) as [[| | | | | | | | | | | | | |id' mask' t0 t1 out| | |]|] eqn:Et; try done.
    destruct Hat as ((t & Ht & Hc) & _). rewrite Et in Ht. injection Ht as <-. cbn in Hc. injection Hc as -> ->.
    eapply pinv_collected; [done..|]. unfold stepPull in *. rewrite Ha, Et in *. done.
  - unfold stepPull in Hs. by rewrite Ha in Hs.
Qed.

Lemma pinv_steps s s' : rtc (step syn cfg ps pb p) s s' -> pinv s -> pinv s'.
Proof.
  intros Hr. induction Hr as [|a b c [(mp' & Hst & ->)|(order & Hst)] _ IH]; [done| |]; intros Hi; apply IH;
    [by apply pinv_map|by eapply pinv_pull].
Qed.

(** As long as it has not returned some goroutine can move. *)
Lemma pull_moves s : pinv s -> (exists matched r, at_ s = PDone matched r) \/ exists s', step syn cfg ps pb p s s'.
Proof.
  intros Hi. pose proof (q_at _ Hi) as Hat.
  assert (forall c, calls s c -> (exists t, thread_p s = Some t /\ MapConc.call_of t = c /\ MapConc.finished t) \/
    exists s', step syn cfg ps pb p s s') as Hgo.
  { intros c (t & Ht & Hc). destruct (decide (MapConc.finished t)) as [Hf|Hf]; [left; by exists t|right].
    destruct (MapConc.can_progress (mp s) p t Ht Hf) as [mp' Hst].
    exists (mkState mp' (at_ s)). left. by exists mp'. }
  unfold at_ok in Hat. destruct (at_ s) as [| |ls|ls lb [|id rest] acc|ls lb id mask rest acc|matched r] eqn:Ha; [right..|by left; eauto].
  - destruct (Hgo _ Hat) as [(t & Ht & Hc & Hf)|?]; [|done]. destruct t; try done. injection Hc as ->.
    eexists. right. exists []. unfold stepPull. by rewrite Ha, Ht.
  - destruct Hat as [Hat _]. destruct (Hgo _ Hat) as [(t & Ht & Hc & Hf)|?]; [|done]. destruct t; try done. injection Hc as ->.
    eexists. right. exists []. unfold stepPull. by rewrite Ha, Ht.
  - destruct Hat as [Hat _]. destruct (Hgo _ Hat) as [(t & Ht & Hc & Hf)|?]; [|done]. destruct t; try done. injection Hc as ->.
    eexists. right. exists (map_to_list ls).*1. unfold stepPull. rewrite Ha, Ht. by rewrite bool_decide_true.
  - eexists. right. exists []. unfold stepPull. by rewrite Ha.
  - eexists. right. exists []. unfold stepPull. by rewrite Ha.
  - destruct Hat as [Hat _]. destruct (Hgo _ Hat) as [(t & Ht & Hc & Hf)|?]; [|done]. destruct t; try done.
    eexists. right. exists []. unfold stepPull. by rewrite Ha, Ht.
Qed.

(** With no write meanwhile the answer is that of [Pull] on its own. *)
Lemma unwritten_exact ord matched l g :
  length ord = τ0 -> root_ok ord matched -> (if matched then l = [] else pulled ord shardIDs l) -> represents g (hist ord τ0) ->
  l ≡ₚ filter (fun kv => differs cfg g kv.1 && resp kv.1 = true) (map_to_list (hist ord τ0)).
Proof.
  intros Hlen Hroot Hl Hg. pose proof (Hroot Hlen g Hg) as Hm. destruct matched; [subst l|].
  - rewrite (proj2 (Permutation_nil_r (filter _ _))); [done|]. apply filter_none. rewrite list.Forall_forall.
    intros x _. rewrite differs_shard, Hm. done.
  - destruct Hl as [Hnd Hs Hq]. apply NoDup_Permutation; [by eapply NoDup_fmap_1|apply NoDup_filter, NoDup_map_to_list|].
    intros [k v]. rewrite (Hq k v g), list_elem_of_filter, elem_of_map_to_list; [|..|done].
    + cbn [fst]. rewrite differs_shard, Hm, andb_true_iff. cbn. tauto.
    + apply elem_of_shardIDs. pose proof (shardIndex_lt (HashFunc k)). change ShardCount with 128%Z in *. lia.
    + intros t j Ht _. by replace t with τ0 by lia.
Qed.

End Seen.

(** ** Theorem *)

Section Theorems.
Context `{HX : XXHash} `{HR : Radix} `{!XXHashLaws} `{!RadixLaws}.
Context {W C M : Type} `{HW : Waler W} `{HC : Clocker C} `{HM : Mesh.Mesher M}.

(** C20. A pull that is answered while other goroutines write.  Whatever happens between and
    during its calls of the map, [Pull] returns, and its answer has at most one request per key,
    each for a record that the requester replicates and that was current at some moment of the
    pull; from a shard that no write changed meanwhile it sends exactly the records of the
    sub-buckets that differ from the request; and if nothing was written at all the answer is
    the exact one.  Until it has returned, some goroutine can always move. *)
Theorem pull_among_writes (syn : Syncer W C M) cfg ps pb p g0 m0 ts mp0 resp s :
  represents g0 m0 -> Forall MapConc.begins ts -> rtc MapConc.step (MapConc.init g0 ts) mp0 ->
  MapConc.threads mp0 !! p = Some (MapConc.DIdle MapConc.PerShard) -> pools_ok ps pb ->
  (forall k, isRequesterResponsible syn k (RequesterID cfg) = Some (resp k)) ->
  rtc (step syn cfg ps pb p) (mkState mp0 PRoot) s ->
  let start := MapConc.now mp0 in
  let ord := MapConc.order (mp s) in
  match at_ s with
  | PDone matched answer => exists b l, answer = Some b /\ batch_ops b ≡ₚ requestOf <$> l /\ NoDup l.*1 /\
      (forall k v, (k, v) ∈ l -> resp k = true /\ MapConc.during m0 ord start (length ord) (fun m => m !! k = Some v)) /\
      (matched = false -> forall k v g, quiet m0 start ord (Z.of_nat (shardIndex (HashFunc k))) ->
         represents g (MapConc.hist m0 ord start) ->
         (k, v) ∈ l <-> MapConc.hist m0 ord start !! k = Some v /\ shardDiffers cfg g k = true /\ resp k = true) /\
      (length ord = start -> forall g, represents g (MapConc.hist m0 ord start) ->
         l ≡ₚ filter (fun kv => differs cfg g kv.1 && resp kv.1 = true) (map_to_list (MapConc.hist m0 ord start)))
  | _ => exists s', step syn cfg ps pb p s s'
  end.
Proof.
  intros R0 Hts Hreach Hp Hpools Hresp Hr start ord.
  assert (pinv cfg p g0 m0 resp start (mkState mp0 PRoot)) as Hi0.
  { split; [by eapply MapConc.ok_reachable|done| |by eexists]. unfold MapConc.range_start. cbn [mp]. by rewrite Hp. }
  assert (pinv cfg p g0 m0 resp start s) as Hi by (by eapply pinv_steps).
  pose proof (pull_moves syn cfg ps pb p g0 m0 resp start s Hi) as Hmove. pose proof (q_at _ _ _ _ _ _ _ Hi) as Hat. unfold at_ok in Hat.
  destruct (at_ s) as [| | | | |matched r]; [by destruct Hmove as [(? & ? & ?)|?]..|].
  destruct Hat as (_ & Hroot & l & -> & Hl). fold ord in Hroot, Hl. exists (setsOf l, delsOf l), l.
  split; [done|]. split; [apply batch_ops_of|]. split; [|split; [|split]].
  - destruct matched; [subst l; constructor|apply (pl_nodup _ _ _ _ _ _ _ Hl)].
  - intros k v Hk. destruct matched; [subst l; by apply elem_of_nil in Hk|]. by apply (pl_sound _ _ _ _ _ _ _ Hl).
  - intros -> k v g Hq Hg. apply (pl_quiet _ _ _ _ _ _ _ Hl); [|done..].
    apply elem_of_shardIDs. pose proof (shardIndex_lt (HashFunc k)). change ShardCount with 128%Z in *. lia.
  - intros Hlen g Hg. by eapply unwritten_exact.
Qed.

End Theorems.

(** ** Example *)

Module PullConcExamples.
Import Fnv GmapRadix EntropyExamples.

(** A request of a peer that has nothing, to a node with one record. *)
Definition request : PullConfig := mkPull (FillShardDigests NewShardedMap ∅) ∅ "n2" (RootDigest NewShardedMap).
Definition stored : Value := mkValue "n1" (Some (string_bytes "hello")) 7 false 0.
Definition fresher : Value := mkValue "n1" (Some (string_bytes "world")) 9 false 0.

(** One write before the pull, by goroutine 0; one among its calls, by goroutine 2. *)
Definition goroutines : list MapConc.thread :=
  [MapConc.WIdle (MStore "k" stored); MapConc.DIdle MapConc.PerShard; MapConc.WIdle (MStore "j" fresher)].
Definition start : MapConc.state := MapConc.MapConcExamples.after goroutines (replicate 5 0).

(** A turn of goroutine [i]: a step of the pull when its call has returned. *)
Definition turn (s : state) (i : nat) : option state :=
  match MapConc.threads (mp s) !! i with
  | Some t =>
      if decide (MapConc.finished t) then
        if decide (i = 1) then
          stepPull node_a request ∅ newBuckets 1 s match at_ s with PBuckets ls => (map_to_list ls).*1 | _ => [] end
        else None
      else match MapConc.exec (mp s) i true t with Some mp' => Some (mkState mp' (at_ s)) | None => None end
  | None => None
  end.

Fixpoint play (s : state) (xs : list nat) : option state :=
  match xs with [] => Some s | i :: xs' => match turn s i with Some s' => play s' xs' | None => None end end.

Lemma pull_play_rtc s xs s' : play s xs = Some s' -> rtc (step node_a request ∅ newBuckets 1) s s'.
Proof.
  revert s. induction xs as [|i xs IH]; intros s; cbn [play]; [by intros [= ->]|].
  destruct (turn s i) as [s1|] eqn:Et; [|done]. intros Hp. eapply rtc_l; [|by apply IH]. unfold turn in Et.
  destruct (MapConc.threads (mp s) !! i) as [t|] eqn:Ei; [|done]. case_decide.
  - case_decide; [|done]. right. by eexists.
  - destruct (MapConc.exec (mp s) i true t) as [mp'|] eqn:Ee; [|done]. injection Et as <-. left. exists mp'. split; [|done]. by exists i, t, true.
Qed.

Definition turns : list nat := replicate 200 1 ++ replicate 5 2 ++ replicate 326 1.
Definition at_end : option state := play (mkState start PRoot) turns.

(** Only the record that was there is sent: the digest of the other one's shard had been read. *)
Definition answered (s : option state) : bool :=
  match s with
  | Some (mkState _ (PDone false (Some b))) => bool_decide (b = ([buildSetRequest "k" stored], []))
  | _ => false
  end.

Lemma answered_eq s : answered s = true -> exists mp', s = Some (mkState mp' (PDone false (Some ([buildSetRequest "k" stored], [])))).
Proof. unfold answered. repeat (case_match; try done). intros ->%bool_decide_eq_true. by eexists. Qed.

Lemma pull_among_writes_witness :
  exists mp', at_end = Some (mkState mp' (PDone false (Some ([buildSetRequest "k" stored], [])))) /\
    exists l, NoDup l.*1 /\ WalEntry_Set <$> [buildSetRequest "k" stored] ≡ₚ requestOf <$> l.
Proof.
  assert (answered at_end = true) as (mp' & He)%answered_eq by (vm_compute; reflexivity).
  exists mp'. split; [exact He|].
  pose proof (pull_among_writes node_a request ∅ newBuckets 1 NewShardedMap ∅ goroutines start (fun _ => true) _
    NewShardedMap_represents ltac:(repeat constructor)
    (MapConc.MapConcExamples.after_rtc goroutines (replicate 5 0) ltac:(vm_compute; reflexivity))
    ltac:(vm_compute; reflexivity) new_pools_ok ltac:(intros k; vm_compute; reflexivity) (pull_play_rtc _ _ _ He)) as Ht.
  cbn [at_] in Ht. destruct Ht as (b & l & Hb & Hops & Hnd & _). injection Hb as <-. exists l. split; [exact Hnd|exact Hops].
Defined.

End PullConcExamples.
End PullConc.
