(* ===== verification/Converge.v ===== *)
(** * Convergence of a cluster by anti-entropy (src/cluster/entropy/sync.go)

    Any number of nodes that run rounds of [performSync] against each other in any order.  Each
    node replicates the keys it owns.  What a node holds for a key after a run is the
    last-write-wins maximum of what the nodes held that it has heard of, directly or through
    others; so nodes that have heard of the same nodes agree.  A round does not always tell
    what the other node has: digests can agree by cancellation although the records differ,
    and then the round teaches nothing about the key ([teaches]). *)

From S2P Require Import Prelude Kv ShardedMap MapTheory Wal WalTheory Iface Writer Mesh Entropy EntropyTheory.
Import ShardedMap Writer Entropy.

#[local] Open Scope nat_scope.

Module Converge.

(** ** Maxima under last-write-wins *)

Lemma lwwWins_key v v1 v2 : lww_key v1 = lww_key v2 -> lwwWins v v1 = lwwWins v v2.
Proof. intros [= Ht Hn Hh]. unfold lwwWins. by rewrite Ht, Hn, Hh. Qed.

(** [o] is not beaten by [x]. *)
Definition above (o x : option Value) : Prop := lww_merge o x = o.

Lemma above_None x : above None x -> x = None.
Proof. by destruct x. Qed.

Lemma above_Some v x : above (Some v) (Some x) <-> lwwWins v x = false \/ x = v.
Proof.
  unfold above. cbn. destruct (lwwWins v x) eqn:E; split; try (intros [= <-]; auto); [|by left|done].
  intros [?| ->]; [done|]. done.
Qed.

Lemma above_merge_l o1 o2 x : above o1 x -> above (lww_merge o1 o2) x.
Proof.
  destruct x as [x|]; [|done]. destruct o1 as [v1|]; [|by intros ?%above_None]. destruct o2 as [v2|]; [|done]. cbn.
  destruct (lwwWins v1 v2) eqn:E12; [|done]. rewrite !above_Some. intros H1. left. apply not_true_iff_false. intros H2.
  pose proof (lwwWins_trans _ _ _ E12 H2) as H3. destruct H1 as [?| ->]; [congruence|]. by rewrite lwwWins_irrefl in H3.
Qed.

Lemma above_merge_r o1 o2 x : above o2 x -> above (lww_merge o1 o2) x.
Proof.
  destruct x as [x|]; [|done]. destruct o2 as [v2|]; [|by intros ?%above_None]. destruct o1 as [v1|]; [|done]. cbn.
  destruct (lwwWins v1 v2) eqn:E12; [done|]. rewrite !above_Some. intros H2. left. apply not_true_iff_false. intros H1.
  destruct H2 as [H2| ->]; [|congruence]. destruct (lwwWins x v2) eqn:Ex.
  - pose proof (lwwWins_trans _ _ _ H1 Ex). congruence.
  - pose proof (lwwWins_total _ _ Ex H2) as Hk. rewrite (lwwWins_key v1 _ _ Hk) in H1. congruence.
Qed.

Lemma merge_choice o1 o2 : lww_merge o1 o2 = o1 \/ lww_merge o1 o2 = o2.
Proof. destruct o2 as [v2|]; [|by left]. destruct o1 as [v1|]; [|by right]. cbn. destruct (lwwWins v1 v2); auto. Qed.

(** ** What was heard of *)

(** [i] learns from [j] about a key. *)
Definition hears (h : list (gset nat)) (x : nat * nat) : list (gset nat) :=
  <[x.1 := h !!! x.1 ∪ h !!! x.2]> h.

(** The nodes each of [n] nodes has heard of after the lessons [tr]. *)
Definition heard (n : nat) (tr : list (nat * nat)) : list (gset nat) :=
  foldl hears ((fun i => {[i]}) <$> seq 0 n) tr.

Lemma heard_length n tr : length (heard n tr) = n.
Proof.
  unfold heard. induction tr as [|x tr IH] using rev_ind; [cbn [foldl]; by rewrite length_fmap, length_seq|].
  rewrite foldl_app. cbn. unfold hears at 1. by rewrite length_insert.
Qed.

(** [r] is the maximum of what the nodes [h] held for [k] to begin with. *)
Definition best (ms : list (gmap string Value)) (h : gset nat) (k : string) (r : option Value) : Prop :=
  (exists j m, j ∈ h /\ ms !! j = Some m /\ r = norm_value <$> m !! k) /\
  forall j m, j ∈ h -> ms !! j = Some m -> above r (norm_value <$> m !! k).

Lemma best_self ms i m k : ms !! i = Some m -> best ms {[i]} k (norm_value <$> m !! k).
Proof.
  intros Hi. split; [exists i, m; set_solver|]. intros j m' ->%elem_of_singleton Hj. simplify_eq. apply lww_merge_same.
Qed.

Lemma best_merge ms h1 h2 k r1 r2 : best ms h1 k r1 -> best ms h2 k r2 -> best ms (h1 ∪ h2) k (lww_merge r1 r2).
Proof.
  intros [(j1 & m1 & Hj1 & Hm1 & E1) Ha1] [(j2 & m2 & Hj2 & Hm2 & E2) Ha2]. split.
  - destruct (merge_choice r1 r2) as [->| ->]; [exists j1, m1|exists j2, m2]; set_solver.
  - intros j m [Hj|Hj]%elem_of_union Hm; [by eapply above_merge_l, Ha1|by eapply above_merge_r, Ha2].
Qed.

Lemma best_unique ms h k r1 r2 :
  (forall i j mi mj, ms !! i = Some mi -> ms !! j = Some mj -> no_ties mi mj) ->
  best ms h k r1 -> best ms h k r2 -> r1 = r2.
Proof.
  intros Hties [(j1 & m1 & Hj1 & Hm1 & ->) Ha1] [(j2 & m2 & Hj2 & Hm2 & ->) Ha2].
  specialize (Ha1 j2 m2 Hj2 Hm2). specialize (Ha2 j1 m1 Hj1 Hm1). pose proof (Hties _ _ _ _ Hm1 Hm2 k) as Ht.
  destruct (m1 !! k) as [v1|], (m2 !! k) as [v2|]; cbn in *; [|by apply above_None in Ha2|by apply above_None in Ha1|done].
  rewrite above_Some in Ha1, Ha2. destruct Ha1 as [H1| ->]; [|done]. destruct Ha2 as [H2| ->]; [|done].
  f_equal. apply Ht; [done..|]. by apply (lwwWins_total v1 v2).
Qed.

(** ** Runs *)

Section Runs.
Context `{HX : XXHash} `{HR : Radix} `{!XXHashLaws} `{!RadixLaws}.
Context {W C M : Type} `{HW : Waler W} `{HC : Clocker C} `{HM : Mesh.Mesher M}.

(** A round in which node [i], in state [a], pulls from node [j], in state [b]. *)
Definition meeting : Type := nat * nat * (Syncer W C M * Syncer W C M).

Implicit Types (a b : Syncer W C M) (ss : list (Syncer W C M)) (ms : list (gmap string Value)) (met : list meeting).

(** The records of [k] are the same on both sides, an empty value counting as nil. *)
Definition same_record a b (k : string) : bool :=
  bool_decide (norm_value <$> sm_get (shm a) k = norm_value <$> sm_get (shm b) k).

(** What the two sides hold is told apart by the digests: equal digests mean equal records. *)
Definition distinguished a b : Prop := forall k, digests_differ (shm a) (shm b) k = false -> same_record a b k = true.

(** A round teaches its puller what the other side has for [k] if the puller replicates [k] and
    either the digests of the map, the shard and the sub-bucket of [k] all differ, or there is
    nothing to learn. *)
Definition teaches (owns : nat -> string -> bool) (k : string) (x : meeting) : bool :=
  owns x.1.1 k && (digests_differ (shm x.2.1) (shm x.2.2) k || same_record x.2.1 x.2.2 k).

Definition lessons (owns : nat -> string -> bool) (k : string) met : list (nat * nat) :=
  (filter (fun x => teaches owns k x = true) met).*1.

(** The rounds of a cluster, oldest first. *)
Inductive gossip ss : list meeting -> list (Syncer W C M) -> Prop :=
| gossip_nil : gossip ss [] ss
| gossip_round met ss' i j a b a' :
    gossip ss met ss' -> ss' !! i = Some a -> ss' !! j = Some b -> synced a b a' ->
    gossip ss (met ++ [(i, j, (a, b))]) (<[i := a']> ss').

(** Which keys a node replicates, as every node's ring has it. *)
Definition routed ss (owns : nat -> string -> bool) : Prop :=
  forall i j a b k, ss !! i = Some a -> ss !! j = Some b -> isRequesterResponsible b k (nodeID a) = Some (owns i k).

Lemma routed_round ss owns i a b a' : routed ss owns -> ss !! i = Some a -> synced a b a' -> routed (<[i := a']> ss) owns.
Proof.
  intros Hr Hi Hs. pose proof (synced_frame _ _ _ Hs) as Ea.
  assert (forall j x, <[i := a']> ss !! j = Some x -> exists y, ss !! j = Some y /\ nodeID x = nodeID y /\
    forall k who, isRequesterResponsible x k who = isRequesterResponsible y k who) as Hsame.
  { intros j x Hj. destruct (decide (j = i)) as [->|Hne].
    - rewrite list_lookup_insert_eq in Hj by by eapply lookup_lt_Some. injection Hj as <-. exists a. by rewrite Ea.
    - rewrite list_lookup_insert_ne in Hj by done. by exists x. }
  intros p q x y k (x0 & Hx & Ex & _)%Hsame (y0 & Hy & _ & Ey)%Hsame. rewrite Ex, Ey. by apply Hr with q.
Qed.

(** One round, key by key. *)
Lemma round_key i j a b a' ma mb owns :
  represents (shm a) ma -> represents (shm b) mb -> tombs_empty ma -> tombs_empty mb -> log_reliable ->
  (forall k, isRequesterResponsible b k (nodeID a) = Some (owns i k)) -> synced a b a' ->
  exists ma', represents (shm a') ma' /\ tombs_empty ma' /\
    forall k, norm_value <$> ma' !! k =
      if teaches owns k (i, j, (a, b)) then lww_merge (norm_value <$> ma !! k) (norm_value <$> mb !! k)
      else norm_value <$> ma !! k.
Proof.
  intros Ra Rb Hta Htb Hlog Hresp Hs. destruct (synced_merges a b a' ma mb (owns i) Ra Rb Htb Hlog Hresp Hs) as (ma' & Ra' & Hma').
  assert (forall k, norm_value <$> ma' !! k =
    if teaches owns k (i, j, (a, b)) then lww_merge (norm_value <$> ma !! k) (norm_value <$> mb !! k)
    else norm_value <$> ma !! k) as Hk.
  { intros k. rewrite Hma'. unfold teaches. cbn [fst snd]. rewrite andb_comm.
    destruct (owns i k), (digests_differ (shm a) (shm b) k); cbn [andb orb];
      [by rewrite norm_merge, norm_norm| |done|done].
    unfold same_record. destruct Ra as [_ ->], Rb as [_ ->]. case_bool_decide as E; [|done]. by rewrite E, lww_merge_same. }
  exists ma'. split; [done|]. split; [|done]. intros k v Hv. assert (tomb_ok (ma' !! k)) as Ht; [|by apply Ht].
  assert (tomb_ok (norm_value <$> ma !! k) /\ tomb_ok (norm_value <$> mb !! k)) as [Hka Hkb].
  { split; apply tomb_norm; intros w Hw; [by apply (Hta k)|by apply (Htb k)]. }
  apply tomb_norm. rewrite Hk. destruct (teaches owns k _); [by apply tomb_merge|done].
Qed.

(** What a run leaves: every node has, for every key, the maximum of what it has heard of. *)
Definition holds_best ms (owns : nat -> string -> bool) met ss' ms' : Prop :=
  length ss' = length ms /\ length ms' = length ms /\ routed ss' owns /\
  (forall i s m, ss' !! i = Some s -> ms' !! i = Some m -> represents (shm s) m /\ tombs_empty m) /\
  forall i m k h, ms' !! i = Some m -> heard (length ms) (lessons owns k met) !! i = Some h -> best ms h k (norm_value <$> m !! k).

Lemma heard_snoc n tr i j :
  heard n (tr ++ [(i, j)]) = let h := heard n tr in <[i := h !!! i ∪ h !!! j]> h.
Proof. unfold heard at 1. by rewrite foldl_app. Qed.

Lemma lessons_snoc owns k met x :
  lessons owns k (met ++ [x]) = lessons owns k met ++ if teaches owns k x then [x.1] else [].
Proof.
  unfold lessons. rewrite filter_app, fmap_app. f_equal. cbn. by destruct (teaches owns k x).
Qed.

Lemma holds_round ms owns met ss' ms' i j a b a' :
  log_reliable -> holds_best ms owns met ss' ms' -> ss' !! i = Some a -> ss' !! j = Some b -> synced a b a' ->
  exists ms2, holds_best ms owns (met ++ [(i, j, (a, b))]) (<[i := a']> ss') ms2.
Proof.
  intros Hlog (Hl & Hl' & Hro & Hrep & Hbest) Hi Hj Hs.
  assert (i < length ms') as Hli by (rewrite Hl', <- Hl; by eapply lookup_lt_Some).
  assert (j < length ms') as Hlj by (rewrite Hl', <- Hl; by eapply lookup_lt_Some).
  destruct (lookup_lt_is_Some_2 ms' i Hli) as [ma Hma]. destruct (lookup_lt_is_Some_2 ms' j Hlj) as [mb Hmb].
  destruct (Hrep _ _ _ Hi Hma) as [Ra Hta], (Hrep _ _ _ Hj Hmb) as [Rb Htb].
  destruct (round_key i j a b a' ma mb owns Ra Rb Hta Htb Hlog (fun k => Hro _ _ _ _ k Hi Hj) Hs) as (ma' & Ra' & Hta' & Hk).
  exists (<[i := ma']> ms'). split; [by rewrite length_insert|]. split; [by rewrite length_insert|].
  split; [by eapply routed_round|]. split.
  - intros p x m. destruct (decide (p = i)) as [->|Hne].
    + rewrite !list_lookup_insert_eq by (done || by eapply lookup_lt_Some). by intros [= <-] [= <-].
    + rewrite !list_lookup_insert_ne by done. apply Hrep.
  - intros p m k h. rewrite lessons_snoc. specialize (Hk k). destruct (teaches owns k _); cbn [fst].
    2: { rewrite app_nil_r. destruct (decide (p = i)) as [->|Hne].
      - rewrite list_lookup_insert_eq by done. intros [= <-]. rewrite Hk. by apply Hbest.
      - rewrite list_lookup_insert_ne by done. by apply Hbest. }
    rewrite heard_snoc. cbv zeta. set (hs := heard _ (lessons _ _ met)) in *.
    assert (length hs = length ms) as Hlhs by apply heard_length.
    destruct (lookup_lt_is_Some_2 hs i ltac:(lia)) as [hi Hhi]. destruct (lookup_lt_is_Some_2 hs j ltac:(lia)) as [hj Hhj].
    destruct (decide (p = i)) as [->|Hne].
    + rewrite !list_lookup_insert_eq by (done || lia). intros [= <-] [= <-]. rewrite Hk.
      rewrite (list_lookup_total_correct _ _ _ Hhi), (list_lookup_total_correct _ _ _ Hhj).
      apply best_merge; [by apply (Hbest i)|by apply (Hbest j)].
    + rewrite !list_lookup_insert_ne by done. by apply Hbest.
Qed.

Lemma gossip_best ss ms owns met ss' :
  Forall2 (fun s m => represents (shm s) m /\ tombs_empty m) ss ms -> routed ss owns -> log_reliable ->
  gossip ss met ss' -> exists ms', holds_best ms owns met ss' ms'.
Proof.
  intros Hss Hro Hlog Hg. induction Hg as [|met ss' i j a b a' Hg [ms' IH] Hi Hj Hs]; [|by eapply holds_round].
  exists ms. split; [by eapply Forall2_length|]. split; [done|]. split; [done|]. split.
  - intros i s m Hi Hm. by apply (Forall2_lookup_lr _ _ _ _ _ _ Hss Hi Hm).
  - intros i m k h Hm. unfold heard, lessons. cbn [foldl filter list_filter fmap list_fmap].
    rewrite list_lookup_fmap, lookup_seq_lt by by eapply lookup_lt_Some.
    intros [= <-]. by apply best_self.
Qed.

(** Where the digests told everything apart, every round teaches every key its puller replicates. *)
Lemma lessons_distinguished owns k met :
  (forall x, x ∈ met -> distinguished x.2.1 x.2.2) -> lessons owns k met = filter (fun p => owns p.1 k = true) met.*1.
Proof.
  unfold lessons. induction met as [|x met IH]; intros Hd; [done|]. rewrite fmap_cons, !filter_cons.
  rewrite <- IH by set_solver. assert (teaches owns k x = owns x.1.1 k) as ->; [|by destruct (owns x.1.1 k)].
  unfold teaches. destruct (owns x.1.1 k); [|done]. specialize (Hd x ltac:(set_solver) k).
  destruct (digests_differ _ _ k); [done|]. by rewrite Hd.
Qed.

(** C9. What anti-entropy achieves in a cluster.  However many nodes run however many rounds in
    whatever order, a node ends with, for every key, the last-write-wins maximum of the records
    of the nodes it has heard of for that key, itself included (an empty value counting as
    nil).  A round counts as hearing of a node for a key if the puller replicates the key and
    the digests of map, shard and sub-bucket all differ, or the records do not: a difference
    that the digests hide is not learnt.  Two nodes that have heard of the same nodes for a key
    hold the same record; two that have for every key have the same root digest, so that the
    pulls between them are empty from then on; and if in no round the digests hid a difference
    ([distinguished]), every round in which the puller replicates the key counts.  The rounds
    are those that complete; assumed are rings that agree on who replicates what ([routed]),
    logs that report no errors ([log_reliable]), tombstones without data, and no two different
    records of a key that tie on timestamp, node and hash ([no_ties]). *)
Theorem gossip_converges ss ms owns met ss' :
  Forall2 (fun s m => represents (shm s) m /\ tombs_empty m) ss ms -> routed ss owns -> log_reliable ->
  (forall i j mi mj, ms !! i = Some mi -> ms !! j = Some mj -> no_ties mi mj) -> gossip ss met ss' ->
  ((forall x, x ∈ met -> distinguished x.2.1 x.2.2) ->
     forall k, lessons owns k met = filter (fun p => owns p.1 k = true) met.*1) /\
  exists ms', length ms' = length ss' /\
    (forall i s m, ss' !! i = Some s -> ms' !! i = Some m -> represents (shm s) m) /\
    (forall i m k h, ms' !! i = Some m -> heard (length ms) (lessons owns k met) !! i = Some h ->
       best ms h k (norm_value <$> m !! k)) /\
    forall i j a b ma mb, ss' !! i = Some a -> ss' !! j = Some b -> ms' !! i = Some ma -> ms' !! j = Some mb ->
      let same k := heard (length ms) (lessons owns k met) !! i = heard (length ms) (lessons owns k met) !! j in
      (forall k, same k -> norm_value <$> ma !! k = norm_value <$> mb !! k) /\
      ((forall k, same k) -> RootDigest (shm a) = RootDigest (shm b) /\
         forall cfg ps pb order, Root cfg = RootDigest (shm b) -> Pull a cfg ps pb order = Some ([], [])).
Proof.
  intros Hss Hro Hlog Hties Hg. split; [intros; by apply lessons_distinguished|].
  destruct (gossip_best _ _ _ _ _ Hss Hro Hlog Hg) as (ms' & Hl & Hl' & _ & Hrep & Hbest).
  exists ms'. split; [congruence|]. split; [intros i s m Hi Hm; by apply (Hrep i s m)|]. split; [done|].
  intros i j a b ma mb Ha Hb Hma Hmb same.
  assert (forall k, same k -> norm_value <$> ma !! k = norm_value <$> mb !! k) as Hk.
  { intros k Hsame. unfold same in Hsame. destruct (lookup_lt_is_Some_2 (heard (length ms) (lessons owns k met)) i) as [h Hh].
    { rewrite heard_length, <- Hl'. by eapply lookup_lt_Some. }
    eapply best_unique; [exact Hties|by eapply Hbest|]. eapply Hbest; [done|]. by rewrite <- Hsame. }
  split; [done|]. intros Hall. assert (RootDigest (shm a) = RootDigest (shm b)) as Hroot.
  { apply (RootDigest_hashes _ _ ma mb); [by apply (Hrep i a ma)|by apply (Hrep j b mb)|]. apply norm_hashes. eauto. }
  split; [done|]. intros cfg ps pb order Hc. unfold Pull. by rewrite Hc, Hroot, Z.eqb_refl.
Qed.

End Runs.

(** ** A schedule after which everyone has heard of everyone: one node pulls from all others,
    and the others pull from it *)

Definition gather (m : nat) : list (nat * nat) := (fun j => (0, j)) <$> seq 1 m.
Definition spread (m : nat) : list (nat * nat) := (fun j => (j, 0)) <$> seq 1 m.

Lemma heard_round n tr i j hi hj p :
  heard n tr !! i = Some hi -> heard n tr !! j = Some hj ->
  heard n (tr ++ [(i, j)]) !! p = if decide (p = i) then Some (hi ∪ hj) else heard n tr !! p.
Proof.
  intros Hi Hj. rewrite heard_snoc. cbv zeta. rewrite (list_lookup_total_correct _ _ _ Hi), (list_lookup_total_correct _ _ _ Hj).
  case_decide; [subst; apply list_lookup_insert_eq; by eapply lookup_lt_Some|by apply list_lookup_insert_ne].
Qed.

Lemma gather_heard n m i :
  m < n -> i < n -> heard n (gather m) !! i = Some (if decide (i = 0) then set_seq 0 (S m) else {[i]}).
Proof.
  revert i. induction m as [|m IH]; intros i Hm Hi.
  - unfold heard, gather. cbn [foldl seq fmap list_fmap]. rewrite list_lookup_fmap, lookup_seq_lt by done. cbn. f_equal.
    case_decide; [subst|done]. apply leibniz_equiv. set_solver.
  - unfold gather. rewrite seq_S, fmap_app. cbn [fmap list_fmap].
    erewrite heard_round; [|apply IH; lia|apply IH; lia]. case_decide as E; [|rewrite IH by lia; by rewrite decide_False].
    f_equal. rewrite decide_True, decide_False by lia. apply leibniz_equiv.
    intros x. rewrite elem_of_union, elem_of_singleton, !elem_of_set_seq. lia.
Qed.

Lemma star_heard n i : i < n -> heard n (gather (n - 1) ++ spread (n - 1)) !! i = Some (set_seq 0 n).
Proof.
  intros Hn. assert (forall m p, m < n -> p < n -> heard n (gather (n - 1) ++ spread m) !! p =
    Some (if decide (p <= m) then set_seq 0 n else {[p]})) as Hs.
  { induction m as [|m IH]; intros p Hm Hp.
    - unfold spread. cbn [seq fmap list_fmap]. rewrite app_nil_r, gather_heard by lia. f_equal.
      destruct (decide (p = 0)) as [->|]; [by rewrite decide_True by lia; replace (S (n - 1)) with n by lia|by rewrite decide_False by lia].
    - unfold spread. rewrite seq_S, fmap_app, (assoc_L (++)). cbn [fmap list_fmap].
      erewrite heard_round; [|apply IH; lia|apply IH; lia]. rewrite (decide_True (P := 0 <= m)) by lia.
      rewrite (decide_False (P := 1 + m <= m)) by lia. destruct (decide (p = 1 + m)) as [->|Hne].
      + rewrite decide_True by lia. f_equal. apply leibniz_equiv. intros x. rewrite elem_of_union, elem_of_singleton, elem_of_set_seq. lia.
      + rewrite IH by lia. f_equal. destruct (decide (p <= m)); [by rewrite decide_True by lia|by rewrite decide_False by lia]. }
  rewrite Hs by lia. by rewrite decide_True by lia.
Qed.

(** ** Two nodes *)

Module ConvergeExamples.
Import Fnv GmapRadix EntropyExamples.

Lemma gossip_ab :
  gossip [node_a; node_b] [(0, 1, (node_a, node_b)); (1, 0, (node_b, node_a'))] [node_a'; node_b'].
Proof.
  apply (gossip_round [node_a; node_b] [(0, 1, (node_a, node_b))] [node_a'; node_b] 1 0 node_b node_a' node_b'); [|done..|].
  - apply (gossip_round [node_a; node_b] [] [node_a; node_b] 0 1 node_a node_b node_a'); [apply gossip_nil|done..|].
    exact synced_ab.
  - apply (good_synced node_b node_a' "10.0.0.1:80" (proj1 rep_b)). vm_compute. reflexivity.
Qed.

Lemma distinguished_two (a b : peer) ma mb :
  represents (shm a) ma -> represents (shm b) mb -> digests_distinguish a ma b mb -> distinguished a b.
Proof.
  intros [_ Ha] [_ Hb] Hd k Hk. apply bool_decide_eq_true. rewrite Ha, Hb. by apply Hd.
Qed.

Lemma routed_two (x y : peer) :
  (forall z k who, z = x \/ z = y -> who ∈ ["n1"; "n2"]%string -> isRequesterResponsible z k who = Some true) ->
  nodeID x ∈ ["n1"; "n2"]%string -> nodeID y ∈ ["n1"; "n2"]%string -> routed [x; y] (fun _ _ => true).
Proof.
  intros Hr Hx Hy i j a b k Hi Hj. apply list_elem_of_lookup_2 in Hi, Hj. rewrite !elem_of_cons in Hi, Hj.
  apply Hr; [|by destruct Hi as [->|[->|Hi%elem_of_nil]]]. destruct Hj as [->|[->|Hj%elem_of_nil]]; [by left|by right|done].
Qed.

Lemma routed_ab : routed [node_a; node_b] (fun _ _ => true).
Proof.
  apply routed_two; [|left|right; left]. intros z k who [->| ->] Hw; by apply EntropyExamples.everyone.
Qed.

Lemma gossip_converges_witness : RootDigest (shm node_a') = RootDigest (shm node_b').
Proof.
  destruct (gossip_converges [node_a; node_b] [map_of ops_a; map_of ops_b] (fun _ _ => true)
    [(0, 1, (node_a, node_b)); (1, 0, (node_b, node_a'))] [node_a'; node_b'])
    as (Hless & ms' & Hl & Hrep & _ & Hsame).
  - constructor; [split; [exact rep_a|exact tombs_a]|]. constructor; [split; [exact rep_b|exact tombs_b]|constructor].
  - exact routed_ab.
  - exact reliable_nop.
  - assert (forall p q, p ∈ [map_of ops_a; map_of ops_b] -> q ∈ [map_of ops_a; map_of ops_b] -> no_ties p q) as Ht.
    { intros p q Hp Hq. rewrite !elem_of_cons in Hp, Hq.
      destruct Hp as [->|[->|Hp]], Hq as [->|[->|Hq]]; try (by apply elem_of_nil in Hp); try (by apply elem_of_nil in Hq);
        apply ties_check; vm_compute; reflexivity. }
    intros i j mi mj Hi Hj. apply Ht; by eapply list_elem_of_lookup_2.
  - exact gossip_ab.
  - destruct ms' as [|ma [|mb []]]; try discriminate Hl.
    destruct (Hsame 0 1 node_a' node_b' ma mb eq_refl eq_refl eq_refl eq_refl) as [_ Hroot].
    apply Hroot. intros k. rewrite Hless; [vm_compute; reflexivity|].
    intros x Hx. rewrite !elem_of_cons in Hx. destruct Hx as [->|[->|Hx%elem_of_nil]]; [| |done]; cbn [fst snd].
    + exact (distinguished_two _ _ _ _ rep_a rep_b distinguish_ab).
    + pose proof (Hrep 0 node_a' ma eq_refl eq_refl) as Ra.
      exact (distinguished_two _ _ _ _ rep_b Ra (distinguish_ba _ Ra)).
Defined.

End ConvergeExamples.
End Converge.
