(* ===== verification/Cluster.v ===== *)
(** * Cluster nodes (src/cluster/node.go, gateway/, gossip/gossip.go, stats/monitor.go)

    A node joins an engine with the mesh, the gateway that routes requests to the owners of a
    key, the anti-entropy syncer, the gossip handler and the load monitor.  The cluster is the
    map of its nodes; gRPC is third-party and enters as a [network]: which node an address
    leads to and what becomes of a call.

    The goroutines of a replicated write run in an unspecified order, an argument of the
    operations.  A read can travel from node to node, and each call of a peer is given up after
    a second: reads are timed.  A call costs the time of its round trip, local work costs none,
    and a read is run for a given time, at the end of which it may not have returned.
    [nodeGet] is also indexed by the number of hops it may travel, as fuel; [None] means that
    the fuel is used up (or a panic), and [ClusterTheory] shows how much is enough.  What a
    peer still does for a read whose caller has given up is not followed. *)

From S2P Require Import Prelude Kv ShardedMap MapTheory Wal WalTheory Iface Writer Evict Engine Mesh Entropy.
Import ShardedMap Writer Engine.

#[local] Open Scope Z_scope.

Module Cluster.

(** ** ClientCache *)

(** A cached client is identified by its address. *)
Record ClientCache := mkCache { clients : gset string; closed : bool }.

Definition NewClientCache : ClientCache := mkCache ∅ false.

Definition cacheGet (dial : string -> result unit) (cc : ClientCache) (addr : string) : result unit * ClientCache :=
  if closed cc then (Err (ErrMsg "client cache is closed"), cc)
  else if bool_decide (addr ∈ clients cc) then (Ok tt, cc)
  else match dial addr with
       | Err e => (Err e, cc)
       | Ok _ => (Ok tt, mkCache ({[addr]} ∪ clients cc) (closed cc))
       end.

Definition cacheClose (cc : ClientCache) : ClientCache :=
  if closed cc then cc else mkCache ∅ true.

(** ** The load monitor *)

(** The weight that a tick sets, from the two comparisons of the occupancy, [>= 0.90] and
    [>= 0.80]; [None] when it has not changed. *)
Definition monitorTick (ge90 ge80 : bool) (weight : Z) : Z * option Z :=
  let newWeight := if ge90 then 16 else if ge80 then 64 else 128 in
  if negb (newWeight =? weight) then (newWeight, Some newWeight) else (weight, None).

(** ** The network *)

(** What becomes of a call that changes state: it may be answered, not arrive, or be carried
    out without the caller learning so. *)
Inductive fate := Answered | Refused (e : goerr) | LostReply (e : goerr).

(** [rtt]: the time that a read of the address spends on the way, in nanoseconds. *)
Record network := mkNet {
  dial : string -> result unit;
  serves : string -> option string;
  push : string -> fate;
  pull : string -> option goerr;
  rtt : string -> Z
}.

(** The time-out of the clients that the cache makes: one second. *)
Definition clientTimeout : Z := 1000000000.

Definition deadlineExceeded : goerr := ErrMsg "context deadline exceeded".

Section Node.
Context `{HX : XXHash} `{HR : Radix} {W C E M : Type} `{HW : Waler W} `{HC : Clocker C} `{HE : Evictor E}
  `{HM : Mesh.Mesher M}.

(** ** State *)

Record Node := mkNode {
  core : engine W C E;
  mesh : M;
  meshConfig : Mesh.Config;
  sw_set : bool;
  cc : ClientCache;
  gossipInterval : Z
}.

Abbreviation cluster := (gmap string Node).

Definition with_core (n : Node) (e : engine W C E) : Node :=
  mkNode e (mesh n) (meshConfig n) (sw_set n) (cc n) (gossipInterval n).
Definition with_cc (n : Node) (c : ClientCache) : Node :=
  mkNode (core n) (mesh n) (meshConfig n) (sw_set n) c (gossipInterval n).

(** The gateway's part of a node: its connections and whether it has a local writer, which it
    gets after it was made. *)
Definition NewGateway (e : engine W C E) (m : M) (config : Mesh.Config) (ival : Z) : Node :=
  mkNode e m config false NewClientCache ival.
Definition SetStateWriter (n : Node) : Node :=
  mkNode (core n) (mesh n) (meshConfig n) true (cc n) (gossipInterval n).
Definition gatewayClose (n : Node) : Node := with_cc n (cacheClose (cc n)).

(** [NewNode] over the mesh of the configuration; an error of [NewMesh] is returned. *)
Definition NewNode (e : engine W C E) (config : Mesh.Config) (ival : Z) (msh : result M) : result Node :=
  match msh with
  | Err err => Err err
  | Ok m => Ok (SetStateWriter (NewGateway e m config ival))
  end.

(** The syncer of a node shares its writer, map and mesh; a single node has none. *)
Definition syncer (n : Node) : option (Entropy.Syncer W C M) :=
  if Mesh.SingleNode (meshConfig n) then None
  else Some (Entropy.mkSyncer (sw (core n)) (mesh n) (meshConfig n) (Mesh.NodeID (meshConfig n)) (gossipInterval n)).

Definition SyncPull (n : Node) (cfg : Entropy.PullConfig) (ps : gmap Z Z) (pb : gmap Z (list Z)) (order : list Z)
    : option Entropy.batch :=
  match syncer n with None => Some ([], []) | Some s => Entropy.Pull s cfg ps pb order end.

Definition SyncPush (n : Node) (sets : list SetRequest) (deletes : list DeleteRequest) : option (result unit * Node) :=
  match syncer n with
  | None => Some (Ok tt, n)
  | Some s =>
      match Entropy.Push s sets deletes with
      | None => None
      | Some (r, s') => Some (r, with_core n (with_sw (core n) (Entropy.writer s')))
      end
  end.

Definition Owner (n : Node) (key : string) : option string :=
  if Mesh.SingleNode (meshConfig n) then Some (Mesh.NodeID (meshConfig n)) else Mesh.mesh_Owner (mesh n) key.

Definition NodeID (n : Node) : string := Mesh.NodeID (meshConfig n).

(** [None] is the panic on an empty bind address. *)
Definition Addr (n : Node) : option string :=
  let addr := Mesh.BindAddr (meshConfig n) in
  if bool_decide (addr = EmptyString) then None else Some (Mesh.hostPort addr (Mesh.GrpcPort (meshConfig n))).

(** [actual]: the port memberlist bound, zero when it is not running. *)
Definition GossipAddr (n : Node) (actual : Z) : option string :=
  let addr := Mesh.BindAddr (meshConfig n) in
  if bool_decide (addr = EmptyString) then None
  else Some (Mesh.hostPort addr (if 0 <? actual then actual else Mesh.BindPort (meshConfig n))).

(** ** Gossip *)

(** [OnGossip]: a packet that cannot be decoded, and an error of the writer, are logged. *)
Definition OnGossip `{Proto} (n : Node) (data : bytes) : option Node :=
  match Unmarshal data with
  | None => Some n
  | Some entry =>
      match Entry entry with
      | None => Some n
      | Some op =>
          match ApplyOp (sw (core n)) op with
          | None => None
          | Some (_, s) => Some (with_core n (with_sw (core n) s))
          end
      end
  end.

(** ** The gateway: reads *)

Definition getReplicationFactor (n : Node) : Z :=
  let rf := Mesh.ReplicationFactor (meshConfig n) in if rf <=? 0 then 1 else rf.

Section Reads.
Context (net : network).

(** The client for a peer: its address and the connection. *)
Definition connect (cl : cluster) (self owner : string) (notFound : string) : option (result string * cluster) :=
  n ← cl !! self;
  let addr := Mesh.mesh_AddressForNode (mesh n) owner in
  if bool_decide (addr = EmptyString) then Some (Err (ErrMsg notFound), cl)
  else
    let '(r, c) := cacheGet (dial net) (cc n) addr in
    let cl := <[self := with_cc n c]> cl in
    Some (match r with Err e => Err e | Ok _ => Ok addr end, cl).

(** What has become of a call that was given some time: [None] if it has not returned at the
    end of it, and otherwise the time left and the result. *)
Abbreviation timed A := (option (Z * A)).

(** [rget]: a read as the peer carries it out, given so much time. *)
Context (rget : Z -> cluster -> string -> string -> option (timed (option slice) * cluster)).

(** [Client.Get] within the time [budget]: the caller waits for the client's time-out. *)
Definition clientGet (budget : Z) (cl : cluster) (addr key : string)
    : option (timed (result (option slice)) * cluster) :=
  let deadline := Z.min budget clientTimeout in
  let late := if clientTimeout <=? budget then Some (budget - clientTimeout, Err deadlineExceeded) else None in
  if deadline <=? rtt net addr then Some (late, cl)
  else
    match pull net addr with
    | Some e => Some (Some (budget - rtt net addr, Err e), cl)
    | None =>
        match serves net addr with
        | None => Some (Some (budget - rtt net addr, Err (ErrMsg "unavailable")), cl)
        | Some peer =>
            match rget (deadline - rtt net addr) cl peer key with
            | None => None
            | Some (None, cl) => Some (late, cl)
            | Some (Some (rem, v), cl) => Some (Some (budget - deadline + rem, Ok (norm_slice <$> v)), cl)
            end
        end
    end.

Definition proxyGetRemote (budget : Z) (cl : cluster) (self owner key : string)
    : option (timed (result (option slice)) * cluster) :=
  match connect cl self owner ("address not found for node " +:+ owner) with
  | None => None
  | Some (Err e, cl) => Some (Some (budget, Err e), cl)
  | Some (Ok addr, cl) => clientGet budget cl addr key
  end.

(** The loop over the owners, which [Get] and [exists] share. *)
Fixpoint proxyLoop (budget : Z) (cl : cluster) (self key : string) (owners : list string)
    : option (timed (option slice) * cluster) :=
  match owners with
  | [] => Some (Some (budget, None), cl)
  | owner :: owners' =>
      n ← cl !! self;
      if bool_decide (owner = NodeID n) then proxyLoop budget cl self key owners'
      else
        match proxyGetRemote budget cl self owner key with
        | None => None
        | Some (None, cl) => Some (None, cl)
        | Some (Some (rem, Ok (Some v)), cl) => Some (Some (rem, Some v), cl)
        | Some (Some (rem, _), cl) => proxyLoop rem cl self key owners'
        end
  end.

Definition gwGet (budget : Z) (cl : cluster) (self key : string) : option (timed (option slice) * cluster) :=
  n ← cl !! self;
  owners ← Mesh.mesh_GetOwners (mesh n) key (getReplicationFactor n);
  proxyLoop budget cl self key owners.

Definition isOwner (n : Node) (key : string) : option bool :=
  let rf := Mesh.ReplicationFactor (meshConfig n) in
  let rf := if rf <=? 0 then 1 else rf in
  owners ← Mesh.mesh_GetOwners (mesh n) key rf;
  Some (bool_decide (NodeID n ∈ owners)).

(** [Node.Get]. *)
Definition nodeGetStep (budget : Z) (cl : cluster) (self key : string) : option (timed (option slice) * cluster) :=
  let hash := HashFunc key in
  n ← cl !! self;
  if Mesh.SingleNode (meshConfig n) then
    match LoadData (hm (core n)) key hash with
    | Some data =>
        Some (Some (budget, Some data), <[self := with_core n (with_evt (core n) (evt_Publish key hash))]> cl)
    | None => Some (Some (budget, None), cl)
    end
  else
    match isOwner n key with
    | None => None
    | Some false => gwGet budget cl self key
    | Some true =>
        match Load (hm (core n)) key hash with
        | Some iv =>
            if negb (Tombstone iv)
            then Some (Some (budget, Some (Data iv)), <[self := with_core n (with_evt (core n) (evt_Publish key hash))]> cl)
            else Some (Some (budget, None), cl)
        | None => gwGet budget cl self key
        end
    end.

(** [Gateway.exists]: the local replica first, then the others. *)
Definition gwExists (budget : Z) (cl : cluster) (self key : string) (owners : list string)
    : option (timed bool * cluster) :=
  n ← cl !! self;
  if bool_decide (NodeID n ∈ owners) && sw_set n && Exists (sw (core n)) key then Some (Some (budget, true), cl)
  else
    match proxyLoop budget cl self key owners with
    | None => None
    | Some (t, cl) => Some (prod_map id (fun v => bool_decide (is_Some v)) <$> t, cl)
    end.

End Reads.

(** Reads that travel at most [hops] times, run for the time [budget]. *)
Fixpoint nodeGet (net : network) (hops : nat) (budget : Z) (cl : cluster) (self key : string)
    : option (option (Z * option slice) * cluster) :=
  match hops with
  | O => None
  | S hops => nodeGetStep net (nodeGet net hops) budget cl self key
  end.

(** ** The gateway: writes *)

Section Writes.
Context (net : network).

Definition writerUnset : goerr := ErrMsg "local state writer not registered yet".

Definition applySetLocal (cl : cluster) (self : string) (req : SetRequest) : option (result unit * cluster) :=
  n ← cl !! self;
  if negb (sw_set n) then Some (Err writerUnset, cl)
  else
    match ApplySet (sw (core n)) req with
    | None => None
    | Some (r, s) => Some (r, <[self := with_core n (with_sw (core n) s)]> cl)
    end.

Definition applyDeleteLocal (cl : cluster) (self : string) (req : DeleteRequest) : option (result unit * cluster) :=
  n ← cl !! self;
  if negb (sw_set n) then Some (Err writerUnset, cl)
  else
    match ApplyDelete (sw (core n)) req with
    | None => None
    | Some (r, s) => Some (r, <[self := with_core n (with_sw (core n) s)]> cl)
    end.

Definition applyLocal (cl : cluster) (self : string) (op : walOp) : option (result unit * cluster) :=
  match op with
  | WalEntry_Set req => applySetLocal cl self req
  | WalEntry_Delete req => applyDeleteLocal cl self req
  end.

(** The Push handler at a peer; the message carries one request. *)
Definition receive (cl : cluster) (peer : string) (op : walOp) : option (result unit * cluster) :=
  match cl !! peer with
  | None => Some (Err (ErrMsg "unavailable"), cl)
  | Some n =>
      match SyncPush n (match op with WalEntry_Set r => [r] | _ => [] end)
                       (match op with WalEntry_Delete r => [r] | _ => [] end) with
      | None => None
      | Some (r, n) => Some (r, <[peer := n]> cl)
      end
  end.

(** A push of one request to a replica. *)
Definition pushRemote (cl : cluster) (self owner : string) (op : walOp) : option (result unit * cluster) :=
  match connect net cl self owner ("remote replica " +:+ owner +:+ " address not found") with
  | None => None
  | Some (Err e, cl) => Some (Err e, cl)
  | Some (Ok addr, cl) =>
      match push net addr with
      | Refused e => Some (Err e, cl)
      | f =>
          match serves net addr with
          | None => Some (Err (ErrMsg "unavailable"), cl)
          | Some peer =>
              match receive cl peer (norm_op op) with
              | None => None
              | Some (r, cl) => Some (match f with LostReply e => Err e | _ => r end, cl)
              end
          end
      end
  end.

Definition applySetRemote (cl : cluster) (self owner : string) (req : SetRequest) : option (result unit * cluster) :=
  pushRemote cl self owner (WalEntry_Set req).

Definition applyDeleteRemote (cl : cluster) (self owner : string) (req : DeleteRequest) : option (result unit * cluster) :=
  pushRemote cl self owner (WalEntry_Delete req).

Definition applyRemote (cl : cluster) (self owner : string) (op : walOp) : option (result unit * cluster) :=
  match op with
  | WalEntry_Set req => applySetRemote cl self owner req
  | WalEntry_Delete req => applyDeleteRemote cl self owner req
  end.

(** One replica's write, as each goroutine runs it. *)
Definition applyReplica (cl : cluster) (self owner : string) (op : walOp) : option (result unit * cluster) :=
  n ← cl !! self;
  if bool_decide (owner = NodeID n) then applyLocal cl self op else applyRemote cl self owner op.

(** All replicas, in the order in which the goroutines finish; the errors in the channel. *)
Fixpoint applyReplicas (cl : cluster) (self : string) (order : list string) (op : walOp)
    : option (list goerr * cluster) :=
  match order with
  | [] => Some ([], cl)
  | owner :: order' =>
      match applyReplica cl self owner op with
      | None => None
      | Some (r, cl) =>
          match applyReplicas cl self order' op with
          | None => None
          | Some (errs, cl) => Some (match r with Err e => e :: errs | Ok _ => errs end, cl)
          end
      end
  end.

(** The verdict on a replicated write. *)
Definition verdict (mode : string) (owners : nat) (errs : list goerr) (what : string) : result unit :=
  if bool_decide (mode = Mesh.Lenient) then
    match errs with
    | e :: _ => if (length errs =? owners)%nat then Err (ErrWrap (what +:+ " failed on all replicas") e) else Ok tt
    | [] => Ok tt
    end
  else if bool_decide (mode = Mesh.Strict) then
    match errs with e :: _ => Err (ErrWrap (what +:+ " failed on replicas") e) | [] => Ok tt end
  else Err (ErrMsg ("unknown meshConfig.ReplicationFailureMode: " +:+ mode)).

(** The common part of [Set] and [Delete] once the owners are known. *)
Definition replicate_ (cl : cluster) (self : string) (mode : string) (owners order : list string) (op : walOp)
    (what : string) : option (result unit * cluster) :=
  match owners with
  | [owner] => applyReplica cl self owner op
  | _ =>
      match applyReplicas cl self order op with
      | None => None
      | Some (errs, cl) => Some (verdict mode (length owners) errs what, cl)
      end
  end.

Definition gwSet (cl : cluster) (self key : string) (value : slice) (ts : Z) (order : list string)
    : option (result unit * cluster) :=
  n ← cl !! self;
  owners ← Mesh.mesh_GetOwners (mesh n) key (getReplicationFactor n);
  match owners with
  | [] => Some (Err (ErrMsg ("no replica owners found for key: " +:+ key)), cl)
  | _ => replicate_ cl self (Mesh.ReplicationFailureMode (meshConfig n)) owners order
           (WalEntry_Set (mkSet key value ts (NodeID n))) "direct write replication"
  end.

(** [rget]: how the peers answer the probes for the key; [None] in the answer: the probes have
    not ended within the time [budget]. *)
Definition gwDelete (rget : Z -> cluster -> string -> string -> option (option (Z * option slice) * cluster))
    (budget : Z) (cl : cluster) (self key : string) (ts : Z) (order : list string)
    : option (option (bool * result unit) * cluster) :=
  n ← cl !! self;
  owners ← Mesh.mesh_GetOwners (mesh n) key (getReplicationFactor n);
  match owners with
  | [] => Some (Some (false, Err (ErrMsg ("no replica owners found for key: " +:+ key))), cl)
  | _ =>
      match gwExists net rget budget cl self key owners with
      | None => None
      | Some (None, cl) => Some (None, cl)
      | Some (Some (_, existed), cl) =>
          match replicate_ cl self (Mesh.ReplicationFailureMode (meshConfig n)) owners order
                  (WalEntry_Delete (mkDelete key ts (NodeID n))) "direct delete replication" with
          | None => None
          | Some (r, cl) =>
              Some (Some (match owners with [_] => existed | _ => existed && is_ok r end, r), cl)
          end
      end
  end.

(** ** Node.Set and Node.Delete *)

Definition nodeSet (cl : cluster) (self key : string) (value : slice) (order : list string)
    : option (result unit * cluster) :=
  n ← cl !! self;
  if Mesh.SingleNode (meshConfig n) then
    match Set_ (core n) key value with
    | None => None
    | Some (r, e) => Some (r, <[self := with_core n e]> cl)
    end
  else
    match clk_Now (clock (core n)) with
    | None => None
    | Some (ts, c) => gwSet (<[self := with_core n (with_clock (core n) c)]> cl) self key value ts order
    end.

Definition nodeDelete (hops : nat) (budget : Z) (cl : cluster) (self key : string) (order : list string)
    : option (option (bool * result unit) * cluster) :=
  n ← cl !! self;
  if Mesh.SingleNode (meshConfig n) then
    match Delete (core n) key with
    | None => None
    | Some (b, r, e) => Some (Some (b, r), <[self := with_core n e]> cl)
    end
  else
    match clk_Now (clock (core n)) with
    | None => None
    | Some (ts, c) =>
        gwDelete (nodeGet net hops) budget (<[self := with_core n (with_clock (core n) c)]> cl) self key ts order
    end.

End Writes.
End Node.

Arguments Node {_} W C E M.
End Cluster.
