(* ===== verification/ClusterTheory.v ===== *)
(** * What a cluster guarantees

    What a replicated write leaves on the owners of its key under each failure mode, that a
    strictly replicated write is visible through every node, and that reads end by their
    time-outs, which a read of a missing key has to wait for. *)

From S2P Require Import Prelude Kv ShardedMap MapTheory Wal WalTheory Iface Writer Evict Engine Mesh Entropy EntropyTheory Cluster.
Import ShardedMap Writer Engine Cluster.

#[local] Open Scope Z_scope.

Section Theory.
Context `{HX : XXHash} `{HR : Radix} `{!XXHashLaws} `{!RadixLaws}.
Context {W C E M : Type} `{HW : Waler W} `{HC : Clocker C} `{HE : Evictor E} `{HM : Mesh.Mesher M}.
Implicit Types (n : Node W C E M) (cl : gmap string (Node W C E M)) (net : network).

(** ** What the nodes hold *)

(** The record of a node for a key, with nil for an empty value. *)
Definition held cl (id key : string) : option Value :=
  n ← cl !! id; norm_value <$> sm_get (hm (core n)) key.

(** Every node is well formed, clustered and filed under its own identifier. *)
Definition cl_ok cl : Prop :=
  map_Forall (fun id n => sm_ok (hm (core n)) /\ NodeID n = id /\ Mesh.SingleNode (meshConfig n) = false) cl.

(** What routing depends on. *)
Definition routes n : M * Mesh.Config * bool := (mesh n, meshConfig n, sw_set n).

(** An address leads to the node it is advertised for, if anywhere. *)
Definition routed net cl : Prop :=
  forall q n o p, cl !! q = Some n -> serves net (Mesh.mesh_AddressForNode (mesh n) o) = Some p -> p = o.

(** The record that a request asks the replicas to hold. *)
Definition wanted (op : walOp) : Value := norm_value (stamp (op_key op) (op_value op)).

(** A node holds the record or one that beats it. *)
Definition covered cl (op : walOp) (id : string) : Prop :=
  exists e, held cl id (op_key op) = Some e /\ lwwWins e (wanted op) = false.

(** What a step of a write may change. *)
Record evolved (op : walOp) cl cl' : Prop := {
  ev_ok : cl_ok cl';
  ev_routes : routes <$> cl' = routes <$> cl;
  ev_held : forall id k, held cl' id k = held cl id k \/
    k = op_key op /\ held cl' id k = Some (lww_join (held cl id k) (wanted op))
}.

Lemma lww_join_again o v : lww_join (Some (lww_join o v)) v = lww_join o v.
Proof.
  destruct o as [e|]; unfold lww_join; [|by rewrite lwwWins_irrefl].
  destruct (lwwWins e v) eqn:Ew; [by rewrite lwwWins_irrefl|by rewrite Ew].
Qed.

Lemma evolved_refl op cl : cl_ok cl -> evolved op cl cl.
Proof. intros Hok. constructor; [done..|]. by left. Qed.

Lemma evolved_trans op cl1 cl2 cl3 : evolved op cl1 cl2 -> evolved op cl2 cl3 -> evolved op cl1 cl3.
Proof.
  intros [_ Hr1 H1] [Hok Hr2 H2]. constructor; [done|by rewrite Hr2|]. intros id k.
  destruct (H2 id k) as [->|[-> ->]]; [apply H1|]. right. split; [done|].
  destruct (H1 id (op_key op)) as [->|[_ ->]]; [done|]. by rewrite lww_join_again.
Qed.

Lemma covered_evolved op cl cl' id : evolved op cl cl' -> covered cl op id -> covered cl' op id.
Proof.
  intros Hev (e & He & Hw). unfold covered. destruct (ev_held _ _ _ Hev id (op_key op)) as [->|[_ ->]]; [by exists e|].
  rewrite He. exists e. split; [|done]. unfold lww_join. by rewrite Hw.
Qed.

Lemma covered_join cl op id o : held cl id (op_key op) = Some (lww_join o (wanted op)) -> covered cl op id.
Proof.
  intros Hh. exists (lww_join o (wanted op)). split; [done|]. unfold lww_join.
  destruct o as [e|]; [|apply lwwWins_irrefl]. destruct (lwwWins e (wanted op)) eqn:Ew; [apply lwwWins_irrefl|done].
Qed.

(** Updates of one node. *)
Lemma held_insert cl id n j k :
  held (<[id := n]> cl) j k = if decide (id = j) then norm_value <$> sm_get (hm (core n)) k else held cl j k.
Proof. unfold held. rewrite lookup_insert. by case_decide. Qed.

Lemma routes_insert cl id n n' : cl !! id = Some n -> routes n' = routes n -> routes <$> <[id := n']> cl = routes <$> cl.
Proof.
  intros Hn Hr. rewrite fmap_insert, Hr, <- fmap_insert. f_equal. by apply insert_id.
Qed.

Lemma cl_ok_insert cl id n n' :
  cl_ok cl -> cl !! id = Some n -> meshConfig n' = meshConfig n -> sm_ok (hm (core n')) -> cl_ok (<[id := n']> cl).
Proof.
  intros Hok Hn Hc Hsm. apply map_Forall_insert_2; [|done]. destruct (Hok id n Hn) as (_ & Hid & Hs).
  unfold NodeID in *. by rewrite Hc.
Qed.

Lemma norm_wanted op : wanted (norm_op op) = wanted op.
Proof.
  destruct op as [r|r]; [|done]. unfold wanted, stamp, norm_value. cbn. f_equal.
  - by destruct (set_Value r) as [[]|].
  - unfold getItemHash. cbn. by destruct (set_Value r) as [[]|].
Qed.

Lemma norm_join o v : norm_value (lww_join o v) = lww_join (norm_value <$> o) (norm_value v).
Proof.
  destruct o as [e|]; [|done]. cbn. change (lwwWins (norm_value e) (norm_value v)) with (lwwWins e v).
  by destruct (lwwWins e v).
Qed.

(** A request applied at a node. *)
Lemma applied_evolved cl id n op r s :
  cl_ok cl -> cl !! id = Some n -> ApplyOp (sw (core n)) op = Some (r, s) ->
  let cl' := <[id := with_core n (with_sw (core n) s)]> cl in
  evolved op cl cl' /\ covered cl' op id.
Proof.
  intros Hok Hn Ha cl'. destruct (Hok id n Hn) as (Hsm & _ & _).
  destruct (sm_ok_represents _ Hsm) as [m Hm].
  pose proof (ApplyOp_spec _ _ _ _ _ Hm Ha) as Hm'.
  assert (forall k, sm_get (sw_hm s) k = if decide (op_key op = k)
    then Some (lww_join (sm_get (hm (core n)) k) (stamp k (op_value op))) else sm_get (hm (core n)) k) as Hget.
  { intros k. rewrite (proj2 Hm'). unfold spec_StoreLWW, hm. rewrite lookup_insert.
    rewrite !(proj2 Hm). case_decide; [by subst|done]. }
  assert (forall k, held cl' id k = if decide (op_key op = k) then Some (lww_join (held cl id k) (wanted op)) else held cl id k)
    as Hheld.
  { intros k. unfold cl'. rewrite held_insert, decide_True by done. unfold held. rewrite Hn. cbn.
    change (hm (with_sw (core n) s)) with (sw_hm s). rewrite Hget. case_decide as Hk; [|done]. subst k.
    cbn. by rewrite norm_join. }
  split; [|eapply covered_join; by rewrite Hheld, decide_True].
  constructor.
  - eapply cl_ok_insert; [done..|]. exact (proj1 Hm').
  - by eapply routes_insert.
  - intros j k. destruct (decide (id = j)) as [<-|Hne].
    + rewrite Hheld. case_decide; [right; by subst|by left].
    + left. unfold cl'. by rewrite held_insert, decide_False.
Qed.

(** A gossip packet merges the record it carries, whatever the log reports, and a packet that
    cannot be decoded or is empty does nothing. *)
Theorem gossip_merges `{Proto} n m data n' :
  represents (hm (core n)) m -> OnGossip n data = Some n' ->
  represents (hm (core n')) (match Unmarshal data ≫= Entry with
                             | Some op => spec_StoreLWW m (op_key op) (op_value op)
                             | None => m
                             end).
Proof.
  intros Hm. unfold OnGossip. destruct (Unmarshal data) as [entry|]; cbn; [|by intros [= <-]].
  destruct (Entry entry) as [op|]; [|by intros [= <-]].
  destruct (ApplyOp (sw (core n)) op) as [[r s]|] eqn:Ea; [|done]. intros [= <-].
  by eapply ApplyOp_spec.
Qed.

(** ** One replica *)

Lemma connect_evolved net cl self owner msg op r cl' :
  cl_ok cl -> connect net cl self owner msg = Some (r, cl') ->
  evolved op cl cl' /\ exists n, cl !! self = Some n /\
    forall addr, r = Ok addr -> addr = Mesh.mesh_AddressForNode (mesh n) owner.
Proof.
  intros Hok. unfold connect. destruct (cl !! self) as [n|] eqn:En; [|done]. ored.
  case_bool_decide as Ha; [intros [= <- <-]; split; [by apply evolved_refl|by exists n]|].
  destruct (cacheGet _ _ _) as [r1 c]. intros [= <- <-]. split; [|exists n; split; [done|]; by destruct r1; intros ? [= <-]].
  destruct (Hok self n En) as (Hsm & _ & _). constructor.
  - by eapply cl_ok_insert.
  - by eapply routes_insert.
  - intros id k. left. rewrite held_insert. case_decide as Hid; [|done]. subst id. unfold held. by rewrite En.
Qed.

Lemma receive_evolved cl peer op r cl' :
  cl_ok cl -> receive cl peer op = Some (r, cl') -> evolved op cl cl' /\ (r = Ok tt -> covered cl' op peer).
Proof.
  intros Hok. unfold receive. destruct (cl !! peer) as [n|] eqn:En; [|intros [= <- <-]; split; [by apply evolved_refl|done]].
  unfold SyncPush, syncer. destruct (Hok peer n En) as (_ & _ & ->). unfold Entropy.Push.
  destruct op as [q|q]; cbn.
  - destruct (ApplySet (sw (core n)) q) as [[r1 s]|] eqn:Ea; [|done].
    destruct (applied_evolved cl peer n (WalEntry_Set q) r1 s Hok En Ea) as [Hev Hcov].
    destruct r1 as [[]|e]; cbn; by intros [= <- <-].
  - destruct (ApplyDelete (sw (core n)) q) as [[r1 s]|] eqn:Ea; [|done].
    destruct (applied_evolved cl peer n (WalEntry_Delete q) r1 s Hok En Ea) as [Hev Hcov].
    destruct r1 as [[]|e]; cbn; by intros [= <- <-].
Qed.

Lemma evolved_norm op cl cl' : evolved (norm_op op) cl cl' -> evolved op cl cl'.
Proof. intros [H1 H2 H3]. constructor; [done..|]. intros id k. rewrite <- (norm_wanted op). destruct op; exact (H3 id k). Qed.

Lemma covered_norm op cl id : covered cl (norm_op op) id -> covered cl op id.
Proof. intros (e & He & Hw). exists e. rewrite norm_wanted in Hw. by destruct op. Qed.

Lemma applyLocal_op cl self op :
  applyLocal cl self op =
    (n ← cl !! self;
     if negb (sw_set n) then Some (Err writerUnset, cl)
     else match ApplyOp (sw (core n)) op with
          | None => None
          | Some (r, s) => Some (r, <[self := with_core n (with_sw (core n) s)]> cl)
          end).
Proof. by destruct op. Qed.

Lemma applyRemote_push net cl self owner op : applyRemote net cl self owner op = pushRemote net cl self owner op.
Proof. by destruct op. Qed.

Lemma applyReplica_evolved net cl self owner op r cl' :
  cl_ok cl -> routed net cl -> applyReplica net cl self owner op = Some (r, cl') ->
  evolved op cl cl' /\ (r = Ok tt -> covered cl' op owner).
Proof.
  intros Hok Hrt. unfold applyReplica. destruct (cl !! self) as [n|] eqn:En; [|done]. ored.
  destruct (Hok self n En) as (_ & Hid & _). case_bool_decide as Ho.
  - assert (owner = self) as -> by congruence. rewrite applyLocal_op, En. ored.
    destruct (negb (sw_set n)); [intros [= <- <-]; split; [by apply evolved_refl|done]|].
    destruct (ApplyOp (sw (core n)) op) as [[r1 s]|] eqn:Ea; [|done]. intros [= <- <-].
    by destruct (applied_evolved cl self n op r1 s Hok En Ea).
  - rewrite applyRemote_push. unfold pushRemote. destruct (connect _ _ _ _ _) as [[[addr|e] cl1]|] eqn:Ec; [|by intros [= <- <-]; apply (connect_evolved _ _ _ _ _ op) in Ec as [? _]|done].
    apply (connect_evolved _ _ _ _ _ op) in Ec as [Hev (n' & Hn' & Haddr)]; [|done].
    rewrite En in Hn'. injection Hn' as <-. specialize (Haddr addr eq_refl).
    assert (forall e, Some (Err e, cl1) = Some (r, cl') -> evolved op cl cl' /\ (r = Ok tt -> covered cl' op owner)) as Hfail
      by by intros e [= <- <-].
    assert (forall f, match serves net addr with
      | None => Some (Err (ErrMsg "unavailable"), cl1)
      | Some peer => match receive cl1 peer (norm_op op) with None => None
          | Some (r, cl) => Some (match f with LostReply e => Err e | _ => r end, cl) end
      end = Some (r, cl') -> evolved op cl cl' /\ (r = Ok tt -> covered cl' op owner)) as Hsend.
    { intros f. destruct (serves net addr) as [peer|] eqn:Es; [|apply Hfail].
      rewrite Haddr in Es. apply (Hrt self n owner peer En) in Es as ->.
      destruct (receive cl1 owner (norm_op op)) as [[r1 cl2]|] eqn:Er; [|done]. intros [= <- <-].
      destruct (receive_evolved _ _ _ _ _ (ev_ok _ _ _ Hev) Er) as [Hev2 Hcov].
      split; [eapply evolved_trans; [exact Hev|by apply evolved_norm]|].
      intros Hr. apply covered_norm, Hcov. by destruct f. }
    destruct (push net addr) as [|e|e]; [exact (Hsend Answered)|apply Hfail|exact (Hsend (LostReply e))].
Qed.

Lemma routed_routes net cl cl' : routes <$> cl' = routes <$> cl -> routed net cl -> routed net cl'.
Proof.
  intros Hr Hrt q n o p Hn. assert ((routes <$> cl') !! q = Some (routes n)) as Hq by by rewrite lookup_fmap, Hn.
  rewrite Hr, lookup_fmap in Hq. apply fmap_Some in Hq as (n0 & Hn0 & Heq). unfold routes in Heq.
  injection Heq as Hm _ _. rewrite Hm. by apply (Hrt q n0).
Qed.

(** ** Which replicas fail *)

(** What the write to one owner reports, told from the state before any of the replicas is
    written: the local writer's answer, the lack of an address or a connection, what becomes of
    the call, or the answer of the owner's writer. *)
Definition replica_result net cl (self : string) (op : walOp) (o : string) : option (result unit) :=
  n ← cl !! self;
  if bool_decide (o = NodeID n) then
    if sw_set n then fst <$> ApplyOp (sw (core n)) op else Some (Err writerUnset)
  else
    let addr := Mesh.mesh_AddressForNode (mesh n) o in
    if bool_decide (addr = EmptyString) then Some (Err (ErrMsg ("remote replica " +:+ o +:+ " address not found")))
    else
      match fst (cacheGet (dial net) (cc n) addr), push net addr, serves net addr, cl !! o with
      | Err e, _, _, _ => Some (Err e)
      | _, Refused e, _, _ => Some (Err e)
      | _, _, None, _ => Some (Err (ErrMsg "unavailable"))
      | _, Answered, _, None => Some (Err (ErrMsg "unavailable"))
      | _, LostReply e, _, None => Some (Err e)
      | _, Answered, _, Some no => fst <$> ApplyOp (sw (core no)) (norm_op op)
      | _, LostReply e, _, Some no => (fun _ => Err e) <$> ApplyOp (sw (core no)) (norm_op op)
      end.

(** The error of an owner's replica, if it reports one. *)
Definition replica_error net cl (self : string) (op : walOp) (o : string) : option goerr :=
  match replica_result net cl self op o with Some (Err e) => Some e | _ => None end.

Lemma receive_result cl peer n op r cl' :
  cl_ok cl -> cl !! peer = Some n -> receive cl peer op = Some (r, cl') ->
  exists s, ApplyOp (sw (core n)) op = Some (r, s) /\ cl' = <[peer := with_core n (with_sw (core n) s)]> cl.
Proof.
  intros Hok Hn. unfold receive. rewrite Hn. unfold SyncPush, syncer. destruct (Hok peer n Hn) as (_ & _ & ->).
  unfold Entropy.Push. destruct op as [q|q]; cbn.
  - destruct (ApplySet (sw (core n)) q) as [[[[]|e] s]|]; cbn; [| |done]; intros [= <- <-]; by exists s.
  - destruct (ApplyDelete (sw (core n)) q) as [[[[]|e] s]|]; cbn; [| |done]; intros [= <- <-]; by exists s.
Qed.

(** What one replica's write leaves as it was for the others: everything but the writer of the
    owner, connections to addresses that can be dialled apart. *)
Record spares net (o : string) n n' : Prop := {
  sp_routes : routes n' = routes n;
  sp_writer : NodeID n <> o -> sw (core n') = sw (core n);
  sp_cache : forall a, fst (cacheGet (dial net) (cc n') a) = fst (cacheGet (dial net) (cc n) a)
}.

Definition spared net (o : string) cl cl' : Prop :=
  forall q, match cl !! q, cl' !! q with Some n, Some n' => spares net o n n' | None, None => True | _, _ => False end.

Lemma spared_insert net o cl q n n' : cl !! q = Some n -> spares net o n n' -> spared net o cl (<[q := n']> cl).
Proof.
  intros Hn Hs j. destruct (decide (q = j)) as [<-|Hne]; [by rewrite lookup_insert_eq, Hn|].
  rewrite lookup_insert_ne by done. by destruct (cl !! j).
Qed.

Lemma spared_trans net o cl1 cl2 cl3 : spared net o cl1 cl2 -> spared net o cl2 cl3 -> spared net o cl1 cl3.
Proof.
  intros H1 H2 q. specialize (H1 q). specialize (H2 q).
  destruct (cl1 !! q) as [n1|], (cl2 !! q) as [n2|], (cl3 !! q) as [n3|]; try done.
  destruct H1 as [R1 W1 C1], H2 as [R2 W2 C2].
  assert (NodeID n2 = NodeID n1) as Hid by (unfold routes in R1; injection R1; unfold NodeID; congruence).
  constructor; [congruence| |intros a; by rewrite C2]. intros Ho. rewrite W2, W1 by congruence. done.
Qed.

Lemma spared_refl net o cl : spared net o cl cl.
Proof. intros q. by destruct (cl !! q). Qed.

Lemma cacheGet_again net (c c' : ClientCache) addr r a :
  cacheGet (dial net) c addr = (r, c') -> fst (cacheGet (dial net) c' a) = fst (cacheGet (dial net) c a).
Proof.
  unfold cacheGet. destruct (closed c) eqn:Ec; [intros [= <- <-]; by rewrite Ec|].
  destruct (bool_decide (addr ∈ clients c)) eqn:Ha; [intros [= <- <-]; by rewrite Ec|].
  destruct (dial net addr) as [[]|e] eqn:Ed; intros [= <- <-]; [|by rewrite Ec]. cbn.
  destruct (decide (a = addr)) as [->|Hne]; [rewrite Ha, bool_decide_true by set_solver; by rewrite Ed|].
  rewrite (bool_decide_ext (a ∈ {[addr]} ∪ clients c) (a ∈ clients c)) by set_solver.
  destruct (bool_decide (a ∈ clients c)); [done|]. by destruct (dial net a).
Qed.

Lemma connect_spared net cl self owner msg r cl' :
  connect net cl self owner msg = Some (r, cl') ->
  exists n, cl !! self = Some n /\
    let addr := Mesh.mesh_AddressForNode (mesh n) owner in
    spared net owner cl cl' /\ (forall q, (fun m => sw (core m)) <$> cl' !! q = (fun m => sw (core m)) <$> cl !! q) /\
    r = if bool_decide (addr = EmptyString) then Err (ErrMsg msg)
        else match fst (cacheGet (dial net) (cc n) addr) with Err e => Err e | Ok _ => Ok addr end.
Proof.
  unfold connect. destruct (cl !! self) as [n|] eqn:En; [|done]. ored. intros Hcon. exists n. split; [done|]. cbv zeta. revert Hcon.
  case_bool_decide; [intros [= <- <-]; split; [apply spared_refl|done]|].
  destruct (cacheGet _ _ _) as [r1 c] eqn:Ec. intros [= <- <-]. split; [|split; [|done]].
  - eapply spared_insert; [done|]. constructor; [done..|]. intros a. by eapply cacheGet_again.
  - intros q. destruct (decide (self = q)) as [<-|]; [by rewrite lookup_insert_eq, En|by rewrite lookup_insert_ne].
Qed.

Lemma spares_apply net o n s : NodeID n = o -> spares net o n (with_core n (with_sw (core n) s)).
Proof. by constructor. Qed.

(** A replica reports what the state before foretells, and spares the other replicas. *)
Lemma applyReplica_result net cl self o op r cl' :
  cl_ok cl -> routed net cl -> applyReplica net cl self o op = Some (r, cl') ->
  replica_result net cl self op o = Some r /\ spared net o cl cl'.
Proof.
  intros Hok Hrt. unfold applyReplica, replica_result. destruct (cl !! self) as [n|] eqn:En; [|done]. ored.
  case_bool_decide as Ho.
  { subst o. rewrite applyLocal_op, En. ored. destruct (sw_set n); cbn [negb]; [|intros [= <- <-]; split; [done|apply spared_refl]].
    destruct (ApplyOp (sw (core n)) op) as [[r1 s]|]; [|done]. intros [= <- <-]. split; [done|].
    eapply spared_insert; [done|]. by apply spares_apply. }
  rewrite applyRemote_push. unfold pushRemote.
  destruct (connect _ _ _ _ _) as [[rc cl1]|] eqn:Ec; [|done].
  pose proof (connect_evolved _ _ _ _ _ op _ _ Hok Ec) as [Hev _].
  apply connect_spared in Ec as (n' & Hn' & Hsp & Hsw & Hrc). rewrite En in Hn'. injection Hn' as <-. cbv zeta in Hrc.
  subst rc. case_bool_decide; [intros [= <- <-]; by split|].
  destruct (fst (cacheGet _ _ _)) as [[]|e]; [|intros [= <- <-]; by split].
  set (addr := Mesh.mesh_AddressForNode (mesh n) o) in *.
  assert (forall f, match serves net addr with
      | None => Some (Err (ErrMsg "unavailable"), cl1)
      | Some peer => match receive cl1 peer (norm_op op) with None => None
          | Some (r, cl) => Some (match f with LostReply e => Err e | _ => r end, cl) end
      end = Some (r, cl') -> spared net o cl cl' /\
        match serves net addr with
        | None => r = Err (ErrMsg "unavailable")
        | Some _ => match cl !! o with
            | None => r = match f with LostReply e => Err e | _ => Err (ErrMsg "unavailable") end
            | Some no => exists r1 s, ApplyOp (sw (core no)) (norm_op op) = Some (r1, s) /\
                r = match f with LostReply e => Err e | _ => r1 end
            end
        end) as Hsend.
  { intros f. destruct (serves net addr) as [peer|] eqn:Es; [|intros [= <- <-]; by split].
    apply (Hrt self n o peer En) in Es as ->. specialize (Hsw o).
    destruct (cl1 !! o) as [no1|] eqn:Eo1; destruct (cl !! o) as [no|] eqn:Eo; cbn in Hsw; try done.
    - injection Hsw as Hsw. destruct (receive cl1 o (norm_op op)) as [[r1 cl2]|] eqn:Er; [|done]. intros [= <- <-].
      destruct (receive_result cl1 o no1 _ _ _ (ev_ok _ _ _ Hev) Eo1 Er) as (s & Ha & ->).
      split; [|exists r1, s; by rewrite <- Hsw]. eapply spared_trans; [exact Hsp|]. eapply spared_insert; [done|].
      apply spares_apply. by destruct (ev_ok _ _ _ Hev o no1 Eo1) as (_ & ? & _).
    - unfold receive. rewrite Eo1. intros [= <- <-]. split; [done|]. by destruct f. }
  destruct (push net addr) as [|e|e].
  - intros Hrun. destruct (Hsend Answered Hrun) as [Hs Hr]. split; [|done]. destruct (serves net addr); [|by subst].
    destruct (cl !! o); [|by subst]. destruct Hr as (r1 & w & -> & ->). done.
  - intros [= <- <-]. by split.
  - intros Hrun. destruct (Hsend (LostReply e) Hrun) as [Hs Hr]. split; [|done]. destruct (serves net addr); [|by subst].
    destruct (cl !! o); [|by subst]. destruct Hr as (r1 & w & -> & ->). done.
Qed.

Lemma replica_result_spared net cl cl' self op o o' :
  cl_ok cl -> spared net o cl cl' -> o' <> o -> replica_result net cl' self op o' = replica_result net cl self op o'.
Proof.
  intros Hok Hsp Hne. unfold replica_result. pose proof (Hsp self) as Hs.
  destruct (cl !! self) as [n|], (cl' !! self) as [n'|]; try done. destruct Hs as [R Wr Ca]. ored. assert (mesh n' = mesh n /\ meshConfig n' = meshConfig n /\ sw_set n' = sw_set n) as (Em & Ec & Es)
    by (unfold routes in R; injection R; auto). unfold NodeID in *. rewrite Em, Ec, Es.
  case_bool_decide as Ho. { destruct (sw_set n); [|done]. by rewrite Wr by congruence. }
  case_bool_decide; [done|]. rewrite Ca. destruct (fst _) as [[]|]; [|done].
  pose proof (Hsp o') as Hp. destruct (cl !! o') as [m|] eqn:F1, (cl' !! o') as [m'|]; try done. destruct Hp as [_ Wm _].
  destruct (Hok o' m F1) as (_ & Hid & _). rewrite Wm by (unfold NodeID in *; congruence). done.
Qed.

(** ** All replicas *)

(** The errors in the channel are those of the replicas that fail, and the others are written. *)
Lemma applyReplicas_evolved net cl self order op errs cl' :
  cl_ok cl -> routed net cl -> NoDup order -> applyReplicas net cl self order op = Some (errs, cl') ->
  evolved op cl cl' /\ errs = omap (replica_error net cl self op) order /\
  forall o, o ∈ order -> replica_error net cl self op o = None -> covered cl' op o.
Proof.
  revert cl errs. induction order as [|owner order IH]; intros cl errs Hok Hrt Hnd; cbn [applyReplicas].
  { intros [= <- <-]. split; [by apply evolved_refl|]. split; [done|]. intros o Ho. by apply elem_of_nil in Ho. }
  apply NoDup_cons in Hnd as [Hni Hnd].
  destruct (applyReplica net cl self owner op) as [[r cl1]|] eqn:Ea; [|done].
  destruct (applyReplicas net cl1 self order op) as [[errs1 cl2]|] eqn:Er; [|done]. intros [= <- <-].
  destruct (applyReplica_evolved _ _ _ _ _ _ _ Hok Hrt Ea) as [Hev Hcov].
  destruct (applyReplica_result _ _ _ _ _ _ _ Hok Hrt Ea) as [Hres Hsp].
  assert (forall o, o ∈ order -> replica_error net cl1 self op o = replica_error net cl self op o) as Hsame.
  { intros o Ho. unfold replica_error. by rewrite (replica_result_spared net cl cl1 self op owner o Hok Hsp) by (intros ->; done). }
  destruct (IH cl1 errs1 (ev_ok _ _ _ Hev) (routed_routes _ _ _ (ev_routes _ _ _ Hev) Hrt) Hnd Er) as (Hev2 & -> & Hall).
  split; [by eapply evolved_trans|]. split.
  - assert (omap (replica_error net cl1 self op) order = omap (replica_error net cl self op) order) as ->.
    { apply list_omap_ext. apply Forall_Forall2_diag, Forall_forall. exact Hsame. }
    cbn [omap list_omap]. assert (replica_error net cl self op owner = match r with Err e => Some e | Ok _ => None end) as ->
      by (unfold replica_error; by rewrite Hres). by destruct r.
  - intros o [->|Ho]%elem_of_cons He; [|apply Hall; [done|by rewrite Hsame]].
    eapply covered_evolved; [exact Hev2|]. apply Hcov. unfold replica_error in He. rewrite Hres in He. by destruct r as [[]|].
Qed.

Lemma verdict_spec mode owners errs what :
  (length errs <= owners)%nat -> (0 < owners)%nat ->
  (mode = Mesh.Strict -> (verdict mode owners errs what = Ok tt <-> errs = [])) /\
  (mode = Mesh.Lenient -> (verdict mode owners errs what = Ok tt <-> (length errs < owners)%nat)) /\
  (mode <> Mesh.Strict -> mode <> Mesh.Lenient -> verdict mode owners errs what <> Ok tt).
Proof.
  intros Hle Hpos. unfold verdict. split; [|split].
  - intros ->. rewrite (bool_decide_false (Mesh.Strict = Mesh.Lenient)), bool_decide_true by done. by destruct errs.
  - intros ->. rewrite bool_decide_true by done. destruct errs as [|e errs]; [done|].
    destruct (Nat.eqb_spec (length (e :: errs)) owners); split; (done || lia).
  - intros H1 H2. by rewrite !bool_decide_false.
Qed.

(** The clock reading of a write. *)
Lemma stamped_evolved cl self n c op :
  cl_ok cl -> cl !! self = Some n ->
  evolved op cl (<[self := with_core n (with_clock (core n) c)]> cl).
Proof.
  intros Hok Hn. destruct (Hok self n Hn) as (Hsm & _ & _). constructor.
  - by eapply cl_ok_insert.
  - by eapply routes_insert.
  - intros id k. left. rewrite held_insert. case_decide as Hid; [|done]. subst id. unfold held. by rewrite Hn.
Qed.

Lemma held_clock cl self n c id k :
  cl !! self = Some n -> held (<[self := with_core n (with_clock (core n) c)]> cl) id k = held cl id k.
Proof. intros Hn. rewrite held_insert. case_decide; [subst|done]. unfold held. by rewrite Hn. Qed.

Lemma nodeSet_replicates net cl self n key value owners order r cl' :
  cl_ok cl -> routed net cl -> cl !! self = Some n ->
  Mesh.mesh_GetOwners (mesh n) key (getReplicationFactor n) = Some owners -> owners <> [] ->
  nodeSet net cl self key value order = Some (r, cl') ->
  exists ts c, let op := WalEntry_Set (mkSet key value ts self) in
    let cl1 := <[self := with_core n (with_clock (core n) c)]> cl in
    clk_Now (clock (core n)) = Some (ts, c) /\ evolved op cl cl1 /\
    replicate_ net cl1 self (Mesh.ReplicationFailureMode (meshConfig n)) owners order op
      "direct write replication" = Some (r, cl').
Proof.
  intros Hok Hrt Hn Hown Hne. unfold nodeSet. rewrite Hn. ored. destruct (Hok self n Hn) as (_ & Hid & ->).
  destruct (clk_Now (clock (core n))) as [[ts c]|]; [|done].
  unfold gwSet. rewrite lookup_insert_eq. ored.
  change (getReplicationFactor (with_core n (with_clock (core n) c))) with (getReplicationFactor n).
  change (mesh (with_core n (with_clock (core n) c))) with (mesh n). rewrite Hown. ored.
  change (NodeID (with_core n (with_clock (core n) c))) with (NodeID n). rewrite Hid.
  destruct owners as [|o os]; [done|]. intros Hrun. exists ts, c. split; [done|]. split; [|exact Hrun].
  by apply stamped_evolved.
Qed.

(** The owners whose replica reports an error. *)
Definition failed_owners net cl (self : string) (op : walOp) (owners : list string) : list string :=
  filter (fun o => is_Some (replica_error net cl self op o)) owners.

(** The outcome of a write to several owners, begun in the state [cl]. *)
Definition outcome net (mode : string) (owners : list string) cl (self : string) (op : walOp) (r : result unit) cl' : Prop :=
  let failed := failed_owners net cl self op owners in
  (forall o, o ∈ owners -> o ∉ failed -> covered cl' op o) /\
  (forall id k, k <> op_key op -> held cl' id k = held cl id k) /\
  (mode = Mesh.Strict -> (r = Ok tt <-> failed = [])) /\
  (mode = Mesh.Lenient -> (r = Ok tt <-> failed <> owners)) /\
  (mode = Mesh.Strict \/ mode = Mesh.Lenient -> forall e, r = Err e ->
     exists what o e0, o ∈ failed /\ replica_error net cl self op o = Some e0 /\ e = ErrWrap what e0) /\
  (mode <> Mesh.Strict -> mode <> Mesh.Lenient -> r <> Ok tt).

Lemma length_omap_filter {A B} (f : A -> option B) l : length (omap f l) = length (filter (fun x => is_Some (f x)) l).
Proof.
  induction l as [|x l IH]; [done|]. cbn [omap list_omap]. rewrite filter_cons. destruct (f x) as [y|] eqn:Ef.
  - rewrite decide_True by eauto. cbn. by f_equal.
  - rewrite decide_False by (rewrite <- eq_None_not_Some; done). done.
Qed.

Lemma filter_full {A} (P : A -> Prop) `{forall x, Decision (P x)} l : length (filter P l) = length l -> filter P l = l.
Proof.
  induction l as [|x l IH]; [done|]. rewrite filter_cons. case_decide; cbn; [intros [= Hl]; f_equal; by apply IH|].
  intros Hl. pose proof (length_filter P l). lia.
Qed.

Lemma verdict_error mode owners errs what e :
  mode = Mesh.Strict \/ mode = Mesh.Lenient -> verdict mode owners errs what = Err e ->
  exists what e0, e0 ∈ errs /\ e = ErrWrap what e0.
Proof.
  unfold verdict. intros Hm. case_bool_decide.
  - destruct errs as [|e0 errs]; [done|]. destruct (_ =? _)%nat; [|done]. intros [= <-]. eexists _, e0. split; [left|done].
  - case_bool_decide; [|by destruct Hm]. destruct errs as [|e0 errs]; [done|]. intros [= <-]. eexists _, e0. split; [left|done].
Qed.

Lemma replicate_outcome net cl self mode owners order op what r cl' :
  cl_ok cl -> routed net cl -> NoDup owners -> (2 <= length owners)%nat -> order ≡ₚ owners ->
  replicate_ net cl self mode owners order op what = Some (r, cl') -> outcome net mode owners cl self op r cl'.
Proof.
  intros Hok Hrt Hnd Hlen Hord Hrun. unfold replicate_ in Hrun.
  assert (2 <= length owners)%nat as Hlen' by done. destruct owners as [|o1 [|o2 os]]; cbn in Hlen; [lia..|].
  set (owners := o1 :: o2 :: os) in *. change (S (S (length os))) with (length owners) in *.
  destruct (applyReplicas net cl self order op) as [[errs cl2]|] eqn:Ea; [|done]. injection Hrun as <- <-.
  change (S (S (length os))) with (length owners).
  apply applyReplicas_evolved in Ea as (Hev & -> & Hcov); [|done|done|by rewrite Hord].
  set (errs := omap _ order). assert (length errs = length (failed_owners net cl self op owners)) as Hlf.
  { unfold errs, failed_owners. rewrite length_omap_filter. by rewrite Hord. }
  assert (length errs <= length owners)%nat as Hle by (rewrite Hlf; apply length_filter).
  destruct (verdict_spec mode (length owners) errs what Hle ltac:(lia)) as (H1 & H2 & H3).
  split; [|split; [|split; [|split; [|split; [|done]]]]].
  - intros o Ho Hf. apply Hcov; [by rewrite Hord|]. destruct (replica_error net cl self op o) as [e|] eqn:Ee; [|done].
    destruct Hf. apply list_elem_of_filter. by rewrite Ee.
  - intros id k Hk. by destruct (ev_held _ _ _ Hev id k) as [?|[? _]].
  - intros Hm. rewrite (H1 Hm). split; intros Hnil; rewrite Hnil in Hlf.
    + by destruct (failed_owners net cl self op owners).
    + by destruct errs.
  - intros Hm. rewrite (H2 Hm), Hlf. split; [intros Hlt Hall; rewrite Hall in Hlt; lia|]. intros Hne.
    destruct (Nat.lt_ge_cases (length (failed_owners net cl self op owners)) (length owners)) as [|Hge]; [done|].
    destruct Hne. apply filter_full. pose proof (length_filter (fun o => is_Some (replica_error net cl self op o)) owners).
    unfold failed_owners in Hge. lia.
  - intros Hm e He. destruct (verdict_error _ _ _ _ _ Hm He) as (w & e0 & He0 & ->). exists w.
    apply list_elem_of_omap in He0 as (o & Ho & Heo). exists o, e0. split; [|done].
    apply list_elem_of_filter. split; [by rewrite Heo|by rewrite <- Hord].
Qed.

(** C8. Replicated writes.  The failed owners are those whose own replica's write reports an
    error ([replica_error]: no local writer, no address, no connection, a call refused, not
    served or without reply, or an error of the owner's writer), which does not depend on the
    order in which the replicas are written.  When a key has several owners, [Set] leaves on
    every owner that did not fail the new record or one that beats it by last-write-wins, and
    changes no other key on any node; with [Strict] it succeeds exactly when no owner failed,
    with [Lenient] exactly when not all failed, the error it reports wraps that of a failed
    owner, and with any other mode it reports an error whatever was written.  A replica whose
    reply is lost counts as failed although it may have written. *)
Theorem replicated_write net cl self n key value owners order r cl' :
  cl_ok cl -> routed net cl -> cl !! self = Some n ->
  Mesh.mesh_GetOwners (mesh n) key (getReplicationFactor n) = Some owners -> NoDup owners ->
  (2 <= length owners)%nat -> order ≡ₚ owners ->
  nodeSet net cl self key value order = Some (r, cl') ->
  exists ts c, clk_Now (clock (core n)) = Some (ts, c) /\
    (forall id k, held (<[self := with_core n (with_clock (core n) c)]> cl) id k = held cl id k) /\
    outcome net (Mesh.ReplicationFailureMode (meshConfig n)) owners
      (<[self := with_core n (with_clock (core n) c)]> cl) self (WalEntry_Set (mkSet key value ts self)) r cl'.
Proof.
  intros Hok Hrt Hn Hown Hnd Hlen Hord Hset.
  destruct (nodeSet_replicates net cl self n key value owners order r cl') as (ts & c & Hts & Hev1 & Hrun); [done..| |done|].
  { by destruct owners; cbn in *; [lia|]. }
  exists ts, c. split; [done|]. split; [intros id k; apply held_clock; done|].
  eapply replicate_outcome; [apply Hev1|exact (routed_routes _ _ _ (ev_routes _ _ _ Hev1) Hrt)|done..|exact Hrun].
Qed.

(** ** Reads *)

(** Node [n] can reach [o], in less than the time-out of its clients. *)
Definition reaches net n (o : string) : Prop :=
  let addr := Mesh.mesh_AddressForNode (mesh n) o in
  addr <> EmptyString /\ closed (cc n) = false /\ dial net addr = Ok tt /\ pull net addr = None /\
  serves net addr = Some o /\ rtt net addr < clientTimeout.

(** All nodes agree on the owners of a key. *)
Definition agreed cl (key : string) (owners : list string) : Prop :=
  map_Forall (fun _ n => Mesh.mesh_GetOwners (mesh n) key (getReplicationFactor n) = Some owners) cl.

Lemma isOwner_agreed cl key owners q n :
  cl_ok cl -> agreed cl key owners -> cl !! q = Some n -> isOwner n key = Some (bool_decide (q ∈ owners)).
Proof.
  intros Hok Hag Hn. unfold isOwner. change (if _ <=? 0 then 1 else _) with (getReplicationFactor n).
  rewrite (Hag q n Hn). ored. destruct (Hok q n Hn) as (_ & -> & _). done.
Qed.

(** A connection changes only the client cache of the caller. *)
Lemma connect_ok net cl q n o msg :
  cl !! q = Some n -> reaches net n o ->
  exists c, closed c = false /\
    connect net cl q o msg = Some (Ok (Mesh.mesh_AddressForNode (mesh n) o), <[q := with_cc n c]> cl).
Proof.
  intros Hn (Ha & Hc & Hd & _). unfold connect. rewrite Hn. ored. rewrite bool_decide_false by done.
  unfold cacheGet. rewrite Hc. case_bool_decide; [by exists (cc n)|]. rewrite Hd.
  by exists (mkCache ({[Mesh.mesh_AddressForNode (mesh n) o]} ∪ clients (cc n)) false).
Qed.

Lemma cl_ok_cc cl q n c : cl_ok cl -> cl !! q = Some n -> cl_ok (<[q := with_cc n c]> cl).
Proof. intros Hok Hn. destruct (Hok q n Hn) as (? & _ & _). by eapply cl_ok_insert. Qed.

Lemma agreed_cc cl q n c key owners : agreed cl key owners -> cl !! q = Some n -> agreed (<[q := with_cc n c]> cl) key owners.
Proof. intros Hag Hn. apply map_Forall_insert_2; [exact (Hag q n Hn)|done]. Qed.

(** ** Reads change nothing that a client can see *)

(** The maps, the routing and the clocks stay; connections and recency may change. *)
Record quiet cl cl' : Prop := {
  qu_ok : cl_ok cl';
  qu_routes : routes <$> cl' = routes <$> cl;
  qu_held : forall id k, held cl' id k = held cl id k
}.

Lemma quiet_refl cl : cl_ok cl -> quiet cl cl.
Proof. by constructor. Qed.

Lemma quiet_trans cl1 cl2 cl3 : quiet cl1 cl2 -> quiet cl2 cl3 -> quiet cl1 cl3.
Proof. intros [_ R1 H1] [Hok R2 H2]. constructor; [done|by rewrite R2|]. intros id k. by rewrite H2. Qed.

Lemma quiet_evolved op cl cl' : quiet cl cl' -> evolved op cl cl'.
Proof. intros [Hok Hr Hh]. constructor; [done..|]. intros id k. left. apply Hh. Qed.

Lemma quiet_insert cl id n n' :
  cl_ok cl -> cl !! id = Some n -> routes n' = routes n -> hm (core n') = hm (core n) -> quiet cl (<[id := n']> cl).
Proof.
  intros Hok Hn Hr Hm. destruct (Hok id n Hn) as (Hsm & _ & _). constructor.
  - eapply cl_ok_insert; [done..| |by rewrite Hm]. by injection Hr.
  - by eapply routes_insert.
  - intros j k. rewrite held_insert. case_decide as Hj; [|done]. subst j. unfold held. by rewrite Hn, Hm.
Qed.

Lemma connect_quiet net cl self owner msg r cl' :
  cl_ok cl -> connect net cl self owner msg = Some (r, cl') -> quiet cl cl'.
Proof.
  intros Hok. unfold connect. destruct (cl !! self) as [n|] eqn:En; [|done]. ored.
  case_bool_decide; [intros [= _ <-]; by apply quiet_refl|].
  destruct (cacheGet _ _ _) as [r1 c]. intros [= _ <-]. by eapply quiet_insert.
Qed.

Section Quiet.
Context (net : network) (rget : Z -> gmap string (Node W C E M) -> string -> string ->
  option (option (Z * option slice) * gmap string (Node W C E M))).
Context (Hrget : forall b cl q key v cl', cl_ok cl -> rget b cl q key = Some (v, cl') -> quiet cl cl').

Lemma clientGet_quiet b cl addr key v cl' : cl_ok cl -> clientGet net rget b cl addr key = Some (v, cl') -> quiet cl cl'.
Proof.
  intros Hok. unfold clientGet. cbv zeta. destruct (_ <=? _); [intros [= _ <-]; by apply quiet_refl|].
  destruct (pull net addr); [intros [= _ <-]; by apply quiet_refl|].
  destruct (serves net addr) as [peer|]; [|intros [= _ <-]; by apply quiet_refl].
  destruct (rget _ cl peer key) as [[[[rem w]|] cl3]|] eqn:Eg; [| |done]; intros [= _ <-]; by eapply Hrget.
Qed.

Lemma proxyLoop_quiet b cl self key owners v cl' :
  cl_ok cl -> proxyLoop net rget b cl self key owners = Some (v, cl') -> quiet cl cl'.
Proof.
  revert b cl. induction owners as [|o owners IH]; intros b cl Hok; cbn [proxyLoop].
  { intros [= _ <-]. by apply quiet_refl. }
  destruct (cl !! self) as [n|]; [|done]. ored. case_bool_decide; [by apply IH|].
  destruct (proxyGetRemote net rget b cl self o key) as [[t cl1]|] eqn:Ep; [|done].
  assert (quiet cl cl1) as Hq.
  { unfold proxyGetRemote in Ep. destruct (connect _ _ _ _ _) as [[[addr|e] cl2]|] eqn:Ec; [|injection Ep as _ <-; by eapply connect_quiet|done].
    apply connect_quiet in Ec; [|done]. eapply quiet_trans; [exact Ec|]. eapply clientGet_quiet; [apply Ec|exact Ep]. }
  destruct t as [[rem [[v1|]|e]]|]; try (by intros [= _ <-]); intros Hl; (eapply quiet_trans; [exact Hq|]);
    (eapply IH; [apply Hq|exact Hl]).
Qed.

Lemma nodeGetStep_quiet b cl self key v cl' :
  cl_ok cl -> nodeGetStep net rget b cl self key = Some (v, cl') -> quiet cl cl'.
Proof.
  intros Hok. unfold nodeGetStep. destruct (cl !! self) as [n|] eqn:En; [|done]. ored.
  destruct (Hok self n En) as (_ & _ & ->). unfold gwGet. rewrite En. ored.
  assert (forall owners, proxyLoop net rget b cl self key owners = Some (v, cl') -> quiet cl cl') as Hloop
    by (intros owners; by apply proxyLoop_quiet).
  destruct (isOwner n key) as [[]|]; [| |done].
  - destruct (Load _ _ _) as [iv|].
    + destruct (negb (Tombstone iv)); intros [= _ <-]; [by eapply quiet_insert|by apply quiet_refl].
    + destruct (Mesh.mesh_GetOwners _ _ _) as [owners|]; [apply Hloop|done].
  - destruct (Mesh.mesh_GetOwners _ _ _) as [owners|]; [apply Hloop|done].
Qed.

End Quiet.

Lemma nodeGet_quiet net hops b cl q key v cl' : cl_ok cl -> nodeGet net hops b cl q key = Some (v, cl') -> quiet cl cl'.
Proof.
  revert b cl q key v cl'. induction hops as [|hops IH]; intros b cl q key v cl' Hok; [done|].
  cbn [nodeGet]. apply nodeGetStep_quiet; [|done]. intros; by eapply IH.
Qed.

Lemma gwExists_quiet net hops b cl self key owners t cl' :
  cl_ok cl -> gwExists net (nodeGet net hops) b cl self key owners = Some (t, cl') -> quiet cl cl'.
Proof.
  intros Hok. unfold gwExists. destruct (cl !! self) as [n|]; [|done]. ored.
  destruct (_ && _); [intros [= _ <-]; by apply quiet_refl|].
  destruct (proxyLoop _ _ _ _ _ _ _) as [[v cl1]|] eqn:Ep; [|done]. intros [= _ <-].
  eapply proxyLoop_quiet; [|done|exact Ep]. intros; by eapply nodeGet_quiet.
Qed.

(** Replicated deletes: when a key has several owners and [Delete] returns, every owner
    except the failed ones holds its tombstone or a record that beats it, no other key of any
    node has changed, its error follows the failure mode exactly, and it reports that the key
    existed only together with success.  The writes begin in a state [cl1] in which the clock
    has been read and the owners have been asked for the key. *)
Theorem replicated_delete net hops budget cl self n key owners order b r cl' :
  cl_ok cl -> routed net cl -> cl !! self = Some n ->
  Mesh.mesh_GetOwners (mesh n) key (getReplicationFactor n) = Some owners -> NoDup owners ->
  (2 <= length owners)%nat -> order ≡ₚ owners ->
  nodeDelete net hops budget cl self key order = Some (Some (b, r), cl') ->
  exists ts c cl1, clk_Now (clock (core n)) = Some (ts, c) /\
    quiet (<[self := with_core n (with_clock (core n) c)]> cl) cl1 /\ (forall id k, held cl1 id k = held cl id k) /\
    outcome net (Mesh.ReplicationFailureMode (meshConfig n)) owners cl1 self (WalEntry_Delete (mkDelete key ts self)) r cl' /\
    (b = true -> r = Ok tt).
Proof.
  intros Hok Hrt Hn Hown Hnd Hlen Hord. unfold nodeDelete. rewrite Hn. ored. destruct (Hok self n Hn) as (_ & Hid & ->).
  destruct (clk_Now (clock (core n))) as [[ts c]|]; [|done].
  pose proof (stamped_evolved cl self n c (WalEntry_Delete (mkDelete key ts self)) Hok Hn) as Hev1.
  unfold gwDelete. rewrite lookup_insert_eq. ored.
  change (getReplicationFactor (with_core n (with_clock (core n) c))) with (getReplicationFactor n).
  change (mesh (with_core n (with_clock (core n) c))) with (mesh n). rewrite Hown. ored.
  change (NodeID (with_core n (with_clock (core n) c))) with (NodeID n). rewrite Hid.
  destruct owners as [|o1 [|o2 os]]; cbn in Hlen; [lia..|].
  destruct (gwExists _ _ _ _ _ _ _) as [[[[rem existed]|] cl2]|] eqn:Ee; [|done|done].
  apply gwExists_quiet in Ee as Hq; [|by apply Hev1].
  destruct (replicate_ _ _ _ _ _ _ _ _) as [[r1 cl3]|] eqn:Er; [|done]. intros [= <- <- <-].
  exists ts, c, cl2. split; [done|]. split; [done|].
  split; [intros id k; by rewrite (qu_held _ _ Hq), (held_clock cl self n c id k Hn)|]. split.
  - eapply replicate_outcome; [apply Hq| |done|cbn; lia|done|exact Er].
    eapply routed_routes; [apply Hq|]. exact (routed_routes _ _ _ (ev_routes _ _ _ Hev1) Hrt).
  - intros [_ Hr]%andb_true_iff. by destruct r1 as [[]|].
Qed.

(** ** Reads end by their time-outs *)

Lemma agreed_routes cl cl' key owners : routes <$> cl' = routes <$> cl -> agreed cl key owners -> agreed cl' key owners.
Proof.
  intros Hr Hag q n Hn. assert ((routes <$> cl') !! q = Some (routes n)) as Hq by by rewrite lookup_fmap, Hn.
  rewrite Hr, lookup_fmap in Hq. apply fmap_Some in Hq as (n0 & Hn0 & Heq). unfold routes in Heq.
  injection Heq as Hm Hc _. specialize (Hag q n0 Hn0). unfold getReplicationFactor in *. by rewrite Hm, Hc.
Qed.

(** The nodes agree on the owners, which are there, and addresses lead to their nodes. *)
Record ready net cl (key : string) (owners : list string) : Prop := {
  re_ok : cl_ok cl;
  re_agreed : agreed cl key owners;
  re_routed : routed net cl;
  re_there : forall o, o ∈ owners -> is_Some (cl !! o)
}.

Lemma quiet_there cl cl' o : quiet cl cl' -> is_Some (cl !! o) -> is_Some (cl' !! o).
Proof.
  intros Hq Ho. rewrite <- (fmap_is_Some routes), <- lookup_fmap, (qu_routes _ _ Hq), lookup_fmap, fmap_is_Some. done.
Qed.

Lemma ready_quiet net cl cl' key owners : quiet cl cl' -> ready net cl key owners -> ready net cl' key owners.
Proof.
  intros Hq [Hok Hag Hrt Hth]. constructor; [apply Hq|eapply agreed_routes; [apply Hq|done]| |].
  - eapply routed_routes; [apply Hq|done].
  - intros o Ho. eapply quiet_there; [done|by apply Hth].
Qed.

(** The time left is part of the time given. *)
Definition in_time {A} (b : Z) (t : option (Z * A)) : Prop := match t with Some (rem, _) => 0 <= rem <= b | None => True end.

(** Calls take time. *)
Definition takes_time net : Prop := forall a, 0 < rtt net a.

Section Total.
Context (net : network) (rget : Z -> gmap string (Node W C E M) -> string -> string ->
  option (option (Z * option slice) * gmap string (Node W C E M))).
Context (key : string) (all : list string) (limit : Z) (Hrtt : takes_time net).
Context (Hquiet : forall b cl q v cl', cl_ok cl -> rget b cl q key = Some (v, cl') -> quiet cl cl').
Context (Hrget : forall b cl o, 0 < b < limit -> ready net cl key all -> o ∈ all ->
  exists t cl', rget b cl o key = Some (t, cl') /\ in_time b t).

(** A call returns by the client's time-out. *)
Lemma proxyGetRemote_total b cl self o :
  ready net cl key all -> is_Some (cl !! self) -> o ∈ all -> 0 <= b <= limit ->
  exists t cl', proxyGetRemote net rget b cl self o key = Some (t, cl') /\ quiet cl cl' /\ in_time b t /\
    (clientTimeout <= b -> exists rem v, t = Some (rem, v) /\ b - clientTimeout <= rem).
Proof.
  intros Hre [n Hn] Ho Hb. unfold proxyGetRemote. destruct (connect _ _ _ _ _) as [[rc cl1]|] eqn:Ec.
  2: { unfold connect in Ec. rewrite Hn in Ec. cbn in Ec. case_bool_decide; [done|]. by destruct (cacheGet _ _ _). }
  pose proof (connect_quiet _ _ _ _ _ _ _ (re_ok _ _ _ _ Hre) Ec) as Hq1.
  pose proof (connect_evolved _ _ _ _ _ (WalEntry_Delete (mkDelete key 0 self)) _ _ (re_ok _ _ _ _ Hre) Ec) as [_ (n' & Hn' & Haddr)].
  rewrite Hn in Hn'. injection Hn' as <-. assert (0 < clientTimeout) by done.
  destruct rc as [addr|e]; [|exists (Some (b, Err e)), cl1; split_and!; [done|done|cbn; lia|]; intros _; exists b, (Err e); split; [done|lia]].
  pose proof (Hrtt addr) as Hr. specialize (Haddr addr eq_refl).
  set (late := if clientTimeout <=? b then Some (b - clientTimeout, Err deadlineExceeded : result (option slice)) else None).
  assert (in_time b late /\ (clientTimeout <= b -> exists rem v, late = Some (rem, v) /\ b - clientTimeout <= rem)) as Hlate.
  { unfold late. destruct (Z.leb_spec clientTimeout b); (split; [cbn; (lia || done)|]); [|lia]. intros _. eexists _, _. split; [done|lia]. }
  unfold clientGet. cbv zeta. fold late.
  destruct (Z.leb_spec (Z.min b clientTimeout) (rtt net addr)); [by exists late, cl1|].
  assert (forall v : result (option slice), in_time b (Some (b - rtt net addr, v)) /\
    (clientTimeout <= b -> exists rem v', Some (b - rtt net addr, v) = Some (rem, v') /\ b - clientTimeout <= rem)) as Herr.
  { intros v. split; [cbn; lia|]. intros _. exists (b - rtt net addr), v. split; [done|lia]. }
  destruct (pull net addr) as [e|]; [by eexists _, cl1|]. destruct (serves net addr) as [peer|] eqn:Es; [|by eexists _, cl1].
  rewrite Haddr in Es. apply (re_routed _ _ _ _ Hre self n o peer Hn) in Es as ->.
  destruct (Hrget (Z.min b clientTimeout - rtt net addr) cl1 o) as (t & cl2 & Eg & Ht); [lia|by eapply ready_quiet|done|].
  pose proof (Hquiet _ _ _ _ _ (qu_ok _ _ Hq1) Eg) as Hq2. rewrite Eg.
  destruct t as [[rem v]|]; [|exists late, cl2; split; [done|]; split; [by eapply quiet_trans|done]].
  eexists _, cl2. split; [done|]. split; [by eapply quiet_trans|]. cbn in Ht. split; [cbn; lia|].
  intros _. eexists _, _. split; [done|lia].
Qed.

Lemma proxyLoop_total os b cl self :
  ready net cl key all -> is_Some (cl !! self) -> os ⊆ all -> 0 <= b <= limit ->
  exists t cl', proxyLoop net rget b cl self key os = Some (t, cl') /\ in_time b t /\
    (Z.of_nat (length os) * clientTimeout <= b -> is_Some t).
Proof.
  revert b cl. induction os as [|o os IH]; intros b cl Hre Hself Hsub Hb; cbn [proxyLoop].
  { eexists _, cl. split; [done|]. split; [cbn; lia|done]. }
  destruct Hself as [n Hn]. rewrite Hn. ored.
  assert (0 < clientTimeout) by done.
  case_bool_decide.
  - destruct (IH b cl) as (t & cl' & -> & Ht & Hs); [done|done|set_solver|done|]. exists t, cl'. split; [done|]. split; [done|].
    intros Hlen. apply Hs. cbn [length] in Hlen. lia.
  - destruct (proxyGetRemote_total b cl self o) as (t & cl1 & -> & Hq & Ht & Hs); [done|done|set_solver|done|].
    assert (forall rem, 0 <= rem <= b -> (clientTimeout <= b -> b - clientTimeout <= rem) ->
      exists t cl', proxyLoop net rget rem cl1 self key os = Some (t, cl') /\ in_time b t /\
        (Z.of_nat (length (o :: os)) * clientTimeout <= b -> is_Some t)) as Hgo.
    { intros rem Hrem Hle. destruct (IH rem cl1) as (t' & cl' & -> & Ht' & Hs'); [by eapply ready_quiet|by eapply quiet_there|set_solver|lia|].
      exists t', cl'. split; [done|]. split; [destruct t' as [[]|]; cbn in *; [lia|done]|]. intros Hlen. apply Hs'. cbn [length] in Hlen. lia. }
    destruct t as [[rem v]|].
    + assert (clientTimeout <= b -> b - clientTimeout <= rem) as Hle.
      { intros Hc. destruct (Hs Hc) as (rem' & v' & [= <- <-] & ?). done. }
      destruct v as [[v|]|e]; [|by apply Hgo..]. eexists _, cl1. split; [done|]. split; [done|]. by intros _.
    + exists None, cl1. split; [done|]. split; [done|]. cbn [length]. intros Hlen. destruct Hs as (? & ? & ? & _); [lia|done].
Qed.

End Total.

Lemma nodeGet_total net key owners hops b cl q :
  takes_time net -> ready net cl key owners -> is_Some (cl !! q) -> 0 <= b < Z.of_nat hops ->
  exists t cl', nodeGet net hops b cl q key = Some (t, cl') /\ in_time b t /\
    (Z.of_nat (length owners) * clientTimeout <= b -> is_Some t).
Proof.
  intros Hrtt. revert b cl q. induction hops as [|hops IH]; intros b cl q Hre [n Hn] Hb; [lia|].
  cbn [nodeGet]. unfold nodeGetStep. rewrite Hn. ored. destruct (re_ok _ _ _ _ Hre q n Hn) as (_ & _ & ->).
  assert (exists t cl', gwGet net (nodeGet net hops) b cl q key = Some (t, cl') /\ in_time b t /\
    (Z.of_nat (length owners) * clientTimeout <= b -> is_Some t)) as Hgw.
  { unfold gwGet. rewrite Hn. ored. rewrite (re_agreed _ _ _ _ Hre q n Hn). ored.
    apply (proxyLoop_total net (nodeGet net hops) key owners b Hrtt); [| |done|done|done|lia].
    - intros; by eapply nodeGet_quiet.
    - intros b' cl' o Hb' Hre' Ho. destruct (IH b' cl' o) as (t & cl2 & ? & ? & _); [done|by apply Hre'|lia|]. by exists t, cl2. }
  rewrite (isOwner_agreed cl key owners q n (re_ok _ _ _ _ Hre) (re_agreed _ _ _ _ Hre) Hn).
  case_bool_decide; [|done]. destruct (Load _ _ _) as [iv|]; [|done].
  destruct (negb (Tombstone iv)); eexists _, _; (split; [done|]); (split; [cbn; lia|done]).
Qed.

(** ** A key that nobody holds *)

(** Every owner of the key is up, reaches every other within the time-out, and has no record
    for it. *)
Definition all_missing net cl (key : string) (owners : list string) : Prop :=
  forall q, q ∈ owners -> exists n, cl !! q = Some n /\ Load (hm (core n)) key (HashFunc key) = None /\
    forall o, o ∈ owners -> o <> q -> reaches net n o.

Lemma all_missing_cc net cl key owners q n c :
  all_missing net cl key owners -> cl !! q = Some n -> closed c = false ->
  all_missing net (<[q := with_cc n c]> cl) key owners.
Proof.
  intros Hall Hn Hc p Hp. destruct (Hall p Hp) as (n' & Hn' & Hl & Hr). destruct (decide (q = p)) as [<-|Hne].
  - rewrite Hn in Hn'. injection Hn' as <-. exists (with_cc n c). rewrite lookup_insert_eq. split; [done|].
    split; [done|]. intros o Ho Hoq. destruct (Hr o Ho Hoq) as (H1 & _ & H3). done.
  - exists n'. by rewrite lookup_insert_ne.
Qed.


(** What stays true while a read of a missing key travels. *)
Definition lacking net cl (key : string) (owners : list string) : Prop :=
  cl_ok cl /\ agreed cl key owners /\ all_missing net cl key owners.

Definition others (q : string) (owners : list string) : list string := filter (fun o => o <> q) owners.

Lemma others_length q owners : NoDup owners -> q ∈ owners -> length owners = S (length (others q owners)).
Proof.
  unfold others. induction owners as [|o owners IH]; intros Hnd Hq; [by apply elem_of_nil in Hq|].
  apply NoDup_cons in Hnd as [Hni Hnd]. rewrite filter_cons. case_decide as Ho; cbn.
  - f_equal. apply IH; [done|]. by apply elem_of_cons in Hq as [->|?].
  - f_equal. destruct (decide (o = q)) as [->|]; [|done]. by rewrite filter_all by (apply Forall_forall; intros x Hx ->; done).
Qed.

(** Each of the other owners is waited for until the time-out. *)
Lemma proxyLoop_missing net rget b cl q key all os :
  takes_time net -> lacking net cl key all -> q ∈ all -> os ⊆ all -> 0 <= b ->
  (forall b' cl' o, 0 < b' < Z.min b clientTimeout -> lacking net cl' key all -> o ∈ all ->
     exists cl2, rget b' cl' o key = Some (None, cl2) /\ lacking net cl2 key all) ->
  let wait := Z.of_nat (length (others q os)) * clientTimeout in
  exists cl', lacking net cl' key all /\
    proxyLoop net rget b cl q key os = Some (if wait <=? b then Some (b - wait, None) else None, cl').
Proof.
  intros Hrtt. assert (0 < clientTimeout) as Htm by done. revert b cl.
  induction os as [|o os IH]; intros b cl Hl Hq Hsub Hb Hrec; cbn [proxyLoop]; cbv zeta.
  { exists cl. split; [done|]. cbn [others length filter list_filter Z.of_nat]. rewrite (proj2 (Z.leb_le _ _)) by lia. by rewrite Z.sub_0_r. }
  destruct Hl as (Hok & Hag & Hmiss). destruct (Hmiss q Hq) as (n & Hn & _ & Hreach). rewrite Hn. ored.
  destruct (Hok q n Hn) as (_ & -> & _). unfold others. rewrite filter_cons.
  case_bool_decide as Ho.
  { subst o. rewrite decide_False by (intros Hne; by apply Hne). by apply IH; [|done|set_solver|..]. }
  rewrite decide_True by done. fold (others q os).
  set (wait := Z.of_nat (length (o :: others q os)) * clientTimeout).
  assert (reaches net n o) as Hr by (apply Hreach; [set_solver|done]).
  destruct (connect_ok net cl q n o ("address not found for node " +:+ o) Hn Hr) as (c & Hc & Hcon).
  unfold proxyGetRemote. rewrite Hcon. set (addr := Mesh.mesh_AddressForNode (mesh n) o) in *.
  assert (lacking net (<[q := with_cc n c]> cl) key all) as Hl1
    by (split; [by apply cl_ok_cc|split; [by apply agreed_cc|by apply all_missing_cc]]).
  assert (exists cl2, lacking net cl2 key all /\ clientGet net rget b (<[q := with_cc n c]> cl) addr key =
    Some (if clientTimeout <=? b then Some (b - clientTimeout, Err deadlineExceeded) else None, cl2)) as (cl2 & Hl2 & ->).
  { unfold clientGet. cbv zeta. destruct (Z.leb_spec (Z.min b clientTimeout) (rtt net addr)); [by eexists|].
    destruct Hr as (_ & _ & _ & Hpull & Hserves & Hlt). fold addr in Hpull, Hserves. rewrite Hpull, Hserves.
    pose proof (Hrtt addr).
    destruct (Hrec (Z.min b clientTimeout - rtt net addr) (<[q := with_cc n c]> cl) o) as (cl2 & -> & Hl2);
      [lia|done|set_solver|]. by exists cl2. }
  assert (wait = clientTimeout + Z.of_nat (length (others q os)) * clientTimeout) as Hw by (subst wait; cbn [length]; lia).
  destruct (Z.leb_spec clientTimeout b).
  - destruct (IH (b - clientTimeout) cl2) as (cl3 & Hl3 & ->); [done|done|set_solver|lia| |].
    { intros b' cl' o' Hb'. apply Hrec. lia. }
    exists cl3. split; [done|]. rewrite Hw.
    destruct (Z.leb_spec (Z.of_nat (length (others q os)) * clientTimeout) (b - clientTimeout)).
    + rewrite (proj2 (Z.leb_le _ _)) by lia. do 4 f_equal. lia.
    + by rewrite (proj2 (Z.leb_gt _ _)) by lia.
  - exists cl2. split; [done|]. by rewrite (proj2 (Z.leb_gt _ _)) by lia.
Qed.

Lemma nodeGet_missing net key owners hops b cl q :
  takes_time net -> lacking net cl key owners -> NoDup owners -> (2 <= length owners)%nat -> q ∈ owners ->
  0 <= b < Z.of_nat hops ->
  let wait := (Z.of_nat (length owners) - 1) * clientTimeout in
  exists cl', lacking net cl' key owners /\
    nodeGet net hops b cl q key = Some (if wait <=? b then Some (b - wait, None) else None, cl').
Proof.
  intros Hrtt Hl Hnd Hlen Hq Hb wait. revert b cl q Hl Hq Hb.
  induction hops as [|hops IH]; intros b cl q Hl Hq Hb; [lia|]. cbn [nodeGet]. unfold nodeGetStep.
  assert (lacking net cl key owners) as (Hok & Hag & Hmiss) by done.
  destruct (Hmiss q Hq) as (n & Hn & Hload & _). rewrite Hn. ored. destruct (Hok q n Hn) as (_ & _ & ->).
  rewrite (isOwner_agreed cl key owners q n Hok Hag Hn), bool_decide_true, Hload by done.
  unfold gwGet. rewrite Hn. ored. rewrite (Hag q n Hn). ored.
  destruct (proxyLoop_missing net (nodeGet net hops) b cl q key owners owners) as (cl' & Hl' & E1); [done..|lia| |].
  - intros b' cl' o Hb' Hl' Ho. destruct (IH b' cl' o) as (cl2 & Hl2 & E2); [done|done|lia|]. exists cl2. split; [|done].
    rewrite E2. subst wait. rewrite (proj2 (Z.leb_gt _ _)); [done|]. nia.
  - exists cl'. split; [done|]. rewrite E1. subst wait. pose proof (others_length q owners Hnd Hq).
    replace (Z.of_nat (length owners) - 1) with (Z.of_nat (length (others q owners))) by lia. done.
Qed.

(** C37. Reads end, by their time-outs.  When every call takes some time, a [Get] through any
    node returns within a second for each owner of the key (so [hops] above the time it is run
    for is fuel enough), whatever the nodes hold and whichever calls fail.  But for a key that
    none of its owners holds, when they are up and reach each other, this wait is not an upper
    bound only: each owner forwards the read to another, which forwards it again, and a [Get]
    through an owner answers that there is no such key exactly after a second for every other
    owner, and not before; a [Delete], which first asks the owners, has until then not returned
    and written nothing. *)
Theorem reads_end_by_timeouts net cl key owners q hops budget :
  takes_time net -> ready net cl key owners -> is_Some (cl !! q) -> 0 <= budget < Z.of_nat hops ->
  (exists t cl', nodeGet net hops budget cl q key = Some (t, cl') /\
     (Z.of_nat (length owners) * clientTimeout <= budget -> is_Some t)) /\
  (all_missing net cl key owners -> NoDup owners -> (2 <= length owners)%nat -> q ∈ owners ->
   let wait := (Z.of_nat (length owners) - 1) * clientTimeout in
   (exists cl', nodeGet net hops budget cl q key =
      Some (if wait <=? budget then Some (budget - wait, None) else None, cl')) /\
   (budget < wait -> forall n order, cl !! q = Some n -> is_Some (clk_Now (clock (core n))) ->
      exists cl', nodeDelete net hops budget cl q key order = Some (None, cl') /\
        forall id k, held cl' id k = held cl id k)).
Proof.
  intros Hrtt Hre Hq Hb. split.
  { destruct (nodeGet_total net key owners hops budget cl q) as (t & cl' & E1 & _ & E2); [done..|]. by exists t, cl'. }
  intros Hmiss Hnd Hlen Hqo wait. destruct Hre as [Hok Hag Hrt Hth]. split.
  { destruct (nodeGet_missing net key owners hops budget cl q) as (cl' & _ & E1); [done..|]. by exists cl'. }
  intros Hlt n order Hn [[ts c] Hclk]. destruct (Hok q n Hn) as (Hsm & _ & Hs). set (n1 := with_core n (with_clock (core n) c)).
  assert (lacking net (<[q := n1]> cl) key owners) as Hl1.
  { split; [by eapply cl_ok_insert|]. split; [apply map_Forall_insert_2; [exact (Hag q n Hn)|done]|].
    intros p Hp. destruct (decide (q = p)) as [<-|Hne]; [|rewrite lookup_insert_ne by done; by apply Hmiss].
    destruct (Hmiss q Hqo) as (n' & Hn' & Hload & Hr). rewrite Hn in Hn'. injection Hn' as <-. exists n1. by rewrite lookup_insert_eq. }
  destruct (proxyLoop_missing net (nodeGet net hops) budget (<[q := n1]> cl) q key owners owners) as (cl' & _ & Hloop); [done..|lia| |].
  { intros b' cl' o Hb' Hl' Ho. destruct (nodeGet_missing net key owners hops b' cl' o) as (cl2 & Hl2 & E2); [done..|lia|].
    exists cl2. split; [|done]. rewrite E2. rewrite (proj2 (Z.leb_gt _ _)); [done|]. nia. }
  pose proof (others_length q owners Hnd Hqo) as Hol.
  rewrite (proj2 (Z.leb_gt _ _)) in Hloop by (subst wait; nia). exists cl'. split.
  - unfold nodeDelete. rewrite Hn. ored. rewrite Hs, Hclk. fold n1. unfold gwDelete. rewrite lookup_insert_eq. ored.
    change (Mesh.mesh_GetOwners (mesh n1) key (getReplicationFactor n1)) with (Mesh.mesh_GetOwners (mesh n) key (getReplicationFactor n)).
    rewrite (Hag q n Hn). ored. unfold gwExists. rewrite lookup_insert_eq. ored.
    destruct (Hmiss q Hqo) as (n' & Hn' & Hload & _). rewrite Hn in Hn'. injection Hn' as <-.
    assert (Exists (sw (core n1)) key = false) as -> by (unfold Exists; change (sw_hm (sw (core n1))) with (hm (core n)); by rewrite Hload).
    rewrite andb_false_r, Hloop. by destruct owners; [cbn in Hlen; lia|].
  - assert (quiet (<[q := n1]> cl) cl') as Hqt.
    { eapply proxyLoop_quiet; [|apply Hl1|exact Hloop]. intros; by eapply nodeGet_quiet. }
    intros id k. rewrite (qu_held _ _ Hqt). exact (held_clock cl q n c id k Hn).
Qed.

(** ** Reads after writes *)

(** An owner answers a read of a live record at once. *)
Lemma owner_reads net rget b cl key owners q e :
  cl_ok cl -> agreed cl key owners -> q ∈ owners -> held cl q key = Some e -> Tombstone e = false ->
  exists d cl', nodeGetStep net rget b cl q key = Some (Some (b, Some d), cl') /\ norm_slice d = Data e.
Proof.
  intros Hok Hag Hq He Ht. unfold held in He. destruct (cl !! q) as [n|] eqn:Hn; [|done]. cbn in He.
  apply fmap_Some in He as (v & Hv & ->). unfold nodeGetStep. rewrite Hn. ored.
  destruct (Hok q n Hn) as (Hsm & _ & ->).
  rewrite (isOwner_agreed cl key owners q n Hok Hag Hn), bool_decide_true by done.
  rewrite Load_sm_get by done. rewrite Hv. cbn. cbn in Ht. rewrite Ht. cbn. by eexists _, _.
Qed.

(** What a proxied read of a record that all owners hold gives. *)
Lemma proxy_outcome net cl key all q n p v b :
  cl_ok cl -> agreed cl key all -> routed net cl -> cl !! q = Some n -> q ∉ all -> p ∈ all -> clientTimeout <= b ->
  (exists e, held cl p key = Some e /\ Tombstone e = false /\ Data e = v) ->
  (exists rem d cl', proxyGetRemote net (nodeGet net 1) b cl q p key = Some (Some (rem, Ok (Some d)), cl') /\ norm_slice d = v) \/
  (~ reaches net n p /\ exists rem e c, b - clientTimeout <= rem /\ closed c = closed (cc n) /\
     proxyGetRemote net (nodeGet net 1) b cl q p key = Some (Some (rem, Err e), <[q := with_cc n c]> cl)).
Proof.
  intros Hok Hag Hrt Hn Hq Hp Hb (e & He & Ht & Hde). unfold proxyGetRemote, connect. rewrite Hn. ored.
  assert (0 < clientTimeout) by done. set (addr := Mesh.mesh_AddressForNode (mesh n) p).
  case_bool_decide as Ha.
  { right. split; [intros (? & _); done|]. eexists b, _, (cc n). split; [lia|]. split; [done|].
    rewrite insert_id; [done|]. rewrite Hn. by destruct n. }
  destruct (cacheGet (dial net) (cc n) addr) as [rc c] eqn:Ec.
  assert (closed c = closed (cc n) /\ (rc <> Ok tt -> ~ reaches net n p)) as [Hc Hrc].
  { unfold cacheGet in Ec. destruct (closed (cc n)) eqn:Ecl.
    { injection Ec as <- <-. split; [done|]. intros _ (_ & ? & _). congruence. }
    case_bool_decide; [by injection Ec as <- <-|]. destruct (dial net addr) as [[]|err] eqn:Ed;
      injection Ec as <- <-; [by split|]. split; [done|]. intros _ (_ & _ & Hd & _). unfold addr in Ed. congruence. }
  destruct rc as [[]|err]; [|right; split; [by apply Hrc|]; exists b, err, c; split; [lia|done]].
  unfold clientGet. cbv zeta. rewrite Z.min_r by done. rewrite (proj2 (Z.leb_le clientTimeout b)) by done.
  destruct (Z.leb_spec clientTimeout (rtt net addr)) as [Hlate|Hin].
  { right. split; [intros (_ & _ & _ & _ & _ & Hlt); unfold addr in Hlate; lia|]. eexists _, _, c. split; [|done]. lia. }
  destruct (pull net addr) as [err|] eqn:Epull.
  { right. split; [|eexists _, _, c; split; [|done]; lia]. intros (_ & _ & _ & Hpu & _). unfold addr in Epull. congruence. }
  destruct (serves net addr) as [peer|] eqn:Es.
  2: { right. split; [|eexists _, _, c; split; [|done]; lia]. intros (_ & _ & _ & _ & Hs & _). unfold addr in Es. congruence. }
  apply (Hrt q n p peer Hn) in Es as ->. left.
  destruct (owner_reads net (nodeGet net 0) (clientTimeout - rtt net addr) (<[q := with_cc n c]> cl) key all p e) as (d & cl2 & Hrun & Hd);
    [by apply cl_ok_cc|by apply agreed_cc|done| |done|].
  { rewrite held_insert, decide_False by (intros ->; done). done. }
  change (nodeGet net 1 (clientTimeout - rtt net addr) (<[q := with_cc n c]> cl) p key = Some (Some (clientTimeout - rtt net addr, Some d), cl2)) in Hrun.
  rewrite Hrun. eexists _, (norm_slice d), cl2. split; [done|]. rewrite <- Hde, <- Hd. by destruct d as [[]|].
Qed.

Lemma proxyLoop_reads net cl key all owners q n v b :
  cl_ok cl -> agreed cl key all -> routed net cl -> cl !! q = Some n -> q ∉ all -> owners ⊆ all ->
  (forall o, o ∈ all -> exists e, held cl o key = Some e /\ Tombstone e = false /\ Data e = v) ->
  (exists o, o ∈ owners /\ reaches net n o) -> Z.of_nat (length owners) * clientTimeout <= b ->
  exists rem d cl', proxyLoop net (nodeGet net 1) b cl q key owners = Some (Some (rem, Some d), cl') /\ norm_slice d = v.
Proof.
  intros Hok Hag Hrt Hn Hq Hsub Hheld (o & Ho & Hr) Hb. assert (0 < clientTimeout) by done.
  revert cl n b Hok Hag Hrt Hn Hheld Hr Hb.
  induction owners as [|p owners IH]; intros cl n b Hok Hag Hrt Hn Hheld Hr Hb; [by apply elem_of_nil in Ho|].
  assert (p ∈ all) as Hp by set_solver. cbn [length] in Hb.
  cbn [proxyLoop]. rewrite Hn. ored. destruct (Hok q n Hn) as (_ & Hid & _). rewrite Hid.
  rewrite bool_decide_false by (intros ->; done).
  destruct (proxy_outcome net cl key all q n p v b Hok Hag Hrt Hn Hq Hp ltac:(lia) (Hheld p Hp))
    as [(rem & d & cl' & -> & Hd)|(Hno & rem & e & c & Hrem & Hc & ->)]; [by exists rem, d, cl'|].
  apply (IH ltac:(set_solver)) with (n := with_cc n c).
  - by apply elem_of_cons in Ho as [->|?].
  - by apply cl_ok_cc.
  - by apply agreed_cc.
  - eapply routed_routes; [by eapply routes_insert|done].
  - apply lookup_insert_eq.
  - intros o' Ho'. rewrite held_insert, decide_False by (intros ->; done). by apply Hheld.
  - destruct Hr as (Ha1 & Ha2 & Ha3). split; [done|]. cbn. by rewrite Hc.
  - lia.
Qed.

(** A write that succeeds with one owner, or strictly, reaches all owners. *)
Lemma write_covers net cl self n key value owners order cl' :
  cl_ok cl -> routed net cl -> cl !! self = Some n ->
  Mesh.mesh_GetOwners (mesh n) key (getReplicationFactor n) = Some owners -> NoDup owners -> owners <> [] ->
  order ≡ₚ owners -> (length owners = 1%nat \/ Mesh.ReplicationFailureMode (meshConfig n) = Mesh.Strict) ->
  nodeSet net cl self key value order = Some (Ok tt, cl') ->
  exists ts, let op := WalEntry_Set (mkSet key value ts self) in
    fst <$> clk_Now (clock (core n)) = Some ts /\ evolved op cl cl' /\ forall o, o ∈ owners -> covered cl' op o.
Proof.
  intros Hok Hrt Hn Hown Hnd Hne Hord Hmode Hset.
  destruct (nodeSet_replicates net cl self n key value owners order (Ok tt) cl') as (ts & c & Hts & Hev1 & Hrun); [done..|].
  exists ts. split; [by rewrite Hts|]. set (cl1 := <[self := _]> cl) in *. set (op := WalEntry_Set (mkSet key value ts self)) in *.
  pose proof (routed_routes _ _ _ (ev_routes _ _ _ Hev1) Hrt) as Hrt1. unfold replicate_ in Hrun.
  destruct owners as [|o1 [|o2 os]]; [done| |].
  - destruct (applyReplica_evolved _ _ _ _ _ _ _ (ev_ok _ _ _ Hev1) Hrt1 Hrun) as [Hev2 Hcov].
    split; [by eapply evolved_trans|]. intros o ->%list_elem_of_singleton. by apply Hcov.
  - destruct Hmode as [Hm|Hm]; [done|]. destruct (applyReplicas net cl1 self order op) as [[errs cl2]|] eqn:Ea; [|done].
    injection Hrun as Hv <-.
    apply applyReplicas_evolved in Ea as (Hev2 & Herrs & Hcov); [|by apply Hev1|done|by rewrite Hord].
    split; [by eapply evolved_trans|]. intros o Ho. rewrite <- Hord in Ho. apply Hcov; [done|].
    rewrite Hm in Hv. unfold verdict in Hv. rewrite (bool_decide_false (Mesh.Strict = Mesh.Lenient)), bool_decide_true in Hv by done.
    destruct errs; [|done]. destruct (replica_error net cl1 self op o) as [e|] eqn:Ee; [|done].
    assert (e ∈ []) as []%elem_of_nil. rewrite Herrs. apply list_elem_of_omap. by exists o.
Qed.

(** C7. Read your writes, anywhere: after a [Set] through one node that succeeds with [Strict]
    replication (or a single owner), a [Get] through any node that is an owner or reaches one
    within the time-out returns the value (nil for an empty value), within two hops and at most
    a second for each owner.  Assumed: all nodes agree on the owners of the key, and the
    timestamp of the write is newer than what every owner held (a [Set] that is shadowed by a
    newer record reports success too, and is not visible). *)
Theorem strict_write_visible net cl self n key value owners order cl' :
  cl_ok cl -> routed net cl -> agreed cl key owners -> NoDup owners -> owners <> [] -> order ≡ₚ owners ->
  cl !! self = Some n ->
  (length owners = 1%nat \/ Mesh.ReplicationFailureMode (meshConfig n) = Mesh.Strict) ->
  (forall ts o e, fst <$> clk_Now (clock (core n)) = Some ts -> o ∈ owners -> held cl o key = Some e -> Timestamp e < ts) ->
  nodeSet net cl self key value order = Some (Ok tt, cl') ->
  forall q n' budget, cl' !! q = Some n' -> q ∈ owners \/ (exists o, o ∈ owners /\ reaches net n' o) ->
    Z.of_nat (length owners) * clientTimeout <= budget ->
    exists rem d cl'', nodeGet net 2 budget cl' q key = Some (Some (rem, Some d), cl'') /\ norm_slice d = norm_slice value.
Proof.
  intros Hok Hrt Hag Hnd Hne Hord Hn Hmode Hold Hset q n' budget Hn' Hq Hb.
  destruct (write_covers net cl self n key value owners order cl' Hok Hrt Hn (Hag self n Hn) Hnd Hne Hord Hmode Hset)
    as (ts & Hts & Hev & Hcov).
  set (op := WalEntry_Set (mkSet key value ts self)) in *.
  assert (forall o, o ∈ owners -> exists e, held cl' o key = Some e /\ Tombstone e = false /\ Data e = norm_slice value) as Hheld.
  { intros o Ho. exists (wanted op). split; [|split; [done|by destruct value as [[]|]]].
    assert (forall e, held cl o key = Some e -> lwwWins e (wanted op) = true) as Hwin.
    { intros e He. specialize (Hold ts o e Hts Ho He). unfold lwwWins. change (Timestamp (wanted op)) with ts.
      destruct (Z.eqb_spec (Timestamp e) ts); [lia|]. cbn. lia. }
    destruct (Hcov o Ho) as (e & He & Hw). change (held cl' o key = Some e) in He. destruct (ev_held _ _ _ Hev o key) as [Hs|[_ Hs]].
    - rewrite Hs in He. by rewrite (Hwin e He) in Hw.
    - rewrite Hs. f_equal. unfold lww_join. destruct (held cl o key) as [e0|]; [|done]. by rewrite (Hwin e0). }
  pose proof (ev_ok _ _ _ Hev) as Hok'. pose proof (agreed_routes _ _ _ _ (ev_routes _ _ _ Hev) Hag) as Hag'.
  pose proof (routed_routes _ _ _ (ev_routes _ _ _ Hev) Hrt) as Hrt'.
  change (nodeGet net 2 budget cl' q key) with (nodeGetStep net (nodeGet net 1) budget cl' q key).
  destruct (decide (q ∈ owners)) as [Hqo|Hqo].
  - destruct (Hheld q Hqo) as (e & He & Ht & <-). exists budget. by eapply owner_reads.
  - destruct Hq as [?|Hq]; [done|]. unfold nodeGetStep. rewrite Hn'. ored. destruct (Hok' q n' Hn') as (_ & _ & ->).
    rewrite (isOwner_agreed cl' key owners q n' Hok' Hag' Hn'), bool_decide_false by done.
    unfold gwGet. rewrite Hn'. ored. rewrite (Hag' q n' Hn'). ored. by eapply proxyLoop_reads.
Qed.

End Theory.

(** ** Two nodes that own every key *)

Module ClusterExamples.
Import Fnv GmapRadix EntropyExamples.

Abbreviation some_node := (Node NopWal tickClock Evict.liveLRU fullMesh).
#[local] Existing Instance Evict.lru_evictor.

Definition node (id : string) : some_node :=
  mkNode (mkEngine empty_writer None id false) both (Mesh.SetNodeID id Mesh.NewConfigBuilder) true NewClientCache 10.

Definition two : gmap string some_node := <["n1" := node "n1"]> (<["n2" := node "n2"]> ∅).

Definition owners2 : list string := ["n1"; "n2"].

Definition good_net : network :=
  mkNet (fun _ => Ok tt)
    (fun a => if decide (a = "10.0.0.1:80") then Some "n1" else if decide (a = "10.0.0.2:80") then Some "n2" else None)%string
    (fun _ => Answered) (fun _ => None) (fun _ => 500000).

Lemma two_lookup q n : two !! q = Some n -> q ∈ owners2 /\ n = node q.
Proof.
  unfold two, owners2. rewrite !lookup_insert. repeat case_decide; subst; intros [= <-]; split; (done || set_solver).
Qed.

Lemma two_owner q : q ∈ owners2 -> two !! q = Some (node q).
Proof. unfold two, owners2. intros Hq. rewrite !elem_of_cons, elem_of_nil in Hq. by destruct Hq as [->|[->|[]]]. Qed.

Lemma two_ok : cl_ok two.
Proof.
  intros q n [Hq ->]%two_lookup. split; [exact (proj1 NewShardedMap_represents)|]. done.
Qed.

Lemma two_routed : routed good_net two.
Proof.
  intros q n o p [_ ->]%two_lookup. cbn. rewrite !lookup_insert. repeat case_decide; cbn; subst; intros [= <-]; done.
Qed.

Lemma two_agreed key : agreed two key owners2.
Proof. by intros q n [_ ->]%two_lookup. Qed.

Lemma two_empty id key : held two id key = None.
Proof.
  unfold held. destruct (two !! id) as [n|] eqn:Hn; [|done]. apply two_lookup in Hn as [_ ->]. cbn.
  by rewrite (proj2 NewShardedMap_represents).
Qed.

Lemma two_reach q o : q ∈ owners2 -> o ∈ owners2 -> reaches good_net (node q) o.
Proof.
  intros _ Ho. unfold owners2 in Ho. rewrite !elem_of_cons, elem_of_nil in Ho. by destruct Ho as [->|[->|[]]].
Qed.

Definition succeeded {A} (o : option (result unit * A)) : bool := match o with Some (Ok _, _) => true | _ => false end.

Lemma succeeded_some {A} (d : A) o : succeeded o = true -> o = Some (Ok tt, default d (snd <$> o)).
Proof. by destruct o as [[[[]|] a]|]. Qed.

Definition after_set : gmap string some_node :=
  default two (snd <$> nodeSet good_net two "n1" "k" (Some (string_bytes "v")) ["n2"; "n1"]).

Lemma set_succeeds : nodeSet good_net two "n1" "k" (Some (string_bytes "v")) ["n2"; "n1"] = Some (Ok tt, after_set).
Proof. apply succeeded_some. vm_compute. reflexivity. Qed.

Lemma owners2_NoDup : NoDup owners2.
Proof. apply (bool_decide_eq_true_1 _). reflexivity. Qed.

(** The same with [Lenient] and a second node that refuses: the write succeeds. *)
Definition lenient_node (id : string) : some_node :=
  let n := node id in
  mkNode (core n) (mesh n) (Mesh.SetReplicationFailureMode Mesh.Lenient (meshConfig n)) true NewClientCache 10.

Definition two_lenient : gmap string some_node := <["n1" := lenient_node "n1"]> (<["n2" := lenient_node "n2"]> ∅).

Definition half_net : network :=
  mkNet (dial good_net) (serves good_net)
    (fun a => if decide (a = "10.0.0.2:80"%string) then Refused (ErrMsg "unavailable") else Answered)
    (pull good_net) (rtt good_net).

Lemma lenient_lookup q n : two_lenient !! q = Some n -> n = lenient_node q.
Proof. unfold two_lenient. rewrite !lookup_insert. repeat case_decide; subst; by intros [= <-]. Qed.

Lemma lenient_ok : cl_ok two_lenient.
Proof. intros q n ->%lenient_lookup. split; [exact (proj1 NewShardedMap_represents)|]. done. Qed.

Lemma lenient_routed : routed half_net two_lenient.
Proof.
  intros q n o p ->%lenient_lookup. cbn. rewrite !lookup_insert. repeat case_decide; cbn; subst; intros [= <-]; done.
Qed.

Definition after_lenient : gmap string some_node :=
  default two (snd <$> nodeSet half_net two_lenient "n1" "k" (Some (string_bytes "v")) ["n2"; "n1"]).

Lemma lenient_succeeds :
  nodeSet half_net two_lenient "n1" "k" (Some (string_bytes "v")) ["n2"; "n1"] = Some (Ok tt, after_lenient).
Proof. apply succeeded_some. vm_compute. reflexivity. Qed.

Lemma replicated_write_witness :
  exists ts c, clk_Now (clock (core (lenient_node "n1"))) = Some (ts, c) /\
    let cl1 := <["n1" := with_core (lenient_node "n1") (with_clock (core (lenient_node "n1")) c)]> two_lenient in
    outcome half_net Mesh.Lenient owners2 cl1 "n1" (WalEntry_Set (mkSet "k" (Some (string_bytes "v")) ts "n1")) (Ok tt) after_lenient.
Proof.
  destruct (replicated_write half_net two_lenient "n1" (lenient_node "n1") "k" (Some (string_bytes "v")) owners2 ["n2"; "n1"]
    (Ok tt) after_lenient) as (ts & c & Hts & _ & Hout).
  - exact lenient_ok.
  - exact lenient_routed.
  - reflexivity.
  - reflexivity.
  - exact owners2_NoDup.
  - cbn. lia.
  - apply Permutation_swap.
  - exact lenient_succeeds.
  - exists ts, c. split; [exact Hts|exact Hout].
Defined.

(** In that run exactly the second node fails. *)
Example lenient_failed :
  failed_owners half_net two_lenient "n1" (WalEntry_Set (mkSet "k" (Some (string_bytes "v")) 1 "n1")) owners2 = ["n2"%string].
Proof. vm_compute. reflexivity. Qed.

Lemma strict_write_visible_witness :
  exists rem d cl, nodeGet good_net 2 2000000000 after_set "n2" "k" = Some (Some (rem, Some d), cl) /\
    norm_slice d = Some (string_bytes "v").
Proof.
  assert (exists n', after_set !! "n2"%string = Some n') as [n' Hn'].
  { destruct (after_set !! "n2"%string) as [n'|] eqn:E; [by exists n'|]. exfalso.
    assert (did (after_set !! "n2"%string) = true) as Hd by (vm_compute; reflexivity). by rewrite E in Hd. }
  apply (strict_write_visible good_net two "n1" (node "n1") "k" (Some (string_bytes "v")) owners2 ["n2"; "n1"] after_set)
    with (n' := n').
  - exact two_ok.
  - exact two_routed.
  - apply two_agreed.
  - exact owners2_NoDup.
  - discriminate.
  - apply Permutation_swap.
  - reflexivity.
  - right. reflexivity.
  - intros ts o e _ _ He. by rewrite two_empty in He.
  - exact set_succeeds.
  - exact Hn'.
  - left. right. left.
  - vm_compute. discriminate.
Defined.

Lemma after_set_evolved : exists op, evolved op two after_set.
Proof.
  destruct (write_covers good_net two "n1" (node "n1") "k" (Some (string_bytes "v")) owners2 ["n2"; "n1"] after_set)
    as (ts & _ & Hev & _); [exact two_ok|exact two_routed|done|done|exact owners2_NoDup|done|apply Permutation_swap|
      by right|exact set_succeeds|]. by eexists.
Qed.

Definition after_delete : option (option (bool * result unit) * gmap string some_node) :=
  nodeDelete good_net 2 2000000000 after_set "n1" "k" ["n1"; "n2"].

Definition returned {A B} (o : option (option A * B)) : bool := match o with Some (Some _, _) => true | _ => false end.

Lemma replicated_delete_witness :
  exists b r cl' ts cl1, after_delete = Some (Some (b, r), cl') /\
    outcome good_net Mesh.Strict owners2 cl1 "n1" (WalEntry_Delete (mkDelete "k" ts "n1")) r cl'.
Proof.
  destruct after_set_evolved as [op Hev].
  assert (exists n, after_set !! "n1"%string = Some n) as [n Hn].
  { destruct (after_set !! "n1"%string) as [n|] eqn:En; [by exists n|]. exfalso.
    assert (did (after_set !! "n1"%string) = true) as Hd by (vm_compute; reflexivity). by rewrite En in Hd. }
  assert (meshConfig n = meshConfig (node "n1")) as Hc.
  { pose proof (ev_routes _ _ _ Hev) as Hr.
    assert ((routes <$> after_set) !! "n1"%string = Some (routes n)) as Hq by (rewrite lookup_fmap, Hn; reflexivity).
    rewrite Hr in Hq. injection Hq as _ Hq _. by rewrite <- Hq. }
  assert (returned after_delete = true) as Hd by (vm_compute; reflexivity).
  destruct after_delete as [[[[b r]|] cl']|] eqn:Ed; try discriminate Hd.
  destruct (replicated_delete good_net 2 2000000000 after_set "n1" n "k" owners2 ["n1"; "n2"] b r cl')
    as (ts & c & cl1 & _ & _ & _ & Hout & _).
  - apply Hev.
  - exact (routed_routes _ _ _ (ev_routes _ _ _ Hev) two_routed).
  - exact Hn.
  - exact (agreed_routes _ _ _ _ (ev_routes _ _ _ Hev) (two_agreed "k") _ _ Hn).
  - exact owners2_NoDup.
  - cbn. lia.
  - reflexivity.
  - exact Ed.
  - exists b, r, cl', ts, cl1. rewrite Hc in Hout. split; [reflexivity|exact Hout].
Defined.

Lemma reads_end_by_timeouts_witness :
  (exists cl', nodeGet good_net (Z.to_nat 1500000001) 1500000000 two "n1" "absent" = Some (Some (500000000, None), cl')) /\
  exists cl', nodeGet good_net (Z.to_nat 900000001) 900000000 two "n1" "absent" = Some (None, cl').
Proof.
  assert (takes_time good_net) as Ht by (intros a; reflexivity).
  assert (ready good_net two "absent" owners2) as Hre.
  { constructor; [exact two_ok|apply two_agreed|exact two_routed|]. intros o Ho. exists (node o). by apply two_owner. }
  assert (all_missing good_net two "absent" owners2) as Hm.
  { intros q Hq. exists (node q). split; [by apply two_owner|]. split.
    + cbn [node core]. exact (proj1 (Load_represents NewShardedMap ∅ "absent" NewShardedMap_represents)).
    + intros o Ho _. by apply two_reach. }
  split.
  - apply (reads_end_by_timeouts good_net two "absent" owners2 "n1" (Z.to_nat 1500000001) 1500000000 Ht Hre);
      [by exists (node "n1")|lia|exact Hm|exact owners2_NoDup|cbn; lia|left].
  - apply (reads_end_by_timeouts good_net two "absent" owners2 "n1" (Z.to_nat 900000001) 900000000 Ht Hre);
      [by exists (node "n1")|lia|exact Hm|exact owners2_NoDup|cbn; lia|left].
Defined.

End ClusterExamples.
