(* ===== verification/Builder.v ===== *)
(** * Building a database (src/databasebuilder.go, newDatabase of src/database.go)

    The builder's fields, its setters, [Default], the checks of [Build] in their order, and
    [newDatabase], which wraps the engine for a single node or in a cluster node.  What the
    constructors of the engine and of the mesh return is an argument, as are the random node
    identifier and the free ports of [Default].  A builder is a value here: the pointer to the
    mesh builder that [SetCluster] shares with its caller is not followed. *)

From S2P Require Import Prelude Kv ShardedMap Wal WalTheory Iface Writer Evict Engine EngineTheory Mesh Entropy EntropyTheory Cluster Database.
Import ShardedMap Writer Engine.

#[local] Open Scope Z_scope.

Module Builder.

(** Nanoseconds. *)
Definition second : Z := 1000 * Mesh.millisecond.
Definition minute : Z := 60 * second.

Section Builder.
Context `{HX : XXHash} `{HR : Radix} {W C E M : Type} `{HW : Waler W} `{HC : Clocker C} `{HE : Evictor E}
  `{HM : Mesh.Mesher M}.

(** A nil interface value is [None]; credentials are named by their protocol. *)
Record DatabaseBuilder := mkBuilder {
  evt : option E;
  clock : option C;
  creds : option string;
  meshBuilder : Mesh.Config;
  walPath : string;
  snpPath : string;
  walInterval : Z;
  snpInterval : Z;
  walSegments : Z;
  gossipInterval : Z;
  walBufferSize : Z;
  disableWal : bool;
  disableSnapshot : bool
}.

Implicit Types (b : DatabaseBuilder).

Definition NewDatabaseBuilder : DatabaseBuilder :=
  mkBuilder None None None Mesh.NewConfigBuilder EmptyString EmptyString 0 0 0 0 0 false false.

Definition withMesh b (c : Mesh.Config) : DatabaseBuilder :=
  mkBuilder (evt b) (clock b) (creds b) c (walPath b) (snpPath b) (walInterval b) (snpInterval b) (walSegments b)
    (gossipInterval b) (walBufferSize b) (disableWal b) (disableSnapshot b).

(** [lru] and [clk]: the evictor and the clock that [Default] makes; [id]: the hash of random
    bytes; the two ports that are free. *)
Definition Default (lru : E) (clk : C) (id : string) (gossipPort grpcPort : Z) b : DatabaseBuilder :=
  let c := Mesh.SetNodeID id Mesh.NewConfigBuilder in
  let c := Mesh.SetBindAddr "127.0.0.1" c in
  let c := Mesh.SetBindPort gossipPort c in
  let c := Mesh.SetGrpcPort grpcPort c in
  let c := Mesh.SetReplicationFactor 3 c in
  let c := Mesh.SetReplicationFailureMode Mesh.Strict c in
  mkBuilder (Some lru) (Some clk) (creds b) c "data/wal" "data/snapshot.bin" (500 * Mesh.millisecond) (5 * minute) 16
    (10 * second) (64 * 1024) (disableWal b) (disableSnapshot b).

Definition DisableWal (d : bool) b : DatabaseBuilder :=
  mkBuilder (evt b) (clock b) (creds b) (meshBuilder b) (walPath b) (snpPath b) (walInterval b) (snpInterval b)
    (walSegments b) (gossipInterval b) (walBufferSize b) d (disableSnapshot b).
Definition DisableSnapshot (d : bool) b : DatabaseBuilder :=
  mkBuilder (evt b) (clock b) (creds b) (meshBuilder b) (walPath b) (snpPath b) (walInterval b) (snpInterval b)
    (walSegments b) (gossipInterval b) (walBufferSize b) (disableWal b) d.
Definition VolatileMode b : DatabaseBuilder :=
  mkBuilder (evt b) (clock b) (creds b) (meshBuilder b) "nop" "nop" (walInterval b) (snpInterval b)
    (walSegments b) (gossipInterval b) (walBufferSize b) true true.
Definition SetWalPath (path : string) b : DatabaseBuilder :=
  mkBuilder (evt b) (clock b) (creds b) (meshBuilder b) path (snpPath b) (walInterval b) (snpInterval b)
    (walSegments b) (gossipInterval b) (walBufferSize b) (disableWal b) (disableSnapshot b).
Definition SetSnpPath (path : string) b : DatabaseBuilder :=
  mkBuilder (evt b) (clock b) (creds b) (meshBuilder b) (walPath b) path (walInterval b) (snpInterval b)
    (walSegments b) (gossipInterval b) (walBufferSize b) (disableWal b) (disableSnapshot b).
Definition SetSnpInterval (interval : Z) b : DatabaseBuilder :=
  mkBuilder (evt b) (clock b) (creds b) (meshBuilder b) (walPath b) (snpPath b) (walInterval b) interval
    (walSegments b) (gossipInterval b) (walBufferSize b) (disableWal b) (disableSnapshot b).
Definition SetWalInterval (interval : Z) b : DatabaseBuilder :=
  mkBuilder (evt b) (clock b) (creds b) (meshBuilder b) (walPath b) (snpPath b) interval (snpInterval b)
    (walSegments b) (gossipInterval b) (walBufferSize b) (disableWal b) (disableSnapshot b).
Definition SetWalBufferSize (size : Z) b : DatabaseBuilder :=
  mkBuilder (evt b) (clock b) (creds b) (meshBuilder b) (walPath b) (snpPath b) (walInterval b) (snpInterval b)
    (walSegments b) (gossipInterval b) size (disableWal b) (disableSnapshot b).
Definition SetWalSegments (count : Z) b : DatabaseBuilder :=
  mkBuilder (evt b) (clock b) (creds b) (meshBuilder b) (walPath b) (snpPath b) (walInterval b) (snpInterval b)
    count (gossipInterval b) (walBufferSize b) (disableWal b) (disableSnapshot b).
Definition SetEvictor (e : option E) b : DatabaseBuilder :=
  mkBuilder e (clock b) (creds b) (meshBuilder b) (walPath b) (snpPath b) (walInterval b) (snpInterval b)
    (walSegments b) (gossipInterval b) (walBufferSize b) (disableWal b) (disableSnapshot b).
Definition SetClock (c : option C) b : DatabaseBuilder :=
  mkBuilder (evt b) c (creds b) (meshBuilder b) (walPath b) (snpPath b) (walInterval b) (snpInterval b)
    (walSegments b) (gossipInterval b) (walBufferSize b) (disableWal b) (disableSnapshot b).
Definition SetCluster (c : Mesh.Config) b : DatabaseBuilder := withMesh b c.
Definition SetNodeID (id : string) b : DatabaseBuilder := withMesh b (Mesh.SetNodeID id (meshBuilder b)).
Definition SetReplicationFactor (n : Z) b : DatabaseBuilder := withMesh b (Mesh.SetReplicationFactor n (meshBuilder b)).
Definition SetReplicationFailureMode (m : string) b : DatabaseBuilder :=
  withMesh b (Mesh.SetReplicationFailureMode m (meshBuilder b)).
Definition SetBindAddr (addr : string) b : DatabaseBuilder := withMesh b (Mesh.SetBindAddr addr (meshBuilder b)).
Definition SetBindPort (port : Z) b : DatabaseBuilder := withMesh b (Mesh.SetBindPort port (meshBuilder b)).
Definition SetAdvertiseAddr (addr : string) b : DatabaseBuilder := withMesh b (Mesh.SetAdvertiseAddr addr (meshBuilder b)).
Definition SetSeedNodes (seeds : list string) b : DatabaseBuilder := withMesh b (Mesh.SetSeedNodes seeds (meshBuilder b)).
Definition SetGrpcPort (port : Z) b : DatabaseBuilder := withMesh b (Mesh.SetGrpcPort port (meshBuilder b)).
Definition SingleNode b : DatabaseBuilder := withMesh b (Mesh.setSingleNode true (meshBuilder b)).
Definition FastTest b : DatabaseBuilder := withMesh b (Mesh.EnableFastTest (meshBuilder b)).
Definition SetGossipInterval (interval : Z) b : DatabaseBuilder :=
  mkBuilder (evt b) (clock b) (creds b) (meshBuilder b) (walPath b) (snpPath b) (walInterval b) (snpInterval b)
    (walSegments b) interval (walBufferSize b) (disableWal b) (disableSnapshot b).
Definition SetCreds (c : option string) b : DatabaseBuilder :=
  mkBuilder (evt b) (clock b) c (meshBuilder b) (walPath b) (snpPath b) (walInterval b) (snpInterval b)
    (walSegments b) (gossipInterval b) (walBufferSize b) (disableWal b) (disableSnapshot b).
Definition SetInsecure b : DatabaseBuilder := SetCreds (Some "insecure"%string) b.

(** ** Build *)

Definition credsRequired : string :=
  "transport credentials are required; use Setcreds(creds) or SetInsecure() for development".

(** The checks of [Build], in order; [Some] is the error of the first that fails. *)
Definition check b : option string :=
  if bool_decide (walPath b = EmptyString) then Some "required eb.walPath is unset; configure eb.walPath with SetWalPath(path string)"%string
  else if bool_decide (snpPath b = EmptyString) then Some "required eb.snpPath is unset; configure eb.snpPath with SetSnpPath(path string)"%string
  else if walInterval b =? 0 then Some "required eb.walInterval is unset; configure eb.walInterval with SetWalInterval(interval time.Duration)"%string
  else if snpInterval b =? 0 then Some "required eb.snpInterval is unset; configure eb.snpInterval with SetSnpInterval(interval time.Duration)"%string
  else if bool_decide (creds b = None) then Some credsRequired
  else if walBufferSize b =? 0 then Some "required eb.walBufferSize is unset; configure eb.walBufferSize with SetWalBufferSize(size uint32)"%string
  else if walSegments b =? 0 then Some "required eb.walSegments is unset; configure eb.walSegments with SetWalSegments(count int)"%string
  else match clock b with
       | None => Some "required eb.clock is unset; configure eb.clock with SetClock(clock clock.Clocker)"%string
       | Some _ =>
           let c := meshBuilder b in
           if bool_decide (Mesh.BindAddr c = EmptyString) then Some "required BindAddr is unset; configure it via SetBindAddr(addr string)"%string
           else if Mesh.SingleNode c then None
           else if gossipInterval b =? 0 then Some "required eb.gossipInterval is unset for distributed mode; configure it via SetGossipInterval"%string
           else if bool_decide (Mesh.ReplicationFailureMode c = EmptyString)
           then Some "required ReplicationFailureMode is unset for distributed mode; configure it via SetReplicationFailureMode"%string
           else None
       end.

(** A database behind the [Database] interface. *)
Inductive database :=
| Single (s : singleNodeAdapter W C E)
| Clustered (n : Cluster.Node W C E M).

(** [eng]: what [core.NewEngine] returns; [msh]: what [mesh.NewMesh] returns for the
    configuration.  Their errors are returned. *)
Definition newDatabase (c : Mesh.Config) (ival : Z) (eng : result (engine W C E)) (msh : result M) : result database :=
  match eng with
  | Err e => Err e
  | Ok e =>
      if Mesh.SingleNode c then Ok (Single (mkSingle e c))
      else match Cluster.NewNode e c ival msh with Err err => Err err | Ok n => Ok (Clustered n) end
  end.

Definition Build b (eng : result (engine W C E)) (msh : result M) : result database :=
  match check b with
  | Some msg => Err (ErrMsg msg)
  | None => newDatabase (meshBuilder b) (gossipInterval b) eng msh
  end.

Definition NewDefaultDatabase (lru : E) (clk : C) (id : string) (gossipPort grpcPort : Z) (wal snp : string)
    (eng : result (engine W C E)) (msh : result M) : result database :=
  Build (SetSnpPath snp (SetWalPath wal (Default lru clk id gossipPort grpcPort NewDatabaseBuilder))) eng msh.

(** ** The interface of the result *)

Definition dbAddr (d : database) : option string :=
  match d with Single s => sn_Addr s | Clustered n => Cluster.Addr n end.
Definition dbGossipAddr (d : database) (actual : Z) : option string :=
  match d with Single s => sn_GossipAddr s | Clustered n => Cluster.GossipAddr n actual end.
Definition dbNodeID (d : database) : string :=
  match d with Single s => sn_NodeID s | Clustered n => Cluster.NodeID n end.

(** ** Theorems *)

(** Everything [Build] asks for. *)
Definition complete b : Prop :=
  let c := meshBuilder b in
  walPath b <> EmptyString /\ snpPath b <> EmptyString /\ walInterval b <> 0 /\ snpInterval b <> 0 /\
  is_Some (creds b) /\ walBufferSize b <> 0 /\ walSegments b <> 0 /\ is_Some (clock b) /\
  Mesh.BindAddr c <> EmptyString /\
  (Mesh.SingleNode c = true \/ gossipInterval b <> 0 /\ Mesh.ReplicationFailureMode c <> EmptyString).

Lemma check_complete b : check b = None <-> complete b.
Proof.
  unfold check, complete.
  assert (forall z, (z =? 0) = bool_decide (z = 0)) as Hz by (intros z; case_bool_decide; lia).
  rewrite !Hz. destruct (creds b) as [cr|]; [|split; [repeat case_bool_decide; done|intros (_ & _ & _ & _ & [? ?] & _); done]].
  rewrite (bool_decide_false (Some cr = None)) by done.
  destruct (clock b) as [ck|]; [|split; [repeat case_bool_decide; done|intros (_ & _ & _ & _ & _ & _ & _ & [? ?] & _); done]].
  destruct (Mesh.SingleNode (meshBuilder b)); repeat case_bool_decide; split; try done; naive_solver.
Qed.

Lemma build_ok b eng msh :
  is_ok (Build b eng msh) = true <->
  complete b /\ is_ok eng = true /\ (Mesh.SingleNode (meshBuilder b) = true \/ is_ok msh = true).
Proof.
  unfold Build. rewrite <- check_complete. destruct (check b) as [msg|]; [split; [done|by intros (? & _)]|].
  unfold newDatabase. destruct eng as [e|err]; [|split; [done|by intros (_ & ? & _)]].
  destruct (Mesh.SingleNode (meshBuilder b)); [split; [|done]; intros _; repeat split; by left|].
  unfold Cluster.NewNode. destruct msh as [m|err]; split; try done.
  - intros _. repeat split. by right.
  - by intros (_ & _ & [?|?]).
Qed.

(** What [Build] returns keeps the configured identity and addresses. *)
Lemma build_addr b eng msh d :
  Build b eng msh = Ok d ->
  dbNodeID d = Mesh.NodeID (meshBuilder b) /\
  dbAddr d = Some (Mesh.hostPort (Mesh.BindAddr (meshBuilder b)) (Mesh.GrpcPort (meshBuilder b))) /\
  forall actual, dbGossipAddr d actual <> None.
Proof.
  unfold Build. destruct (check b) as [msg|] eqn:Ec; [done|].
  apply check_complete in Ec as (_ & _ & _ & _ & _ & _ & _ & _ & Haddr & _). unfold newDatabase, Cluster.NewNode.
  destruct eng as [e|err]; [|done]. destruct (Mesh.SingleNode (meshBuilder b)); [|destruct msh as [m|err]; [|done]];
    intros [= <-]; (split; [done|]); cbn; unfold sn_Addr, sn_GossipAddr, Cluster.Addr, Cluster.GossipAddr; cbn;
    by rewrite bool_decide_false.
Qed.

(** [Build] succeeds exactly when everything it requires is set, the engine can be made
    and, for a cluster node, the mesh can; and the addresses of what it returns, which panic
    without a bind address, are then always there, as is the configured identity. *)
Theorem build_complete b eng msh :
  (is_ok (Build b eng msh) = true <->
     complete b /\ is_ok eng = true /\ (Mesh.SingleNode (meshBuilder b) = true \/ is_ok msh = true)) /\
  forall d, Build b eng msh = Ok d ->
    dbNodeID d = Mesh.NodeID (meshBuilder b) /\ dbAddr d <> None /\ forall actual, dbGossipAddr d actual <> None.
Proof.
  split; [apply build_ok|]. intros d Hb. by destruct (build_addr _ _ _ _ Hb) as (? & -> & ?).
Qed.

(** The convenience constructor never works: [Default] leaves the credentials unset, so
    [NewDefaultDatabase] returns the error about them whatever its arguments, as long as the
    paths are not empty. *)
Theorem default_database_never_builds lru clk id p1 p2 wal snp eng msh :
  wal <> EmptyString -> snp <> EmptyString ->
  NewDefaultDatabase lru clk id p1 p2 wal snp eng msh = Err (ErrMsg credsRequired).
Proof.
  intros Hw Hs. unfold NewDefaultDatabase, Build, check. cbn. by rewrite !bool_decide_false.
Qed.

(** An unknown failure mode is accepted and then fails every replicated write: [Build]
    takes a distributed configuration with any non-empty mode, and on the node it returns, at
    any later time, no [Set] of a key with several owners can succeed. *)
Theorem unknown_mode_never_writes b mode e m :
  complete b -> Mesh.SingleNode (meshBuilder b) = false -> mode ∉ [EmptyString; Mesh.Strict; Mesh.Lenient] ->
  exists n, Build (SetReplicationFailureMode mode b) (Ok e) (Ok m) = Ok (Clustered n) /\
    forall net cl self n' key value order owners r cl', cl !! self = Some n' ->
      Cluster.meshConfig n' = Cluster.meshConfig n ->
      Mesh.mesh_GetOwners (Cluster.mesh n') key (Cluster.getReplicationFactor n') = Some owners ->
      (2 <= length owners)%nat -> Cluster.nodeSet net cl self key value order = Some (r, cl') -> r <> Ok tt.
Proof.
  intros Hc Hs Hmode. rewrite !not_elem_of_cons in Hmode. destruct Hmode as (Hm0 & Hm1 & Hm2 & _).
  assert (complete (SetReplicationFailureMode mode b)) as Hc' by (unfold complete in *; cbn; naive_solver).
  unfold Build. rewrite (proj2 (check_complete _) Hc'). unfold newDatabase. cbn. rewrite Hs.
  eexists. split; [reflexivity|]. cbn. intros net cl self n' key value order owners r cl' Hn' Hcfg Hown Hlen.
  unfold Cluster.nodeSet. rewrite Hn'. ored. rewrite Hcfg. cbn. rewrite Hs.
  destruct (clk_Now _) as [[ts c]|]; [|done]. unfold Cluster.gwSet. rewrite lookup_insert_eq. ored.
  unfold Cluster.getReplicationFactor in *. cbn in *. rewrite Hown. ored.
  destruct owners as [|o1 [|o2 os]]; cbn in Hlen; [lia..|]. unfold Cluster.replicate_.
  destruct (Cluster.applyReplicas _ _ _ _ _) as [[errs cl1]|]; [|done]. intros [= <- _].
  unfold Cluster.verdict. rewrite Hcfg. cbn. by rewrite !bool_decide_false.
Qed.

End Builder.

(** ** Examples *)

Module BuilderExamples.
Import Fnv GmapRadix EngineExamples.
#[local] Existing Instance EntropyExamples.full_mesher.

Definition some_builder : DatabaseBuilder (C := timedClock) (E := node_evictor) :=
  SetInsecure (Default some_lru (some_clock 5) "n1" 7946 50051 NewDatabaseBuilder).

Lemma unknown_mode_never_writes_witness :
  exists n, Build (SetReplicationFailureMode "quorum" some_builder) (Ok some_engine) (Ok EntropyExamples.both) =
    Ok (Clustered n).
Proof.
  destruct (unknown_mode_never_writes some_builder "quorum" some_engine EntropyExamples.both) as (n & Hn & _).
  - apply check_complete. vm_compute. reflexivity.
  - reflexivity.
  - apply (bool_decide_eq_true_1 _). vm_compute. reflexivity.
  - exists n. exact Hn.
Defined.

Lemma default_database_never_builds_witness :
  NewDefaultDatabase (M := EntropyExamples.fullMesh) some_lru (some_clock 5) "n1" 7946 50051 "wal" "snap" (Ok some_engine)
    (Ok EntropyExamples.both) = Err (ErrMsg credsRequired).
Proof. apply default_database_never_builds; discriminate. Defined.

End BuilderExamples.
End Builder.
