(* ===== verification/GoLib.v ===== *)
(** * Go's standard library, as far as the command line and the test cluster use it

    [strings.Split] by one byte, [filepath.Join] on slashes, [utf8.ValidString] and
    [time.ParseDuration].  The durations follow the library:
    digits are accumulated in a [uint64] with its overflow checks, units are looked up, and the
    sum must fit an [int64].  The digits after a decimal point go through [float64] arithmetic,
    which is the argument [frac]: it is called only when they are not all zero. *)

From S2P Require Import Prelude.

#[local] Open Scope Z_scope.

Module GoLib.

(** ** strings.Split *)

(** [strings.Split(s, sep)] for a separator of one byte: never empty. *)
Fixpoint splitBytes (sep : ascii) (s : bytes) : list bytes :=
  match s with
  | [] => [[]]
  | c :: s' =>
      let rest := splitBytes sep s' in
      if bool_decide (c = sep) then [] :: rest
      else match rest with w :: ws => (c :: w) :: ws | [] => [[c]] end
  end.

Definition Split (s : string) (sep : ascii) : list string := bytes_string <$> splitBytes sep (string_bytes s).

(** [strings.Join(ws, sep)]. *)
Fixpoint joinBytes (sep : ascii) (ws : list bytes) : bytes :=
  match ws with
  | [] => []
  | [w] => w
  | w :: ws' => w ++ sep :: joinBytes sep ws'
  end.

Definition Join (ws : list string) (sep : ascii) : string := bytes_string (joinBytes sep (string_bytes <$> ws)).

(** ** utf8.ValidString *)

Definition between (lo hi : Z) (c : ascii) : bool := (lo <=? byte_val c) && (byte_val c <=? hi).

(** A continuation byte. *)
Definition cont : ascii -> bool := between 128 191.

(** Well-formed UTF-8: no overlong forms, no surrogates, nothing above U+10FFFF. *)
Fixpoint validUTF8 (s : bytes) : bool :=
  match s with
  | [] => true
  | a :: s1 =>
      if between 0 127 a then validUTF8 s1
      else match s1 with
      | [] => false
      | b :: s2 =>
          if between 194 223 a && cont b then validUTF8 s2
          else match s2 with
          | [] => false
          | c :: s3 =>
              if (if between 224 224 a then between 160 191 b else if between 237 237 a then between 128 159 b
                  else between 225 239 a && cont b) && cont c then validUTF8 s3
              else match s3 with
              | [] => false
              | d :: s4 =>
                  if (if between 240 240 a then between 144 191 b else if between 244 244 a then between 128 143 b
                      else between 241 243 a && cont b) && cont c && cont d then validUTF8 s4
                  else false
              end
          end
      end
  end.

Definition ValidString (s : string) : bool := validUTF8 (string_bytes s).

(** "é" and "€" are valid; a lone lead byte, an overlong slash and a surrogate are not. *)
Example utf8_examples :
  validUTF8 <$> (fmap (M := list) (fun z => ascii_of_N (Z.to_N z)) <$>
    [[195; 169]; [226; 130; 172]; [195]; [192; 175]; [237; 160; 128]]) = [true; true; false; false; false].
Proof. vm_compute. reflexivity. Qed.

(** ** filepath.Join *)

Definition slash : ascii := "/".
Definition dotdot : bytes := string_bytes "..".

(** The elements of a path that [filepath.Clean] keeps, the last one first. *)
Fixpoint cleanLoop (rooted : bool) (ws : list bytes) (kept : list bytes) : list bytes :=
  match ws with
  | [] => kept
  | w :: ws' =>
      if bool_decide (w = [] \/ w = string_bytes ".") then cleanLoop rooted ws' kept
      else if bool_decide (w = dotdot) then
        match kept with
        | k :: kept' => if bool_decide (k = dotdot) then cleanLoop rooted ws' (w :: kept) else cleanLoop rooted ws' kept'
        | [] => if rooted then cleanLoop rooted ws' [] else cleanLoop rooted ws' [w]
        end
      else cleanLoop rooted ws' (w :: kept)
  end.

Definition Clean (path : bytes) : bytes :=
  let rooted := match path with c :: _ => bool_decide (c = slash) | [] => false end in
  let body := joinBytes slash (rev (cleanLoop rooted (splitBytes slash path) [])) in
  if rooted then slash :: body else match body with [] => string_bytes "." | _ => body end.

(** Empty elements are dropped; nothing is left of no elements. *)
Definition FilepathJoin (elems : list string) : string :=
  match filter (fun e => e <> EmptyString) elems with
  | [] => EmptyString
  | es => bytes_string (Clean (joinBytes slash (string_bytes <$> es)))
  end.

(** ** time.ParseDuration *)

Definition isDigit (c : ascii) : bool := (48 <=? byte_val c) && (byte_val c <=? 57).
Definition isDot (c : ascii) : bool := byte_val c =? 46.

(** [leadingInt]: [None] is its overflow error. *)
Fixpoint leadingInt (x : Z) (s : bytes) : option (Z * bytes) :=
  match s with
  | [] => Some (x, [])
  | c :: s' =>
      if negb (isDigit c) then Some (x, s)
      else if 2 ^ 63 / 10 <? x then None
      else let x := x * 10 + (byte_val c - 48) in
           if 2 ^ 63 <? x then None else leadingInt x s'
  end.

(** [leadingFraction]: the digits kept, how many, and the rest. *)
Fixpoint leadingFraction (x k : Z) (overflow : bool) (s : bytes) : Z * Z * bytes :=
  match s with
  | [] => (x, k, [])
  | c :: s' =>
      if negb (isDigit c) then (x, k, s)
      else if overflow then leadingFraction x k true s'
      else if MaxInt64 / 10 <? x then leadingFraction x k true s'
      else let y := x * 10 + (byte_val c - 48) in
           if 2 ^ 63 <? y then leadingFraction x k true s' else leadingFraction y (k + 1) false s'
  end.

(** The unit: what precedes the next digit or point. *)
Fixpoint takeUnit (s : bytes) : bytes * bytes :=
  match s with
  | [] => ([], [])
  | c :: s' => if isDot c || isDigit c then ([], s) else let '(u, r) := takeUnit s' in (c :: u, r)
  end.

(** Nanoseconds of a unit; the micro sign and the letter mu are two bytes each. *)
Definition unitMap (u : bytes) : option Z :=
  if bool_decide (u = string_bytes "ns") then Some 1
  else if bool_decide (u ∈ [string_bytes "us"; [byte_of 194; byte_of 181; byte_of 115]; [byte_of 206; byte_of 188; byte_of 115]])
  then Some 1000
  else if bool_decide (u = string_bytes "ms") then Some 1000000
  else if bool_decide (u = string_bytes "s") then Some 1000000000
  else if bool_decide (u = string_bytes "m") then Some 60000000000
  else if bool_decide (u = string_bytes "h") then Some 3600000000000
  else None.

Section Duration.
(** [frac f k unit]: [uint64(float64(f) * (float64(unit) / 10^k))]. *)
Variable frac : Z -> Z -> Z -> Z.

(** One number with its unit: its nanoseconds and the rest. *)
Definition parseTerm (s : bytes) : option (Z * bytes) :=
  match leadingInt 0 s with
  | None => None
  | Some (v, s1) =>
      let pre := negb (length s1 =? length s)%nat in
      let '(f, k, s2, post) :=
        match s1 with
        | c :: s1' =>
            if isDot c then let '(f, k, s2) := leadingFraction 0 0 false s1' in (f, k, s2, negb (length s2 =? length s1')%nat)
            else (0, 0, s1, false)
        | [] => (0, 0, s1, false)
        end in
      if negb pre && negb post then None
      else match takeUnit s2 with
           | ([], _) => None
           | (u, s3) =>
               match unitMap u with
               | None => None
               | Some unit =>
                   if 2 ^ 63 / unit <? v then None
                   else let v := v * unit in
                        if 0 <? f then
                          let v := u64 (v + frac f k unit) in
                          if 2 ^ 63 <? v then None else Some (v, s3)
                        else Some (v, s3)
               end
           end
  end.

(** Every term takes at least one byte: the length of the text is enough fuel. *)
Fixpoint parseTerms (fuel : nat) (d : Z) (s : bytes) : option Z :=
  match s, fuel with
  | [], _ => Some d
  | _, O => None
  | c :: _, S fuel' =>
      if negb (isDot c || isDigit c) then None
      else match parseTerm s with
           | None => None
           | Some (v, s') => let d := d + v in if 2 ^ 63 <? d then None else parseTerms fuel' d s'
           end
  end.

Definition invalidDuration : goerr := ErrMsg "time: invalid duration".

Definition ParseDuration (text : string) : result Z :=
  let s := string_bytes text in
  let '(neg, s) :=
    match s with
    | c :: s' => if byte_val c =? 45 then (true, s') else if byte_val c =? 43 then (false, s') else (false, s)
    | [] => (false, s)
    end in
  if bool_decide (s = string_bytes "0") then Ok 0
  else if bool_decide (s = []) then Err invalidDuration
  else match parseTerms (length s) 0 s with
       | None => Err invalidDuration
       | Some d => if neg then Ok (- d) else if MaxInt64 <? d then Err invalidDuration else Ok d
       end.

End Duration.

(** ** Lemmas *)

Lemma splitBytes_nonempty sep s : splitBytes sep s <> [].
Proof. destruct s as [|c s]; cbn; [done|]. case_bool_decide; [done|]. by destruct (splitBytes sep s). Qed.

Lemma join_split_bytes sep s : joinBytes sep (splitBytes sep s) = s.
Proof.
  induction s as [|c s IH]; cbn [splitBytes]; [done|]. pose proof (splitBytes_nonempty sep s) as Hne.
  destruct (splitBytes sep s) as [|w ws]; [done|]. case_bool_decide as Hc.
  - cbn in *. by rewrite IH, Hc.
  - destruct ws as [|w' ws']; cbn in *; by rewrite IH.
Qed.

Lemma split_join_bytes sep ws :
  ws <> [] -> Forall (fun w => sep ∉ w) ws -> splitBytes sep (joinBytes sep ws) = ws.
Proof.
  assert (forall w rest r rs, sep ∉ w -> splitBytes sep rest = r :: rs -> splitBytes sep (w ++ rest) = (w ++ r) :: rs)
    as Hword.
  { intros w rest r rs. induction w as [|c w IH]; intros Hw Hr; [done|]. cbn. apply not_elem_of_cons in Hw as [Hc Hw].
    by rewrite bool_decide_false, IH. }
  intros Hne Hall. induction ws as [|w ws IH]; [done|]. apply Forall_cons in Hall as [Hw Hws].
  destruct ws as [|w' ws'].
  - cbn. rewrite <- (app_nil_r w) at 1. rewrite (Hword w [] [] []); [by rewrite app_nil_r|done|done].
  - change (joinBytes sep (w :: w' :: ws')) with (w ++ sep :: joinBytes sep (w' :: ws')).
    rewrite (Hword w _ [] (w' :: ws')); [by rewrite app_nil_r|done|]. cbn [splitBytes].
    by rewrite bool_decide_true, IH.
Qed.

Lemma fmap_cancel {A B} (f : B -> A) (g : A -> B) (l : list A) : (forall x, f (g x) = x) -> f <$> (g <$> l) = l.
Proof. intros Hfg. induction l as [|x l IH]; cbn; [done|]. by rewrite Hfg, IH. Qed.

Lemma join_split s sep : Join (Split s sep) sep = s.
Proof.
  unfold Join, Split. rewrite fmap_cancel by apply string_bytes_string. by rewrite join_split_bytes, bytes_string_bytes.
Qed.

Lemma split_join ws sep :
  ws <> [] -> Forall (fun w => sep ∉ string_bytes w) ws -> Split (Join ws sep) sep = ws.
Proof.
  intros Hne Hall. unfold Join, Split. rewrite string_bytes_string, split_join_bytes.
  - apply fmap_cancel, bytes_string_bytes.
  - by destruct ws.
  - by apply Forall_fmap.
Qed.

(** A term of [parseTerms] shortens the text, so the length of the text is enough fuel. *)
Lemma leadingInt_length x s x' s' : leadingInt x s = Some (x', s') -> (length s' <= length s)%nat.
Proof.
  revert x. induction s as [|c s IH]; intros x; cbn; [by intros [= _ <-]|].
  destruct (negb (isDigit c)); [by intros [= _ <-]|]. destruct (2 ^ 63 / 10 <? x); [done|].
  destruct (2 ^ 63 <? _); [done|]. intros H%IH. lia.
Qed.

Lemma leadingFraction_length x k o s x' k' s' : leadingFraction x k o s = (x', k', s') -> (length s' <= length s)%nat.
Proof.
  revert x k o. induction s as [|c s IH]; intros x k o; cbn; [by intros [= _ _ <-]|].
  repeat case_match; intros He; first [apply IH in He; cbn; lia | injection He as _ _ <-; cbn; lia].
Qed.

Lemma takeUnit_length s u s' : takeUnit s = (u, s') -> (length u + length s' = length s)%nat.
Proof.
  revert u. induction s as [|c s IH]; intros u; cbn; [by intros [= <- <-]|].
  destruct (isDot c || isDigit c); [by intros [= <- <-]|]. destruct (takeUnit s) as [w r] eqn:Ew.
  intros [= <- <-]. cbn. by rewrite (IH w).
Qed.

Lemma parseTerm_length frac s v s' : parseTerm frac s = Some (v, s') -> (length s' < length s)%nat.
Proof.
  unfold parseTerm. destruct (leadingInt 0 s) as [[x s1]|] eqn:Ei; [|done]. apply leadingInt_length in Ei.
  match goal with |- (match ?e with _ => _ end) = _ -> _ => destruct e as [[[f k] s2] post] eqn:Ef end.
  assert (length s2 <= length s1)%nat as Hs2.
  { destruct s1 as [|c s1]; [by injection Ef as _ _ <- _|]. destruct (isDot c); [|by injection Ef as _ _ <- _].
    destruct (leadingFraction 0 0 false s1) as [[f' k'] s2'] eqn:El. injection Ef as _ _ <- _.
    apply leadingFraction_length in El. cbn. lia. }
  destruct (_ && _); [done|]. destruct (takeUnit s2) as [[|c u] s3] eqn:Eu; [done|]. apply takeUnit_length in Eu. cbn in Eu.
  destruct (unitMap _) as [unit|]; [|done]. repeat case_match; try done; intros [= _ <-]; lia.
Qed.

Lemma parseTerms_fuel frac n m d s :
  (length s <= n)%nat -> (length s <= m)%nat -> parseTerms frac n d s = parseTerms frac m d s.
Proof.
  revert m d s. induction n as [|n IH]; intros m d s Hn Hm.
  { destruct s; [|cbn in Hn; lia]. by destruct m. }
  destruct s as [|c s]; [by destruct m|]. destruct m as [|m]; [cbn in Hm; lia|]. cbn -[parseTerm].
  destruct (negb _); [done|]. destruct (parseTerm frac (c :: s)) as [[v s']|] eqn:Et; [|done].
  apply parseTerm_length in Et. destruct (2 ^ 63 <? d + v); [done|]. apply IH; cbn in *; lia.
Qed.

(** Paths of the form dir/name/leaf. *)
Definition plain (w : bytes) : Prop := slash ∉ w /\ w <> [] /\ w <> string_bytes "." /\ w <> dotdot.

Lemma splitBytes_app sep a b : splitBytes sep (a ++ sep :: b) = splitBytes sep a ++ splitBytes sep b.
Proof.
  induction a as [|c a IH]; cbn; [by rewrite bool_decide_true|]. rewrite IH. case_bool_decide; [done|].
  pose proof (splitBytes_nonempty sep a). by destruct (splitBytes sep a).
Qed.

Lemma splitBytes_free sep s : Forall (fun w => sep ∉ w) (splitBytes sep s).
Proof.
  induction s as [|c s IH]; cbn; [repeat constructor; set_solver|]. case_bool_decide as Hc; [constructor; [set_solver|done]|].
  destruct (splitBytes sep s) as [|w ws]; [repeat constructor; set_solver|]. apply Forall_cons in IH as [Hw Hws].
  constructor; [|done]. apply not_elem_of_cons. by split; [intros ->|].
Qed.

Lemma splitBytes_word sep w : sep ∉ w -> splitBytes sep w = [w].
Proof.
  induction w as [|c w IH]; [done|]. intros [Hc Hw]%not_elem_of_cons. cbn. rewrite IH by done. by rewrite bool_decide_false.
Qed.

Lemma cleanLoop_app r ws1 ws2 k : cleanLoop r (ws1 ++ ws2) k = cleanLoop r ws2 (cleanLoop r ws1 k).
Proof.
  revert k. induction ws1 as [|w ws1 IH]; intros k; [done|]. cbn. repeat case_bool_decide; [apply IH| |apply IH].
  destruct k as [|x k]; [by destruct r|]. by case_bool_decide.
Qed.

Lemma cleanLoop_plain r w ws k : plain w -> cleanLoop r (w :: ws) k = cleanLoop r ws (w :: k).
Proof. intros (_ & H1 & H2 & H3). cbn. rewrite bool_decide_false by naive_solver. by rewrite bool_decide_false. Qed.

Lemma cleanLoop_free r ws k :
  Forall (fun w => slash ∉ w) ws -> Forall (fun w => slash ∉ w) k -> Forall (fun w => slash ∉ w) (cleanLoop r ws k).
Proof.
  revert k. induction ws as [|w ws IH]; intros k Hws Hk; [done|]. apply Forall_cons in Hws as [Hw Hws]. cbn.
  repeat case_bool_decide; [by apply IH| |by apply IH; [|constructor]].
  destruct k as [|x k]; [destruct r; apply IH; auto|]. apply Forall_cons in Hk as [Hx Hk].
  case_bool_decide; apply IH; auto.
Qed.

(** What stands before the name depends on the directory alone. *)
Lemma join_plain dir : dir <> EmptyString ->
  exists (r : bool) base, Forall (fun w => slash ∉ w) base /\
    forall name leaf, plain (string_bytes name) -> plain (string_bytes leaf) ->
      FilepathJoin [dir; name; leaf] =
        bytes_string ((if r then [slash] else []) ++ joinBytes slash (base ++ [string_bytes name; string_bytes leaf])).
Proof.
  intros Hd. destruct (string_bytes dir) as [|c d] eqn:Ed.
  { exfalso. apply Hd, string_bytes_inj. by rewrite Ed. }
  exists (bool_decide (c = slash)), (rev (cleanLoop (bool_decide (c = slash)) (splitBytes slash (c :: d)) [])). split.
  { apply Forall_rev, cleanLoop_free; [apply splitBytes_free|constructor]. }
  intros name leaf Hn Hl.
  assert (name <> EmptyString) as Hn0 by (intros ->; by destruct Hn as (_ & ? & _)).
  assert (leaf <> EmptyString) as Hl0 by (intros ->; by destruct Hl as (_ & ? & _)).
  unfold FilepathJoin. rewrite !filter_cons_True, filter_nil by done. cbn [fmap list_fmap joinBytes].
  rewrite Ed. f_equal. unfold Clean. cbn [app]. rewrite (app_comm_cons d _ c), splitBytes_app, splitBytes_app.
  rewrite (splitBytes_word _ (string_bytes name)), (splitBytes_word _ (string_bytes leaf)) by (by destruct Hn, Hl).
  rewrite cleanLoop_app. cbn [app]. rewrite !cleanLoop_plain by done. cbn [cleanLoop rev]. rewrite <- app_assoc. cbn [app].
  case_bool_decide; [done|]. cbn [app].
  destruct (joinBytes slash _) eqn:Ej; [|done]. exfalso.
  apply (f_equal (splitBytes slash)) in Ej. rewrite split_join_bytes in Ej; [|by destruct (rev _)|].
  - apply (f_equal length) in Ej. rewrite length_app in Ej. cbn in Ej. lia.
  - apply Forall_app. split; [apply Forall_rev, cleanLoop_free; [apply splitBytes_free|constructor]|].
    destruct Hn as [Hn _], Hl as [Hl _]. by repeat constructor.
Qed.

Lemma join_plain_inj dir n1 n2 leaf :
  dir <> EmptyString -> plain (string_bytes n1) -> plain (string_bytes n2) -> plain (string_bytes leaf) ->
  FilepathJoin [dir; n1; leaf] = FilepathJoin [dir; n2; leaf] -> n1 = n2.
Proof.
  intros Hd H1 H2 Hl. destruct (join_plain dir Hd) as (r & base & Hbase & Hj). rewrite !Hj by done.
  intros He%(f_equal string_bytes). rewrite !string_bytes_string in He. apply (inj (app _)) in He.
  apply (f_equal (splitBytes slash)) in He. rewrite !split_join_bytes in He; try (by destruct base).
  - apply (inj (app base)) in He. injection He. by intros ->%string_bytes_inj.
  - apply Forall_app. split; [done|]. destruct H2, Hl. by repeat constructor.
  - apply Forall_app. split; [done|]. destruct H1, Hl. by repeat constructor.
Qed.

End GoLib.
