(* ===== verification/Cli.v ===== *)
(** * The command line (src/cmd/oryx/cmd)

    The flags and environment of [serve] down to the database it builds, and the client
    commands [get], [set] and [delete] up to their output and exit code.  cobra and pflag are
    third-party: a flag set is the map of its flags, the parsing of a flag's text is a class,
    and the arguments that remain after parsing are an argument.  Certificate files, the gRPC
    connection and the engine's constructors are parameters.  The waiting for a signal, the
    goroutines of the servers and the logger are left out. *)

From S2P Require Import Prelude Kv ShardedMap Wal WalTheory Iface Writer Evict Engine EngineTheory Mesh Entropy EntropyTheory Cluster Database Builder GoLib.
From stdpp Require Import pretty.
Import ShardedMap Writer Engine.

#[local] Open Scope Z_scope.

Module Cli.

(** ** Flag sets *)

(** A flag's variable has a type, which [Set] parses for. *)
Inductive fvalue := VString (s : string) | VInt (z : Z) | VUint32 (z : Z) | VBool (b : bool).

Record flag := mkFlag { fval : fvalue; changed : bool }.

Abbreviation flagset := (gmap string flag) (only parsing).

(** [pset v text]: what [Value.Set] leaves in the variable that held [v], and whether it
    succeeds. *)
Class PFlag := { pset : fvalue -> string -> fvalue * bool }.

Class PFlagLaws `{PFlag} : Prop := {
  pset_string : forall a s, pset (VString a) s = (VString s, true);
  pset_true : forall b, pset (VBool b) "true" = (VBool true, true)
}.

Section Flags.
Context `{PFlag}.

(** [FlagSet.Set]: a flag whose text is refused does not count as set. *)
Definition fset (name text : string) (f : flagset) : flagset * bool :=
  match f !! name with
  | None => (f, false)
  | Some fl => let '(v, ok) := pset (fval fl) text in (<[name := mkFlag v (changed fl || ok)]> f, ok)
  end.

Definition Changed (f : flagset) (name : string) : bool :=
  match f !! name with Some fl => changed fl | None => false end.

(** The flags of a command line, in order; [None]: one of them is refused, or unknown. *)
Fixpoint parseFlags (given : list (string * string)) (f : flagset) : option flagset :=
  match given with
  | [] => Some f
  | (name, text) :: given' => let '(f', ok) := fset name text f in if ok then parseFlags given' f' else None
  end.

End Flags.

Definition str (f : flagset) (name : string) : string :=
  match f !! name with Some (mkFlag (VString s) _) => s | _ => EmptyString end.
Definition int (f : flagset) (name : string) : Z :=
  match f !! name with Some (mkFlag (VInt z) _) | Some (mkFlag (VUint32 z) _) => z | _ => 0 end.
Definition boolean (f : flagset) (name : string) : bool :=
  match f !! name with Some (mkFlag (VBool b) _) => b | _ => false end.

Definition dflt (v : fvalue) : flag := mkFlag v false.

(** ** serve: flags and environment *)

(** [init] of serve.go. *)
Definition serveFlags : flagset := list_to_map [
  ("node-id", dflt (VString ""));
  ("addr", dflt (VString "127.0.0.1"));
  ("port", dflt (VInt 7946));
  ("grpc-port", dflt (VInt 50051));
  ("resp-port", dflt (VString "6379"));
  ("advertise-addr", dflt (VString ""));
  ("seeds", dflt (VString ""));
  ("replication", dflt (VInt 3));
  ("replication-failure-mode", dflt (VString "strict"));
  ("wal-path", dflt (VString "data/wal"));
  ("snp-path", dflt (VString "data/snapshot.bin"));
  ("wal-interval", dflt (VString "500ms"));
  ("snp-interval", dflt (VString "5m"));
  ("wal-buffer-size", dflt (VUint32 65536));
  ("wal-segments", dflt (VInt 16));
  ("gossip-interval", dflt (VString "10s"));
  ("single-node", dflt (VBool false));
  ("tls-cert", dflt (VString ""));
  ("tls-key", dflt (VString ""));
  ("insecure", dflt (VBool false));
  ("volatile", dflt (VBool false))
]%string.

Definition strEnvs : list (string * string) := [
  ("node-id", "ORYX_NODE_ID");
  ("addr", "ORYX_BIND_ADDR");
  ("port", "ORYX_BIND_PORT");
  ("grpc-port", "ORYX_GRPC_PORT");
  ("resp-port", "ORYX_RESP_PORT");
  ("advertise-addr", "ORYX_ADVERTISE_ADDR");
  ("seeds", "ORYX_SEED_NODES");
  ("replication", "ORYX_REPLICATION_FACTOR");
  ("replication-failure-mode", "ORYX_REPLICATION_FAILURE_MODE");
  ("wal-path", "ORYX_WAL_PATH");
  ("snp-path", "ORYX_SNP_PATH");
  ("wal-interval", "ORYX_WAL_INTERVAL");
  ("snp-interval", "ORYX_SNP_INTERVAL");
  ("wal-buffer-size", "ORYX_WAL_BUFFER_SIZE");
  ("wal-segments", "ORYX_WAL_SEGMENTS");
  ("gossip-interval", "ORYX_GOSSIP_INTERVAL");
  ("tls-cert", "ORYX_TLS_CERT_FILE");
  ("tls-key", "ORYX_TLS_KEY_FILE")
]%string.

Definition boolEnvs : list (string * string) :=
  [("single-node", "ORYX_SINGLE_NODE"); ("insecure", "ORYX_INSECURE")]%string.

Section Env.
Context `{PFlag}.
(** [os.Getenv]: empty for a variable that is not set. *)
Variable env : string -> string.

Definition strEnv (f : flagset) (x : string * string) : flagset :=
  if Changed f x.1 then f
  else let v := env x.2 in if bool_decide (v = EmptyString) then f else (fset x.1 v f).1.

Definition boolEnv (f : flagset) (x : string * string) : flagset :=
  if Changed f x.1 then f
  else let v := env x.2 in if bool_decide (v = "true"%string) then (fset x.1 "true" f).1 else f.

(** It returns nil whatever [Set] says. *)
Definition applyServeEnv (f : flagset) : flagset := foldl boolEnv (foldl strEnv f strEnvs) boolEnvs.

End Env.

(** ** serve: the database it builds *)

Definition tlsRequired : string :=
  "TLS credentials required (--tls-cert/--tls-key). Use --insecure for development".

Section Serve.
Context `{HX : XXHash} `{HR : Radix} {W C E M : Type} `{HW : Waler W} `{HC : Clocker C} `{HE : Evictor E}
  `{HM : Mesh.Mesher M}.
(** What [Default] draws, the fractions of durations, how a certificate pair loads, and the
    constructors of the engine and the mesh. *)
Variables (lru : E) (clk : C) (id : string) (freeGossip freeGrpc : Z).
Variable frac : Z -> Z -> Z -> Z.
(** How the verb [%q] renders a string. *)
Variable quote : string -> string.
Variable NewServerTLSFromFile : string -> string -> result string.
Variable newEngine : Builder.DatabaseBuilder (C := C) (E := E) -> result (engine W C E).
Variable newMesh : Mesh.Config -> result M.

Implicit Types (b : Builder.DatabaseBuilder (C := C) (E := E)).

(** The [switch] on the credentials. *)
Definition credentials (f : flagset) b : result (Builder.DatabaseBuilder (C := C) (E := E)) :=
  if bool_decide (str f "tls-cert" <> EmptyString) && bool_decide (str f "tls-key" <> EmptyString) then
    match NewServerTLSFromFile (str f "tls-cert") (str f "tls-key") with
    | Err e => Err (ErrWrap "failed to load TLS credentials" e)
    | Ok creds => Ok (Builder.SetCreds (Some creds) b)
    end
  else if boolean f "insecure" then Ok (Builder.SetInsecure b)
  else Err (ErrMsg tlsRequired).

(** Identity, network and storage paths. *)
Definition identity (f : flagset) b : Builder.DatabaseBuilder (C := C) (E := E) :=
  let b := if bool_decide (str f "node-id" <> EmptyString) then Builder.SetNodeID (str f "node-id") b else b in
  let b := Builder.SetBindAddr (str f "addr") b in
  let b := Builder.SetBindPort (int f "port") b in
  let b := Builder.SetGrpcPort (int f "grpc-port") b in
  let b := if bool_decide (str f "advertise-addr" <> EmptyString)
           then Builder.SetAdvertiseAddr (str f "advertise-addr") b else b in
  let b := if bool_decide (str f "seeds" <> EmptyString)
           then Builder.SetSeedNodes (GoLib.Split (str f "seeds") ",") b else b in
  let b := Builder.SetReplicationFactor (int f "replication") b in
  let b := Builder.SetReplicationFailureMode (str f "replication-failure-mode") b in
  if boolean f "volatile" then Builder.VolatileMode b
  else Builder.SetSnpPath (str f "snp-path") (Builder.SetWalPath (str f "wal-path") b).

(** One [if interval, err := time.ParseDuration(...)] block. *)
Definition interval (f : flagset) (name : string) (set : Z -> Builder.DatabaseBuilder (C := C) (E := E) -> Builder.DatabaseBuilder (C := C) (E := E))
    b : result (Builder.DatabaseBuilder (C := C) (E := E)) :=
  match GoLib.ParseDuration frac (str f name) with
  | Ok d => Ok (set d b)
  | Err e => Err (ErrWrap ("invalid --" +:+ name +:+ " " +:+ quote (str f name)) e)
  end.

(** Everything [runServe] does before [Build]. *)
Definition configure (f : flagset) : result (Builder.DatabaseBuilder (C := C) (E := E)) :=
  match credentials f (Builder.Default lru clk id freeGossip freeGrpc Builder.NewDatabaseBuilder) with
  | Err e => Err e
  | Ok b =>
  match interval f "wal-interval" Builder.SetWalInterval (identity f b) with
  | Err e => Err e
  | Ok b =>
  match interval f "snp-interval" Builder.SetSnpInterval b with
  | Err e => Err e
  | Ok b =>
  match interval f "gossip-interval" Builder.SetGossipInterval b with
  | Err e => Err e
  | Ok b =>
      let b := Builder.SetWalSegments (int f "wal-segments") (Builder.SetWalBufferSize (int f "wal-buffer-size") b) in
      Ok (if boolean f "single-node" then Builder.SingleNode b else b)
  end end end end.

(** A node that serves: its database and the address of its RESP server. *)
Record serving := mkServing { database : Builder.database (W := W) (C := C) (E := E) (M := M); respAddr : string }.

Definition runServe (f : flagset) : result serving :=
  match configure f with
  | Err e => Err e
  | Ok b =>
      match Builder.Build b (newEngine b) (newMesh (Builder.meshBuilder b)) with
      | Err e => Err (ErrWrap "failed to build engine" e)
      | Ok d => Ok (mkServing d ("0.0.0.0:" +:+ str f "resp-port"))
      end
  end.

(** The command: flags from the command line, then the environment, then [runServe]. *)
Definition serve (env : string -> string) `{PFlag} (given : list (string * string)) : option (result serving) :=
  match parseFlags given serveFlags with None => None | Some f => Some (runServe (applyServeEnv env f)) end.

End Serve.

(** ** The client commands *)

(** The persistent flags of root.go. *)
Definition rootFlags : flagset := list_to_map [
  ("host", dflt (VString "127.0.0.1"));
  ("grpc-port", dflt (VInt 50051));
  ("insecure", dflt (VBool false));
  ("tls-cert", dflt (VString ""));
  ("tls-key", dflt (VString ""));
  ("timeout", dflt (VInt 5))
]%string.

(** An error of a command: with an exit code, or any other. *)
Inductive cmdErr := exitError (code : Z) (err : option goerr) | plainError (err : goerr).

(** What a run leaves: the lines on stdout, the errors on stderr and the exit code. *)
Record process := mkProcess { stdout : list string; stderr : list goerr; code : Z }.

(** [Execute]: a command has printed [out] and returned [err]. *)
Definition Execute (out : list string) (err : option cmdErr) : process :=
  match err with
  | None => mkProcess out [] 0
  | Some (exitError c (Some e)) => mkProcess out [e] c
  | Some (exitError c None) => mkProcess out [] c
  | Some (plainError e) => mkProcess out [e] 1
  end.

Section Client.
(** Certificates and pools of roots, and what the files of the machine hold. *)
Context {Cert Pool : Type}.
Variable LoadX509KeyPair : string -> string -> result Cert.
Variable ReadFile : string -> result bytes.
(** [AppendCertsFromPEM] on an empty pool: [None] when no certificate is found. *)
Variable certPool : bytes -> option Pool.

Record tlsConfig := mkTls { Certificates : option Cert; RootCAs : option Pool; MinVersion : Z }.

(** [tls.VersionTLS12]. *)
Definition VersionTLS12 : Z := 771.

Definition buildClientTLSConfig (certFile keyFile : string) : result tlsConfig :=
  if bool_decide (keyFile <> EmptyString) then
    match LoadX509KeyPair certFile keyFile with
    | Err e => Err (ErrWrap "loading client TLS key pair" e)
    | Ok cert => Ok (mkTls (Some cert) None VersionTLS12)
    end
  else if bool_decide (certFile <> EmptyString) then
    match ReadFile certFile with
    | Err e => Err (ErrWrap "reading TLS cert file" e)
    | Ok pem =>
        match certPool pem with
        | None => Err (ErrMsg ("failed to append certs from " +:+ certFile))
        | Some roots => Ok (mkTls None (Some roots) VersionTLS12)
        end
    end
  else Ok (mkTls None None VersionTLS12).

Inductive clientCreds := Insecure | TLS (cfg : tlsConfig).

Definition loadClientTLS (certFile keyFile : string) : result clientCreds :=
  match buildClientTLSConfig certFile keyFile with Err e => Err e | Ok cfg => Ok (TLS cfg) end.

(** A client of gateway/client.go; [dial] is [grpc.NewClient], which may refuse the address. *)
Record Client := mkClient { c_addr : string; c_timeout : Z; c_creds : clientCreds }.

Variable dial : string -> clientCreds -> result unit.

Definition NewClient (addr : string) (timeout : Z) (creds : clientCreds) : result Client :=
  match dial addr creds with Err e => Err e | Ok _ => Ok (mkClient addr timeout creds) end.

Definition NewInsecureClient (addr : string) (timeout : Z) : result Client :=
  match dial addr Insecure with Err e => Err e | Ok _ => Ok (mkClient addr timeout Insecure) end.

Definition dialClient (f : flagset) : result Client :=
  let addr := Mesh.hostPort (str f "host") (int f "grpc-port") in
  let timeout := i64 (int f "timeout" * Builder.second) in
  if boolean f "insecure" then NewInsecureClient addr timeout
  else if bool_decide (str f "tls-cert" <> EmptyString) then
    match loadClientTLS (str f "tls-cert") (str f "tls-key") with
    | Err e => Err e
    | Ok creds => NewClient addr timeout creds
    end
  else Err (ErrMsg "connection requires --insecure or --tls-cert/--tls-key").

(** What becomes of the call of a client: it is served, it does not reach the node, or its
    answer does not come back in time. *)
Inductive link := Works | Unreachable (e : goerr) | AnswerLost (e : goerr).

Context {D : Type} `{Database D}.

(** The key of a call: a [string] field of its message. *)
Definition callKey (c : Grpc.call) : string :=
  match c with Grpc.CallGet k | Grpc.CallSet k _ | Grpc.CallDelete k => k end.

(** A call: a message whose key is not valid UTF-8 cannot be encoded and is not sent. *)
Definition rpc (l : link) (c : Grpc.call) (eng : D) : option (result Grpc.reply * D) :=
  if negb (GoLib.ValidString (callKey c)) then Some (Err (ErrMsg "string field contains invalid UTF-8"), eng)
  else match l with
  | Unreachable e => Some (Err e, eng)
  | AnswerLost e => match Grpc.client c eng with None => None | Some (_, eng) => Some (Err e, eng) end
  | Works =>
      match Grpc.client c eng with
      | None => None
      | Some (Grpc.Failed e, eng) => Some (Err e, eng)
      | Some (r, eng) => Some (Ok r, eng)
      end
  end.

Variable quote : string -> string.

Definition failure (verb key : string) (e : goerr) : option cmdErr :=
  Some (exitError 2 (Some (ErrWrap ("error: " +:+ verb +:+ " " +:+ quote key) e))).

(** [run] functions: the lines printed, the error returned and the node afterwards.  A
    handler that does not return leaves the command without a result. *)
Definition runGet (f : flagset) (l : link) (key : string) (eng : D) : option (list string * option cmdErr * D) :=
  match dialClient f with
  | Err e => Some ([], failure "get" key e, eng)
  | Ok _ =>
      match rpc l (Grpc.CallGet key) eng with
      | None => None
      | Some (Err e, eng) => Some ([], failure "get" key e, eng)
      | Some (Ok (Grpc.Value val true), eng) => Some ([bytes_string (slice_bytes val)], None, eng)
      | Some (Ok _, eng) => Some (["nil"%string], Some (exitError 1 None), eng)
      end
  end.

Definition runSet (f : flagset) (l : link) (key value : string) (eng : D) : option (list string * option cmdErr * D) :=
  match dialClient f with
  | Err e => Some ([], failure "set" key e, eng)
  | Ok _ =>
      match rpc l (Grpc.CallSet key (Some (string_bytes value))) eng with
      | None => None
      | Some (Err e, eng) => Some ([], failure "set" key e, eng)
      | Some (Ok _, eng) => Some (["OK"%string], None, eng)
      end
  end.

Definition runDelete (f : flagset) (l : link) (key : string) (eng : D) : option (list string * option cmdErr * D) :=
  match dialClient f with
  | Err e => Some ([], failure "delete" key e, eng)
  | Ok _ =>
      match rpc l (Grpc.CallDelete key) eng with
      | None => None
      | Some (Err e, eng) => Some ([], failure "delete" key e, eng)
      | Some (Ok (Grpc.Deleted true), eng) => Some (["OK"%string], None, eng)
      | Some (Ok _, eng) => Some (["nil"%string], Some (exitError 1 None), eng)
      end
  end.

(** A client command: its name, the flags and the arguments given to it. *)
Inductive verb := VGet | VSet | VDelete.
Record invocation := mkInvocation { inv_verb : verb; inv_flags : list (string * string); inv_args : list string; inv_link : link }.

(** [cobra.ExactArgs]. *)
Definition ExactArgs (n : nat) (args : list string) : cmdErr :=
  plainError (ErrMsg ("accepts " +:+ pretty n +:+ " arg(s), received " +:+ pretty (length args))).

Context `{PFlag}.

(** cobra gives every command a flag [--help], and prints the command's help, here [usage], when
    it is set. *)
Definition clientFlags : flagset := <["help"%string := dflt (VBool false)]> rootFlags.
Variable usage : verb -> list string.

(** A whole run of the program. *)
Definition oryx (i : invocation) (eng : D) : option (process * D) :=
  match parseFlags (inv_flags i) clientFlags with
  | None => Some (Execute [] (Some (plainError (ErrMsg "invalid flag"))), eng)
  | Some f =>
      if boolean f "help" then Some (Execute (usage (inv_verb i)) None, eng)
      else match match inv_verb i, inv_args i with
            | VGet, [key] => runGet f (inv_link i) key eng
            | VSet, [key; value] => runSet f (inv_link i) key value eng
            | VDelete, [key] => runDelete f (inv_link i) key eng
            | VSet, args => Some ([], Some (ExactArgs 2 args), eng)
            | _, args => Some ([], Some (ExactArgs 1 args), eng)
            end
      with
      | None => None
      | Some (out, err, eng) => Some (Execute out err, eng)
      end
  end.

Fixpoint script (runs : list invocation) (eng : D) : option (list process * D) :=
  match runs with
  | [] => Some ([], eng)
  | i :: runs' =>
      match oryx i eng with
      | None => None
      | Some (p, eng) => match script runs' eng with None => None | Some (ps, eng) => Some (p :: ps, eng) end
      end
  end.

End Client.

(** ** Flags, environment and defaults *)

Fixpoint assoc (name : string) (xs : list (string * string)) : option string :=
  match xs with [] => None | (n, e) :: xs' => if bool_decide (name = n) then Some e else assoc name xs' end.

Section Precedence.
Context `{PFlag}.
Variable env : string -> string.

Definition fromEnv (fl : flag) (text : string) : flag := let '(v, ok) := pset (fval fl) text in mkFlag v ok.

(** What one flag is after the environment has been applied. *)
Definition resolve (name : string) (fl : flag) : flag :=
  if changed fl then fl
  else match assoc name strEnvs, assoc name boolEnvs with
       | Some e, _ => if bool_decide (env e = EmptyString) then fl else fromEnv fl (env e)
       | None, Some e => if bool_decide (env e = "true"%string) then fromEnv fl "true" else fl
       | None, None => fl
       end.

(** A pass over variables with distinct flags, each of which rewrites its own flag only. *)
Lemma pass_pointwise (step : flagset -> string * string -> flagset) (h : string -> flag -> flag) xs f name :
  (forall f x n, step f x !! n = if bool_decide (n = x.1) then h x.2 <$> f !! n else f !! n) ->
  NoDup xs.*1 ->
  foldl step f xs !! name = match assoc name xs with Some e => h e <$> f !! name | None => f !! name end.
Proof.
  intros Hstep. revert f. induction xs as [|[n e] xs IH]; intros f Hnd; [done|]. cbn in *.
  apply NoDup_cons in Hnd as [Hn Hnd]. rewrite IH, Hstep by done. cbn. case_bool_decide as Heq; [|done]. subst.
  enough (assoc n xs = None) as -> by done. clear -Hn. induction xs as [|[n' e'] xs IH]; [done|]. cbn in *.
  apply not_elem_of_cons in Hn as [Hne Hn]. by rewrite bool_decide_false, IH.
Qed.

Lemma fset_lookup name text f n :
  changed <$> f !! name = Some false ->
  (fset name text f).1 !! n = if bool_decide (n = name) then (fun fl => fromEnv fl text) <$> f !! n else f !! n.
Proof.
  unfold fset, fromEnv. intros Hc. destruct (f !! name) as [fl|] eqn:Ef; [|done]. cbn in Hc. injection Hc as Hc.
  destruct (pset (fval fl) text) as [v ok] eqn:Ep. cbn. case_bool_decide as Hn.
  - subst. by rewrite lookup_insert_eq, Ef, Hc; cbn; rewrite Ep.
  - by rewrite lookup_insert_ne.
Qed.

Lemma env_step_lookup (guard : bool) name text f n :
  (if Changed f name then f else if guard then (fset name text f).1 else f) !! n =
  if bool_decide (n = name) then (fun fl => if changed fl then fl else if guard then fromEnv fl text else fl) <$> f !! n
  else f !! n.
Proof.
  unfold Changed. destruct (f !! name) as [fl|] eqn:Ef.
  - destruct (changed fl) eqn:Ec; [case_bool_decide as Hn; [subst; by rewrite Ef; cbn; rewrite Ec|done]|].
    destruct guard; [|case_bool_decide as Hn; [subst; by rewrite Ef; cbn; rewrite Ec|done]].
    rewrite fset_lookup by (by rewrite Ef; cbn; rewrite Ec). case_bool_decide as Hn; [|done]. subst. by rewrite Ef; cbn; rewrite Ec.
  - assert (fset name text f = (f, false)) as Hs by (unfold fset; by rewrite Ef). rewrite Hs.
    assert ((if guard then (f, false).1 else f) = f) as -> by (by destruct guard). cbn.
    case_bool_decide as Hn; [|done]. subst. by rewrite Ef.
Qed.

Lemma strEnv_lookup f x n :
  strEnv env f x !! n =
  if bool_decide (n = x.1)
  then (fun fl => if changed fl then fl else if bool_decide (env x.2 = EmptyString) then fl else fromEnv fl (env x.2)) <$> f !! n
  else f !! n.
Proof.
  unfold strEnv. cbn. pose proof (env_step_lookup (negb (bool_decide (env x.2 = EmptyString))) x.1 (env x.2) f n) as Hl.
  by destruct (bool_decide (env x.2 = EmptyString)).
Qed.

Lemma boolEnv_lookup f x n :
  boolEnv env f x !! n =
  if bool_decide (n = x.1)
  then (fun fl => if changed fl then fl else if bool_decide (env x.2 = "true"%string) then fromEnv fl "true" else fl) <$> f !! n
  else f !! n.
Proof. apply (env_step_lookup (bool_decide (env x.2 = "true"%string))). Qed.

Lemma env_lookup (f : flagset) name : applyServeEnv env f !! name = resolve name <$> f !! name.
Proof.
  unfold applyServeEnv, resolve.
  rewrite (pass_pointwise (boolEnv env) (fun e fl => if changed fl then fl else if bool_decide (env e = "true"%string) then fromEnv fl "true" else fl));
    [|apply boolEnv_lookup|apply (bool_decide_unpack _); vm_compute; exact I].
  rewrite (pass_pointwise (strEnv env) (fun e fl => if changed fl then fl else if bool_decide (env e = EmptyString) then fl else fromEnv fl (env e)));
    [|apply strEnv_lookup|apply (bool_decide_unpack _); vm_compute; exact I].
  assert (assoc name strEnvs = None \/ assoc name boolEnvs = None) as Hdisj.
  { destruct (assoc name boolEnvs) as [e|] eqn:Eb; [left|by right]. cbn in Eb.
    repeat case_bool_decide; try done; subst; vm_compute; done. }
  destruct (f !! name) as [fl|]; [|by repeat case_match].
  destruct (assoc name strEnvs) as [e|], (assoc name boolEnvs) as [e'|]; destruct Hdisj; try done; cbn;
    by destruct (changed fl).
Qed.

(** The environment is applied flag by flag as documented, whatever the flags are: a flag
    given on the command line keeps its value; otherwise a variable that is set (for a boolean
    flag: to "true") replaces the compiled default by what parsing its text leaves; every other
    flag keeps its default.  No flag is lost, and none depends on another's variable. *)
Theorem env_precedence (f : flagset) name : applyServeEnv env f !! name = resolve name <$> f !! name.
Proof. apply env_lookup. Qed.

End Precedence.

(** ** serve *)

Section ServeTheory.
Context `{HX : XXHash} `{HR : Radix} {W C E M : Type} `{HW : Waler W} `{HC : Clocker C} `{HE : Evictor E}
  `{HM : Mesh.Mesher M}.
Variables (lru : E) (clk : C) (id : string) (freeGossip freeGrpc : Z).
Variables (frac : Z -> Z -> Z -> Z) (quote : string -> string).
Variable NewServerTLSFromFile : string -> string -> result string.
Implicit Types (f : gmap string flag) (b : Builder.DatabaseBuilder (C := C) (E := E)).

Definition orElse (s d : string) : string := if bool_decide (s <> EmptyString) then s else d.

(** The builder that the flags describe, field by field. *)
Definition settings f (cr : string) (wi si gi : Z) : Builder.DatabaseBuilder (C := C) (E := E) :=
  Builder.mkBuilder (Some lru) (Some clk) (Some cr)
    (Mesh.mkConfig (orElse (str f "node-id") id) (str f "addr") (str f "advertise-addr")
       (if bool_decide (str f "seeds" <> EmptyString) then GoLib.Split (str f "seeds") "," else [])
       (Z.max 1 (int f "replication")) (int f "port") (int f "grpc-port") (boolean f "single-node") false
       (str f "replication-failure-mode") 0 0)
    (if boolean f "volatile" then "nop" else str f "wal-path")
    (if boolean f "volatile" then "nop" else str f "snp-path") wi si (int f "wal-segments") gi (int f "wal-buffer-size")
    (boolean f "volatile") (boolean f "volatile").

(** Which credentials the node gets. *)
Definition secured f (cr : string) : Prop :=
  if bool_decide (str f "tls-cert" <> EmptyString /\ str f "tls-key" <> EmptyString)
  then NewServerTLSFromFile (str f "tls-cert") (str f "tls-key") = Ok cr
  else boolean f "insecure" = true /\ cr = "insecure"%string.

Abbreviation configure' := (configure lru clk id freeGossip freeGrpc frac quote NewServerTLSFromFile).

Lemma credentials_ok f b b' :
  credentials NewServerTLSFromFile f b = Ok b' <-> exists cr, secured f cr /\ b' = Builder.SetCreds (Some cr) b.
Proof.
  unfold credentials, secured. destruct (decide (str f "tls-cert" <> EmptyString /\ str f "tls-key" <> EmptyString)) as [Hy|Hn].
  - rewrite !(bool_decide_true _ Hy). destruct Hy as [Hc Hk]. rewrite !bool_decide_true by done. cbn.
    destruct (NewServerTLSFromFile _ _) as [cr|e]; [|by split; [|intros (? & ? & _)]].
    split; [intros [= <-]; by exists cr|by intros (? & [= ->] & ->)].
  - rewrite (bool_decide_false _ Hn).
    assert (bool_decide (str f "tls-cert" <> EmptyString) && bool_decide (str f "tls-key" <> EmptyString) = false) as ->.
    { repeat case_bool_decide; naive_solver. }
    destruct (boolean f "insecure"); [|by split; [|intros (? & [? _] & _)]].
    split; [intros [= <-]; by exists "insecure"%string|by intros (? & [_ ->] & ->)].
Qed.

Lemma interval_ok f name set b b' :
  interval (C := C) (E := E) frac quote f name set b = Ok b' <->
  exists d, GoLib.ParseDuration frac (str f name) = Ok d /\ b' = set d b.
Proof.
  unfold interval. destruct (GoLib.ParseDuration _ _) as [d|e]; [|by split; [|intros (? & ? & _)]].
  split; [intros [= <-]; by exists d|by intros (? & [= ->] & ->)].
Qed.

Lemma configure_ok f b :
  configure' f = Ok b <->
  exists cr wi si gi, secured f cr /\ GoLib.ParseDuration frac (str f "wal-interval") = Ok wi /\
    GoLib.ParseDuration frac (str f "snp-interval") = Ok si /\ GoLib.ParseDuration frac (str f "gossip-interval") = Ok gi /\
    b = settings f cr wi si gi.
Proof.
  assert (forall cr wi si gi b0, b0 = identity f (Builder.SetCreds (Some cr) (Builder.Default lru clk id freeGossip freeGrpc Builder.NewDatabaseBuilder)) ->
    let b := Builder.SetWalSegments (int f "wal-segments") (Builder.SetWalBufferSize (int f "wal-buffer-size")
      (Builder.SetGossipInterval gi (Builder.SetSnpInterval si (Builder.SetWalInterval wi b0)))) in
    (if boolean f "single-node" then Builder.SingleNode b else b) = settings f cr wi si gi) as Hset.
  { intros cr wi si gi b0 -> bb. subst bb. unfold settings, orElse.
    assert (Z.max 1 (int f "replication") = if int f "replication" <? 1 then 1 else int f "replication") as ->
      by (destruct (Z.ltb_spec (int f "replication") 1); lia).
    unfold identity. repeat case_bool_decide; destruct (boolean f "volatile"), (boolean f "single-node");
      repeat match goal with Hs : str f _ = EmptyString |- _ => rewrite Hs; clear Hs end; reflexivity. }
  unfold configure. split.
  - destruct (credentials _ _ _) as [b1|] eqn:E1; [|done]. apply credentials_ok in E1 as (cr & Hcr & ->).
    destruct (interval _ _ f "wal-interval" _ _) as [b2|] eqn:E2; [|done]. apply interval_ok in E2 as (wi & Hwi & ->).
    destruct (interval _ _ f "snp-interval" _ _) as [b3|] eqn:E3; [|done]. apply interval_ok in E3 as (si & Hsi & ->).
    destruct (interval _ _ f "gossip-interval" _ _) as [b4|] eqn:E4; [|done]. apply interval_ok in E4 as (gi & Hgi & ->).
    intros [= <-]. exists cr, wi, si, gi. repeat (split; [done|]). by apply Hset.
  - intros (cr & wi & si & gi & Hcr & Hwi & Hsi & Hgi & ->).
    rewrite (proj2 (credentials_ok f _ _) (ex_intro _ cr (conj Hcr eq_refl))).
    unfold interval. rewrite Hwi, Hsi, Hgi. f_equal. by apply Hset.
Qed.

(** What the flags must be for a configuration that [Build] takes. *)
Definition startable f (wi si gi : Z) : Prop :=
  wi <> 0 /\ si <> 0 /\ int f "wal-buffer-size" <> 0 /\ int f "wal-segments" <> 0 /\ str f "addr" <> EmptyString /\
  (boolean f "volatile" = true \/ str f "wal-path" <> EmptyString /\ str f "snp-path" <> EmptyString) /\
  (boolean f "single-node" = true \/ gi <> 0 /\ str f "replication-failure-mode" <> EmptyString).

Lemma settings_complete f cr wi si gi : Builder.complete (settings f cr wi si gi) <-> startable f wi si gi.
Proof.
  unfold Builder.complete, startable, settings. cbn. destruct (boolean f "volatile"); split; intros; destruct_and?;
    repeat split; try done; eauto; naive_solver.
Qed.

Variable newEngine : Builder.DatabaseBuilder (C := C) (E := E) -> result (engine W C E).
Variable newMesh : Mesh.Config -> result M.

Abbreviation runServe' := (runServe lru clk id freeGossip freeGrpc frac quote NewServerTLSFromFile newEngine newMesh).

(** C40. [oryx serve] comes up exactly when the credentials load (or [--insecure] is given), the
    three durations parse and those in use are not zero, the required flags are set, and the
    engine and, unless it is a single node, the mesh can be made from the configuration that the
    flags describe; the node then has the flags' identity and listens at the flags' address. *)
Theorem serve_starts f :
  (is_ok (runServe' f) = true <->
   exists cr wi si gi, secured f cr /\ GoLib.ParseDuration frac (str f "wal-interval") = Ok wi /\
     GoLib.ParseDuration frac (str f "snp-interval") = Ok si /\ GoLib.ParseDuration frac (str f "gossip-interval") = Ok gi /\
     startable f wi si gi /\ is_ok (newEngine (settings f cr wi si gi)) = true /\
     (boolean f "single-node" = true \/ is_ok (newMesh (Builder.meshBuilder (settings f cr wi si gi))) = true)) /\
  forall s, runServe' f = Ok s ->
    respAddr s = ("0.0.0.0:" +:+ str f "resp-port") /\ Builder.dbNodeID (database s) = orElse (str f "node-id") id /\
    Builder.dbAddr (database s) = Some (Mesh.hostPort (str f "addr") (int f "grpc-port")).
Proof.
  unfold runServe. split.
  - split.
    + destruct (configure' f) as [b|e] eqn:Ec; [|done].
      apply configure_ok in Ec as (cr & wi & si & gi & Hcr & Hwi & Hsi & Hgi & ->).
      intros Hok. exists cr, wi, si, gi. repeat (split; [done|]). rewrite <- (settings_complete f cr).
      apply Builder.build_ok. by destruct (Builder.Build _ _ _).
    + intros (cr & wi & si & gi & Hcr & Hwi & Hsi & Hgi & Hst & He & Hm).
      assert (configure' f = Ok (settings f cr wi si gi)) as -> by (apply configure_ok; by exists cr, wi, si, gi).
      assert (is_ok (Builder.Build (settings f cr wi si gi) (newEngine (settings f cr wi si gi))
        (newMesh (Builder.meshBuilder (settings f cr wi si gi)))) = true) as Hok.
      { apply Builder.build_ok. by rewrite settings_complete. }
      by destruct (Builder.Build _ _ _).
  - intros s. destruct (configure' f) as [b|e] eqn:Ec; [|done].
    apply configure_ok in Ec as (cr & wi & si & gi & _ & _ & _ & _ & ->).
    destruct (Builder.Build _ _ _) as [d|e] eqn:Eb; [|done]. intros [= <-]. split; [done|]. cbn.
    by destruct (Builder.build_addr _ _ _ _ Eb) as (? & ? & _).
Qed.

(** The compiled defaults of the command are those of the builder, ports apart: with
    [--insecure] alone and no variables set, [serve] configures what [Default] does. *)
Theorem serve_defaults `{!PFlag} `{!PFlagLaws} :
  exists f, parseFlags [("insecure", "true")]%string serveFlags = Some f /\
    configure' (applyServeEnv (fun _ => EmptyString) f) =
      Ok (Builder.SetGrpcPort 50051 (Builder.SetBindPort 7946 (Builder.SetInsecure
            (Builder.Default lru clk id freeGossip freeGrpc Builder.NewDatabaseBuilder)))).
Proof.
  exists (<["insecure"%string := mkFlag (VBool true) true]> serveFlags). split.
  - unfold parseFlags, fset. assert (serveFlags !! "insecure"%string = Some (dflt (VBool false))) as -> by (vm_compute; done).
    cbn. by rewrite pset_true.
  - assert (forall n, applyServeEnv (fun _ => EmptyString) (<["insecure"%string := mkFlag (VBool true) true]> serveFlags) !! n =
      <["insecure"%string := mkFlag (VBool true) true]> serveFlags !! n) as Hl.
    { intros n. rewrite env_lookup. destruct (_ !! n) as [fl|]; [|done]. cbn. unfold resolve.
      by repeat case_match; repeat case_bool_decide. }
    apply map_eq in Hl. rewrite Hl. vm_compute. reflexivity.
Qed.

End ServeTheory.

(** ** The client commands and the store *)

Section ClientTheory.
Context {Cert Pool : Type}.
Variable LoadX509KeyPair : string -> string -> result Cert.
Variable ReadFile : string -> result bytes.
Variable certPool : bytes -> option Pool.
Variable dial : string -> clientCreds (Cert := Cert) (Pool := Pool) -> result unit.
Variable quote : string -> string.
Variable usage : verb -> list string.
Context {D : Type} `{HD : Database D} `{HP : PFlag}.

Abbreviation dialClient' := (dialClient LoadX509KeyPair ReadFile certPool dial).
Abbreviation oryx' := (oryx LoadX509KeyPair ReadFile certPool dial quote usage).
Abbreviation script' := (script LoadX509KeyPair ReadFile certPool dial quote usage).

(** A client command never talks to a node without TLS unless [--insecure] was given, and
    a TLS connection is always at least version 1.2, checks the node against the given roots or
    the system's, and presents a certificate exactly when a key was given. *)
Theorem no_silent_plaintext f c :
  dialClient' f = Ok c ->
  c_addr c = Mesh.hostPort (str f "host") (int f "grpc-port") /\
  match c_creds c with
  | Insecure => boolean f "insecure" = true
  | TLS cfg =>
      MinVersion cfg = VersionTLS12 /\ str f "tls-cert" <> EmptyString /\
      (is_Some (Certificates cfg) <-> str f "tls-key" <> EmptyString) /\
      (is_Some (RootCAs cfg) <-> str f "tls-key" = EmptyString)
  end.
Proof.
  unfold dialClient, NewInsecureClient, NewClient. destruct (boolean f "insecure").
  { destruct (dial _ _); [|done]. by intros [= <-]. }
  case_bool_decide as Hc; [|done]. unfold loadClientTLS, buildClientTLSConfig. case_bool_decide as Hk.
  - destruct (LoadX509KeyPair _ _); [|done]. destruct (dial _ _); [|done]. intros [= <-]. cbn.
    by repeat split; try done; intros [??].
  - rewrite bool_decide_true by done. destruct (ReadFile _) as [pem|]; [|done].
    destruct (certPool pem); [|done]. destruct (dial _ _); [|done]. intros [= <-]. cbn.
    by repeat split; try done; intros [??].
Qed.

(** The call that the arguments of a command stand for; [None]: a wrong number of them. *)
Definition call_of (v : verb) (args : list string) : option Grpc.call :=
  match v, args with
  | VGet, [key] => Some (Grpc.CallGet key)
  | VSet, [key; value] => Some (Grpc.CallSet key (Some (string_bytes value)))
  | VDelete, [key] => Some (Grpc.CallDelete key)
  | _, _ => None
  end.

(** How the answer of a store is shown: the documented outputs and exit codes. *)
Definition shown (r : Grpc.reply) : process :=
  match r with
  | Grpc.Value val true => mkProcess [bytes_string (slice_bytes val)] [] 0
  | Grpc.Stored | Grpc.Deleted true => mkProcess ["OK"%string] [] 0
  | Grpc.Value _ false | Grpc.Deleted false => mkProcess ["nil"%string] [] 1
  | Grpc.Failed e => mkProcess [] [e] 2
  end.

Definition failed (c : Z) (p : process) : Prop := code p = c /\ stdout p = [] /\ stderr p <> [].

(** What a run may show, and what it leaves in a store. *)
Definition tells (st : gmap string slice) (i : invocation) (p : process) (st' : gmap string slice) : Prop :=
  match parseFlags (inv_flags i) clientFlags with
  | None => failed 1 p /\ st' = st
  | Some f =>
      if boolean f "help" then p = mkProcess (usage (inv_verb i)) [] 0 /\ st' = st
      else match call_of (inv_verb i) (inv_args i) with
      | None => failed 1 p /\ st' = st
      | Some c =>
          let '(r, st1) := Grpc.serve st c in
          match dialClient' f, inv_link i with
          | Err _, _ | _, Unreachable _ => failed 2 p /\ st' = st
          | Ok _, l =>
              if negb (GoLib.ValidString (callKey c)) then failed 2 p /\ st' = st
              else match l with
              | Works => st' = st1 /\ (p = shown r \/ inv_verb i <> VGet /\ failed 2 p)
              | _ => failed 2 p /\ st' = st1
              end
          end
      end
  end.

Inductive tells_all : gmap string slice -> list invocation -> list process -> gmap string slice -> Prop :=
| tells_nil st : tells_all st [] [] st
| tells_cons st i p st1 runs ps st2 : tells st i p st1 -> tells_all st1 runs ps st2 -> tells_all st (i :: runs) (p :: ps) st2.

(** The run of a command, whichever it is. *)
Lemma oryx_call i f c eng :
  parseFlags (inv_flags i) clientFlags = Some f -> boolean f "help" = false ->
  call_of (inv_verb i) (inv_args i) = Some c ->
  exists ctx, oryx' i eng =
    match dialClient' f with
    | Err e => Some (mkProcess [] [ErrWrap ctx e] 2, eng)
    | Ok _ =>
        match rpc (inv_link i) c eng with
        | None => None
        | Some (Err e, eng) => Some (mkProcess [] [ErrWrap ctx e] 2, eng)
        | Some (Ok r, eng) => Some (shown r, eng)
        end
    end.
Proof.
  intros Hf Hh Hc. unfold oryx. rewrite Hf, Hh.
  destruct (inv_verb i), (inv_args i) as [|key [|value [|]]]; try done; injection Hc as <-; eexists;
    unfold runGet, runSet, runDelete, failure; (destruct (dialClient' f); [|reflexivity]);
    unfold rpc, Grpc.client; (destruct (negb _); [reflexivity|]); (destruct (inv_link i); [|reflexivity|]).
  - destruct (Grpc.clientGet key eng) as [[[v [|]] ?]|]; reflexivity.
  - destruct (Grpc.clientGet key eng) as [[[v [|]] ?]|]; reflexivity.
  - destruct (Grpc.clientSet _ _ eng) as [[[|] ?]|]; reflexivity.
  - destruct (Grpc.clientSet _ _ eng) as [[[|] ?]|]; reflexivity.
  - destruct (Grpc.clientDelete key eng) as [[[[|]|] ?]|]; reflexivity.
  - destruct (Grpc.clientDelete key eng) as [[[[|]|] ?]|]; reflexivity.
Qed.

Lemma oryx_arity i f eng :
  parseFlags (inv_flags i) clientFlags = Some f -> boolean f "help" = false ->
  call_of (inv_verb i) (inv_args i) = None -> exists p, oryx' i eng = Some (p, eng) /\ failed 1 p.
Proof.
  intros Hf Hh Hc. unfold oryx. rewrite Hf, Hh.
  destruct (inv_verb i), (inv_args i) as [|key [|value [|]]]; try done; by eexists.
Qed.

Context `{!DatabaseLaws D}.

Lemma rpc_inv l c eng r eng' : db_inv eng -> rpc l c eng = Some (r, eng') -> db_inv eng' /\ (db_good eng' -> db_good eng).
Proof.
  intros Hi. unfold rpc. destruct (negb _); [by intros [= _ <-]|]. destruct l; cbn; [|by intros [= _ <-]|].
  - destruct (Grpc.client c eng) as [[q e]|] eqn:Ec; [|done]. intros Hr. assert (e = eng') as -> by (by destruct q; injection Hr).
    by eapply Grpc.client_inv.
  - destruct (Grpc.client c eng) as [[q e']|] eqn:Ec; [|done]. intros [= _ <-]. by eapply Grpc.client_inv.
Qed.

Lemma oryx_inv i eng p eng' : db_inv eng -> oryx' i eng = Some (p, eng') -> db_inv eng' /\ (db_good eng' -> db_good eng).
Proof.
  intros Hi Ho. destruct (parseFlags (inv_flags i) clientFlags) as [f|] eqn:Ef; [|unfold oryx in Ho; rewrite Ef in Ho; by injection Ho as _ <-].
  destruct (boolean f "help") eqn:Eh; [unfold oryx in Ho; rewrite Ef, Eh in Ho; by injection Ho as _ <-|].
  destruct (call_of (inv_verb i) (inv_args i)) as [c|] eqn:Ec.
  2: { destruct (oryx_arity i f eng Ef Eh Ec) as (q & Hq & _). rewrite Hq in Ho. by injection Ho as _ <-. }
  destruct (oryx_call i f c eng Ef Eh Ec) as [ctx Hq]. rewrite Hq in Ho. destruct (dialClient' f); [|by injection Ho as _ <-].
  destruct (rpc _ _ _) as [[[r|] e]|] eqn:Er; [| |done]; injection Ho as _ <-; by eapply rpc_inv.
Qed.

Lemma oryx_tells i eng st p eng' :
  db_rep eng st -> oryx' i eng = Some (p, eng') -> db_good eng' -> exists st', tells st i p st' /\ db_rep eng' st'.
Proof.
  intros Hrep Ho Hg. unfold tells.
  destruct (parseFlags (inv_flags i) clientFlags) as [f|] eqn:Ef; [|unfold oryx in Ho; rewrite Ef in Ho; injection Ho as <- <-; by exists st].
  destruct (boolean f "help") eqn:Eh; [unfold oryx in Ho; rewrite Ef, Eh in Ho; injection Ho as <- <-; by exists st|].
  destruct (call_of (inv_verb i) (inv_args i)) as [c|] eqn:Ec.
  2: { destruct (oryx_arity i f eng Ef Eh Ec) as (q & Hq & Hfail). rewrite Hq in Ho. injection Ho as <- <-. by exists st. }
  destruct (oryx_call i f c eng Ef Eh Ec) as [ctx Hq]. rewrite Hq in Ho. clear Hq.
  destruct (Grpc.serve st c) as [s st1] eqn:Es.
  destruct (dialClient' f) as [cl|e]; [|by injection Ho as <- <-; exists st]. unfold rpc in Ho.
  destruct (negb _); [destruct (inv_link i); injection Ho as <- <-; by exists st|].
  assert (forall r e, Grpc.client c eng = Some (r, e) -> e = eng' -> Grpc.told r s /\ db_rep eng' st1) as Hserves.
  { intros r e Hcl ->. pose proof (Grpc.client_serves _ _ _ _ _ Hrep Hcl Hg) as Ht. by rewrite Es in Ht. }
  destruct (inv_link i) as [|err|err]; cbn in Ho.
  - destruct (Grpc.client c eng) as [[r e]|] eqn:Ecl; [|done].
    assert (e = eng') as -> by (by destruct r; injection Ho).
    destruct (Hserves r eng' eq_refl eq_refl) as [Ht Hr]. exists st1. split; [|done]. split; [done|].
    destruct Ht as [->|[Hs [e' ->]]].
    + destruct s; injection Ho as <-; try (by left). by destruct c; cbn in Es; repeat case_match; simplify_eq.
    + right. injection Ho as <-. split; [|done]. intros Hv. rewrite Hv in Ec.
      destruct (inv_args i) as [|k [|]]; try done. injection Ec as <-. cbn in Es.
      destruct (st !! k); injection Es as <- _; naive_solver.
  - injection Ho as <- <-. by exists st.
  - destruct (Grpc.client c eng) as [[r e]|] eqn:Ecl; [|done]. injection Ho as <- <-.
    destruct (Hserves r e eq_refl eq_refl) as [_ Hr]. by exists st1.
Qed.

Lemma script_inv runs eng ps eng' : db_inv eng -> script' runs eng = Some (ps, eng') -> db_good eng' -> db_good eng.
Proof.
  revert eng ps. induction runs as [|i runs IH]; intros eng ps Hi; cbn; [by intros [= _ <-]|].
  destruct (oryx' i eng) as [[p e]|] eqn:Ei; [|done]. destruct (script' runs e) as [[ps' e']|] eqn:Es; [|done].
  intros [= _ <-] Hg. destruct (oryx_inv _ _ _ _ Hi Ei) as [Hi' Hgood]. by eapply Hgood, IH.
Qed.

(** C38. Exit codes tell the truth.  Over a node that behaves as a map, the runs of a script of
    [get], [set] and [delete] commands print and exit as that map dictates: 0 with the value for
    a key that is there, 1 with "nil" for one that is not, 0 for a completed change; code 2 with
    a message and nothing on stdout when the connection is refused (nothing changed), when the
    answer is lost or the log fails (the change was made), or when the key is not valid UTF-8,
    which the message of the call cannot carry (nothing changed); 1 with a message for wrong
    flags or arguments; and 0 with the command's help for [--help]. *)
Theorem cli_refines_store runs eng st ps eng' :
  db_rep eng st -> script' runs eng = Some (ps, eng') -> db_good eng' ->
  exists st', tells_all st runs ps st' /\ db_rep eng' st'.
Proof.
  revert eng st ps. induction runs as [|i runs IH]; intros eng st ps Hr Hs Hg; cbn in Hs.
  { injection Hs as <- <-. exists st. split; [constructor|done]. }
  destruct (oryx' i eng) as [[p e]|] eqn:Ei; [|done]. destruct (script' runs e) as [[ps' e']|] eqn:Es; [|done].
  injection Hs as <- <-. destruct (oryx_inv _ _ _ _ (db_rep_inv _ _ Hr) Ei) as [Hi _].
  destruct (oryx_tells _ _ _ _ _ Hr Ei (script_inv _ _ _ _ Hi Es Hg)) as (st1 & Ht & Hr1).
  destruct (IH _ _ _ Hr1 Es Hg) as (st2 & Ha & Hr2). exists st2. split; [by econstructor|done].
Qed.

End ClientTheory.

(** ** Examples *)

Module CliExamples.
Import Fnv GmapRadix EngineExamples.

(** Decimal integers without sign, for the examples. *)
Fixpoint digits (acc : Z) (s : bytes) : option Z :=
  match s with [] => Some acc | c :: s' => if GoLib.isDigit c then digits (acc * 10 + (byte_val c - 48)) s' else None end.

#[local] Instance some_pflag : PFlag := {|
  pset v text :=
    match v with
    | VString _ => (VString text, true)
    | VBool b => if bool_decide (text = "true"%string) then (VBool true, true)
                 else if bool_decide (text = "false"%string) then (VBool false, true) else (VBool b, false)
    | VInt _ => match digits 0 (string_bytes text) with Some z => (VInt z, true) | None => (VInt 0, false) end
    | VUint32 _ => match digits 0 (string_bytes text) with Some z => (VUint32 (u32 z), true) | None => (VUint32 0, false) end
    end
|}.

#[local] Instance some_pflag_laws : PFlagLaws.
Proof. by constructor. Qed.

Definition noPair (c k : string) : result unit := Err (ErrMsg "no such file").
Definition rootsFile (p : string) : result bytes := if bool_decide (p = "ca.pem"%string) then Ok (string_bytes "PEM") else Err (ErrMsg "no such file").
Definition anyPool (b : bytes) : option bytes := match b with [] => None | _ => Some b end.
Definition dials (addr : string) (c : clientCreds (Cert := unit) (Pool := bytes)) : result unit := Ok tt.
Definition quoted (s : string) : string := "'" +:+ s +:+ "'".

Definition tlsFlags : flagset := default ∅ (parseFlags [("tls-cert", "ca.pem"); ("grpc-port", "50055")]%string rootFlags).

Lemma no_silent_plaintext_witness :
  exists c, dialClient noPair rootsFile anyPool dials tlsFlags = Ok c /\ c_addr c = "127.0.0.1:50055"%string /\ c_creds c <> Insecure.
Proof.
  eexists. assert (dialClient noPair rootsFile anyPool dials tlsFlags =
    Ok (mkClient "127.0.0.1:50055" (5 * Builder.second) (TLS (mkTls None (Some (string_bytes "PEM")) VersionTLS12)))) as Hd
    by (vm_compute; reflexivity).
  split; [exact Hd|]. destruct (no_silent_plaintext noPair rootsFile anyPool dials tlsFlags _ Hd) as [Ha _].
  split; [exact Ha|]. discriminate.
Defined.

Definition some_script : list invocation := [
  mkInvocation VSet [("insecure", "true")] ["k"; "v"] Works;
  mkInvocation VGet [("insecure", "true")] ["k"] Works;
  mkInvocation VGet [] ["k"] Works;
  mkInvocation VDelete [("insecure", "true")] ["k"] (AnswerLost (ErrMsg "deadline exceeded"));
  mkInvocation VGet [("insecure", "true")] ["k"] Works;
  mkInvocation VGet [("insecure", "true")] [] Works;
  mkInvocation VDelete [("help", "true")] [] Works
]%string.

Definition help (v : verb) : list string := ["Usage:"]%string.

Definition some_node := DatabaseExamples.some_node.

Definition some_run := default ([], some_node) (script noPair rootsFile anyPool dials quoted help some_script some_node).

Lemma cli_refines_store_witness :
  (code <$> some_run.1) = [0; 0; 2; 2; 1; 1; 0] /\
  exists st', tells_all noPair rootsFile anyPool dials help ∅ some_script some_run.1 st'.
Proof.
  split; [vm_compute; reflexivity|].
  destruct (cli_refines_store noPair rootsFile anyPool dials quoted help some_script some_node ∅ some_run.1 some_run.2
    DatabaseExamples.some_node_rep) as (st' & Ht & _).
  - rewrite <- surjective_pairing. apply returned. vm_compute. reflexivity.
  - intros Hs. apply Hs. vm_compute. reflexivity.
  - exists st'. exact Ht.
Defined.

End CliExamples.
End Cli.
