(* ===== verification/Lifecycle.v ===== *)
(** * Starting and stopping

    [Loop]: the goroutines that select between a cancellation and their work, which the
    snapshotter, the log, the evictor, the monitor and the syncer run, interleaved with a call
    of [Stop].  [Lifecycle]: [Start] and [Stop] of the engine, the node and the servers as the
    sequence of parts they start and stop, with the panics on the way, for a database that the
    builder describes.  What joining and leaving the membership return is an argument. *)

From S2P Require Import Prelude Kv ShardedMap Wal WalTheory Iface Writer Evict Engine EngineTheory Mesh Entropy EntropyTheory Cluster Database Builder.
From stdpp Require Import relations.
Import ShardedMap Writer Engine.

#[local] Open Scope Z_scope.

(** ** Background goroutines *)

Module Loop.

(** Where a goroutine is: at its select, in the work of another case (a tick or a message), or
    returned. *)
Inductive goroutine := AtSelect | Working | Exited.

Global Instance goroutine_eq_dec : EqDecision goroutine.
Proof. solve_decision. Defined.

(** A call of [Stop]: not made, waiting on the wait group, or returned. *)
Inductive stopCall := NotCalled | WaitingFor | Returned.

(** A service: the goroutines [Start] has spawned (none before it), whether its context is
    cancelled or its stop channel closed, and a call of [Stop]; [waits] says whether its [Stop]
    waits for the goroutines. *)
Record service := mkService { waits : bool; started : bool; routines : list goroutine; cancelled : bool; stop : stopCall }.

(** [wg.Add] and [go], [n] times. *)
Definition Spawn (n : nat) (s : service) : service :=
  mkService (waits s) true (routines s ++ replicate n AtSelect) (cancelled s) (stop s).

(** The same in a [startOnce.Do]. *)
Definition Start (n : nat) (s : service) : service := if started s then s else Spawn n s.

Definition new (waits : bool) : service := mkService waits false [] false NotCalled.

(** [Stop] begins: the context is cancelled, or the channel closed. *)
Definition beginStop (s : service) : service :=
  match stop s with
  | NotCalled => mkService (waits s) (started s) (routines s) true WaitingFor
  | _ => s
  end.

(** The services.  The snapshotter has two goroutines, the monitor one, and both start once.
    Each segment of the log and each shard of the evictor is a service of one goroutine, which
    every call of [Start] spawns: the [Once] is the engine's, as the syncer's is the node's.  The
    syncer refuses an interval that is not positive; the monitor has no context to cancel
    before it is started. *)
Definition snapshotterStart : service -> service := Start 2.
Definition snapshotterStop : service -> service := beginStop.
Definition walStart (segments : list service) : list service := Spawn 1 <$> segments.
Definition lruShardStart : service -> service := Spawn 1.
Definition lruStart (shards : list service) : list service := lruShardStart <$> shards.
Definition lruShardStop : service -> service := beginStop.
Definition monitorStart : service -> service := Start 1.
Definition monitorStop (s : service) : service := if started s then beginStop s else s.
Definition syncerStart (interval : Z) (s : service) : option service := if interval <=? 0 then None else Some (Spawn 1 s).
Definition syncerStop : service -> service := beginStop.

(** One step of a goroutine or of the caller of [Stop].  A select with several ready cases
    takes any of them, so a tick can win over the cancellation. *)
Inductive step : service -> service -> Prop :=
| step_start n w b rs c k : step (mkService w b rs c k) (Start n (mkService w b rs c k))
| step_fire w b rs c k i : rs !! i = Some AtSelect -> step (mkService w b rs c k) (mkService w b (<[i := Working]> rs) c k)
| step_done w b rs c k i : rs !! i = Some Working -> step (mkService w b rs c k) (mkService w b (<[i := AtSelect]> rs) c k)
| step_exit w b rs k i : rs !! i = Some AtSelect -> step (mkService w b rs true k) (mkService w b (<[i := Exited]> rs) true k)
| step_stop w b rs c : step (mkService w b rs c NotCalled) (beginStop (mkService w b rs c NotCalled))
| step_return w b rs c :
    (w = true -> Forall (eq Exited) rs) -> step (mkService w b rs c WaitingFor) (mkService w b rs c Returned).

(** A service that was started: once its [Stop] waits and has returned, nothing runs. *)
Definition inv (s : service) : Prop :=
  started s = true /\ (stop s <> NotCalled -> cancelled s = true) /\
  (stop s = Returned -> waits s = true -> Forall (eq Exited) (routines s)).

Lemma step_inv s s' : step s s' -> inv s -> inv s'.
Proof.
  assert (forall rs i, Forall (eq Exited) rs -> rs !! i = Some AtSelect \/ rs !! i = Some Working -> False) as Hno.
  { intros rs i Hall [Hi|Hi]; by pose proof (Forall_lookup_1 _ _ _ _ Hall Hi). }
  intros Hst (Hb & Hc & Hr). unfold inv. destruct Hst; cbn in *; subst; cbn; repeat split; try done; try tauto;
    intros; first [by destruct (Hno rs i); auto | by apply Hc].
Qed.

Lemma rtc_inv s s' : rtc step s s' -> inv s -> inv s'.
Proof. induction 1; eauto using step_inv. Qed.

Lemma exit_one w rs i g : rs !! i = Some g ->
  rtc step (mkService w true rs true WaitingFor) (mkService w true (<[i := Exited]> rs) true WaitingFor).
Proof.
  intros Hi. destruct g.
  - by apply rtc_once, step_exit.
  - eapply rtc_l; [by apply step_done|]. eapply rtc_l; [apply step_exit; apply list_lookup_insert_eq; by eapply lookup_lt_Some|].
    by rewrite list_insert_insert_eq.
  - by rewrite list_insert_id.
Qed.

Lemma exit_all w rs k :
  (k <= length rs)%nat ->
  rtc step (mkService w true rs true WaitingFor) (mkService w true (replicate k Exited ++ drop k rs) true WaitingFor).
Proof.
  induction k as [|k IH]; intros Hk; [done|]. etrans; [apply IH; lia|].
  destruct (lookup_lt_is_Some_2 rs k) as [g Hg]; [lia|].
  assert ((replicate k Exited ++ drop k rs) !! k = Some g) as Hl.
  { rewrite lookup_app_r, length_replicate, Nat.sub_diag, lookup_drop by (rewrite length_replicate; lia). by rewrite Nat.add_0_r. }
  etrans; [by eapply exit_one|]. rewrite insert_app_r_alt by (rewrite length_replicate; lia).
  rewrite length_replicate, Nat.sub_diag, (drop_S rs g k Hg). cbn [insert list_insert].
  replace (replicate (S k) Exited) with (replicate k Exited ++ [Exited]) by (by rewrite <- replicate_S_end).
  by rewrite <- app_assoc.
Qed.

Lemma stop_can_return s : inv s -> exists s', rtc step s s' /\ stop s' = Returned.
Proof.
  intros (Hb & Hc & _). destruct s as [w b rs c [| |]]; cbn in *; subst.
  - exists (mkService w true (replicate (length rs) Exited ++ drop (length rs) rs) true Returned). split; [|done].
    eapply rtc_l; [apply step_stop|]. eapply rtc_r; [by apply exit_all|]. apply step_return. intros _.
    rewrite drop_all, app_nil_r. by apply Forall_replicate.
  - rewrite Hc by done.
    exists (mkService w true (replicate (length rs) Exited ++ drop (length rs) rs) true Returned). split; [|done].
    eapply rtc_r; [by apply exit_all|]. apply step_return. intros _. rewrite drop_all, app_nil_r. by apply Forall_replicate.
  - by eexists.
Qed.

(** What [Stop] guarantees once the service runs, under every interleaving of its
    goroutines with the call: where [Stop] waits (snapshotter, log, evictor, monitor) no
    goroutine is left when it returns; it can always still return as long as the work ends; and
    the [Stop] of the syncer, which only closes its channel, can return in the middle of a
    round, which then goes on writing. *)
Theorem stop_waits n w s :
  rtc step (Spawn n (new w)) s ->
  (stop s = Returned -> w = true -> Forall (eq Exited) (routines s)) /\
  (exists s', rtc step s s' /\ stop s' = Returned) /\
  ((0 < n)%nat -> exists s', rtc step (Spawn n (new false)) s' /\ stop s' = Returned /\ Working ∈ routines s').
Proof.
  intros Hr. assert (inv (Spawn n (new w))) as Hi by done. pose proof (rtc_inv _ _ Hr Hi) as Hs. split; [|split].
  - intros Hret Hw. destruct Hs as (_ & _ & Hall). apply Hall; [done|].
    assert (forall s s', rtc step s s' -> waits s' = waits s) as Hwaits.
    { induction 1 as [|? ? ? Hst _ IH]; [done|]. rewrite IH. destruct Hst as [? ? [|]| | | | |]; done. }
    by rewrite (Hwaits _ _ Hr).
  - by apply stop_can_return.
  - intros Hn. destruct n as [|n]; [lia|].
    exists (mkService false true (Working :: replicate n AtSelect) true Returned). split; [|split; [done|set_solver]].
    eapply rtc_l; [by apply (step_fire false true _ false NotCalled 0)|]. cbn.
    eapply rtc_l; [apply step_stop|]. by apply rtc_once, step_return.
Qed.

Lemma stop_waits_witness : Forall (eq Exited) [Exited; Exited].
Proof.
  destruct (stop_waits 2 true (mkService true true [Exited; Exited] true Returned)) as [Hf _].
  - eapply rtc_l; [apply step_stop|].
    eapply rtc_l; [by apply (step_exit true true [AtSelect; AtSelect] WaitingFor 0)|]. cbn.
    eapply rtc_l; [by apply (step_exit true true [Exited; AtSelect] WaitingFor 1)|]. cbn.
    apply rtc_once, step_return. intros _. by repeat constructor.
  - apply Hf; reflexivity.
Defined.

End Loop.

(** ** Start and Stop of a database *)

Module Lifecycle.

Inductive part := PSnp | PWal | PEvt | PMesh | PSyncer | PMonitor | PGateway.
Inductive action := Starts (p : part) | Stops (p : part) | StartPanics (p : part) | StopPanics (p : part).

Global Instance part_eq_dec : EqDecision part.
Proof. solve_decision. Defined.
Global Instance action_eq_dec : EqDecision action.
Proof. solve_decision. Defined.

Section Life.
Context {C E : Type}.
Implicit Types (b : Builder.DatabaseBuilder (C := C) (E := E)).

(** The [sync.Once] values of the engine and of the node, and whether the monitor has a
    context to cancel, for the database that [b] describes. *)
Record life := mkLife { cfg : Builder.DatabaseBuilder (C := C) (E := E); coreStarted : bool; coreStopped : bool;
  nodeStarted : bool; nodeStopped : bool; monitor : bool }.

Implicit Types (l : life).

Definition fresh b : life := mkLife b false false false false false.

(** [snp.Start], [wal.Start] and [evt.Start]: the goroutines of the first two make a ticker,
    which panics unless its interval is positive. *)
Definition snpStart b : list action :=
  if Builder.disableSnapshot b then [] else Starts PSnp :: (if Builder.snpInterval b <=? 0 then [StartPanics PSnp] else []).
Definition walStart b : list action :=
  if Builder.disableWal b then []
  else Starts PWal :: (if (0 <? Builder.walSegments b) && (Builder.walInterval b <=? 0) then [StartPanics PWal] else []).
Definition evtStart b : list action := match Builder.evt b with Some _ => [Starts PEvt] | None => [] end.

Definition engineStart l : list action * life :=
  if coreStarted l then ([], l)
  else (snpStart (cfg l) ++ walStart (cfg l) ++ evtStart (cfg l),
        mkLife (cfg l) true (coreStopped l) (nodeStarted l) (nodeStopped l) (monitor l)).

Definition engineStop l : list action * life :=
  if coreStopped l then ([], l)
  else ((if Builder.disableSnapshot (cfg l) then [] else [Stops PSnp]) ++
        (if Builder.disableWal (cfg l) then [] else [Stops PWal]) ++
        match Builder.evt (cfg l) with Some _ => [Stops PEvt] | None => [] end,
        mkLife (cfg l) (coreStarted l) true (nodeStarted l) (nodeStopped l) (monitor l)).

(** [Node.Start]; [joined] is what [mesh.Start] returns.  A [Once] whose function panics is
    done. *)
Definition nodeStart l (joined : result unit) : list action * life :=
  if nodeStarted l then ([], l)
  else
    let '(t, l) := engineStart (mkLife (cfg l) (coreStarted l) (coreStopped l) true (nodeStopped l) (monitor l)) in
    match joined with
    | Err _ => (t ++ [StartPanics PMesh], l)
    | Ok _ =>
        if Builder.gossipInterval (cfg l) <=? 0 then (t ++ [Starts PMesh; StartPanics PSyncer], l)
        else (t ++ [Starts PMesh; Starts PSyncer; Starts PMonitor],
              mkLife (cfg l) (coreStarted l) (coreStopped l) (nodeStarted l) (nodeStopped l) true)
    end.

(** [Node.Stop]; [left] is what [mesh.Stop] returns. *)
Definition nodeStop l (left_ : result unit) : list action * life :=
  if nodeStopped l then ([], l)
  else
    let l := mkLife (cfg l) (coreStarted l) (coreStopped l) (nodeStarted l) true (monitor l) in
    let t := (if monitor l then [Stops PMonitor] else []) ++ [Stops PSyncer] in
    match left_ with
    | Err _ => (t ++ [StopPanics PMesh], l)
    | Ok _ => let '(t', l) := engineStop l in (t ++ [Stops PMesh; Stops PGateway] ++ t', l)
    end.

(** The [Database] interface: a single node is its engine. *)
Inductive call := CStart (joined : result unit) | CStop (left_ : result unit).

Definition databaseCall l (c : call) : list action * life :=
  let single := Mesh.SingleNode (Builder.meshBuilder (cfg l)) in
  match c with
  | CStart joined => if single then engineStart l else nodeStart l joined
  | CStop left_ => if single then engineStop l else nodeStop l left_
  end.

Fixpoint run l (cs : list call) : list action :=
  match cs with [] => [] | c :: cs' => let '(t, l') := databaseCall l c in t ++ run l' cs' end.

(** [Grpc.Stop] and [Grpc.HardStop] stop the listener and then the engine; [Cluster.Stop] and
    the shutdown of [serve] call them on every server. *)
Definition grpcStop l (left_ : result unit) : list action * life := databaseCall l (CStop left_).

(** ** Theorems *)

(** The order in which parts come up and go down.  What a part uses is already up when it
    starts, and still up when it stops, the evictor apart: its callback writes to the log, which
    is closed before it. *)
Definition startOrder : list action :=
  [Starts PSnp; StartPanics PSnp; Starts PWal; StartPanics PWal; Starts PEvt; StartPanics PMesh; Starts PMesh;
   StartPanics PSyncer; Starts PSyncer; Starts PMonitor].
Definition stopOrder : list action :=
  [Stops PMonitor; Stops PSyncer; StopPanics PMesh; Stops PMesh; Stops PGateway; Stops PSnp; Stops PWal; Stops PEvt].

Definition startish (a : action) : Prop := a ∈ startOrder.
Definition stopish (a : action) : Prop := a ∈ stopOrder.

Global Instance startish_dec a : Decision (startish a).
Proof. unfold startish. apply _. Defined.
Global Instance stopish_dec a : Decision (stopish a).
Proof. unfold stopish. apply _. Defined.

Definition topStarted l : bool := if Mesh.SingleNode (Builder.meshBuilder (cfg l)) then coreStarted l else nodeStarted l.
Definition topStopped l : bool := if Mesh.SingleNode (Builder.meshBuilder (cfg l)) then coreStopped l else nodeStopped l.

Ltac order_cases := repeat (case_match; cbn); repeat first [apply sublist_skip | apply sublist_cons | apply sublist_nil_l].

Lemma engineStart_order l :
  (engineStart l).1 `sublist_of` [Starts PSnp; StartPanics PSnp; Starts PWal; StartPanics PWal; Starts PEvt].
Proof.
  unfold engineStart. destruct (coreStarted l); [apply sublist_nil_l|]. cbn [fst].
  apply (sublist_app _ [Starts PSnp; StartPanics PSnp]); [unfold snpStart; order_cases|].
  apply (sublist_app _ [Starts PWal; StartPanics PWal]); [unfold walStart; order_cases|]. unfold evtStart. order_cases.
Qed.

Lemma engineStop_order l : (engineStop l).1 `sublist_of` [Stops PSnp; Stops PWal; Stops PEvt].
Proof.
  unfold engineStop. destruct (coreStopped l); [apply sublist_nil_l|]. cbn [fst].
  apply (sublist_app _ [Stops PSnp]); [order_cases|]. apply (sublist_app _ [Stops PWal]); order_cases.
Qed.

Lemma engineStart_keeps l :
  cfg (engineStart l).2 = cfg l /\ coreStarted (engineStart l).2 = true /\ coreStopped (engineStart l).2 = coreStopped l /\
  nodeStarted (engineStart l).2 = nodeStarted l /\ nodeStopped (engineStart l).2 = nodeStopped l.
Proof. unfold engineStart. by destruct (coreStarted l) eqn:?. Qed.

Lemma engineStop_keeps l :
  cfg (engineStop l).2 = cfg l /\ coreStopped (engineStop l).2 = true /\ coreStarted (engineStop l).2 = coreStarted l /\
  nodeStarted (engineStop l).2 = nodeStarted l /\ nodeStopped (engineStop l).2 = nodeStopped l.
Proof. unfold engineStop. by destruct (coreStopped l) eqn:?. Qed.

(** What one call does: nothing the second time. *)
Lemma start_shape l joined t l' :
  databaseCall l (CStart joined) = (t, l') ->
  cfg l' = cfg l /\ topStarted l' = true /\ topStopped l' = topStopped l /\
  t `sublist_of` (if topStarted l then [] else startOrder).
Proof.
  unfold databaseCall, topStarted, topStopped. destruct (Mesh.SingleNode (Builder.meshBuilder (cfg l))) eqn:Es.
  - intros He. pose proof (engineStart_keeps l) as Hk. pose proof (engineStart_order l) as Ho. rewrite He in Hk, Ho. cbn in *.
    destruct Hk as (-> & -> & -> & _). rewrite Es. repeat (split; [done|]). unfold engineStart in He.
    destruct (coreStarted l); [injection He as <- _; done|]. etrans; [exact Ho|]. unfold startOrder. order_cases.
  - unfold nodeStart. destruct (nodeStarted l) eqn:En; [intros [= <- <-]; by rewrite Es, En|].
    set (l1 := mkLife _ _ _ _ _ _). pose proof (engineStart_keeps l1) as Hk. pose proof (engineStart_order l1) as Ho.
    destruct (engineStart l1) as [t1 l2]. cbn in *. destruct Hk as (Hc & _ & _ & Hn & Hp).
    assert (forall t2, t2 `sublist_of` [StartPanics PMesh; Starts PMesh; StartPanics PSyncer; Starts PSyncer; Starts PMonitor] ->
      t1 ++ t2 `sublist_of` startOrder) as Happ by (intros t2 H2; by apply (sublist_app _ _ _ _ Ho H2)).
    destruct joined; [destruct (_ <=? 0)|]; intros [= <- <-]; cbn; rewrite ?Hc, ?Es, ?Hn, ?Hp; repeat (split; [done|]);
      apply Happ; order_cases.
Qed.

Lemma stop_shape l left_ t l' :
  databaseCall l (CStop left_) = (t, l') ->
  cfg l' = cfg l /\ topStopped l' = true /\ topStarted l' = topStarted l /\
  t `sublist_of` (if topStopped l then [] else stopOrder).
Proof.
  unfold databaseCall, topStarted, topStopped. destruct (Mesh.SingleNode (Builder.meshBuilder (cfg l))) eqn:Es.
  - intros He. pose proof (engineStop_keeps l) as Hk. pose proof (engineStop_order l) as Ho. rewrite He in Hk, Ho. cbn in *.
    destruct Hk as (-> & -> & -> & _). rewrite Es. repeat (split; [done|]). unfold engineStop in He.
    destruct (coreStopped l); [injection He as <- _; done|]. etrans; [exact Ho|]. unfold stopOrder. order_cases.
  - unfold nodeStop. destruct (nodeStopped l) eqn:En; [intros [= <- <-]; by rewrite Es, En|].
    set (l1 := mkLife _ _ _ _ _ _).
    assert ((if monitor l1 then [Stops PMonitor] else []) ++ [Stops PSyncer] `sublist_of` [Stops PMonitor; Stops PSyncer])
      as Hm by order_cases.
    destruct left_ as [|err].
    + pose proof (engineStop_keeps l1) as Hk. pose proof (engineStop_order l1) as Ho.
      destruct (engineStop l1) as [t1 l2]. cbn -[app] in *. destruct Hk as (Hc & _ & _ & Hn & Hp).
      intros [= <- <-]. rewrite ?Hc, ?Es, ?Hn, ?Hp. repeat (split; [done|]).
      apply (sublist_app _ _ _ _ Hm). by apply sublist_cons, sublist_skip, sublist_skip.
    + intros [= <- <-]. cbn. rewrite Es. repeat (split; [done|]). apply (sublist_app _ _ _ _ Hm). order_cases.
Qed.

Lemma sublist_Forall {A} (P : A -> Prop) (x y : list A) : x `sublist_of` y -> Forall P y -> Forall P x.
Proof. intros Hs Hy. apply list.Forall_forall. intros a Ha. eapply list.Forall_forall; [exact Hy|]. by eapply elem_of_sublist. Qed.

Lemma start_filters t :
  t `sublist_of` startOrder -> filter startish t = t /\ filter stopish t = [].
Proof.
  intros Ht. split; [apply filter_all|apply filter_none]; (eapply sublist_Forall; [exact Ht|]);
    apply (bool_decide_unpack _); vm_compute; exact I.
Qed.

Lemma stop_filters t :
  t `sublist_of` stopOrder -> filter stopish t = t /\ filter startish t = [].
Proof.
  intros Ht. split; [apply filter_all|apply filter_none]; (eapply sublist_Forall; [exact Ht|]);
    apply (bool_decide_unpack _); vm_compute; exact I.
Qed.

Lemma run_order cs l :
  filter startish (run l cs) `sublist_of` (if topStarted l then [] else startOrder) /\
  filter stopish (run l cs) `sublist_of` (if topStopped l then [] else stopOrder).
Proof.
  revert l. induction cs as [|c cs IH]; intros l; cbn [run]; [split; apply sublist_nil_l|].
  destruct (databaseCall l c) as [t l'] eqn:Ec. rewrite !filter_app. destruct (IH l') as [IH1 IH2].
  destruct c as [joined|left_].
  - destruct (start_shape _ _ _ _ Ec) as (_ & Hs & Hp & Ht). rewrite Hs in IH1. rewrite Hp in IH2.
    apply sublist_nil_r in IH1. rewrite IH1.
    assert (t `sublist_of` startOrder) as Ht' by (etrans; [exact Ht|]; destruct (topStarted l); [apply sublist_nil_l|done]).
    destruct (start_filters t Ht') as [-> ->]. by rewrite app_nil_r.
  - destruct (stop_shape _ _ _ _ Ec) as (_ & Hs & Hp & Ht). rewrite Hs in IH2. rewrite Hp in IH1.
    apply sublist_nil_r in IH2. rewrite IH2.
    assert (t `sublist_of` stopOrder) as Ht' by (etrans; [exact Ht|]; destruct (topStopped l); [apply sublist_nil_l|done]).
    destruct (stop_filters t Ht') as [-> ->]. by rewrite app_nil_r.
Qed.

(** However often and in whatever order [Start] and [Stop] are called on a database, and
    whatever joining and leaving the membership returns, every part is started at most once and
    stopped at most once, in one fixed order each: the storage before the cluster services on
    the way up, the services before the storage they write to on the way down.  The exception is
    the evictor, which is always stopped after the log that its evictions are published to. *)
Theorem once_in_order b cs :
  filter startish (run (fresh b) cs) `sublist_of` startOrder /\ filter stopish (run (fresh b) cs) `sublist_of` stopOrder.
Proof.
  pose proof (run_order cs (fresh b)) as [H1 H2]. unfold topStarted, topStopped in *. cbn in *.
  by destruct (Mesh.SingleNode (Builder.meshBuilder b)).
Qed.

(** Whether a trace gets through without a panic. *)
Definition survives (t : list action) : Prop := forall p, StartPanics p ∉ t /\ StopPanics p ∉ t.

Lemma survives_app t1 t2 : survives (t1 ++ t2) <-> survives t1 /\ survives t2.
Proof.
  unfold survives. setoid_rewrite not_elem_of_app. split.
  - intros Hs. split; intros p; specialize (Hs p); tauto.
  - intros [H1 H2] p. specialize (H1 p). specialize (H2 p). tauto.
Qed.

Lemma survives_nil : survives [].
Proof. intros p. split; apply not_elem_of_nil. Qed.

Lemma survives_cons a t : survives (a :: t) <-> (match a with Starts _ | Stops _ => True | _ => False end) /\ survives t.
Proof.
  unfold survives. split.
  - intros Hs. split; [|intros p; specialize (Hs p); rewrite !not_elem_of_cons in Hs; tauto].
    destruct a as [p|p|p|p]; try exact I; specialize (Hs p); rewrite !not_elem_of_cons in Hs; tauto.
  - intros [Ha Hs] p. specialize (Hs p). rewrite !not_elem_of_cons. destruct a; naive_solver.
Qed.

Lemma engineStart_survives b :
  survives (snpStart b ++ walStart b ++ evtStart b) <->
  (Builder.disableSnapshot b = true \/ 0 < Builder.snpInterval b) /\
  (Builder.disableWal b = true \/ Builder.walSegments b <= 0 \/ 0 < Builder.walInterval b).
Proof.
  rewrite !survives_app. unfold snpStart, walStart, evtStart.
  assert (survives (match Builder.evt b with Some _ => [Starts PEvt] | None => [] end)) as He.
  { destruct (Builder.evt b); [apply survives_cons; split; [done|]|]; apply survives_nil. }
  assert (survives (if Builder.disableSnapshot b then [] else Starts PSnp :: (if Builder.snpInterval b <=? 0 then [StartPanics PSnp] else []))
    <-> (Builder.disableSnapshot b = true \/ 0 < Builder.snpInterval b)) as ->.
  { destruct (Builder.disableSnapshot b); [split; [by left|intros _; apply survives_nil]|]. rewrite survives_cons.
    destruct (Z.leb_spec (Builder.snpInterval b) 0).
    - rewrite survives_cons. split; [naive_solver|]. intros [?|?]; [done|lia].
    - split; [by right|]. split; [done|apply survives_nil]. }
  destruct (Builder.disableWal b); [pose proof survives_nil; naive_solver|]. rewrite survives_cons.
  destruct (Z.ltb_spec 0 (Builder.walSegments b)), (Z.leb_spec (Builder.walInterval b) 0); cbn [andb];
    rewrite ?survives_cons; pose proof survives_nil; split; try naive_solver lia.
Qed.

(** The first [Start] of a database gets through exactly when every ticker it makes has a
    positive interval and, for a cluster node, the membership can be joined. *)
Theorem start_survives b joined :
  survives (databaseCall (fresh b) (CStart joined)).1 <->
  (Builder.disableSnapshot b = true \/ 0 < Builder.snpInterval b) /\
  (Builder.disableWal b = true \/ Builder.walSegments b <= 0 \/ 0 < Builder.walInterval b) /\
  (Mesh.SingleNode (Builder.meshBuilder b) = true \/ is_ok joined = true /\ 0 < Builder.gossipInterval b).
Proof.
  unfold databaseCall, nodeStart, engineStart. cbn. pose proof (engineStart_survives b) as He.
  destruct (Mesh.SingleNode (Builder.meshBuilder b)); cbn [fst]; [rewrite He; tauto|].
  pose proof survives_nil as Hn. remember (snpStart b ++ walStart b ++ evtStart b) as t eqn:Et. clear Et.
  destruct joined as [u|err]; [destruct (Z.leb_spec (Builder.gossipInterval b) 0) as [Hg|Hg]|]; cbn [fst];
    rewrite survives_app, He, !survives_cons; cbn [is_ok].
  - split; [tauto|]. intros (_ & _ & [?|[_ ?]]); [done|lia].
  - split; [|tauto]. intros [[H1 H2] _]. by repeat (split; [done|]); right.
  - split; [tauto|]. by intros (_ & _ & [?|[? _]]).
Qed.

End Life.

Section Intervals.
Context `{HX : XXHash} `{HR : Radix} {W C E M : Type} `{HW : Waler W} `{HC : Clocker C} `{HE : Evictor E}
  `{HM : Mesh.Mesher M}.

(** [Build] only refuses intervals of zero: a negative one is accepted, and the database it
    returns brings the process down when it is started. *)
Theorem negative_interval_builds_then_panics (b : Builder.DatabaseBuilder (C := C) (E := E)) (d : Z) (e : engine W C E)
    (m : M) joined :
  Builder.complete b -> Builder.disableWal b = false -> 0 < Builder.walSegments b -> d < 0 ->
  is_ok (Builder.Build (Builder.SetWalInterval d b) (Ok e) (Ok m)) = true /\
  StartPanics PWal ∈ (databaseCall (fresh (Builder.SetWalInterval d b)) (CStart joined)).1.
Proof.
  intros Hc Hw Hs Hd. split.
  - apply Builder.build_ok. split; [|by auto]. unfold Builder.complete in *. cbn. destruct_and!. repeat (split; try done). lia.
  - unfold databaseCall, nodeStart, engineStart, walStart. cbn. rewrite Hw.
    assert ((0 <? Builder.walSegments b) = true) as -> by lia. assert ((d <=? 0) = true) as -> by lia. cbn.
    repeat case_match; cbn; set_solver.
Qed.

End Intervals.

Module LifecycleExamples.
Import Fnv GmapRadix EngineExamples.
#[local] Existing Instance EntropyExamples.full_mesher.

Lemma negative_interval_builds_then_panics_witness :
  is_ok (Builder.Build (M := EntropyExamples.fullMesh) (Builder.SetWalInterval (-1) Builder.BuilderExamples.some_builder) (Ok some_engine)
    (Ok EntropyExamples.both)) = true.
Proof.
  destruct (negative_interval_builds_then_panics Builder.BuilderExamples.some_builder (-1) some_engine EntropyExamples.both (Ok tt))
    as [Hb _].
  - apply Builder.check_complete. vm_compute. reflexivity.
  - reflexivity.
  - vm_compute. reflexivity.
  - vm_compute. reflexivity.
  - exact Hb.
Defined.

End LifecycleExamples.
End Lifecycle.
