(* ===== verification/TestCluster.v ===== *)
(** * Several nodes in one process (src/server/cluster.go)

    How [NewCluster] reserves ports with a compare-and-swap on a shared counter, how it
    configures each node and chains their seeds, and how [Start], [Stop] and [addNode] treat
    the nodes.  Which ports can be bound, what the constructors of the engine and the mesh
    return, what listening returns and whether a server has already failed are arguments. *)

From S2P Require Import Prelude Kv ShardedMap Wal WalTheory Iface Writer Evict Engine EngineTheory Mesh Entropy EntropyTheory Cluster Database Builder GoLib Lifecycle.
From stdpp Require Import pretty relations.
Import ShardedMap Writer Engine.

#[local] Open Scope Z_scope.

Module TestCluster.

(** ** Ports *)

Definition firstBasePort : Z := 18000.

Definition stride (nodeCount : Z) : Z := i32 (nodeCount * 20).

Definition nextPort (current nodeCount : Z) : Z :=
  let next := i32 (current + stride nodeCount) in
  if 60000 <=? next then i32 (18000 + stride nodeCount) else next.

(** [probe p i]: whether port [p + i] can be bound while the candidate [p] is tried. *)
Definition available (probe : Z -> Z -> bool) (p nodeCount : Z) : bool :=
  forallb (fun i => probe p (Z.of_nat i)) (seq 0 (Z.to_nat (nodeCount * 2))).

(** [n]: the candidates left, two ports apart. *)
Fixpoint scanPorts (n : nat) (probe : Z -> Z -> bool) (p nodeCount startPort : Z) : Z :=
  match n with
  | O => startPort
  | S n' => if available probe p nodeCount then p else scanPorts n' probe (p + 2) nodeCount startPort
  end.

Definition findAvailableBasePort (probe : Z -> Z -> bool) (startPort nodeCount : Z) : Z :=
  scanPorts 250 probe startPort nodeCount startPort.

(** The callers of [getNextBasePort] before their load, between the load and the
    compare-and-swap, and with the counter they took. *)
Inductive caller := Loading (nodeCount : Z) | Swapping (nodeCount current : Z) | Took (nodeCount current : Z).

Record ports := mkPorts { nextBasePort : Z; callers : list caller }.

Inductive port_step : ports -> ports -> Prop :=
| port_load q cs i n : cs !! i = Some (Loading n) -> port_step (mkPorts q cs) (mkPorts q (<[i := Swapping n q]> cs))
| port_swap q cs i n : cs !! i = Some (Swapping n q) ->
    port_step (mkPorts q cs) (mkPorts (nextPort q n) (<[i := Took n q]> cs))
| port_retry q cs i n c : cs !! i = Some (Swapping n c) -> c <> q ->
    port_step (mkPorts q cs) (mkPorts q (<[i := Loading n]> cs)).

(** [getNextBasePort] run alone. *)
Definition getNextBasePort (probe : Z -> Z -> bool) (nodeCount q : Z) : Z * Z :=
  (findAvailableBasePort probe q nodeCount, nextPort q nodeCount).

(** ** Nodes *)

(** [fastTestGossipInterval]. *)
Definition fastTestGossipInterval : Z := 200 * Mesh.millisecond.

Definition nodeName (i : nat) : string := "node-" +:+ pretty (Z.of_nat i + 1).

Section Nodes.
Context `{HX : XXHash} `{HR : Radix} {W C E M : Type} `{HW : Waler W} `{HC : Clocker C} `{HE : Evictor E}
  `{HM : Mesh.Mesher M}.

Abbreviation builder := (Builder.DatabaseBuilder (C := C) (E := E)).

(** A node of the process: what it was built from, its database, and which of its parts run.
    The server and the database of the source are the two sides of it. *)
Record member := mkMember { m_builder : builder; m_db : Builder.database (W := W) (C := C) (E := E) (M := M);
  m_life : Lifecycle.life (C := C) (E := E) }.

(** What [Default] draws for the node [i], what the constructors return for it, and the gossip
    port that the membership bound. *)
Variables (lru : nat -> E) (clk : nat -> C) (id : nat -> string) (freeGossip freeGrpc : nat -> Z).
Variable newEngine : builder -> result (engine W C E).
Variable newMesh : Mesh.Config -> result M.
Variable bound : nat -> Z.

Definition base (i : nat) (fastTest : bool) : builder :=
  let b := Builder.Default (lru i) (clk i) (id i) (freeGossip i) (freeGrpc i) Builder.NewDatabaseBuilder in
  if fastTest then Builder.SetGossipInterval fastTestGossipInterval (Builder.FastTest b) else b.

Definition setPaths (dataDir name : string) (b : builder) : builder :=
  if bool_decide (dataDir <> EmptyString)
  then Builder.SetSnpPath (GoLib.FilepathJoin [dataDir; name; "snp.gob"]%string)
         (Builder.SetWalPath (GoLib.FilepathJoin [dataDir; name; "wal"]%string) b)
  else b.

Definition clusterBuilder (i : nat) (basePort : Z) (seedAddr dataDir : string) (creds : option string) (fastTest : bool)
    : builder :=
  let name := nodeName i in
  let b := Builder.SetNodeID name (base i fastTest) in
  let b := Builder.SetCreds creds b in
  let b := Builder.SetBindPort (basePort + Z.of_nat i * 2) b in
  let b := Builder.SetGrpcPort (basePort + Z.of_nat i * 2 + 1) b in
  let b := Builder.SetReplicationFailureMode Mesh.Lenient b in
  let b := setPaths dataDir name b in
  if (0 <? i)%nat then Builder.SetSeedNodes [seedAddr] b else b.

Definition build (b : builder) : result member :=
  match Builder.Build b (newEngine b) (newMesh (Builder.meshBuilder b)) with
  | Err e => Err e
  | Ok d => Ok (mkMember b d (Lifecycle.fresh b))
  end.

(** ** Stop *)

Definition panics (t : list Lifecycle.action) : bool :=
  existsb (fun a => match a with Lifecycle.StartPanics _ | Lifecycle.StopPanics _ => true | _ => false end) t.

(** One call on a database; [None] is a panic, which ends the process. *)
Definition callMember (c : Lifecycle.call) (m : member) : option (list Lifecycle.action * member) :=
  let '(t, l) := Lifecycle.databaseCall (m_life m) c in
  if panics t then None else Some (t, mkMember (m_builder m) (m_db m) l).

(** [left_] is what leaving the membership returns. *)
Fixpoint stopAll (left_ : result unit) (ms : list member) : option (list (list Lifecycle.action) * list member) :=
  match ms with
  | [] => Some ([], [])
  | m :: ms' =>
      match callMember (Lifecycle.CStop left_) m with
      | None => None
      | Some (t, m) => match stopAll left_ ms' with None => None | Some (ts, ms) => Some (t :: ts, m :: ms) end
      end
  end.

(** [Cluster.Stop]: every server, which stops its database, and then every database. *)
Definition Stop (left_ : result unit) (ms : list member)
    : option (list (list Lifecycle.action) * list (list Lifecycle.action) * list member) :=
  match stopAll left_ ms with
  | None => None
  | Some (ts, ms) => match stopAll left_ ms with None => None | Some (ts', ms) => Some (ts, ts', ms) end
  end.

(** [Cluster.HardStop]. *)
Definition HardStop (left_ : result unit) (ms : list member) : option (list (list Lifecycle.action) * list member) :=
  stopAll left_ ms.

(** [stopDatabase]: the first node with that identity. *)
Fixpoint stopDatabase (left_ : result unit) (node : string) (ms : list member) : option (list member) :=
  match ms with
  | [] => Some []
  | m :: ms' =>
      if bool_decide (Builder.dbNodeID (m_db m) = node)
      then match callMember (Lifecycle.CStop left_) m with None => None | Some (_, m) => Some (m :: ms') end
      else match stopDatabase left_ node ms' with None => None | Some ms => Some (m :: ms) end
  end.

(** ** NewCluster *)

(** The nodes made, or the error with the nodes that were stopped again. *)
Inductive made := Made (ms : list member) | Failed (e : goerr) (ms : list member).

(** [None]: [GossipAddr], or the [Stop] after an error, panics. *)
Fixpoint newClusterLoop (n i : nat) (basePort : Z) (seedAddr dataDir : string) (creds : option string) (fastTest : bool)
    (left_ : result unit) (acc : list member) : option made :=
  match n with
  | O => Some (Made acc)
  | S n' =>
      match build (clusterBuilder i basePort seedAddr dataDir creds fastTest) with
      | Err e => match Stop left_ acc with None => None | Some (_, ms) => Some (Failed e ms) end
      | Ok m =>
          match (if (i =? 0)%nat then Builder.dbGossipAddr (m_db m) (bound i) else Some seedAddr) with
          | None => None
          | Some seedAddr => newClusterLoop n' (S i) basePort seedAddr dataDir creds fastTest left_ (acc ++ [m])
          end
      end
  end.

Definition newCluster (probe : Z -> Z -> bool) (q : Z) (nodeCount : nat) (dataDir : string) (creds : option string)
    (fastTest : bool) (left_ : result unit) : option made * Z :=
  let '(basePort, q) := getNextBasePort probe (Z.of_nat nodeCount) q in
  (newClusterLoop nodeCount 0 basePort EmptyString dataDir creds fastTest left_ [], q).

Definition NewCluster (probe : Z -> Z -> bool) (q : Z) (nodeCount : nat) (dataDir : string) (creds : option string)
    (left_ : result unit) : option made * Z := newCluster probe q nodeCount dataDir creds false left_.

(** ** Start *)

(** Per node: what joining and listening return, and the error that a server started before
    has already reported. *)
Record outcome := mkOutcome { joined : result unit; listen : result unit; served : option goerr }.

Fixpoint startLoop (outs : nat -> outcome) (left_ : result unit) (i : nat) (todo started : list member)
    : option (result unit * list member) :=
  match todo with
  | [] => Some (Ok tt, started)
  | m :: todo' =>
      let o := outs i in
      match callMember (Lifecycle.CStart (joined o)) m with
      | None => None
      | Some (_, m) =>
          match listen o, served o with
          | Err e, _ | Ok _, Some e =>
              match Stop left_ (started ++ m :: todo') with None => None | Some (_, ms) => Some (Err e, ms) end
          | Ok _, None => startLoop outs left_ (S i) todo' (started ++ [m])
          end
      end
  end.

Definition Start (outs : nat -> outcome) (left_ : result unit) (ms : list member) : option (result unit * list member) :=
  startLoop outs left_ 0 ms [].

(** ** addNode *)

Definition addNode (probe : Z -> Z -> bool) (q : Z) (i : nat) (name seedAddr dataDir : string) (creds : option string)
    (fastTest : bool) (o : outcome) (ms : list member) : option (result unit * list member) * Z :=
  let '(basePort, q) := getNextBasePort probe 1 q in
  let b := Builder.SetNodeID name (base i fastTest) in
  let b := Builder.SetCreds creds b in
  let b := Builder.SetBindPort basePort b in
  let b := Builder.SetGrpcPort (basePort + 1) b in
  let b := Builder.SetSeedNodes [seedAddr] b in
  let b := Builder.SetReplicationFailureMode Mesh.Lenient b in
  match build (setPaths dataDir name b) with
  | Err e => (Some (Err e, ms), q)
  | Ok m =>
      (match callMember (Lifecycle.CStart (joined o)) m with
       | None => None
       | Some (_, m) => Some (listen o, ms ++ [m])
       end, q)
  end.

End Nodes.
(** ** Theorems: ports *)

Definition taken (c : caller) : Z := match c with Took n _ => 20 * n | _ => 0 end.
Definition size (c : caller) : Z := match c with Loading n | Swapping n _ | Took n _ => n end.
Fixpoint sum (l : list Z) : Z := match l with [] => 0 | x :: l' => x + sum l' end.

(** The counter is where the reservations end, and they follow one another. *)
Definition reserved (total : Z) (s : ports) : Prop :=
  Forall (fun c => 0 < size c) (callers s) /\ sum ((fun c => 20 * size c) <$> callers s) = total /\
  nextBasePort s = 18000 + sum (taken <$> callers s) /\
  (forall i n c, callers s !! i = Some (Took n c) -> 18000 <= c /\ c + 20 * n <= nextBasePort s) /\
  (forall i j n c n' c', i <> j -> callers s !! i = Some (Took n c) -> callers s !! j = Some (Took n' c') ->
     c + 20 * n <= c' \/ c' + 20 * n' <= c).

Lemma port_sum_insert {A} (f : A -> Z) (l : list A) i x y :
  l !! i = Some x -> sum (f <$> <[i := y]> l) = sum (f <$> l) - f x + f y.
Proof.
  revert i. induction l as [|z l IH]; intros [|i]; cbn; try done; [intros [= ->]; lia|].
  intros Hi. specialize (IH i Hi). etrans; [apply (f_equal (Z.add (f z))), IH|]. lia.
Qed.

Lemma sum_le {A} (f g : A -> Z) (l : list A) : Forall (fun x => f x <= g x) l -> sum (f <$> l) <= sum (g <$> l).
Proof. induction 1; cbn in *; lia. Qed.

Lemma i32_small z : 0 <= z < 2 ^ 31 -> i32 z = z.
Proof. intros Hz. unfold i32. rewrite u32_small by lia. by destruct (Z.ltb_spec z (2 ^ 31)); [|lia]. Qed.

Lemma nextPort_below q n : 0 <= q -> 0 < n -> q + 20 * n < 60000 -> nextPort q n = q + 20 * n.
Proof.
  intros Hq Hn Hlt. unfold nextPort, stride. rewrite (i32_small (n * 20)), i32_small by lia.
  destruct (Z.leb_spec 60000 (q + n * 20)); lia.
Qed.

(** A step that does not take a port. *)
Lemma reserved_idle total q cs i x y :
  cs !! i = Some x -> size y = size x -> taken x = 0 -> taken y = 0 -> (forall n c, y <> Took n c) ->
  reserved total (mkPorts q cs) -> reserved total (mkPorts q (<[i := y]> cs)).
Proof.
  intros Hi Hsz Hx Hy Hny (Hpos & Htot & Hq & Hin & Hdis). cbn in *. unfold reserved. cbn.
  assert (forall j n c, <[i := y]> cs !! j = Some (Took n c) -> j <> i /\ cs !! j = Some (Took n c)) as Hold.
  { intros j n c. destruct (decide (j = i)) as [->|Hne]; [|by rewrite list_lookup_insert_ne].
    rewrite list_lookup_insert_eq by (by eapply lookup_lt_Some). intros [= Hyt]. by destruct (Hny n c). }
  split; [|split; [|split; [|split]]].
  - apply Forall_insert; [done|]. rewrite Hsz. by eapply (Forall_lookup_1 _ _ _ _ Hpos).
  - rewrite (port_sum_insert _ _ _ x) by done. rewrite Hsz. lia.
  - rewrite (port_sum_insert _ _ _ x) by done. lia.
  - intros j n c [_ Hj]%Hold. by eapply Hin.
  - intros j k n c n' c' Hne [_ Hj]%Hold [_ Hk]%Hold. by eapply Hdis.
Qed.

Lemma reserved_step total s s' : 18000 + total < 60000 -> port_step s s' -> reserved total s -> reserved total s'.
Proof.
  intros Hlt Hst Hr. destruct Hst as [q cs i n Hi|q cs i n Hi|q cs i n c Hi _]; [by eapply reserved_idle| |by eapply reserved_idle].
  destruct Hr as (Hpos & Htot & Hq & Hin & Hdis). cbn in *.
  assert (0 < n) as Hn by apply (Forall_lookup_1 _ _ _ _ Hpos Hi).
  assert (sum (taken <$> <[i := Took n q]> cs) <= total) as Hle.
  { rewrite <- Htot. transitivity (sum ((fun c => 20 * size c) <$> <[i := Took n q]> cs)).
    - apply sum_le, Forall_insert; [|cbn; lia]. eapply Forall_impl; [exact Hpos|]. intros []; cbn; lia.
    - rewrite (port_sum_insert _ _ _ (Swapping n q)) by done. cbn. lia. }
  rewrite (port_sum_insert _ _ _ (Swapping n q)) in Hle by done. cbn in Hle.
  assert (forall l : list caller, Forall (fun c => 0 < size c) l -> 0 <= sum (taken <$> l)) as Hnn.
  { induction 1 as [|[] l H _ IH]; cbn in *; lia. }
  specialize (Hnn cs Hpos). rewrite nextPort_below by lia. unfold reserved. cbn.
  assert (forall j m c, <[i := Took n q]> cs !! j = Some (Took m c) -> j = i /\ m = n /\ c = q \/ j <> i /\ cs !! j = Some (Took m c)) as Hold.
  { intros j m c. destruct (decide (j = i)) as [->|Hne]; [|rewrite list_lookup_insert_ne by done; by right].
    rewrite list_lookup_insert_eq by (by eapply lookup_lt_Some). intros [= <- <-]. by left. }
  split; [|split; [|split; [|split]]].
  - by apply Forall_insert.
  - rewrite (port_sum_insert _ _ _ (Swapping n q)) by done. cbn. lia.
  - rewrite (port_sum_insert _ _ _ (Swapping n q)) by done. cbn. lia.
  - intros j m c [(-> & -> & ->)|[_ Hj]]%Hold; [lia|]. pose proof (Hin _ _ _ Hj). lia.
  - intros j k m c m' c' Hne [(-> & -> & ->)|[_ Hj]]%Hold [(-> & -> & ->)|[_ Hk]]%Hold; [done| | |by eapply Hdis].
    + right. by apply (Hin _ _ _ Hk).
    + left. by apply (Hin _ _ _ Hj).
Qed.

(** Concurrent callers of [getNextBasePort] reserve disjoint ranges of twenty ports per
    node, all of them between 18000 and 60000, under every interleaving of their loads and
    compare-and-swaps, as long as the ranges asked for fit without wrapping around. *)
Theorem port_ranges_disjoint (sizes : list Z) s :
  Forall (fun n => 0 < n) sizes -> 18000 + sum ((fun n => 20 * n) <$> sizes) < 60000 ->
  rtc port_step (mkPorts firstBasePort (Loading <$> sizes)) s ->
  forall i n c, callers s !! i = Some (Took n c) ->
    18000 <= c /\ c + 20 * n < 60000 /\
    forall j n' c', i <> j -> callers s !! j = Some (Took n' c') -> c + 20 * n <= c' \/ c' + 20 * n' <= c.
Proof.
  intros Hpos Hfit Hr. set (total := sum ((fun n => 20 * n) <$> sizes)) in *.
  assert (reserved total (mkPorts firstBasePort (Loading <$> sizes))) as H0.
  { assert (forall i n c, (Loading <$> sizes) !! i <> Some (Took n c)) as Hno.
    { intros i n c. rewrite list_lookup_fmap. by destruct (sizes !! i). }
    unfold reserved. cbn. split; [by apply Forall_fmap|]. rewrite <- !list_fmap_compose. split; [done|].
    split; [|split; intros; exfalso; by eapply Hno].
    assert (sum (taken ∘ Loading <$> sizes) = 0) as -> by (clear; induction sizes; cbn in *; lia). done. }
  assert (reserved total s) as (Hps & Htot & Hq & Hin & Hdis) by (clear -Hr H0 Hfit; induction Hr; eauto using reserved_step).
  intros i n c Hi. destruct (Hin _ _ _ Hi). split; [done|]. split; [|by intros; eapply Hdis].
  assert (sum (taken <$> callers s) <= total); [|lia]. rewrite <- Htot. apply sum_le.
  eapply Forall_impl; [exact Hps|]. intros []; cbn; lia.
Qed.

Lemma scanPorts_spec n probe p nodeCount start :
  (exists k, (k < n)%nat /\ scanPorts n probe p nodeCount start = p + 2 * Z.of_nat k /\
     available probe (p + 2 * Z.of_nat k) nodeCount = true /\
     forall j, (j < k)%nat -> available probe (p + 2 * Z.of_nat j) nodeCount = false) \/
  scanPorts n probe p nodeCount start = start /\
  forall j, (j < n)%nat -> available probe (p + 2 * Z.of_nat j) nodeCount = false.
Proof.
  revert p. induction n as [|n IH]; intros p; cbn; [right; split; [done|lia]|].
  destruct (available probe p nodeCount) eqn:Ea.
  - left. exists 0%nat. rewrite Z.add_0_r. split; [lia|]. split; [done|]. split; [done|lia].
  - assert (forall j, p + 2 + 2 * Z.of_nat j = p + 2 * Z.of_nat (S j)) as Hs by lia.
    destruct (IH (p + 2)) as [(k & Hk & Hr & Ha & Hb)|[Hr Hb]]; [left; exists (S k)|right]; rewrite Hr.
    + rewrite Hs in Ha. rewrite Hs. split; [lia|]. split; [done|]. split; [done|]. intros [|j] Hj; [by rewrite Z.add_0_r|].
      rewrite <- Hs. apply Hb. lia.
    + split; [done|]. intros [|j] Hj; [by rewrite Z.add_0_r|]. rewrite <- Hs. apply Hb. lia.
Qed.

(** The reservation is not kept: when the ports that a caller reserved for one node are in
    use, [findAvailableBasePort] moves on into the range of the next caller, and both are given
    the same port. *)
Theorem reserved_ports_collide (probe : Z -> Z -> bool) c :
  0 <= c -> c + 20 < 60000 -> (forall p i, probe p i = (c + 20 <=? p + i)) ->
  findAvailableBasePort probe c 1 = findAvailableBasePort probe (nextPort c 1) 1.
Proof.
  intros Hc Hlt Hp. rewrite nextPort_below by lia.
  assert (forall q, available probe q 1 = (c + 20 <=? q)) as Ha.
  { intros q. unfold available. change (seq 0 (Z.to_nat (1 * 2))) with [0; 1]%nat. cbn. rewrite !Hp. lia. }
  transitivity (c + 20); unfold findAvailableBasePort.
  - destruct (scanPorts_spec 250 probe c 1 c) as [(k & Hk & -> & Hav & Hbefore)|[_ Hno]].
    + rewrite Ha in Hav. destruct (decide (k = 10%nat)) as [->|]; [done|].
      specialize (Hbefore 10%nat). rewrite Ha in Hbefore. lia.
    + specialize (Hno 10%nat ltac:(lia)). rewrite Ha in Hno. lia.
  - change (c + 20 * 1) with (c + 20). cbn [scanPorts]. by rewrite Ha, Z.leb_refl.
Qed.

(** ** Theorems: nodes *)

Lemma nodeName_inj i j : nodeName i = nodeName j -> i = j.
Proof. unfold nodeName. intros He%string_app_inj_l%(inj pretty). lia. Qed.

Lemma pretty_N_go_no_slash x s :
  GoLib.slash ∉ string_bytes s -> GoLib.slash ∉ string_bytes (pretty_N_go x s).
Proof.
  revert s. induction (N.lt_wf_0 x) as [x _ IH]; intros s Hs. destruct (decide (0 < x)%N) as [Hx|Hx].
  - rewrite pretty_N_go_step by done. apply IH; [apply N.div_lt; lia|]. change (string_bytes (String ?c s)) with (c :: string_bytes s).
    apply not_elem_of_cons. split; [|done]. unfold pretty_N_char. by repeat case_match.
  - replace x with 0%N by lia. by rewrite pretty_N_go_0.
Qed.

Lemma nodeName_plain i : GoLib.plain (string_bytes (nodeName i)).
Proof.
  unfold nodeName. rewrite string_bytes_app. split; [|by split; [|split]]. apply not_elem_of_app.
  split; [apply (bool_decide_unpack _); vm_compute; exact I|].
  destruct (Z.of_nat i + 1) as [|z|z] eqn:Ez; [lia| |lia]. unfold pretty, pretty_Z, pretty, pretty_positive, pretty, pretty_N.
  rewrite decide_False by lia. apply pretty_N_go_no_slash. cbn. apply not_elem_of_nil.
Qed.

Section NodeTheory.
Context `{HX : XXHash} `{HR : Radix} {W C E M : Type} `{HW : Waler W} `{HC : Clocker C} `{HE : Evictor E}
  `{HM : Mesh.Mesher M}.
Variables (lru : nat -> E) (clk : nat -> C) (id : nat -> string) (freeGossip freeGrpc : nat -> Z).
Variable newEngine : Builder.DatabaseBuilder (C := C) (E := E) -> result (engine W C E).
Variable newMesh : Mesh.Config -> result M.
Variable bound : nat -> Z.

Implicit Types (m : member (W := W) (C := C) (E := E) (M := M)).

Abbreviation clusterBuilder' := (clusterBuilder lru clk id freeGossip freeGrpc).
Abbreviation newClusterLoop' := (newClusterLoop lru clk id freeGossip freeGrpc newEngine newMesh bound).

Lemma newClusterLoop_rest n i basePort seed dataDir creds fastTest left_ acc ms :
  (0 < i)%nat -> newClusterLoop' n i basePort seed dataDir creds fastTest left_ acc = Some (Made ms) ->
  exists tail, ms = acc ++ tail /\ length tail = n /\ forall k m, tail !! k = Some m ->
    build newEngine newMesh (clusterBuilder' (i + k) basePort seed dataDir creds fastTest) = Ok m.
Proof.
  revert i acc. induction n as [|n IH]; intros i acc Hi; cbn [newClusterLoop].
  { intros [= ->]. exists []. by rewrite app_nil_r. }
  destruct (build _ _ _) as [m|e] eqn:Eb; [|by destruct (Stop left_ acc) as [[??]|]].
  destruct (Nat.eqb_spec i 0); [lia|]. intros Hl. apply IH in Hl as (tail & -> & Hlen & Ht); [|lia].
  exists (m :: tail). rewrite <- app_assoc. split; [done|]. split; [cbn; lia|].
  intros [|k] m'; cbn; [intros [= <-]; by rewrite Nat.add_0_r|]. intros Hk. rewrite <- Nat.add_succ_comm. by apply Ht.
Qed.

Lemma newCluster_members n basePort dataDir creds fastTest left_ ms :
  newClusterLoop' n 0 basePort EmptyString dataDir creds fastTest left_ [] = Some (Made ms) ->
  length ms = n /\ exists seed,
    (forall m, ms !! 0%nat = Some m -> Builder.dbGossipAddr (m_db m) (bound 0) = Some seed) /\
    forall i m, ms !! i = Some m -> exists s, (0 < i -> s = seed)%nat /\
      build newEngine newMesh (clusterBuilder' i basePort s dataDir creds fastTest) = Ok m.
Proof.
  destruct n as [|n]; cbn [newClusterLoop]; [intros [= <-]; by split; [|exists EmptyString]|].
  destruct (build _ _ _) as [m|e] eqn:Eb; [|done].
  cbn [Nat.eqb]. destruct (Builder.dbGossipAddr (m_db m) (bound 0)) as [seed|] eqn:Eg; [|done].
  intros (tail & -> & Hlen & Ht)%newClusterLoop_rest; [|lia]. split; [cbn; lia|]. exists seed. split.
  { by intros m' [= <-]. }
  intros [|i] m'; cbn; [intros [= <-]; exists EmptyString; split; [lia|done]|]. intros Hi. exists seed. split; [done|]. by apply (Ht i).
Qed.

Lemma build_ok_addr b m :
  build newEngine newMesh b = Ok m ->
  m_builder m = b /\ m_life m = Lifecycle.fresh b /\ Builder.dbNodeID (m_db m) = Mesh.NodeID (Builder.meshBuilder b) /\
  Builder.dbAddr (m_db m) = Some (Mesh.hostPort (Mesh.BindAddr (Builder.meshBuilder b)) (Mesh.GrpcPort (Builder.meshBuilder b))).
Proof.
  unfold build. destruct (Builder.Build _ _ _) as [d|e] eqn:Eb; [|done]. intros [= <-]. cbn.
  by destruct (Builder.build_addr _ _ _ _ Eb) as (? & ? & _).
Qed.

Lemma clusterBuilder_config i basePort seed dataDir creds fastTest :
  let b := clusterBuilder' i basePort seed dataDir creds fastTest in
  let c := Builder.meshBuilder b in
  Mesh.NodeID c = nodeName i /\ Mesh.BindAddr c = "127.0.0.1"%string /\ Mesh.BindPort c = basePort + 2 * Z.of_nat i /\
  Mesh.GrpcPort c = basePort + 2 * Z.of_nat i + 1 /\ Mesh.SeedNodes c = (if (0 <? i)%nat then [seed] else []) /\
  Builder.walPath b = (if bool_decide (dataDir <> EmptyString) then GoLib.FilepathJoin [dataDir; nodeName i; "wal"] else "data/wal")%string /\
  Builder.snpPath b = (if bool_decide (dataDir <> EmptyString) then GoLib.FilepathJoin [dataDir; nodeName i; "snp.gob"] else "data/snapshot.bin")%string.
Proof.
  unfold clusterBuilder, setPaths, base. rewrite (Z.mul_comm 2).
  destruct (0 <? i)%nat, fastTest; case_bool_decide; cbn; done.
Qed.

(** What [NewCluster] lays out when every node can be built: as many nodes as asked for,
    named node-1, node-2, ..., on consecutive pairs of ports from the base port, each seeded
    with the gossip address of the first; no two share a name or a port, nor, given a data
    directory, a log or a snapshot.  Without one they all share the same log and snapshot. *)
Theorem cluster_layout n basePort dataDir creds fastTest left_ ms :
  newClusterLoop' n 0 basePort EmptyString dataDir creds fastTest left_ [] = Some (Made ms) ->
  length ms = n /\
  (forall i m, ms !! i = Some m ->
     let b := m_builder m in let c := Builder.meshBuilder b in
     Builder.dbNodeID (m_db m) = nodeName i /\ Mesh.BindPort c = basePort + 2 * Z.of_nat i /\
     Builder.dbAddr (m_db m) = Some (Mesh.hostPort "127.0.0.1" (basePort + 2 * Z.of_nat i + 1)) /\
     ((0 < i)%nat -> forall m0, ms !! 0%nat = Some m0 ->
        exists seed, Builder.dbGossipAddr (m_db m0) (bound 0) = Some seed /\ Mesh.SeedNodes c = [seed]) /\
     (dataDir = EmptyString -> Builder.walPath b = "data/wal"%string)) /\
  (forall i j m m', i <> j -> ms !! i = Some m -> ms !! j = Some m' ->
     let b := m_builder m in let b' := m_builder m' in
     let c := Builder.meshBuilder b in let c' := Builder.meshBuilder b' in
     Builder.dbNodeID (m_db m) <> Builder.dbNodeID (m_db m') /\
     [Mesh.BindPort c; Mesh.GrpcPort c] ## [Mesh.BindPort c'; Mesh.GrpcPort c'] /\
     (dataDir <> EmptyString -> Builder.walPath b <> Builder.walPath b' /\ Builder.snpPath b <> Builder.snpPath b')).
Proof.
  intros (Hlen & seed & Hseed & Hms)%newCluster_members. split; [done|]. split.
  - intros i m Hi. destruct (Hms i m Hi) as (s & Hs & Hb). destruct (build_ok_addr _ _ Hb) as (Hmb & _ & Hid & Haddr).
    destruct (clusterBuilder_config i basePort s dataDir creds fastTest) as (H1 & H2 & H3 & H4 & H5 & H6 & _).
    cbn zeta. rewrite Hmb, Hid, Haddr, H1, H2, H4, H3, H5, H6. repeat (split; [done|]). split.
    + intros Hpos m0 Hm0. exists seed. split; [by apply Hseed|]. rewrite (Hs Hpos). by destruct (Nat.ltb_spec 0 i); [|lia].
    + intros ->. by rewrite bool_decide_false by naive_solver.
  - intros i j m m' Hne Hi Hj. cbn zeta.
    destruct (Hms i m Hi) as (s & _ & Hb), (Hms j m' Hj) as (s' & _ & Hb').
    destruct (build_ok_addr _ _ Hb) as (-> & _ & -> & _), (build_ok_addr _ _ Hb') as (-> & _ & -> & _).
    destruct (clusterBuilder_config i basePort s dataDir creds fastTest) as (-> & _ & -> & -> & _ & -> & ->).
    destruct (clusterBuilder_config j basePort s' dataDir creds fastTest) as (-> & _ & -> & -> & _ & -> & ->).
    split; [by intros ?%nodeName_inj|]. split; [set_unfold; lia|]. intros Hd. rewrite bool_decide_true by done.
    split; intros He; apply Hne, nodeName_inj; eapply GoLib.join_plain_inj; try exact He; try done; try apply nodeName_plain;
      apply (bool_decide_unpack _); vm_compute; exact I.
Qed.

(** ** Stopping *)

Lemma callMember_stop left_ m t m' :
  callMember (Lifecycle.CStop left_) m = Some (t, m') ->
  Lifecycle.topStopped (m_life m') = true /\ (Lifecycle.topStopped (m_life m) = true -> t = []).
Proof.
  unfold callMember. destruct (Lifecycle.databaseCall _ _) as [t1 l] eqn:Ec. destruct (panics t1); [done|]. intros [= <- <-].
  destruct (Lifecycle.stop_shape _ _ _ _ Ec) as (_ & Hs & _ & Ht). split; [done|]. intros Hst. rewrite Hst in Ht.
  by apply sublist_nil_r in Ht.
Qed.

Lemma stopAll_stops left_ ms ts ms' :
  stopAll left_ ms = Some (ts, ms') ->
  Forall (fun m => Lifecycle.topStopped (m_life m) = true) ms' /\ length ms' = length ms /\
  (Forall (fun m => Lifecycle.topStopped (m_life m) = true) ms -> Forall (eq []) ts).
Proof.
  revert ts ms'. induction ms as [|m ms IH]; intros ts ms'; cbn; [intros [= <- <-]; by repeat constructor|].
  destruct (callMember _ m) as [[t m1]|] eqn:Ec; [|done]. destruct (stopAll left_ ms) as [[ts1 ms1]|] eqn:Es; [|done].
  intros [= <- <-]. destruct (callMember_stop _ _ _ _ Ec) as [Hs Ht], (IH _ _ eq_refl) as (Hall & Hlen & Hts).
  split; [by constructor|]. split; [cbn; lia|]. intros [Hm Hms]%Forall_cons. constructor; [by rewrite Ht|by apply Hts].
Qed.

Lemma Stop_stops left_ ms ts ts' ms' :
  Stop left_ ms = Some (ts, ts', ms') ->
  Forall (fun m => Lifecycle.topStopped (m_life m) = true) ms' /\ length ms' = length ms /\ Forall (eq []) ts'.
Proof.
  unfold Stop. destruct (stopAll left_ ms) as [[t1 ms1]|] eqn:E1; [|done]. destruct (stopAll left_ ms1) as [[t2 ms2]|] eqn:E2; [|done].
  intros [= <- <- <-]. destruct (stopAll_stops _ _ _ _ E1) as (H1 & L1 & _), (stopAll_stops _ _ _ _ E2) as (H2 & L2 & H3).
  split; [done|]. split; [lia|by apply H3].
Qed.

(** A cluster that cannot start leaves no node running: when [Start] returns an error,
    every node, started or not, has been stopped; and the second pass of [Stop] over the
    databases, which the servers have stopped already, does nothing. *)
Theorem failed_start_stops_all outs left_ ms e ms' :
  Start outs left_ ms = Some (Err e, ms') ->
  length ms' = length ms /\ Forall (fun m => Lifecycle.topStopped (m_life m) = true) ms' /\
  forall ts ts' ms2, Stop left_ ms' = Some (ts, ts', ms2) -> Forall (eq []) ts /\ Forall (eq []) ts'.
Proof.
  unfold Start. intros Hst.
  assert (length ms' = length ms /\ Forall (fun m => Lifecycle.topStopped (m_life m) = true) ms') as [Hlen Hall].
  { change (length ms) with (length (@nil (member (W := W) (C := C) (E := E) (M := M))) + length ms)%nat.
    revert Hst. generalize 0%nat. generalize (@nil (member (W := W) (C := C) (E := E) (M := M))).
    induction ms as [|m ms IH]; intros acc i; cbn [startLoop]; [done|].
    destruct (callMember _ m) as [[t m1]|]; [|done].
    assert (forall err, match Stop left_ (acc ++ m1 :: ms) with None => None | Some (_, x) => Some (Err (A := unit) err, x) end = Some (Err e, ms') ->
      length ms' = (length acc + length (m :: ms))%nat /\ Forall (fun m => Lifecycle.topStopped (m_life m) = true) ms') as Hstop.
    { intros err. destruct (Stop left_ _) as [[[ts ts'] ms2]|] eqn:Es; [|done]. intros [= _ <-].
      destruct (Stop_stops _ _ _ _ _ Es) as (Ha & Hl & _). rewrite length_app in Hl. by split. }
    destruct (listen (outs i)); [destruct (served (outs i))|]; [by apply Hstop| |by apply Hstop].
    intros Hl. apply IH in Hl as [Hl Ha]. rewrite length_app in Hl. cbn in *. split; [lia|done]. }
  split; [done|]. split; [done|]. intros ts ts' ms2 Hs. unfold Stop in Hs.
  destruct (stopAll left_ ms') as [[t1 ms1]|] eqn:E1; [|done]. destruct (stopAll left_ ms1) as [[t2 ms3]|] eqn:E2; [|done].
  injection Hs as <- <- <-. destruct (stopAll_stops _ _ _ _ E1) as (H1 & _ & H2), (stopAll_stops _ _ _ _ E2) as (_ & _ & H3).
  by split; [apply H2|apply H3].
Qed.

End NodeTheory.
(** ** Examples *)

Module TestClusterExamples.
Import Fnv GmapRadix EngineExamples.
#[local] Existing Instance EntropyExamples.full_mesher.

(** Two callers that both load the counter before the first of them swaps it. *)
Lemma port_ranges_disjoint_witness :
  exists s, rtc port_step (mkPorts firstBasePort (Loading <$> [3; 1])) s /\ callers s = [Took 3 18000; Took 1 18060] /\
    (18000 + 20 * 3 <= 18060 \/ 18060 + 20 * 1 <= 18000).
Proof.
  exists (mkPorts 18080 [Took 3 18000; Took 1 18060]).
  assert (rtc port_step (mkPorts firstBasePort (Loading <$> [3; 1])) (mkPorts 18080 [Took 3 18000; Took 1 18060])) as Hr.
  { eapply rtc_l; [apply (port_load _ [Loading 3; Loading 1] 0 3); reflexivity|]. cbn.
    eapply rtc_l; [apply (port_load _ [Swapping 3 18000; Loading 1] 1 1); reflexivity|]. cbn.
    eapply rtc_l; [apply (port_swap _ [Swapping 3 18000; Swapping 1 18000] 0 3); reflexivity|]. cbn.
    eapply rtc_l; [apply (port_retry _ [Took 3 18000; Swapping 1 18000] 1 1 18000); [reflexivity|vm_compute; discriminate]|]. cbn.
    eapply rtc_l; [apply (port_load _ [Took 3 18000; Loading 1] 1 1); reflexivity|]. cbn.
    apply rtc_once. apply (port_swap 18060 [Took 3 18000; Swapping 1 18060] 1 1). reflexivity. }
  split; [exact Hr|]. split; [reflexivity|].
  destruct (port_ranges_disjoint [3; 1] (mkPorts 18080 [Took 3 18000; Took 1 18060])) with (i := 0%nat) (n := 3) (c := 18000)
    as (_ & _ & Hd).
  - by repeat constructor.
  - vm_compute. reflexivity.
  - exact Hr.
  - reflexivity.
  - apply (Hd 1%nat 1 18060); [discriminate|reflexivity].
Defined.

Lemma reserved_ports_collide_witness :
  findAvailableBasePort (fun p i => 18020 <=? p + i) 18000 1 = findAvailableBasePort (fun p i => 18020 <=? p + i) (nextPort 18000 1) 1.
Proof. apply (reserved_ports_collide _ 18000); [lia|lia|reflexivity]. Defined.

Definition two_nodes (dataDir : string) : option (made (W := NopWal) (C := timedClock) (E := node_evictor) (M := EntropyExamples.fullMesh)) :=
  newClusterLoop (fun _ => some_lru) (fun _ => some_clock 5) (fun _ => "id"%string) (fun _ => 7946) (fun _ => 50051)
    (fun _ => Ok some_engine) (fun _ => Ok EntropyExamples.both) (fun _ => 0) 2 0 18000 EmptyString dataDir (Some "insecure"%string) true (Ok tt) [].

Definition is_made (x : option (made (W := NopWal) (C := timedClock) (E := node_evictor) (M := EntropyExamples.fullMesh))) : bool :=
  match x with Some (Made _) => true | _ => false end.

Lemma is_made_ok x : is_made x = true -> exists ms, x = Some (Made ms).
Proof. destruct x as [[ms|]|]; [by exists ms|done..]. Qed.

Lemma cluster_layout_witness : exists ms, two_nodes "data" = Some (Made ms) /\ length ms = 2%nat.
Proof.
  destruct (is_made_ok (two_nodes "data")) as [ms Hms]; [vm_compute; reflexivity|]. exists ms. split; [exact Hms|].
  apply (cluster_layout _ _ _ _ _ _ _ _ _ _ _ _ _ _ _ Hms).
Defined.

(** The second node cannot listen. *)
Definition second_fails (i : nat) : outcome :=
  mkOutcome (Ok tt) (if (i =? 1)%nat then Err (ErrMsg "address already in use") else Ok tt) None.

Definition start_result (ms : list (member (W := NopWal) (C := timedClock) (E := node_evictor) (M := EntropyExamples.fullMesh))) : bool :=
  match Start second_fails (Ok tt) ms with Some (Err _, _) => true | _ => false end.

Lemma start_result_err ms : start_result ms = true -> exists e ms', Start second_fails (Ok tt) ms = Some (Err e, ms').
Proof. unfold start_result. destruct (Start _ _ ms) as [[[|e] ms']|]; [done|by exists e, ms'|done]. Qed.

Definition nodes (x : option (made (W := NopWal) (C := timedClock) (E := node_evictor) (M := EntropyExamples.fullMesh)))
    : list (member (W := NopWal) (C := timedClock) (E := node_evictor) (M := EntropyExamples.fullMesh)) :=
  match x with Some (Made ms) => ms | _ => [] end.

Lemma failed_start_stops_all_witness :
  exists e ms', Start second_fails (Ok tt) (nodes (two_nodes "data")) = Some (Err e, ms') /\
    Forall (fun m => Lifecycle.topStopped (m_life m) = true) ms'.
Proof.
  destruct (start_result_err (nodes (two_nodes "data"))) as (e & ms' & Hs); [vm_compute; reflexivity|].
  exists e, ms'. split; [exact Hs|]. apply (failed_start_stops_all _ _ _ _ _ Hs).
Defined.

End TestClusterExamples.
End TestCluster.
