(* ===== verification/CacheConc.v ===== *)
(** * The client cache under concurrency (src/cluster/gateway/clientcache.go)

    Any number of goroutines in [Get] and [Close], interleaved at every access to shared state:
    the closed flag, the map of clients, the mutex, and singleflight, which lets one caller per
    address run the dialling function while the others wait for its result.  A client is the
    number of its connection; dialling may fail. *)

From S2P Require Import Prelude.
From stdpp Require Import relations.

Module CacheConc.

(** A goroutine in [Get addr], by the next shared access it makes: the closed flag, the map,
    singleflight, the map again, the dialling, the mutex, the flag under the mutex, the
    [LoadOrStore], the closing of a client that is not kept.  [None] as a result is an error. *)
Inductive thread :=
| GCheck (a : string)
| GFast (a : string)
| GJoin (a : string)
| GWait (a : string)
| GInner (a : string)
| GDial (a : string)
| GLock (a : string) (c : nat)
| GTest (a : string) (c : nat)
| GStore (a : string) (c : nat)
| GDiscard (a : string) (c : nat) (r : option nat)
| GDone (a : string) (r : option nat)
(** ... and in [Close]: the compare-and-swap, the mutex, the loop over the clients, returned
    (having closed the cache, or not). *)
| KSwap
| KLock
| KRange
| KDone (closer : bool).

Record state := mkState {
  closed : bool;
  clients : gmap string nat;
  mu : option nat;
  flight : gset string;
  opened : gset nat;
  fresh : nat;
  threads : list thread
}.

(** The waiters of [a] share the result of the one that ran. *)
Definition wake (a : string) (r : option nat) (t : thread) : thread :=
  match t with GWait a' => if bool_decide (a' = a) then GDone a' r else t | _ => t end.

Definition goto (s : state) (i : nat) (t : thread) : state :=
  mkState (closed s) (clients s) (mu s) (flight s) (opened s) (fresh s) (<[i := t]> (threads s)).

Definition with_mu (s : state) (m : option nat) : state :=
  mkState (closed s) (clients s) m (flight s) (opened s) (fresh s) (threads s).

Definition with_clients (s : state) (m : gmap string nat) : state :=
  mkState (closed s) m (mu s) (flight s) (opened s) (fresh s) (threads s).

Definition closeClient (s : state) (c : nat) : state :=
  mkState (closed s) (clients s) (mu s) (flight s) (opened s ∖ {[c]}) (fresh s) (threads s).

(** The dialling function returns [r]: singleflight forgets the call and hands out [r]. *)
Definition finish (s : state) (i : nat) (a : string) (r : option nat) : state :=
  mkState (closed s) (clients s) (mu s) (flight s ∖ {[a]}) (opened s) (fresh s)
    (<[i := GDone a r]> (wake a r <$> threads s)).

(** One step of goroutine [i]; [dials] is whether dialling succeeds, [k] the key that the loop
    of [Close] comes to next.  [None]: it cannot move. *)
Definition stepGet (s : state) (i : nat) (dials : bool) (t : thread) : option state :=
  match t with
  | GCheck a => Some (goto s i (if closed s then GDone a None else GFast a))
  | GFast a => Some (goto s i (match clients s !! a with Some c => GDone a (Some c) | None => GJoin a end))
  | GJoin a =>
      if bool_decide (a ∈ flight s) then Some (goto s i (GWait a))
      else Some (goto (mkState (closed s) (clients s) (mu s) ({[a]} ∪ flight s) (opened s) (fresh s) (threads s)) i (GInner a))
  | GInner a => Some (match clients s !! a with Some c => finish s i a (Some c) | None => goto s i (GDial a) end)
  | GDial a =>
      if dials
      then Some (goto (mkState (closed s) (clients s) (mu s) (flight s) ({[fresh s]} ∪ opened s) (S (fresh s)) (threads s)) i
                   (GLock a (fresh s)))
      else Some (finish s i a None)
  | GLock a c => match mu s with None => Some (goto (with_mu s (Some i)) i (GTest a c)) | Some _ => None end
  | GTest a c => Some (if closed s then goto (with_mu s None) i (GDiscard a c None) else goto s i (GStore a c))
  | GStore a c =>
      Some (match clients s !! a with
            | Some actual => goto (with_mu s None) i (GDiscard a c (Some actual))
            | None => finish (with_clients (with_mu s None) (<[a := c]> (clients s))) i a (Some c)
            end)
  | GDiscard a c r => Some (finish (closeClient s c) i a r)
  | _ => None
  end.

Definition stepClose (s : state) (i : nat) (k : string) (t : thread) : option state :=
  match t with
  | KSwap =>
      if closed s then Some (goto s i (KDone false))
      else Some (goto (mkState true (clients s) (mu s) (flight s) (opened s) (fresh s) (threads s)) i KLock)
  | KLock => match mu s with None => Some (goto (with_mu s (Some i)) i KRange) | Some _ => None end
  | KRange =>
      match clients s !! k with
      | Some c => Some (closeClient (with_clients s (delete k (clients s))) c)
      | None => if bool_decide (clients s = ∅) then Some (goto (with_mu s None) i (KDone true)) else None
      end
  | _ => None
  end.

Definition step (s s' : state) : Prop :=
  exists i t dials k, threads s !! i = Some t /\ (stepGet s i dials t = Some s' \/ stepClose s i k t = Some s').

Definition init (ts : list thread) : state := mkState false ∅ None ∅ ∅ 0 ts.

(** A call that has not begun. *)
Definition begins (t : thread) : Prop := match t with GCheck _ | KSwap => True | _ => False end.

(** ** What a goroutine holds *)

(** A connection it opened and has not handed over. *)
Definition holds (t : thread) : option nat :=
  match t with GLock _ c | GTest _ c | GStore _ c | GDiscard _ c _ => Some c | _ => None end.
(** The address it dials for. *)
Definition leads (t : thread) : option string :=
  match t with GInner a | GDial a | GLock a _ | GTest a _ | GStore a _ | GDiscard a _ _ => Some a | _ => None end.
(** The same, after it found the map without the address and before it stored. *)
Definition missing (t : thread) : option string :=
  match t with GDial a | GLock a _ | GTest a _ | GStore a _ => Some a | _ => None end.
Definition locks (t : thread) : bool := match t with GTest _ _ | GStore _ _ | KRange => true | _ => false end.
Definition storing (t : thread) : bool := match t with GStore _ _ => true | _ => false end.
Definition closing (t : thread) : bool := match t with KLock | KRange | KDone true => true | _ => false end.

Implicit Types (s : state) (t : thread).

Definition runs s i t : Prop := threads s !! i = Some t.

(** The invariant of every interleaving. *)
Record ok s : Prop := {
  ok_mu : forall i t, runs s i t -> locks t = true <-> mu s = Some i;
  ok_lead : forall i t a, runs s i t -> leads t = Some a -> a ∈ flight s;
  ok_lead1 : forall i j t t' a, runs s i t -> runs s j t' -> leads t = Some a -> leads t' = Some a -> i = j;
  ok_missing : forall i t a, runs s i t -> missing t = Some a -> clients s !! a = None;
  ok_fresh : forall c, c ∈ opened s -> (c < fresh s)%nat;
  ok_held : forall i t c, runs s i t -> holds t = Some c -> c ∈ opened s /\ forall a, clients s !! a <> Some c;
  ok_held1 : forall i j t t' c, runs s i t -> runs s j t' -> holds t = Some c -> holds t' = Some c -> i = j;
  ok_cached : forall a c, clients s !! a = Some c -> c ∈ opened s;
  ok_cached1 : forall a b c, clients s !! a = Some c -> clients s !! b = Some c -> a = b;
  ok_opened : forall c, c ∈ opened s -> (exists a, clients s !! a = Some c) \/ exists i t, runs s i t /\ holds t = Some c;
  ok_closing : forall i t, runs s i t -> closing t = true -> closed s = true;
  ok_closed : forall i, runs s i (KDone true) -> clients s = ∅ /\ forall j t, runs s j t -> storing t = false
}.

(** ** Looking at the goroutines after a step *)

Lemma holds_wake a r t : holds (wake a r t) = holds t.
Proof. destruct t; cbn; try done. by case_bool_decide. Qed.
Lemma leads_wake a r t : leads (wake a r t) = leads t.
Proof. destruct t; cbn; try done. by case_bool_decide. Qed.
Lemma missing_wake a r t : missing (wake a r t) = missing t.
Proof. destruct t; cbn; try done. by case_bool_decide. Qed.
Lemma locks_wake a r t : locks (wake a r t) = locks t.
Proof. destruct t; cbn; try done. by case_bool_decide. Qed.
Lemma storing_wake a r t : storing (wake a r t) = storing t.
Proof. destruct t; cbn; try done. by case_bool_decide. Qed.
Lemma closing_wake a r t : closing (wake a r t) = closing t.
Proof. destruct t; cbn; try done. by case_bool_decide. Qed.
Lemma wake_done a r t b : wake a r t = KDone b -> t = KDone b.
Proof. destruct t; cbn; try done. by case_bool_decide. Qed.

Create Rewrite HintDb wake.
#[local] Hint Rewrite holds_wake leads_wake missing_wake locks_wake storing_wake closing_wake : wake.

(** [moved f s s' i t']: goroutine [i] is at [t'] and every other at [f] of where it was. *)
Definition moved (f : thread -> thread) s s' (i : nat) t' : Prop :=
  forall j u, runs s' j u <-> j = i /\ u = t' \/ j <> i /\ exists v, runs s j v /\ u = f v.

Lemma goto_moved s0 s i t t' : threads s0 = threads s -> runs s i t -> moved (fun u => u) s (goto s0 i t') i t'.
Proof.
  intros He Hi j u. unfold runs in *. cbn. rewrite He. destruct (decide (j = i)) as [->|Hne].
  - rewrite list_lookup_insert_eq by (by eapply lookup_lt_Some). naive_solver.
  - rewrite list_lookup_insert_ne by done. naive_solver.
Qed.

Lemma finish_moved s0 s i t a r : threads s0 = threads s -> runs s i t -> moved (wake a r) s (finish s0 i a r) i (GDone a r).
Proof.
  intros He Hi j u. unfold runs in *. cbn. rewrite He. destruct (decide (j = i)) as [->|Hne].
  - rewrite list_lookup_insert_eq by (rewrite length_fmap; by eapply lookup_lt_Some). naive_solver.
  - rewrite list_lookup_insert_ne, list_lookup_fmap by done. destruct (threads s !! j); naive_solver.
Qed.

(** A relabelling of goroutines that keeps what they hold. *)
Definition harmless (f : thread -> thread) : Prop :=
  forall u, holds (f u) = holds u /\ leads (f u) = leads u /\ missing (f u) = missing u /\ locks (f u) = locks u /\
    storing (f u) = storing u /\ closing (f u) = closing u /\ (f u = KDone true -> u = KDone true).

Lemma harmless_id : harmless (fun u => u).
Proof. done. Qed.

Lemma harmless_wake a r : harmless (wake a r).
Proof. intros u. autorewrite with wake. repeat (split; [done|]). apply wake_done. Qed.

#[local] Hint Resolve harmless_id harmless_wake : core.

(** ** Steps that leave the map and the connections alone *)

(** The goroutine does not come to hold anything new but possibly the mutex or an address. *)
Lemma ok_control f s s' i t t' :
  ok s -> runs s i t -> harmless f -> moved f s s' i t' ->
  clients s' = clients s -> opened s' = opened s -> fresh s' = fresh s ->
  (closed s = true -> closed s' = true) -> holds t' = holds t ->
  mu s' = (if locks t' then Some i else if locks t then None else mu s) -> (locks t' = true -> locks t = true \/ mu s = None) ->
  (forall a, leads t' = Some a -> a ∈ flight s' /\ (leads t = Some a \/ a ∉ flight s)) ->
  (forall a, a ∈ flight s -> a ∈ flight s' \/ leads t = Some a /\ leads t' = None) ->
  (forall a, missing t' = Some a -> missing t = Some a \/ leads t = Some a /\ clients s !! a = None) ->
  (closing t' = true -> closed s' = true) ->
  (t' = KDone true -> clients s = ∅ /\ locks t = true) ->
  (storing t' = true -> storing t = true \/ closed s = false) ->
  ok s'.
Proof.
  intros Hok Hi Hf Hm Hcl Hop Hfr Hcd Hho Hmu Hmu' Hle Hfl Hmi Hcg Hkd Hst.
  assert (forall j u, runs s' j u -> j = i /\ u = t' \/ j <> i /\ exists v, runs s j v /\ holds u = holds v /\ leads u = leads v /\
    missing u = missing v /\ locks u = locks v /\ storing u = storing v /\ closing u = closing v /\ (u = KDone true -> v = KDone true)) as Hr.
  { intros j u [?|(Hne & v & Hv & ->)]%Hm; [by left|right]. split; [done|]. exists v. split; [done|]. apply Hf. }
  destruct Hok as [Omu Ole Ole1 Omi Ofr Ohe Ohe1 Oca Oca1 Oop Ocg Ocd].
  constructor; rewrite ?Hcl, ?Hop, ?Hfr; try done.
  - intros j u [[-> ->]|(Hne & v & Hv & _ & _ & _ & El & _)]%Hr.
    + rewrite Hmu. pose proof (Omu _ _ Hi). destruct (locks t'), (locks t); naive_solver.
    + rewrite El, (Omu _ _ Hv), Hmu. pose proof (Omu _ _ Hi) as Hli.
      destruct (locks t'); [destruct Hmu' as [Hl|Hl]; [done| |]|]; [apply Hli in Hl; naive_solver|naive_solver|].
      destruct (locks t); [|done]. assert (mu s = Some i) as -> by (by apply Hli). naive_solver.
  - intros j u a [[-> ->]|(Hne & v & Hv & _ & El & _)]%Hr Ha; [by apply Hle|].
    rewrite El in Ha. destruct (Hfl a (Ole _ _ _ Hv Ha)) as [?|[Hl _]]; [done|]. by destruct (Hne (Ole1 _ _ _ _ _ Hv Hi Ha Hl)).
  - intros j k u u' a [[-> ->]|(Hne & v & Hv & _ & El & _)]%Hr [[-> ->]|(Hne' & v' & Hv' & _ & El' & _)]%Hr Ha Ha'; [done| | |].
    + rewrite El' in Ha'. destruct (Hle a Ha) as [_ [Hl|Hl]]; [by eapply (Ole1 i k)|]. by destruct Hl; eapply Ole.
    + rewrite El in Ha. destruct (Hle a Ha') as [_ [Hl|Hl]]; [by eapply (Ole1 j i)|]. by destruct Hl; eapply Ole.
    + rewrite El in Ha. rewrite El' in Ha'. by eapply Ole1.
  - intros j u a [[-> ->]|(Hne & v & Hv & _ & _ & El & _)]%Hr Ha.
    + destruct (Hmi a Ha) as [Hx|[_ Hx]]; [by eapply Omi|done].
    + rewrite El in Ha. by eapply Omi.
  - intros j u c [[-> ->]|(Hne & v & Hv & El & _)]%Hr Hc; [rewrite Hho in Hc|rewrite El in Hc]; by eapply Ohe.
  - intros j k u u' c [[-> ->]|(Hne & v & Hv & El & _)]%Hr [[-> ->]|(Hne' & v' & Hv' & El' & _)]%Hr Ha Ha'; [done|..];
      rewrite ?Hho, ?El in Ha; rewrite ?Hho, ?El' in Ha'; by eapply Ohe1.
  - intros c Hc. destruct (Oop c Hc) as [?|(j & u & Hu & Hh)]; [by left|right].
    destruct (decide (j = i)) as [->|Hne].
    + assert (u = t) as -> by (unfold runs in *; congruence). exists i, t'. split; [apply Hm; by left|congruence].
    + exists j, (f u). split; [apply Hm; right; eauto|]. by rewrite (proj1 (Hf u)).
  - intros j u [[-> ->]|(Hne & v & Hv & _ & _ & _ & _ & _ & El & _)]%Hr Hc; [by apply Hcg|].
    rewrite El in Hc. by apply Hcd, (Ocg _ _ Hv).
  - intros j [[-> Ht]|(Hne & v & Hv & _ & _ & _ & _ & _ & _ & El)]%Hr.
    + destruct (Hkd (eq_sym Ht)) as [Hem Hlk]. split; [done|].
      intros k u [[-> ->]|(Hne & v & Hv & _ & _ & _ & _ & Es & _)]%Hr; [by rewrite <- Ht|]. rewrite Es.
      destruct (storing v) eqn:Ev; [|done]. assert (locks v = true) as Hlv by (by destruct v).
      apply (Omu _ _ Hv) in Hlv. apply (Omu _ _ Hi) in Hlk. congruence.
    + rewrite (El eq_refl) in Hv. destruct (Ocd _ Hv) as [Hem Hns]. split; [done|].
      intros k u [[-> ->]|(Hne' & v' & Hv' & _ & _ & _ & _ & Es & _)]%Hr; [|rewrite Es; by eapply Hns].
      destruct (storing t') eqn:Et; [|done]. destruct (Hst eq_refl) as [Hs|Hs]; [by rewrite (Hns _ _ Hi) in Hs|].
      by rewrite (Ocg _ _ Hv eq_refl) in Hs.
Qed.

(** ** Steps that open, keep or close a connection *)

Lemma runs_eq s i t t' : runs s i t -> runs s i t' -> t = t'.
Proof. unfold runs. congruence. Qed.

(** A new connection, held by the goroutine that dialled. *)
Lemma ok_dial s i a :
  ok s -> runs s i (GDial a) ->
  ok (goto (mkState (closed s) (clients s) (mu s) (flight s) ({[fresh s]} ∪ opened s) (S (fresh s)) (threads s)) i (GLock a (fresh s))).
Proof.
  intros Hok Hi. set (s1 := mkState _ _ _ _ _ _ _).
  pose proof (goto_moved s1 s i _ (GLock a (fresh s)) eq_refl Hi) as Hm.
  assert (forall j u, runs (goto s1 i (GLock a (fresh s))) j u -> j = i /\ u = GLock a (fresh s) \/ j <> i /\ runs s j u) as Hr.
  { intros j u [?|(Hne & v & Hv & ->)]%Hm; [by left|by right]. }
  destruct Hok as [Omu Ole Ole1 Omi Ofr Ohe Ohe1 Oca Oca1 Oop Ocg Ocd].
  assert (fresh s ∉ opened s) as Hnew by (intros Hc%Ofr; lia).
  constructor; cbn.
  - intros j u [[-> ->]|[_ Hu]]%Hr; [|by apply Omu]. apply (Omu _ _ Hi).
  - intros j u x [[-> ->]|[_ Hu]]%Hr Hx; [by apply (Ole _ _ _ Hi)|by eapply Ole].
  - intros j k u u' x [[-> ->]|[_ Hu]]%Hr [[-> ->]|[_ Hu']]%Hr Hx Hx'; [done|by eapply (Ole1 i k)|by eapply (Ole1 j i)|by eapply Ole1].
  - intros j u x [[-> ->]|[_ Hu]]%Hr Hx; [by apply (Omi _ _ _ Hi)|by eapply Omi].
  - intros c [->%elem_of_singleton|Hc%Ofr]%elem_of_union; lia.
  - intros j u c [[-> ->]|[_ Hu]]%Hr Hc.
    + injection Hc as <-. split; [set_solver|]. intros b Hb. by apply Hnew, (Oca b).
    + destruct (Ohe _ _ _ Hu Hc). split; [set_solver|done].
  - intros j k u u' c [[-> ->]|[_ Hu]]%Hr [[-> ->]|[_ Hu']]%Hr Hc Hc'; [done| | |by eapply Ohe1]; exfalso; apply Hnew.
    + injection Hc as ->. by eapply Ohe.
    + injection Hc' as ->. by eapply Ohe.
  - intros b c Hc%Oca. set_solver.
  - done.
  - intros c [->%elem_of_singleton|Hc]%elem_of_union; [right; exists i, (GLock a (fresh s)); split; [apply Hm; by left|done]|].
    destruct (Oop c Hc) as [?|(j & u & Hu & Hh)]; [by left|right]. exists j, u. split; [|done]. apply Hm. right.
    split; [|by exists u]. intros ->. by rewrite (runs_eq _ _ _ _ Hu Hi) in Hh.
  - intros j u [[-> ->]|[_ Hu]]%Hr Hx; [done|by eapply Ocg].
  - intros j [[-> ?]|[_ Hu]]%Hr; [done|]. destruct (Ocd _ Hu) as [Hem Hns]. split; [done|].
    intros k u [[-> ->]|[_ Hu']]%Hr; [done|by eapply Hns].
Qed.

(** The goroutine hands its connection to the cache and is done. *)
Lemma ok_store s i a c :
  ok s -> runs s i (GStore a c) -> clients s !! a = None ->
  ok (finish (with_clients (with_mu s None) (<[a := c]> (clients s))) i a (Some c)).
Proof.
  intros Hok Hi Hno. set (s1 := with_clients _ _). pose proof (finish_moved s1 s i _ a (Some c) eq_refl Hi) as Hm.
  assert (forall j u, runs (finish s1 i a (Some c)) j u -> j = i /\ u = GDone a (Some c) \/ j <> i /\ exists v, runs s j v /\
    holds u = holds v /\ leads u = leads v /\ missing u = missing v /\ locks u = locks v /\ storing u = storing v /\
    closing u = closing v /\ (u = KDone true -> v = KDone true)) as Hr.
  { intros j u [?|(Hne & v & Hv & ->)]%Hm; [by left|right]. split; [done|]. exists v. split; [done|]. apply harmless_wake. }
  destruct Hok as [Omu Ole Ole1 Omi Ofr Ohe Ohe1 Oca Oca1 Oop Ocg Ocd].
  destruct (Ohe _ _ _ Hi eq_refl) as [Hopen Hnc]. assert (mu s = Some i) as Hlock by (by apply (Omu _ _ Hi)).
  constructor; cbn.
  - intros j u [[-> ->]|(Hne & v & Hv & _ & _ & _ & El & _)]%Hr; [done|]. rewrite El, (Omu _ _ Hv), Hlock. naive_solver.
  - intros j u x [[-> ->]|(Hne & v & Hv & _ & El & _)]%Hr Hx; [done|]. rewrite El in Hx.
    apply elem_of_difference. split; [by eapply Ole|]. intros ->%elem_of_singleton. by apply Hne, (Ole1 j i v (GStore a c) a).
  - intros j k u u' x [[-> ->]|(Hne & v & Hv & _ & El & _)]%Hr [[-> ->]|(Hne' & v' & Hv' & _ & El' & _)]%Hr Hx Hx'; try done.
    rewrite El in Hx. rewrite El' in Hx'. by eapply Ole1.
  - intros j u x [[-> ->]|(Hne & v & Hv & _ & El & Em & _)]%Hr Hx; [done|]. rewrite Em in Hx.
    rewrite lookup_insert_ne; [by eapply Omi|]. intros <-. apply Hne, (Ole1 j i v (GStore a c) a); try done. by destruct v.
  - done.
  - intros j u d [[-> ->]|(Hne & v & Hv & Eh & _)]%Hr Hd; [done|]. rewrite Eh in Hd. destruct (Ohe _ _ _ Hv Hd) as [Ho Hn].
    split; [done|]. intros b [[<- ->]|[_ Hb]]%lookup_insert_Some; [|by apply (Hn b)]. by apply Hne, (Ohe1 j i v (GStore a d) d).
  - intros j k u u' d [[-> ->]|(Hne & v & Hv & Eh & _)]%Hr [[-> ->]|(Hne' & v' & Hv' & Eh' & _)]%Hr Hd Hd'; try done.
    rewrite Eh in Hd. rewrite Eh' in Hd'. by eapply Ohe1.
  - intros b d [[<- <-]|[_ Hb]]%lookup_insert_Some; [done|by eapply Oca].
  - intros b b' d [[<- <-]|[Hne Hb]]%lookup_insert_Some [[<- Hd]|[Hne' Hb']]%lookup_insert_Some; subst; try done;
      [by destruct (Hnc b')|by destruct (Hnc b)|by eapply Oca1].
  - intros d Hd. destruct (Oop d Hd) as [[b Hb]|(j & u & Hu & Hh)].
    + left. exists b. rewrite lookup_insert_ne; [done|]. intros <-. by rewrite Hno in Hb.
    + destruct (decide (j = i)) as [->|Hne].
      * rewrite (runs_eq _ _ _ _ Hu Hi) in Hh. injection Hh as <-. left. exists a. apply lookup_insert_eq.
      * right. exists j, (wake a (Some c) u). split; [apply Hm; right; eauto|by rewrite holds_wake].
  - intros j u [[-> ->]|(Hne & v & Hv & _ & _ & _ & _ & _ & El & _)]%Hr Hc; [done|]. rewrite El in Hc. by eapply Ocg.
  - intros j [[-> ?]|(Hne & v & Hv & _ & _ & _ & _ & _ & _ & El)]%Hr; [done|]. rewrite (El eq_refl) in Hv.
    destruct (Ocd _ Hv) as [_ Hns]. by specialize (Hns _ _ Hi).
Qed.

(** The goroutine closes the connection it holds and is done. *)
Lemma ok_discard s i a c r :
  ok s -> runs s i (GDiscard a c r) -> ok (finish (closeClient s c) i a r).
Proof.
  intros Hok Hi. pose proof (finish_moved (closeClient s c) s i _ a r eq_refl Hi) as Hm.
  assert (forall j u, runs (finish (closeClient s c) i a r) j u -> j = i /\ u = GDone a r \/ j <> i /\ exists v, runs s j v /\
    holds u = holds v /\ leads u = leads v /\ missing u = missing v /\ locks u = locks v /\ storing u = storing v /\
    closing u = closing v /\ (u = KDone true -> v = KDone true)) as Hr.
  { intros j u [?|(Hne & v & Hv & ->)]%Hm; [by left|right]. split; [done|]. exists v. split; [done|]. apply harmless_wake. }
  destruct Hok as [Omu Ole Ole1 Omi Ofr Ohe Ohe1 Oca Oca1 Oop Ocg Ocd].
  destruct (Ohe _ _ _ Hi eq_refl) as [Hopen Hnc]. constructor; cbn.
  - intros j u [[-> ->]|(Hne & v & Hv & _ & _ & _ & El & _)]%Hr; [by apply (Omu _ _ Hi)|]. rewrite El. by apply Omu.
  - intros j u x [[-> ->]|(Hne & v & Hv & _ & El & _)]%Hr Hx; [done|]. rewrite El in Hx.
    apply elem_of_difference. split; [by eapply Ole|]. intros ->%elem_of_singleton. by apply Hne, (Ole1 j i v (GDiscard a c r) a).
  - intros j k u u' x [[-> ->]|(Hne & v & Hv & _ & El & _)]%Hr [[-> ->]|(Hne' & v' & Hv' & _ & El' & _)]%Hr Hx Hx'; try done.
    rewrite El in Hx. rewrite El' in Hx'. by eapply Ole1.
  - intros j u x [[-> ->]|(Hne & v & Hv & _ & El & Em & _)]%Hr Hx; [done|]. rewrite Em in Hx. by eapply Omi.
  - intros d [Hd _]%elem_of_difference. by apply Ofr.
  - intros j u d [[-> ->]|(Hne & v & Hv & Eh & _)]%Hr Hd; [done|]. rewrite Eh in Hd. destruct (Ohe _ _ _ Hv Hd) as [Ho Hn].
    split; [|done]. apply elem_of_difference. split; [done|]. intros ->%elem_of_singleton.
    by apply Hne, (Ohe1 j i v (GDiscard a c r) c).
  - intros j k u u' d [[-> ->]|(Hne & v & Hv & Eh & _)]%Hr [[-> ->]|(Hne' & v' & Hv' & Eh' & _)]%Hr Hd Hd'; try done.
    rewrite Eh in Hd. rewrite Eh' in Hd'. by eapply Ohe1.
  - intros b d Hb. apply elem_of_difference. split; [by eapply Oca|]. intros ->%elem_of_singleton. by apply (Hnc b).
  - done.
  - intros d [Hd Hne]%elem_of_difference. destruct (Oop d Hd) as [?|(j & u & Hu & Hh)]; [by left|right].
    exists j, (wake a r u). rewrite holds_wake. split; [|done]. apply Hm. right. split; [|by exists u]. intros ->.
    rewrite (runs_eq _ _ _ _ Hu Hi) in Hh. injection Hh as <-. set_solver.
  - intros j u [[-> ->]|(Hne & v & Hv & _ & _ & _ & _ & _ & El & _)]%Hr Hc; [done|]. rewrite El in Hc. by eapply Ocg.
  - intros j [[-> ?]|(Hne & v & Hv & _ & _ & _ & _ & _ & _ & El)]%Hr; [done|]. rewrite (El eq_refl) in Hv.
    destruct (Ocd _ Hv) as [Hem Hns]. split; [done|].
    intros k u [[-> ->]|(_ & w & Hw & _ & _ & _ & _ & Es & _)]%Hr; [done|]. rewrite Es. by eapply Hns.
Qed.

(** The loop of [Close] closes one client and deletes it. *)
Lemma ok_range s i k c :
  ok s -> runs s i KRange -> clients s !! k = Some c -> ok (closeClient (with_clients s (delete k (clients s))) c).
Proof.
  intros Hok Hi Hk. destruct Hok as [Omu Ole Ole1 Omi Ofr Ohe Ohe1 Oca Oca1 Oop Ocg Ocd]. constructor; cbn; try done.
  - intros j u x Hu Hx. apply lookup_delete_None. right. by eapply Omi.
  - intros d [Hd _]%elem_of_difference. by apply Ofr.
  - intros j u d Hu Hd. destruct (Ohe _ _ _ Hu Hd) as [Ho Hn]. split.
    + apply elem_of_difference. split; [done|]. intros ->%elem_of_singleton. by apply (Hn k).
    + intros b [_ Hb]%lookup_delete_Some. by apply (Hn b).
  - intros b d [Hne Hb]%lookup_delete_Some. apply elem_of_difference. split; [by eapply Oca|].
    intros ->%elem_of_singleton. by apply Hne, (Oca1 k b c).
  - intros b b' d [_ Hb]%lookup_delete_Some [_ Hb']%lookup_delete_Some. by eapply Oca1.
  - intros d [Hd Hne]%elem_of_difference. destruct (Oop d Hd) as [[b Hb]|?]; [left|by right].
    exists b. rewrite lookup_delete_ne; [done|]. intros <-. rewrite Hk in Hb. injection Hb as <-. set_solver.
  - intros j Hj. destruct (Ocd _ Hj) as [Hem _]. by rewrite Hem in Hk.
Qed.

Ltac control H :=
  match goal with Hok : ok _, Hi : runs _ _ _ |- _ =>
    first [unshelve eapply (ok_control _ _ _ _ _ _ Hok Hi harmless_id (H _ _ _)); [reflexivity|..]
          |unshelve eapply (ok_control _ _ _ _ _ _ Hok Hi (harmless_wake _ _) (H _ _ _ _)); [reflexivity|..]]
  end; cbn; try done; try (by auto).

Lemma ok_stepGet s i dials t s' : ok s -> runs s i t -> stepGet s i dials t = Some s' -> ok s'.
Proof.
  intros Hok Hi. pose proof (fun s0 t' He => goto_moved s0 s i t t' He Hi) as Hg.
  pose proof (fun s0 a r He => finish_moved s0 s i t a r He Hi) as Hfi.
  destruct t as [a|a|a|a|a|a|a c|a c|a c|a c r|a r| | | |b]; cbn; try done.
  - intros [= <-]. destruct (closed s); control Hg.
  - intros [= <-]. destruct (clients s !! a); control Hg.
  - case_bool_decide as Hf; intros [= <-].
    + control Hg.
    + control Hg; [|set_solver]. intros x [= <-]. split; [set_solver|by right].
  - destruct (clients s !! a) as [c|] eqn:Ec; intros [= <-].
    + control Hfi. intros x Hx. destruct (decide (x = a)) as [->|]; [by right|left; set_solver].
    + control Hg.
      * intros x [= <-]. split; [by eapply (ok_lead _ Hok _ _ _ Hi)|by left].
      * intros x [= <-]. by right.
  - destruct dials; intros [= <-]; [by apply ok_dial|].
    control Hfi. intros x Hx. destruct (decide (x = a)) as [->|]; [by right|left; set_solver].
  - destruct (mu s) eqn:Em; [done|]. intros [= <-]. control Hg.
    intros x [= <-]. split; [by eapply (ok_lead _ Hok _ _ _ Hi)|by left].
  - intros [= <-]. destruct (closed s) eqn:Ec.
    + control Hg.
      intros x [= <-]. split; [by eapply (ok_lead _ Hok _ _ _ Hi)|by left].
    + control Hg.
      * by apply (ok_mu _ Hok _ _ Hi).
      * intros x [= <-]. split; [by eapply (ok_lead _ Hok _ _ _ Hi)|by left].
  - rewrite (ok_missing _ Hok _ _ _ Hi eq_refl). intros [= <-]. apply ok_store; [done..|]. by eapply (ok_missing _ Hok _ _ _ Hi).
  - intros [= <-]. by apply ok_discard.
Qed.

Lemma ok_stepClose s i k t s' : ok s -> runs s i t -> stepClose s i k t = Some s' -> ok s'.
Proof.
  intros Hok Hi. pose proof (fun s0 t' He => goto_moved s0 s i t t' He Hi) as Hg.
  destruct t as [a|a|a|a|a|a|a c|a c|a c|a c r|a r| | | |b]; cbn; try done.
  - destruct (closed s); intros [= <-]; control Hg.
  - destruct (mu s) eqn:Em; [done|]. intros [= <-]. control Hg.
    intros _. by apply (ok_closing _ Hok _ _ Hi).
  - destruct (clients s !! k) as [c|] eqn:Ek; [intros [= <-]; by apply (ok_range s i)|].
    case_bool_decide as He; [|done]. intros [= <-]. control Hg.
    intros _. by apply (ok_closing _ Hok _ _ Hi).
Qed.

Lemma ok_init ts : Forall begins ts -> ok (init ts).
Proof.
  intros Hall.
  assert (forall i t, runs (init ts) i t ->
    holds t = None /\ leads t = None /\ missing t = None /\ locks t = false /\ closing t = false /\ t <> KDone true) as Hb.
  { intros i t Ht. pose proof (Forall_lookup_1 _ _ _ _ Hall Ht) as Hbt. by destruct t. }
  constructor; cbn; try done.
  - intros i t Ht. by destruct (Hb _ _ Ht) as (_ & _ & _ & -> & _).
  - intros i t a Ht Ha. destruct (Hb _ _ Ht) as (_ & He & _). congruence.
  - intros i j t t' a Ht _ Ha. destruct (Hb _ _ Ht) as (_ & He & _). congruence.
  - intros i t c Ht Hc. destruct (Hb _ _ Ht) as (He & _). congruence.
  - intros i j t t' c Ht _ Hc. destruct (Hb _ _ Ht) as (He & _). congruence.
  - intros i t Ht Hc. destruct (Hb _ _ Ht) as (_ & _ & _ & _ & He & _). congruence.
  - intros i Hi. by destruct (Hb _ _ Hi) as (_ & _ & _ & _ & _ & ?).
Qed.

Lemma cache_reachable_ok ts s : Forall begins ts -> rtc step (init ts) s -> ok s.
Proof.
  intros Hts Hr. assert (ok (init ts)) as Hok by (by apply ok_init). clear Hts.
  induction Hr as [|s1 s2 s3 (i & t & dials & k & Hi & [Hs|Hs]) _ IH]; [done| |]; apply IH.
  - by eapply ok_stepGet.
  - by eapply ok_stepClose.
Qed.

(** Whether a goroutine has returned. *)
Definition returned_ t : Prop := match t with GDone _ _ | KDone _ => True | _ => False end.

(** C39. The client cache leaks no connection, whatever goroutines call [Get] and [Close] and
    however they interleave: an open connection is either in the cache, under one address, or
    still held by the one [Get] that opened it; no address is dialled by two calls at a time,
    so that what [LoadOrStore] finds there is never another's; and once the [Close] that closed
    the cache has returned the cache is empty for good, and no connection is open when the
    other calls have returned too. *)
Theorem cache_leaks_nothing ts s :
  Forall begins ts -> rtc step (init ts) s ->
  (forall c, c ∈ opened s -> (exists a, clients s !! a = Some c /\ forall b, clients s !! b = Some c -> b = a) \/
     exists i t, runs s i t /\ holds t = Some c /\ forall j u, runs s j u -> holds u = Some c -> j = i) /\
  (forall i j t u a, runs s i t -> runs s j u -> leads t = Some a -> leads u = Some a -> i = j) /\
  (forall i a c, runs s i (GStore a c) -> clients s !! a = None) /\
  (forall i, runs s i (KDone true) -> clients s = ∅ /\ (Forall returned_ (threads s) -> opened s = ∅)).
Proof.
  intros Hts Hr. destruct (cache_reachable_ok _ _ Hts Hr) as [Omu Ole Ole1 Omi Ofr Ohe Ohe1 Oca Oca1 Oop Ocg Ocd].
  split; [|split; [|split]].
  - intros c Hc. destruct (Oop c Hc) as [[a Ha]|(i & t & Hi & Hh)]; [left; exists a|right; exists i, t]; eauto.
  - done.
  - intros i a c Hi. by apply (Omi _ _ _ Hi).
  - intros i Hi. destruct (Ocd _ Hi) as [Hem _]. split; [done|]. intros Hall. apply elem_of_equiv_empty_L. intros c Hc.
    destruct (Oop c Hc) as [[a Ha]|(j & t & Hj & Hh)]; [by rewrite Hem in Ha|].
    pose proof (Forall_lookup_1 _ _ _ _ Hall Hj). by destruct t.
Qed.

(** ** A run in which [Close] overtakes a [Get] that has dialled *)

(** Who moves, whether its dialling succeeds, and the key [Close] comes to. *)
Definition play1 (s : state) (x : nat * bool * string) : option state :=
  let '(i, dials, k) := x in
  match threads s !! i with
  | None => None
  | Some t => match stepGet s i dials t with Some s' => Some s' | None => stepClose s i k t end
  end.

Fixpoint play (s : state) (xs : list (nat * bool * string)) : option state :=
  match xs with [] => Some s | x :: xs' => match play1 s x with Some s' => play s' xs' | None => None end end.

Lemma play_rtc s xs s' : play s xs = Some s' -> rtc step s s'.
Proof.
  revert s. induction xs as [|[[i dials] k] xs IH]; intros s; cbn; [by intros [= <-]|].
  destruct (threads s !! i) as [t|] eqn:Et; [|done]. destruct (stepGet s i dials t) as [s1|] eqn:Eg.
  - intros Hp. eapply rtc_l; [|by apply IH]. exists i, t, dials, k. auto.
  - destruct (stepClose s i k t) as [s1|] eqn:Ec; [|done]. intros Hp. eapply rtc_l; [|by apply IH]. exists i, t, dials, k. auto.
Qed.

Definition schedule : list (nat * bool * string) :=
  ((fun i => (i, true, "peer"%string)) <$> [0; 0; 0; 0; 0; 1; 1; 1; 0; 0; 0]%nat).

Definition overtaken : state := default (init []) (play (init [GCheck "peer"; KSwap]) schedule).

Lemma cache_leaks_nothing_witness :
  threads overtaken = [GDone "peer" None; KDone true] /\ opened overtaken = ∅.
Proof.
  split; [vm_compute; reflexivity|].
  destruct (cache_leaks_nothing [GCheck "peer"; KSwap] overtaken) as (_ & _ & _ & Hc).
  - by repeat constructor.
  - apply (play_rtc _ schedule). vm_compute. reflexivity.
  - apply (Hc 1%nat); [vm_compute; reflexivity|]. vm_compute. by repeat constructor.
Defined.

End CacheConc.
