(* ===== verification/Servers.v ===== *)
(** * The listeners (src/server/server.go, src/server/resp.go) and the creation of an engine

    Which address a RESP server ends up on, which credentials a gRPC server is given, where it
    listens, how a free port is found, and [core.NewEngine] with the log it opens.  gnet and
    grpc are third-party: what binding a port returns is an argument. *)

From S2P Require Import Prelude Kv ShardedMap Snap Wal WalTheory Iface Writer Evict Engine EngineTheory Mesh Entropy EntropyTheory Cluster Database Builder GoLib Cli.
From stdpp Require Import pretty.
Import ShardedMap Writer Engine.

#[local] Open Scope Z_scope.

(** ** RESP *)

Module RespListener.

(** [engine]: whether gnet has handed over its engine; [stops]: how often it was told to stop. *)
Record RESPServer := mkResp { addr : string; bound : string; resolvedAddr : string; engine : bool; stopOnce : bool; stops : nat }.

Definition NewRESPServer (a : string) : RESPServer := mkResp a EmptyString EmptyString false false 0.
Definition newGnetServer (a : string) : RESPServer := NewRESPServer a.

Definition Addr (s : RESPServer) : string := if bool_decide (bound s <> EmptyString) then bound s else addr s.

Definition OnBoot (s : RESPServer) : RESPServer :=
  mkResp (addr s) (resolvedAddr s) (resolvedAddr s) true (stopOnce s) (stops s).

(** [strings.HasSuffix]. *)
Definition HasSuffix (s suffix : string) : bool :=
  let n := (length (string_bytes s) - length (string_bytes suffix))%nat in
  bool_decide (drop n (string_bytes s) = string_bytes suffix) && (length (string_bytes suffix) <=? length (string_bytes s))%nat.

(** [Run] up to [gnet.Run]: the address it is given, or the error of the probe. [listen] is the
    port that binding the address yields. *)
Definition Run (listen : string -> result Z) (s : RESPServer) : result string * RESPServer :=
  let resolved :=
    if HasSuffix (addr s) ":0" || bool_decide (addr s = ":0"%string) then
      match listen (addr s) with
      | Err e => Err e
      | Ok port => Ok ("127.0.0.1:" +:+ pretty port)
      end
    else Ok (addr s) in
  match resolved with
  | Err e => (Err e, s)
  | Ok a => (Ok ("tcp://" +:+ a), mkResp (addr s) (bound s) a (engine s) (stopOnce s) (stops s))
  end.

Definition Stop (s : RESPServer) : RESPServer :=
  if stopOnce s then s
  else mkResp (addr s) (bound s) (resolvedAddr s) (engine s) true (if engine s then S (stops s) else stops s).

(** A RESP server that is up reports the address it was given to gnet, with the real port
    when a free one was asked for: then the loopback address, whatever host was configured.
    It is stopped at most once, and a [Stop] before it is up never stops it later. *)
Theorem resp_address listen a r s :
  a <> EmptyString -> Run listen (NewRESPServer a) = (Ok r, s) ->
  r = ("tcp://" +:+ Addr (OnBoot s)) /\
  (Addr (OnBoot s) = a \/ exists port, listen a = Ok port /\ Addr (OnBoot s) = ("127.0.0.1:" +:+ pretty port)) /\
  stops (Stop (Stop (OnBoot s))) = 1%nat /\ stops (Stop (OnBoot (Stop s))) = 0%nat.
Proof.
  intros Ha. unfold Run. cbn [addr NewRESPServer]. destruct (_ || _).
  - destruct (listen a) as [port|e]; [|done]. intros [= <- <-]. unfold Addr, OnBoot. cbn -[String.append].
    rewrite bool_decide_true by done. split; [done|]. split; [right; by exists port|done].
  - intros [= <- <-]. unfold Addr, OnBoot. cbn -[String.append]. rewrite bool_decide_true by done.
    split; [done|]. split; [by left|done].
Qed.

Lemma resp_address_witness :
  exists s, Run (fun _ => Ok 40001) (NewRESPServer "0.0.0.0:0") = (Ok "tcp://127.0.0.1:40001"%string, s) /\
    stops (Stop (Stop (OnBoot s))) = 1%nat.
Proof.
  eexists. assert (Run (fun _ => Ok 40001) (NewRESPServer "0.0.0.0:0") =
    (Ok "tcp://127.0.0.1:40001"%string, mkResp "0.0.0.0:0" "" "127.0.0.1:40001" false false 0)) as Hr by (vm_compute; reflexivity).
  split; [exact Hr|]. apply (resp_address (fun _ => Ok 40001) "0.0.0.0:0" _ _ ltac:(discriminate) Hr).
Defined.

End RespListener.

(** ** gRPC *)

Module GrpcServer.

(** [NewServer]: the credentials that the server is made with; none is plain text. *)
Definition NewServer (creds : option string) : option string :=
  match creds with
  | Some c => if bool_decide (c = "insecure"%string) then None else Some c
  | None => None
  end.

(** [Listen]; [None] is the panic of [Addr]. *)
Definition Listen (addr : option string) (listen : string -> result unit) : option (result string) :=
  match addr with
  | None => None
  | Some a =>
      match listen a with
      | Err e => Some (Err (ErrWrap ("oryx: failed to create listener on " +:+ a) e))
      | Ok _ => Some (Ok a)
      end
  end.

Section Serve.
Context {C E : Type}.
Variables (lru : E) (clk : C) (id : string) (freeGossip freeGrpc : Z).
Variables (frac : Z -> Z -> Z -> Z) (quote : string -> string).
Variable NewServerTLSFromFile : string -> string -> result string.
(** Credentials loaded from files are TLS. *)
Hypothesis tls_protocol : forall c k cr, NewServerTLSFromFile c k = Ok cr -> cr <> "insecure"%string.

(** [oryx serve] never serves gRPC in plain text unless [--insecure] was given without a
    complete certificate pair; with the pair, the server runs with the loaded credentials
    whether [--insecure] is given or not. *)
Theorem plaintext_server_asked f (b : Builder.DatabaseBuilder (C := C) (E := E)) :
  Cli.configure lru clk id freeGossip freeGrpc frac quote NewServerTLSFromFile f = Ok b ->
  match NewServer (Builder.creds b) with
  | None => Cli.boolean f "insecure" = true /\ (Cli.str f "tls-cert" = EmptyString \/ Cli.str f "tls-key" = EmptyString)
  | Some cr => NewServerTLSFromFile (Cli.str f "tls-cert") (Cli.str f "tls-key") = Ok cr
  end.
Proof.
  intros (cr & wi & si & gi & Hcr & _ & _ & _ & ->)%Cli.configure_ok. cbn. unfold Cli.secured in Hcr.
  case_bool_decide as Hp.
  - rewrite bool_decide_false by (by eapply tls_protocol). done.
  - destruct Hcr as [Hi ->]. split; [done|]. destruct (decide (Cli.str f "tls-cert" = EmptyString)); [by left|right].
    destruct (decide (Cli.str f "tls-key" = EmptyString)); [done|]. by destruct Hp.
Qed.

End Serve.
Module GrpcServerExamples.

Definition loads (c k : string) : result string :=
  if bool_decide (c = "server.crt"%string) then Ok "tls"%string else Err (ErrMsg "no such file").

Definition flags : gmap string Cli.flag :=
  <["tls-cert" := Cli.mkFlag (Cli.VString "server.crt") true]> (<["tls-key" := Cli.mkFlag (Cli.VString "server.key") true]>
    (<["insecure" := Cli.mkFlag (Cli.VBool true) true]> Cli.serveFlags))%string.

Definition configured : result (Builder.DatabaseBuilder (C := unit) (E := unit)) :=
  Cli.configure tt tt "id" 1 2 (fun _ _ _ => 0) (fun s => s) loads flags.

Lemma plaintext_server_asked_witness :
  exists b, configured = Ok b /\ loads "server.crt" "server.key" = Ok "tls"%string /\ NewServer (Builder.creds b) = Some "tls"%string.
Proof.
  destruct configured as [b|e] eqn:Ec; [|vm_compute in Ec; discriminate Ec]. exists b. split; [reflexivity|].
  pose proof (plaintext_server_asked tt tt "id" 1 2 (fun _ _ _ => 0) (fun s => s) loads) as Ht.
  specialize (Ht ltac:(intros c k cr; unfold loads; case_bool_decide; [intros [= <-]; discriminate|discriminate]) flags b Ec).
  split; [vm_compute; reflexivity|]. vm_compute in Ec. injection Ec as <-. vm_compute. reflexivity.
Defined.

End GrpcServerExamples.
End GrpcServer.

(** ** A free port *)

Module FreePort.

(** [os]: the port that binding port 0 yields; [free p]: whether [p] can be bound. *)
Fixpoint probe (n : nat) (free : Z -> bool) (port startPort : Z) : Z :=
  match n with
  | O => startPort
  | S n' => if free port then port else probe n' free (port + 1) startPort
  end.

Definition nextAvailablePort (os : result Z) (free : Z -> bool) (startPort : Z) : Z :=
  match os with Ok port => port | Err _ => probe 1000 free startPort startPort end.

Lemma probe_spec n free port start :
  (exists k, 0 <= k < Z.of_nat n /\ probe n free port start = port + k /\ free (port + k) = true /\
     forall j, 0 <= j < k -> free (port + j) = false) \/
  probe n free port start = start /\ forall j, 0 <= j < Z.of_nat n -> free (port + j) = false.
Proof.
  revert port. induction n as [|n IH]; intros port; cbn [probe]; [right; split; [done|lia]|].
  destruct (free port) eqn:Ef; [left; exists 0; rewrite Z.add_0_r; repeat split; [lia..|done|lia]|].
  assert (forall j, port + 1 + j = port + (j + 1)) as Hs by lia.
  assert (forall m, (forall j, 0 <= j < m -> free (port + 1 + j) = false) -> forall j, 0 <= j < m + 1 -> free (port + j) = false) as Hext.
  { intros m Hm j Hj. destruct (decide (j = 0)) as [->|]; [by rewrite Z.add_0_r|]. specialize (Hm (j - 1) ltac:(lia)).
    by replace (port + 1 + (j - 1)) with (port + j) in Hm by lia. }
  destruct (IH (port + 1)) as [(k & Hk & -> & Hf & Hb)|[-> Hb]]; [left; exists (k + 1)|right].
  - rewrite <- Hs. repeat split; [lia..|done|by apply Hext].
  - split; [done|]. intros j Hj. apply (Hext (Z.of_nat n)); [done|lia].
Qed.

End FreePort.

(** ** core.NewEngine *)

Module EngineInit.

(** Either log behind the interface. *)
#[export] Instance either_waler {W} `{Waler W} : Waler (NopWal + W) := {|
  wal_Publish k h m w := match w with
    | inl n => match wal_Publish k h m n with Some (r, n) => Some (r, inl n) | None => None end
    | inr w => match wal_Publish k h m w with Some (r, w) => Some (r, inr w) | None => None end end;
  wal_Replay w := match w with
    | inl n => match wal_Replay n with Some (u, r, n) => Some (u, r, inl n) | None => None end
    | inr w => match wal_Replay w with Some (u, r, w) => Some (u, r, inr w) | None => None end end;
  wal_PrepareSnapshot w := match w with
    | inl n => match wal_PrepareSnapshot n with Some (r, n) => Some (r, inl n) | None => None end
    | inr w => match wal_PrepareSnapshot w with Some (r, w) => Some (r, inr w) | None => None end end;
  wal_Clear o w := match w with
    | inl n => match wal_Clear o n with Some (r, n) => Some (r, inl n) | None => None end
    | inr w => match wal_Clear o w with Some (r, w) => Some (r, inr w) | None => None end end
|}.

Section Init.
Context `{HX : XXHash} `{HR : Radix} {W C E : Type} `{HW : Waler W} `{HC : Clocker C} `{HE : Evictor E}.

(** [core.Config], the paths and intervals of which only matter to what is an argument here. *)
Record Config := mkConfig { cfg_Evt : option E; cfg_Clock : C; cfg_SnpPath : string; cfg_NodeID : string; cfg_DisableWal : bool;
  cfg_DisableSnapshot : bool }.

(** [newWal]: what [wal.NewWal] returns; [snapshot] and [reuse] are those of [recover];
    [setCallback] is [SetEvictCallback].  [NewSnapshotter] never fails.  [None]: the replay does
    not return. *)
Definition NewEngine (cfg : Config) (newWal : result W) (snapshot : option (list Snap.gobMsg * bool)) (reuse : list bool)
    (setCallback : E -> E) : option (result (engine (NopWal + W) C E)) :=
  let log := if cfg_DisableWal cfg then Ok (inl NewNopWal) else match newWal with Ok w => Ok (inr w) | Err e => Err e end in
  match log with
  | Err e => Some (Err e)
  | Ok w =>
      match Engine.NewEngine w (cfg_Clock cfg) (cfg_Evt cfg) (cfg_NodeID cfg) (cfg_SnpPath cfg) (cfg_DisableSnapshot cfg) snapshot reuse with
      | None => None
      | Some eng => Some (Ok (with_evt eng setCallback))
      end
  end.

(** The builder's part: [newDatabase] hands its settings on. *)
Definition coreConfig (b : Builder.DatabaseBuilder (C := C) (E := E)) (clk : C) : Config :=
  mkConfig (Builder.evt b) clk (Builder.snpPath b) (Mesh.NodeID (Builder.meshBuilder b)) (Builder.disableWal b)
    (Builder.disableSnapshot b).

(** An engine that is made has the configured identity and evictor; with the log disabled it
    keeps nothing of one that exists on disk, and starts empty without a snapshot. *)
Theorem new_engine_config cfg newWal snapshot reuse cb eng :
  NewEngine cfg newWal snapshot reuse cb = Some (Ok eng) ->
  nodeID eng = cfg_NodeID cfg /\ Engine.evt eng = cb <$> cfg_Evt cfg /\
  (cfg_DisableWal cfg = true -> wal eng = inl NewNopWal) /\
  (cfg_DisableWal cfg = true -> cfg_DisableSnapshot cfg = true -> hm eng = NewShardedMap).
Proof.
  unfold NewEngine, Engine.NewEngine, recover. destruct (cfg_DisableWal cfg); [|destruct newWal as [w|]; [|done]].
  - destruct (cfg_DisableSnapshot cfg) eqn:Ed; cbn [negb andb]; [by intros [= <-]|]. case_bool_decide; cbn [negb]; [by intros [= <-]|].
    destruct snapshot as [[ms [|]]|]; cbn; by intros [= <-].
  - destruct (negb _ && negb _); [|by intros [= <-]].
    destruct snapshot as [[ms [|]]|]; cbn;
      [destruct (wal_Replay w) as [[[u [|]] w']|]; cbn; try done; by intros [= <-]|by intros [= <-]|
       destruct (wal_Replay w) as [[[u [|]] w']|]; cbn; try done; by intros [= <-]].
Qed.

End Init.
End EngineInit.
