(* ===== verification/Process.v ===== *)
(** * The server process (src/cmd/oryx/cmd/serve.go, src/server/server.go, src/server/resp.go)

    What [oryx serve] does once the database is built: it starts the database, runs the gRPC
    and the RESP server in goroutines of their own and waits for a signal, on which it stops
    the RESP server, the gRPC server and the database; a server that fails ends the process.
    The machine interleaves the three goroutines with the requests and the signal.  Of grpc and
    gnet, which are third-party, it uses what their documentation says: [Serve] returns nil
    only after [GracefulStop], which waits for the requests in progress, and fails when it is
    called after it; [gnet.Engine.Stop] waits for the event loops to end. *)

From S2P Require Import Prelude Kv Mesh Builder Lifecycle Servers.
From stdpp Require Import relations.
Import Lifecycle.

#[local] Open Scope nat_scope.

#[local] Arguments grpcStop : simpl never.
#[local] Arguments databaseCall : simpl never.
#[local] Arguments RespListener.Run : simpl never.

Module Process.

Section Process.
Context {C E : Type}.
Implicit Types (b : Builder.DatabaseBuilder (C := C) (E := E)) (l : life (C := C) (E := E)).

(** The goroutine of the gRPC server: before [Listen], before [Serve], in it, returned. *)
Inductive grpcAt := GListen | GServe | GServing | GReturned.

(** The goroutine of the RESP server: before [Run], in [gnet.Run], with the event loops
    running, returned. *)
Inductive respAt := RRun | RStarting | RLoops | RReturned.

(** The main goroutine: waiting for a signal, at [respSrv.Stop], waiting in it, at
    [grpcSrv.Stop], waiting in [GracefulStop], in the [Stop] of the database with these steps to
    go. *)
Inductive mainAt := MSignal | MRespStop | MRespWait | MGrpcStop | MGrpcWait | MDatabase (todo : list action).

Record process := mkProcess {
  database : life (C := C) (E := E);
  (** What has been started and stopped. *)
  trace : list action;
  grpc : grpcAt;
  (** Whether [GracefulStop] was called, and the requests in progress. *)
  quit : bool;
  rpcs : nat;
  resp : respAt;
  respSrv : RespListener.RESPServer;
  main : mainAt;
  (** The exit status. *)
  exited : option nat
}.

Implicit Types (p : process).

Definition exit_ n p := mkProcess (database p) (trace p) (grpc p) (quit p) (rpcs p) (resp p) (respSrv p) (main p) (Some n).
Definition with_grpc g p := mkProcess (database p) (trace p) g (quit p) (rpcs p) (resp p) (respSrv p) (main p) (exited p).
Definition with_rpcs n p := mkProcess (database p) (trace p) (grpc p) (quit p) n (resp p) (respSrv p) (main p) (exited p).
Definition with_resp r srv p := mkProcess (database p) (trace p) (grpc p) (quit p) (rpcs p) r srv (main p) (exited p).
Definition goto m p := mkProcess (database p) (trace p) (grpc p) (quit p) (rpcs p) (resp p) (respSrv p) m (exited p).

Definition panics (a : action) : bool := match a with StartPanics _ | StopPanics _ => true | _ => false end.

(** [eng.Start] and the creation of the servers; [joined] is what joining the cluster returns. *)
Definition startServe b (joined : result unit) (respAddr : string) : process :=
  let '(t, l) := databaseCall (fresh b) (CStart joined) in
  mkProcess l t GListen false 0 RRun (RespListener.NewRESPServer respAddr) MSignal (if existsb panics t then Some 2 else None).

(** What can happen; the arguments are what binding an address returns. *)
Inductive event :=
| EListen (bound : result unit) | EServe | EAcceptFails | EServeReturns
| ERpc | ERpcDone
| ERespRun (port : result Z) | EBoot | ERespFails | ELoopsEnd
| ESignal | EMain.

(** The address of the database ([None]: [Addr] panics), and what leaving the cluster returns. *)
Variables (addr : option string) (left_ : result unit).

(** [grpcSrv.Run] in its goroutine. *)
Definition stepGrpc p (e : event) : option process :=
  match e, grpc p with
  | EListen bound, GListen =>
      Some match GrpcServer.Listen addr (fun _ => bound) with
           | None => exit_ 2 p
           | Some (Err _) => exit_ 1 p
           | Some (Ok _) => with_grpc GServe p
           end
  | EServe, GServe => Some (if quit p then exit_ 1 p else with_grpc GServing p)
  | EAcceptFails, GServing => if quit p then None else Some (exit_ 1 p)
  | EServeReturns, GServing => if quit p then Some (with_grpc GReturned p) else None
  | ERpc, GServing => if quit p then None else Some (with_rpcs (S (rpcs p)) p)
  | ERpcDone, _ => match rpcs p with O => None | S n => Some (with_rpcs n p) end
  | _, _ => None
  end.

(** [respSrv.Run] in its goroutine. *)
Definition stepResp p (e : event) : option process :=
  match e, resp p with
  | ERespRun port, RRun =>
      Some match RespListener.Run (fun _ => port) (respSrv p) with
           | (Err _, _) => exit_ 1 p
           | (Ok _, srv) => with_resp RStarting srv p
           end
  | EBoot, RStarting => Some (with_resp RLoops (RespListener.OnBoot (respSrv p)) p)
  | ERespFails, (RStarting | RLoops) => Some (exit_ 1 p)
  | ELoopsEnd, RLoops => if 0 <? RespListener.stops (respSrv p) then Some (with_resp RReturned (respSrv p) p) else None
  | _, _ => None
  end.

(** The main goroutine: [respSrv.Stop], then [grpcSrv.Stop], which is [GracefulStop] and the
    [Stop] of the database. *)
Definition stepMain p (e : event) : option process :=
  match e, main p with
  | ESignal, MSignal => Some (goto MRespStop p)
  | EMain, MRespStop =>
      let srv := RespListener.Stop (respSrv p) in
      let told := RespListener.stops (respSrv p) <? RespListener.stops srv in
      Some (goto (if told then MRespWait else MGrpcStop) (with_resp (resp p) srv p))
  | EMain, MRespWait => match resp p with RReturned => Some (goto MGrpcStop p) | _ => None end
  | EMain, MGrpcStop =>
      Some (mkProcess (database p) (trace p) (grpc p) true (rpcs p) (resp p) (respSrv p) MGrpcWait (exited p))
  | EMain, MGrpcWait =>
      match rpcs p with
      | O => let '(t, l) := grpcStop (database p) left_ in
             Some (mkProcess l (trace p) (grpc p) (quit p) (rpcs p) (resp p) (respSrv p) (MDatabase t) (exited p))
      | S _ => None
      end
  | EMain, MDatabase [] => Some (exit_ 0 p)
  | EMain, MDatabase (a :: todo) =>
      Some (mkProcess (database p) (trace p ++ [a]) (grpc p) (quit p) (rpcs p) (resp p) (respSrv p) (MDatabase todo)
              (if panics a then Some 2 else exited p))
  | _, _ => None
  end.

(** [os.Exit], a panic and the return of main end every goroutine. *)
Definition fire p (e : event) : option process :=
  match exited p with
  | Some _ => None
  | None =>
      match stepGrpc p e with
      | Some p' => Some p'
      | None => match stepResp p e with Some p' => Some p' | None => stepMain p e end
      end
  end.

Definition step p p' : Prop := exists e, fire p e = Some p'.

Fixpoint play p (es : list event) : option process :=
  match es with [] => Some p | e :: es' => match fire p e with Some p' => play p' es' | None => None end end.

Lemma process_play_rtc p es p' : play p es = Some p' -> rtc step p p'.
Proof.
  revert p. induction es as [|e es IH]; intros p; cbn; [by intros [= ->]|].
  destruct (fire p e) as [p1|] eqn:Ef; [|done]. intros Hp. eapply rtc_l; [by exists e|by apply IH].
Qed.

End Process.

(** ** Invariant *)

Section Invariant.
Context {C E : Type}.
Variables (addr : option string) (left_ : result unit) (l0 : life (C := C) (E := E)) (t0 : list action).
Implicit Types (p : process (C := C) (E := E)).

(** The RESP server has been told to stop and has stopped, or was not told. *)
Definition respQuiet p : Prop := RespListener.stops (respSrv p) = 0 \/ resp p = RReturned.

(** The [Stop] of the database, up to [todo]. *)
Definition stopping p (todo : list action) : Prop :=
  exists done, (grpcStop l0 left_).1 = done ++ todo /\ trace p = t0 ++ done /\
    (exited p = None \/ exited p = Some 0 -> existsb panics done = false).

(** Where the main goroutine is says what has been stopped. *)
Definition main_ok p : Prop :=
  match main p with
  | MSignal | MRespStop => quit p = false /\ trace p = t0 /\ database p = l0 /\ RespListener.stops (respSrv p) = 0 /\
      RespListener.stopOnce (respSrv p) = false
  | MRespWait => quit p = false /\ trace p = t0 /\ database p = l0 /\ (resp p = RLoops \/ resp p = RReturned) /\
      RespListener.stops (respSrv p) = 1
  | MGrpcStop => quit p = false /\ trace p = t0 /\ database p = l0 /\ respQuiet p
  | MGrpcWait => quit p = true /\ trace p = t0 /\ database p = l0 /\ respQuiet p
  | MDatabase todo => quit p = true /\ rpcs p = 0 /\ respQuiet p /\ stopping p todo
  end.

Record pinv p : Prop := {
  v_main : main_ok p;
  v_boot : RespListener.engine (respSrv p) = true -> resp p = RLoops \/ resp p = RReturned;
  v_returned : resp p = RReturned -> RespListener.stops (respSrv p) <> 0;
  v_exit : exited p = Some 0 -> main p = MDatabase []
}.

(** A server that fails leaves everything as it is. *)
Lemma pinv_exit n p : pinv p -> n <> 0 -> exited p = None -> pinv (exit_ n p).
Proof.
  intros [Hm Hb Hr He] Hn Hx. split; cbn; [|done|done|intros [= ->]; done].
  unfold main_ok, respQuiet in *. cbn. destruct (main p); try done. destruct Hm as (Hq & Hrp & Hrs & d & Hd & Ht & Hp).
  do 3 (split; [done|]). exists d. do 2 (split; [done|]). cbn. intros [?|[= ->]]; done.
Qed.

Lemma pinv_stepGrpc p e p' : pinv p -> exited p = None -> stepGrpc addr p e = Some p' -> pinv p'.
Proof.
  intros Hi Hx. assert (forall g, pinv (with_grpc g p)) as Hg by (intros g; by destruct Hi).
  pose proof (fun n (Hn : n <> 0) => pinv_exit n p Hi Hn Hx) as Hexit.
  assert (forall n, quit p = false \/ n <= rpcs p -> pinv (with_rpcs n p)) as Hrpc.
  { intros n Hn. destruct Hi as [Hm Hb Hr He]. split; cbn; try done. unfold main_ok, respQuiet, stopping in *. cbn.
    destruct (main p); try done. destruct Hm as (Hq & Hrp & Hrs). split; [done|]. split; [|done]. destruct Hn; [congruence|lia]. }
  unfold stepGrpc. destruct e, (grpc p); try done; intros Hs; repeat case_match; simplify_eq/=; auto; apply Hrpc; auto; right; lia.
Qed.

Lemma run_keeps listen srv r srv' :
  RespListener.Run listen srv = (r, srv') ->
  RespListener.engine srv' = RespListener.engine srv /\ RespListener.stops srv' = RespListener.stops srv /\
  RespListener.stopOnce srv' = RespListener.stopOnce srv.
Proof. unfold RespListener.Run. repeat case_match; intros; by simplify_eq/=. Qed.

Lemma run_ok port srv : exists url srv', RespListener.Run (fun _ => Ok port) srv = (Ok url, srv').
Proof. unfold RespListener.Run. destruct (_ || _); by eexists _, _. Qed.

Lemma pinv_stepResp p e p' : pinv p -> exited p = None -> stepResp p e = Some p' -> pinv p'.
Proof.
  intros Hi Hx. pose proof (fun n (Hn : n <> 0) => pinv_exit n p Hi Hn Hx) as Hexit. destruct Hi as [Hm Hb Hr He].
  unfold stepResp. destruct e, (resp p) eqn:Ep; try done.
  - destruct (RespListener.Run (fun _ => port) (respSrv p)) as [[a|err] srv] eqn:Er; intros [= <-]; [|by apply Hexit].
    apply run_keeps in Er as (E1 & E2 & E3). split; cbn; rewrite ?E1; [|intros Hb'; apply Hb in Hb' as [?|?]; congruence|done|done].
    unfold main_ok, respQuiet, stopping in *. cbn. rewrite ?E2, ?E3. rewrite Ep in Hm. destruct (main p); try done; naive_solver.
  - intros [= <-]. split; cbn; [|by left|done|done]. unfold main_ok, respQuiet, stopping in *. cbn. rewrite Ep in Hm.
    destruct (main p); try done; naive_solver.
  - intros [= <-]. by apply Hexit.
  - intros [= <-]. by apply Hexit.
  - destruct (Nat.ltb_spec 0 (RespListener.stops (respSrv p))) as [Hlt|]; [|done]. intros [= <-].
    split; cbn; [|by right|intros _; lia|done]. unfold main_ok, respQuiet, stopping in *. cbn. rewrite Ep in Hm.
    destruct (main p); try done; naive_solver.
Qed.

Lemma pinv_stepMain p e p' : pinv p -> exited p = None -> stepMain left_ p e = Some p' -> pinv p'.
Proof.
  intros [Hm Hb Hr _] Hx. assert (forall m : mainAt, exited p = Some 0 -> m = MDatabase []) as He by congruence.
  unfold stepMain. destruct e; try done; destruct (main p) as [| | | | |[|a todo]] eqn:Em; try done;
    unfold main_ok in Hm; rewrite Em in Hm.
  - intros [= <-]. split; cbn; auto.
  - destruct Hm as (Hq & Ht & Hd & Hs & Ho). unfold RespListener.Stop. rewrite Ho, Hs. intros [= <-].
    destruct (RespListener.engine (respSrv p)) eqn:Een; (split; cbn; [unfold main_ok, respQuiet; cbn|rewrite ?Een|..]); rewrite ?Hs in *; auto 10.
  - destruct (resp p) eqn:Ep; try done. intros [= <-]. split; cbn; rewrite ?Ep; auto.
    unfold main_ok, respQuiet. cbn. naive_solver.
  - intros [= <-]. split; cbn; auto. unfold main_ok, respQuiet in *. cbn. naive_solver.
  - destruct (rpcs p) as [|n] eqn:En; [|done]. destruct (grpcStop (database p) left_) as [t l] eqn:Eg. intros [= <-].
    destruct Hm as (Hq & Ht & Hd & Hs). split; cbn; auto.
    unfold main_ok, respQuiet in *. cbn. split; [done|]. split; [done|]. split; [done|]. exists []. rewrite <- Hd, Eg.
    cbn. by rewrite app_nil_r.
  - intros [= <-]. destruct Hm as (Hq & Hn & Hs & d & Hd & Ht & Hp). split; cbn; try done. unfold main_ok. cbn. rewrite Em.
    do 3 (split; [done|]). exists d. cbn. auto.
  - intros [= <-]. destruct Hm as (Hq & Hn & Hs & d & Hd & Ht & Hp). split; cbn; try done; [|by destruct (panics a); rewrite ?Hx].
    unfold main_ok. cbn. do 3 (split; [done|]). exists (d ++ [a]). cbn [trace exited]. rewrite Hd, Ht, <- !app_assoc. do 2 (split; [done|]).
    intros Hor. rewrite existsb_app, Hp by auto. cbn. destruct (panics a); [|done]. by destruct Hor.
Qed.

Lemma pinv_step p p' : pinv p -> step addr left_ p p' -> pinv p'.
Proof.
  intros Hi [e He]. unfold fire in He. destruct (exited p) eqn:Hx; [done|].
  destruct (stepGrpc addr p e) as [p1|] eqn:E1; [injection He as <-; by eapply pinv_stepGrpc|].
  destruct (stepResp p e) as [p1|] eqn:E2; [injection He as <-; by eapply pinv_stepResp|]. by eapply pinv_stepMain.
Qed.

Lemma pinv_reachable p p' : pinv p -> rtc (step addr left_) p p' -> pinv p'.
Proof. intros Hi Hr. induction Hr; eauto using pinv_step. Qed.

End Invariant.

(** ** Shutting down *)

Section Shutdown.
Context {C E : Type}.
Variables (addr : option string) (left_ : result unit).
Implicit Types (p : process (C := C) (E := E)) (b : Builder.DatabaseBuilder (C := C) (E := E)).

Abbreviation step' := (step addr left_).
Abbreviation stopTrace p := (grpcStop (database p) left_).1.

Lemma startServe_pinv b joined a : exited (startServe b joined a) = None ->
  let p := startServe b joined a in pinv left_ (database p) (trace p) p.
Proof. unfold startServe. destruct (databaseCall _ _) as [t l]. cbn. intros Hx. split; cbn; [done..|]. by rewrite Hx. Qed.

Lemma main_moves p p' : exited p = None -> stepMain left_ p EMain = Some p' -> step' p p'.
Proof. intros Hx Hs. exists EMain. unfold fire. by rewrite Hx. Qed.

(** The [Stop] of the database runs to its end. *)
Lemma database_stops p todo :
  exited p = None -> main p = MDatabase todo -> existsb panics todo = false ->
  exists p', rtc step' p p' /\ exited p' = None /\ main p' = MDatabase [] /\ trace p' = trace p ++ todo /\ resp p' = resp p.
Proof.
  revert p. induction todo as [|a todo IH]; intros p Hx Hm Hp; [exists p; by rewrite app_nil_r|].
  cbn in Hp. apply orb_false_iff in Hp as [Ha Hp].
  destruct (IH (mkProcess (database p) (trace p ++ [a]) (grpc p) (quit p) (rpcs p) (resp p) (respSrv p) (MDatabase todo) None))
    as (p' & Hr & Hx' & Hm' & Ht & Hq); [done..|]. exists p'. cbn in *. rewrite <- app_assoc in Ht.
  split; [eapply rtc_l; [|done]|done]. apply main_moves; [done|]. cbn. by rewrite Hm, Ha, Hx.
Qed.

Lemma rpcs_drain p : exited p = None -> rtc step' p (with_rpcs 0 p).
Proof.
  intros Hx. remember (rpcs p) as n eqn:En. revert p Hx En. induction n as [|n IH]; intros p Hx En.
  - destruct p. cbn in *. by subst.
  - eapply rtc_l; [|apply (IH (with_rpcs n p)); done]. exists ERpcDone. unfold fire. rewrite Hx. cbn. by rewrite <- En.
Qed.

Lemma grpc_stops p :
  exited p = None -> main p = MGrpcWait -> existsb panics (stopTrace p) = false ->
  exists p', rtc step' p p' /\ exited p' = None /\ main p' = MDatabase [] /\ trace p' = trace p ++ stopTrace p /\ resp p' = resp p.
Proof.
  intros Hx Hm Hp. destruct (grpcStop (database p) left_) as [t l] eqn:Eg. cbn [fst] in *.
  destruct (database_stops (mkProcess l (trace p) (grpc p) (quit p) 0 (resp p) (respSrv p) (MDatabase t) None) t) as (p' & Hr & Hrest);
    [done..|]. exists p'. split; [|done]. etrans; [by apply rpcs_drain|]. eapply rtc_l; [|done]. apply main_moves; [done|].
  cbn. rewrite Hm. cbn. by rewrite Eg, Hx.
Qed.

(** Some continuation exits in the end. *)
Definition finishes p : Prop := exists p', rtc step' p p' /\ exited p' = Some 0.

Lemma finishes_rtc p p1 : rtc step' p p1 -> finishes p1 -> finishes p.
Proof. intros Hr (p' & Hr' & Hx). exists p'. split; [by etrans|done]. Qed.

Lemma finishes_end p : exited p = None -> main p = MDatabase [] -> finishes p.
Proof. intros Hx Hm. exists (exit_ 0 p). split; [|done]. apply rtc_once, main_moves; [done|]. cbn. by rewrite Hm. Qed.

Lemma finishes_database p todo : exited p = None -> main p = MDatabase todo -> existsb panics todo = false -> finishes p.
Proof.
  intros Hx Hm Hp. destruct (database_stops p todo Hx Hm Hp) as (p' & Hr & Hx' & Hm' & _). eapply finishes_rtc; [done|]. by apply finishes_end.
Qed.

Lemma finishes_grpcWait p : exited p = None -> main p = MGrpcWait -> existsb panics (stopTrace p) = false -> finishes p.
Proof.
  intros Hx Hm Hp. destruct (grpc_stops p Hx Hm Hp) as (p' & Hr & Hx' & Hm' & _). eapply finishes_rtc; [done|]. by apply finishes_end.
Qed.

Lemma finishes_grpcStop p : exited p = None -> main p = MGrpcStop -> existsb panics (stopTrace p) = false -> finishes p.
Proof.
  intros Hx Hm Hp.
  apply (finishes_rtc _ (mkProcess (database p) (trace p) (grpc p) true (rpcs p) (resp p) (respSrv p) MGrpcWait (exited p))).
  - apply rtc_once, main_moves; [done|]. cbn. by rewrite Hm.
  - by apply finishes_grpcWait.
Qed.

Lemma finishes_respWait p :
  exited p = None -> main p = MRespWait -> resp p = RLoops \/ resp p = RReturned -> RespListener.stops (respSrv p) = 1 ->
  existsb panics (stopTrace p) = false -> finishes p.
Proof.
  intros Hx Hm Hr Hs Hp. apply (finishes_rtc _ (with_resp RReturned (respSrv p) p)).
  - destruct Hr as [Hr|Hr]; [|destruct p; cbn in *; by subst]. apply rtc_once. exists ELoopsEnd. unfold fire. rewrite Hx. cbn. by rewrite Hr, Hs.
  - apply (finishes_rtc _ (goto MGrpcStop (with_resp RReturned (respSrv p) p))).
    + apply rtc_once, main_moves; [done|]. cbn. by rewrite Hm.
    + by apply finishes_grpcStop.
Qed.

(** Once the signal has come the process can always still stop everything and exit. *)
Lemma can_exit l0 t0 p :
  pinv left_ l0 t0 p -> exited p = None -> main p <> MSignal -> existsb panics (grpcStop l0 left_).1 = false -> finishes p.
Proof.
  intros Hi Hx Hm Hp. pose proof (v_main _ _ _ _ Hi) as Ho. unfold main_ok in Ho.
  destruct (main p) as [| | | | |todo] eqn:Em; [done|..].
  - destruct Ho as (_ & _ & Hd & Hs & _).
    destruct (stepMain left_ p EMain) as [p1|] eqn:E1; [|cbn in E1; by rewrite Em in E1].
    assert (pinv left_ l0 t0 p1) as Hi1 by by eapply pinv_stepMain.
    apply (finishes_rtc _ p1); [by apply rtc_once, main_moves|]. pose proof (v_main _ _ _ _ Hi1) as Ho1.
    cbn in E1. rewrite Em in E1. injection E1 as <-. unfold main_ok in Ho1. cbn in Ho1. case_match eqn:Et; cbn in Ho1.
    + apply finishes_respWait; cbn; rewrite ?Et; try done; try tauto. by rewrite Hd.
    + apply finishes_grpcStop; cbn; rewrite ?Et; try done. by rewrite Hd.
  - destruct Ho as (_ & _ & Hd & Hr & Hs). apply finishes_respWait; try done. by rewrite Hd.
  - destruct Ho as (_ & _ & Hd & _). apply finishes_grpcStop; try done. by rewrite Hd.
  - destruct Ho as (_ & _ & Hd & _). apply finishes_grpcWait; try done. by rewrite Hd.
  - destruct Ho as (_ & _ & _ & d & Hd & _ & _). rewrite Hd, existsb_app in Hp. apply orb_false_iff in Hp as [_ Hp].
    by eapply finishes_database.
Qed.

(** What is started is stopped. *)
Lemma in_if (c : bool) (x y : action) tl : x ∈ (if c then [] else y :: tl) -> c = false /\ (x = y \/ x ∈ tl).
Proof. destruct c; [by intros ?%elem_of_nil|]. by intros ?%elem_of_cons. Qed.

Lemma engine_covers (l : life (C := C) (E := E)) part :
  Starts part ∈ (engineStart l).1 -> coreStopped l = false -> Stops part ∈ (engineStop l).1.
Proof.
  unfold engineStart, engineStop, snpStart, walStart, evtStart. destruct (coreStarted l); [by intros ?%elem_of_nil|]. cbn [fst].
  rewrite !elem_of_app. intros [(-> & [[= ->]|Hx])%in_if|[(-> & [[= ->]|Hx])%in_if|Hx]] ->; cbn [fst]; rewrite ?elem_of_app.
  - left. by left.
  - destruct (_ <=? 0)%Z; [by apply list_elem_of_singleton in Hx|by apply elem_of_nil in Hx].
  - right. left. by left.
  - destruct (_ && _); [by apply list_elem_of_singleton in Hx|by apply elem_of_nil in Hx].
  - right. right. destruct (Builder.evt (cfg l)); [|by apply elem_of_nil in Hx]. apply list_elem_of_singleton in Hx as [= ->]. by left.
Qed.

Lemma stop_covers_start b joined t l part :
  databaseCall (fresh b) (CStart joined) = (t, l) -> existsb panics t = false -> existsb panics (grpcStop l left_).1 = false ->
  Starts part ∈ t -> Stops part ∈ (grpcStop l left_).1.
Proof.
  unfold grpcStop, databaseCall, nodeStart, nodeStop. cbn [fresh cfg nodeStarted coreStarted coreStopped nodeStopped monitor].
  destruct (Mesh.SingleNode (Builder.meshBuilder b)) eqn:Es.
  - intros He _ _ Hin. pose proof (engineStart_keeps (fresh b)) as (Hc & _ & Hs & _). pose proof (engine_covers (fresh b) part) as Hcov.
    rewrite He in Hc, Hs, Hcov. cbn in Hc, Hs. rewrite Hc, Es. specialize (Hcov Hin eq_refl). unfold engineStop in *. by rewrite Hs, Hc.
  - set (l1 := mkLife b false false true false false). pose proof (engineStart_keeps l1) as (Hc & _ & Hs & _ & Hn).
    pose proof (engine_covers l1 part) as Hcov. destruct (engineStart l1) as [t1 l2]. cbn in Hc, Hs, Hn, Hcov.
    destruct joined as [u|err]; [destruct (_ <=? 0)%Z|]; intros [= <- <-]; rewrite ?existsb_app; cbn [existsb panics];
      rewrite ?orb_true_r; try done. intros _. cbn [cfg nodeStopped monitor]. rewrite Hc, Es, Hn. destruct left_; [|done].
    intros _ [Hin|Hin]%elem_of_app.
    + specialize (Hcov Hin eq_refl). unfold engineStop in *. cbn [coreStopped cfg] in *. rewrite Hs. cbn [fst] in *. set_solver.
    + destruct (engineStop _) as [t2 l3]. cbn. set_solver.
Qed.

(** C23. The shutdown of [oryx serve], in every interleaving of its goroutines, the requests and
    the signal.  Nothing of the database is stopped before the gRPC server has stopped taking
    requests and has finished those in progress, and before the RESP server has stopped, if it
    was told to.  The process exits with status 0 only when every step of the database's
    [Stop] has been carried out, and then every part that had been started has been stopped.
    And once the signal has come, nothing that has happened keeps it from getting there. *)
Theorem serve_shutdown b joined a p :
  let p0 := startServe b joined a in
  exited p0 = None -> rtc step' p0 p ->
  (trace p <> trace p0 -> quit p = true /\ rpcs p = 0 /\ (RespListener.stops (respSrv p) = 0 \/ resp p = RReturned)) /\
  (exited p = Some 0 -> trace p = trace p0 ++ stopTrace p0 /\ forall part, Starts part ∈ trace p0 -> Stops part ∈ trace p) /\
  (exited p = None -> main p <> MSignal -> existsb panics (stopTrace p0) = false -> exists p', rtc step' p p' /\ exited p' = Some 0).
Proof.
  intros p0 Hx Hr. pose proof (pinv_reachable _ _ _ _ p0 p (startServe_pinv b joined a Hx) Hr) as Hi. fold p0 in Hi.
  pose proof (v_main _ _ _ _ Hi) as Hm. split; [|split].
  - intros Ht. unfold main_ok in Hm. destruct (main p);
      try (destruct Hm as (_ & Ht' & _); by destruct (Ht Ht')).
    destruct Hm as (H1 & H2 & H3 & _). split; [done|]. split; [done|exact H3].
  - intros H0. unfold main_ok in Hm. rewrite (v_exit _ _ _ _ Hi H0) in Hm. destruct Hm as (_ & _ & _ & d & Hd & Ht & Hp).
    rewrite app_nil_r in Hd. subst d. specialize (Hp (or_intror H0)). split; [done|]. intros part Hin. rewrite Ht, elem_of_app. right.
    subst p0. unfold startServe in *. destruct (databaseCall (fresh b) (CStart joined)) as [t l] eqn:Ec. cbn in *.
    destruct (existsb panics t) eqn:Et; [done|]. by eapply stop_covers_start.
  - intros H1 H2 H3. by eapply can_exit.
Qed.

Definition outcome p : option nat * list action := (exited p, trace p).

(** The ways in which the process ends without closing what it opened.  A server that
    fails, for instance on an address in use, ends it with status 1 and nothing stopped, so
    that what the log had buffered is lost; a signal between [Listen] and [Serve] makes [Serve]
    fail and ends it in the same way in the middle of a shutdown; and a RESP server that comes
    up after it was told to stop goes on serving a database that has been stopped. *)
Theorem serve_exits_unstopped b joined a err :
  let p0 := startServe b joined a in
  exited p0 = None -> addr <> None ->
  (exists p, play addr left_ p0 [EListen (Err err)] = Some p /\ outcome p = (Some 1, trace p0)) /\
  (exists p, play addr left_ p0 [EListen (Ok tt); ESignal; EMain; EMain; EServe] = Some p /\ outcome p = (Some 1, trace p0)) /\
  (existsb panics (stopTrace p0) = false ->
     exists p, rtc step' p0 p /\ outcome p = (None, trace p0 ++ stopTrace p0) /\ resp p = RLoops).
Proof.
  intros p0 Hx Ha. destruct addr as [host|] eqn:Eaddr; [|done]. subst p0. unfold startServe in *.
  destruct (databaseCall (fresh b) (CStart joined)) as [t l]. cbn in Hx. destruct (existsb panics t) eqn:Et; [done|]. split; [|split].
  - eexists. split; [reflexivity|]. done.
  - eexists. split; [reflexivity|]. done.
  - intros Hp. set (p0 := mkProcess _ _ _ _ _ _ _ _ _).
    destruct (run_ok 1 (RespListener.Stop (RespListener.NewRESPServer a))) as (url & srv & Er).
    set (p1 := mkProcess l t GListen true 0 RLoops (RespListener.OnBoot srv) MGrpcWait None).
    assert (play (Some host) left_ p0 [ESignal; EMain; ERespRun (Ok 1%Z); EBoot; EMain] = Some p1) as E1.
    { cbn. cbn in Er. by rewrite Er. }
    destruct (grpc_stops p1) as (p' & Hr' & Hx' & _ & Ht' & Hq'); [done..|]. exists p'. cbn in Ht', Hq'.
    split; [|split; [unfold outcome; by rewrite Hx', Ht'|by rewrite Hq']].
    etrans; [eapply process_play_rtc; exact E1|]. by rewrite Eaddr in Hr'.
Qed.

End Shutdown.

Module ProcessExamples.

Abbreviation started := (startServe Builder.BuilderExamples.some_builder (Ok tt) "0.0.0.0:6379").

(** The servers come up; the signal comes while a request is in progress. *)
Definition orderly : list event :=
  [EListen (Ok tt); EServe; ERespRun (Ok 1%Z); EBoot; ERpc; ESignal; EMain; ELoopsEnd; EMain; EMain; ERpcDone; EServeReturns; EMain] ++
  replicate (S (length (grpcStop (database started) (Ok tt)).1)) EMain.

Definition ending := play (Some "n1:7000"%string) (Ok tt) started orderly.

Lemma ending_reached p : ending = Some p -> rtc (step (Some "n1:7000"%string) (Ok tt)) started p.
Proof. apply process_play_rtc. Qed.

Definition status {C E} (p : option (process (C := C) (E := E))) : bool := bool_decide ((p ≫= exited) = Some 0).

Lemma serve_shutdown_witness :
  exists p, ending = Some p /\ forall part, Starts part ∈ trace started -> Stops part ∈ trace p.
Proof.
  assert (status ending = true) as Hx by (vm_compute; reflexivity). apply bool_decide_eq_true in Hx.
  destruct ending as [p|] eqn:Ee; [|discriminate Hx]. exists p. split; [reflexivity|]. cbn in Hx.
  destruct (serve_shutdown (Some "n1:7000"%string) (Ok tt) Builder.BuilderExamples.some_builder (Ok tt) "0.0.0.0:6379" p)
    as (_ & Hz & _); [vm_compute; reflexivity|exact (ending_reached p Ee)|]. exact (proj2 (Hz Hx)).
Defined.

Lemma serve_exits_unstopped_witness :
  exists p, play (Some "n1:7000"%string) (Ok tt) started [EListen (Err (ErrMsg "address already in use"))] = Some p /\
    outcome p = (Some 1, trace started).
Proof.
  destruct (serve_exits_unstopped (Some "n1:7000"%string) (Ok tt) Builder.BuilderExamples.some_builder (Ok tt) "0.0.0.0:6379"
    (ErrMsg "address already in use")) as (Hf & _); [vm_compute; reflexivity|discriminate|exact Hf].
Defined.

End ProcessExamples.
End Process.
